(* ===== verification/_CoqProject ===== *)
-Q . S2P
Prelude.v
Num.v
Errors.v
JsValue.v
Payment.v
TokenBucket.v
CircuitBreaker.v
EventBus.v
Json.v
Redis.v
Gateway.v
Config.v
Bull.v
World.v
Registries.v
Stores.v
Sim.v
Guard.v
Saga.v
SagaSpec.v
Idempotency.v
QueueManager.v
Processor.v
ProcessorSpec.v
Service.v
ServiceSpec.v
Metrics.v
Geometry.v
Routes.v
Analyses.v
Ports.v
Checks.v
DiagramTests.v
Semver.v
Updates.v
RepositoryLocation.v
UpdateCheck.v
ArchitectureDelta.v
Concurrency.v
CacheFiles.v
CacheClaims.v
CacheSafety.v
CacheLogic.v
CacheProtocol.v
CacheResults.v
TextFit.v
Legend.v
Workflow.v
SemanticContract.v
ReadableLayout.v
LaneGeometry.v
WorkflowCanvas.v
RouteCandidates.v
RouteSearch.v
ColumnSolver.v
LayoutSpec.v
RouteSpec.v
WorkflowChecks.v
WorkflowSpec.v
WorkflowPins.v
WorkflowCompile.v
CompileSpec.v
Migration.v
MigrationSpec.v
