(* ===== verification/Prelude.v ===== *)
(** * The payment queue system (root of the development)

    A payment service accepts payment requests over HTTP, queues one job per
    payment on a queue of its gateway, and processes each job with workers:
    reserve funds, charge through the gateway, settle, and compensate when a step
    fails.  State shared between processes is in Redis; queues are BullMQ's.  The
    repository also bundles a diagram tool, archify, whose geometry, update check
    and comparison of architectures are modelled here.

    ** Parts, and where they are modelled

    Shared: [Prelude] (completions and effects of a method, weakest
    preconditions, frames), [Num] (JavaScript numbers: a class with an IEEE
    binary64 and a rational instance), [JsValue] (untyped values and texts),
    [Json] (what survives a round trip through JSON).

    Domain ([src/src/domain]): [Errors] (codes, retryability, classification),
    [Payment] (payments, records, their life cycle).

    Gateways ([src/src/gateway]): [TokenBucket], [CircuitBreaker],
    [Gateway] (the contract as a class with laws, the scripted mock gateway and
    its registry as an instance), [Registries] (one bucket and one breaker per
    gateway), [Guard] (the gated charge, the ungated refund, health).

    Infrastructure: [EventBus] and, in [World], the correlation context, the
    trace logger, spans and [src/src/tracing]; [Config] ([src/src/config]);
    [Redis] and [Bull], the interfaces of the two libraries with the documented
    behaviour the source relies on, as classes of laws; [Sim], a concrete platform
    on which every witness of a theorem is evaluated.

    Payments ([src/src/payments]): [Stores] (payment store, audit log, settlement
    ledger), [Idempotency] (leases, finalisation, execution lock), [Saga],
    [Processor], [Service] (validation, submission, controllers); what they
    guarantee is in [SagaSpec], [ProcessorSpec] and [ServiceSpec].

    Queues ([src/src/queue]): [QueueManager].  Metrics ([src/src/metrics]):
    [Metrics] (samples, percentiles, alerts, messages to sockets).

    Diagrams ([src/.agents/skills/archify/renderers/shared]): [Geometry]
    (primitives), [Routes] (normal form, rhythm, budgets), [Analyses] (labels,
    crossings, corridors, border runs), [Ports] (sides, spread and bridge, paths),
    [Checks] (the composition gates and the diagnostics they record);
    [DiagramTests] evaluates the repository's own test cases on them.  [TextFit]
    is the width of texts ([shared/utils.mjs], [shared/text-fit.mjs]).

    Workflow diagrams ([renderers/workflow/workflow-compiler.mjs]): [Workflow]
    (documents that conform to the schema, and their canonical order),
    [SemanticContract] (what an author requires of a document), [ReadableLayout]
    (columns, lanes and heights of the readable layout), [LaneGeometry] (the
    rectangles of lanes, nodes, frames and labels); what the layout guarantees is
    in [ColumnSolver] and [LayoutSpec].  [Legend] is [shared/legend.mjs];
    [WorkflowCanvas] the size of the canvas and the place of its legend;
    [RouteCandidates] the candidates for a route, what makes one feasible and what
    it costs; [RouteSearch] the search for sides and routes, with the caches that
    make the route of an edge depend on the edges before it, and its failures;
    [WorkflowChecks] the validation of a routed document; [WorkflowPins] the checks
    before and during routing; [WorkflowCompile] the canvas that is settled, one
    attempt at compiling, the receipt, and the rounds in which routing asks the
    layout for room; [Migration] ([migrations/workflow-v2.mjs],
    [workflow-migration-geometry.mjs]) the migration of a document of the fixed
    layout.  What they guarantee is in [RouteSpec], [WorkflowSpec], [CompileSpec]
    and [MigrationSpec].

    Tool ([src/.agents/skills/archify]): [Semver] (versions), [Updates] (release
    descriptors and manifests), [UpdateCheck] (the cached state of the update
    check), [RepositoryLocation] (remotes), [ArchitectureDelta] (the comparison of
    two architectures).  The cache that processes share
    ([scripts/check-update.mjs]): [Concurrency] (programs of atomic commands,
    their interleavings, and a rely-guarantee logic), [CacheFiles] (the directory,
    the file system calls and the guards around them), [CacheClaims] (claims,
    generations, [commitOperation], [checkForUpdate] and [acknowledgeUpdate]),
    [CacheSafety] (the invariant of the protocol and its steps), [CacheLogic] and
    [CacheProtocol] (what each function keeps under interference), [CacheResults]
    (any number of processes under any schedule, and samples of races).

    ** How they interact

    An async method is a term of [M exn world A]: it reads and writes [world]
    (clock, Redis, queues, gateways, buckets, breakers, events emitted, spans,
    log lines) and returns, throws, or exhausts the bound of a loop.  [Service]
    claims a lease with [Idempotency], writes the record with [Stores] and adds the
    job with [QueueManager]; [Processor] takes the execution lock, runs [Saga],
    which calls [Guard], and finalises with [Idempotency] and [Stores];
    [QueueManager] hands a failed job whose attempts are exhausted to
    [Processor].  Saga and processor mutate the record their caller holds, so they
    run on pairs of the world and the record.  Clients are proved against the
    classes [PaymentGateway], [Redis] and [BullMQ] and their laws, not against an
    implementation.

    A process of the update check is a term of [prog]: a tree of file system
    calls, each an atomic command on the token of the process and the shared
    directory, answered where it asks for time or for what lies above the
    directory by the environment.  A schedule says which process does its next
    call; a process that is no longer scheduled has crashed.  The decisions of
    [UpdateCheck] are what a process commits.

    A workflow is compiled by canonical order, semantic contract, layout, checks of
    the inputs, routes (edge by edge, each next to those placed before it), checks
    of pins and of the result, canvas and legend.  A failure is a value; a request
    for room starts the next attempt with a larger layout.  The migration compiles
    four projections of a document and then the document it makes of them.

    ** What the theorems show

    - A job: it asks for at most one charge, of its stored payment, whatever
      commands are lost; every way it can end; a finished or locked payment is not
      touched; exhausted retries dead-letter it; logs only grow
      ([ProcessorSpec]).  What a lost write after the charge leads to is a theorem
      too ([processJob_can_charge_twice]).
    - A saga execution: every way it ends, with its traces ([SagaSpec]).
    - A submission: validation is a declarative description, the cases of a
      submission with their event and job, no duplicate is created, and the life
      of an accepted payment: each delivery of its job completes it, dead-letters
      it or is to be retried, and the last failure dead-letters it
      ([ServiceSpec]).
    - Leases and locks exclude, finalisation is replayed ([Idempotency]).
    - The breaker answers as the documented three-state machine that keeps every
      outcome and trips on the failure rate of the last [windowMs] milliseconds,
      and admits one probe ([CircuitBreaker]); the bucket stays in its bounds, bounds
      the throughput, recovers, and its waiting loop ends ([TokenBucket]).
    - The guard's three outcomes and the isolation of gateways ([Guard]).
    - Queues: idempotent addition, one well-typed runtime per gateway, pool sizes
      ([QueueManager]).  Metrics: the window, nearest-rank percentiles, alerts
      ([Metrics]).
    - Tool: comparing versions is the precedence of the specification ([Semver]);
      an accepted manifest is of the trusted release ([Updates]); an acknowledged
      update is not announced again, every notice can be acknowledged, a stored
      state is read back ([UpdateCheck]); for any processes, schedules, crashes and
      expired leases the shared cache behaves as one state that changes by one
      decision at a time, an acknowledgement that was confirmed is kept and no check
      that starts later announces it, and a notice is recorded before it is returned
      ([CacheResults]); a comparison of architectures is exact,
      symmetric and independent of the order of entities ([ArchitectureDelta]).
    - Workflow diagrams: a document is accepted exactly when it keeps its semantic
      contract ([SemanticContract]); the order of its items does not matter
      ([Workflow]); the columns of a layout are the least that satisfy its
      constraints, moved together by the least distances that make room at the
      left ([ColumnSolver]); nodes are apart, unless they share a lane and a
      column and their rows meet, and lie in their lane, and the frame of a group
      lies in its lane and holds its nodes ([LayoutSpec]).
    - Routes: an automatic edge of a routed document has a feasible route next to
      all edges before it, and none of its feasible candidates is cheaper
      ([RouteSpec]); the
      gates that look at automatic routes then report nothing ([WorkflowSpec]);
      what inputs are accepted, and that checking pins is routing
      ([WorkflowPins]).  A legend is packed into as few rows as fit, and is drawn
      inside the canvas ([Legend], [WorkflowCanvas]).
    - Compilation: it ends after four attempts at most; the canvas holds the drawing
      and is the least that does; a compiled document keeps its contract, passes
      every check, and its receipt lies in its view box; the fixed layout needs one
      attempt, in which no search fails ([CompileSpec]).  A migrated document compiles, differs from its source
      only where it may, and is migrated to itself ([MigrationSpec]).
    - Diagrams: the crossing gate accepts exactly the diagrams without proper
      crossings of the segments it compares, whether or not it merges straight
      runs, the node gate misses no orthogonal route through a node
      ([Checks]); border runs and corridors are exact ([Analyses]); ports stay on
      their side and apart, bridges honour sides and rhythm ([Ports]); the normal
      form of routes ([Routes]); overlap of rectangles ([Geometry]).

    ** Numbers, bounds and fuel

    Theorems under [JsNumOrder] or under no law hold of the doubles; those that
    need exact arithmetic (throughput, recovery, the exactness of the geometry)
    are stated on [Q].  Counts, durations and times are [Z].  The polling loop of
    the token bucket takes as many polls as the deadline allows, and
    [waitForToken_ends] shows that it returns; the loops that start and close
    workers take as many steps as the pool differs from its target, enough unless
    the target is negative ([setWorkerPoolSize_reaches],
    [negative_pool_size_hangs]); the digits of a number in base 36 are bounded by
    its size.  The search of the semantic contract takes as many steps as there are
    nodes, each of which is visited once; the layout is solved at most three times,
    a channel is probed seven times and refined fifty-three times, and a compilation
    has three rounds after the first, as the source bounds them.

    ** Assumptions and what is not modelled

    A method runs without interleaving except where a theorem says otherwise
    (overlapping charges of the mock gateway, racing submissions, lost commands
    and replies).  Listeners of the event bus do not act on the state they are
    called from.  Texts are of Latin-1 code units; [Date.parse], [Number] of a
    text, [Math.hypot], [Math.round] and the decimal text of a number are
    parameters, as are [new URL] and the URI codecs.  In the geometry, a point is a pair and identifiers are strings,
    as the schemas of the diagrams require; a value of another type, which the
    source filters out, is absent from the model.  Workflow documents conform to
    their schema (columns from 0 to 5, identifiers of letters, digits, [_] and [-]),
    and are of one locale (texts of legends are the English ones); whether a node has
    a brand mark is a parameter, as is [toFixed] in millionths.

    Not modelled: [main.ts], the Nest modules, decorators and DTO metadata, the
    Redis connection (wiring of libraries); the OpenTelemetry SDK, socket.io and
    BullMQ's scheduling (libraries); of archify, the SVG text of a workflow, the
    validation of documents against the JSON schema, the evidence of a diagnostic of
    the workflow compiler and the repairs it proposes (each is tried out by compiling
    a repaired document), the renderers of the other diagrams, the command line, the
    page of a comparison and generated assets, and of the update check the network and the making of the directories above
    the cache.  In the cache, a call of the file system is atomic (a file is
    created with its text), the entries are those the source makes (symbolic
    links and files of other programs are absent), texts are the values they parse
    to, and a lease is within its time or expired as the environment says. *)

From stdpp Require Export base tactics strings gmap list numbers countable pretty.
From Stdlib Require Export ZArith Lia.


#[global] Open Scope Z_scope.

(** Hint databases of the development: facts on JavaScript numbers, and facts on
    the state of the system. *)
Create HintDb jsnum discriminated.
Create HintDb qsys discriminated.

(** ** JavaScript completions and the effect monad *)

(** How a call of the source ends: it returns, it throws a value of type [E],
    or the bound put on one of its loops is exhausted.  [Diverged] is not a
    JavaScript completion: no [catch] or [finally] of the source sees it, and
    theorems show that it does not arise. *)
Inductive outcome (E A : Type) : Type :=
  | Ok (a : A)
  | Throw (e : E)
  | Diverged.
Arguments Ok {_ _} _.
Arguments Throw {_ _} _.
Arguments Diverged {_ _}.

(** An [async] method of the source: a state transformer that may throw. *)
Definition M (E S A : Type) : Type := S → outcome E A * S.

Section Monad.
Context {E S : Type}.

#[global] Instance M_ret : MRet (M E S) := λ A a s, (Ok a, s).

#[global] Instance M_bind : MBind (M E S) := λ A B f m s,
  match m s with
  | (Ok a, s') => f a s'
  | (Throw e, s') => (Throw e, s')
  | (Diverged, s') => (Diverged, s')
  end.

Definition throw {A} (e : E) : M E S A := λ s, (Throw e, s).
Definition diverge {A} : M E S A := λ s, (Diverged, s).
Definition gets {A} (f : S → A) : M E S A := λ s, (Ok (f s), s).
Definition modify (f : S → S) : M E S unit := λ s, (Ok tt, f s).
(** A synchronous method that returns a value and updates its object. *)
Definition state_op {A} (f : S → A * S) : M E S A := λ s, let '(a, s') := f s in (Ok a, s').

(** [try { m } catch (e) { h(e) }] *)
Definition catch {A} (m : M E S A) (h : E → M E S A) : M E S A := λ s,
  match m s with
  | (Throw e, s') => h e s'
  | r => r
  end.

(** [try { m } finally { f }]: an abrupt completion of [f] replaces the one of [m]. *)
Definition finally {A} (m : M E S A) (f : M E S unit) : M E S A := λ s,
  match m s with
  | (Diverged, s') => (Diverged, s')
  | (r, s') =>
      match f s' with
      | (Ok _, s'') => (r, s'')
      | (Throw e, s'') => (Throw e, s'')
      | (Diverged, s'') => (Diverged, s'')
      end
  end.
End Monad.

(** The promises of an array, whose calls were made one after the other and are
    answered in that order. *)
Fixpoint all_settled {E S A} (ms : list (M E S A)) : M E S (list (E + A)) :=
  match ms with
  | [] => mret []
  | m :: ms =>
      r ← catch (a ← m; mret (inr a)) (λ e, mret (inl e));
      rs ← all_settled ms;
      mret (r :: rs)
  end.

(** The first rejection, or all the values. *)
Fixpoint fulfilled {E A} (rs : list (E + A)) : E + list A :=
  match rs with
  | [] => inr []
  | inl e :: _ => inl e
  | inr a :: rs => match fulfilled rs with inl e => inl e | inr l => inr (a :: l) end
  end.

(** [await Promise.all(...)] *)
Definition promise_all {E S A} (ms : list (M E S A)) : M E S (list A) :=
  rs ← all_settled ms;
  match fulfilled rs with inl e => throw e | inr l => mret l end.

(** Run a method of a component inside an object that holds the component. *)
Definition zoom {E S T A} (get : T → S) (put : S → T → T) (m : M E S A) : M E T A := λ t,
  let '(r, s') := m (get t) in (r, put s' t).

(** ** Reasoning about methods *)

(** [wp m Q s]: running [m] from [s] ends in a completion and a state that
    satisfy [Q]. *)
Definition wp {E S A} (m : M E S A) (Q : outcome E A → S → Prop) (s : S) : Prop :=
  Q (m s).1 (m s).2.

Lemma run_pair {E S A} (m : M E S A) s o : (m s).1 = o → m s = (o, (m s).2).
Proof. by intros <-; destruct (m s). Qed.

Section Wp.
Context {E S : Type}.

Lemma wp_mono {A} (m : M E S A) (Q Q' : outcome E A → S → Prop) s :
  (∀ r s', Q r s' → Q' r s') → wp m Q s → wp m Q' s.
Proof. unfold wp. auto. Qed.

Lemma wp_ret {A} (a : A) (Q : outcome E A → S → Prop) s :
  wp (mret a) Q s ↔ Q (Ok a) s.
Proof. done. Qed.

Lemma wp_throw {A} (e : E) (Q : outcome E A → S → Prop) s :
  wp (throw e) Q s ↔ Q (Throw e) s.
Proof. done. Qed.

Lemma wp_gets {A} (f : S → A) (Q : outcome E A → S → Prop) s :
  wp (gets f) Q s ↔ Q (Ok (f s)) s.
Proof. done. Qed.

Lemma wp_modify (f : S → S) (Q : outcome E unit → S → Prop) s :
  wp (modify f) Q s ↔ Q (Ok tt) (f s).
Proof. done. Qed.

Lemma wp_state_op {A} (f : S → A * S) (Q : outcome E A → S → Prop) s :
  wp (state_op f) Q s ↔ Q (Ok (f s).1) (f s).2.
Proof. unfold wp, state_op. by destruct (f s). Qed.

Lemma wp_bind {A B} (m : M E S A) (f : A → M E S B) (Q : outcome E B → S → Prop) s :
  wp (m ≫= f) Q s ↔
  wp m (λ r s', match r with
                | Ok a => wp (f a) Q s'
                | Throw e => Q (Throw e) s'
                | Diverged => Q Diverged s'
                end) s.
Proof. unfold wp, mbind, M_bind. by destruct (m s) as [[] ?]. Qed.

Lemma wp_run {A} (m : M E S A) (Q : outcome E A → S → Prop) s :
  wp m Q s → ∃ o s', m s = (o, s') ∧ Q o s'.
Proof. unfold wp. destruct (m s) as [o s']. eauto. Qed.

Lemma wp_catch {A} (m : M E S A) (h : E → M E S A) (Q : outcome E A → S → Prop) s :
  wp (catch m h) Q s ↔
  wp m (λ r s', match r with
                | Throw e => wp (h e) Q s'
                | r => Q r s'
                end) s.
Proof. unfold wp, catch. by destruct (m s) as [[] ?]. Qed.

Lemma wp_finally {A} (m : M E S A) (f : M E S unit) (Q : outcome E A → S → Prop) s :
  wp (finally m f) Q s ↔
  wp m (λ r s', match r with
                | Diverged => Q Diverged s'
                | _ => wp f (λ r' s'', match r' with
                                       | Ok _ => Q r s''
                                       | Throw e => Q (Throw e) s''
                                       | Diverged => Q Diverged s''
                                       end) s'
                end) s.
Proof.
  unfold wp, finally. destruct (m s) as [[a|e|] s']; cbn; [| |done];
    by destruct (f s') as [[?|?|] ?].
Qed.

Lemma wp_zoom {T A} (get : T → S) (put : S → T → T) (m : M E S A)
    (Q : outcome E A → T → Prop) t :
  wp (zoom get put m) Q t ↔ wp m (λ r s', Q r (put s' t)) (get t).
Proof. unfold wp, zoom. by destruct (m (get t)). Qed.
End Wp.

(** ** Frame properties

    [Respects R m]: whatever way [m] ends, it leaves a state related by [R] to
    the one it started from.  With [R] a preorder the property is closed under
    the constructs of the monad: a component declares it as an instance for its
    primitives, and the tactic [frame] carries it through the methods written
    with them.  [Halts m]: no loop bound is exhausted in [m]: it returns or
    throws. *)
Class Respects {E S A} (R : relation S) (m : M E S A) : Prop :=
  respects : ∀ s, R s (m s).2.
#[global] Hint Mode Respects - - - ! ! : typeclass_instances.

Section Respects.
Context {E S : Type} (R : relation S) `{!PreOrder R}.

Lemma respects_ret {A} (a : A) : Respects R (mret a : M E S A).
Proof. intros s. cbn. reflexivity. Qed.

Lemma respects_throw {A} (e : E) : Respects R (throw e : M E S A).
Proof. intros s. cbn. reflexivity. Qed.

Lemma respects_diverge {A} : Respects R (diverge : M E S A).
Proof. intros s. cbn. reflexivity. Qed.

Lemma respects_gets {A} (f : S → A) : Respects R (gets f : M E S A).
Proof. intros s. cbn. reflexivity. Qed.

Lemma respects_bind {A B} (m : M E S A) (f : A → M E S B) :
  Respects R m → (∀ a, Respects R (f a)) → Respects R (m ≫= f).
Proof.
  intros Hm Hf s. unfold mbind, M_bind. specialize (Hm s).
  destruct (m s) as [[a|e|] s'] eqn:Hs; cbn in *; [|done..].
  etrans; [done|]. apply (Hf a).
Qed.

Lemma respects_catch {A} (m : M E S A) (h : E → M E S A) :
  Respects R m → (∀ e, Respects R (h e)) → Respects R (catch m h).
Proof.
  intros Hm Hf s. unfold catch. specialize (Hm s).
  destruct (m s) as [[a|e|] s'] eqn:Hs; cbn in *; [done| |done].
  etrans; [done|]. apply (Hf e).
Qed.

Lemma respects_finally {A} (m : M E S A) (f : M E S unit) :
  Respects R m → Respects R f → Respects R (finally m f).
Proof.
  intros Hm Hf s. unfold finally. specialize (Hm s).
  destruct (m s) as [[a|e|] s'] eqn:Hs; cbn in *; try done;
    specialize (Hf s'); destruct (f s') as [[] ?]; cbn in *; by etrans.
Qed.
End Respects.

Lemma respects_mono {E S A} (R R' : relation S) (m : M E S A) :
  (∀ s s', R s s' → R' s s') → Respects R m → Respects R' m.
Proof. intros HR Hm s. apply HR, Hm. Qed.

Lemma respects_wp {E S A} (R : relation S) (m : M E S A) s :
  Respects R m → wp m (λ _ s', R s s') s.
Proof. intros Hm. apply Hm. Qed.

Lemma wp_respects {E S A} (R : relation S) (m : M E S A) (Q : outcome E A → S → Prop) s :
  Respects R m → wp m Q s → wp m (λ o s', Q o s' ∧ R s s') s.
Proof. intros Hm HQ. split; [exact HQ|apply Hm]. Qed.

Class Halts {E S A} (m : M E S A) : Prop := halts : ∀ s, (m s).1 ≠ Diverged.
#[global] Hint Mode Halts - - - ! : typeclass_instances.

Section Halts.
Context {E S : Type}.

Lemma halts_ret {A} (a : A) : Halts (mret a : M E S A).
Proof. done. Qed.

Lemma halts_throw {A} (e : E) : Halts (throw e : M E S A).
Proof. done. Qed.

Lemma halts_gets {A} (f : S → A) : Halts (gets f : M E S A).
Proof. done. Qed.

Lemma halts_modify (f : S → S) : Halts (modify f : M E S unit).
Proof. done. Qed.

Lemma halts_bind {A B} (m : M E S A) (f : A → M E S B) :
  Halts m → (∀ a, Halts (f a)) → Halts (m ≫= f).
Proof.
  intros Hm Hf s. unfold mbind, M_bind. specialize (Hm s).
  destruct (m s) as [[a|e|] s']; cbn in *; [|done..]. apply Hf.
Qed.

Lemma halts_catch {A} (m : M E S A) (h : E → M E S A) :
  Halts m → (∀ e, Halts (h e)) → Halts (catch m h).
Proof.
  intros Hm Hf s. unfold catch. specialize (Hm s).
  destruct (m s) as [[a|e|] s']; cbn in *; [done| |done]. apply Hf.
Qed.

Lemma halts_finally {A} (m : M E S A) (f : M E S unit) :
  Halts m → Halts f → Halts (finally m f).
Proof.
  intros Hm Hf s. unfold finally. specialize (Hm s).
  destruct (m s) as [[] s']; cbn in *; try done;
    specialize (Hf s'); by destruct (f s') as [[] ?].
Qed.

Lemma halts_zoom {T A} (get : T → S) (put : S → T → T) (m : M E S A) :
  Halts m → Halts (zoom get put m).
Proof. intros Hm t. unfold zoom. specialize (Hm (get t)). by destruct (m (get t)). Qed.
End Halts.

Lemma wp_halts {E S A} (m : M E S A) (Q : outcome E A → S → Prop) s :
  Halts m → wp m (λ r s', r ≠ Diverged → Q r s') s → wp m Q s.
Proof. unfold wp. intros Hm HQ. apply HQ, Hm. Qed.

(** A step that only matters through the relation it respects. *)
Lemma wp_frame {E S A} (R : relation S) (m : M E S A) (Q : outcome E A → S → Prop) s :
  Respects R m → Halts m → (∀ o s', o ≠ Diverged → R s s' → Q o s') → wp m Q s.
Proof. intros Hm Hh HQ. apply HQ; [apply Hh|apply Hm]. Qed.

Lemma wp_bind_frame {E S A B} (R : relation S) (m : M E S A) (f : A → M E S B)
    (Q : outcome E B → S → Prop) s :
  Respects R m → Halts m → (∀ e s', R s s' → Q (Throw e) s') →
  (∀ a s', R s s' → wp (f a) Q s') → wp (m ≫= f) Q s.
Proof.
  intros Hm Hh Ht Hf. rewrite wp_bind. apply (wp_frame R); [done..|].
  intros [a|e|] s' Ho Hs; [by apply Hf|by apply Ht|done].
Qed.

(** ** Relations on a component of a pair *)
Definition on_fst {A B} (R : relation A) : relation (A * B) := λ s s', R s.1 s'.1.
Definition on_snd {A B} (R : relation B) : relation (A * B) := λ s s', R s.2 s'.2.

#[export] Instance on_fst_preorder {A B} (R : relation A) : PreOrder R → PreOrder (on_fst (B := B) R).
Proof. intros HR. split; [intros x; unfold on_fst; done|]. intros x y z; unfold on_fst. apply HR. Qed.
#[export] Instance on_snd_preorder {A B} (R : relation B) : PreOrder R → PreOrder (on_snd (A := A) R).
Proof. intros HR. split; [intros x; unfold on_snd; done|]. intros x y z; unfold on_snd. apply HR. Qed.

#[export] Instance intersection_preorder {A} (R R' : relation A) :
  PreOrder R → PreOrder R' → PreOrder (relation_conjunction R R').
Proof.
  intros HR HR'. split; [intros x; by split|].
  intros x y z [? ?] [? ?]; split; etrans; done.
Qed.

Lemma respects_conjunction {E S A} (R R' : relation S) (m : M E S A) :
  Respects R m → Respects R' m → Respects (relation_conjunction R R') m.
Proof. intros H1 H2 s. split; [apply H1|apply H2]. Qed.

(** [yields P m]: what [m] returns, if it returns, satisfies [P]; [raises m]: it
    never returns. *)
Definition yields {E S A} (P : A → Prop) (m : M E S A) : Prop := ∀ s a, (m s).1 = Ok a → P a.
Notation raises := (yields (λ _, False)).

Section Yields.
Context {E S : Type}.

Lemma yields_ret {A} (P : A → Prop) (a : A) : P a → yields P (mret a : M E S A).
Proof. by intros Ha s b [= <-]. Qed.

Lemma yields_throw {A} (P : A → Prop) (e : E) : yields P (throw e : M E S A).
Proof. done. Qed.

Lemma yields_bind {A B} (P : B → Prop) (m : M E S A) (f : A → M E S B) :
  (∀ a, yields P (f a)) → yields P (m ≫= f).
Proof.
  intros Hf s b. unfold mbind, M_bind. destruct (m s) as [[a|e|] s']; cbn; [apply Hf|done..].
Qed.

Lemma yields_zoom {T A} (P : A → Prop) (get : T → S) (put : S → T → T) (m : M E S A) :
  yields P m → yields P (zoom get put m).
Proof. intros Hm t a. unfold zoom. specialize (Hm (get t) a). by destruct (m (get t)). Qed.

Lemma wp_yields {A} (P : A → Prop) (m : M E S A) (Q : outcome E A → S → Prop) s :
  yields P m → wp m (λ o s', (∀ a, o = Ok a → P a) → Q o s') s → wp m Q s.
Proof. unfold wp. intros Hm HQ. apply HQ. intros a. apply Hm. Qed.
End Yields.

Ltac yields_step :=
  match goal with
  | |- yields _ (mret _) => apply yields_ret
  | |- yields _ (throw _) => apply yields_throw
  | |- yields _ (_ ≫= _) => apply yields_bind; intros ?
  | |- yields _ (zoom _ _ _) => apply yields_zoom
  | |- yields _ (match ?x with _ => _ end) => destruct x
  end.
Ltac yields := repeat yields_step.

(** [frame] proves a goal [Respects R m] or [Halts m]: it follows the constructs
    of [m], uses the instances declared for the methods it meets, and unfolds
    the methods that have none. *)
Ltac head_of m := lazymatch m with ?f _ => head_of f | _ => m end.
Ltac unfold_method m := let h := head_of m in unfold h; cbv beta zeta.

Ltac frame_step :=
  match goal with
  | |- ∀ _, _ => intros ?
  | |- PreOrder _ => apply _
  | |- Respects _ (mret _) => apply respects_ret
  | |- Respects _ (throw _) => apply respects_throw
  | |- Respects _ (gets _) => apply respects_gets
  | |- Respects _ diverge => apply respects_diverge
  | |- Respects (relation_conjunction _ _) _ => apply respects_conjunction
  | |- Respects _ (_ ≫= _) => apply respects_bind
  | |- Respects _ (catch _ _) => apply respects_catch
  | |- Respects _ (finally _ _) => apply respects_finally
  | |- Respects _ (match ?x with _ => _ end) => destruct x
  | |- Halts (mret _) => apply halts_ret
  | |- Halts (throw _) => apply halts_throw
  | |- Halts (gets _) => apply halts_gets
  | |- Halts (modify _) => apply halts_modify
  | |- Halts (_ ≫= _) => apply halts_bind
  | |- Halts (catch _ _) => apply halts_catch
  | |- Halts (finally _ _) => apply halts_finally
  | |- Halts (zoom _ _ _) => apply halts_zoom
  | |- Halts (match ?x with _ => _ end) => destruct x
  end.
Ltac frame_leaf :=
  match goal with
  | |- Respects _ _ => solve [apply _]
  | |- Halts _ => solve [apply _]
  | |- Respects _ ?m => unfold_method m
  | |- Halts ?m => unfold_method m
  end.
(** The constructs a component adds; redefined where they are. *)
Ltac frame_hook := fail.
Ltac frame := repeat first [frame_step | frame_hook | frame_leaf].

(** Instance search sees these by name. *)
#[global] Typeclasses Opaque on_fst on_snd relation_conjunction throw gets modify state_op catch finally zoom diverge M_bind M_ret.

(** ** Lists *)
Lemma filter_all_id {A} (P : A → Prop) `{!∀ x, Decision (P x)} (l : list A) :
  (∀ x, x ∈ l → P x) → filter P l = l.
Proof.
  induction l as [|x l IH]; intros Hall; [done|].
  rewrite filter_cons_True by (apply Hall; left). f_equal. apply IH. intros y Hy. apply Hall. by right.
Qed.

Lemma drop_S_tail {A} (n : nat) (l : list A) : drop (S n) l = tail (drop n l).
Proof. revert l. induction n as [|n IH]; intros [|x l]; try done. apply IH. Qed.
