(* ===== verification/Num.v ===== *)
(** * JavaScript numbers

    The source computes rates, token counts, failure rates and latencies with
    JavaScript numbers, which are IEEE-754 doubles.  The components that use
    them are written against the class [JsNum] of the operations the source
    applies, and their theorems against two classes of laws: [JsNumOrder], what
    the comparison of non-NaN numbers satisfies, and [JsNumArith], the facts of
    exact arithmetic.  Two implementations are given: [binary64_num], the
    doubles themselves (the Standard Library's [SpecFloat] with a 53-bit
    significand), which satisfies [JsNumOrder], and [Q_num], the rationals,
    which satisfies both.  A theorem under [JsNumOrder] holds of the doubles. *)

From Stdlib Require Import QArith Qminmax Qround Lqa.
From Corelib Require Import SpecFloat.
From S2P Require Import Prelude.
#[local] Open Scope Z_scope.

(** [Number.MAX_SAFE_INTEGER] *)
Definition MAX_SAFE_INTEGER : Z := 2 ^ 53 - 1.

Class JsNum (N : Type) := {
  nadd : N → N → N;
  nsub : N → N → N;
  nmul : N → N → N;
  ndiv : N → N → N;
  nle : N → N → bool;
  nlt : N → N → bool;
  nof : Z → N;
  nan : N → bool;
  nfin : N → bool;
  nfloor : N → Z;
  nceil : N → Z
}.

Declare Scope js_scope.
Delimit Scope js_scope with js.
Infix "+" := nadd : js_scope.
Infix "-" := nsub : js_scope.
Infix "*" := nmul : js_scope.
Infix "/" := ndiv : js_scope.
Notation "x <=? y" := (nle x y) : js_scope.
Notation "x <? y" := (nlt x y) : js_scope.
Notation "x >=? y" := (nle y x) : js_scope.
Notation "x >? y" := (nlt y x) : js_scope.

Section Operations.
Context {N : Type} `{!JsNum N}.

(** [Math.min] and [Math.max]: NaN if an argument is NaN.  (The sign of a zero
    result is not modelled: no comparison or sum of the source sees it.) *)
Definition nmin (a b : N) : N :=
  if nan a then a else if nan b then b else if nle a b then a else b.
Definition nmax (a b : N) : N :=
  if nan a then a else if nan b then b else if nle a b then b else a.

(** A decimal literal [p/q] of the source: division rounds correctly, so the
    quotient of the two integers is the double nearest to the literal. *)
Definition nlit (p q : Z) : N := ndiv (nof p) (nof q).
End Operations.

(** The laws of comparison, on numbers that are not NaN. *)
Class JsNumOrder (N : Type) `{!JsNum N} := {
  nle_refl a : nan a = false → nle a a = true;
  nle_trans a b c : nle a b = true → nle b c = true → nle a c = true;
  nle_total a b : nan a = false → nan b = false → nle a b = true ∨ nle b a = true;
  nle_not_nan a b : nle a b = true → nan a = false ∧ nan b = false;
  nlt_nle a b : nlt a b = (nle a b && negb (nle b a));
  nof_fin z : Z.abs z < 2 ^ 53 → nfin (nof z) = true;
  nof_le y z : Z.abs y < 2 ^ 53 → Z.abs z < 2 ^ 53 → nle (nof y) (nof z) = (y <=? z);
  nfin_not_nan a : nfin a = true → nan a = false;
  nfin_between a b c : nfin a = true → nfin c = true →
    nle a b = true → nle b c = true → nfin b = true;
  nmul_not_nan a b : nfin a = true → nfin b = true → nan (nmul a b) = false;
  nadd_not_nan a b : nfin a = true → nfin b = true → nan (nadd a b) = false;
  nhalf_fin : nfin (nlit 1 2 : N) = true
}.

(** Exact arithmetic. *)
Class JsNumArith (N : Type) `{!JsNum N} := {
  nadd_mono a b c d : nle a c = true → nle b d = true → nle (nadd a b) (nadd c d) = true;
  nadd_0_r_le a b : nle (nof 0) b = true → nle a (nadd a b) = true;
  nmul_nonneg a b : nle (nof 0) a = true → nle (nof 0) b = true → nle (nof 0) (nmul a b) = true;
  ndiv_nonneg a z : 0 < z → nle (nof 0) a = true → nle (nof 0) (ndiv a (nof z)) = true;
  nsub_nonneg a b : nle b a = true → nle (nof 0) (nsub a b) = true;
  nsub_le a b : nle (nof 0) b = true → nle (nsub a b) a = true;
  nhalf_le a : nle (nof 0) a = true → nle (nmul a (nlit 1 2)) a = true;
  nof_nonneg z : 0 ≤ z → nle (nof 0 : N) (nof z) = true
}.

Section OrderLemmas.
Context {N : Type} `{!JsNum N, !JsNumOrder N}.
Implicit Types a b c : N.

Lemma nmin_le_l a b : nan a = false → nan b = false → nle (nmin a b) a = true.
Proof.
  intros Ha Hb. unfold nmin. rewrite Ha, Hb.
  destruct (nle a b) eqn:H; [by apply nle_refl|].
  destruct (nle_total a b) as [H'|]; congruence.
Qed.

Lemma nmin_le_r a b : nan a = false → nan b = false → nle (nmin a b) b = true.
Proof. intros Ha Hb. unfold nmin. rewrite Ha, Hb. destruct (nle a b) eqn:H; [done|by apply nle_refl]. Qed.

Lemma nmax_ge_l a b : nan a = false → nan b = false → nle a (nmax a b) = true.
Proof. intros Ha Hb. unfold nmax. rewrite Ha, Hb. destruct (nle a b) eqn:H; [done|by apply nle_refl]. Qed.

Lemma nmax_ge_r a b : nan a = false → nan b = false → nle b (nmax a b) = true.
Proof.
  intros Ha Hb. unfold nmax. rewrite Ha, Hb.
  destruct (nle a b) eqn:H; [by apply nle_refl|].
  destruct (nle_total a b) as [H'|]; congruence.
Qed.

Lemma nmin_cases a b : nmin a b = a ∨ nmin a b = b.
Proof. unfold nmin. repeat case_match; auto. Qed.

Lemma nmax_cases a b : nmax a b = a ∨ nmax a b = b.
Proof. unfold nmax. repeat case_match; auto. Qed.

Lemma nmin_glb a b c : nle c a = true → nle c b = true → nle c (nmin a b) = true.
Proof. intros. destruct (nmin_cases a b) as [-> | ->]; done. Qed.

Lemma nmax_lub a b c : nle a c = true → nle b c = true → nle (nmax a b) c = true.
Proof. intros. destruct (nmax_cases a b) as [-> | ->]; done. Qed.

Lemma nlt_le a b : nlt a b = true → nle a b = true.
Proof. rewrite nlt_nle. by intros [? _]%andb_true_iff. Qed.

Lemma not_nlt_le a b : nan a = false → nan b = false → nlt a b = false → nle b a = true.
Proof.
  rewrite nlt_nle. intros Ha Hb H.
  destruct (nle_total a b) as [H'|H']; [done..| |done].
  rewrite H' in H. by apply negb_false_iff in H.
Qed.

Lemma nle_nan_l a b : nle a b = true → nan a = false.
Proof. by intros [? _]%nle_not_nan. Qed.
Lemma nle_nan_r a b : nle a b = true → nan b = false.
Proof. by intros [_ ?]%nle_not_nan. Qed.
End OrderLemmas.

#[export] Hint Resolve nle_refl nfin_not_nan nmin_le_l nmin_le_r nmax_ge_l nmax_ge_r
  nmin_glb nmax_lub nlt_le nmul_not_nan nadd_not_nan nhalf_fin : jsnum.

(** ** The rationals *)

#[export] Instance Q_num : JsNum Q := {|
  nadd := Qplus; nsub := Qminus; nmul := Qmult; ndiv := Qdiv;
  nle := Qle_bool; nlt a b := Qle_bool a b && negb (Qle_bool b a);
  nof := inject_Z; nan _ := false; nfin _ := true;
  nfloor := Qfloor; nceil := Qceiling
|}.

Lemma Q_nle (a b : Q) : nle a b = true ↔ (a <= b)%Q.
Proof. apply Qle_bool_iff. Qed.

Lemma Q_nlt (a b : Q) : nlt a b = true ↔ (a < b)%Q.
Proof.
  cbn. rewrite andb_true_iff, negb_true_iff, <-not_true_iff_false, !Qle_bool_iff.
  split; [intros [? ?%Qnot_le_lt]; done|]. intros H. split; [by apply Qlt_le_weak|].
  by apply Qlt_not_le.
Qed.

#[export] Instance Q_order : JsNumOrder Q.
Proof.
  split; cbn; try done.
  - intros a _. apply Qle_bool_iff, Qle_refl.
  - intros a b c. rewrite !Qle_bool_iff. apply Qle_trans.
  - intros a b _ _. rewrite !Qle_bool_iff. destruct (Qlt_le_dec a b); [left; by apply Qlt_le_weak|by right].
  - intros y z _ _. apply eq_true_iff_eq. rewrite Qle_bool_iff, <-Zle_Qle. lia.
Qed.

#[export] Instance Q_arith : JsNumArith Q.
Proof.
  split; unfold nlit, nof, nle, nadd, nmul, ndiv, nsub, Q_num.
  - intros a b c d. rewrite !Qle_bool_iff. intros. by apply Qplus_le_compat.
  - intros a b. rewrite !Qle_bool_iff. change (inject_Z 0) with 0%Q. intros. lra.
  - intros a b. rewrite !Qle_bool_iff. change (inject_Z 0) with 0%Q. intros. by apply Qmult_le_0_compat.
  - intros a z Hz. rewrite !Qle_bool_iff. change (inject_Z 0) with 0%Q. intros Ha.
    apply Qle_shift_div_l; [by rewrite (Zlt_Qlt 0 z) in Hz|]. by rewrite Qmult_0_l.
  - intros a b. rewrite !Qle_bool_iff. change (inject_Z 0) with 0%Q. intros. lra.
  - intros a b. rewrite !Qle_bool_iff. change (inject_Z 0) with 0%Q. intros. lra.
  - intros a. rewrite !Qle_bool_iff. change (inject_Z 1 / inject_Z 2)%Q with (1 # 2)%Q.
    change (inject_Z 0) with 0%Q. intros. lra.
  - intros z Hz. by rewrite Qle_bool_iff, <-Zle_Qle.
Qed.

(** ** The doubles *)

Definition binary64 : Type := spec_float.

Definition b64_floor (x : binary64) : Z :=
  match x with
  | S754_finite s m e => Z.shiftl (if s then Z.neg m else Z.pos m) e
  | _ => 0
  end.

#[export] Instance binary64_num : JsNum binary64 := {|
  nadd := SFadd 53 1024; nsub := SFsub 53 1024; nmul := SFmul 53 1024; ndiv := SFdiv 53 1024;
  nle := SFleb; nlt := SFltb;
  nof z := binary_normalize 53 1024 z 0 false;
  nan x := match x with S754_nan => true | _ => false end;
  nfin x := match x with S754_finite _ _ _ | S754_zero _ => true | _ => false end;
  nfloor := b64_floor;
  nceil x := - b64_floor (SFopp x)
|}.

(** [Number.isInteger(x)], with the integer when it is one. *)
Definition b64_integer (x : binary64) : option Z :=
  match x with
  | S754_zero _ => Some 0
  | S754_finite s m e =>
      let z := if s then Z.neg m else Z.pos m in
      if Z.shiftl (Z.shiftl z e) (- e) =? z then Some (Z.shiftl z e) else None
  | _ => None
  end.

Example b64_lit_095 : nfloor (nmul (nlit 95 100) (nof 1000) : binary64) = 950.
Proof. vm_compute. reflexivity. Qed.
Example b64_integer_ex : b64_integer (nlit 7 2) = None ∧ b64_integer (nof (-12)) = Some (-12).
Proof. vm_compute. done. Qed.

Section Binary64Order.
(** Comparison of finite numbers as a condition on significand and exponent. *)
Lemma SFleb_finite s1 m1 e1 s2 m2 e2 :
  SFleb (S754_finite s1 m1 e1) (S754_finite s2 m2 e2) = true ↔
  match s1, s2 with
  | true, false => True
  | false, true => False
  | false, false => e1 < e2 ∨ e1 = e2 ∧ Z.pos m1 ≤ Z.pos m2
  | true, true => e2 < e1 ∨ e1 = e2 ∧ Z.pos m2 ≤ Z.pos m1
  end.
Proof.
  unfold SFleb, SFcompare. destruct s1, s2; try (split; done).
  all: destruct (Z.compare_spec e1 e2); try (split; [auto with lia|done || lia]).
  all: change (Pos.compare_cont Eq m1 m2) with (Pos.compare m1 m2).
  all: destruct (Pos.compare_spec m1 m2); cbn; split; auto with lia; try lia.
Qed.

Lemma SFleb_trans a b c : SFleb a b = true → SFleb b c = true → SFleb a c = true.
Proof.
  destruct a as [?|[]| |s1 m1 e1], b as [?|[]| |s2 m2 e2], c as [?|[]| |s3 m3 e3];
    try done; try (by destruct s1, s2); try (by destruct s1, s3); try (by destruct s2, s3);
    try (by destruct s1); try (by destruct s2); try (by destruct s3).
  rewrite !SFleb_finite. destruct s1, s2, s3; lia || done.
Qed.

Lemma SFleb_total a b : nan a = false → nan b = false → SFleb a b = true ∨ SFleb b a = true.
Proof.
  destruct a as [?|[]| |s1 m1 e1], b as [?|[]| |s2 m2 e2]; try done; intros _ _;
    try (by left); try (by right); try (destruct s1; by (left + right));
    try (destruct s2; by (left + right)).
  rewrite !SFleb_finite. destruct s1, s2; lia || auto.
Qed.

(** A significand that fits is stored exactly, shifted to 53 bits. *)
Lemma shl_align_fst (m : positive) (d : positive) :
  Z.pos (Pos.iter xO m d) = Z.pos m * 2 ^ Z.pos d.
Proof.
  induction d as [|d IH] using Pos.peano_ind; [cbn; lia|].
  rewrite Pos.iter_succ, Pos2Z.inj_xO, IH, Pos2Z.inj_succ, Z.pow_succ_r by lia. lia.
Qed.

Lemma digits2_pos_bounds m :
  2 ^ (Z.pos (digits2_pos m) - 1) ≤ Z.pos m < 2 ^ Z.pos (digits2_pos m).
Proof.
  induction m as [m IH|m IH|]; cbn [digits2_pos]; [| |by cbn];
    rewrite Pos2Z.inj_succ; replace (Z.succ (Z.pos (digits2_pos m)) - 1)
      with (Z.succ (Z.pos (digits2_pos m) - 1)) by lia;
    rewrite !Z.pow_succ_r by lia; lia.
Qed.

Lemma digits2_pos_unique m d : 0 < d → 2 ^ (d - 1) ≤ Z.pos m < 2 ^ d → Z.pos (digits2_pos m) = d.
Proof.
  intros Hd [H1 H2]. pose proof (digits2_pos_bounds m) as [H3 H4].
  assert (d - 1 < Z.pos (digits2_pos m)) by (apply (Z.pow_lt_mono_r_iff 2); lia).
  assert (Z.pos (digits2_pos m) - 1 < d) by (apply (Z.pow_lt_mono_r_iff 2); lia). lia.
Qed.

Lemma binary_round_exact s p : Z.pos p < 2 ^ 53 →
  ∃ m, binary_round 53 1024 s p 0 = S754_finite s m (Z.pos (digits2_pos p) - 53) ∧
    Z.pos m = Z.pos p * 2 ^ (53 - Z.pos (digits2_pos p)).
Proof.
  intros Hp. pose proof (digits2_pos_bounds p) as [Hl Hu].
  set (d := Z.pos (digits2_pos p)) in *.
  assert (Hd : d ≤ 53) by (assert (d - 1 < 53); [apply (Z.pow_lt_mono_r_iff 2); lia|lia]).
  assert (∃ m, shl_align p 0 (fexp 53 1024 (d + 0)) = (m, d - 53) ∧
    Z.pos m = Z.pos p * 2 ^ (53 - d)) as (m & Halign & Hm).
  { unfold shl_align, fexp, emin. rewrite Z.max_l by lia.
    replace (d + 0 - 53 - 0) with (d - 53) by lia. destruct (d - 53) as [|?|k] eqn:Hk; [| lia|].
    - exists p. replace (53 - d) with 0 by lia. split; [f_equal; lia|lia].
    - exists (Pos.iter xO p k). split; [f_equal; lia|]. rewrite shl_align_fst. do 2 f_equal. lia. }
  exists m. split; [|done].
  assert (Hdm : Z.pos (digits2_pos m) = 53).
  { apply digits2_pos_unique; [lia|]. rewrite Hm. split.
    - replace (53 - 1) with ((d - 1) + (53 - d)) by lia. rewrite Z.pow_add_r by lia.
      apply Z.mul_le_mono_nonneg_r; lia.
    - replace 53 with (d + (53 - d)) at 2 by lia. rewrite Z.pow_add_r by lia.
      apply Z.mul_lt_mono_pos_r; lia. }
  unfold binary_round. fold d. rewrite Halign.
  unfold binary_round_aux, shr_fexp. cbn [Zdigits2 shr_record_of_loc]. rewrite Hdm.
  replace (fexp 53 1024 (53 + (d - 53)) - (d - 53)) with 0 by (unfold fexp, emin; lia).
  cbn [shr shr_m loc_of_shr_record round_nearest_even Zdigits2 shr_record_of_loc]. rewrite Hdm.
  replace (fexp 53 1024 (53 + (d - 53)) - (d - 53)) with 0 by (unfold fexp, emin; lia).
  cbn [shr shr_m]. by rewrite (proj2 (Z.leb_le _ _)) by lia.
Qed.

Lemma scaled_significand_le p q m n : 
  Z.pos m = Z.pos p * 2 ^ (53 - Z.pos (digits2_pos p)) → Z.pos p < 2 ^ 53 →
  Z.pos n = Z.pos q * 2 ^ (53 - Z.pos (digits2_pos q)) → Z.pos q < 2 ^ 53 →
  let e := Z.pos (digits2_pos p) - 53 in let f := Z.pos (digits2_pos q) - 53 in
  (e < f ∨ e = f ∧ Z.pos m ≤ Z.pos n) ↔ Z.pos p ≤ Z.pos q.
Proof.
  intros Hm Hp Hn Hq e f. pose proof (digits2_pos_bounds p) as [Hlp Hup].
  pose proof (digits2_pos_bounds q) as [Hlq Huq]. subst e f.
  destruct (Z.lt_trichotomy (Z.pos (digits2_pos p)) (Z.pos (digits2_pos q))) as [H|[H|H]].
  - assert (2 ^ Z.pos (digits2_pos p) ≤ 2 ^ (Z.pos (digits2_pos q) - 1)) by (apply Z.pow_le_mono_r; lia).
    lia.
  - rewrite Hm, Hn, H. rewrite <-(Z.mul_le_mono_pos_r _ _ (2 ^ (53 - Z.pos (digits2_pos q)))); [lia|].
    apply Z.pow_pos_nonneg; [lia|]. assert (Z.pos (digits2_pos q) - 1 < 53); [|lia].
    apply (Z.pow_lt_mono_r_iff 2); lia.
  - assert (2 ^ Z.pos (digits2_pos q) ≤ 2 ^ (Z.pos (digits2_pos p) - 1)) by (apply Z.pow_le_mono_r; lia).
    lia.
Qed.

(** Right shifts and rounding keep a significand nonnegative, so rounding
    never produces a NaN. *)
Lemma shr_1_nonneg r : 0 ≤ shr_m r → 0 ≤ shr_m (shr_1 r).
Proof. by destruct r as [[|[]|] ? ?]. Qed.

Lemma shr_nonneg r e n : 0 ≤ shr_m r → 0 ≤ shr_m (shr r e n).1.
Proof.
  intros H. destruct n as [|n|]; cbn; [done| |done]. revert r H.
  induction n as [n IH|n IH|]; intros r H; cbn; auto using shr_1_nonneg.
Qed.

Lemma shr_fexp_nonneg m e l : 0 ≤ m → 0 ≤ shr_m (shr_fexp 53 1024 m e l).1.
Proof. intros H. apply shr_nonneg. by destruct l as [|[]]. Qed.

Lemma round_nearest_even_nonneg m l : 0 ≤ m → 0 ≤ round_nearest_even m l.
Proof. destruct l as [|[]]; cbn; try case_match; lia. Qed.

Lemma binary_round_aux_not_nan s m e l : 0 ≤ m → nan (binary_round_aux 53 1024 s m e l) = false.
Proof.
  intros Hm. unfold binary_round_aux.
  pose proof (shr_fexp_nonneg m e l Hm) as H1. destruct (shr_fexp _ _ m e l) as [r1 e1]; cbn in H1.
  pose proof (round_nearest_even_nonneg _ (loc_of_shr_record r1) H1) as H2.
  pose proof (shr_fexp_nonneg _ e1 loc_Exact H2) as H3.
  destruct (shr_fexp _ _ (round_nearest_even _ _) e1 loc_Exact) as [r2 e2]; cbn in H3.
  destruct (shr_m r2); [done|by case_match|lia].
Qed.

Lemma binary_round_not_nan s m e : nan (binary_round 53 1024 s m e) = false.
Proof.
  unfold binary_round. destruct (shl_align _ _ _). by apply binary_round_aux_not_nan.
Qed.
End Binary64Order.

#[export] Instance binary64_order : JsNumOrder binary64.
Proof.
  split; unfold nle, nlt, nof, nan, nfin, nmul, nadd, binary64_num.
  - intros [?|[]| |[] m e]; try done; intros _; rewrite SFleb_finite; auto with lia.
  - apply SFleb_trans.
  - apply SFleb_total.
  - by intros [?|[]| |[] ? ?] [?|[]| |[] ? ?].
  - intros a b. unfold SFltb, SFleb.
    destruct a as [?|[]| |[] m e], b as [?|[]| |[] n f]; try done; unfold SFcompare;
      rewrite (Z.compare_antisym e f); destruct (e ?= f) eqn:Hc; try done; cbn;
      change (Pos.compare_cont Eq m n) with (Pos.compare m n);
      change (Pos.compare_cont Eq n m) with (Pos.compare n m);
      rewrite (Pos.compare_antisym m n); by destruct (m ?= n)%positive.
  - intros [|p|p] Hz; [done|..]; cbn;
      [destruct (binary_round_exact false p) as (?&->&?)|destruct (binary_round_exact true p) as (?&->&?)]; done || lia.
  - intros y z Hy Hz. apply eq_true_iff_eq. rewrite Z.leb_le.
    destruct y as [|p|p], z as [|q|q]; cbn; try done;
      repeat match goal with
      | |- context [binary_round _ _ ?s ?p 0] =>
          let m := fresh "m" in let H := fresh "H" in let Hm := fresh "Hm" in
          destruct (binary_round_exact s p) as (m&H&Hm); [lia|]; rewrite H
      end; try (split; done || lia).
    + rewrite SFleb_finite. apply scaled_significand_le; lia || done.
    + rewrite SFleb_finite. cbv iota.
      pose proof (scaled_significand_le q p m0 m) as Hs. cbv zeta in Hs.
      transitivity (Z.pos q ≤ Z.pos p); [|lia]. rewrite <-Hs by (done || lia). intuition.
  - by intros [?|[]| |[] ? ?].
  - by intros [?|[]| |[] ? ?] [?|[]| |[] ? ?] [?|[]| |[] ? ?].
  - intros [?|[]| |sa m e] [?|[]| |sb n f]; try done. intros _ _. by apply binary_round_aux_not_nan.
  - intros [[]|[]| |sa m e] [[]|[]| |sb n f]; try done. intros _ _. cbn.
    unfold binary_normalize. destruct (_ + _); [done|apply binary_round_not_nan..].
  - reflexivity.
Qed.
