(* ===== verification/Errors.v ===== *)
(** * Error taxonomy ([src/src/domain/errors.ts])

    The codes a payment failure carries, which of them are retryable, the error
    class of the payment pipeline and the classification of anything else. *)

From S2P Require Import Prelude.

Inductive PaymentErrorCode :=
  | CIRCUIT_OPEN | RATE_LIMITED | GATEWAY_UNAVAILABLE | GATEWAY_TIMEOUT | SERVER_ERROR
  | NETWORK_ERROR | CARD_DECLINED | INVALID_CARD | INSUFFICIENT_FUNDS | FRAUD
  | REFUND_FAILED | SETTLE_FAILED | RESERVE_FAILED | UNKNOWN.

#[export] Instance PaymentErrorCode_eq_dec : EqDecision PaymentErrorCode.
Proof. solve_decision. Defined.

(** The string value of a code, as it appears in messages and history. *)
Definition ERROR_CODES (c : PaymentErrorCode) : string :=
  match c with
  | CIRCUIT_OPEN => "circuit_open"
  | RATE_LIMITED => "rate_limited"
  | GATEWAY_UNAVAILABLE => "gateway_unavailable"
  | GATEWAY_TIMEOUT => "gateway_timeout"
  | SERVER_ERROR => "server_error"
  | NETWORK_ERROR => "network_error"
  | CARD_DECLINED => "card_declined"
  | INVALID_CARD => "invalid_card"
  | INSUFFICIENT_FUNDS => "insufficient_funds"
  | FRAUD => "fraud"
  | REFUND_FAILED => "refund_failed"
  | SETTLE_FAILED => "settle_failed"
  | RESERVE_FAILED => "reserve_failed"
  | UNKNOWN => "unknown"
  end.

Definition RETRYABLE_CODES : list PaymentErrorCode :=
  [CIRCUIT_OPEN; RATE_LIMITED; GATEWAY_UNAVAILABLE; GATEWAY_TIMEOUT; SERVER_ERROR;
   NETWORK_ERROR; UNKNOWN].

Definition isTransient (code : PaymentErrorCode) : bool :=
  bool_decide (code ∈ RETRYABLE_CODES).

(** The fields of [PaymentProcessingError]. *)
Record PaymentProcessingError := {
  ppe_message : string;
  code : PaymentErrorCode;
  ppe_httpStatus : option Z;
  ppe_gatewayId : option string;
  retryable : bool
}.

(** Its constructor: [retryable] is derived from [code]. *)
Definition new_PaymentProcessingError (message : string) (code : PaymentErrorCode)
    (httpStatus : option Z) (gatewayId : option string) : PaymentProcessingError :=
  {| ppe_message := message; code := code; ppe_httpStatus := httpStatus;
     ppe_gatewayId := gatewayId; retryable := isTransient code |}.

(** The values the source throws. *)
Inductive exn :=
  | EProcessing (e : PaymentProcessingError)
  | EError (message : string)            (** an [Error] *)
  | EValue (printed : string)            (** a value that is not an [Error], by its [String(raw)] *)
  | EBadRequest (message : string)       (** [BadRequestException]: HTTP 400 *)
  | ENotFound (message id : string)      (** [NotFoundException]: HTTP 404 *)
  | EConflict (message id status : string). (** [ConflictException]: HTTP 409 *)

#[export] Instance PaymentProcessingError_eq_dec : EqDecision PaymentProcessingError.
Proof. solve_decision. Defined.
#[export] Instance exn_eq_dec : EqDecision exn.
Proof. solve_decision. Defined.

(** [err instanceof Error ? err.message : String(err)] *)
Definition error_message (e : exn) : string :=
  match e with
  | EProcessing e => ppe_message e
  | EError m | EValue m | EBadRequest m | ENotFound m _ | EConflict m _ _ => m
  end.

Definition classifyHttpStatus (httpStatus : Z) : PaymentErrorCode :=
  if httpStatus =? 429 then RATE_LIMITED
  else if (httpStatus =? 503) || (httpStatus =? 502) then GATEWAY_UNAVAILABLE
  else if httpStatus >=? 500 then SERVER_ERROR
  else if httpStatus =? 400 then CARD_DECLINED
  else if httpStatus =? 402 then INSUFFICIENT_FUNDS
  else if httpStatus =? 401 then FRAUD
  else UNKNOWN.

Definition toPaymentProcessingError (raw : exn) (gatewayId : string)
    (fallbackCode : PaymentErrorCode) : PaymentProcessingError :=
  match raw with
  | EProcessing e => e
  | _ => new_PaymentProcessingError (error_message raw) fallbackCode None (Some gatewayId)
  end.

(** An error is well formed when its retry flag is the one its code gives: the
    class invariant of [PaymentProcessingError]. *)
Definition exn_wf (e : exn) : Prop :=
  match e with
  | EProcessing e => retryable e = isTransient (code e)
  | _ => True
  end.

(** Retryability of the classified HTTP statuses: the statuses that mark a
    payment as permanently refused are exactly 400, 401 and 402. *)
Lemma isTransient_classify (status : Z) :
  isTransient (classifyHttpStatus status) = negb (bool_decide (status ∈ [400; 401; 402])).
Proof.
  unfold classifyHttpStatus.
  repeat case_match; cbn; symmetry; rewrite ?negb_true_iff, ?negb_false_iff,
    ?bool_decide_eq_true, ?bool_decide_eq_false, !elem_of_cons, elem_of_nil; lia.
Qed.

Lemma ERROR_CODES_inj (c d : PaymentErrorCode) : ERROR_CODES c = ERROR_CODES d → c = d.
Proof. by destruct c, d. Qed.

Lemma toPaymentProcessingError_wf (raw : exn) gatewayId fallback :
  exn_wf raw →
  retryable (toPaymentProcessingError raw gatewayId fallback) =
  isTransient (code (toPaymentProcessingError raw gatewayId fallback)).
Proof. by destruct raw. Qed.

Lemma toPaymentProcessingError_idemp (raw : exn) gatewayId gatewayId' fallback fallback' :
  toPaymentProcessingError (EProcessing (toPaymentProcessingError raw gatewayId fallback))
    gatewayId' fallback' = toPaymentProcessingError raw gatewayId fallback.
Proof. done. Qed.
