(* ===== verification/JsValue.v ===== *)
(** * JavaScript values

    The values that reach the service as [unknown]: request bodies and the
    metadata a payment carries.  Strings are byte strings, one byte per UTF-16
    code unit of the source (so the development covers texts of Latin-1 code
    units); numbers are doubles; an object is the list of its own properties in
    insertion order.  Also the operations on texts that several components use. *)

From S2P Require Import Prelude Num.

Inductive jsval :=
  | JUndefined
  | JNull
  | JBool (b : bool)
  | JNumber (x : binary64)
  | JString (s : string)
  | JDate (t : option Z)                    (** a [Date]: its time value, [None] for NaN *)
  | JArray (l : list jsval)
  | JObject (o : list (string * jsval)).

(** [o[key]] *)
Definition js_get (o : list (string * jsval)) (key : string) : jsval :=
  match list_find (λ kv, kv.1 = key) o with
  | Some (_, (_, v)) => v
  | None => JUndefined
  end.

(** [v ?? d] *)
Definition js_nullish (v d : jsval) : jsval :=
  match v with
  | JUndefined | JNull => d
  | _ => v
  end.

(** A string of the source is an array of code units. *)
Definition string_forall (p : Ascii.ascii → bool) (s : string) : bool :=
  forallb p (String.list_ascii_of_string s).

Lemma string_forall_cons p c s : string_forall p (String c s) = p c && string_forall p s.
Proof. done. Qed.

(** ** Texts *)
Definition code_unit (c : Ascii.ascii) : Z := Z.of_N (Ascii.N_of_ascii c).

(** [toLowerCase] of one code unit. *)
Definition lower (c : Ascii.ascii) : Ascii.ascii :=
  let n := code_unit c in
  if ((65 <=? n) && (n <=? 90)) || ((192 <=? n) && (n <=? 222) && negb (n =? 215))
  then Ascii.ascii_of_N (Z.to_N (n + 32)) else c.

Fixpoint string_map (f : Ascii.ascii → Ascii.ascii) (s : string) : string :=
  match s with
  | "" => ""
  | String c s => String (f c) (string_map f s)
  end.

(** White space of [String.prototype.trim], among Latin-1. *)
Definition white (c : Ascii.ascii) : bool :=
  let n := code_unit c in ((9 <=? n) && (n <=? 13)) || (n =? 32) || (n =? 160).

Fixpoint trim_start (s : string) : string :=
  match s with
  | String c rest => if white c then trim_start rest else s
  | "" => ""
  end.
(** The longest prefix that does not end in white space. *)
Fixpoint trim_end (s : string) : string :=
  match s with
  | "" => ""
  | String c rest =>
      match trim_end rest with
      | "" => if white c then "" else String c ""
      | r => String c r
      end
  end.
Definition trim (s : string) : string := trim_end (trim_start s).

(** [s.split(d)] of one character. *)
Fixpoint split_on (d : Ascii.ascii) (s : string) : list string :=
  match s with
  | "" => [""]
  | String c rest =>
      if bool_decide (c = d) then "" :: split_on d rest
      else match split_on d rest with
           | [] => [String c ""]
           | p :: ps => String c p :: ps
           end
  end.

(** The text before the first [d], and the text after it. *)
Fixpoint cut (d : Ascii.ascii) (s : string) : string * option string :=
  match s with
  | "" => ("", None)
  | String c rest =>
      if bool_decide (c = d) then ("", Some rest)
      else let '(before, after) := cut d rest in (String c before, after)
  end.

(** [s.replace(pattern, by)]: the first occurrence. *)
Fixpoint replace_first (pattern by_ s : string) : string :=
  if String.prefix pattern s
  then by_ +:+ String.substring (String.length pattern) (String.length s - String.length pattern) s
  else match s with
       | "" => ""
       | String c rest => String c (replace_first pattern by_ rest)
       end.

Lemma string_length_app s t : String.length (s +:+ t) = (String.length s + String.length t)%nat.
Proof.
  induction s as [|c s IH]; [done|].
  change (S (String.length (s +:+ t)) = S (String.length s + String.length t)). by rewrite IH.
Qed.

(** ** Number formatting: [n.toString(36)] of a nonnegative integer *)
Definition base36_digit (d : Z) : Ascii.ascii :=
  Ascii.ascii_of_N (Z.to_N (if d <? 10 then 48 + d else 87 + d)).

Fixpoint base36_go (fuel : nat) (n : Z) (acc : string) : string :=
  match fuel with
  | O => acc
  | S fuel =>
      let acc' := String (base36_digit (n mod 36)) acc in
      if n <? 36 then acc' else base36_go fuel (n / 36) acc'
  end.

(** The bit length bounds the number of base-36 digits. *)
Definition to_base36 (n : Z) : string := base36_go (S (Z.to_nat (Z.log2 n))) n "".

Example to_base36_ex : to_base36 1725969600000 = "m0wdqio0".
Proof. vm_compute. reflexivity. Qed.
