(* ===== verification/Payment.v ===== *)
(** * Payment domain model ([src/src/domain/payment.ts])

    The payment, its record with the saga state and history, the lifecycle
    transitions, the idempotency record, the audit events and the job payload.
    A timestamp field, an ISO-8601 string in the source, is the number of
    milliseconds since the epoch that the string denotes. *)

From S2P Require Import Prelude Num JsValue.

Inductive PaymentPriority := High | Normal | Low.

Definition priority_string (p : PaymentPriority) : string :=
  match p with High => "high" | Normal => "normal" | Low => "low" end.

Definition PAYMENT_PRIORITIES : list PaymentPriority := [High; Normal; Low].

Definition PRIORITY_TO_NUMERIC (p : PaymentPriority) : Z :=
  match p with High => 1 | Normal => 2 | Low => 3 end.

Inductive PaymentStatus := Queued | Processing | Completed | Failed | DeadLetter.

Definition PAYMENT_STATUSES (s : PaymentStatus) : string :=
  match s with
  | Queued => "queued" | Processing => "processing" | Completed => "completed"
  | Failed => "failed" | DeadLetter => "dead_letter"
  end.

#[export] Instance PaymentPriority_eq_dec : EqDecision PaymentPriority.
Proof. solve_decision. Defined.
#[export] Instance PaymentStatus_eq_dec : EqDecision PaymentStatus.
Proof. solve_decision. Defined.

Definition DEFAULT_MAX_RETRIES : Z := 3.

Record Payment := {
  id : string;
  amount : Z;
  currency : string;
  customerId : string;
  gatewayId : string;
  priority : PaymentPriority;
  maxRetries : Z;
  metadata : list (string * jsval);
  createdAt : Z;
  scheduledAt : option Z
}.

Inductive SagaPhase := PhReserve | PhCharge | PhSettle | PhCompensation.

Inductive SagaState := Idle | Reserved | Charged | Settled | Compensated | SagaFailed.

#[export] Instance SagaPhase_eq_dec : EqDecision SagaPhase.
Proof. solve_decision. Defined.
#[export] Instance SagaState_eq_dec : EqDecision SagaState.
Proof. solve_decision. Defined.

Record SagaHistoryEntry := {
  phase : SagaPhase;
  event : string;
  detail : option string;
  at_ : Z
}.

(** [PaymentRecord extends Payment]: the payment, and the fields added to it. *)
Record PaymentRecord := {
  payment : Payment;
  status : PaymentStatus;
  retryCount : Z;
  sagaState : SagaState;
  history : list SagaHistoryEntry;
  jobId : option string;
  reservationId : option string;
  transactionId : option string;
  refundId : option string;
  failureReason : option string;
  correlationId : option string;
  processedAt : option Z;
  completedAt : option Z
}.

(** Field assignment on a record. *)
Section Assign.
Variable r : PaymentRecord.
#[local] Notation build st rc ss h ri ti fi fr pa ca :=
  {| payment := payment r; status := st; retryCount := rc; sagaState := ss; history := h;
     jobId := jobId r; reservationId := ri; transactionId := ti; refundId := fi;
     failureReason := fr; correlationId := correlationId r; processedAt := pa;
     completedAt := ca |} (only parsing).

Definition set_status v := build v (retryCount r) (sagaState r) (history r) (reservationId r)
  (transactionId r) (refundId r) (failureReason r) (processedAt r) (completedAt r).
Definition set_retryCount v := build (status r) v (sagaState r) (history r) (reservationId r)
  (transactionId r) (refundId r) (failureReason r) (processedAt r) (completedAt r).
Definition set_sagaState v := build (status r) (retryCount r) v (history r) (reservationId r)
  (transactionId r) (refundId r) (failureReason r) (processedAt r) (completedAt r).
Definition set_history v := build (status r) (retryCount r) (sagaState r) v (reservationId r)
  (transactionId r) (refundId r) (failureReason r) (processedAt r) (completedAt r).
Definition set_reservationId v := build (status r) (retryCount r) (sagaState r) (history r) v
  (transactionId r) (refundId r) (failureReason r) (processedAt r) (completedAt r).
Definition set_transactionId v := build (status r) (retryCount r) (sagaState r) (history r)
  (reservationId r) v (refundId r) (failureReason r) (processedAt r) (completedAt r).
Definition set_refundId v := build (status r) (retryCount r) (sagaState r) (history r)
  (reservationId r) (transactionId r) v (failureReason r) (processedAt r) (completedAt r).
Definition set_failureReason v := build (status r) (retryCount r) (sagaState r) (history r)
  (reservationId r) (transactionId r) (refundId r) v (processedAt r) (completedAt r).
Definition set_processedAt v := build (status r) (retryCount r) (sagaState r) (history r)
  (reservationId r) (transactionId r) (refundId r) (failureReason r) v (completedAt r).
Definition set_completedAt v := build (status r) (retryCount r) (sagaState r) (history r)
  (reservationId r) (transactionId r) (refundId r) (failureReason r) (processedAt r) v.
End Assign.

(** [record.history.push(entry)] *)
Definition push_history (r : PaymentRecord) (e : SagaHistoryEntry) : PaymentRecord :=
  set_history r (history r ++ [e]).

(** The argument of [createPaymentRecord]. *)
Record RecordInput := {
  in_id : string;
  in_amount : Z;
  in_currency : string;
  in_customerId : string;
  in_gatewayId : string;
  in_priority : PaymentPriority;
  in_maxRetries : option Z;
  in_metadata : option (list (string * jsval));
  in_scheduledAt : option Z;
  in_correlationId : option string;
  in_createdAt : option Z
}.

Definition createPaymentRecord (input : RecordInput) (clock : Z) : PaymentRecord :=
  let now := default clock (in_createdAt input) in
  {| payment :=
       {| id := in_id input; amount := in_amount input; currency := in_currency input;
          customerId := in_customerId input; gatewayId := in_gatewayId input;
          priority := in_priority input;
          maxRetries := default DEFAULT_MAX_RETRIES (in_maxRetries input);
          metadata := default [] (in_metadata input);
          createdAt := now;
          scheduledAt := in_scheduledAt input |};
     status := Queued; retryCount := 0; sagaState := Idle; history := [];
     jobId := None; reservationId := None; transactionId := None; refundId := None;
     failureReason := None; correlationId := in_correlationId input;
     processedAt := None; completedAt := None |}.

Definition transitionToProcessing (record : PaymentRecord) (attempt at' : Z) : PaymentRecord :=
  push_history (set_processedAt (set_retryCount (set_status record Processing) attempt) (Some at'))
    {| phase := PhReserve; event := "attempt " +:+ pretty (attempt + 1) +:+ " started";
       detail := None; at_ := at' |}.

(** [if (transactionId)]: the empty string is falsy. *)
Definition truthy (o : option string) : bool :=
  match o with Some "" | None => false | _ => true end.

Definition transitionToCompleted (record : PaymentRecord) (transactionId : option string)
    (at' : Z) : PaymentRecord :=
  let r := set_completedAt (set_status record Completed) (Some at') in
  if truthy transactionId then set_transactionId r transactionId else r.

Definition transitionToFailed (record : PaymentRecord) (reason : string) (at' : Z) : PaymentRecord :=
  push_history (set_failureReason (set_status record Failed) (Some reason))
    {| phase := PhSettle; event := "failed"; detail := Some reason; at_ := at' |}.

Definition transitionToDeadLetter (record : PaymentRecord) (reason : string) (at' : Z) : PaymentRecord :=
  push_history (set_failureReason (set_status record DeadLetter) (Some reason))
    {| phase := PhCompensation; event := "dead_lettered"; detail := Some reason; at_ := at' |}.

(** ** Idempotency records, audit events, jobs *)

Inductive IdempotencyState := PROCESSING | COMPLETED | FAILED.

#[export] Instance IdempotencyState_eq_dec : EqDecision IdempotencyState.
Proof. solve_decision. Defined.

Record IdempotencyRecord := {
  ir_paymentId : string;
  state : IdempotencyState;
  paymentStatus : option PaymentStatus;
  ir_transactionId : option string;
  ir_failureReason : option string;
  claimedAt : option Z;
  updatedAt : option Z
}.

Inductive AuditType :=
  | A_payment_submitted | A_payment_queued | A_payment_processing | A_payment_completed
  | A_payment_failed | A_payment_dead_lettered | A_saga_reserve | A_saga_charge | A_saga_settle
  | A_release_funds | A_refund_charge | A_idempotency_claimed | A_idempotency_finalized.

#[export] Instance AuditType_eq_dec : EqDecision AuditType.
Proof. solve_decision. Defined.

Record AuditEvent := {
  ae_paymentId : string;
  ae_type : AuditType;
  ae_at : Z;
  ae_detail : option (list (string * jsval))
}.

(** Payload carried inside BullMQ jobs. *)
Record PaymentJobData := { jd_paymentId : string; jd_correlationId : option string }.

Definition QUEUE_JOB_NAME : string := "payment".
Definition DLQ_QUEUE_NAME : string := "dlq".
Definition DLQ_JOB_NAME : string := "dead-letter".

(** ** What every operation on a record preserves

    [evolves r r']: [r'] comes from [r] by operations of the source: the payment
    itself, the job id and the correlation id are never assigned, and the
    history only grows. *)
Definition evolves (r r' : PaymentRecord) : Prop :=
  payment r' = payment r ∧ jobId r' = jobId r ∧ correlationId r' = correlationId r ∧
  history r `prefix_of` history r'.

#[export] Instance evolves_preorder : PreOrder evolves.
Proof.
  split; [intros r; by repeat split|].
  intros r1 r2 r3 (?&?&?&?) (?&?&?&?). repeat split; try congruence. by etrans.
Qed.

Lemma evolves_push r e : evolves r (push_history r e).
Proof. repeat split. by apply prefix_app_r. Qed.
Lemma evolves_set_status r v : evolves r (set_status r v).
Proof. done. Qed.
Lemma evolves_set_sagaState r v : evolves r (set_sagaState r v).
Proof. done. Qed.
Lemma evolves_set_reservationId r v : evolves r (set_reservationId r v).
Proof. done. Qed.
Lemma evolves_set_transactionId r v : evolves r (set_transactionId r v).
Proof. done. Qed.
Lemma evolves_set_refundId r v : evolves r (set_refundId r v).
Proof. done. Qed.
Lemma evolves_set_failureReason r v : evolves r (set_failureReason r v).
Proof. done. Qed.

Lemma evolves_processing r n t : evolves r (transitionToProcessing r n t).
Proof. repeat split. by apply prefix_app_r. Qed.
Lemma evolves_completed r tx t : evolves r (transitionToCompleted r tx t).
Proof. unfold transitionToCompleted. by case_match. Qed.
Lemma evolves_dead_letter r why t : evolves r (transitionToDeadLetter r why t).
Proof. repeat split. by apply prefix_app_r. Qed.

#[export] Hint Resolve evolves_push evolves_set_status evolves_set_sagaState
  evolves_set_reservationId evolves_set_transactionId evolves_set_refundId
  evolves_set_failureReason evolves_processing evolves_completed evolves_dead_letter : qsys.

(** The numeric priority handed to BullMQ orders the priorities of the source:
    an earlier entry of [PAYMENT_PRIORITIES] has the smaller number. *)
Lemma PRIORITY_TO_NUMERIC_lookup (p : PaymentPriority) :
  ∃ i, PAYMENT_PRIORITIES !! i = Some p ∧ PRIORITY_TO_NUMERIC p = Z.of_nat i + 1.
Proof. destruct p; [exists 0%nat|exists 1%nat|exists 2%nat]; done. Qed.

Lemma priority_string_inj p q : priority_string p = priority_string q → p = q.
Proof. by destruct p, q. Qed.
Lemma PAYMENT_STATUSES_inj s t : PAYMENT_STATUSES s = PAYMENT_STATUSES t → s = t.
Proof. by destruct s, t. Qed.
