(* ===== verification/TokenBucket.v ===== *)
(** * Adaptive token bucket ([src/src/gateway/adaptive-token-bucket.ts])

    Per-gateway flow control: a token bucket whose refill rate and burst ceiling
    follow the gateway's answers (additive increase, multiplicative decrease).
    The bucket is a record, each method a function on it; [Date.now()] is the
    argument [now], and the polling loop of [waitForToken] reads a clock that
    other code may advance between two reads. *)

From Stdlib Require Import QArith Qminmax Lqa.
From S2P Require Import Prelude Num.
#[local] Open Scope Z_scope.

(** ** The runtime clock

    [rt_now] is the time of the last observation of the clock and [rt_ix] counts
    observations; [elapsed i] milliseconds pass between observation [i] and the
    one before it (the host clock is not stepped back). *)
Record runtime := { rt_now : Z; rt_ix : nat; rt_rand : nat }.

Section Clock.
Variable elapsed : nat → nat.

(** [Date.now()] *)
Definition read_clock (rt : runtime) : Z * runtime :=
  let t := rt_now rt + Z.of_nat (elapsed (rt_ix rt)) in
  (t, {| rt_now := t; rt_ix := S (rt_ix rt); rt_rand := rt_rand rt |}).

(** [setTimeout(resolve, ms)] has fired: at least [ms] milliseconds passed. *)
Definition sleep_clock (ms : Z) (rt : runtime) : runtime :=
  {| rt_now := rt_now rt + Z.max 0 ms + Z.of_nat (elapsed (rt_ix rt));
     rt_ix := S (rt_ix rt); rt_rand := rt_rand rt |}.
End Clock.

Record TokenBucketParams (N : Type) := {
  nominalRps : N;
  burstFactor : N;
  minRateFactor : N;
  aiStepRps : N;
  tokenWaitMs : Z
}.
Arguments nominalRps {N} _.
Arguments burstFactor {N} _.
Arguments minRateFactor {N} _.
Arguments aiStepRps {N} _.
Arguments tokenWaitMs {N} _.

Record AdaptiveTokenBucket (N : Type) := {
  params : TokenBucketParams N;
  rate : N;
  burst : N;
  tokens : N;
  lastRefill : Z;
  throttleCount : Z
}.
Arguments params {N} _.
Arguments rate {N} _.
Arguments burst {N} _.
Arguments tokens {N} _.
Arguments lastRefill {N} _.
Arguments throttleCount {N} _.

(** The object returned by [getState]. *)
Record TokenBucketState (N : Type) := {
  ts_params : TokenBucketParams N;
  ts_rate : N;
  ts_burst : N;
  ts_tokens : N;
  ts_throttleCount : Z
}.
Arguments ts_params {N} _.
Arguments ts_rate {N} _.
Arguments ts_burst {N} _.
Arguments ts_tokens {N} _.
Arguments ts_throttleCount {N} _.

Section Bucket.
Context {N : Type} `{!JsNum N}.
#[local] Open Scope js_scope.
Implicit Types (b : AdaptiveTokenBucket N) (p : TokenBucketParams N).

Definition new_bucket p (now : Z) : AdaptiveTokenBucket N :=
  {| params := p; rate := nominalRps p; burst := nominalRps p * burstFactor p;
     tokens := nominalRps p * burstFactor p; lastRefill := now; throttleCount := 0 |}.

Definition reconfigure b p : AdaptiveTokenBucket N :=
  {| params := p; rate := nominalRps p; burst := nominalRps p * burstFactor p;
     tokens := nominalRps p * burstFactor p; lastRefill := lastRefill b;
     throttleCount := throttleCount b |}.

Definition refill (now : Z) b : AdaptiveTokenBucket N :=
  if (now <=? lastRefill b)%Z then b
  else
    let elapsedSeconds := nof (now - lastRefill b)%Z / nof 1000 in
    {| params := params b; rate := rate b; burst := burst b;
       tokens := nmin (burst b) (tokens b + elapsedSeconds * rate b);
       lastRefill := now; throttleCount := throttleCount b |}.

Definition with_tokens b (t : N) : AdaptiveTokenBucket N :=
  {| params := params b; rate := rate b; burst := burst b; tokens := t;
     lastRefill := lastRefill b; throttleCount := throttleCount b |}.

Definition tryAcquire (now : Z) b : bool * AdaptiveTokenBucket N :=
  let b := refill now b in
  if tokens b >=? nof 1 then (true, with_tokens b (tokens b - nof 1))
  else (false, b).

Definition onThrottled b : AdaptiveTokenBucket N :=
  let p := params b in
  let burst' := nmax (nominalRps p * minRateFactor p * burstFactor p) (burst b * nlit 1 2) in
  {| params := p;
     rate := nmax (nominalRps p * minRateFactor p) (rate b * nlit 1 2);
     burst := burst';
     tokens := nmin (tokens b) burst';
     lastRefill := lastRefill b;
     throttleCount := (throttleCount b + 1)%Z |}.

Definition onSuccess b : AdaptiveTokenBucket N :=
  let p := params b in
  let maxBurst := nominalRps p * burstFactor p in
  let rate' := if rate b <? nominalRps p then nmin (nominalRps p) (rate b + aiStepRps p) else rate b in
  let burst' :=
    if burst b <? maxBurst then nmin maxBurst (burst b + aiStepRps p * burstFactor p) else burst b in
  {| params := p; rate := rate'; burst := burst'; tokens := nmin (tokens b) burst';
     lastRefill := lastRefill b; throttleCount := throttleCount b |}.

Definition getState (now : Z) b : TokenBucketState N * AdaptiveTokenBucket N :=
  let b := refill now b in
  ({| ts_params := params b; ts_rate := rate b; ts_burst := burst b; ts_tokens := tokens b;
      ts_throttleCount := throttleCount b |}, b).

(** *** [waitForToken]: poll until a token is granted or the deadline passes *)
Section Wait.
Variable elapsed : nat → nat.

Definition poll_delay (deadline now : Z) : Z := Z.min 15 (Z.max 5 (deadline - now)).

(** One turn of [for (;;)] per unit of fuel; [None] when it runs out.  The
    callback [onTokenGrant] is not set by any caller. *)
Fixpoint wait_loop (fuel : nat) (deadline : Z) (rt : runtime) b
    : option bool * runtime * AdaptiveTokenBucket N :=
  match fuel with
  | O => (None, rt, b)
  | S fuel =>
      let '(t, rt) := read_clock elapsed rt in
      let '(granted, b) := tryAcquire t b in
      if granted then (Some true, rt, b)
      else
        let '(now, rt) := read_clock elapsed rt in
        if (deadline <=? now)%Z then (Some false, rt, b)
        else wait_loop fuel deadline (sleep_clock elapsed (poll_delay deadline now) rt) b
  end.

(** Every turn that does not end the loop sleeps at least 5 ms. *)
Definition wait_fuel (timeoutMs : Z) : nat := S (S (Z.to_nat (timeoutMs / 5))).

Definition waitForToken (timeoutMs : Z) (rt : runtime) b
    : option bool * runtime * AdaptiveTokenBucket N :=
  let '(t, rt) := read_clock elapsed rt in
  wait_loop (wait_fuel timeoutMs) (t + timeoutMs)%Z rt b.
End Wait.
End Bucket.

(** ** Bounds

    What holds of doubles: whatever the rate was, a throttling response leaves it
    at or above its floor, and a success never raises it above the nominal. *)
Section Clamps.
Context {N : Type} `{!JsNum N, !JsNumOrder N}.
#[local] Open Scope js_scope.

Lemma onThrottled_floor (b : AdaptiveTokenBucket N) :
  let p := params b in
  nan (nominalRps p * minRateFactor p) = false → nan (rate b * nlit 1 2) = false →
  nle (nominalRps p * minRateFactor p) (rate (onThrottled b)) = true.
Proof. intros p Hf Hr. cbn. auto with jsnum. Qed.

Lemma onSuccess_ceiling (b : AdaptiveTokenBucket N) :
  let p := params b in
  nfin (nominalRps p) = true → nfin (aiStepRps p) = true → nfin (rate b) = true →
  nle (rate (onSuccess b)) (nominalRps p) = true ∨ rate (onSuccess b) = rate b.
Proof.
  intros p Hn Hs Hr. cbn. case_match; [left|by right].
  apply nmin_le_l; eauto with jsnum.
Qed.
End Clamps.

(** In exact arithmetic every operation keeps the rate and the burst ceiling
    between their floor and their nominal value, and the tokens between zero and
    the burst ceiling. *)
Section Bounds.
Context {N : Type} `{!JsNum N, !JsNumOrder N, !JsNumArith N}.
#[local] Open Scope js_scope.

(** A configuration of finite nonnegative numbers whose floors are not above
    the nominal values (a [minRateFactor] of at most one). *)
Record params_ok (p : TokenBucketParams N) : Prop := {
  ok_nominal : nfin (nominalRps p) = true;
  ok_step : nfin (aiStepRps p) = true;
  ok_burst_step : nfin (aiStepRps p * burstFactor p) = true;
  ok_burst : nfin (nominalRps p * burstFactor p) = true;
  ok_step_nonneg : nle (nof 0) (aiStepRps p) = true;
  ok_factor_nonneg : nle (nof 0) (burstFactor p) = true;
  ok_min_nonneg : nle (nof 0) (minRateFactor p) = true;
  ok_nominal_nonneg : nle (nof 0) (nominalRps p) = true;
  ok_floor_le : nle (nominalRps p * minRateFactor p) (nominalRps p) = true;
  ok_burst_floor_le :
    nle (nominalRps p * minRateFactor p * burstFactor p) (nominalRps p * burstFactor p) = true
}.

Record bucket_wf (b : AdaptiveTokenBucket N) : Prop := {
  wf_params : params_ok (params b);
  wf_rate_lo : nle (nominalRps (params b) * minRateFactor (params b)) (rate b) = true;
  wf_rate_hi : nle (rate b) (nominalRps (params b)) = true;
  wf_burst_lo :
    nle (nominalRps (params b) * minRateFactor (params b) * burstFactor (params b)) (burst b) = true;
  wf_burst_hi : nle (burst b) (nominalRps (params b) * burstFactor (params b)) = true;
  wf_tokens_lo : nle (nof 0) (tokens b) = true;
  wf_tokens_hi : nle (tokens b) (burst b) = true
}.

Lemma wf_floor_nonneg b : bucket_wf b →
  nle (nof 0) (nominalRps (params b) * minRateFactor (params b)) = true.
Proof. intros [[]]. by apply nmul_nonneg. Qed.
Lemma wf_rate_nonneg b : bucket_wf b → nle (nof 0) (rate b) = true.
Proof. intros H. exact (nle_trans _ _ _ (wf_floor_nonneg b H) (wf_rate_lo b H)). Qed.
Lemma wf_burst_nonneg b : bucket_wf b → nle (nof 0) (burst b) = true.
Proof.
  intros H. eapply nle_trans; [|exact (wf_burst_lo b H)].
  apply nmul_nonneg; [by apply wf_floor_nonneg|apply H].
Qed.
Hint Resolve wf_rate_nonneg wf_burst_nonneg : jsnum.

(** One additive increase [x → min(hi, x + s)], guarded by [x < hi]. *)
Lemma additive_increase x hi s :
  nle x hi = true → nle x (x + s) = true →
  let x' := if x <? hi then nmin hi (x + s) else x in
  nle x x' = true ∧ nle x' hi = true.
Proof.
  intros Hhi Hs. cbv zeta. destruct (x <? hi); [|split; [apply nle_refl|done]].
  - split; [by apply nmin_glb|]. apply nmin_le_l; [exact (nle_nan_r _ _ Hhi)|exact (nle_nan_r _ _ Hs)].
  - exact (nle_nan_l _ _ Hhi).
Qed.

(** One multiplicative decrease [x → max(lo, x / 2)]. *)
Lemma multiplicative_decrease x lo hi :
  nle (nof 0) x = true → nle lo hi = true → nle x hi = true →
  let x' := nmax lo (x * nlit 1 2) in
  nle lo x' = true ∧ nle x' hi = true.
Proof.
  intros Hx Hlo Hhi. cbv zeta. pose proof (nhalf_le x Hx) as Hhalf. split.
  - apply nmax_ge_l; [exact (nle_nan_l _ _ Hlo)|exact (nle_nan_l _ _ Hhalf)].
  - apply nmax_lub; [done|]. exact (nle_trans _ _ _ Hhalf Hhi).
Qed.

Lemma new_bucket_wf p now : params_ok p → bucket_wf (new_bucket p now).
Proof.
  intros []. split; cbn; try done; try (by apply nle_refl, nfin_not_nan).
  by apply nmul_nonneg.
Qed.

Lemma reconfigure_wf b p : params_ok p → bucket_wf (reconfigure b p).
Proof.
  intros []. split; cbn; try done; try (by apply nle_refl, nfin_not_nan).
  by apply nmul_nonneg.
Qed.

Lemma elapsed_nonneg b now :
  bucket_wf b → lastRefill b < now →
  nle (nof 0) (nof (now - lastRefill b)%Z / nof 1000 * rate b) = true.
Proof.
  intros H Hlt. apply nmul_nonneg; [|by apply wf_rate_nonneg].
  apply ndiv_nonneg; [done|]. apply nof_nonneg. lia.
Qed.

Lemma refill_wf now b : bucket_wf b → bucket_wf (refill now b).
Proof.
  intros H. unfold refill. destruct (now <=? lastRefill b)%Z eqn:Hle; [done|].
  apply Z.leb_gt in Hle. pose proof (elapsed_nonneg b now H Hle) as Hadd.
  pose proof (nadd_0_r_le (tokens b) _ Hadd) as Hgrow.
  assert (Hnew : nle (nof 0) (tokens b + nof (now - lastRefill b)%Z / nof 1000 * rate b) = true)
    by exact (nle_trans _ _ _ (wf_tokens_lo b H) Hgrow).
  destruct H. split; cbn; try done.
  - apply nmin_glb; [|done]. eapply nle_trans; [|done]. done.
  - apply nmin_le_l; [exact (nle_nan_l _ _ wf_burst_hi0)|exact (nle_nan_r _ _ Hnew)].
Qed.

Lemma with_tokens_wf b t :
  bucket_wf b → nle (nof 0) t = true → nle t (burst b) = true → bucket_wf (with_tokens b t).
Proof. intros [] ? ?. by split. Qed.

(** Taking a whole token from a bucket that holds one keeps it within bounds. *)
Lemma tryAcquire_wf now b :
  bucket_wf b → bucket_wf (tryAcquire now b).2.
Proof.
  intros Hb%(refill_wf now). unfold tryAcquire.
  destruct (tokens (refill now b) >=? nof 1) eqn:Hge; [|done]. cbn.
  assert (nle (tokens (refill now b) - nof 1) (tokens (refill now b)) = true)
    by (apply nsub_le, nof_nonneg; done).
  apply with_tokens_wf; [done|by apply nsub_nonneg|].
  eapply nle_trans; [done|]. by apply wf_tokens_hi.
Qed.

Lemma onThrottled_wf b : bucket_wf b → bucket_wf (onThrottled b).
Proof.
  intros H. pose proof (wf_rate_nonneg b H) as Hr0. pose proof (wf_burst_nonneg b H) as Hb0.
  destruct H as [Hp ? ? ? ? ? ?].
  destruct (multiplicative_decrease (rate b) _ _ Hr0 (ok_floor_le _ Hp)) as [? ?]; [done|].
  destruct (multiplicative_decrease (burst b) _ _ Hb0 (ok_burst_floor_le _ Hp)) as [Hlo ?]; [done|].
  split; cbn; try done.
  - apply nmin_glb; [done|]. eapply nle_trans; [|exact Hlo].
    destruct Hp. by repeat apply nmul_nonneg.
  - apply nmin_le_r; [by eapply nle_nan_l|by eapply nle_nan_r].
Qed.

Lemma onSuccess_wf b : bucket_wf b → bucket_wf (onSuccess b).
Proof.
  intros H. pose proof (wf_burst_nonneg b H) as Hb0. destruct H as [Hp ? ? ? ? ? ?].
  destruct (additive_increase (rate b) (nominalRps (params b)) (aiStepRps (params b)))
    as [? ?]; [done|by apply nadd_0_r_le, Hp|].
  destruct (additive_increase (burst b) (nominalRps (params b) * burstFactor (params b))
    (aiStepRps (params b) * burstFactor (params b))) as [Hgrow ?];
    [done|apply nadd_0_r_le; destruct Hp; by apply nmul_nonneg|].
  split; cbn; try done.
  - by eapply nle_trans.
  - by eapply nle_trans.
  - apply nmin_glb; [done|]. by eapply nle_trans.
  - apply nmin_le_r; [by eapply nle_nan_l|by eapply nle_nan_r].
Qed.
End Bounds.

(** ** Waiting for a token always ends *)
Section WaitSpec.
Context {N : Type} `{!JsNum N}.
Variable elapsed : nat → nat.
Implicit Types (b : AdaptiveTokenBucket N).

Lemma read_clock_mono rt : rt_now rt ≤ rt_now (read_clock elapsed rt).2.
Proof. cbn. lia. Qed.

Lemma read_clock_time rt : (read_clock elapsed rt).1 = rt_now (read_clock elapsed rt).2.
Proof. done. Qed.

Lemma sleep_clock_time ms rt : rt_now rt + ms ≤ rt_now (sleep_clock elapsed ms rt).
Proof. cbn. lia. Qed.

Lemma tryAcquire_denied now b b' :
  tryAcquire now b = (false, b') → nle (nof 1) (tokens b') = false.
Proof. unfold tryAcquire. case_match; [done|]. by intros [= <-]. Qed.

(** What the loop guarantees about its answer. *)
Definition wait_post (start deadline : Z) (out : option bool * runtime * AdaptiveTokenBucket N) : Prop :=
  match out with
  | (None, _, _) => False
  | (Some true, rt', b') =>
      ∃ now b0, start ≤ now ≤ rt_now rt' ∧ tryAcquire now b0 = (true, b')
  | (Some false, rt', b') => deadline ≤ rt_now rt' ∧ nle (nof 1) (tokens b') = false
  end.

Lemma wait_loop_spec fuel deadline rt b :
  (0 < fuel)%nat → deadline - rt_now rt ≤ 5 * (Z.of_nat fuel - 1) →
  wait_post (rt_now rt) deadline (wait_loop elapsed fuel deadline rt b).
Proof.
  revert rt b. induction fuel as [|fuel IH]; intros rt b Hpos Hfuel; [lia|]. cbn [wait_loop].
  destruct (read_clock elapsed rt) as [t rt1] eqn:H1.
  pose proof (read_clock_mono rt) as Hm1. pose proof (read_clock_time rt) as Ht1.
  rewrite H1 in Hm1, Ht1; cbn in Hm1, Ht1.
  destruct (tryAcquire t b) as [[] b1] eqn:Hacq; [exists t, b; split; [lia|done]|].
  destruct (read_clock elapsed rt1) as [now rt2] eqn:H2.
  pose proof (read_clock_mono rt1) as Hm2. pose proof (read_clock_time rt1) as Ht2.
  rewrite H2 in Hm2, Ht2; cbn in Hm2, Ht2.
  destruct (Z.leb_spec deadline now) as [Hd|Hd].
  - split; [lia|]. by eapply tryAcquire_denied.
  - pose proof (sleep_clock_time (poll_delay deadline now) rt2) as Hs.
    assert (5 ≤ poll_delay deadline now) by (unfold poll_delay; lia).
    set (rt3 := sleep_clock _ _ _) in *.
    assert (Hpost : wait_post (rt_now rt3) deadline (wait_loop elapsed fuel deadline rt3 b1))
      by (apply IH; lia).
    destruct (wait_loop elapsed fuel deadline rt3 b1) as [[[[]|] ?] ?]; cbn in *; [|done..].
    destruct Hpost as (n&b0&?&?). exists n, b0. split; [lia|done].
Qed.

Lemma waitForToken_post timeoutMs rt b :
  wait_post (rt_now rt) (rt_now rt + timeoutMs) (waitForToken elapsed timeoutMs rt b).
Proof.
  unfold waitForToken. destruct (read_clock elapsed rt) as [t rt1] eqn:H1.
  pose proof (read_clock_mono rt) as Hm1. pose proof (read_clock_time rt) as Ht1.
  rewrite H1 in Hm1, Ht1; cbn in Hm1, Ht1.
  assert (Hpost : wait_post (rt_now rt1) (t + timeoutMs)
    (wait_loop elapsed (wait_fuel timeoutMs) (t + timeoutMs) rt1 b)).
  { apply wait_loop_spec; unfold wait_fuel; [lia|].
    assert (timeoutMs < 5 * (timeoutMs / 5 + 1)) by
      (apply (Z.mul_succ_div_gt timeoutMs 5); lia).
    lia. }
  destruct (wait_loop _ _ _ rt1 b) as [[[[]|] ?] ?]; cbn in *; [|destruct Hpost; split; [lia|done]|done].
  destruct Hpost as (n&b0&?&?). exists n, b0. split; [lia|done].
Qed.

Lemma wait_loop_mono fuel deadline rt b :
  rt_now rt ≤ rt_now (wait_loop elapsed fuel deadline rt b).1.2.
Proof.
  revert rt b. induction fuel as [|fuel IH]; intros rt b; [cbn; lia|]. cbn [wait_loop].
  destruct (read_clock elapsed rt) as [t rt1] eqn:H1.
  pose proof (read_clock_mono rt) as Hm1. rewrite H1 in Hm1; cbn in Hm1.
  destruct (tryAcquire t b) as [[] b1]; [done|].
  destruct (read_clock elapsed rt1) as [now rt2] eqn:H2.
  pose proof (read_clock_mono rt1) as Hm2. rewrite H2 in Hm2; cbn in Hm2.
  destruct (deadline <=? now); [cbn; lia|].
  pose proof (IH (sleep_clock elapsed (poll_delay deadline now) rt2) b1) as Hrec.
  pose proof (sleep_clock_time (poll_delay deadline now) rt2).
  assert (5 ≤ poll_delay deadline now) by (unfold poll_delay; lia). lia.
Qed.

Lemma waitForToken_mono timeoutMs rt b :
  rt_now rt ≤ rt_now (waitForToken elapsed timeoutMs rt b).1.2.
Proof.
  unfold waitForToken. destruct (read_clock elapsed rt) as [t rt1] eqn:H1.
  pose proof (read_clock_mono rt) as Hm1. rewrite H1 in Hm1; cbn in Hm1.
  pose proof (wait_loop_mono (wait_fuel timeoutMs) (t + timeoutMs) rt1 b). lia.
Qed.
End WaitSpec.

(** ** Throughput and recovery, in exact arithmetic *)

(** A call on a bucket: [OpAcquire t] is [tryAcquire] at time [t], [OpRead t] is
    [getState] at time [t]. *)
Inductive bucket_op := OpAcquire (now : Z) | OpRead (now : Z) | OpThrottled | OpSuccess.

Section Run.
Context {N : Type} `{!JsNum N}.

Definition run_op (op : bucket_op) (b : AdaptiveTokenBucket N) : Z * AdaptiveTokenBucket N :=
  match op with
  | OpAcquire now => let '(granted, b') := tryAcquire now b in (Z.b2z granted, b')
  | OpRead now => (0, (getState now b).2)
  | OpThrottled => (0, onThrottled b)
  | OpSuccess => (0, onSuccess b)
  end.

(** The number of tokens granted by a sequence of calls, and the final bucket. *)
Fixpoint run_ops (ops : list bucket_op) (b : AdaptiveTokenBucket N) : Z * AdaptiveTokenBucket N :=
  match ops with
  | [] => (0, b)
  | op :: ops =>
      let '(g, b') := run_op op b in
      let '(g', b'') := run_ops ops b' in
      (g + g', b'')
  end.

Lemma run_op_wf `{!JsNumOrder N, !JsNumArith N} op b : bucket_wf b → bucket_wf (run_op op b).2.
Proof.
  intros H. destruct op; cbn; [| |by apply onThrottled_wf|by apply onSuccess_wf].
  - destruct (tryAcquire now b) eqn:Ha. change a with (b0, a).2. rewrite <-Ha. by apply tryAcquire_wf.
  - by apply refill_wf.
Qed.

Lemma run_ops_wf `{!JsNumOrder N, !JsNumArith N} ops b : bucket_wf b → bucket_wf (run_ops ops b).2.
Proof.
  revert b. induction ops as [|op ops IH]; intros b H; [done|]. cbn.
  pose proof (run_op_wf op b H) as Hop. destruct (run_op op b) as [g b'].
  specialize (IH b' Hop). by destruct (run_ops ops b').
Qed.
End Run.

#[local] Open Scope Q_scope.

Lemma Q_nmin_le_l (a b : Q) : nmin a b <= a.
Proof. apply Q_nle, nmin_le_l; done. Qed.
Lemma Q_nmin_le_r (a b : Q) : nmin a b <= b.
Proof. apply Q_nle, nmin_le_r; done. Qed.

(** Milliseconds to seconds. *)
Lemma Q_seconds (y z : Z) : (nof (y - z)%Z / nof 1000)%js == inject_Z y / 1000 - inject_Z z / 1000.
Proof.
  cbn. unfold Z.sub. rewrite inject_Z_plus, inject_Z_opp. change (inject_Z 1000) with (1000 # 1). field.
Qed.

Section Throughput.
Implicit Types (b : AdaptiveTokenBucket Q).

(** The potential of a bucket: the tokens it holds, less what its nominal rate
    can have added since the epoch. *)
Definition potential b : Q := tokens b - nominalRps (params b) * (inject_Z (lastRefill b) / 1000).

Lemma refill_potential now b : bucket_wf b →
  potential (refill now b) <= potential b ∧ params (refill now b) = params b ∧
  (lastRefill b <= lastRefill (refill now b))%Z.
Proof.
  intros H. unfold refill. destruct (Z.leb_spec now (lastRefill b)) as [Hle|Hlt];
    [repeat split; [apply Qle_refl|done]|].
  split_and!; [|done|cbn; lia]. unfold potential; cbn [tokens params lastRefill].
  pose proof (Q_nmin_le_r (burst b)
    (tokens b + (nof (now - lastRefill b)%Z / nof 1000 * rate b)%js)) as Hmin.
  pose proof (proj1 (Q_nle _ _) (wf_rate_hi b H)) as Hr.
  set (T := (nof (now - lastRefill b)%Z / nof 1000)%js) in *.
  assert (HT : T == inject_Z now / 1000 - inject_Z (lastRefill b) / 1000) by apply Q_seconds.
  assert (HT0 : 0 <= T) by (apply Q_nle; exact (ndiv_nonneg (nof _) 1000 eq_refl (nof_nonneg (now - lastRefill b) ltac:(lia)))).
  change (T * rate b)%js with (T * rate b) in *.
  change (nadd (tokens b) (T * rate b)) with (tokens b + T * rate b).
  assert (T * rate b <= T * nominalRps (params b)) by (rewrite !(Qmult_comm T); by apply Qmult_le_compat_r).
  assert (T * nominalRps (params b) ==
    nominalRps (params b) * (inject_Z now / 1000) - nominalRps (params b) * (inject_Z (lastRefill b) / 1000))
    by (rewrite HT; ring).
  lra.
Qed.
Lemma tryAcquire_potential now b : bucket_wf b →
  let '(g, b') := tryAcquire now b in
  inject_Z (Z.b2z g) + potential b' <= potential b ∧ params b' = params b ∧
  (lastRefill b <= lastRefill b')%Z.
Proof.
  intros H. destruct (refill_potential now b H) as (Hp&Hparams&Hl). unfold tryAcquire.
  destruct (_ >=? _)%js; split_and!; try done.
  - unfold potential in *; cbn in *. unfold inject_Z in *. lra.
  - cbn [Z.b2z]. change (inject_Z 0) with 0. lra.
Qed.

Lemma run_op_potential op b : bucket_wf b →
  let '(g, b') := run_op op b in
  inject_Z g + potential b' <= potential b ∧ params b' = params b ∧
  (lastRefill b <= lastRefill b')%Z.
Proof.
  intros H. destruct op as [now|now| |]; cbn [run_op].
  - pose proof (tryAcquire_potential now b H) as Ht. by destruct (tryAcquire now b).
  - destruct (refill_potential now b H) as (Hp&?&?). change (inject_Z 0) with 0.
    split_and!; try done. cbn. lra.
  - split_and!; [|done..]. change (inject_Z 0) with 0. rewrite Qplus_0_l.
    apply Qplus_le_compat; [|apply Qle_refl]. apply Q_nmin_le_l.
  - split_and!; [|done..]. change (inject_Z 0) with 0. rewrite Qplus_0_l.
    apply Qplus_le_compat; [|apply Qle_refl]. apply Q_nmin_le_l.
Qed.

Lemma run_ops_potential ops b : bucket_wf b →
  let '(g, b') := run_ops ops b in
  inject_Z g + potential b' <= potential b ∧ params b' = params b ∧
  (lastRefill b <= lastRefill b')%Z.
Proof.
  revert b. induction ops as [|op ops IH]; intros b H; cbn [run_ops].
  - change (inject_Z 0) with 0. split_and!; [lra|done..].
  - pose proof (run_op_potential op b H) as Hop. pose proof (run_op_wf op b H) as Hwf.
    destruct (run_op op b) as [g b1]. specialize (IH b1 Hwf).
    destruct (run_ops ops b1) as [g' b2]. destruct Hop as (?&Hp1&?), IH as (?&Hp2&?).
    rewrite inject_Z_plus, Hp2, Hp1. split_and!; [lra|done|lia].
Qed.
End Throughput.

(** *** Recovery *)
Section Recovery.
Implicit Types (b : AdaptiveTokenBucket Q).

Lemma onSuccess_params b : params (onSuccess b) = params b.
Proof. done. Qed.

Lemma iter_onSuccess_params k b : params (Nat.iter k onSuccess b) = params b.
Proof. by induction k. Qed.

Lemma Q_nmin_glb_lt (a b c : Q) : c <= a → c <= b → c <= nmin a b.
Proof. rewrite <-!Q_nle. apply nmin_glb. Qed.

(** After [k] successes the rate has grown by [k] steps or reached the nominal. *)
Lemma iter_onSuccess_rate k b :
  nominalRps (params b) <= rate (Nat.iter k onSuccess b) ∨
  rate b + inject_Z (Z.of_nat k) * aiStepRps (params b) <= rate (Nat.iter k onSuccess b).
Proof.
  induction k as [|k IH].
  - right. change (inject_Z (Z.of_nat 0)) with 0. rewrite Qmult_0_l, Qplus_0_r. apply Qle_refl.
  - rewrite Nat2Z.inj_succ. unfold Z.succ. rewrite inject_Z_plus. change (inject_Z 1) with 1.
    cbn [Nat.iter onSuccess rate nat_rect]. fold (Nat.iter k onSuccess b).
    rewrite iter_onSuccess_params. set (b' := Nat.iter k onSuccess b) in *.
    destruct (rate b' <? nominalRps (params b))%js eqn:Hlt.
    + destruct (nmin_cases (nominalRps (params b)) (rate b' + aiStepRps (params b))%js) as [-> | ->];
        [left; apply Qle_refl|]. apply Q_nlt in Hlt.
      destruct IH as [IH|IH]; [by apply Qlt_not_le in Hlt|]. right. cbn. lra.
    + left. apply Qnot_lt_le. intros Hlt'. apply Q_nlt in Hlt'. congruence.
Qed.
End Recovery.

(** ** Properties *)
#[local] Open Scope Z_scope.

(** The default configuration, as rationals (see [buildConfig]). *)
Definition default_params : TokenBucketParams Q :=
  {| nominalRps := 20%Q; burstFactor := 2%Q; minRateFactor := (1 # 4)%Q; aiStepRps := 1%Q;
     tokenWaitMs := 15000 |}.

Lemma default_params_ok : params_ok default_params.
Proof. split; reflexivity. Qed.

(** Whatever sequence of token requests, throttling responses and successes
    a bucket sees, its refill rate stays between [nominalRps * minRateFactor]
    and [nominalRps], its burst ceiling between the corresponding bounds, and
    its tokens between zero and the ceiling. *)
Theorem bucket_bounds {N} `{!JsNum N, !JsNumOrder N, !JsNumArith N}
    (ops : list bucket_op) (p : TokenBucketParams N) (t0 : Z) :
  params_ok p → bucket_wf (run_ops ops (new_bucket p t0)).2.
Proof. intros Hp. by apply run_ops_wf, new_bucket_wf. Qed.

Lemma bucket_bounds_witness :
  params_ok default_params ∧
  bucket_wf (run_ops [OpThrottled; OpAcquire 40; OpSuccess; OpAcquire 900] (new_bucket default_params 0)).2.
Proof.
  split; [apply default_params_ok|].
  apply (bucket_bounds [OpThrottled; OpAcquire 40; OpSuccess; OpAcquire 900] default_params 0).
  apply default_params_ok.
Defined.

(** C14: the number of tokens a bucket grants over any sequence of calls is at
    most its nominal burst plus the nominal rate times the time that passed. *)
Theorem bucket_throughput (ops : list bucket_op) (p : TokenBucketParams Q) (t0 : Z) :
  params_ok p →
  let '(granted, b) := run_ops ops (new_bucket p t0) in
  (inject_Z granted <= nominalRps p * burstFactor p
    + nominalRps p * (inject_Z (lastRefill b) / 1000 - inject_Z t0 / 1000))%Q.
Proof.
  intros Hp. pose proof (run_ops_potential ops _ (new_bucket_wf p t0 Hp)) as H.
  pose proof (run_ops_wf ops _ (new_bucket_wf p t0 Hp)) as Hwf.
  destruct (run_ops ops (new_bucket p t0)) as [g b]. destruct H as (H&Hparams&_).
  pose proof (proj1 (Q_nle _ _) (wf_tokens_lo b Hwf)) as Ht.
  unfold potential in H. rewrite Hparams in H. cbn in H, Ht. change (inject_Z 0) with 0%Q in Ht. lra.
Qed.

Lemma bucket_throughput_witness :
  params_ok default_params ∧
  let '(granted, b) := run_ops (replicate 50 (OpAcquire 100)) (new_bucket default_params 0) in
  granted = 40 ∧ (inject_Z granted <= 20 * 2 + 20 * (inject_Z (lastRefill b) / 1000 - inject_Z 0 / 1000))%Q.
Proof.
  split; [apply default_params_ok|].
  pose proof (bucket_throughput (replicate 50 (OpAcquire 100)) default_params 0 default_params_ok) as H.
  destruct (run_ops _ _) as [g b] eqn:Hrun. split; [|exact H].
  assert (Hg : (run_ops (replicate 50 (OpAcquire 100)) (new_bucket default_params 0)).1 = 40)
    by (vm_compute; reflexivity).
  by rewrite Hrun in Hg.
Defined.

(** C39: [waitForToken] always ends, whatever time passes between two readings of
    the clock: with [true] after taking a token at a time between its start and
    its end, or with [false] at or after its deadline with less than one token
    in the bucket. *)
Theorem waitForToken_ends {N} `{!JsNum N} (elapsed : nat → nat) (timeoutMs : Z) (rt : runtime)
    (b : AdaptiveTokenBucket N) :
  match waitForToken elapsed timeoutMs rt b with
  | (None, _, _) => False
  | (Some true, rt', b') =>
      ∃ now b0, rt_now rt ≤ now ≤ rt_now rt' ∧ tryAcquire now b0 = (true, b')
  | (Some false, rt', b') =>
      rt_now rt + timeoutMs ≤ rt_now rt' ∧ nle (nof 1) (tokens b') = false
  end.
Proof. exact (waitForToken_post elapsed timeoutMs rt b). Qed.

(** C40: consecutive successes recover a throttled bucket: as soon as [k] steps
    of [aiStepRps] make up the missing rate, [k] successes restore the nominal
    rate exactly. *)
Theorem bucket_recovers (k : nat) (b : AdaptiveTokenBucket Q) :
  bucket_wf b →
  (nominalRps (params b) - rate b <= inject_Z (Z.of_nat k) * aiStepRps (params b))%Q →
  (rate (Nat.iter k onSuccess b) == nominalRps (params b))%Q.
Proof.
  intros Hwf Hk. apply Qle_antisym.
  - apply Q_nle. rewrite <-(iter_onSuccess_params k b). apply wf_rate_hi.
    clear Hk. induction k; [done|]. cbn. by apply onSuccess_wf.
  - destruct (iter_onSuccess_rate k b) as [H|H]; [done|]. lra.
Qed.

Lemma bucket_recovers_witness :
  let b := Nat.iter 2 onThrottled (new_bucket default_params 0) in
  (rate b == 5)%Q ∧ (rate (Nat.iter 15 onSuccess b) == 20)%Q.
Proof.
  split; [reflexivity|].
  apply (bucket_recovers 15 (Nat.iter 2 onThrottled (new_bucket default_params 0))).
  - cbn. do 2 apply onThrottled_wf. apply new_bucket_wf, default_params_ok.
  - vm_compute. discriminate.
Defined.
