(* ===== verification/CircuitBreaker.v ===== *)
(** * Circuit breaker ([src/src/gateway/circuit-breaker.ts])

    The three-state breaker of a gateway: its sliding window of outcomes, the
    gate [allowCall], the feedback [recordOutcome].  The clock it is constructed
    with is the argument [now]; a method that fires a callback returns it. *)

From S2P Require Import Prelude Num.

Inductive CircuitBreakerState := CLOSED | OPEN | HALF_OPEN.

#[export] Instance CircuitBreakerState_eq_dec : EqDecision CircuitBreakerState.
Proof. solve_decision. Defined.

Definition breaker_state_string (s : CircuitBreakerState) : string :=
  match s with CLOSED => "CLOSED" | OPEN => "OPEN" | HALF_OPEN => "HALF_OPEN" end.

Record CircuitBreakerParams (N : Type) := {
  windowMs : Z;
  failureThreshold : N;
  minSamples : Z;
  cooldownMs : Z
}.
Arguments windowMs {N} _.
Arguments failureThreshold {N} _.
Arguments minSamples {N} _.
Arguments cooldownMs {N} _.

Record OutcomeSample := { t : Z; ok : bool }.

Record CircuitBreaker (N : Type) := {
  cb_params : CircuitBreakerParams N;
  cb_state : CircuitBreakerState;
  window : list OutcomeSample;
  openedAt : Z;
  probeInFlight : bool;
  tripCount : Z
}.
Arguments cb_params {N} _.
Arguments cb_state {N} _.
Arguments window {N} _.
Arguments openedAt {N} _.
Arguments probeInFlight {N} _.
Arguments tripCount {N} _.

(** The callbacks [recordOutcome] may fire. *)
Inductive breaker_callback := onOpened | onClosed.

Record CircuitBreakerSnapshot (N : Type) := {
  sn_params : CircuitBreakerParams N;
  sn_state : CircuitBreakerState;
  sn_samples : Z;
  sn_failures : Z;
  sn_failureRate : N;
  sn_openedAt : option Z;
  sn_tripCount : Z
}.
Arguments sn_params {N} _.
Arguments sn_state {N} _.
Arguments sn_samples {N} _.
Arguments sn_failures {N} _.
Arguments sn_failureRate {N} _.
Arguments sn_openedAt {N} _.
Arguments sn_tripCount {N} _.

Section Breaker.
Context {N : Type} `{!JsNum N}.
Implicit Types (b : CircuitBreaker N) (p : CircuitBreakerParams N).

Definition new_breaker p : CircuitBreaker N :=
  {| cb_params := p; cb_state := CLOSED; window := []; openedAt := 0; probeInFlight := false;
     tripCount := 0 |}.

Definition cb_reset b : CircuitBreaker N := new_breaker (cb_params b).

Definition cb_reconfigure b p : CircuitBreaker N := new_breaker p.

#[local] Definition with_probe b (s : CircuitBreakerState) (probe : bool) : CircuitBreaker N :=
  {| cb_params := cb_params b; cb_state := s; window := window b; openedAt := openedAt b;
     probeInFlight := probe; tripCount := tripCount b |}.

(** The answer is the pair [{ allowed, state }]. *)
Definition allowCall (now : Z) b : (bool * CircuitBreakerState) * CircuitBreaker N :=
  match cb_state b with
  | CLOSED => ((true, CLOSED), b)
  | OPEN =>
      if now - openedAt b >=? cooldownMs (cb_params b)
      then ((true, HALF_OPEN), with_probe b HALF_OPEN true)
      else ((false, OPEN), b)
  | HALF_OPEN =>
      if probeInFlight b then ((false, HALF_OPEN), b)
      else ((true, HALF_OPEN), with_probe b HALF_OPEN true)
  end.

(** [while (window.length > 0 && window[0].t < cutoff) window.shift()] *)
Fixpoint drop_before (cutoff : Z) (w : list OutcomeSample) : list OutcomeSample :=
  match w with
  | s :: w' => if t s <? cutoff then drop_before cutoff w' else w
  | [] => []
  end.

Definition prune p (now : Z) (w : list OutcomeSample) : list OutcomeSample :=
  drop_before (now - windowMs p) w.

(** [(samples, failures, failureRate)] *)
Definition windowStats (w : list OutcomeSample) : Z * Z * N :=
  let failures := Z.of_nat (length (filter (λ s, ok s = false) w)) in
  let samples := Z.of_nat (length w) in
  (samples, failures, if samples =? 0 then nof 0 else ndiv (nof failures) (nof samples)).

Definition breached p (w : list OutcomeSample) : bool :=
  let '(samples, _, failureRate) := windowStats w in
  (samples >=? minSamples p) && nle (failureThreshold p) failureRate.

Definition recordOutcome (now : Z) (outcome : bool) b : list breaker_callback * CircuitBreaker N :=
  match cb_state b with
  | HALF_OPEN =>
      if outcome then
        ([onClosed],
         {| cb_params := cb_params b; cb_state := CLOSED; window := []; openedAt := openedAt b;
            probeInFlight := false; tripCount := tripCount b |})
      else
        ([onOpened],
         {| cb_params := cb_params b; cb_state := OPEN; window := window b; openedAt := now;
            probeInFlight := false; tripCount := tripCount b + 1 |})
  | OPEN => ([], b)
  | CLOSED =>
      let w := prune (cb_params b) now (window b ++ [{| t := now; ok := outcome |}]) in
      if breached (cb_params b) w then
        ([onOpened],
         {| cb_params := cb_params b; cb_state := OPEN; window := w; openedAt := now;
            probeInFlight := probeInFlight b; tripCount := tripCount b + 1 |})
      else
        ([],
         {| cb_params := cb_params b; cb_state := CLOSED; window := w; openedAt := openedAt b;
            probeInFlight := probeInFlight b; tripCount := tripCount b |})
  end.

Definition cb_getState (now : Z) b : CircuitBreakerSnapshot N * CircuitBreaker N :=
  let w := prune (cb_params b) now (window b) in
  let '(samples, failures, failureRate) := windowStats w in
  ({| sn_params := cb_params b; sn_state := cb_state b; sn_samples := samples;
      sn_failures := failures; sn_failureRate := failureRate;
      sn_openedAt := if openedAt b =? 0 then None else Some (openedAt b);
      sn_tripCount := tripCount b |},
   {| cb_params := cb_params b; cb_state := cb_state b; window := w; openedAt := openedAt b;
      probeInFlight := probeInFlight b; tripCount := tripCount b |}).
End Breaker.
Arguments breached {N _} _ _ : simpl never.
Arguments windowStats {N _} _ : simpl never.
Arguments prune {N} _ _ _ : simpl never.

(** ** The breaker as a transition system *)
Inductive breaker_op (N : Type) :=
  | OpAllow (now : Z)
  | OpRecord (now : Z) (outcome : bool)
  | OpSnapshot (now : Z)
  | OpReset
  | OpReconfigure (p : CircuitBreakerParams N).
Arguments OpAllow {N} _.
Arguments OpRecord {N} _ _.
Arguments OpSnapshot {N} _.
Arguments OpReset {N}.
Arguments OpReconfigure {N} _.

Section Transitions.
Context {N : Type} `{!JsNum N}.
Implicit Types (b : CircuitBreaker N).

(** One call on the breaker, and whether it admitted a gateway call. *)
Definition breaker_run_op (op : breaker_op N) b : bool * CircuitBreaker N :=
  match op with
  | OpAllow now => let '((allowed, _), b') := allowCall now b in (allowed, b')
  | OpRecord now outcome => (false, (recordOutcome now outcome b).2)
  | OpSnapshot now => (false, (cb_getState now b).2)
  | OpReset => (false, cb_reset b)
  | OpReconfigure p => (false, cb_reconfigure b p)
  end.

Inductive breaker_reachable (p : CircuitBreakerParams N) : CircuitBreaker N → Prop :=
  | reach_new : breaker_reachable p (new_breaker p)
  | reach_step b op : breaker_reachable p b → breaker_reachable p (breaker_run_op op b).2.

(** What a caller and the registry see of a method: the answer of [allowCall],
    the callbacks [recordOutcome] fires, the counts of [getState]. *)
Inductive breaker_answer :=
  | Answered (allowed : bool) (s : CircuitBreakerState)
  | Fired (callbacks : list breaker_callback)
  | Reported (s : CircuitBreakerState) (samples failures trips : Z)
  | Done.

Definition breaker_answer_of (op : breaker_op N) b : breaker_answer :=
  match op with
  | OpAllow now => let '(allowed, s) := (allowCall now b).1 in Answered allowed s
  | OpRecord now outcome => Fired (recordOutcome now outcome b).1
  | OpSnapshot now =>
      let sn := (cb_getState now b).1 in
      Reported (sn_state sn) (sn_samples sn) (sn_failures sn) (sn_tripCount sn)
  | OpReset | OpReconfigure _ => Done
  end.

(** The breaker after a sequence of calls, and their answers. *)
Fixpoint breaker_run (ops : list (breaker_op N)) b : list breaker_answer * CircuitBreaker N :=
  match ops with
  | [] => ([], b)
  | op :: ops =>
      let '(answers, b') := breaker_run ops (breaker_run_op op b).2 in
      (breaker_answer_of op b :: answers, b')
  end.

(** The calls are made at times [now] that do not decrease, from [c] on. *)
Fixpoint clock_from (c : Z) (ops : list (breaker_op N)) : Prop :=
  match ops with
  | [] => True
  | (OpAllow now | OpRecord now _ | OpSnapshot now) :: ops => c ≤ now ∧ clock_from now ops
  | (OpReset | OpReconfigure _) :: ops => clock_from c ops
  end.

(** *** Specification: the documented three-state machine

    The machine remembers every outcome sampled since the breaker was last
    closed or reset, in [sp_history]: it has no window to prune.  Whether an
    outcome trips it is [should_trip]: among the outcomes of the last [windowMs]
    milliseconds there are [minSamples], and the failed share of them reaches
    [failureThreshold].  In [SProbing] one probe is outstanding. *)
Inductive spec_phase := SClosed | SOpen (since : Z) | SProbing.

Record spec_state := Spec {
  sp_params : CircuitBreakerParams N;
  sp_phase : spec_phase;
  sp_history : list OutcomeSample;
  sp_trips : Z
}.

Definition phase_state (ph : spec_phase) : CircuitBreakerState :=
  match ph with SClosed => CLOSED | SOpen _ => OPEN | SProbing => HALF_OPEN end.

Definition spec_new (p : CircuitBreakerParams N) : spec_state := Spec p SClosed [] 0.

(** The outcomes of the last [windowMs] milliseconds, and how many failed. *)
Definition recent (p : CircuitBreakerParams N) (now : Z) (h : list OutcomeSample) :=
  filter (λ s, now - windowMs p ≤ t s) h.

Definition failed_outcomes (h : list OutcomeSample) : Z := Z.of_nat (length (filter (λ s, ok s = false) h)).

Definition should_trip (p : CircuitBreakerParams N) (now : Z) (h : list OutcomeSample) : Prop :=
  let n := Z.of_nat (length (recent p now h)) in
  minSamples p ≤ n ∧
  nle (failureThreshold p) (if decide (n = 0) then nof 0 else ndiv (nof (failed_outcomes (recent p now h))) (nof n)) = true.

Inductive spec_step : spec_state → breaker_op N → breaker_answer → spec_state → Prop :=
  | sp_closed_allow p h n now :
      spec_step (Spec p SClosed h n) (OpAllow now) (Answered true CLOSED) (Spec p SClosed h n)
  | sp_open_refuse p h n now since : now - since < cooldownMs p →
      spec_step (Spec p (SOpen since) h n) (OpAllow now) (Answered false OPEN) (Spec p (SOpen since) h n)
  | sp_open_probe p h n now since : cooldownMs p ≤ now - since →
      spec_step (Spec p (SOpen since) h n) (OpAllow now) (Answered true HALF_OPEN) (Spec p SProbing h n)
  | sp_probing_refuse p h n now :
      spec_step (Spec p SProbing h n) (OpAllow now) (Answered false HALF_OPEN) (Spec p SProbing h n)
  | sp_closed_sample p h n now ok : let h' := h ++ [{| t := now; ok := ok |}] in
      ¬ should_trip p now h' →
      spec_step (Spec p SClosed h n) (OpRecord now ok) (Fired []) (Spec p SClosed h' n)
  | sp_closed_trip p h n now ok : let h' := h ++ [{| t := now; ok := ok |}] in
      should_trip p now h' →
      spec_step (Spec p SClosed h n) (OpRecord now ok) (Fired [onOpened]) (Spec p (SOpen now) h' (n + 1))
  | sp_open_ignore p h n now ok since :
      spec_step (Spec p (SOpen since) h n) (OpRecord now ok) (Fired []) (Spec p (SOpen since) h n)
  | sp_probe_ok p h n now :
      spec_step (Spec p SProbing h n) (OpRecord now true) (Fired [onClosed]) (Spec p SClosed [] n)
  | sp_probe_fail p h n now :
      spec_step (Spec p SProbing h n) (OpRecord now false) (Fired [onOpened]) (Spec p (SOpen now) h (n + 1))
  | sp_snapshot p ph h n now :
      spec_step (Spec p ph h n) (OpSnapshot now)
        (Reported (phase_state ph) (Z.of_nat (length (recent p now h))) (failed_outcomes (recent p now h)) n)
        (Spec p ph h n)
  | sp_reset s : spec_step s OpReset Done (spec_new (sp_params s))
  | sp_reconfigure s p : spec_step s (OpReconfigure p) Done (spec_new p).

Inductive spec_run : spec_state → list (breaker_op N) → list breaker_answer → spec_state → Prop :=
  | sr_nil s : spec_run s [] [] s
  | sr_cons s op a s' ops answers s'' :
      spec_step s op a s' → spec_run s' ops answers s'' → spec_run s (op :: ops) (a :: answers) s''.

(** The breaker shows the state the machine is in. *)
Definition shows (s : spec_state) b : Prop :=
  cb_params b = sp_params s ∧ tripCount b = sp_trips s ∧
  match sp_phase s with
  | SClosed => cb_state b = CLOSED ∧ probeInFlight b = false
  | SOpen since => cb_state b = OPEN ∧ openedAt b = since ∧ probeInFlight b = false
  | SProbing => cb_state b = HALF_OPEN ∧ probeInFlight b = true
  end.

(** A probe is outstanding exactly in [HALF_OPEN]. *)
Definition breaker_wf b : Prop :=
  probeInFlight b = match cb_state b with HALF_OPEN => true | _ => false end ∧ 0 ≤ tripCount b.
End Transitions.

Section Facts.
Context {N : Type} `{!JsNum N}.
Implicit Types (b : CircuitBreaker N) (p : CircuitBreakerParams N).

Lemma breaker_run_op_wf op b : breaker_wf b → breaker_wf (breaker_run_op op b).2.
Proof.
  destruct b as [p s w o pr tc]. intros [Hp Ht]. cbn in Hp, Ht.
  destruct op as [now|now outcome|now| |p']; cbn; [| | |by split..].
  - unfold allowCall, with_probe; cbn. destruct s; cbn in *; subst; cbn;
      [|destruct (now - o >=? cooldownMs p)|]; by split.
  - unfold recordOutcome; cbn. destruct s; cbn in *; subst; [destruct (breached _ _)| |destruct outcome];
      split; cbn; done || lia.
  - done.
Qed.

Lemma reachable_wf p b : breaker_reachable p b → breaker_wf b.
Proof. induction 1; [by split|by apply breaker_run_op_wf]. Qed.

(** *** The window *)

(** Samples in the order in which they were taken. *)
Definition ordered (w : list OutcomeSample) : Prop :=
  ∀ i j x y, (i < j)%nat → w !! i = Some x → w !! j = Some y → t x ≤ t y.

Lemma ordered_nil : ordered [].
Proof. intros i j x y _ Hx. by rewrite lookup_nil in Hx. Qed.

Lemma ordered_tail s w : ordered (s :: w) → ordered w.
Proof. intros H i j x y Hij Hi Hj. apply (H (S i) (S j)); done || lia. Qed.

Lemma ordered_head s w x : ordered (s :: w) → x ∈ w → t s ≤ t x.
Proof.
  intros H [i Hi]%list_elem_of_lookup. apply (H 0%nat (S i)); done || lia.
Qed.

(** Dropping expired samples from the front removes exactly the expired ones. *)
Lemma drop_before_filter cutoff w : ordered w →
  drop_before cutoff w = filter (λ s, cutoff ≤ t s) w.
Proof.
  induction w as [|s w IH]; intros Hw; [done|]. cbn [drop_before].
  destruct (Z.ltb_spec (t s) cutoff).
  - rewrite filter_cons_False by lia. by eapply IH, ordered_tail.
  - rewrite filter_cons_True by lia. f_equal. symmetry. apply filter_all_id.
    intros x Hx. pose proof (ordered_head s w x Hw Hx). lia.
Qed.

Lemma ordered_snoc w s : ordered w → (∀ x, x ∈ w → t x ≤ t s) → ordered (w ++ [s]).
Proof.
  intros Hw Hs i j x y Hij Hi Hj.
  apply lookup_app_Some in Hj as [Hj|[Hlen Hj]].
  - rewrite lookup_app_l in Hi by (apply lookup_lt_Some in Hj; lia). by apply (Hw i j).
  - apply list_lookup_singleton_Some in Hj as [Hj <-].
    rewrite lookup_app_l in Hi by lia. apply Hs. by eapply list_elem_of_lookup_2.
Qed.

Lemma drop_before_suffix cutoff w : drop_before cutoff w `suffix_of` w.
Proof.
  induction w as [|s w IH]; [done|]. cbn. case_match; [|done]. by apply suffix_cons_r.
Qed.

Lemma ordered_suffix w w' : w' `suffix_of` w → ordered w → ordered w'.
Proof.
  intros [k ->]. induction k as [|s k IH]; [done|]. cbn. intros H%ordered_tail. auto.
Qed.

(** The samples of a breaker are ordered and none is younger than [now]. *)
Definition window_ok (now : Z) b : Prop := ordered (window b) ∧ ∀ x, x ∈ window b → t x ≤ now.

Lemma record_window_ok now outcome b :
  window_ok now b → window_ok now (recordOutcome now outcome b).2.
Proof.
  intros [Ho Hle]. unfold recordOutcome.
  assert (Hpush : window_ok now {| cb_params := cb_params b; cb_state := cb_state b;
    window := prune (cb_params b) now (window b ++ [{| t := now; ok := outcome |}]);
    openedAt := openedAt b; probeInFlight := probeInFlight b; tripCount := tripCount b |}).
  { split; cbn.
    - eapply ordered_suffix; [apply drop_before_suffix|]. by apply ordered_snoc.
    - intros x Hx. eapply elem_of_suffix in Hx; [|apply drop_before_suffix].
      apply elem_of_app in Hx as [Hx|Hx%list_elem_of_singleton]; [by apply Hle|]. by rewrite Hx. }
  destruct (cb_state b); [by case_match|done|].
  case_match; [split; [exact ordered_nil|by intros x Hx%elem_of_nil]|done].
Qed.

(** *** The simulation

    At time [c] the window of the breaker holds the samples of the history from
    some cutoff on that has already expired. *)
Record simulates (c : Z) (s : spec_state) b : Prop := {
  sim_shows : shows s b;
  sim_ordered : ordered (sp_history s);
  sim_past : ∀ x, x ∈ sp_history s → t x ≤ c;
  sim_window : ∃ k, k ≤ c - windowMs (sp_params s) ∧ window b = filter (λ x, k ≤ t x) (sp_history s)
}.

Lemma simulates_new c p : simulates c (spec_new p) (new_breaker p).
Proof.
  split; [done|exact ordered_nil|by intros x Hx%elem_of_nil|].
  by exists (c - windowMs p).
Qed.

Lemma filter_later (k k' : Z) (h : list OutcomeSample) : k ≤ k' →
  filter (λ s, k' ≤ t s) (filter (λ s, k ≤ t s) h) = filter (λ s, k' ≤ t s) h.
Proof.
  intros Hk. rewrite list_filter_filter. apply list_filter_iff. intros x. lia.
Qed.

Lemma ordered_filter k h : ordered h → ordered (filter (λ s, k ≤ t s) h).
Proof. intros Ho. rewrite <-drop_before_filter by done. eapply ordered_suffix; [apply drop_before_suffix|done]. Qed.

(** Pruning the window leaves the recent part of the history. *)
Lemma prune_recent p (now k : Z) (h : list OutcomeSample) : ordered h → k ≤ now - windowMs p →
  prune p now (filter (λ s, k ≤ t s) h) = recent p now h.
Proof.
  intros Ho Hk. unfold prune, recent.
  rewrite drop_before_filter by (by apply ordered_filter). by apply filter_later.
Qed.

Lemma prune_snoc p (now k : Z) (h : list OutcomeSample) x : ordered h → (∀ y, y ∈ h → t y ≤ t x) →
  t x = now → k ≤ now - windowMs p →
  prune p now (filter (λ s, k ≤ t s) h ++ [x]) = recent p now (h ++ [x]).
Proof.
  intros Ho Hle Hx Hk. unfold prune, recent.
  rewrite drop_before_filter, !filter_app by
    (apply ordered_snoc; [by apply ordered_filter|intros y [_ Hy]%list_elem_of_filter; by apply Hle]).
  by rewrite filter_later.
Qed.

Lemma breached_should_trip p now h : breached p (recent p now h) = true ↔ should_trip p now h.
Proof.
  unfold breached, windowStats, should_trip. fold (failed_outcomes (recent p now h)).
  rewrite andb_true_iff, Z.geb_le. case_decide as Hn.
  - by rewrite (proj2 (Z.eqb_eq _ _) Hn).
  - by rewrite (proj2 (Z.eqb_neq _ _) Hn).
Qed.

Definition op_time (c : Z) (op : breaker_op N) : Z :=
  match op with OpAllow now | OpRecord now _ | OpSnapshot now => now | OpReset | OpReconfigure _ => c end.

Lemma simulates_later c c' s b : c ≤ c' → simulates c s b → simulates c' s b.
Proof.
  intros Hc [Hs Ho Hp (k&Hk&Hw)]. split; [done..| |].
  - intros x Hx. specialize (Hp x Hx). lia.
  - exists k. split; [lia|done].
Qed.

Lemma simulates_allow c s b : simulates c s b →
  ∃ s', spec_step s (OpAllow c) (breaker_answer_of (OpAllow c) b) s' ∧
    simulates c s' (breaker_run_op (OpAllow c) b).2.
Proof.
  destruct s as [p ph h n], b as [p' st w o pr tc]. intros [Hs Ho Hp Hw].
  unfold shows in Hs. cbn in *. destruct Hs as (->&->&Hph). unfold allowCall, with_probe. cbn.
  destruct ph as [|since|]; [destruct Hph as [-> ->]|destruct Hph as (->&->&->)|destruct Hph as [-> ->]]; cbn.
  - eexists. split; [constructor|done].
  - destruct (c - since >=? cooldownMs p) eqn:Hc; cbn; eexists; (split; [constructor; lia|by split]).
  - eexists. split; [constructor|done].
Qed.

Lemma simulates_record c ok s b : simulates c s b →
  ∃ s', spec_step s (OpRecord c ok) (breaker_answer_of (OpRecord c ok) b) s' ∧
    simulates c s' (breaker_run_op (OpRecord c ok) b).2.
Proof.
  destruct s as [p ph h n], b as [p' st w o pr tc]. intros [Hs Ho Hp (k&Hk&Hw)].
  unfold shows in Hs. cbn in *. destruct Hs as (->&->&Hph). subst w. unfold recordOutcome. cbn.
  destruct ph as [|since|]; [destruct Hph as [-> ->]|destruct Hph as (->&->&->)|destruct Hph as [-> ->]]; cbn.
  - rewrite prune_snoc by done. set (h' := h ++ _).
    assert (Ho' : ordered h') by (by apply ordered_snoc).
    assert (Hp' : ∀ x, x ∈ h' → t x ≤ c).
    { intros x [Hx|Hx%list_elem_of_singleton]%elem_of_app; [by apply Hp|by rewrite Hx]. }
    assert (Hw' : ∃ k', k' ≤ c - windowMs p ∧ recent p c h' = filter (λ x, k' ≤ t x) h')
      by (by exists (c - windowMs p)).
    destruct (breached p (recent p c h')) eqn:Hb; cbn.
    + eexists. split; [apply sp_closed_trip, breached_should_trip, Hb|by split].
    + eexists. split; [apply sp_closed_sample; intros Hf; apply breached_should_trip in Hf; fold h' in Hf; by rewrite Hf in Hb|by split].
  - eexists. split; [constructor|]. split; [done..|by exists k].
  - destruct ok; cbn; eexists; (split; [constructor|]).
    + split; [done|exact ordered_nil|by intros x Hx%elem_of_nil|by exists (c - windowMs p)].
    + split; [done..|by exists k].
Qed.

Lemma simulates_step c s b op : simulates c s b → c ≤ op_time c op →
  ∃ s', spec_step s op (breaker_answer_of op b) s' ∧ simulates (op_time c op) s' (breaker_run_op op b).2.
Proof.
  intros Hsim Hc. pose proof (simulates_later _ _ _ _ Hc Hsim) as Hs.
  destruct op as [now|now ok|now| |p]; cbn [op_time] in *.
  - by apply simulates_allow.
  - by apply simulates_record.
  - destruct s as [p ph h n], b as [p' st w o pr tc]. destruct Hs as [Hs Ho Hp (k&Hk&Hw)].
    unfold shows in Hs. cbn in Hs, Ho, Hp, Hk, Hw. destruct Hs as (->&->&Hph). subst w.
    exists (Spec p ph h n). unfold breaker_answer_of, breaker_run_op, cb_getState, windowStats.
    cbn [cb_params window]. rewrite prune_recent by done. split.
    + assert (st = phase_state ph) as -> by (by destruct ph, Hph). constructor.
    + split; [done..|]. by exists (now - windowMs p).
  - eexists. split; [constructor|]. destruct Hs as [(<-&_) _ _ _]. apply simulates_new.
  - eexists. split; [constructor|]. apply simulates_new.
Qed.

Lemma simulates_run ops : ∀ c s b, simulates c s b → clock_from c ops →
  ∃ s', spec_run s ops (breaker_run ops b).1 s' ∧ shows s' (breaker_run ops b).2.
Proof.
  induction ops as [|op ops IH]; intros c s b Hsim Hc; cbn [breaker_run].
  { exists s. split; [constructor|apply Hsim]. }
  assert (c ≤ op_time c op ∧ clock_from (op_time c op) ops) as [Hle Hc'] by (by destruct op).
  destruct (simulates_step c s b op Hsim Hle) as (s1&Hstep&Hsim1).
  destruct (IH _ _ _ Hsim1 Hc') as (s2&Hrun&Hshow).
  destruct (breaker_run ops _) as [answers b']. exists s2. split; [by econstructor|done].
Qed.

(** The machine is deterministic. *)
Lemma spec_step_det s op a a' s1 s2 : spec_step s op a s1 → spec_step s op a' s2 → a = a' ∧ s1 = s2.
Proof. intros H1 H2. destruct H1; inversion H2; subst; done || lia. Qed.

Lemma spec_run_det s ops answers answers' s1 s2 :
  spec_run s ops answers s1 → spec_run s ops answers' s2 → answers = answers' ∧ s1 = s2.
Proof.
  intros H1. revert answers' s2. induction H1 as [|s op a s' ops answers s'' Hs Hr IH]; intros answers' s2 H2;
    inversion H2 as [|? ? ? ? ? ? ? Hs' Hr']; subst; [done|].
  destruct (spec_step_det _ _ _ _ _ _ Hs Hs') as [-> ->]. by destruct (IH _ _ Hr') as [-> ->].
Qed.

(** *** Half-open: one probe, and no way out without its outcome *)
Lemma half_open_refuses now b : breaker_wf b → cb_state b = HALF_OPEN →
  allowCall now b = ((false, HALF_OPEN), b).
Proof. intros [Hp _] Hs. unfold allowCall. rewrite Hs in *. by rewrite Hp. Qed.

(** How many calls a sequence of calls on the breaker admits. *)
Fixpoint admissions (ops : list (breaker_op N)) b : nat :=
  match ops with
  | [] => 0
  | op :: ops => let '(a, b') := breaker_run_op op b in (Nat.b2n a + admissions ops b')%nat
  end.

(** Calls that report no outcome and change no configuration. *)
Definition passive (op : breaker_op N) : Prop :=
  match op with OpAllow _ | OpSnapshot _ => True | _ => False end.

Lemma half_open_passive ops b : breaker_wf b → cb_state b = HALF_OPEN →
  Forall passive ops → admissions ops b = 0%nat.
Proof.
  intros Hwf Hs Hops. revert b Hwf Hs. induction Hops as [|op ops Hop Hops IH]; intros b Hwf Hs; [done|].
  destruct op as [now|now o|now| |p']; cbn in Hop; try done; cbn [admissions breaker_run_op].
  - rewrite half_open_refuses by done. by apply IH.
  - apply IH; [by apply (breaker_run_op_wf (OpSnapshot now))|]. done.
Qed.

(** While a breaker is open at most one call is admitted until an outcome is
    reported. *)
Lemma open_passive ops b : breaker_wf b → cb_state b = OPEN → Forall passive ops →
  (admissions ops b ≤ 1)%nat.
Proof.
  intros Hwf Hs Hops. revert b Hwf Hs. induction Hops as [|op ops Hop Hops IH]; intros b Hwf Hs; [cbn; lia|].
  destruct op as [now|now o|now| |p']; cbn in Hop; try done; cbn [admissions].
  - pose proof (breaker_run_op_wf (OpAllow now) b Hwf) as Hwf'. cbn in Hwf' |- *. unfold allowCall in *.
    rewrite Hs in *. destruct (_ >=? _); cbn in *.
    + by rewrite half_open_passive.
    + by apply IH.
  - apply IH; [by apply (breaker_run_op_wf (OpSnapshot now))|]. done.
Qed.

(** What a sample does to a closed breaker. *)
Lemma record_closed now outcome b : cb_state b = CLOSED → window_ok now b →
  let w := filter (λ s, now - windowMs (cb_params b) ≤ t s)
             (window b ++ [{| t := now; ok := outcome |}]) in
  let '(fired, b') := recordOutcome now outcome b in
  window b' = w ∧ cb_params b' = cb_params b ∧
  if breached (cb_params b) w
  then cb_state b' = OPEN ∧ openedAt b' = now ∧ tripCount b' = tripCount b + 1 ∧ fired = [onOpened]
  else cb_state b' = CLOSED ∧ tripCount b' = tripCount b ∧ fired = [].
Proof.
  intros Hs [Ho Hle]. cbv zeta. unfold recordOutcome, prune. rewrite Hs.
  rewrite drop_before_filter by (by apply ordered_snoc). by destruct (breached _ _).
Qed.
End Facts.

(** ** Properties *)
Section Properties.
Context {N : Type} `{!JsNum N}.


(** From the moment a breaker opens until an outcome is reported or an
    operator resets it, however many callers ask and whenever they ask, at
    most one of them is admitted. *)
Theorem breaker_single_probe (p : CircuitBreakerParams N) (b : CircuitBreaker N)
    (ops : list (breaker_op N)) :
  breaker_reachable p b → cb_state b = OPEN → Forall passive ops →
  (admissions ops b ≤ 1)%nat.
Proof. intros H Hs Hops. eapply open_passive; [by eapply reachable_wf|done..]. Qed.

(** An open breaker refuses every call until its cooldown has elapsed, and
    refusing leaves it unchanged; once the cooldown has elapsed it admits the
    call and becomes HALF_OPEN. *)
Theorem breaker_open_gate (b : CircuitBreaker N) (now : Z) :
  cb_state b = OPEN →
  (now - openedAt b < cooldownMs (cb_params b) → allowCall now b = ((false, OPEN), b)) ∧
  (cooldownMs (cb_params b) ≤ now - openedAt b →
    (allowCall now b).1 = (true, HALF_OPEN) ∧ cb_state (allowCall now b).2 = HALF_OPEN ∧
    probeInFlight (allowCall now b).2 = true).
Proof.
  intros Hs. unfold allowCall. rewrite Hs. split; intros H.
  - destruct (now - openedAt b >=? cooldownMs (cb_params b)) eqn:Hc; [lia|done].
  - destruct (now - openedAt b >=? cooldownMs (cb_params b)) eqn:Hc; [done|lia].
Qed.

(** An outcome reported to a closed breaker leaves in its window exactly
    the samples of the last [windowMs] milliseconds, and trips the breaker if
    and only if there are at least [minSamples] of them and the failed share
    reaches [failureThreshold]; tripping records the time, counts the trip and
    fires [onOpened]. *)
Theorem breaker_trips_exactly (b : CircuitBreaker N) (now : Z) (outcome : bool) :
  cb_state b = CLOSED → window_ok now b → 0 ≤ windowMs (cb_params b) →
  let w := filter (λ s, now - windowMs (cb_params b) ≤ t s)
             (window b ++ [{| t := now; ok := outcome |}]) in
  let samples := Z.of_nat (length w) in
  let failures := Z.of_nat (length (filter (λ s, ok s = false) w)) in
  let trips := minSamples (cb_params b) ≤ samples ∧
               nle (failureThreshold (cb_params b)) (ndiv (nof failures) (nof samples)) = true in
  let '(fired, b') := recordOutcome now outcome b in
  window b' = w ∧
  (trips → cb_state b' = OPEN ∧ openedAt b' = now ∧
     tripCount b' = tripCount b + 1 ∧ fired = [onOpened]) ∧
  (¬ trips → cb_state b' = CLOSED ∧ tripCount b' = tripCount b ∧ fired = []).
Proof.
  intros Hs Hw Hms. cbv zeta. pose proof (record_closed now outcome b Hs Hw) as H. cbv zeta in H.
  assert (Hne : Z.of_nat (length (filter (λ s, now - windowMs (cb_params b) ≤ t s)
    (window b ++ [{| t := now; ok := outcome |}]))) ≠ 0)
    by (rewrite filter_app, filter_cons_True, length_app by (cbn; lia); cbn; lia).
  set (w := filter _ (window b ++ _)) in *. destruct (recordOutcome now outcome b) as [fired b'].
  destruct H as (Hwin&Hp&H). split; [done|]. unfold breached, windowStats in H.
  rewrite (proj2 (Z.eqb_neq _ _) Hne) in H. split; intros Htrip.
  - destruct Htrip as [Hmin Hrate]. rewrite Hrate, andb_true_r in H.
    by rewrite Z.geb_leb, (proj2 (Z.leb_le _ _) Hmin) in H.
  - destruct (_ && _) eqn:Hb; [|done]. destruct Htrip.
    apply andb_true_iff in Hb as [Hmin%Z.geb_le Hrate]. done.
Qed.
End Properties.

(** ** The properties at the default configuration *)
Definition default_breaker_params : CircuitBreakerParams binary64 :=
  {| windowMs := 30000; failureThreshold := nlit 5 10; minSamples := 10; cooldownMs := 30000 |}.

(** A breaker after [n] failures, reported one second apart. *)
Fixpoint after_failures (n : nat) : CircuitBreaker binary64 :=
  match n with
  | O => new_breaker default_breaker_params
  | S n => (breaker_run_op (OpRecord (1000 * Z.of_nat (S n)) false) (after_failures n)).2
  end.

Lemma after_failures_reachable n : breaker_reachable default_breaker_params (after_failures n).
Proof. induction n; [constructor|]. by constructor. Qed.

Lemma window_ok_later {N} (now now' : Z) (b : CircuitBreaker N) :
  now ≤ now' → window_ok now b → window_ok now' b.
Proof. intros Hle [Ho Hw]. split; [done|]. intros x Hx. specialize (Hw x Hx). lia. Qed.

Lemma after_failures_window n : window_ok (1000 * Z.of_nat n) (after_failures n).
Proof.
  induction n as [|n IH].
  - split; [exact ordered_nil|by intros x Hx%elem_of_nil].
  - cbn [after_failures breaker_run_op snd]. apply record_window_ok.
    eapply window_ok_later; [|done]. lia.
Qed.

Example nine_failures_closed : cb_state (after_failures 9) = CLOSED.
Proof. vm_compute. reflexivity. Qed.
Example ten_failures_open : cb_state (after_failures 10) = OPEN ∧ openedAt (after_failures 10) = 10000.
Proof. vm_compute. done. Qed.

(** Ten outcomes, the fifth of them a success: the tenth trips the breaker,
    which refuses, admits its one probe and closes on the probe's success. *)
Definition demo_breaker_ops : list (breaker_op binary64) :=
  map (λ n, OpRecord (1000 * Z.of_nat n) (bool_decide (n = 5%nat))) (seq 1 10) ++
  [OpAllow 20000; OpAllow 40000; OpAllow 40001; OpSnapshot 40002; OpRecord 41000 true; OpAllow 41001].


Lemma breaker_single_probe_witness :
  cb_state (after_failures 10) = OPEN ∧
  (admissions [OpAllow 20000; OpAllow 40000; OpSnapshot 40001; OpAllow 40001; OpAllow 90000]
    (after_failures 10) ≤ 1)%nat.
Proof.
  split; [vm_compute; reflexivity|].
  apply (breaker_single_probe default_breaker_params); [apply after_failures_reachable|vm_compute; reflexivity|].
  repeat constructor.
Defined.

Lemma breaker_open_gate_witness :
  allowCall 39999 (after_failures 10) = ((false, OPEN), after_failures 10).
Proof.
  apply (proj1 (breaker_open_gate (after_failures 10) 39999 ltac:(vm_compute; reflexivity))).
  vm_compute. reflexivity.
Defined.

Lemma breaker_trips_exactly_witness :
  let '(fired, b) := recordOutcome 10000 false (after_failures 9) in
  cb_state b = OPEN ∧ openedAt b = 10000 ∧ tripCount b = tripCount (after_failures 9) + 1 ∧
  fired = [onOpened].
Proof.
  assert (Hw : window_ok 10000 (after_failures 9)).
  { apply (window_ok_later 9000); [lia|]. apply (after_failures_window 9). }
  pose proof (breaker_trips_exactly (after_failures 9) 10000 false ltac:(vm_compute; reflexivity) Hw
    ltac:(vm_compute; discriminate)) as H.
  cbv zeta in H. destruct (recordOutcome 10000 false (after_failures 9)) as [fired b].
  destruct H as (_&H&_). apply H. vm_compute. split; [discriminate|reflexivity].
Defined.
