(* ===== verification/EventBus.v ===== *)
(** * Event bus ([src/src/common/event-bus.ts])

    The domain events and the in-process bus that delivers them.  A listener is
    known by a number (its identity as a function object); what it does when it
    is called, including subscribing, unsubscribing and throwing, is a
    parameter. *)

From S2P Require Import Prelude Num Errors JsValue Payment.

Inductive AlertSeverity := Critical | Warning_.

#[export] Instance AlertSeverity_eq_dec : EqDecision AlertSeverity.
Proof. solve_decision. Defined.

Record MetricsAlertPayload (N : Type) := {
  al_id : string;
  al_severity : AlertSeverity;
  al_message : string;
  al_value : option N;
  al_threshold : option N;
  al_raisedAt : Z
}.
Arguments al_id {N} _.
Arguments al_severity {N} _.
Arguments al_message {N} _.
Arguments al_value {N} _.
Arguments al_threshold {N} _.
Arguments al_raisedAt {N} _.

(** The five lifecycle events share one shape. *)
Inductive PaymentEventType := Ev_queued | Ev_processing | Ev_completed | Ev_failed | Ev_dead_lettered.

#[export] Instance PaymentEventType_eq_dec : EqDecision PaymentEventType.
Proof. solve_decision. Defined.

Inductive AppEvent (N : Type) :=
  | EvPayment (type : PaymentEventType) (paymentId : string) (gatewayId correlationId : option string)
      (status : option PaymentStatus) (at' : Z) (detail : option (list (string * jsval)))
  | EvJobCompleted (paymentId gatewayId : string) (ok : bool) (durationMs : Z) (at' : Z)
  | EvJobFailed (paymentId gatewayId reason : string) (at' : Z)
  | EvCircuit (opened : bool) (gatewayId : string) (at' : Z)
  | EvThrottled (gatewayId : string) (at' : Z)
  | EvSagaPhase (paymentId gatewayId : string) (phase : SagaPhase) (ok : bool) (at' : Z)
  | EvAlert (alert : MetricsAlertPayload N) (at' : Z).
Arguments EvPayment {N} _ _ _ _ _ _ _.
Arguments EvJobCompleted {N} _ _ _ _ _.
Arguments EvJobFailed {N} _ _ _ _.
Arguments EvCircuit {N} _ _ _.
Arguments EvThrottled {N} _ _.
Arguments EvSagaPhase {N} _ _ _ _ _.
Arguments EvAlert {N} _ _.

(** [event.type] *)
Definition event_type {N} (e : AppEvent N) : string :=
  match e with
  | EvPayment Ev_queued _ _ _ _ _ _ => "payment.queued"
  | EvPayment Ev_processing _ _ _ _ _ _ => "payment.processing"
  | EvPayment Ev_completed _ _ _ _ _ _ => "payment.completed"
  | EvPayment Ev_failed _ _ _ _ _ _ => "payment.failed"
  | EvPayment Ev_dead_lettered _ _ _ _ _ _ => "payment.dead_lettered"
  | EvJobCompleted _ _ _ _ _ => "job.completed"
  | EvJobFailed _ _ _ _ => "job.failed"
  | EvCircuit true _ _ => "circuit.opened"
  | EvCircuit false _ _ => "circuit.closed"
  | EvThrottled _ _ => "rate_limit.throttled"
  | EvSagaPhase _ _ _ _ _ => "saga.phase"
  | EvAlert _ _ => "metrics.alert"
  end.

(** [Map<type, Set<listener>>]: a JavaScript set keeps insertion order. *)
Definition bus : Type := gmap string (list nat).

(** [set.add(listener)] *)
Definition set_add (l : nat) (s : list nat) : list nat :=
  if bool_decide (l ∈ s) then s else s ++ [l].

(** [set.delete(listener)] *)
Definition set_delete (l : nat) (s : list nat) : list nat := filter (λ x, x ≠ l) s.

Definition on (type : string) (l : nat) (b : bus) : bus :=
  <[type := set_add l (default [] ((b : gmap string (list nat)) !! type))]> (b : gmap string (list nat)).

(** The function [on] returns; it is only called after [on] created the set. *)
Definition unsubscribe (type : string) (l : nat) (b : bus) : bus :=
  alter (set_delete l) type (b : gmap string (list nat)).

Section Emit.
Context {N : Type}.

(** Calling listener [l]: the bus it leaves, and what it throws if it throws. *)
Variable invoke : nat → AppEvent N → bus → option exn * bus.

(** The state of a dispatch: the bus and the calls made so far. *)
#[local] Notation dispatch_state := (bus * list (nat * AppEvent N))%type.

Definition call_listener (l : nat) (e : AppEvent N) : M exn dispatch_state unit := λ '(b, log),
  match invoke l e b with
  | (None, b') => (Ok tt, (b', log ++ [(l, e)]))
  | (Some err, b') => (Throw err, (b', log ++ [(l, e)]))
  end.

(** [for (const listener of Array.from(set))], each call inside [try/catch]. *)
Fixpoint dispatch (ls : list nat) (e : AppEvent N) : M exn dispatch_state unit :=
  match ls with
  | [] => mret tt
  | l :: ls => catch (call_listener l e) (λ _, mret tt);; dispatch ls e
  end.

Definition emit (e : AppEvent N) : M exn dispatch_state unit :=
  set ← gets (λ s : dispatch_state, (s.1 : gmap string (list nat)) !! event_type e);
  match set with
  | None | Some [] => mret tt
  | Some ls => dispatch ls e
  end.

Lemma dispatch_spec ls e b log :
  (dispatch ls e (b, log)).1 = Ok tt ∧
  (dispatch ls e (b, log)).2.2 = log ++ map (λ l, (l, e)) ls.
Proof.
  revert b log. induction ls as [|l ls IH]; intros b log; [cbn; by rewrite app_nil_r|].
  cbn [dispatch]. unfold mbind, M_bind, catch, call_listener.
  destruct (invoke l e b) as [[err|] b']; cbn; destruct (IH b' (log ++ [(l, e)])) as [-> ->];
    by rewrite <-app_assoc.
Qed.

(** Emitting an event never throws, whatever the listeners do, and calls
    exactly the listeners that were subscribed to its type when it was emitted,
    once each and in subscription order, even if some of them throw or
    unsubscribe others meanwhile. *)
Theorem emit_delivers (e : AppEvent N) (b : bus) (log : list (nat * AppEvent N)) :
  (emit e (b, log)).1 = Ok tt ∧
  (emit e (b, log)).2.2 =
    log ++ map (λ l, (l, e)) (default [] ((b : gmap string (list nat)) !! event_type e)).
Proof.
  unfold emit, mbind, M_bind, gets; cbn.
  destruct (_ !! event_type e) as [[|l ls]|]; cbn [default]; [by rewrite app_nil_r| |by rewrite app_nil_r].
  apply dispatch_spec.
Qed.
End Emit.

(** A listener is subscribed at most once per type, in order of subscription,
    and not at all once unsubscribed. *)
Lemma on_NoDup type l (b : bus) :
  (∀ ty s, (b : gmap string (list nat)) !! ty = Some s → NoDup s) →
  ∀ ty s, (on type l b : gmap string (list nat)) !! ty = Some s → NoDup s.
Proof.
  intros Hb ty s. unfold on. rewrite lookup_insert. case_decide as Hty; [|apply Hb].
  intros [= <-]. unfold set_add. destruct ((b : gmap string (list nat)) !! type) as [s'|] eqn:Hs; cbn.
  - case_bool_decide; [by eapply Hb|]. apply NoDup_app. split_and!; [by eapply Hb| |apply NoDup_singleton].
    intros x Hx ->%list_elem_of_singleton. done.
  - apply NoDup_singleton.
Qed.

Lemma unsubscribe_gone type l (b : bus) s :
  (unsubscribe type l b : gmap string (list nat)) !! type = Some s → l ∉ s.
Proof.
  unfold unsubscribe. rewrite lookup_alter, decide_True by done.
  destruct ((b : gmap string (list nat)) !! type); [|done]. intros [= <-].
  unfold set_delete. rewrite list_elem_of_filter. naive_solver.
Qed.
