(* ===== verification/Json.v ===== *)
(** * What the source stores as JSON

    Everything kept in Redis is the result of [JSON.stringify].  The texts are
    values of a type [text] with a codec per stored type; what a round trip
    through a text does to a value is modelled: [json_value] on JavaScript
    values (undefined properties are dropped, a date becomes its ISO string, a
    number that is not finite becomes null), and from it on the stored
    records. *)

From Stdlib Require Import SpecFloat.
From S2P Require Import Prelude Num JsValue Payment.

(** ** [Date.prototype.toISOString] *)

(** Calendar date of a day counted from the epoch: (year, month, day). *)
Definition civil_of_day (day : Z) : Z * Z * Z :=
  let z := day + 719468 in
  let era := z / 146097 in
  let doe := z mod 146097 in
  let yoe := (doe - doe / 1460 + doe / 36524 - doe / 146096) / 365 in
  let doy := doe - (365 * yoe + yoe / 4 - yoe / 100) in
  let mp := (5 * doy + 2) / 153 in
  let m := if mp <? 10 then mp + 3 else mp - 9 in
  (yoe + era * 400 + (if m <=? 2 then 1 else 0), m, doy - (153 * mp + 2) / 5 + 1).

(** [n] in decimal, padded with zeros to [width] digits. *)
Fixpoint pad (width : nat) (n : Z) : string :=
  match width with
  | O => ""
  | S w => pad w (n / 10) +:+ String (Ascii.ascii_of_N (Z.to_N (48 + n mod 10))) ""
  end.

Definition toISOString (ms : Z) : string :=
  let '(y, m, d) := civil_of_day (ms / 86400000) in
  let r := ms mod 86400000 in
  let year := if (0 <=? y) && (y <=? 9999) then pad 4 y
              else (if y <? 0 then "-" else "+") +:+ pad 6 (Z.abs y) in
  year +:+ "-" +:+ pad 2 m +:+ "-" +:+ pad 2 d +:+ "T" +:+
  pad 2 (r / 3600000) +:+ ":" +:+ pad 2 (r / 60000 mod 60) +:+ ":" +:+
  pad 2 (r / 1000 mod 60) +:+ "." +:+ pad 3 (r mod 1000) +:+ "Z".

Example toISOString_epoch : toISOString 0 = "1970-01-01T00:00:00.000Z".
Proof. vm_compute. reflexivity. Qed.
Example toISOString_leap : toISOString 1709210096789 = "2024-02-29T12:34:56.789Z".
Proof. vm_compute. reflexivity. Qed.
Example toISOString_before : toISOString (-1) = "1969-12-31T23:59:59.999Z".
Proof. vm_compute. reflexivity. Qed.

(** ** [JSON.parse(JSON.stringify(v))] *)

(** [None]: [v] is not serialised. *)
Fixpoint json_value (v : jsval) : option jsval :=
  match v with
  | JUndefined => None
  | JNumber (S754_nan | S754_infinity _) => Some JNull
  | JNumber (S754_zero _) => Some (JNumber (S754_zero false))
  | JDate None => Some JNull
  | JDate (Some t) => Some (JString (toISOString t))
  | JArray l => Some (JArray (map (λ v, default JNull (json_value v)) l))
  | JObject o =>
      Some (JObject (omap (λ kv, match json_value kv.2 with
                                 | Some v => Some (kv.1, v)
                                 | None => None
                                 end) o))
  | JNull | JBool _ | JNumber _ | JString _ => Some v
  end.

(** The properties of an object. *)
Definition json_object (o : list (string * jsval)) : list (string * jsval) :=
  omap (λ kv, match json_value kv.2 with Some v => Some (kv.1, v) | None => None end) o.

(** Induction on JavaScript values. *)
Section Induction.
Variable P : jsval → Prop.
Hypothesis Hatom : ∀ v, match v with JArray _ | JObject _ => True | _ => P v end.
Hypothesis Harray : ∀ l, Forall P l → P (JArray l).
Hypothesis Hobject : ∀ o, Forall (λ kv, P kv.2) o → P (JObject o).

Fixpoint jsval_nested_ind (v : jsval) : P v :=
  match v with
  | JArray l => Harray l ((fix go l : Forall P l :=
      match l with [] => Forall_nil_2 P | x :: l => Forall_cons_2 P x l (jsval_nested_ind x) (go l) end) l)
  | JObject o => Hobject o ((fix go o : Forall (λ kv, P kv.2) o :=
      match o with
      | [] => Forall_nil_2 _
      | kv :: o => Forall_cons_2 (λ kv, P kv.2) kv o (jsval_nested_ind kv.2) (go o)
      end) o)
  | v => Hatom v
  end.
End Induction.

(** A second round trip changes nothing. *)
Lemma json_value_idemp (v v' : jsval) : json_value v = Some v' → json_value v' = Some v'.
Proof.
  revert v'. apply (jsval_nested_ind (λ v, ∀ v', json_value v = Some v' → json_value v' = Some v'));
    clear v; [intros v|intros l IH|intros o IH].
  - destruct v as [| | |[]| |[]| |]; try done; intros v' [= <-]; done.
  - intros v' [= <-]. cbn. do 2 f_equal. rewrite map_map. induction IH as [|v l Hv _ IHl]; [done|].
    cbn. rewrite IHl. destruct (json_value v) as [w|] eqn:Hw; [|done]. cbn. by rewrite (Hv w).
  - intros v' [= <-]. cbn. do 2 f_equal. induction IH as [|[k v] o Hv _ IHo]; [done|].
    cbn in Hv |- *. destruct (json_value v) as [w|] eqn:Hw; [|done]. cbn. rewrite (Hv w) by done. by rewrite IHo.
Qed.

Lemma json_object_idemp o : json_object (json_object o) = json_object o.
Proof.
  pose proof (json_value_idemp (JObject o) _ eq_refl) as H. by injection H.
Qed.

#[global] Arguments json_object : simpl never.

(** ** Codecs *)
Class JsonCodec (text A : Type) := {
  stringify : A → text;
  parse : text → string + A
}.
#[global] Hint Mode JsonCodec ! ! : typeclass_instances.
Arguments stringify {_ _ _} _.
Arguments parse {_ _ _} _.

(** What [JSON.parse] gives back for a text [JSON.stringify] made. *)
Class JsonNorm (A : Type) := json_norm : A → A.
Class JsonCodecLaws (text A : Type) `{!JsonCodec text A, !JsonNorm A} :=
  parse_stringify (a : A) : parse (stringify a : text) = inr (json_norm a).

(** An entry of the settlement ledger ([src/src/payments/settlement-ledger.service.ts]). *)
Record SettlementEntry := {
  se_paymentId : string;
  se_transactionId : string;
  se_amount : Z;
  se_currency : string;
  se_customerId : string;
  se_gatewayId : string;
  settledAt : Z
}.

Definition json_payment (p : Payment) : Payment :=
  {| id := id p; amount := amount p; currency := currency p; customerId := customerId p;
     gatewayId := gatewayId p; priority := priority p; maxRetries := maxRetries p;
     metadata := json_object (metadata p); createdAt := createdAt p; scheduledAt := scheduledAt p |}.

#[export] Instance json_record : JsonNorm PaymentRecord := λ r,
  {| payment := json_payment (payment r); status := status r; retryCount := retryCount r;
     sagaState := sagaState r; history := history r; jobId := jobId r;
     reservationId := reservationId r; transactionId := transactionId r; refundId := refundId r;
     failureReason := failureReason r; correlationId := correlationId r;
     processedAt := processedAt r; completedAt := completedAt r |}.

#[export] Instance json_event : JsonNorm AuditEvent := λ e,
  {| ae_paymentId := ae_paymentId e; ae_type := ae_type e; ae_at := ae_at e;
     ae_detail := json_object <$> ae_detail e |}.

#[export] Instance json_idempotency : JsonNorm IdempotencyRecord := λ r, r.
#[export] Instance json_settlement : JsonNorm SettlementEntry := λ e, e.

Lemma json_payment_idemp (p : Payment) : json_payment (json_payment p) = json_payment p.
Proof. destruct p. unfold json_payment. cbn. by rewrite json_object_idemp. Qed.

Lemma json_record_idemp (r : PaymentRecord) : json_norm (json_norm r) = json_norm r.
Proof.
  destruct r as [[]]. unfold json_norm, json_record, json_payment. cbn. by rewrite json_object_idemp.
Qed.

Lemma json_event_idemp (e : AuditEvent) : json_norm (json_norm e) = json_norm e.
Proof.
  destruct e as [? ? ? [d|]]; [|done]. unfold json_norm, json_event. cbn. by rewrite json_object_idemp.
Qed.

(** ** A text type with its codecs

    Texts known by the value they print, for the examples of the development. *)
Inductive doc :=
  | DocRecord (r : PaymentRecord)
  | DocIdempotency (r : IdempotencyRecord)
  | DocEvent (e : AuditEvent)
  | DocSettlement (e : SettlementEntry)
  | DocLiteral (s : string).

#[export] Instance doc_record : JsonCodec doc PaymentRecord :=
  {| stringify r := DocRecord (json_norm r);
     parse d := match d with DocRecord r => inr r | _ => inl "Unexpected token" end |}.
#[export] Instance doc_idempotency : JsonCodec doc IdempotencyRecord :=
  {| stringify r := DocIdempotency r;
     parse d := match d with DocIdempotency r => inr r | _ => inl "Unexpected token" end |}.
#[export] Instance doc_event : JsonCodec doc AuditEvent :=
  {| stringify e := DocEvent (json_norm e);
     parse d := match d with DocEvent e => inr e | _ => inl "Unexpected token" end |}.
#[export] Instance doc_settlement : JsonCodec doc SettlementEntry :=
  {| stringify e := DocSettlement e;
     parse d := match d with DocSettlement e => inr e | _ => inl "Unexpected token" end |}.

#[export] Instance doc_record_laws : JsonCodecLaws doc PaymentRecord.
Proof. done. Qed.
#[export] Instance doc_idempotency_laws : JsonCodecLaws doc IdempotencyRecord.
Proof. done. Qed.
#[export] Instance doc_event_laws : JsonCodecLaws doc AuditEvent.
Proof. done. Qed.
#[export] Instance doc_settlement_laws : JsonCodecLaws doc SettlementEntry.
Proof. done. Qed.
