(* ===== verification/Redis.v ===== *)
(** * The Redis commands the source issues

    Redis is a service outside the repository: the class [Redis] is the command
    interface the repositories use through [ioredis], each command typed by its
    reply, and [RedisLaws] states the documented behaviour of those commands on
    the data model of Redis, [db]: keys with a value of one type and possibly an
    expiry, expired keys being absent.  A command on a key of another type is
    refused with an error. *)

From S2P Require Import Prelude.

Inductive command (T : Type) : Type → Type :=
  | GET (key : string) : command T (option T)
  | SET_EX (key : string) (v : T) (ttlSeconds : Z) : command T unit
  | SET_NX_EX (key : string) (v : T) (ttlSeconds : Z) : command T bool
  | DEL (key : string) : command T Z
  | PTTL (key : string) : command T Z
  | HSET (key field : string) (v : T) : command T Z
  | HGET (key field : string) : command T (option T)
  | RPUSH (key : string) (v : T) : command T Z
  | LRANGE (key : string) : command T (list T).
Arguments GET {T} _.
Arguments SET_EX {T} _ _ _.
Arguments SET_NX_EX {T} _ _ _.
Arguments DEL {T} _.
Arguments PTTL {T} _.
Arguments HSET {T} _ _ _.
Arguments HGET {T} _ _.
Arguments RPUSH {T} _ _.
Arguments LRANGE {T} _.

(** [exec now c s]: the reply to [c] when the server's clock shows [now], an
    error message or a value, and the server afterwards. *)
Class Redis (T R : Type) := exec : ∀ {A}, Z → command T A → R → (string + A) * R.
#[global] Hint Mode Redis - ! : typeclass_instances.

(** ** The data model *)
Inductive value (T : Type) :=
  | VString (v : T)
  | VHash (h : gmap string T)
  | VList (l : list T).
Arguments VString {T} _.
Arguments VHash {T} _.
Arguments VList {T} _.

Record entry (T : Type) := { e_value : value T; e_expires : option Z }.
Arguments e_value {T} _.
Arguments e_expires {T} _.

Definition db (T : Type) : Type := gmap string (entry T).

Section Spec.
Context {T : Type}.
Implicit Types (d : gmap string (entry T)).

(** The entry at [key], if it has not expired. *)
Definition live (now : Z) (d : db T) (key : string) : option (entry T) :=
  e ← (d : gmap string (entry T)) !! key;
  match e_expires e with
  | Some t => if t <=? now then None else Some e
  | None => Some e
  end.

Definition wrong_type : string :=
  "WRONGTYPE Operation against a key holding the wrong kind of value".

Definition put (key : string) (v : value T) (expires : option Z) (d : db T) : db T :=
  <[key := {| e_value := v; e_expires := expires |}]> (d : gmap string (entry T)).

(** [SET] with [EX] sets the expiry; a write into a hash or a list keeps it.  Two
    corners are simplified: a server refuses an [EX] that is not positive, which
    here makes a key that is expired at once, and serves a key in the very
    millisecond of its expiry, where here it is gone. *)
Definition redis_spec {A} (now : Z) (c : command T A) : db T → (string + A) * db T :=
  match c in command _ A return db T → (string + A) * db T with
  | GET key => λ d,
      match live now d key with
      | None => (inr None, d)
      | Some {| e_value := VString v |} => (inr (Some v), d)
      | Some _ => (inl wrong_type, d)
      end
  | SET_EX key v ttl => λ d, (inr tt, put key (VString v) (Some (now + 1000 * ttl)) d)
  | SET_NX_EX key v ttl => λ d,
      match live now d key with
      | None => (inr true, put key (VString v) (Some (now + 1000 * ttl)) d)
      | Some _ => (inr false, d)
      end
  | DEL key => λ d, (inr (match live now d key with Some _ => 1 | None => 0 end), delete key (d : gmap string (entry T)))
  | PTTL key => λ d,
      (inr (match live now d key with
            | None => -2
            | Some e => match e_expires e with None => -1 | Some t => t - now end
            end), d)
  | HSET key field v => λ d,
      match live now d key with
      | None => (inr 1, put key (VHash {[field := v]}) None d)
      | Some {| e_value := VHash h; e_expires := x |} =>
          (inr (match h !! field with Some _ => 0 | None => 1 end), put key (VHash (<[field := v]> h)) x d)
      | Some _ => (inl wrong_type, d)
      end
  | HGET key field => λ d,
      match live now d key with
      | None => (inr None, d)
      | Some {| e_value := VHash h |} => (inr (h !! field), d)
      | Some _ => (inl wrong_type, d)
      end
  | RPUSH key v => λ d,
      match live now d key with
      | None => (inr 1, put key (VList [v]) None d)
      | Some {| e_value := VList l; e_expires := x |} =>
          (inr (Z.of_nat (S (length l))), put key (VList (l ++ [v])) x d)
      | Some _ => (inl wrong_type, d)
      end
  | LRANGE key => λ d,
      match live now d key with
      | None => (inr [], d)
      | Some {| e_value := VList l |} => (inr l, d)
      | Some _ => (inl wrong_type, d)
      end
  end.
End Spec.

(** The commands behave as documented, through a view of the server as a [db]. *)
Class RedisLaws (T R : Type) `{!Redis T R} := {
  view : R → db T;
  exec_spec A now (c : command T A) (s : R) :
    (exec now c s).1 = (redis_spec now c (view s)).1 ∧
    view (exec now c s).2 = (redis_spec now c (view s)).2
}.

(** The data model is itself such a server. *)
#[export] Instance db_redis (T : Type) : Redis T (db T) := λ A now c s, redis_spec now c s.
#[export] Instance db_redis_laws (T : Type) : RedisLaws T (db T) := 
  {| view s := s; exec_spec A now c s := conj eq_refl eq_refl |}.

(** ** Keys and commands *)

(** The key a command reads or writes, and whether it may write. *)
Definition command_key {T A} (c : command T A) : string :=
  match c with
  | GET k | SET_EX k _ _ | SET_NX_EX k _ _ | DEL k | PTTL k | HSET k _ _ | HGET k _
  | RPUSH k _ | LRANGE k => k
  end.

Section Facts.
Context {T : Type}.
Implicit Types (d : db T).

(** A command touches no other key. *)
Lemma redis_spec_frame {A} now (c : command T A) d k :
  k ≠ command_key c →
  ((redis_spec now c d).2 : gmap string (entry T)) !! k = (d : gmap string (entry T)) !! k.
Proof.
  intros Hk. destruct c; cbn in *; unfold put; repeat (case_match; cbn);
    rewrite ?lookup_insert_ne, ?lookup_delete_ne by done; done.
Qed.

Lemma live_lookup now d d' k :
  (d : gmap string (entry T)) !! k = (d' : gmap string (entry T)) !! k → live now d k = live now d' k.
Proof. unfold live. by intros ->. Qed.

Lemma live_put now k v x d :
  live now (put k v x d) k =
    match x with
    | Some t => if t <=? now then None else Some {| e_value := v; e_expires := x |}
    | None => Some {| e_value := v; e_expires := x |}
    end.
Proof. unfold live, put. by rewrite lookup_insert_eq. Qed.

Lemma live_delete now k d : live now (delete k (d : gmap string (entry T)) : db T) k = None.
Proof. unfold live. by rewrite lookup_delete_eq. Qed.

(** Without an expiry an entry stays. *)
Lemma live_persistent now now' d k e :
  live now d k = Some e → e_expires e = None → live now' d k = Some e.
Proof.
  unfold live. destruct (_ !! k) as [e'|]; [|done]. cbn. intros H He.
  destruct (e_expires e') as [t|] eqn:Ht; [case_match; [done|]|]; injection H as <-; congruence.
Qed.
End Facts.
