(* ===== verification/Gateway.v ===== *)
(** * Payment gateways ([src/src/gateway/gateway.types.ts],
      [src/src/gateway/mock-gateway.service.ts])

    The contract of a payment gateway as a class, the scriptable mock gateway
    with its registry, and the proof that the registry meets the contract.  A
    charge is split where the source awaits its latency: what happens before
    ([charge_begin]) and after ([charge_finish]) is each one atomic segment. *)

From S2P Require Import Prelude Num JsValue Errors Payment TokenBucket.

Record GatewayFailure := { gf_code : PaymentErrorCode; gf_message : string; gf_httpStatus : Z }.

Inductive GatewayChargeResult (N : Type) :=
  | ChargeOk (transactionId : string) (httpStatus : Z) (latencyMs : N)
  | ChargeFailed (failure : GatewayFailure) (latencyMs : N).
Arguments ChargeOk {N} _ _ _.
Arguments ChargeFailed {N} _ _.

Inductive GatewayRefundResult (N : Type) :=
  | RefundOk (refundId : string) (httpStatus : Z) (latencyMs : N)
  | RefundFailed (failure : GatewayFailure) (latencyMs : N).
Arguments RefundOk {N} _ _ _.
Arguments RefundFailed {N} _ _.

(** The status of an issued transaction. *)
Inductive TransactionStatus := Succeeded | TxFailed.

(** The gateways of a registry with state [G], each named by its id.  A call
    takes time, so it also moves the clock. *)
Class PaymentGateway (N G : Type) := {
  gw_charge : string → Payment → option string → M exn (runtime * G) (GatewayChargeResult N);
  gw_refund : string → string → M exn (runtime * G) (GatewayRefundResult N);
  gw_getStatus : string → string → M exn (runtime * G) (string * TransactionStatus)
}.
#[global] Hint Mode PaymentGateway - ! : typeclass_instances.

(** ** Scripts *)
Inductive MockStep (N : Type) :=
  | StepOk (latencyMs : option N)
  | StepFail (httpStatus : Z) (code : option PaymentErrorCode).
Arguments StepOk {N} _.
Arguments StepFail {N} _ _.

Record MockGatewayBehavior (N : Type) := {
  latencyMinMs : N;
  latencyMaxMs : N;
  steps : list (MockStep N);
  after : MockStep N;
  b_refundSteps : option (list (MockStep N))
}.
Arguments latencyMinMs {N} _.
Arguments latencyMaxMs {N} _.
Arguments steps {N} _.
Arguments after {N} _.
Arguments b_refundSteps {N} _.

(** [Partial<MockGatewayBehavior>] *)
Record PartialBehavior (N : Type) := {
  p_latencyMinMs : option N;
  p_latencyMaxMs : option N;
  p_steps : option (list (MockStep N));
  p_after : option (MockStep N);
  p_refundSteps : option (list (MockStep N))
}.
Arguments p_latencyMinMs {N} _.
Arguments p_latencyMaxMs {N} _.
Arguments p_steps {N} _.
Arguments p_after {N} _.
Arguments p_refundSteps {N} _.

Record MockGatewayStats := {
  charges : Z;
  refunds : Z;
  failedCharges : Z;
  httpStatusHistogram : gmap Z Z;
  correlationIds : list string
}.

Record MockGateway (N : Type) := {
  mg_id : string;
  behavior : MockGatewayBehavior N;
  stepIndex : nat;
  refundStepIndex : nat;
  transactions : gmap string TransactionStatus;
  stats : MockGatewayStats;
  refundSteps : list (MockStep N)
}.
Arguments mg_id {N} _.
Arguments behavior {N} _.
Arguments stepIndex {N} _.
Arguments refundStepIndex {N} _.
Arguments transactions {N} _.
Arguments stats {N} _.
Arguments refundSteps {N} _.

Section Mock.
Context {N : Type} `{!JsNum N}.
Variable elapsed : nat → nat.
(** [Math.random()], by the number of earlier calls. *)
Variable rand : nat → N.
Implicit Types (g : MockGateway N) (b : MockGatewayBehavior N).

#[local] Notation Mk := (M exn (runtime * MockGateway N)).

Definition OK_BEHAVIOR : MockGatewayBehavior N :=
  {| latencyMinMs := nof 10; latencyMaxMs := nof 30; steps := []; after := StepOk None;
     b_refundSteps := None |}.

Definition new_gateway (id : string) : MockGateway N :=
  {| mg_id := id; behavior := OK_BEHAVIOR; stepIndex := 0; refundStepIndex := 0;
     transactions := ∅;
     stats := {| charges := 0; refunds := 0; failedCharges := 0; httpStatusHistogram := ∅;
                 correlationIds := [] |};
     refundSteps := [] |}.

Definition configure (p : PartialBehavior N) g : MockGateway N :=
  {| mg_id := mg_id g;
     behavior :=
       {| latencyMinMs := default (nof 5) (p_latencyMinMs p);
          latencyMaxMs := default (nof 20) (p_latencyMaxMs p);
          steps := default [] (p_steps p);
          after := default (after OK_BEHAVIOR) (p_after p);
          b_refundSteps := Some (default [] (p_refundSteps p)) |};
     stepIndex := 0; refundStepIndex := 0; transactions := transactions g; stats := stats g;
     refundSteps := default [] (p_refundSteps p) |}.

(** [configure({ ...OK_BEHAVIOR, latencyMinMs: 5, latencyMaxMs: 20 })] *)
Definition reset g : MockGateway N :=
  configure {| p_latencyMinMs := Some (nof 5); p_latencyMaxMs := Some (nof 20);
               p_steps := Some (steps OK_BEHAVIOR); p_after := Some (after OK_BEHAVIOR);
               p_refundSteps := b_refundSteps OK_BEHAVIOR |} g.

Definition with_stats g (f : MockGatewayStats → MockGatewayStats) : MockGateway N :=
  {| mg_id := mg_id g; behavior := behavior g; stepIndex := stepIndex g;
     refundStepIndex := refundStepIndex g; transactions := transactions g; stats := f (stats g);
     refundSteps := refundSteps g |}.

Definition set_transaction (tx : string) (st : TransactionStatus) g : MockGateway N :=
  {| mg_id := mg_id g; behavior := behavior g; stepIndex := stepIndex g;
     refundStepIndex := refundStepIndex g; transactions := <[tx := st]> (transactions g);
     stats := stats g; refundSteps := refundSteps g |}.

Definition nextStep g : MockStep N * MockGateway N :=
  match steps (behavior g) !! stepIndex g with
  | Some step =>
      (step, {| mg_id := mg_id g; behavior := behavior g; stepIndex := S (stepIndex g);
                refundStepIndex := refundStepIndex g; transactions := transactions g;
                stats := stats g; refundSteps := refundSteps g |})
  | None => (after (behavior g), g)
  end.

Definition nextRefundStep g : option (MockStep N) * MockGateway N :=
  match refundSteps g !! refundStepIndex g with
  | Some step =>
      (Some step, {| mg_id := mg_id g; behavior := behavior g; stepIndex := stepIndex g;
                     refundStepIndex := S (refundStepIndex g); transactions := transactions g;
                     stats := stats g; refundSteps := refundSteps g |})
  | None => (None, g)
  end.

Definition read_rand (rt : runtime) : N * runtime :=
  (rand (rt_rand rt), {| rt_now := rt_now rt; rt_ix := rt_ix rt; rt_rand := S (rt_rand rt) |}).

Definition latency b (step : option (MockStep N)) (rt : runtime) : N * runtime :=
  match step with
  | Some (StepOk (Some ms)) => (ms, rt)
  | _ =>
      if nle (latencyMaxMs b) (latencyMinMs b) then (latencyMinMs b, rt)
      else let '(r, rt) := read_rand rt in
           (nadd (latencyMinMs b) (nmul r (nsub (latencyMaxMs b) (latencyMinMs b))), rt)
  end.

Definition tally (httpStatus : Z) g : MockGateway N :=
  with_stats g (λ s,
    {| charges := charges s; refunds := refunds s; failedCharges := failedCharges s;
       httpStatusHistogram :=
         <[httpStatus := default 0 (httpStatusHistogram s !! httpStatus) + 1]> (httpStatusHistogram s);
       correlationIds := correlationIds s |}).

(** *** [charge] *)
Definition charge_begin (correlationId : option string) : Mk (MockStep N * N) :=
  state_op (λ '(rt, g),
    let b := behavior g in
    let '(step, g) := nextStep g in
    let g := with_stats g (λ s,
      {| charges := charges s + 1; refunds := refunds s; failedCharges := failedCharges s;
         httpStatusHistogram := httpStatusHistogram s;
         correlationIds :=
           match correlationId with
           | Some c => if truthy (Some c) then correlationIds s ++ [c] else correlationIds s
           | None => correlationIds s
           end |}) in
    let '(ms, rt) := latency b match step with StepOk _ => Some step | StepFail _ _ => None end rt in
    (step, ms, (rt, g))).

(** [await sleep(latencyMs)]: the timer counts whole milliseconds. *)
Definition gw_sleep (ms : N) : Mk unit :=
  modify (λ '(rt, g), (sleep_clock elapsed (nfloor ms) rt, g)).

Definition new_transactionId (id : string) (now charges : Z) : string :=
  id +:+ "_txn_" +:+ to_base36 now +:+ "_" +:+ pretty charges.

Definition charge_finish (step : MockStep N) (ms : N) : Mk (GatewayChargeResult N) :=
  match step with
  | StepFail httpStatus code =>
      state_op (λ '(rt, g),
        let g := with_stats g (λ s,
          {| charges := charges s; refunds := refunds s; failedCharges := failedCharges s + 1;
             httpStatusHistogram := httpStatusHistogram s; correlationIds := correlationIds s |}) in
        let g := tally httpStatus g in
        (ChargeFailed
           {| gf_code := default (classifyHttpStatus httpStatus) code;
              gf_message := "gateway " +:+ mg_id g +:+ " rejected with HTTP " +:+ pretty httpStatus;
              gf_httpStatus := httpStatus |} ms, (rt, g)))
  | StepOk _ =>
      state_op (λ '(rt, g),
        let g := tally 200 g in
        let '(now, rt) := read_clock elapsed rt in
        let transactionId := new_transactionId (mg_id g) now (charges (stats g)) in
        (ChargeOk transactionId 200 ms, (rt, set_transaction transactionId Succeeded g)))
  end.

Definition charge (payment : Payment) (correlationId : option string) : Mk (GatewayChargeResult N) :=
  '(step, ms) ← charge_begin correlationId;
  gw_sleep ms;;
  charge_finish step ms.

(** *** [refund] *)
Definition refund_begin : Mk (option (MockStep N) * N) :=
  state_op (λ '(rt, g),
    let g := with_stats g (λ s,
      {| charges := charges s; refunds := refunds s + 1; failedCharges := failedCharges s;
         httpStatusHistogram := httpStatusHistogram s; correlationIds := correlationIds s |}) in
    let '(step, g) := nextRefundStep g in
    let '(ms, rt) := latency (behavior g) step rt in
    (step, ms, (rt, g))).

Definition refund_finish (transactionId : string) (step : option (MockStep N)) (ms : N)
    : Mk (GatewayRefundResult N) :=
  match step with
  | Some (StepFail httpStatus code) =>
      state_op (λ '(rt, g),
        let g := set_transaction transactionId TxFailed (tally httpStatus g) in
        (RefundFailed
           {| gf_code := default (classifyHttpStatus httpStatus) code;
              gf_message := "gateway " +:+ mg_id g +:+ " refund rejected with HTTP " +:+ pretty httpStatus;
              gf_httpStatus := httpStatus |} ms, (rt, g)))
  | _ =>
      gets (λ '(rt, g),
        RefundOk ("refund_" +:+ transactionId +:+ "_" +:+ pretty (refunds (stats g))) 200 ms)
  end.

Definition refund (transactionId : string) : Mk (GatewayRefundResult N) :=
  '(step, ms) ← refund_begin;
  gw_sleep ms;;
  refund_finish transactionId step ms.

Definition getStatus (transactionId : string) : Mk (string * TransactionStatus) :=
  gets (λ '(rt, g), (transactionId, default TxFailed (transactions g !! transactionId))).

(** ** [MockGatewayRegistry] *)
Definition gateways : Type := gmap string (MockGateway N).

Definition reg_get (gatewayId : string) (gs : gateways) : MockGateway N * gateways :=
  match (gs : gmap string (MockGateway N)) !! gatewayId with
  | Some g => (g, gs)
  | None =>
      let g := configure {| p_latencyMinMs := Some (nof 5); p_latencyMaxMs := Some (nof 20);
                            p_steps := None; p_after := None; p_refundSteps := None |}
                 (new_gateway gatewayId) in
      (g, <[gatewayId := g]> (gs : gmap string (MockGateway N)))
  end.

(** [this.get(gatewayId).method(...)] *)
Definition with_gateway {A} (gatewayId : string) (m : Mk A) : M exn (runtime * gateways) A :=
  zoom (λ '(rt, gs), (rt, (reg_get gatewayId gs).1))
       (λ '(rt, g) '(_, gs), (rt, <[gatewayId := g]> (gs : gmap string (MockGateway N)))) m.

Definition reg_configure (gatewayId : string) (p : PartialBehavior N) (gs : gateways) : gateways :=
  <[gatewayId := configure p (reg_get gatewayId gs).1]> (gs : gmap string (MockGateway N)).

Definition reg_reset (gatewayId : string) (gs : gateways) : gateways :=
  <[gatewayId := reset (reg_get gatewayId gs).1]> (gs : gmap string (MockGateway N)).

Definition resetAll (gs : gateways) : gateways := reset <$> (gs : gmap string (MockGateway N)).
End Mock.
Arguments gateways N : clear implicits.

(** The registry is a set of payment gateways. *)
Definition mock_gateways {N} `{!JsNum N} (elapsed : nat → nat) (rand : nat → N) :
  PaymentGateway N (gateways N) :=
  {| gw_charge id p c := with_gateway id (charge elapsed rand p c);
     gw_refund id tx := with_gateway id (refund elapsed rand tx);
     gw_getStatus id tx := with_gateway id (getStatus tx) |}.

(** What the clients of a gateway rely on: a call completes (a failure is a
    result, not an exception), does not turn the clock back, and leaves the
    other gateways as they were.  [gw_at id g] is the part of [g] the gateway
    [id] owns. *)
Class PaymentGatewayLaws (N G : Type) `{!PaymentGateway N G} := {
  gw_part : Type;
  gw_at : string → G → gw_part;
  gw_charge_total id p c rt g : ∃ r rt' g', gw_charge id p c (rt, g) = (Ok r, (rt', g')) ∧
    rt_now rt ≤ rt_now rt' ∧ ∀ id', id' ≠ id → gw_at id' g' = gw_at id' g;
  gw_refund_total id tx rt g : ∃ r rt' g', gw_refund id tx (rt, g) = (Ok r, (rt', g')) ∧
    rt_now rt ≤ rt_now rt' ∧ ∀ id', id' ≠ id → gw_at id' g' = gw_at id' g
}.

Section MockFacts.
Context {N : Type} `{!JsNum N}.
Variable elapsed : nat → nat.
Variable rand : nat → N.
Implicit Types (g : MockGateway N).

(** The steps of the script that are still to be played. *)
Definition remaining g : list (MockStep N) := drop (stepIndex g) (steps (behavior g)).

(** The answer a step prescribes. *)
Definition answers (step : MockStep N) (r : GatewayChargeResult N) : Prop :=
  match step, r with
  | StepOk _, ChargeOk _ httpStatus _ => httpStatus = 200
  | StepFail httpStatus code, ChargeFailed f _ =>
      gf_httpStatus f = httpStatus ∧ gf_code f = default (classifyHttpStatus httpStatus) code
  | _, _ => False
  end.

Definition charge_failed (r : GatewayChargeResult N) : bool :=
  match r with ChargeFailed _ _ => true | ChargeOk _ _ _ => false end.

Lemma nextStep_spec g :
  let '(step, g') := nextStep g in
  step = default (after (behavior g)) (remaining g !! 0%nat) ∧ remaining g' = tail (remaining g) ∧
  behavior g' = behavior g ∧ stats g' = stats g ∧ mg_id g' = mg_id g.
Proof.
  unfold nextStep, remaining. rewrite lookup_drop, Nat.add_0_r.
  destruct (steps (behavior g) !! stepIndex g) as [s|] eqn:Hs; cbn; repeat split; try done.
  - by rewrite drop_S_tail.
  - rewrite drop_ge; [done|]. by apply lookup_ge_None.
Qed.

Lemma latency_clock b step rt :
  rt_now (latency rand b step rt).2 = rt_now rt.
Proof. unfold latency, read_rand. by repeat case_match. Qed.

Lemma sleep_clock_le ms rt : rt_now rt ≤ rt_now (sleep_clock elapsed ms rt).
Proof. cbn. lia. Qed.
Lemma read_clock_le rt : rt_now rt ≤ rt_now (read_clock elapsed rt).2.
Proof. cbn. lia. Qed.

(** One charge plays one step of the script. *)
Lemma charge_spec p c rt g :
  ∃ r rt' g', charge elapsed rand p c (rt, g) = (Ok r, (rt', g')) ∧ rt_now rt ≤ rt_now rt' ∧
    answers (default (after (behavior g)) (remaining g !! 0%nat)) r ∧
    remaining g' = tail (remaining g) ∧ behavior g' = behavior g ∧
    charges (stats g') = charges (stats g) + 1 ∧
    failedCharges (stats g') = failedCharges (stats g) + (if charge_failed r then 1 else 0).
Proof.
  unfold charge, mbind, M_bind, charge_begin, state_op.
  pose proof (nextStep_spec g) as Hn. destruct (nextStep g) as [step g1].
  destruct Hn as (Hstep&Hrem&Hb&Hst&Hid). rewrite <-Hstep.
  pose proof (latency_clock (behavior g)
    match step with StepOk _ => Some step | StepFail _ _ => None end rt) as Hl.
  destruct (latency rand (behavior g) _ rt) as [ms rt1]. cbn in Hl |- *.
  destruct step as [l|h cd]; cbn; do 3 eexists; (split; [reflexivity|]); cbn; rewrite <-Hl, Hst;
    repeat split; try done; lia.
Qed.

Lemma refund_spec tx rt g :
  ∃ r rt' g', refund elapsed rand tx (rt, g) = (Ok r, (rt', g')) ∧ rt_now rt ≤ rt_now rt'.
Proof.
  unfold refund, mbind, M_bind, refund_begin, state_op.
  destruct (nextRefundStep _) as [step g1].
  pose proof (latency_clock (behavior g1) step rt) as Hl.
  destruct (latency rand (behavior g1) step rt) as [ms rt1]. cbn in Hl |- *.
  destruct step as [[l|h cd]|]; cbn; do 3 eexists; (split; [reflexivity|]); cbn; lia.
Qed.

#[export] Instance mock_gateways_laws :
  PaymentGatewayLaws N (gateways N) (PaymentGateway0 := mock_gateways elapsed rand).
Proof.
  unshelve refine {| gw_part := option (MockGateway N);
                     gw_at id gs := (gs : gmap string (MockGateway N)) !! id |}.
  - intros id p c rt gs. cbn. unfold with_gateway, zoom.
    destruct (charge_spec p c rt (reg_get id gs).1) as (r&rt'&g'&->&Hle&_).
    do 3 eexists. split; [reflexivity|]. split; [done|]. intros id' Hne. by rewrite lookup_insert_ne.
  - intros id tx rt gs. cbn. unfold with_gateway, zoom.
    destruct (refund_spec tx rt (reg_get id gs).1) as (r&rt'&g'&->&Hle).
    do 3 eexists. split; [reflexivity|]. split; [done|]. intros id' Hne. by rewrite lookup_insert_ne.
Defined.

(** Charges one after the other. *)
Fixpoint run_charges (calls : list (Payment * option string))
    : M exn (runtime * MockGateway N) (list (GatewayChargeResult N)) :=
  match calls with
  | [] => mret []
  | (p, c) :: calls =>
      r ← charge elapsed rand p c;
      rs ← run_charges calls;
      mret (r :: rs)
  end.

Lemma run_charges_spec calls rt g :
  ∃ rs rt' g', run_charges calls (rt, g) = (Ok rs, (rt', g')) ∧ length rs = length calls ∧
    (∀ i r, rs !! i = Some r → answers (default (after (behavior g)) (remaining g !! i)) r) ∧
    charges (stats g') = charges (stats g) + Z.of_nat (length calls) ∧
    failedCharges (stats g') =
      failedCharges (stats g) + Z.of_nat (length (filter (λ r, charge_failed r = true) rs)).
Proof.
  revert rt g. induction calls as [|[p c] calls IH]; intros rt g.
  { exists [], rt, g. cbn. repeat split; try lia. intros i r. by rewrite lookup_nil. }
  cbn [run_charges]. unfold mbind, M_bind.
  destruct (charge_spec p c rt g) as (r&rt1&g1&->&_&Hr&Hrem&Hb&Hc&Hf).
  destruct (IH rt1 g1) as (rs&rt2&g2&->&Hlen&Hrs&Hc2&Hf2).
  exists (r :: rs), rt2, g2. split; [done|]. cbn [length]. split; [lia|]. split_and!.
  - intros [|i] r' Hi; [by injection Hi as <-|]. cbn in Hi. specialize (Hrs i r' Hi).
    rewrite Hb, Hrem in Hrs. by destruct (remaining g).
  - lia.
  - rewrite Hf2, Hf. destruct (charge_failed r) eqn:Hcf.
    + rewrite filter_cons_True by done. cbn. lia.
    + rewrite filter_cons_False by congruence. cbn. lia.
Qed.

(** A mock gateway plays its script: after [configure], the [i]-th charge
    is answered as the [i]-th scripted step says, and as the [after] step once
    the script is exhausted; the statistics count every charge and every
    failure. *)
Theorem mock_follows_script (b : PartialBehavior N) (calls : list (Payment * option string))
    (rt : runtime) g :
  let script := default [] (p_steps b) in
  let rest := default (StepOk None) (p_after b) in
  ∃ rs rt' g', run_charges calls (rt, configure b g) = (Ok rs, (rt', g')) ∧
    length rs = length calls ∧
    (∀ i r, rs !! i = Some r → answers (default rest (script !! i)) r) ∧
    charges (stats g') = charges (stats g) + Z.of_nat (length calls) ∧
    failedCharges (stats g') =
      failedCharges (stats g) + Z.of_nat (length (filter (λ r, charge_failed r = true) rs)).
Proof. cbv zeta. exact (run_charges_spec calls rt (configure b g)). Qed.

(** Two charges in flight at once on one gateway, both finishing in the same
    millisecond, are given the same transaction id: each id is made from the
    count of charges when its charge finishes, which by then counts both. *)
Lemma overlapping_ids (l1 l2 : option N) ms1 ms2 rt g r1 r2 s :
  elapsed (S (rt_ix rt)) = 0%nat →
  (r1 ← charge_finish elapsed (StepOk l1) ms1; r2 ← charge_finish elapsed (StepOk l2) ms2;
   mret (r1, r2)) (rt, g) = (Ok (r1, r2), s) →
  ∃ tx, r1 = ChargeOk tx 200 ms1 ∧ r2 = ChargeOk tx 200 ms2.
Proof.
  intros He. unfold mbind, M_bind, charge_finish, state_op. cbn. intros [= <- <- _].
  eexists. split; [reflexivity|]. rewrite He, Z.add_0_r. done.
Qed.
End MockFacts.
