(* ===== verification/Config.v ===== *)
(** * Configuration ([src/src/config/app-config.ts])

    The configuration object the services are given, and how it is built from the
    environment.  Durations and counts are integers; ratios and rates are
    JavaScript numbers. *)

From S2P Require Import Prelude Num JsValue.

Record CircuitBreakerConfig (N : Type) := {
  cbc_windowMs : Z;
  cbc_failureThreshold : N;
  cbc_minSamples : Z;
  cbc_cooldownMs : Z
}.
Arguments cbc_windowMs {N} _.
Arguments cbc_failureThreshold {N} _.
Arguments cbc_minSamples {N} _.
Arguments cbc_cooldownMs {N} _.

Record RateLimiterConfig (N : Type) := {
  rlc_nominalRps : N;
  rlc_burstFactor : N;
  rlc_minRateFactor : N;
  rlc_aiStepRps : N;
  rlc_tokenWaitMs : Z
}.
Arguments rlc_nominalRps {N} _.
Arguments rlc_burstFactor {N} _.
Arguments rlc_minRateFactor {N} _.
Arguments rlc_aiStepRps {N} _.
Arguments rlc_tokenWaitMs {N} _.

Record QueueConfig (N : Type) := {
  prefix : string;
  workerPoolSize : Z;
  backoffBaseMs : Z;
  backoffJitter : N
}.
Arguments prefix {N} _.
Arguments workerPoolSize {N} _.
Arguments backoffBaseMs {N} _.
Arguments backoffJitter {N} _.

Record IdempotencyConfig := { leaseTtlSeconds : Z; retentionSeconds : Z }.

Record MetricsConfig (N : Type) := {
  windowSeconds : Z;
  broadcastIntervalMs : Z;
  errorRateAlert : N;
  p95LatencyAlertMs : Z;
  queueDepthAlert : Z;
  alertCooldownMs : Z
}.
Arguments windowSeconds {N} _.
Arguments broadcastIntervalMs {N} _.
Arguments errorRateAlert {N} _.
Arguments p95LatencyAlertMs {N} _.
Arguments queueDepthAlert {N} _.
Arguments alertCooldownMs {N} _.

Record TracingConfig := { serviceName : string; otlpEndpoint : option string }.

Record AppConfig (N : Type) := {
  redis_url : string;
  http_port : Z;
  queue : QueueConfig N;
  idempotency : IdempotencyConfig;
  rateLimiter : RateLimiterConfig N;
  circuitBreaker : CircuitBreakerConfig N;
  metrics : MetricsConfig N;
  tracing : TracingConfig;
  cfg_gateways : list string
}.
Arguments redis_url {N} _.
Arguments http_port {N} _.
Arguments queue {N} _.
Arguments idempotency {N} _.
Arguments rateLimiter {N} _.
Arguments circuitBreaker {N} _.
Arguments metrics {N} _.
Arguments tracing {N} _.
Arguments cfg_gateways {N} _.

Definition DEFAULT_GATEWAYS : list string := ["stripe"; "paypal"; "adyen"].

(** What [buildConfig] returns when no environment variable is set. *)
Definition default_config {N} `{!JsNum N} : AppConfig N :=
  {| redis_url := "redis://127.0.0.1:6379";
     http_port := 3000;
     queue := {| prefix := "bull:payments"; workerPoolSize := 2; backoffBaseMs := 500;
                 backoffJitter := nlit 30 100 |};
     idempotency := {| leaseTtlSeconds := 600; retentionSeconds := 86400 |};
     rateLimiter := {| rlc_nominalRps := nof 20; rlc_burstFactor := nof 2;
                       rlc_minRateFactor := nlit 25 100; rlc_aiStepRps := nof 1;
                       rlc_tokenWaitMs := 15000 |};
     circuitBreaker := {| cbc_windowMs := 30000; cbc_failureThreshold := nlit 5 10;
                          cbc_minSamples := 10; cbc_cooldownMs := 30000 |};
     metrics := {| windowSeconds := 60; broadcastIntervalMs := 1000; errorRateAlert := nlit 1 10;
                   p95LatencyAlertMs := 1000; queueDepthAlert := 200; alertCooldownMs := 10000 |};
     tracing := {| serviceName := "queue-system"; otlpEndpoint := None |};
     cfg_gateways := DEFAULT_GATEWAYS |}.

(** ** Reading the environment

    [env key] is [process.env[key]]; [number] is [Number(raw)], [read_file] the
    contents of a file, if it can be read.  A setting of the model that is an
    integer is [None] when the environment gives it a fraction. *)
Section BuildConfig.
Context {N : Type} `{!JsNum N}.
Variable number : string → N.
Variable integer : N → option Z.
Variable read_file : string → option string.
Variable env : string → option string.

(** [num(env, key, fallback)] *)
Definition num_setting (key : string) (fallback : N) : N :=
  match env key with
  | None | Some "" => fallback
  | Some raw => if nfin (number raw) then number raw else fallback
  end.

Definition int_setting (key : string) (fallback : Z) : option Z :=
  match env key with
  | None | Some "" => Some fallback
  | Some raw => if nfin (number raw) then integer (number raw) else Some fallback
  end.

(** [s.split(',')] *)
Fixpoint split_commas (s : string) : list string :=
  match s with
  | "" => [""]
  | String c rest =>
      if bool_decide (c = Ascii.ascii_of_N 44) then "" :: split_commas rest
      else match split_commas rest with
           | [] => [String c ""]
           | p :: ps => String c p :: ps
           end
  end.

(** [encodeURIComponent]: a code unit above 127 is two bytes of UTF-8. *)
Definition hex_digit (n : Z) : Ascii.ascii :=
  Ascii.ascii_of_N (Z.to_N (if n <? 10 then 48 + n else 55 + n)).
Definition percent_byte (n : Z) (rest : string) : string :=
  String (Ascii.ascii_of_N 37) (String (hex_digit (n / 16)) (String (hex_digit (n mod 16)) rest)).
Definition unreserved (c : Ascii.ascii) : bool :=
  let n := code_unit c in
  ((65 <=? n) && (n <=? 90)) || ((97 <=? n) && (n <=? 122)) || ((48 <=? n) && (n <=? 57)) ||
  bool_decide (c ∈ String.list_ascii_of_string "-_.!~*'()").
Fixpoint encodeURIComponent (s : string) : string :=
  match s with
  | "" => ""
  | String c rest =>
      let n := code_unit c in
      if unreserved c then String c (encodeURIComponent rest)
      else if n <? 128 then percent_byte n (encodeURIComponent rest)
      else percent_byte (192 + n / 64) (percent_byte (128 + n mod 64) (encodeURIComponent rest))
  end.

Definition some_text (o : option string) : option string :=
  match o with Some "" | None => None | o => o end.

Definition redisUrl : string :=
  match some_text (env "REDIS_URL") with
  | Some explicit => explicit
  | None =>
      match urlFile ← some_text (env "TEST_REDIS_URL_FILE"); text ← read_file urlFile; some_text (Some (trim text)) with
      | Some fromFile => fromFile
      | None =>
          let host := default "127.0.0.1" (env "REDIS_HOST") in
          let port := default "6379" (env "REDIS_PORT") in
          let db := match env "REDIS_DB" with Some d => "/" +:+ d | None => "" end in
          let auth := match some_text (env "REDIS_PASSWORD") with
                      | Some p => ":" +:+ encodeURIComponent p +:+ "@" | None => "" end in
          "redis://" +:+ auth +:+ host +:+ ":" +:+ port +:+ db
      end
  end.

Definition gateway_names : list string :=
  let gateways := filter (λ g, g ≠ "") (map trim (split_commas
    (default (String.concat "," DEFAULT_GATEWAYS) (env "GATEWAYS")))) in
  match gateways with [] => DEFAULT_GATEWAYS | _ => gateways end.

Definition buildConfig : option (AppConfig N) :=
  port ← int_setting "PORT" 3000;
  workers ← int_setting "QUEUE_WORKER_POOL_SIZE" 2;
  backoff ← int_setting "QUEUE_BACKOFF_BASE_MS" 500;
  lease ← int_setting "IDEMPOTENCY_LEASE_TTL_SECONDS" 600;
  retention ← int_setting "IDEMPOTENCY_RETENTION_SECONDS" 86400;
  wait ← int_setting "RATE_LIMIT_TOKEN_WAIT_MS" 15000;
  window ← int_setting "CIRCUIT_BREAKER_WINDOW_MS" 30000;
  minSamples ← int_setting "CIRCUIT_BREAKER_MIN_SAMPLES" 10;
  cooldown ← int_setting "CIRCUIT_BREAKER_COOLDOWN_MS" 30000;
  metricsWindow ← int_setting "METRICS_WINDOW_SECONDS" 60;
  interval ← int_setting "METRICS_BROADCAST_INTERVAL_MS" 1000;
  p95 ← int_setting "METRICS_P95_LATENCY_ALERT_MS" 1000;
  depth ← int_setting "METRICS_QUEUE_DEPTH_ALERT" 200;
  alertCooldown ← int_setting "METRICS_ALERT_COOLDOWN_MS" 10000;
  Some
  {| redis_url := redisUrl; http_port := port;
     queue := {| prefix := default "bull:payments" (env "QUEUE_PREFIX"); workerPoolSize := workers;
                 backoffBaseMs := backoff;
                 backoffJitter := ndiv (num_setting "QUEUE_BACKOFF_JITTER" (nof 30)) (nof 100) |};
     idempotency := {| leaseTtlSeconds := lease; retentionSeconds := retention |};
     rateLimiter :=
       {| rlc_nominalRps := num_setting "RATE_LIMIT_NOMINAL_RPS" (nof 20);
          rlc_burstFactor := num_setting "RATE_LIMIT_BURST_FACTOR" (nof 2);
          rlc_minRateFactor := num_setting "RATE_LIMIT_MIN_RATE_FACTOR" (nlit 25 100);
          rlc_aiStepRps := num_setting "RATE_LIMIT_AI_STEP_RPS" (nof 1);
          rlc_tokenWaitMs := wait |};
     circuitBreaker :=
       {| cbc_windowMs := window;
          cbc_failureThreshold := num_setting "CIRCUIT_BREAKER_FAILURE_THRESHOLD" (nlit 5 10);
          cbc_minSamples := minSamples; cbc_cooldownMs := cooldown |};
     metrics :=
       {| windowSeconds := metricsWindow; broadcastIntervalMs := interval;
          errorRateAlert := num_setting "METRICS_ERROR_RATE_ALERT" (nlit 1 10);
          p95LatencyAlertMs := p95; queueDepthAlert := depth; alertCooldownMs := alertCooldown |};
     tracing := {| serviceName := default "queue-system" (env "OTEL_SERVICE_NAME");
                   otlpEndpoint := some_text (env "OTEL_EXPORTER_OTLP_ENDPOINT") |};
     cfg_gateways := gateway_names |}.
End BuildConfig.

(** [buildConfigForTest({ ... })]: the overrides, then the Redis URL of the
    process. *)
Definition buildConfigForTest {N} `{!JsNum N} (number : string → N) (integer : N → option Z)
    (read_file : string → option string) (process_env : string → option string)
    (overrides : AppConfig N → AppConfig N) : option (AppConfig N) :=
  c ← buildConfig number integer read_file (λ _, None);
  let c := overrides c in
  Some {| redis_url := default "redis://127.0.0.1:6379" (process_env "REDIS_URL");
          http_port := http_port c; queue := queue c; idempotency := idempotency c;
          rateLimiter := rateLimiter c; circuitBreaker := circuitBreaker c; metrics := metrics c;
          tracing := tracing c; cfg_gateways := cfg_gateways c |}.

Section ConfigProperties.
Context {N : Type} `{!JsNum N}.

(** A string [trim] leaves as it is. *)
Definition trimmed (s : string) : Prop := trim s = s.

Lemma trim_end_cons c s : ∃ r, trim_end (String c s) = r ∧
  (r = "" ∧ white c = true ∧ trim_end s = "" ∨ r = String c (trim_end s) ∧ (trim_end s = "" → white c = false)).
Proof.
  eexists. split; [done|]. cbn. destruct (trim_end s) as [|d t] eqn:Ht; [|by right].
  destruct (white c) eqn:Hw; [by left|by right].
Qed.

Lemma trim_end_idemp s : trim_end (trim_end s) = trim_end s.
Proof.
  induction s as [|c s IH]; [done|]. destruct (trim_end_cons c s) as (r&->&[(->&_&_)|(->&Hw)]); [done|].
  destruct (trim_end_cons c (trim_end s)) as (r&->&[(->&Hc&Ht)|(->&_)]); [|by rewrite IH].
  rewrite IH in Ht. by rewrite Hw in Hc.
Qed.

Lemma trim_start_head s : match trim_start s with String c _ => white c = false | "" => True end.
Proof. induction s as [|c s IH]; [done|]. cbn. destruct (white c) eqn:Hc; done. Qed.

Lemma trim_trimmed s : trimmed (trim s).
Proof.
  unfold trimmed, trim. pose proof (trim_start_head s) as Hh. destruct (trim_start s) as [|c t]; [done|].
  destruct (trim_end_cons c t) as (r&->&[(->&_&_)|(->&Hw)]); [done|]. cbn [trim_start]. rewrite Hh.
  destruct (trim_end_cons c (trim_end t)) as (r&->&[(->&Hc&_)|(->&_)]); [congruence|].
  by rewrite trim_end_idemp.
Qed.

(** The configuration of a process.  Without environment variables it is
    [default_config]; whatever the environment holds, the gateways of a
    configuration are a nonempty list of nonempty names without white space at
    either end. *)
Theorem buildConfig_sound (number : string → N) (integer : N → option Z) (read_file : string → option string)
    (env : string → option string) :
  buildConfig number integer read_file (λ _, None) = Some default_config ∧
  ∀ c, buildConfig number integer read_file env = Some c →
    cfg_gateways c ≠ [] ∧ ∀ g, g ∈ cfg_gateways c → g ≠ "" ∧ trimmed g.
Proof.
  split; [done|]. intros c Hc.
  assert (Hg : cfg_gateways c = gateway_names env).
  { unfold buildConfig in Hc. repeat (apply bind_Some in Hc as (?&_&Hc)). by injection Hc as <-. }
  rewrite Hg. unfold gateway_names. split.
  - by destruct (filter _ _).
  - destruct (filter _ _) as [|g0 gs] eqn:Hf; intros g Hin.
    + assert (Forall (λ g, g ≠ "" ∧ trimmed g) DEFAULT_GATEWAYS) as Hd by (by repeat constructor).
      rewrite Forall_forall in Hd. by apply Hd.
    + rewrite <-Hf in Hin. apply list_elem_of_filter in Hin as [Hne Hin]. split; [done|].
      apply list_elem_of_fmap in Hin as (s&->&_). apply trim_trimmed.
Qed.
End ConfigProperties.

Example redisUrl_ex :
  redisUrl (λ _, None) (λ k, if bool_decide (k = "REDIS_PASSWORD") then Some "p@ss" else None) =
  "redis://:p%40ss@127.0.0.1:6379".
Proof. reflexivity. Qed.
