(* ===== verification/Bull.v ===== *)
(** * The BullMQ calls the source makes

    BullMQ is a library outside the repository: the class [BullMQ] is the
    interface [queue-manager.service.ts] uses, each call typed by its result,
    and [BullLaws] the documented behaviour the source relies on: a job whose id
    is already in the queue is not added again, and no other call changes the
    jobs of a queue.  Processing the jobs is the library's own activity. *)

From S2P Require Import Prelude Num JsValue Payment.

(** An entry of the dead letter queue ([DlqEntry]). *)
Record DlqEntry := {
  dlq_paymentId : string;
  dlq_correlationId : option string;
  dlq_reason : string;
  deadLetteredAt : Z
}.

Inductive job_data :=
  | JobPayment (d : PaymentJobData)
  | JobDlq (e : DlqEntry).

(** The options given to [queue.add]; [backoff] is [(delay, jitter)] of the
    exponential strategy. *)
Record JobsOptions (N : Type) := {
  o_jobId : string;
  o_priority : option Z;
  o_delay : Z;
  o_attempts : Z;
  o_backoff : option (Z * N);
  o_removeOnComplete : bool
}.
Arguments o_jobId {N} _.
Arguments o_priority {N} _.
Arguments o_delay {N} _.
Arguments o_attempts {N} _.
Arguments o_backoff {N} _.
Arguments o_removeOnComplete {N} _.

Record Job (N : Type) := {
  job_name : string;
  job_id : string;
  data : job_data;
  opts : JobsOptions N;
  attemptsMade : Z
}.
Arguments job_name {N} _.
Arguments job_id {N} _.
Arguments data {N} _.
Arguments opts {N} _.
Arguments attemptsMade {N} _.

(** The sets a job can be in; [getJobCounts] answers per set. *)
Inductive job_state := J_waiting | J_prioritized | J_active | J_delayed | J_failed | J_completed.

#[export] Instance job_state_eq_dec : EqDecision job_state.
Proof. solve_decision. Defined.

(** A queue: the key prefix and the name it is created with. *)
Record queue_ref := { q_prefix : string; q_name : string }.

#[export] Instance queue_ref_eq_dec : EqDecision queue_ref.
Proof. solve_decision. Defined.

(** [None] in a count stands for [undefined]. *)
Inductive bull_call (N : Type) : Type → Type :=
  | QueueReady (q : queue_ref) : bull_call N unit
  | QueueAdd (q : queue_ref) (name : string) (d : job_data) (o : JobsOptions N) : bull_call N unit
  | QueuePause (q : queue_ref) : bull_call N unit
  | QueueResume (q : queue_ref) : bull_call N unit
  | QueueCounts (q : queue_ref) (sets : list job_state) : bull_call N (job_state → option Z)
  | QueueJobs (q : queue_ref) (sets : list job_state) (first last : Z) : bull_call N (list (Job N))
  | WorkerStart (q : queue_ref) (concurrency : Z) : bull_call N unit
  | WorkerClose (q : queue_ref) : bull_call N unit
  | QueueClose (q : queue_ref) : bull_call N unit.
Arguments QueueReady {N} _.
Arguments QueueAdd {N} _ _ _ _.
Arguments QueuePause {N} _.
Arguments QueueResume {N} _.
Arguments QueueCounts {N} _ _.
Arguments QueueJobs {N} _ _ _ _.
Arguments WorkerStart {N} _ _.
Arguments WorkerClose {N} _.
Arguments QueueClose {N} _.

(** [bull_exec now c b]: an error message or the result of [c]. *)
Class BullMQ (N B : Type) := bull_exec : ∀ {A}, Z → bull_call N A → B → (string + A) * B.
#[global] Hint Mode BullMQ - ! : typeclass_instances.

Definition new_job {N} (name : string) (d : job_data) (o : JobsOptions N) : Job N :=
  {| job_name := name; job_id := o_jobId o; data := d; opts := o; attemptsMade := 0 |}.

Definition is_add {N A} (c : bull_call N A) : bool :=
  match c with QueueAdd _ _ _ _ => true | _ => false end.

Class BullLaws (N B : Type) `{!BullMQ N B} := {
  bull_jobs : B → queue_ref → list (Job N);
  bull_add now q name d o b b' :
    bull_exec now (QueueAdd q name d o) b = (inr tt, b') →
    (bull_jobs b' q = if bool_decide (o_jobId o ∈ map job_id (bull_jobs b q)) then bull_jobs b q
                      else bull_jobs b q ++ [new_job name d o]) ∧
    ∀ q', q' ≠ q → bull_jobs b' q' = bull_jobs b q';
  bull_other A now (c : bull_call N A) b :
    is_add c = false → ∀ q, bull_jobs (bull_exec now c b).2 q = bull_jobs b q
}.

(** A server without faults or workers, for the examples: the jobs of each
    queue in the order they were added, all of them prioritized. *)
Definition quiet_bull (N : Type) : Type := list (queue_ref * Job N).

Definition quiet_jobs {N} (b : quiet_bull N) (q : queue_ref) : list (Job N) :=
  map snd (filter (λ e : queue_ref * Job N, e.1 = q) (b : list (queue_ref * Job N))).

#[export] Instance quiet_bullmq (N : Type) : BullMQ N (quiet_bull N) := λ A now c,
  match c in bull_call _ A return quiet_bull N → (string + A) * quiet_bull N with
  | QueueAdd q name d o => λ b,
      (inr tt, if bool_decide (o_jobId o ∈ map job_id (quiet_jobs b q)) then b
               else b ++ [(q, new_job name d o)])
  | QueueCounts q sets => λ b,
      (inr (λ s, if bool_decide (s ∈ sets)
                 then Some (if bool_decide (s = J_prioritized)
                            then Z.of_nat (length (quiet_jobs b q)) else 0)
                 else None), b)
  | QueueJobs q _ first last => λ b, (inr (quiet_jobs b q), b)
  | QueueReady _ | QueuePause _ | QueueResume _ | WorkerStart _ _ | WorkerClose _
  | QueueClose _ => λ b, (inr tt, b)
  end.

#[export] Instance quiet_bull_laws (N : Type) : BullLaws N (quiet_bull N).
Proof.
  refine {| bull_jobs := quiet_jobs |}.
  - intros now q name d o b b' [= <-]. case_bool_decide; [done|].
    split; [|intros q' Hq]; unfold quiet_jobs; rewrite filter_app, map_app.
    + by rewrite filter_cons_True, filter_nil.
    + rewrite filter_cons_False, filter_nil by (cbn; congruence). by rewrite app_nil_r.
  - intros A now c b Hc q. by destruct c.
Defined.
