(* ===== verification/World.v ===== *)
(** * The running system

    The state all services of the process share, the outside world they act on,
    and the primitive effects the services are written with.  Everything outside
    the repository is a field of the class [Platform]: the Redis and BullMQ
    servers, the payment gateways, the time that passes between two observations
    of the clock, the connection faults, the JSON texts. *)

From S2P Require Import Prelude Num JsValue Errors Payment TokenBucket CircuitBreaker EventBus.
From S2P Require Import Json Redis Gateway Config Bull.

(** What happens to a Redis command on its way: nothing; it never reaches the
    server; it is executed but its reply is lost.  In the last two cases the
    client throws an error with the given message. *)
Inductive fault_kind := NoFault | LostCommand (message : string) | LostReply (message : string).

Class Platform := {
  num : Type;
  num_js :: JsNum num;
  text : Type;
  record_codec :: JsonCodec text PaymentRecord;
  idempotency_codec :: JsonCodec text IdempotencyRecord;
  event_codec :: JsonCodec text AuditEvent;
  settlement_codec :: JsonCodec text SettlementEntry;
  literal : string → text;
  redis : Type;
  redis_server :: Redis text redis;
  bull : Type;
  bull_server :: BullMQ num bull;
  gws : Type;
  gateway_servers :: PaymentGateway num gws;
  (** milliseconds between observation [i] of the clock and the one before *)
  elapsed : nat → nat;
  (** the fate of the [i]-th Redis command *)
  fault : nat → fault_kind;
  config : AppConfig num
}.

(** The documented behaviour of the services. *)
Class PlatformLaws `{Platform} := {
  record_laws :: JsonCodecLaws text PaymentRecord;
  idempotency_laws :: JsonCodecLaws text IdempotencyRecord;
  event_laws :: JsonCodecLaws text AuditEvent;
  settlement_laws :: JsonCodecLaws text SettlementEntry;
  redis_laws :: RedisLaws text redis;
  bull_laws :: BullLaws num bull;
  gateway_laws :: PaymentGatewayLaws num gws
}.

(** A period in which no Redis command is lost. *)
Definition no_faults `{Platform} : Prop := ∀ i, fault i = NoFault.

(** A call made on a gateway, with its result if it returned one. *)
Inductive gateway_call (N : Type) :=
  | CallCharge (gatewayId : string) (p : Payment) (r : option (GatewayChargeResult N))
  | CallRefund (gatewayId transactionId : string) (r : option (GatewayRefundResult N)).
Arguments CallCharge {N} _ _ _.
Arguments CallRefund {N} _ _ _.

(** The runtime of a gateway in the queue manager: its queue and the number of
    its workers ([src/src/queue/queue-manager.service.ts]). *)
Record GatewayRuntime := { gr_gatewayId : string; queueName : string; workers : nat }.

(** A finished span: its attributes, and whether it ended without an exception. *)
Record span := { span_name : string; span_attributes : list (string * string); span_ok : bool }.

Inductive log_level := L_log | L_warn | L_error.
Record log_line := { level : log_level; log_message : string; log_context : string }.

Section World.
Context `{Platform}.

(** [w_calls], [w_events], [w_spans] and [w_logs] only record what happened. *)
Record world := {
  w_rt : runtime;
  w_redis : redis;
  w_cmds : nat;
  w_bull : bull;
  w_gws : gws;
  w_calls : list (gateway_call num);
  w_buckets : gmap string (AdaptiveTokenBucket num);
  w_breakers : gmap string (CircuitBreaker num);
  w_runtimes : list (string * GatewayRuntime);
  w_dlq : bool;
  w_events : list (AppEvent num);
  w_spans : list span;
  w_logs : list log_line;
  w_corr : option string
}.

Definition set_w_rt (v : runtime) (w : world) : world :=
  {| w_rt := v; w_redis := w_redis w; w_cmds := w_cmds w; w_bull := w_bull w; w_gws := w_gws w;
     w_calls := w_calls w; w_buckets := w_buckets w; w_breakers := w_breakers w; w_runtimes :=
     w_runtimes w; w_dlq := w_dlq w; w_events := w_events w; w_spans := w_spans w; w_logs := w_logs
     w; w_corr := w_corr w |}.
Definition set_w_redis (v : redis) (w : world) : world :=
  {| w_rt := w_rt w; w_redis := v; w_cmds := w_cmds w; w_bull := w_bull w; w_gws := w_gws w;
     w_calls := w_calls w; w_buckets := w_buckets w; w_breakers := w_breakers w; w_runtimes :=
     w_runtimes w; w_dlq := w_dlq w; w_events := w_events w; w_spans := w_spans w; w_logs := w_logs
     w; w_corr := w_corr w |}.
Definition set_w_cmds (v : nat) (w : world) : world :=
  {| w_rt := w_rt w; w_redis := w_redis w; w_cmds := v; w_bull := w_bull w; w_gws := w_gws w;
     w_calls := w_calls w; w_buckets := w_buckets w; w_breakers := w_breakers w; w_runtimes :=
     w_runtimes w; w_dlq := w_dlq w; w_events := w_events w; w_spans := w_spans w; w_logs := w_logs
     w; w_corr := w_corr w |}.
Definition set_w_bull (v : bull) (w : world) : world :=
  {| w_rt := w_rt w; w_redis := w_redis w; w_cmds := w_cmds w; w_bull := v; w_gws := w_gws w;
     w_calls := w_calls w; w_buckets := w_buckets w; w_breakers := w_breakers w; w_runtimes :=
     w_runtimes w; w_dlq := w_dlq w; w_events := w_events w; w_spans := w_spans w; w_logs := w_logs
     w; w_corr := w_corr w |}.
Definition set_w_gws (v : gws) (w : world) : world :=
  {| w_rt := w_rt w; w_redis := w_redis w; w_cmds := w_cmds w; w_bull := w_bull w; w_gws := v;
     w_calls := w_calls w; w_buckets := w_buckets w; w_breakers := w_breakers w; w_runtimes :=
     w_runtimes w; w_dlq := w_dlq w; w_events := w_events w; w_spans := w_spans w; w_logs := w_logs
     w; w_corr := w_corr w |}.
Definition set_w_calls (v : list (gateway_call num)) (w : world) : world :=
  {| w_rt := w_rt w; w_redis := w_redis w; w_cmds := w_cmds w; w_bull := w_bull w; w_gws := w_gws
     w; w_calls := v; w_buckets := w_buckets w; w_breakers := w_breakers w; w_runtimes :=
     w_runtimes w; w_dlq := w_dlq w; w_events := w_events w; w_spans := w_spans w; w_logs := w_logs
     w; w_corr := w_corr w |}.
Definition set_w_buckets (v : gmap string (AdaptiveTokenBucket num)) (w : world) : world :=
  {| w_rt := w_rt w; w_redis := w_redis w; w_cmds := w_cmds w; w_bull := w_bull w; w_gws := w_gws
     w; w_calls := w_calls w; w_buckets := v; w_breakers := w_breakers w; w_runtimes := w_runtimes
     w; w_dlq := w_dlq w; w_events := w_events w; w_spans := w_spans w; w_logs := w_logs w; w_corr
     := w_corr w |}.
Definition set_w_breakers (v : gmap string (CircuitBreaker num)) (w : world) : world :=
  {| w_rt := w_rt w; w_redis := w_redis w; w_cmds := w_cmds w; w_bull := w_bull w; w_gws := w_gws
     w; w_calls := w_calls w; w_buckets := w_buckets w; w_breakers := v; w_runtimes := w_runtimes
     w; w_dlq := w_dlq w; w_events := w_events w; w_spans := w_spans w; w_logs := w_logs w; w_corr
     := w_corr w |}.
Definition set_w_runtimes (v : list (string * GatewayRuntime)) (w : world) : world :=
  {| w_rt := w_rt w; w_redis := w_redis w; w_cmds := w_cmds w; w_bull := w_bull w; w_gws := w_gws
     w; w_calls := w_calls w; w_buckets := w_buckets w; w_breakers := w_breakers w; w_runtimes :=
     v; w_dlq := w_dlq w; w_events := w_events w; w_spans := w_spans w; w_logs := w_logs w; w_corr
     := w_corr w |}.
Definition set_w_dlq (v : bool) (w : world) : world :=
  {| w_rt := w_rt w; w_redis := w_redis w; w_cmds := w_cmds w; w_bull := w_bull w; w_gws := w_gws
     w; w_calls := w_calls w; w_buckets := w_buckets w; w_breakers := w_breakers w; w_runtimes :=
     w_runtimes w; w_dlq := v; w_events := w_events w; w_spans := w_spans w; w_logs := w_logs w;
     w_corr := w_corr w |}.
Definition set_w_events (v : list (AppEvent num)) (w : world) : world :=
  {| w_rt := w_rt w; w_redis := w_redis w; w_cmds := w_cmds w; w_bull := w_bull w; w_gws := w_gws
     w; w_calls := w_calls w; w_buckets := w_buckets w; w_breakers := w_breakers w; w_runtimes :=
     w_runtimes w; w_dlq := w_dlq w; w_events := v; w_spans := w_spans w; w_logs := w_logs w;
     w_corr := w_corr w |}.
Definition set_w_spans (v : list span) (w : world) : world :=
  {| w_rt := w_rt w; w_redis := w_redis w; w_cmds := w_cmds w; w_bull := w_bull w; w_gws := w_gws
     w; w_calls := w_calls w; w_buckets := w_buckets w; w_breakers := w_breakers w; w_runtimes :=
     w_runtimes w; w_dlq := w_dlq w; w_events := w_events w; w_spans := v; w_logs := w_logs w;
     w_corr := w_corr w |}.
Definition set_w_logs (v : list log_line) (w : world) : world :=
  {| w_rt := w_rt w; w_redis := w_redis w; w_cmds := w_cmds w; w_bull := w_bull w; w_gws := w_gws
     w; w_calls := w_calls w; w_buckets := w_buckets w; w_breakers := w_breakers w; w_runtimes :=
     w_runtimes w; w_dlq := w_dlq w; w_events := w_events w; w_spans := w_spans w; w_logs := v;
     w_corr := w_corr w |}.
Definition set_w_corr (v : option string) (w : world) : world :=
  {| w_rt := w_rt w; w_redis := w_redis w; w_cmds := w_cmds w; w_bull := w_bull w; w_gws := w_gws
     w; w_calls := w_calls w; w_buckets := w_buckets w; w_breakers := w_breakers w; w_runtimes :=
     w_runtimes w; w_dlq := w_dlq w; w_events := w_events w; w_spans := w_spans w; w_logs := w_logs
     w; w_corr := v |}.
End World.
#[global] Arguments world {_}.

(** ** Primitive effects *)
Section Effects.
Context `{Platform}.

(** [Date.now()], and [new Date().toISOString()] as a time. *)
Definition date_now : M exn world Z := λ w,
  let '(t, rt) := read_clock elapsed (w_rt w) in (Ok t, set_w_rt rt w).

(** [await redis.command(...)] *)
Definition redis_cmd {A} (c : command text A) : M exn world A := λ w,
  let '(now, rt) := read_clock elapsed (w_rt w) in
  let w1 := set_w_cmds (S (w_cmds w)) (set_w_rt rt w) in
  match fault (w_cmds w) with
  | LostCommand m => (Throw (EError m), w1)
  | LostReply m => (Throw (EError m), set_w_redis (exec now c (w_redis w)).2 w1)
  | NoFault =>
      match exec now c (w_redis w) with
      | (inl m, s) => (Throw (EError m), set_w_redis s w1)
      | (inr a, s) => (Ok a, set_w_redis s w1)
      end
  end.

(** A call of the BullMQ library. *)
Definition bull_do {A} (c : bull_call num A) : M exn world A := λ w,
  let '(now, rt) := read_clock elapsed (w_rt w) in
  match bull_exec now c (w_bull w) with
  | (inl m, b) => (Throw (EError m), set_w_bull b (set_w_rt rt w))
  | (inr a, b) => (Ok a, set_w_bull b (set_w_rt rt w))
  end.

Definition completed {A} (r : outcome exn A) : option A :=
  match r with Ok a => Some a | _ => None end.

(** [gateways.get(gatewayId).charge(payment, { correlationId })] *)
Definition gateway_charge (gatewayId : string) (p : Payment) (correlationId : option string)
    : M exn world (GatewayChargeResult num) := λ w,
  let '(r, (rt, g)) := gw_charge gatewayId p correlationId (w_rt w, w_gws w) in
  (r, set_w_calls (w_calls w ++ [CallCharge gatewayId p (completed r)]) (set_w_gws g (set_w_rt rt w))).

Definition gateway_refund (gatewayId transactionId : string)
    : M exn world (GatewayRefundResult num) := λ w,
  let '(r, (rt, g)) := gw_refund gatewayId transactionId (w_rt w, w_gws w) in
  (r, set_w_calls (w_calls w ++ [CallRefund gatewayId transactionId (completed r)])
        (set_w_gws g (set_w_rt rt w))).

(** [events.emit(event)]: delivery cannot fail (theorem [emit_delivers]). *)
Definition emit_event (e : AppEvent num) : M exn world unit :=
  modify (λ w, set_w_events (w_events w ++ [e]) w).

(** [correlation.current()] and [correlation.enter(id, fn)]: the store of the
    async context is visible inside [fn] only. *)
Definition correlation_current : M exn world (option string) := gets w_corr.

Definition correlation_enter {A} (correlationId : string) (fn : M exn world A) : M exn world A := λ w,
  let '(r, w') := fn (set_w_corr (Some correlationId) w) in (r, set_w_corr (w_corr w) w').

(** ** [TraceLogger] ([src/src/common/trace-logger.ts]) *)
Definition trace_format (message : string) (correlationId : option string) : string :=
  match correlationId with
  | Some c => if truthy (Some c) then "[corr:" +:+ c +:+ "] " +:+ message else message
  | None => message
  end.

Definition trace_log (level : log_level) (message context : string) : M exn world unit :=
  correlationId ← correlation_current;
  modify (λ w, set_w_logs (w_logs w ++ [{| level := level;
    log_message := trace_format message correlationId; log_context := context |}]) w).

(** ** [TracingService.withSpan] ([src/src/tracing/tracing.service.ts]) *)

(** [cleanAttributes]: undefined attributes are dropped. *)
Definition cleanAttributes (attributes : list (string * option string)) : list (string * string) :=
  omap (λ kv, match kv.2 with Some v => Some (kv.1, v) | None => None end) attributes.

Definition end_span (name : string) (attributes : list (string * option string)) (ok : bool)
    (w : world) : world :=
  set_w_spans (w_spans w ++ [{| span_name := name; span_attributes := cleanAttributes attributes;
                                span_ok := ok |}]) w.
End Effects.

(** States that contain the world: a span may be opened in any of them. *)
Class HasWorld `{Platform} (S : Type) := on_world : (world → world) → S → S.

Section Spans.
Context `{Platform}.

#[global] Instance world_has_world : HasWorld world := λ f, f.
#[global] Instance pair_has_world {A} : HasWorld (world * A) := λ f s, (f s.1, s.2).

(** The span ends after [fn], with the status its completion gives. *)
Definition withSpan {S} `{!HasWorld S} {A} (name : string)
    (attributes : list (string * option string)) (fn : M exn S A) : M exn S A := λ s,
  match fn s with
  | (Ok a, s') => (Ok a, on_world (end_span name attributes true) s')
  | (Throw e, s') => (Throw e, on_world (end_span name attributes false) s')
  | (Diverged, s') => (Diverged, s')
  end.

(** [SPAN_NAMES] *)
Definition SPAN_PROCESS : string := "payment.process".
Definition SPAN_ENQUEUE : string := "payment.enqueue".
Definition SPAN_RESERVE : string := "payment.saga.reserve".
Definition SPAN_CHARGE : string := "payment.saga.charge".
Definition SPAN_SETTLE : string := "payment.saga.settle".
Definition SPAN_COMPENSATION : string := "payment.saga.compensation".
Definition SPAN_DLQ : string := "payment.dead_letter".
End Spans.

(** ** The tracing runtime ([ensureRuntime], [listSpans])

    The SDK is registered once per process; its exporter keeps the spans in memory
    unless an OTLP endpoint is configured. *)
Record OtelRuntime := { tracer_name : string; in_memory : bool }.

Definition ensureRuntime (runtime : option OtelRuntime) (service : string) (endpoint : option string)
    : OtelRuntime :=
  match runtime with
  | Some r => r
  | None => {| tracer_name := service;
               in_memory := match endpoint with Some "" | None => true | Some _ => false end |}
  end.

(** [String(span.status.code)] of a finished span. *)
Definition status_code (s : span) : string := if span_ok s then "1" else "2".

Definition listSpans `{Platform} (otel : OtelRuntime)
    : M exn world (list (string * list (string * string) * string)) :=
  if in_memory otel
  then gets (λ w, map (λ s, (span_name s, span_attributes s, status_code s)) (w_spans w))
  else mret [].

(** ** What the primitives leave alone

    [keeps f]: the part [f] of the state is unchanged; [extends f]: the list [f]
    only grew. *)
Definition keeps {S X} (f : S → X) : relation S := λ s s', f s' = f s.
Definition extends {S X} (f : S → list X) : relation S := λ s s', f s `prefix_of` f s'.

#[export] Instance keeps_preorder {S X} (f : S → X) : PreOrder (keeps f).
Proof. split; [done|]. intros x y z Hxy Hyz. unfold keeps in *. congruence. Qed.
#[export] Instance extends_preorder {S X} (f : S → list X) : PreOrder (extends f).
Proof. split; [intros x; unfold extends; done|]. intros x y z Hxy Hyz. unfold extends in *. by etrans. Qed.

#[global] Typeclasses Opaque keeps extends date_now redis_cmd bull_do gateway_charge gateway_refund
  emit_event trace_log correlation_current withSpan correlation_enter.

(** Decides a frame property of a primitive effect by running it. *)
Ltac solve_frame :=
  let s := fresh "s" in
  intros s;
  unfold keeps, extends, date_now, redis_cmd, bull_do, gateway_charge, gateway_refund, emit_event,
    trace_log, mbind, M_bind, correlation_current, gets, modify, end_span;
  cbn [fst snd]; repeat (case_match; cbn [fst snd]); subst; cbn; simplify_eq/=;
  first [reflexivity | by apply prefix_app_r].

#[export] Hint Extern 1 (Respects _ date_now) => solve_frame : typeclass_instances.
#[export] Hint Extern 1 (Respects _ (redis_cmd _)) => solve_frame : typeclass_instances.
#[export] Hint Extern 1 (Respects _ (bull_do _)) => solve_frame : typeclass_instances.
#[export] Hint Extern 1 (Respects _ (gateway_charge _ _ _)) => solve_frame : typeclass_instances.
#[export] Hint Extern 1 (Respects _ (gateway_refund _ _)) => solve_frame : typeclass_instances.
#[export] Hint Extern 1 (Respects _ (emit_event _)) => solve_frame : typeclass_instances.
#[export] Hint Extern 1 (Respects _ correlation_current) => solve_frame : typeclass_instances.
#[export] Hint Extern 1 (Respects _ (trace_log _ _ _)) => solve_frame : typeclass_instances.

Section Frames.
Context `{Platform}.

(** Ending a span is not observed by [R]. *)
Class SpanSilent {S} `{!HasWorld S} (R : relation S) : Prop :=
  span_silent name attrs ok s : R s (on_world (end_span name attrs ok) s).

Lemma respects_withSpan {S} `{!HasWorld S} {A} (R : relation S) `{!PreOrder R}
    `{!SpanSilent R} name attrs (fn : M exn S A) :
  Respects R fn → Respects R (withSpan name attrs fn).
Proof.
  intros Hfn s. unfold withSpan. specialize (Hfn s).
  destruct (fn s) as [[a|e|] s']; cbn in *; try done; etrans; try done; apply span_silent.
Qed.

#[global] Instance on_fst_span_silent {A} (R : relation world) :
  SpanSilent R → SpanSilent (on_fst (B := A) R).
Proof. intros HR name attrs ok s. apply HR. Qed.

#[global] Instance on_snd_span_silent {A} (R : relation A) `{!PreOrder R} :
  SpanSilent (on_snd (A := world) R).
Proof. intros name attrs ok s. unfold on_snd. cbn. reflexivity. Qed.

Lemma halts_withSpan {S} `{!HasWorld S} {A} name attrs (fn : M exn S A) :
  Halts fn → Halts (withSpan name attrs fn).
Proof. intros Hfn s. unfold withSpan. specialize (Hfn s). by destruct (fn s) as [[] ?]. Qed.

#[global] Instance halts_date_now : Halts date_now.
Proof. done. Qed.
#[global] Instance halts_redis_cmd {A} (c : command text A) : Halts (redis_cmd c).
Proof. intros s. unfold redis_cmd. destruct (read_clock _ _). repeat case_match; done. Qed.
#[global] Instance halts_bull_do {A} (c : bull_call num A) : Halts (bull_do c).
Proof. intros s. unfold bull_do. destruct (read_clock _ _). repeat case_match; done. Qed.
#[global] Instance halts_emit_event e : Halts (emit_event e).
Proof. done. Qed.
#[global] Instance halts_trace_log l m c : Halts (trace_log l m c).
Proof. done. Qed.

(** Whatever a span does, its function completes the same way. *)
Lemma withSpan_outcome {S} `{!HasWorld S} {A} name attrs (fn : M exn S A) s :
  (withSpan name attrs fn s).1 = (fn s).1.
Proof. unfold withSpan. by destruct (fn s) as [[] ?]. Qed.

Lemma wp_withSpan {S} `{!HasWorld S} {A} name attrs (fn : M exn S A) (Q : outcome exn A → S → Prop) s :
  wp (withSpan name attrs fn) Q s ↔
  wp fn (λ r s', match r with
                 | Ok _ => Q r (on_world (end_span name attrs true) s')
                 | Throw _ => Q r (on_world (end_span name attrs false) s')
                 | Diverged => Q r s'
                 end) s.
Proof. unfold wp, withSpan. by destruct (fn s) as [[] ?]. Qed.

Lemma wp_date_now (Q : outcome exn Z → world → Prop) w :
  (∀ rt, rt_now (w_rt w) ≤ rt_now rt → Q (Ok (rt_now rt)) (set_w_rt rt w)) → wp date_now Q w.
Proof.
  intros HQ. unfold wp, date_now. pose proof (read_clock_mono elapsed (w_rt w)) as Hle.
  pose proof (read_clock_time elapsed (w_rt w)) as Ht.
  destruct (read_clock elapsed (w_rt w)) as [t rt]. cbn in *. subst t. by apply HQ.
Qed.

End Frames.
#[export] Hint Extern 1 (SpanSilent (keeps _)) => (intros ? ? ? ?; reflexivity) : typeclass_instances.
#[export] Hint Extern 1 (SpanSilent (extends _)) =>
  (intros ? ? ? ?; unfold extends; reflexivity) : typeclass_instances.

(** Time only moves forward. *)
Section Time.
Context `{Platform}.

Definition elapses : relation world := λ w w', rt_now (w_rt w) ≤ rt_now (w_rt w').

#[global] Instance elapses_preorder : PreOrder elapses.
Proof. split; [intros w; apply Z.le_refl|]. intros x y z. unfold elapses. lia. Qed.

#[global] Instance keeps_elapses {A} (m : M exn world A) :
  Respects (keeps w_rt) m → Respects elapses m | 50.
Proof. apply respects_mono. unfold keeps, elapses. intros s s' ->. apply Z.le_refl. Qed.

#[global] Instance date_now_elapses : Respects elapses date_now.
Proof.
  intros w. unfold elapses, date_now. pose proof (read_clock_mono elapsed (w_rt w)) as Hle.
  by destruct (read_clock elapsed (w_rt w)).
Qed.

#[global] Instance redis_cmd_elapses {A} (c : command text A) : Respects elapses (redis_cmd c).
Proof.
  intros w. unfold elapses, redis_cmd. pose proof (read_clock_mono elapsed (w_rt w)) as Hle.
  destruct (read_clock elapsed (w_rt w)) as [now rt]. destruct (fault (w_cmds w)); [|done..].
  by destruct (exec now c (w_redis w)) as [[m|a] s].
Qed.

#[global] Instance bull_do_elapses {A} (c : bull_call num A) : Respects elapses (bull_do c).
Proof.
  intros w. unfold elapses, bull_do. pose proof (read_clock_mono elapsed (w_rt w)) as Hle.
  destruct (read_clock elapsed (w_rt w)) as [now rt].
  by destruct (bull_exec now c (w_bull w)) as [[m|a] s].
Qed.

#[global] Instance elapses_silent : SpanSilent elapses.
Proof. intros name attrs ok s. apply Z.le_refl. Qed.
End Time.
#[global] Typeclasses Opaque elapses.

(** Under the tactic [frame] a span is one more construct. *)
Ltac frame_span :=
  match goal with
  | |- SpanSilent _ => apply _
  | |- Respects _ (withSpan _ _ _) => apply respects_withSpan
  | |- Halts (withSpan _ _ _) => apply halts_withSpan
  end.
Ltac frame_hook ::= frame_span.
