(* ===== verification/Registries.v ===== *)
(** * Per-gateway registries ([src/src/gateway/rate-limiter.registry.ts],
      [src/src/gateway/circuit-breaker.registry.ts])

    One token bucket and one circuit breaker per gateway, created on first use
    from the configuration.  A reference to a bucket or a breaker is the id of its
    gateway: a registry never replaces an object it has handed out. *)

From S2P Require Import Prelude Num JsValue Errors Payment TokenBucket CircuitBreaker EventBus.
From S2P Require Import Config World.

(** [Partial<TokenBucketParams>], [Partial<CircuitBreakerParams>]: [None] for an
    absent property. *)
Record PartialBucketParams (N : Type) := {
  pb_nominalRps : option N;
  pb_burstFactor : option N;
  pb_minRateFactor : option N;
  pb_aiStepRps : option N;
  pb_tokenWaitMs : option Z
}.
Arguments pb_nominalRps {N} _.
Arguments pb_burstFactor {N} _.
Arguments pb_minRateFactor {N} _.
Arguments pb_aiStepRps {N} _.
Arguments pb_tokenWaitMs {N} _.

Record PartialBreakerParams (N : Type) := {
  pc_windowMs : option Z;
  pc_failureThreshold : option N;
  pc_minSamples : option Z;
  pc_cooldownMs : option Z
}.
Arguments pc_windowMs {N} _.
Arguments pc_failureThreshold {N} _.
Arguments pc_minSamples {N} _.
Arguments pc_cooldownMs {N} _.

Section RateLimiterRegistry.
Context `{Platform}.
Implicit Types (b : AdaptiveTokenBucket num).

(** [paramsFor]: the same for every gateway. *)
Definition bucket_paramsFor : TokenBucketParams num :=
  let rl := rateLimiter config in
  {| nominalRps := rlc_nominalRps rl; burstFactor := rlc_burstFactor rl;
     minRateFactor := rlc_minRateFactor rl; aiStepRps := rlc_aiStepRps rl;
     tokenWaitMs := rlc_tokenWaitMs rl |}.

(** [{ ...params, ...partial }] *)
Definition merge_bucket_params (p : TokenBucketParams num) (q : PartialBucketParams num)
    : TokenBucketParams num :=
  {| nominalRps := default (nominalRps p) (pb_nominalRps q);
     burstFactor := default (burstFactor p) (pb_burstFactor q);
     minRateFactor := default (minRateFactor p) (pb_minRateFactor q);
     aiStepRps := default (aiStepRps p) (pb_aiStepRps q);
     tokenWaitMs := default (tokenWaitMs p) (pb_tokenWaitMs q) |}.

Definition put_bucket (gatewayId : string) b : M exn world unit :=
  modify (λ w, set_w_buckets (<[gatewayId := b]> (w_buckets w)) w).

Definition createBucket (gatewayId : string) (p : TokenBucketParams num)
    : M exn world (AdaptiveTokenBucket num) :=
  now ← date_now;
  let b := new_bucket p now in
  put_bucket gatewayId b;; mret b.

Definition rl_get (gatewayId : string) : M exn world (AdaptiveTokenBucket num) :=
  found ← gets (λ w, w_buckets w !! gatewayId);
  match found with
  | Some b => mret b
  | None => createBucket gatewayId bucket_paramsFor
  end.

(** A method call on the bucket of a gateway. *)
Definition with_bucket {A} (gatewayId : string) (f : AdaptiveTokenBucket num → A * AdaptiveTokenBucket num)
    : M exn world A :=
  b ← rl_get gatewayId;
  put_bucket gatewayId (f b).2;; mret (f b).1.

(** [bucket.waitForToken(timeoutMs)], with the clock of the process. *)
Definition wait_on (gatewayId : string) (timeoutMs : Z) b : M exn world bool := λ w,
  let '(r, rt, b') := waitForToken elapsed timeoutMs (w_rt w) b in
  let w' := set_w_buckets (<[gatewayId := b']> (w_buckets w)) (set_w_rt rt w) in
  match r with
  | Some granted => (Ok granted, w')
  | None => (Diverged, w')
  end.

Definition bucket_waitForToken (gatewayId : string) (timeoutMs : Z) : M exn world bool :=
  b ← rl_get gatewayId;
  wait_on gatewayId timeoutMs b.

(** [bucket.onThrottled()], with the callback the registry installs. *)
Definition bucket_onThrottled (gatewayId : string) : M exn world unit :=
  with_bucket gatewayId (λ b, (tt, onThrottled b));;
  at' ← date_now;
  emit_event (EvThrottled gatewayId at').

Definition bucket_onSuccess (gatewayId : string) : M exn world unit :=
  with_bucket gatewayId (λ b, (tt, onSuccess b)).

Definition bucket_getState (gatewayId : string) : M exn world (TokenBucketState num) :=
  rl_get gatewayId;;
  now ← date_now;
  with_bucket gatewayId (getState now).

Definition rl_configure (gatewayId : string) (partial : PartialBucketParams num) : M exn world unit :=
  found ← gets (λ w, w_buckets w !! gatewayId);
  let p := merge_bucket_params bucket_paramsFor partial in
  match found with
  | Some b => put_bucket gatewayId (reconfigure b p)
  | None => createBucket gatewayId p;; mret tt
  end.

Definition rl_resetAll : M exn world unit :=
  modify (λ w, set_w_buckets ((λ b, reconfigure b bucket_paramsFor) <$> w_buckets w) w).
End RateLimiterRegistry.

Section CircuitBreakerRegistry.
Context `{Platform}.
Implicit Types (k : CircuitBreaker num).

Definition breaker_paramsFor : CircuitBreakerParams num :=
  let cb := circuitBreaker config in
  {| windowMs := cbc_windowMs cb; failureThreshold := cbc_failureThreshold cb;
     minSamples := cbc_minSamples cb; cooldownMs := cbc_cooldownMs cb |}.

Definition merge_breaker_params (p : CircuitBreakerParams num) (q : PartialBreakerParams num)
    : CircuitBreakerParams num :=
  {| windowMs := default (windowMs p) (pc_windowMs q);
     failureThreshold := default (failureThreshold p) (pc_failureThreshold q);
     minSamples := default (minSamples p) (pc_minSamples q);
     cooldownMs := default (cooldownMs p) (pc_cooldownMs q) |}.

Definition put_breaker (gatewayId : string) k : M exn world unit :=
  modify (λ w, set_w_breakers (<[gatewayId := k]> (w_breakers w)) w).

Definition br_get (gatewayId : string) : M exn world (CircuitBreaker num) :=
  found ← gets (λ w, w_breakers w !! gatewayId);
  match found with
  | Some k => mret k
  | None =>
      let k := new_breaker breaker_paramsFor in
      put_breaker gatewayId k;; mret k
  end.

Definition with_breaker {A} (gatewayId : string) (f : Z → CircuitBreaker num → A * CircuitBreaker num)
    : M exn world A :=
  k ← br_get gatewayId;
  now ← date_now;
  put_breaker gatewayId (f now k).2;; mret (f now k).1.

Definition breaker_allowCall (gatewayId : string) : M exn world (bool * CircuitBreakerState) :=
  with_breaker gatewayId allowCall.

(** The callbacks of the registry turn state changes into events. *)
Fixpoint breaker_callbacks (gatewayId : string) (fired : list breaker_callback) : M exn world unit :=
  match fired with
  | [] => mret tt
  | c :: fired =>
      at' ← date_now;
      emit_event (EvCircuit match c with onOpened => true | onClosed => false end gatewayId at');;
      breaker_callbacks gatewayId fired
  end.

Definition breaker_recordOutcome (gatewayId : string) (ok : bool) : M exn world unit :=
  fired ← with_breaker gatewayId (λ now k, recordOutcome now ok k);
  breaker_callbacks gatewayId fired.

Definition breaker_getState (gatewayId : string) : M exn world (CircuitBreakerSnapshot num) :=
  with_breaker gatewayId cb_getState.

Definition br_configure (gatewayId : string) (partial : PartialBreakerParams num) : M exn world unit :=
  found ← gets (λ w, w_breakers w !! gatewayId);
  let p := merge_breaker_params breaker_paramsFor partial in
  match found with
  | Some k => put_breaker gatewayId (cb_reconfigure k p)
  | None => put_breaker gatewayId (new_breaker p)
  end.

Definition br_reset (gatewayId : string) : M exn world unit :=
  modify (λ w, set_w_breakers (alter cb_reset gatewayId (w_breakers w)) w).

Definition br_resetAll : M exn world unit :=
  modify (λ w, set_w_breakers (cb_reset <$> w_breakers w) w).
End CircuitBreakerRegistry.

(** ** Rules for the methods

    The bucket (the breaker) a registry gives for a gateway: the one it holds, or
    a new one. *)
Section Rules.
Context `{Platform}.

Definition bucket_of (w : world) (gatewayId : string) (b : AdaptiveTokenBucket num) : Prop :=
  w_buckets w !! gatewayId = Some b ∨
  w_buckets w !! gatewayId = None ∧ ∃ now, rt_now (w_rt w) ≤ now ∧ b = new_bucket bucket_paramsFor now.

Definition breaker_of (w : world) (gatewayId : string) : CircuitBreaker num :=
  default (new_breaker breaker_paramsFor) (w_breakers w !! gatewayId).

Lemma set_w_buckets_same w : set_w_buckets (w_buckets w) w = w.
Proof. by destruct w. Qed.
Lemma set_w_breakers_same w : set_w_breakers (w_breakers w) w = w.
Proof. by destruct w. Qed.
Lemma set_w_rt_same w : set_w_rt (w_rt w) w = w.
Proof. by destruct w. Qed.

Lemma wp_rl_get id (Q : outcome exn (AdaptiveTokenBucket num) → world → Prop) w :
  (∀ b rt, bucket_of w id b → rt_now (w_rt w) ≤ rt_now rt →
    Q (Ok b) (set_w_buckets (<[id := b]> (w_buckets w)) (set_w_rt rt w))) →
  wp (rl_get id) Q w.
Proof.
  intros HQ. unfold rl_get. rewrite wp_bind, wp_gets.
  destruct (w_buckets w !! id) as [b|] eqn:Hb.
  - rewrite wp_ret. specialize (HQ b (w_rt w) (or_introl Hb) (Z.le_refl _)).
    by rewrite set_w_rt_same, insert_id, set_w_buckets_same in HQ.
  - unfold createBucket. rewrite wp_bind. apply wp_date_now. intros rt Hrt.
    apply HQ; [|done]. right. eauto.
Qed.

Lemma wp_with_bucket {A} id f (Q : outcome exn A → world → Prop) w :
  (∀ b rt, bucket_of w id b → rt_now (w_rt w) ≤ rt_now rt →
    Q (Ok (f b).1) (set_w_buckets (<[id := (f b).2]> (w_buckets w)) (set_w_rt rt w))) →
  wp (with_bucket id f) Q w.
Proof.
  intros HQ. unfold with_bucket. rewrite wp_bind. apply wp_rl_get. intros b rt Hb Hrt.
  specialize (HQ b rt Hb Hrt). rewrite <-(insert_insert_eq _ _ (f b).2 b) in HQ. exact HQ.
Qed.

Lemma wp_waitForToken id timeoutMs (Q : outcome exn bool → world → Prop) w :
  (∀ (b b' : AdaptiveTokenBucket num) rt (granted : bool), bucket_of w id b → rt_now (w_rt w) ≤ rt_now rt →
    (if granted then ∃ now b0, tryAcquire now b0 = (true, b')
     else rt_now (w_rt w) + timeoutMs ≤ rt_now rt ∧ nle (nof 1) (tokens b') = false) →
    Q (Ok granted) (set_w_buckets (<[id := b']> (w_buckets w)) (set_w_rt rt w))) →
  wp (bucket_waitForToken id timeoutMs) Q w.
Proof.
  intros HQ. unfold bucket_waitForToken. rewrite wp_bind. apply wp_rl_get. intros b rt Hb Hrt.
  unfold wp, wait_on. cbn [w_rt w_buckets set_w_buckets set_w_rt].
  pose proof (waitForToken_post elapsed timeoutMs rt b) as Hpost.
  pose proof (waitForToken_mono elapsed timeoutMs rt b) as Hmono.
  destruct (waitForToken elapsed timeoutMs rt b) as [[[granted|] rt'] b']; [|done].
  cbn in Hpost, Hmono. specialize (HQ b b' rt' granted Hb ltac:(lia)).
  rewrite <-(insert_insert_eq _ _ b' b) in HQ. apply HQ.
  destruct granted; [|split; [lia|tauto]]. destruct Hpost as (now&b0&_&?). by exists now, b0.
Qed.

Lemma wp_with_breaker {A} id f (Q : outcome exn A → world → Prop) w :
  (∀ rt, rt_now (w_rt w) ≤ rt_now rt →
    Q (Ok (f (rt_now rt) (breaker_of w id)).1)
      (set_w_breakers (<[id := (f (rt_now rt) (breaker_of w id)).2]> (w_breakers w)) (set_w_rt rt w))) →
  wp (with_breaker id f) Q w.
Proof.
  intros HQ. unfold with_breaker, br_get, breaker_of in *. rewrite !wp_bind, wp_gets.
  destruct (w_breakers w !! id) as [k|] eqn:Hk; cbn in HQ.
  - rewrite wp_ret, wp_bind. apply wp_date_now. intros rt Hrt. rewrite wp_bind.
    unfold put_breaker. rewrite wp_modify, wp_ret. by apply HQ.
  - rewrite wp_bind. unfold put_breaker. rewrite wp_modify, wp_ret, wp_bind. apply wp_date_now. cbn.
    intros rt Hrt. rewrite wp_bind, wp_modify, wp_ret. cbn.
    specialize (HQ rt Hrt). 
    rewrite <-(insert_insert_eq _ _ _ (new_breaker breaker_paramsFor)) in HQ. exact HQ.
Qed.

Lemma wp_breaker_recordOutcome id ok (Q : outcome exn unit → world → Prop) w :
  (∀ rt rt' evs, rt_now (w_rt w) ≤ rt_now rt → rt_now rt ≤ rt_now rt' →
    Q (Ok tt) (set_w_events (w_events w ++ evs) (set_w_rt rt'
      (set_w_breakers (<[id := (recordOutcome (rt_now rt) ok (breaker_of w id)).2]> (w_breakers w)) w)))) →
  wp (breaker_recordOutcome id ok) Q w.
Proof.
  intros HQ. unfold breaker_recordOutcome. rewrite wp_bind. apply wp_with_breaker. intros rt Hrt.
  set (k' := (recordOutcome _ ok (breaker_of w id)).2) in *.
  assert (Hcb : ∀ fired evs rt', rt_now rt ≤ rt_now rt' →
    wp (breaker_callbacks id fired) Q (set_w_events (w_events w ++ evs) (set_w_rt rt'
      (set_w_breakers (<[id := k']> (w_breakers w)) w)))).
  { induction fired as [|c fired IH]; intros evs rt' Hle; cbn; [by rewrite wp_ret; apply HQ|].
    rewrite wp_bind. apply wp_date_now. intros rt2 Hrt2. rewrite wp_bind. unfold emit_event.
    rewrite wp_modify. cbn. rewrite <-app_assoc. apply (IH _ rt2). cbn in Hrt2. lia. }
  specialize (Hcb (recordOutcome (rt_now rt) ok (breaker_of w id)).1 [] rt (Z.le_refl _)).
  by rewrite app_nil_r in Hcb.
Qed.
End Rules.
