(* ===== verification/Stores.v ===== *)
(** * Stores in Redis ([src/src/payments/payment-store.service.ts],
      [audit-log.service.ts], [settlement-ledger.service.ts])

    The payment records, the append-only audit log and the settlement ledger,
    with the key space they share with the idempotency records: every key the
    source uses holds values of one type, no key of one component is a key of
    another, and nothing the source does removes an entry of a log. *)

From S2P Require Import Prelude Num JsValue Errors Payment TokenBucket Json Redis World.

(** ** Keys *)
Definition store_key (paymentId : string) : string := "payment:" +:+ paymentId.
Definition audit_key (paymentId : string) : string := "audit:payment:" +:+ paymentId.
Definition ledger_key : string := "ledger:settlements".
Definition idempotency_key (paymentId : string) : string := "idempotency:payment:" +:+ paymentId.
Definition lock_key (paymentId : string) : string := "lock:payment:process:" +:+ paymentId.

Inductive kind := KHash | KList | KString | KOther.

(** The type of value a key of the source is used for. *)
Definition key_kind (k : string) : kind :=
  if String.prefix "payment:" k then KHash
  else if String.prefix "audit:payment:" k || String.prefix "ledger:settlements" k then KList
  else if String.prefix "idempotency:payment:" k || String.prefix "lock:payment:process:" k then KString
  else KOther.

Lemma store_key_kind id : key_kind (store_key id) = KHash.
Proof. by destruct id. Qed.
Lemma audit_key_kind id : key_kind (audit_key id) = KList.
Proof. by destruct id. Qed.
Lemma idempotency_key_kind id : key_kind (idempotency_key id) = KString.
Proof. by destruct id. Qed.
Lemma lock_key_kind id : key_kind (lock_key id) = KString.
Proof. by destruct id. Qed.
#[export] Hint Resolve store_key_kind audit_key_kind idempotency_key_kind lock_key_kind : qsys.

#[export] Instance store_key_inj : Inj (=) (=) store_key.
Proof. intros x y Hxy. by injection Hxy. Qed.
#[export] Instance audit_key_inj : Inj (=) (=) audit_key.
Proof. intros x y Hxy. by injection Hxy. Qed.
#[export] Instance idempotency_key_inj : Inj (=) (=) idempotency_key.
Proof. intros x y Hxy. by injection Hxy. Qed.
#[export] Instance lock_key_inj : Inj (=) (=) lock_key.
Proof. intros x y Hxy. by injection Hxy. Qed.

Lemma audit_not_ledger id : audit_key id ≠ ledger_key.
Proof. done. Qed.
Lemma idempotency_not_lock id id' : idempotency_key id ≠ lock_key id'.
Proof. done. Qed.

(** ** The services *)
Section Stores.
Context `{Platform}.

(** [JSON.parse(doc)] inside [try], [null] on failure; an absent or empty
    document is [null] too. *)
Definition parse_or_null {A} `{!JsonCodec text A} (doc : option text) : option A :=
  t ← doc;
  match parse t with inr a => Some a | inl _ => None end.

Definition store_save (r : PaymentRecord) : M exn world unit :=
  redis_cmd (HSET (store_key (id (payment r))) "doc" (stringify r));; mret tt.

Definition store_get (paymentId : string) : M exn world (option PaymentRecord) :=
  doc ← redis_cmd (HGET (store_key paymentId) "doc");
  mret (parse_or_null doc).

(** [record(event)]: [at] defaults to the time of the call. *)
Definition audit_record (paymentId : string) (type : AuditType) (at' : option Z)
    (detail : option (list (string * jsval))) : M exn world unit :=
  at' ← match at' with Some t => mret t | None => date_now end;
  redis_cmd (RPUSH (audit_key paymentId) (stringify
    {| ae_paymentId := paymentId; ae_type := type; ae_at := at'; ae_detail := detail |}));;
  mret tt.

(** [raw.map((line) => JSON.parse(line))] *)
Fixpoint parse_lines {A} `{!JsonCodec text A} (raw : list text) : M exn world (list A) :=
  match raw with
  | [] => mret []
  | line :: raw =>
      match parse line with
      | inl m => throw (EError m)
      | inr a => l ← parse_lines raw; mret (a :: l)
      end
  end.

Definition audit_list (paymentId : string) : M exn world (list AuditEvent) :=
  raw ← redis_cmd (LRANGE (audit_key paymentId));
  parse_lines raw.

Definition settle (p : Payment) (transactionId : string) : M exn world SettlementEntry :=
  now ← date_now;
  let entry := {| se_paymentId := id p; se_transactionId := transactionId; se_amount := amount p;
                  se_currency := currency p; se_customerId := customerId p;
                  se_gatewayId := gatewayId p; settledAt := now |} in
  redis_cmd (RPUSH ledger_key (stringify entry));;
  mret entry.

Definition ledger_list : M exn world (list SettlementEntry) :=
  raw ← redis_cmd (LRANGE ledger_key);
  parse_lines raw.
End Stores.

(** ** The typed key space *)
Section Typed.
Context {T : Type}.
Implicit Types (d : db T).

Definition entry_typed (k : string) (e : entry T) : Prop :=
  match key_kind k with
  | KHash => (∃ h, e_value e = VHash h) ∧ e_expires e = None
  | KList => (∃ l, e_value e = VList l) ∧ e_expires e = None
  | KString => ∃ v, e_value e = VString v
  | KOther => True
  end.

Definition typed d : Prop := ∀ k e, (d : gmap string (entry T)) !! k = Some e → entry_typed k e.

(** Commands used on keys of their kind. *)
Definition command_typed {A} (c : command T A) : Prop :=
  key_kind (command_key c) =
    match c with
    | GET _ | SET_EX _ _ _ | SET_NX_EX _ _ _ | DEL _ | PTTL _ => KString
    | HSET _ _ _ | HGET _ _ => KHash
    | RPUSH _ _ | LRANGE _ => KList
    end.

Definition hash_at (k : string) d : gmap string T :=
  match (d : gmap string (entry T)) !! k with Some {| e_value := VHash h |} => h | _ => ∅ end.
Definition list_at (k : string) d : list T :=
  match (d : gmap string (entry T)) !! k with Some {| e_value := VList l |} => l | _ => [] end.
Definition string_at (now : Z) (k : string) d : option T :=
  match live now d k with Some {| e_value := VString v |} => Some v | _ => None end.

Lemma empty_typed : typed (∅ : gmap string (entry T)).
Proof. intros k e. by rewrite lookup_empty. Qed.

Lemma typed_put k v x d : typed d → entry_typed k {| e_value := v; e_expires := x |} → typed (put k v x d).
Proof.
  intros Hd Hv k' e. unfold put. rewrite lookup_insert. case_decide; [intros [= <-]; by subst|apply Hd].
Qed.

Lemma typed_delete k d : typed d → typed (delete k (d : gmap string (entry T)) : db T).
Proof. intros Hd k' e. rewrite lookup_delete. case_decide; [done|apply Hd]. Qed.

(** On keys of its kind a command is never refused. *)
Lemma spec_hset now k f v d : typed d → key_kind k = KHash →
  ∃ n, redis_spec now (HSET k f v) d = (inr n, put k (VHash (<[f := v]> (hash_at k d))) None d).
Proof.
  intros Hd Hk. cbn. unfold live, hash_at. destruct ((d : gmap string (entry T)) !! k) as [[v' x]|] eqn:He; cbn; [|eauto].
  specialize (Hd _ _ He). unfold entry_typed in Hd. rewrite Hk in Hd. cbn in Hd.
  destruct Hd as [[h ->] ->]. eauto.
Qed.

Lemma spec_hget now k f d : typed d → key_kind k = KHash →
  redis_spec now (HGET k f) d = (inr (hash_at k d !! f), d).
Proof.
  intros Hd Hk. cbn. unfold live, hash_at. destruct ((d : gmap string (entry T)) !! k) as [[v' x]|] eqn:He; cbn; [|by rewrite lookup_empty].
  specialize (Hd _ _ He). unfold entry_typed in Hd. rewrite Hk in Hd. cbn in Hd.
  destruct Hd as [[h ->] ->]. done.
Qed.

Lemma spec_rpush now k v d : typed d → key_kind k = KList →
  ∃ n, redis_spec now (RPUSH k v) d = (inr n, put k (VList (list_at k d ++ [v])) None d).
Proof.
  intros Hd Hk. cbn. unfold live, list_at. destruct ((d : gmap string (entry T)) !! k) as [[v' x]|] eqn:He; cbn; [|eauto].
  specialize (Hd _ _ He). unfold entry_typed in Hd. rewrite Hk in Hd. cbn in Hd.
  destruct Hd as [[h ->] ->]. eauto.
Qed.

Lemma spec_lrange now k d : typed d → key_kind k = KList →
  redis_spec now (LRANGE k) d = (inr (list_at k d), d).
Proof.
  intros Hd Hk. cbn. unfold live, list_at. destruct ((d : gmap string (entry T)) !! k) as [[v' x]|] eqn:He; cbn; [|done].
  specialize (Hd _ _ He). unfold entry_typed in Hd. rewrite Hk in Hd. cbn in Hd.
  destruct Hd as [[h ->] ->]. done.
Qed.

Lemma live_typed now k d e : typed d → live now d k = Some e → entry_typed k e.
Proof.
  intros Hd. unfold live. destruct (_ !! k) as [e'|] eqn:He; [|done]. cbn.
  repeat case_match; intros [= <-]; by apply Hd.
Qed.

Lemma spec_get now k d : typed d → key_kind k = KString →
  redis_spec now (GET k) d = (inr (string_at now k d), d).
Proof.
  intros Hd Hk. cbn. unfold string_at. destruct (live now d k) as [e|] eqn:He; [|done].
  apply live_typed in He; [|done]. unfold entry_typed in He. rewrite Hk in He.
  destruct He as [v Hv]. destruct e as [? ?]. cbn in *. by subst.
Qed.

Lemma spec_set_nx now k v ttl d : typed d → key_kind k = KString →
  redis_spec now (SET_NX_EX k v ttl) d =
    match string_at now k d with
    | None => (inr true, put k (VString v) (Some (now + 1000 * ttl)) d)
    | Some _ => (inr false, d)
    end.
Proof.
  intros Hd Hk. cbn. unfold string_at. destruct (live now d k) as [e|] eqn:He; [|done].
  apply live_typed in He; [|done]. unfold entry_typed in He. rewrite Hk in He.
  destruct He as [v' Hv]. destruct e as [? ?]. cbn in *. by subst.
Qed.

Lemma spec_typed {A} now (c : command T A) d :
  typed d → command_typed c → typed (redis_spec now c d).2.
Proof.
  intros Hd Hc. unfold command_typed in Hc. destruct c; cbn [command_key] in Hc.
  - by rewrite spec_get.
  - cbn. apply typed_put; [done|]. unfold entry_typed. rewrite Hc. eauto.
  - rewrite spec_set_nx by done. case_match; cbn; [done|].
    apply typed_put; [done|]. unfold entry_typed. rewrite Hc. eauto.
  - cbn. by apply typed_delete.
  - done.
  - destruct (spec_hset now key field v d) as [n ->]; [done..|]. cbn.
    apply typed_put; [done|]. unfold entry_typed. rewrite Hc. eauto.
  - by rewrite spec_hget.
  - destruct (spec_rpush now key v d) as [n ->]; [done..|]. cbn.
    apply typed_put; [done|]. unfold entry_typed. rewrite Hc. eauto.
  - by rewrite spec_lrange.
Qed.

Lemma hash_at_put k k' v x d :
  hash_at k (put k' v x d) =
    if decide (k = k') then match v with VHash h => h | _ => ∅ end else hash_at k d.
Proof. unfold hash_at, put. case_decide; [subst; by rewrite lookup_insert_eq|by rewrite lookup_insert_ne]. Qed.

Lemma list_at_put k k' v x d :
  list_at k (put k' v x d) =
    if decide (k = k') then match v with VList l => l | _ => [] end else list_at k d.
Proof. unfold list_at, put. case_decide; [subst; by rewrite lookup_insert_eq|by rewrite lookup_insert_ne]. Qed.

Lemma list_at_delete k k' d : k ≠ k' →
  list_at k (delete k' (d : gmap string (entry T)) : db T) = list_at k d.
Proof. intros Hk. unfold list_at. by rewrite lookup_delete_ne. Qed.

Lemma spec_lists {A} now (c : command T A) d k :
  typed d → command_typed c → key_kind k = KList →
  list_at k d `prefix_of` list_at k (redis_spec now c d).2.
Proof.
  intros Hd Hc Hk. destruct (decide (k = command_key c)) as [->|Hne].
  - unfold command_typed in Hc. destruct c; cbn [command_key] in *; try congruence.
    + destruct (spec_rpush now key v d) as [n ->]; [done..|]. cbn.
      rewrite list_at_put, decide_True by done. by apply prefix_app_r.
    + by rewrite spec_lrange.
  - unfold list_at. by rewrite redis_spec_frame.
Qed.
End Typed.

(** ** Frames of the key space *)
Section Frames.
Context `{Platform} `{!RedisLaws text redis}.

Definition db_of (w : world) : db text := view (w_redis w).

(** From a typed key space: it stays typed, and no list loses an entry. *)
Definition append_only : relation world := λ w w',
  typed (db_of w) →
  typed (db_of w') ∧ ∀ k, key_kind k = KList → list_at k (db_of w) `prefix_of` list_at k (db_of w').

#[global] Instance append_only_preorder : PreOrder append_only.
Proof.
  split; [intros w Hw; split; done|]. intros w1 w2 w3 H12 H23 Hw. destruct (H12 Hw) as [Hw2 Hl].
  destruct (H23 Hw2) as [Hw3 Hl']. split; [done|]. intros k Hk.
  transitivity (list_at k (db_of w2)); auto.
Qed.

#[global] Instance keeps_append_only {A} (m : M exn world A) :
  Respects (keeps w_redis) m → Respects append_only m | 50.
Proof.
  apply respects_mono. unfold keeps, append_only, db_of. by intros s s' ->.
Qed.

#[global] Instance append_only_silent : SpanSilent append_only.
Proof. intros name attrs ok w. done. Qed.

Lemma respects_redis_append {A} (c : command text A) :
  command_typed c → Respects append_only (redis_cmd c).
Proof.
  intros Hc w Hw. unfold redis_cmd. destruct (read_clock _ _) as [now rt].
  destruct (exec_spec A now c (w_redis w)) as [_ Hs]. fold (db_of w) in Hs.
  assert (Hex : typed (view (exec now c (w_redis w)).2) ∧ ∀ k, key_kind k = KList →
    list_at k (db_of w) `prefix_of` list_at k (view (exec now c (w_redis w)).2)).
  { rewrite Hs. split; [by apply spec_typed|]. intros k Hk. by apply spec_lists. }
  destruct (fault (w_cmds w)); [|done|done].
  by destruct (exec now c (w_redis w)) as [[m|a] s].
Qed.

Lemma typed_after {A} (m : M exn world A) w : Respects append_only m → typed (db_of w) → typed (db_of (m w).2).
Proof. intros Hm Hw. by apply (Hm w). Qed.
End Frames.
#[global] Typeclasses Opaque append_only.
#[export] Hint Extern 1 (Respects append_only (redis_cmd _)) =>
  apply respects_redis_append; solve [unfold command_typed; cbn [command_key]; auto with qsys]
  : typeclass_instances.

(** ** Commands that meet no fault *)
Section Rules.
Context `{Platform} `{!RedisLaws text redis}.
(** The world after a command: time has passed, Redis has changed to [s]. *)
Definition after_cmd (rt : runtime) (s : redis) (w : world) : world :=
  set_w_redis s (set_w_cmds (S (w_cmds w)) (set_w_rt rt w)).

Lemma wp_redis_cmd {A} (c : command text A) (Q : outcome exn A → world → Prop) w :
  fault (w_cmds w) = NoFault →
  (∀ rt s, rt_now (w_rt w) ≤ rt_now rt →
    view s = (redis_spec (rt_now rt) c (db_of w)).2 →
    match (redis_spec (rt_now rt) c (db_of w)).1 with
    | inr a => Q (Ok a) (after_cmd rt s w)
    | inl m => Q (Throw (EError m)) (after_cmd rt s w)
    end) →
  wp (redis_cmd c) Q w.
Proof.
  intros Hcalm HQ. unfold wp, redis_cmd. rewrite Hcalm.
  pose proof (read_clock_mono elapsed (w_rt w)) as Hle.
  pose proof (read_clock_time elapsed (w_rt w)) as Ht.
  destruct (read_clock elapsed (w_rt w)) as [now rt]. cbn in Hle, Ht. subst now.
  destruct (exec_spec A (rt_now rt) c (w_redis w)) as [Hr Hs].
  specialize (HQ rt (exec (rt_now rt) c (w_redis w)).2 Hle Hs). unfold db_of in HQ. rewrite <-Hr in HQ.
  by destruct (exec (rt_now rt) c (w_redis w)) as [[m|a] s].
Qed.
End Rules.

(** ** What the services observe and change

    [stored], [audit_of] and [ledger_of] read the data model as the services do;
    [saved], [audited] and [settled] describe the one write each service makes. *)
Section Observations.
Context `{PlatformLaws}.
Implicit Types (d : db text).

Definition stored d (paymentId : string) : option PaymentRecord :=
  parse_or_null (hash_at (store_key paymentId) d !! "doc").

Definition parsed {A} `{!JsonCodec text A} (lines : list text) : list A :=
  omap (λ t, match parse t with inr a => Some a | inl _ => None end) lines.

Definition audit_of d (paymentId : string) : list AuditEvent :=
  parsed (list_at (audit_key paymentId) d).

Definition ledger_of d : list SettlementEntry := parsed (list_at ledger_key d).

(** The idempotency records and the locks are the same. *)
Definition same_strings d d' : Prop :=
  ∀ k, key_kind k = KString → (d' : gmap string (entry text)) !! k = (d : gmap string (entry text)) !! k.

Record saved d (paymentId : string) (r : PaymentRecord) d' : Prop := {
  sv_typed : typed d';
  sv_stored : stored d' paymentId = Some (json_norm r);
  sv_others id : id ≠ paymentId → stored d' id = stored d id;
  sv_audit id : audit_of d' id = audit_of d id;
  sv_ledger : ledger_of d' = ledger_of d;
  sv_strings : same_strings d d'
}.

Record audited d (paymentId : string) (e : AuditEvent) d' : Prop := {
  au_typed : typed d';
  au_audit : audit_of d' paymentId = audit_of d paymentId ++ [json_norm e];
  au_others id : id ≠ paymentId → audit_of d' id = audit_of d id;
  au_stored id : stored d' id = stored d id;
  au_ledger : ledger_of d' = ledger_of d;
  au_strings : same_strings d d'
}.

Record settled d (e : SettlementEntry) d' : Prop := {
  st_typed : typed d';
  st_ledger : ledger_of d' = ledger_of d ++ [e];
  st_audit id : audit_of d' id = audit_of d id;
  st_stored id : stored d' id = stored d id;
  st_strings : same_strings d d'
}.

Lemma parsed_snoc {A} `{!JsonCodec text A, !JsonNorm A, !JsonCodecLaws text A} (l : list text) (a : A) :
  parsed (l ++ [stringify a]) = parsed l ++ [json_norm a].
Proof. unfold parsed. rewrite omap_app. cbn. by rewrite parse_stringify. Qed.

Lemma parsed_prefix {A} `{!JsonCodec text A} (l l' : list text) :
  l `prefix_of` l' → parsed (A := A) l `prefix_of` parsed l'.
Proof. intros [k ->]. unfold parsed. rewrite omap_app. by apply prefix_app_r. Qed.

Lemma same_strings_put d k v x : key_kind k ≠ KString → same_strings d (put k v x d).
Proof. intros Hk k' Hk'. unfold put. rewrite lookup_insert_ne; [done|congruence]. Qed.

Lemma stored_put d k v x id : k ≠ store_key id → stored (put k v x d) id = stored d id.
Proof. intros Hk. unfold stored. by rewrite hash_at_put, decide_False. Qed.

Lemma audit_of_put d k v x id : k ≠ audit_key id → audit_of (put k v x d) id = audit_of d id.
Proof. intros Hk. unfold audit_of. by rewrite list_at_put, decide_False. Qed.

Lemma ledger_of_put d k v x : k ≠ ledger_key → ledger_of (put k v x d) = ledger_of d.
Proof. intros Hk. unfold ledger_of. by rewrite list_at_put, decide_False. Qed.

Lemma put_saved d pid r : typed d →
  saved d pid r (put (store_key pid) (VHash (<["doc" := stringify r]> (hash_at (store_key pid) d))) None d).
Proof.
  intros Hd. split.
  - apply typed_put; [done|]. unfold entry_typed. rewrite store_key_kind. eauto.
  - unfold stored. rewrite hash_at_put, decide_True, lookup_insert_eq by done.
    cbn. by rewrite parse_stringify.
  - intros id Hid. apply stored_put. by intros <-%(inj store_key).
  - intros id. by apply audit_of_put.
  - by apply ledger_of_put.
  - apply same_strings_put. by rewrite store_key_kind.
Qed.

Lemma put_audited d pid e : typed d →
  audited d pid e (put (audit_key pid) (VList (list_at (audit_key pid) d ++ [stringify e])) None d).
Proof.
  intros Hd. split.
  - apply typed_put; [done|]. unfold entry_typed. rewrite audit_key_kind. eauto.
  - unfold audit_of. rewrite list_at_put, decide_True by done. by rewrite parsed_snoc.
  - intros id Hid. apply audit_of_put. by intros <-%(inj audit_key).
  - intros id. by apply stored_put.
  - by apply ledger_of_put.
  - apply same_strings_put. by rewrite audit_key_kind.
Qed.

Lemma put_settled d e : typed d →
  settled d e (put ledger_key (VList (list_at ledger_key d ++ [stringify e])) None d).
Proof.
  intros Hd. split.
  - apply typed_put; [done|]. unfold entry_typed. cbn. eauto.
  - unfold ledger_of. rewrite list_at_put, decide_True by done. by rewrite parsed_snoc.
  - intros id. by apply audit_of_put.
  - intros id. by apply stored_put.
  - by apply same_strings_put.
Qed.

(** *** The services, command by command *)
Lemma wp_store_save r (Q : outcome exn unit → world → Prop) w :
  fault (w_cmds w) = NoFault → typed (db_of w) →
  (∀ rt s, rt_now (w_rt w) ≤ rt_now rt → saved (db_of w) (id (payment r)) r (view s) →
    Q (Ok tt) (after_cmd rt s w)) →
  wp (store_save r) Q w.
Proof.
  intros Hf Hd HQ. unfold store_save. rewrite wp_bind. apply wp_redis_cmd; [done|]. intros rt s Hrt Hs.
  destruct (spec_hset (rt_now rt) (store_key (id (payment r))) "doc" (stringify r) (db_of w)) as [n Hn];
    [done|apply store_key_kind|]. rewrite Hn in Hs |- *. cbn. rewrite wp_ret. apply HQ; [done|].
  rewrite Hs. by apply put_saved.
Qed.

Lemma wp_store_get pid (Q : outcome exn (option PaymentRecord) → world → Prop) w :
  fault (w_cmds w) = NoFault → typed (db_of w) →
  (∀ rt s, rt_now (w_rt w) ≤ rt_now rt → view s = db_of w →
    Q (Ok (stored (db_of w) pid)) (after_cmd rt s w)) →
  wp (store_get pid) Q w.
Proof.
  intros Hf Hd HQ. unfold store_get. rewrite wp_bind. apply wp_redis_cmd; [done|]. intros rt s Hrt Hs.
  rewrite spec_hget in Hs |- * by auto with qsys. cbn. rewrite wp_ret. by apply HQ.
Qed.

(** Whatever happens to the command: the record that is stored, or an error. *)
Lemma wp_store_get_fault pid (Q : outcome exn (option PaymentRecord) → world → Prop) w :
  typed (db_of w) →
  (∀ rt s, rt_now (w_rt w) ≤ rt_now rt → view s = db_of w →
    Q (Ok (stored (db_of w) pid)) (after_cmd rt s w)) →
  (∀ m rt s, Q (Throw (EError m)) (after_cmd rt s w)) →
  wp (store_get pid) Q w.
Proof.
  intros Hd HQ Ht. destruct (fault (w_cmds w)) as [|m|m] eqn:Hf; [by apply wp_store_get|..];
    unfold store_get; rewrite wp_bind; unfold wp, redis_cmd; destruct (read_clock _ _) as [now rt];
    rewrite Hf; [apply (Ht m rt (w_redis w))|apply (Ht m rt)].
Qed.

Lemma wp_audit_record pid type detail (Q : outcome exn unit → world → Prop) w :
  fault (w_cmds w) = NoFault → typed (db_of w) →
  (∀ t rt s, rt_now (w_rt w) ≤ rt_now rt →
    audited (db_of w) pid
      {| ae_paymentId := pid; ae_type := type; ae_at := t; ae_detail := detail |} (view s) →
    Q (Ok tt) (after_cmd rt s w)) →
  wp (audit_record pid type None detail) Q w.
Proof.
  intros Hf Hd HQ. unfold audit_record. rewrite wp_bind. apply wp_date_now. intros rt1 Hrt1.
  rewrite wp_bind. apply wp_redis_cmd; [done|]. intros rt s Hrt Hs. cbn in Hrt.
  change (db_of (set_w_rt rt1 w)) with (db_of w) in *.
  destruct (spec_rpush (rt_now rt) (audit_key pid) (stringify
    {| ae_paymentId := pid; ae_type := type; ae_at := rt_now rt1; ae_detail := detail |}) (db_of w))
    as [n Hn]; [done|apply audit_key_kind|]. rewrite Hn in Hs |- *. cbn. rewrite wp_ret.
  apply (HQ (rt_now rt1)); [lia|]. rewrite Hs. by apply put_audited.
Qed.

Definition settlement (p : Payment) (tx : string) (t : Z) : SettlementEntry :=
  {| se_paymentId := id p; se_transactionId := tx; se_amount := amount p; se_currency := currency p;
     se_customerId := customerId p; se_gatewayId := gatewayId p; settledAt := t |}.

Lemma wp_settle p tx (Q : outcome exn SettlementEntry → world → Prop) w :
  fault (w_cmds w) = NoFault → typed (db_of w) →
  (∀ t rt s, rt_now (w_rt w) ≤ rt_now rt → settled (db_of w) (settlement p tx t) (view s) →
    Q (Ok (settlement p tx t)) (after_cmd rt s w)) →
  wp (settle p tx) Q w.
Proof.
  intros Hf Hd HQ. unfold settle. rewrite wp_bind. apply wp_date_now. intros rt1 Hrt1.
  rewrite wp_bind. apply wp_redis_cmd; [done|]. intros rt s Hrt Hs. cbn in Hrt.
  change (db_of (set_w_rt rt1 w)) with (db_of w) in *. fold (settlement p tx (rt_now rt1)) in *.
  destruct (spec_rpush (rt_now rt) ledger_key (stringify (settlement p tx (rt_now rt1))) (db_of w))
    as [n Hn]; [done|done|]. rewrite Hn in Hs |- *. cbn. rewrite wp_ret.
  apply (HQ (rt_now rt1)); [lia|]. rewrite Hs. by apply put_settled.
Qed.
End Observations.

(** Reads the components of an updated world and of an updated record. *)
Ltac world_simpl :=
  unfold db_of, after_cmd, end_span, push_history in *;
  cbn [on_world pair_has_world world_has_world fst snd
    set_w_rt set_w_redis set_w_cmds set_w_bull set_w_dlq set_w_gws set_w_calls set_w_events set_w_spans set_w_logs
    w_rt w_redis w_cmds w_bull w_gws w_calls w_buckets w_breakers w_runtimes w_dlq w_events
    w_spans w_logs w_corr
    payment status retryCount sagaState history jobId reservationId transactionId refundId
    failureReason correlationId processedAt completedAt
    set_status set_retryCount set_sagaState set_history set_reservationId set_transactionId
    set_refundId set_failureReason set_processedAt set_completedAt] in *.
