(* ===== verification/Sim.v ===== *)
(** * A concrete platform

    The services instantiated by the reference servers of their interfaces: the
    data model of Redis, a BullMQ without workers, the mock gateways, the
    doubles.  The theorems of the development are exercised on it. *)

From S2P Require Import Prelude Num JsValue Payment TokenBucket CircuitBreaker Json Redis Gateway.
From S2P Require Import Config Bull World.

(** One millisecond passes between observations of the clock, latencies are
    drawn at half their range, and command [i] meets the fate [fates i]. *)
Definition sim (fates : nat → fault_kind) : Platform :=
  {| num := binary64;
     text := doc;
     literal := DocLiteral;
     redis := db doc;
     bull := quiet_bull binary64;
     gws := gateways binary64;
     gateway_servers := mock_gateways (λ _, 1%nat) (λ _, nlit 1 2);
     elapsed := λ _, 1%nat;
     fault := fates;
     config := default_config |}.

#[export] Instance sim_laws (fates : nat → fault_kind) : @PlatformLaws (sim fates).
Proof. split; apply _. Defined.

(** A platform whose connections never fail. *)
Definition calm : Platform := sim (λ _, NoFault).
#[export] Instance calm_laws : @PlatformLaws calm := sim_laws (λ _, NoFault).

(** A process that has just started, its gateways configured by [gs]. *)
Definition start (fates : nat → fault_kind) (gs : gateways binary64) : @world (sim fates) :=
  @Build_world (sim fates)
    {| rt_now := 1700000000000; rt_ix := 0; rt_rand := 0 |}  (* clock *)
    (∅ : db doc) 0 ([] : quiet_bull binary64)                 (* Redis, BullMQ *)
    gs [] ∅ ∅                                                 (* gateways, buckets, breakers *)
    [] false                                                  (* queue runtimes, DLQ *)
    [] [] [] None.                                            (* events, spans, logs, correlation *)

(** The same on the calm platform. *)
Definition boot (gs : gateways binary64) : @world calm := start (λ _, NoFault) gs.

(** A gateway that answers the statuses of a list (200 for success), then
    succeeds. *)
Definition scripted (statuses : list Z) : PartialBehavior binary64 :=
  {| p_latencyMinMs := None; p_latencyMaxMs := None;
     p_steps := Some (map (λ h, if h =? 200 then StepOk None else StepFail h None) statuses);
     p_after := None; p_refundSteps := None |}.

Definition stripe_plays (statuses : list Z) : gateways binary64 :=
  reg_configure "stripe" (scripted statuses) ∅.

Definition demo_input (id : string) : RecordInput :=
  {| in_id := id; in_amount := 4200; in_currency := "USD"; in_customerId := "cus_1";
     in_gatewayId := "stripe"; in_priority := High; in_maxRetries := None; in_metadata := None;
     in_scheduledAt := None; in_correlationId := Some "corr_1"; in_createdAt := Some 1700000000000 |}.

Definition demo_record (id : string) : PaymentRecord := createPaymentRecord (demo_input id) 1700000000000.
Definition demo_payment (id : string) : Payment := payment (demo_record id).
