(* ===== verification/Guard.v ===== *)
(** * Gateway guard ([src/src/gateway/gateway-guard.ts])

    The one seam between the payment saga and a payment gateway: token wait,
    breaker gate, gateway call, classification, feedback to both controls; and
    the compensation refund, which is exempt from the gating. *)

From S2P Require Import Prelude Num JsValue Errors Payment TokenBucket CircuitBreaker EventBus.
From S2P Require Import Gateway Config World Registries Sim.

Inductive CallOutcome (N : Type) :=
  | CallOk (transactionId : string) (httpStatus : Z) (latencyMs : N)
  | CallErr (error : PaymentProcessingError).
Arguments CallOk {N} _ _ _.
Arguments CallErr {N} _.

Inductive RefundOutcome (N : Type) :=
  | RefundedOk (refundId : string) (httpStatus : Z) (latencyMs : N)
  | RefundErr (error : PaymentProcessingError).
Arguments RefundedOk {N} _ _ _.
Arguments RefundErr {N} _.

Record GuardPolicy (N : Type) := {
  gp_rateLimiter : option (PartialBucketParams N);
  gp_circuitBreaker : option (PartialBreakerParams N)
}.
Arguments gp_rateLimiter {N} _.
Arguments gp_circuitBreaker {N} _.

Record GatewayHealth (N : Type) := {
  gh_gatewayId : string;
  gh_state : CircuitBreakerState;
  gh_samples : Z;
  gh_failures : Z;
  gh_failureRate : N;
  gh_tripCount : Z;
  gh_rate : N;
  gh_burst : N;
  gh_tokens : N;
  gh_throttleCount : Z
}.
Arguments gh_state {N} _.
Arguments gh_tokens {N} _.

Section Guard.
Context `{Platform}.

Definition toProcessingError (failure : GatewayFailure) (gatewayId : string) : PaymentProcessingError :=
  new_PaymentProcessingError (gf_message failure) (gf_code failure) (Some (gf_httpStatus failure))
    (Some gatewayId).

Definition rate_limited_error (gatewayId : string) : PaymentProcessingError :=
  new_PaymentProcessingError
    ("gateway " +:+ gatewayId +:+ " rate limiter: no token within " +:+
     pretty (rlc_tokenWaitMs (rateLimiter config)) +:+ "ms")
    RATE_LIMITED (Some 429) (Some gatewayId).

Definition circuit_open_error (gatewayId : string) (state : CircuitBreakerState) : PaymentProcessingError :=
  new_PaymentProcessingError
    ("gateway " +:+ gatewayId +:+ " circuit is " +:+ breaker_state_string state +:+ "; call fast-failed")
    CIRCUIT_OPEN (Some 503) (Some gatewayId).

Definition guard_call (payment : Payment) (correlationId : option string)
    : M exn world (CallOutcome num) :=
  let gatewayId := gatewayId payment in
  admitted ← bucket_waitForToken gatewayId (rlc_tokenWaitMs (rateLimiter config));
  if negb admitted then mret (CallErr (rate_limited_error gatewayId))
  else
    '(allowed, state) ← breaker_allowCall gatewayId;
    if negb allowed then mret (CallErr (circuit_open_error gatewayId state))
    else
      charge ← gateway_charge gatewayId payment correlationId;
      match charge with
      | ChargeFailed failure _ =>
          let error := toProcessingError failure gatewayId in
          (if (gf_httpStatus failure =? 429) || (gf_httpStatus failure =? 503)
           then bucket_onThrottled gatewayId else mret tt);;
          (if retryable error then breaker_recordOutcome gatewayId false else mret tt);;
          mret (CallErr error)
      | ChargeOk transactionId httpStatus latencyMs =>
          breaker_recordOutcome gatewayId true;;
          bucket_onSuccess gatewayId;;
          mret (CallOk transactionId httpStatus latencyMs)
      end.

Definition guard_refund (gatewayId transactionId : string) : M exn world (RefundOutcome num) :=
  refund ← gateway_refund gatewayId transactionId;
  match refund with
  | RefundFailed failure _ => mret (RefundErr (toProcessingError failure gatewayId))
  | RefundOk refundId httpStatus latencyMs => mret (RefundedOk refundId httpStatus latencyMs)
  end.

Definition guard_configure (gatewayId : string) (policy : GuardPolicy num) : M exn world unit :=
  match gp_rateLimiter policy with Some p => rl_configure gatewayId p | None => mret tt end;;
  match gp_circuitBreaker policy with Some p => br_configure gatewayId p | None => mret tt end.

Definition health (gatewayId : string) : M exn world (GatewayHealth num) :=
  breaker ← breaker_getState gatewayId;
  bucket ← bucket_getState gatewayId;
  mret {| gh_gatewayId := gatewayId; gh_state := sn_state breaker; gh_samples := sn_samples breaker;
          gh_failures := sn_failures breaker; gh_failureRate := sn_failureRate breaker;
          gh_tripCount := sn_tripCount breaker; gh_rate := ts_rate bucket; gh_burst := ts_burst bucket;
          gh_tokens := ts_tokens bucket; gh_throttleCount := ts_throttleCount bucket |}.
End Guard.

(** ** What one gated call does *)
Section Spec.
Context `{Platform} `{!PaymentGatewayLaws num gws}.

(** What the caller is told about the gateway's answer. *)
Definition outcome_of (gatewayId : string) (r : GatewayChargeResult num) : CallOutcome num :=
  match r with
  | ChargeOk tx h l => CallOk tx h l
  | ChargeFailed f _ => CallErr (toProcessingError f gatewayId)
  end.

(** What the answer teaches the breaker and the bucket. *)
Definition breaker_feedback (now : Z) (r : GatewayChargeResult num) (k : CircuitBreaker num)
    : CircuitBreaker num :=
  match r with
  | ChargeOk _ _ _ => (recordOutcome now true k).2
  | ChargeFailed f _ => if isTransient (gf_code f) then (recordOutcome now false k).2 else k
  end.

Definition bucket_feedback (r : GatewayChargeResult num) (b : AdaptiveTokenBucket num)
    : AdaptiveTokenBucket num :=
  match r with
  | ChargeOk _ _ _ => onSuccess b
  | ChargeFailed f _ => if bool_decide (gf_httpStatus f ∈ [429; 503]) then onThrottled b else b
  end.

(** Everything a call on gateway [id] leaves alone. *)
Record guard_frame (id : string) (w w' : world) : Prop := {
  gf_clock : rt_now (w_rt w) ≤ rt_now (w_rt w');
  gf_buckets id' : id' ≠ id → w_buckets w' !! id' = w_buckets w !! id';
  gf_breakers id' : id' ≠ id → w_breakers w' !! id' = w_breakers w !! id';
  gf_gateways id' : id' ≠ id → gw_at id' (w_gws w') = gw_at id' (w_gws w);
  gf_redis : w_redis w' = w_redis w ∧ w_cmds w' = w_cmds w ∧ w_bull w' = w_bull w
}.

Lemma wp_gateway_charge id p c (Q : outcome exn (GatewayChargeResult num) → world → Prop) w :
  (∀ r rt g, rt_now (w_rt w) ≤ rt_now rt → (∀ id', id' ≠ id → gw_at id' g = gw_at id' (w_gws w)) →
    Q (Ok r) (set_w_calls (w_calls w ++ [CallCharge id p (Some r)]) (set_w_gws g (set_w_rt rt w)))) →
  wp (gateway_charge id p c) Q w.
Proof.
  intros HQ. unfold wp, gateway_charge.
  destruct (gw_charge_total id p c (w_rt w) (w_gws w)) as (r&rt&g&->&Hle&Hg). by apply HQ.
Qed.

Lemma wp_gateway_refund id tx (Q : outcome exn (GatewayRefundResult num) → world → Prop) w :
  (∀ r rt g, rt_now (w_rt w) ≤ rt_now rt → (∀ id', id' ≠ id → gw_at id' g = gw_at id' (w_gws w)) →
    Q (Ok r) (set_w_calls (w_calls w ++ [CallRefund id tx (Some r)]) (set_w_gws g (set_w_rt rt w)))) →
  wp (gateway_refund id tx) Q w.
Proof.
  intros HQ. unfold wp, gateway_refund.
  destruct (gw_refund_total id tx (w_rt w) (w_gws w)) as (r&rt&g&->&Hle&Hg). by apply HQ.
Qed.

(** The three ways a call ends. *)
Inductive call_case (p : Payment) (w : world) : CallOutcome num → world → Prop :=
  | case_no_token w' :
      w_calls w' = w_calls w → w_gws w' = w_gws w → w_breakers w' = w_breakers w →
      call_case p w (CallErr (rate_limited_error (gatewayId p))) w'
  | case_refused now st k w' :
      allowCall now (breaker_of w (gatewayId p)) = ((false, st), k) →
      w_calls w' = w_calls w → w_gws w' = w_gws w → w_breakers w' !! gatewayId p = Some k →
      call_case p w (CallErr (circuit_open_error (gatewayId p) st)) w'
  | case_called now st now' k b r w' :
      allowCall now (breaker_of w (gatewayId p)) = ((true, st), k) →
      now ≤ now' →
      w_calls w' = w_calls w ++ [CallCharge (gatewayId p) p (Some r)] →
      w_breakers w' !! gatewayId p = Some (breaker_feedback now' r k) →
      w_buckets w' !! gatewayId p = Some (bucket_feedback r b) →
      (∃ t b0, tryAcquire t b0 = (true, b)) →
      call_case p w (outcome_of (gatewayId p) r) w'.

Lemma bucket_of_lookup (w : world) id b b' : w_buckets w !! id = Some b → bucket_of w id b' → b' = b.
Proof. intros Hb [Hb'|[Hb' _]]; congruence. Qed.

Ltac frame_done :=
  split; cbn; try (intros ??); rewrite ?lookup_insert_ne by done; auto; lia.

Lemma guard_call_wp p c w :
  wp (guard_call p c) (λ r w', ∃ o, r = Ok o ∧ guard_frame (gatewayId p) w w' ∧ call_case p w o w') w.
Proof.
  unfold guard_call. set (id := gatewayId p). rewrite wp_bind. apply wp_waitForToken.
  intros b b1 rt granted Hb Hrt Hwait. destruct granted; cbn [negb].
  2: { rewrite wp_ret. eexists. split; [done|]. split; [frame_done|by constructor]. }
  rewrite wp_bind. apply wp_with_breaker. cbn. intros rt2 Hrt2.
  change (breaker_of _ id) with (breaker_of w id).
  destruct (allowCall (rt_now rt2) (breaker_of w id)) as [[allowed st] k] eqn:Hallow. cbn.
  destruct allowed; cbn [negb].
  2: { rewrite wp_ret. eexists. split; [done|]. split; [frame_done|].
       eapply case_refused; [exact Hallow|done|done|]. cbn. apply lookup_insert_eq. }
  rewrite wp_bind. apply wp_gateway_charge. cbn. intros r rt3 g Hrt3 Hg.
  set (w3 := set_w_calls _ _).
  assert (Hk3 : breaker_of w3 id = k) by (unfold breaker_of; cbn; by rewrite lookup_insert_eq).
  assert (Hb3 : w_buckets w3 !! id = Some b1) by (cbn; by rewrite lookup_insert_eq).
  destruct r as [tx h l|f l]; cbn [gf_httpStatus].
  - rewrite wp_bind. apply wp_breaker_recordOutcome. rewrite Hk3. intros rt4 rt5 evs Hrt4 Hrt5.
    rewrite wp_bind. apply wp_with_bucket. cbn in Hrt4. intros b5 rt6 Hb5 Hrt6. cbn in Hrt6.
    apply (bucket_of_lookup _ _ b1) in Hb5 as ->; [|done]. rewrite wp_ret.
    eexists. split; [done|]. split; [frame_done|].
    eapply (case_called _ _ _ st (rt_now rt4) k b1 (ChargeOk tx h l)); try done; cbn;
      rewrite ?lookup_insert_eq; done || lia.
  - rewrite wp_bind.
    assert (Hshed : ∀ (Q : outcome exn unit → world → Prop),
      (∀ rt4 evs, rt_now rt3 ≤ rt_now rt4 →
        Q (Ok tt) (set_w_events (w_events w3 ++ evs) (set_w_buckets (<[id :=
          bucket_feedback (ChargeFailed f l) b1]> (w_buckets w3)) (set_w_rt rt4 w3)))) →
      wp (if (gf_httpStatus f =? 429) || (gf_httpStatus f =? 503)
          then bucket_onThrottled id else mret tt) Q w3).
    { intros Q HQ. cbn in HQ. destruct (_ || _) eqn:Hst.
      - rewrite bool_decide_true in HQ by (rewrite !elem_of_cons; lia).
        unfold bucket_onThrottled. rewrite wp_bind. apply wp_with_bucket. intros b5 rt4 Hb5 Hrt4.
        apply (bucket_of_lookup _ _ b1) in Hb5 as ->; [|done]. rewrite wp_bind. apply wp_date_now.
        intros rt5 Hrt5. unfold emit_event. rewrite wp_modify. cbn in Hrt4, Hrt5.
        apply (HQ rt5 [_]). lia.
      - rewrite bool_decide_false in HQ by (rewrite !elem_of_cons, elem_of_nil; lia).
        rewrite wp_ret. specialize (HQ rt3 []). rewrite insert_id, app_nil_r in HQ by done.
        apply HQ. lia. }
    apply Hshed. clear Hshed. intros rt4 evs Hrt4. set (w4 := set_w_events _ _).
    assert (Hk4 : breaker_of w4 id = k) by exact Hk3.
    rewrite wp_bind. cbn [retryable toProcessingError new_PaymentProcessingError].
    destruct (isTransient (gf_code f)) eqn:Ht.
    + apply wp_breaker_recordOutcome. rewrite Hk4. intros rt5 rt6 evs' Hrt5 Hrt6. rewrite wp_ret.
      eexists. split; [done|]. cbn in Hrt5. split; [frame_done|].
      eapply (case_called _ _ _ st (rt_now rt5) k b1 (ChargeFailed f l)); try done; cbn;
        rewrite ?lookup_insert_eq, ?Ht; done || lia.
    + rewrite !wp_ret. eexists. split; [done|]. split; [frame_done|].
      eapply (case_called _ _ _ st (rt_now rt2) k b1 (ChargeFailed f l)); try done; cbn;
        rewrite ?lookup_insert_eq, ?Ht; done || lia.
Qed.

Lemma guard_call_total p c w :
  ∃ o w', guard_call p c w = (Ok o, w') ∧ guard_frame (gatewayId p) w w' ∧ call_case p w o w'.
Proof.
  pose proof (guard_call_wp p c w) as Hwp. unfold wp in Hwp.
  destruct (guard_call p c w) as [r w']. cbn in Hwp. destruct Hwp as (o&->&?&?). eauto.
Qed.

#[global] Instance guard_call_elapses p c : Respects elapses (guard_call p c).
Proof. intros w. destruct (guard_call_total p c w) as (o&w'&->&[Ht _ _ _ _]&_). exact Ht. Qed.

#[global] Instance guard_call_bull p c : Respects (keeps w_bull) (guard_call p c).
Proof. intros w. destruct (guard_call_total p c w) as (o&w'&->&[_ _ _ _ (_&_&Hb)]&_). exact Hb. Qed.

#[global] Instance guard_call_redis p c : Respects (keeps w_redis) (guard_call p c).
Proof. intros w. destruct (guard_call_total p c w) as (o&w'&->&[_ _ _ _ (Hr&_&_)]&_). exact Hr. Qed.

#[global] Instance guard_refund_elapses id tx : Respects elapses (guard_refund id tx).
Proof.
  intros w. change (wp (guard_refund id tx) (λ _ w', elapses w w') w). unfold guard_refund.
  rewrite wp_bind. apply wp_gateway_refund. intros r rt g Hrt _. by destruct r; rewrite wp_ret.
Qed.

(** *** A breaker that waits for the outcome of its probe *)

(** Gated calls one after the other. *)
Fixpoint guard_calls (calls : list (Payment * option string)) : M exn world (list (CallOutcome num)) :=
  match calls with
  | [] => mret []
  | (p, c) :: calls =>
      o ← guard_call p c;
      os ← guard_calls calls;
      mret (o :: os)
  end.

Definition is_err {N} (o : CallOutcome N) : Prop := match o with CallErr _ => True | CallOk _ _ _ => False end.

Lemma guard_call_probing p c w :
  w_breakers w !! gatewayId p ≫= (λ k, Some (cb_state k, probeInFlight k)) = Some (HALF_OPEN, true) →
  ∃ o w', guard_call p c w = (Ok o, w') ∧ is_err o ∧ w_calls w' = w_calls w ∧
    w_breakers w' !! gatewayId p = w_breakers w !! gatewayId p.
Proof.
  destruct (w_breakers w !! gatewayId p) as [k|] eqn:Hk; [|done]. cbn. intros [= Hs Hp].
  assert (Hno : ∀ now, allowCall now k = ((false, HALF_OPEN), k)) by
    (intros now; unfold allowCall; by rewrite Hs, Hp).
  destruct (guard_call_total p c w) as (o&w'&He&Hf&Hc). exists o, w'. split; [done|].
  destruct Hc as [w' ? ? Hb|now st k' w' Ha ? ? Hb|now st now' k' b r w' Ha].
  - split; [done|]. split; [done|]. by rewrite Hb.
  - unfold breaker_of in Ha. rewrite Hk in Ha. cbn in Ha. rewrite Hno in Ha. injection Ha as <- <-. done.
  - unfold breaker_of in Ha. rewrite Hk in Ha. cbn in Ha. rewrite Hno in Ha. done.
Qed.

Lemma guard_calls_probing id calls w :
  Forall (λ q, gatewayId q.1 = id) calls →
  w_breakers w !! id ≫= (λ k, Some (cb_state k, probeInFlight k)) = Some (HALF_OPEN, true) →
  ∃ os w', guard_calls calls w = (Ok os, w') ∧ Forall is_err os ∧ w_calls w' = w_calls w.
Proof.
  intros Hall. revert w. induction Hall as [|[p c] calls Hp _ IH]; intros w Hw; [by exists [], w|].
  cbn in Hp. subst id. destruct (guard_call_probing p c w Hw) as (o&w1&He&Ho&Hc&Hb).
  destruct (IH w1) as (os&w2&He2&Hos&Hc2); [by rewrite Hb|].
  exists (o :: os), w2. cbn [guard_calls]. unfold mbind, M_bind. rewrite He, He2.
  split; [done|]. split; [by constructor|congruence].
Qed.
End Spec.

(** ** Properties *)
Section Properties.
Context `{Platform} `{!PaymentGatewayLaws num gws}.

(** C11: a gated call always returns, in one of three ways: without a token, it
    reports RATE_LIMITED and neither the breaker nor the gateway is touched;
    refused by the breaker, it reports CIRCUIT_OPEN and the gateway is not
    called; otherwise the gateway is called exactly once, after a token was
    taken, its answer is reported unchanged, the breaker samples a success or a
    retryable failure and nothing else, and the bucket backs off on HTTP 429
    and 503 only and speeds up on success only. *)
Theorem guard_call_cases (p : Payment) (c : option string) (w : world) :
  ∃ o w', guard_call p c w = (Ok o, w') ∧ call_case p w o w'.
Proof. destruct (guard_call_total p c w) as (o&w'&?&_&?). by exists o, w'. Qed.

(** Gateways are isolated from one another: a gated call on one gateway
    leaves the token bucket, the circuit breaker and the state of every other
    gateway as they were. *)
Theorem guard_isolates_gateways (p : Payment) (c : option string) (w : world) (other : string) :
  other ≠ gatewayId p →
  let w' := (guard_call p c w).2 in
  w_buckets w' !! other = w_buckets w !! other ∧
  w_breakers w' !! other = w_breakers w !! other ∧
  gw_at other (w_gws w') = gw_at other (w_gws w).
Proof. intros Hne. destruct (guard_call_total p c w) as (o&w'&->&[]&_). cbn. auto. Qed.

(** A compensation refund is exempt from the gating: whatever the state of
    the bucket and the breaker, the gateway's refund is called exactly once and
    its answer reported, and bucket and breaker are left alone. *)
Theorem guard_refund_exempt (id tx : string) (w : world) :
  ∃ r w', w_calls w' = w_calls w ++ [CallRefund id tx (Some r)] ∧
    guard_refund id tx w =
      (Ok match r with
          | RefundOk rid h l => RefundedOk rid h l
          | RefundFailed f _ => RefundErr (toProcessingError f id)
          end, w') ∧
    w_buckets w' = w_buckets w ∧ w_breakers w' = w_breakers w.
Proof.
  unfold guard_refund, mbind, M_bind, gateway_refund.
  destruct (gw_refund_total id tx (w_rt w) (w_gws w)) as (r&rt&g&->&_&_).
  exists r, (set_w_calls (w_calls w ++ [CallRefund id tx (Some r)]) (set_w_gws g (set_w_rt rt w))).
  by destruct r.
Qed.

(** A breaker whose half-open probe is answered with a permanent rejection
    never learns the outcome of its probe: it stays HALF_OPEN and from then on
    every gated call on that gateway fails without reaching it, however long one
    waits, until an operator resets or reconfigures the breaker. *)
Theorem guard_probe_rejected_wedges (p : Payment) (c : option string) (w : world)
    (f : GatewayFailure) (l : num) (later : list (Payment * option string)) :
  cb_state (breaker_of w (gatewayId p)) = OPEN →
  w_calls (guard_call p c w).2 = w_calls w ++ [CallCharge (gatewayId p) p (Some (ChargeFailed f l))] →
  isTransient (gf_code f) = false →
  Forall (λ q, gatewayId q.1 = gatewayId p) later →
  ∃ os w', guard_calls later (guard_call p c w).2 = (Ok os, w') ∧ Forall is_err os ∧
    w_calls w' = w_calls (guard_call p c w).2.
Proof.
  intros Hopen Hcall Ht Hlater. apply (guard_calls_probing (gatewayId p)); [done|].
  destruct (guard_call_total p c w) as (o&w'&He&_&Hc). rewrite He in *. cbn in *.
  destruct Hc as [w' Hc _ _|now st k w' _ Hc _ _|now st now' k b r w' Ha _ Hc Hk _ _].
  - rewrite Hc in Hcall. apply (f_equal length) in Hcall. rewrite length_app in Hcall. cbn in Hcall. lia.
  - rewrite Hc in Hcall. apply (f_equal length) in Hcall. rewrite length_app in Hcall. cbn in Hcall. lia.
  - rewrite Hc in Hcall. apply app_inv_head in Hcall. injection Hcall as ->.
    rewrite Hk. cbn. rewrite Ht. unfold allowCall in Ha. rewrite Hopen in Ha.
    case_match; [|done]. by injection Ha as _ <-.
Qed.
End Properties.

(** ** The properties on the concrete platform *)
#[local] Existing Instance calm.

(** A declined card: the gateway answers and the breaker is not sampled. *)
Lemma guard_call_cases_witness :
  let w := start (λ _, NoFault) (stripe_plays [402]) in
  ∃ o w', guard_call (demo_payment "p1") None w = (Ok o, w') ∧
    call_case (demo_payment "p1") w o w' ∧
    match o with CallErr e => code e = INSUFFICIENT_FUNDS | CallOk _ _ _ => False end.
Proof.
  intros w. destruct (guard_call_cases (demo_payment "p1") None w) as (o&w'&He&Hc).
  exists o, w'. split; [done|]. split; [done|].
  assert (Ho : match (guard_call (demo_payment "p1") None w).1 with
               | Ok (CallErr e) => code e = INSUFFICIENT_FUNDS | _ => False end) by (vm_compute; done).
  rewrite He in Ho. cbn in Ho. by destruct o.
Defined.

Lemma guard_isolates_gateways_witness :
  let w := start (λ _, NoFault) (stripe_plays [503]) in
  w_buckets (guard_call (demo_payment "p1") None w).2 !! "paypal" = None.
Proof.
  intros w. exact (proj1 (guard_isolates_gateways (demo_payment "p1") None w "paypal" ltac:(done))).
Defined.

Lemma guard_refund_exempt_witness :
  let w := start (λ _, NoFault) (stripe_plays []) in
  ∃ r w', w_calls w' = [CallRefund "stripe" "tx" (Some r)] ∧ w_breakers w' = ∅ ∧
    (guard_refund "stripe" "tx" w).2 = w'.
Proof.
  intros w. destruct (guard_refund_exempt "stripe" "tx" w) as (r&w'&Hc&He&_&Hk).
  exists r, w'. split; [exact Hc|]. split; [exact Hk|]. by rewrite He.
Defined.

(** A breaker open since long ago, the next charge declined. *)
Definition open_world : world :=
  set_w_breakers {["stripe" := {| cb_params := breaker_paramsFor; cb_state := OPEN; window := [];
    openedAt := 1600000000000; probeInFlight := false; tripCount := 1 |}]}
    (start (λ _, NoFault) (stripe_plays [402])).

Lemma guard_probe_rejected_wedges_witness :
  ∃ os w', guard_calls [(demo_payment "p2", None); (demo_payment "p3", None)]
      (guard_call (demo_payment "p1") None open_world).2 = (Ok os, w') ∧ Forall is_err os ∧
    w_calls w' = w_calls (guard_call (demo_payment "p1") None open_world).2.
Proof.
  eapply (guard_probe_rejected_wedges (demo_payment "p1") None open_world);
    [vm_compute; reflexivity|vm_compute; reflexivity|vm_compute; reflexivity|repeat constructor].
Defined.
