(* ===== verification/Saga.v ===== *)
(** * Payment saga ([src/src/payments/payment-saga.service.ts])

    Reserve, charge, settle, with compensation on failure.  The saga mutates the
    payment record its caller holds, so it runs on pairs of the world and the
    record; an exception leaves the mutations made so far. *)

From S2P Require Import Prelude Num JsValue Errors Payment TokenBucket CircuitBreaker EventBus.
From S2P Require Import Json Redis Gateway Config World Registries Stores Sim Guard.

Record SagaOutcome := { so_transactionId : string; so_reservationId : string }.

Section Saga.
Context `{Platform}.

(** ** Methods that hold a record *)
#[local] Notation R := (M exn (world * PaymentRecord)) (only parsing).

(** A call that does not see the record. *)
Definition lift {A} (m : M exn world A) : R A := zoom fst (λ w s, (w, s.2)) m.
(** Assignments to fields of the record. *)
Definition upd (f : PaymentRecord → PaymentRecord) : R unit := modify (λ s, (s.1, f s.2)).
Definition the_record : R PaymentRecord := gets snd.

Definition record_attributes (r : PaymentRecord) : list (string * option string) :=
  [("paymentId", Some (id (payment r))); ("gatewayId", Some (gatewayId (payment r)));
   ("correlationId", Some (default "" (correlationId r)))].

(** [history(record, phase, event, detail)] *)
Definition add_history (phase : SagaPhase) (event : string) (detail : option string) : R unit :=
  at' ← lift date_now;
  upd (λ r, push_history r {| phase := phase; event := event; detail := detail; at_ := at' |}).

Definition save_record : R unit := r ← the_record; lift (store_save r).

Definition saga_audit (type : AuditType) (detail : list (string * jsval)) : R unit :=
  r ← the_record;
  lift (audit_record (id (payment r)) type None (Some detail)).

Definition emit_phase (phase : SagaPhase) (ok : bool) : R unit :=
  r ← the_record;
  at' ← lift date_now;
  lift (emit_event (EvSagaPhase (id (payment r)) (gatewayId (payment r)) phase ok at')).

Definition releaseFunds (reservationId : string) : R unit :=
  add_history PhCompensation "release_funds" (Some reservationId);;
  saga_audit A_release_funds [("reservationId", JString reservationId)];;
  r ← the_record;
  lift (trace_log L_warn ("payment " +:+ id (payment r) +:+ ": reservation " +:+ reservationId +:+
    " released (compensation)") "PaymentSagaService").

Definition refundCharge (transactionId : string) : R unit :=
  r ← the_record;
  refund ← lift (guard_refund (gatewayId (payment r)) transactionId);
  match refund with
  | RefundErr error =>
      add_history PhCompensation "refund_failed"
        (Some (ERROR_CODES (code error) +:+ ": " +:+ ppe_message error));;
      saga_audit A_refund_charge [("transactionId", JString transactionId); ("ok", JBool false);
        ("failure", JString (ppe_message error))];;
      let alertMsg := "CRITICAL: Payment " +:+ id (payment r) +:+
        " compensation refund failed for charge " +:+ transactionId +:+ ": " +:+ ppe_message error in
      lift (trace_log L_error alertMsg "PaymentSagaService");;
      raisedAt ← lift date_now;
      at' ← lift date_now;
      lift (emit_event (EvAlert
        {| al_id := "saga.compensation_failed." +:+ id (payment r); al_severity := Critical;
           al_message := alertMsg; al_value := None; al_threshold := None;
           al_raisedAt := raisedAt |} at'))
  | RefundedOk refundId _ _ =>
      upd (λ r, set_refundId r (Some refundId));;
      add_history PhCompensation "refund_charge" (Some refundId);;
      saga_audit A_refund_charge [("transactionId", JString transactionId); ("ok", JBool true);
        ("refundId", JString refundId)];;
      lift (trace_log L_warn ("payment " +:+ id (payment r) +:+ ": charge " +:+ transactionId +:+
        " refunded as " +:+ refundId +:+ " (compensation)") "PaymentSagaService")
  end.

Definition withCompensation {A} (phase : string) (fn : R A) : R A :=
  r ← the_record;
  withSpan SPAN_COMPENSATION (record_attributes r ++ [("phase", Some phase)]) fn.

(** ** The three steps *)
Definition reserve_step : R string :=
  r ← the_record;
  withSpan SPAN_RESERVE (record_attributes r) (
    now ← lift date_now;
    let reservationId := "res_" +:+ id (payment r) +:+ "_" +:+ to_base36 now in
    add_history PhReserve "ok" (Some reservationId);;
    mret reservationId).

Definition charge_step : R (CallOutcome num) :=
  r ← the_record;
  withSpan SPAN_CHARGE (record_attributes r)
    (lift (guard_call (payment r) (correlationId r))).

Definition charge_failed_step (reservationId : string) (error : PaymentProcessingError)
    : R SagaOutcome :=
  add_history PhCharge "failure" (Some (ERROR_CODES (code error)));;
  withCompensation "release_funds" (releaseFunds reservationId);;
  save_record;;
  emit_phase PhCharge false;;
  throw (EProcessing error).

Definition settle_step (transactionId : string) : R unit :=
  r ← the_record;
  withSpan SPAN_SETTLE (record_attributes r) (lift (settle (payment r) transactionId);; mret tt).

Definition settle_failed_error (r : PaymentRecord) (message transactionId : string)
    : PaymentProcessingError :=
  new_PaymentProcessingError
    ("settle failed after successful charge (" +:+ message +:+ "); charge " +:+ transactionId +:+
     " was refunded") SETTLE_FAILED None (Some (gatewayId (payment r))).

(** The [catch] block of the settle step. *)
Definition settle_failed_step (reservationId transactionId : string) (err : exn) : R unit :=
  let message := error_message err in
  add_history PhSettle "failure" (Some message);;
  withCompensation "refund_charge" (refundCharge transactionId);;
  withCompensation "release_funds" (releaseFunds reservationId);;
  upd (λ r, set_sagaState r Compensated);;
  save_record;;
  emit_phase PhSettle false;;
  r ← the_record;
  throw (EProcessing (settle_failed_error r message transactionId)).

Definition charge_ok_step (reservationId transactionId : string) (httpStatus : Z) : R SagaOutcome :=
  upd (λ r, set_transactionId r (Some transactionId));;
  upd (λ r, set_reservationId r (Some reservationId));;
  upd (λ r, set_sagaState r Charged);;
  add_history PhCharge "ok" (Some transactionId);;
  save_record;;
  saga_audit A_saga_charge [("transactionId", JString transactionId);
    ("httpStatus", JNumber (nof httpStatus))];;
  emit_phase PhCharge true;;
  catch (settle_step transactionId) (settle_failed_step reservationId transactionId);;
  upd (λ r, set_sagaState r Settled);;
  add_history PhSettle "ok" (Some transactionId);;
  saga_audit A_saga_settle [("transactionId", JString transactionId)];;
  emit_phase PhSettle true;;
  mret {| so_transactionId := transactionId; so_reservationId := reservationId |}.

Definition execute : R SagaOutcome :=
  reservationId ← reserve_step;
  upd (λ r, set_sagaState r Reserved);;
  save_record;;
  saga_audit A_saga_reserve [("reservationId", JString reservationId)];;
  emit_phase PhReserve true;;
  outcome ← charge_step;
  match outcome with
  | CallErr error => charge_failed_step reservationId error
  | CallOk transactionId httpStatus _ => charge_ok_step reservationId transactionId httpStatus
  end.
End Saga.

(** ** Frames of the saga's methods *)
Section Frames.
Context `{Platform}.

Lemma respects_lift_fst {A} (R : relation world) (m : M exn world A) :
  Respects R m → Respects (on_fst R) (lift m).
Proof.
  intros Hm [w r]. specialize (Hm w). unfold lift, zoom. cbn. by destruct (m w) as [? ?].
Qed.

#[global] Instance respects_lift_snd {A} (R : relation PaymentRecord) `{!PreOrder R} (m : M exn world A) :
  Respects (on_snd R) (lift m).
Proof. intros [w r]. unfold lift, zoom, on_snd. cbn. destruct (m w) as [? ?]. cbn. reflexivity. Qed.

#[global] Instance respects_upd_fst (R : relation world) `{!PreOrder R} f : Respects (on_fst R) (upd f).
Proof. intros [w r]. unfold on_fst. cbn. reflexivity. Qed.

Lemma halts_lift {A} (m : M exn world A) : Halts m → Halts (lift m).
Proof. apply halts_zoom. Qed.
#[global] Instance halts_upd f : Halts (upd f).
Proof. done. Qed.

Lemma respects_upd_snd (R : relation PaymentRecord) f : (∀ r, R r (f r)) → Respects (on_snd R) (upd f).
Proof. intros Hf [w r]. apply Hf. Qed.
End Frames.
Ltac frame_lift :=
  match goal with
  | |- Respects (on_fst _) (lift _) => apply respects_lift_fst
  | |- Halts (lift _) => apply halts_lift
  | _ => frame_span
  end.
Ltac frame_hook ::= frame_lift.
#[global] Typeclasses Opaque lift upd evolves.
#[export] Hint Extern 1 (Respects (on_snd (keeps _)) (upd _)) =>
  apply respects_upd_snd; intros ?; reflexivity : typeclass_instances.
#[export] Hint Extern 1 (Respects (on_snd evolves) (upd _)) =>
  apply respects_upd_snd; intros ?; solve [auto with qsys] : typeclass_instances.


(** ** The gateway calls of an execution *)
Section Calls.
Context `{Platform} `{!PaymentGatewayLaws num gws}.

(** No gateway is called, and the record evolves. *)
Definition quiet : relation (world * PaymentRecord) :=
  relation_conjunction (on_fst (keeps w_calls)) (on_snd evolves).

Lemma wp_lift {A} (m : M exn world A) (Q : outcome exn A → world * PaymentRecord → Prop) w r :
  wp m (λ o w', Q o (w', r)) w → wp (lift m) Q (w, r).
Proof. unfold lift. by rewrite wp_zoom. Qed.

Lemma wp_add_history phase ev detail (Q : outcome exn unit → world * PaymentRecord → Prop) w r :
  (∀ rt, rt_now (w_rt w) ≤ rt_now rt → Q (Ok tt) (set_w_rt rt w,
    push_history r {| phase := phase; event := ev; detail := detail; at_ := rt_now rt |})) →
  wp (add_history phase ev detail) Q (w, r).
Proof.
  intros HQ. unfold add_history. rewrite wp_bind. apply wp_lift, wp_date_now. intros rt Hrt.
  unfold upd. rewrite wp_modify. by apply HQ.
Qed.

Lemma wp_quiet_raises {A} (m : M exn (world * PaymentRecord) A) Q s :
  Respects quiet m → Halts m → raises m → (∀ e s', quiet s s' → Q (Throw e) s') → wp m Q s.
Proof.
  intros Hm Hh Hr HQ. apply (wp_yields _ _ _ _ Hr), (wp_frame quiet); [done..|].
  intros [a|e|] s' Ho Hs Hno; [by destruct (Hno a)|by apply HQ|done].
Qed.

Lemma quiet_trans s1 s2 s3 : quiet s1 s2 → quiet s2 s3 → quiet s1 s3.
Proof. intros [? ?] [? ?]. split; etrans; done. Qed.

(** What an execution may have asked of the gateway, with its result. *)
Definition saga_trace {A} (p : Payment) (made : list (gateway_call num)) (res : outcome exn A)
    (charged : string → A → Prop) : Prop :=
  match made with
  | [] => ∃ e, res = Throw e
  | [CallCharge g p' (Some (ChargeFailed _ _))] => g = gatewayId p ∧ p' = p ∧ ∃ e, res = Throw e
  | [CallCharge g p' (Some (ChargeOk tx _ _))] =>
      g = gatewayId p ∧ p' = p ∧ ((∃ a, res = Ok a ∧ charged tx a) ∨ ∃ e, res = Throw e)
  | [CallCharge g p' (Some (ChargeOk tx _ _)); CallRefund g' tx' (Some _)] =>
      g = gatewayId p ∧ p' = p ∧ g' = g ∧ tx' = tx ∧ ∃ e, res = Throw e
  | _ => False
  end.

Lemma charge_step_wp (Q : outcome exn (CallOutcome num) → world * PaymentRecord → Prop) w r :
  (∀ o w' made, w_calls w' = w_calls w ++ made → w_redis w' = w_redis w → w_cmds w' = w_cmds w →
    match made with
    | [] => ∃ e, o = CallErr e ∧ retryable e = true
    | [CallCharge g p (Some a)] => g = gatewayId (payment r) ∧ p = payment r ∧ o = outcome_of g a
    | _ => False
    end → Q (Ok o) (w', r)) →
  wp charge_step Q (w, r).
Proof.
  intros HQ. unfold charge_step, the_record. rewrite wp_bind, wp_gets, wp_withSpan. apply wp_lift.
  destruct (guard_call_total (payment r) (correlationId r) w) as (o&w'&He&[_ _ _ _ (Hr&Hn&_)]&Hc).
  unfold wp. cbn [snd]. rewrite He. cbn [fst snd on_world pair_has_world world_has_world].
  destruct Hc as [w' Hc _ _|now st k w' _ Hc _ _|now st now' k b a w' _ _ Hc _ _ _].
  - apply (HQ _ _ []); [by rewrite app_nil_r|done..|by eexists].
  - apply (HQ _ _ []); [by rewrite app_nil_r|done..|by eexists].
  - by apply (HQ _ _ [CallCharge (gatewayId (payment r)) (payment r) (Some a)]).
Qed.

Lemma refundCharge_wp (tx : string) (Q : outcome exn unit → world * PaymentRecord → Prop) w r :
  (∀ res w' r' a, res ≠ Diverged → evolves r r' →
    w_calls w' = w_calls w ++ [CallRefund (gatewayId (payment r)) tx (Some a)] → Q res (w', r')) →
  wp (refundCharge tx) Q (w, r).
Proof.
  intros HQ. unfold refundCharge, the_record. rewrite wp_bind, wp_gets, wp_bind. apply wp_lift.
  unfold guard_refund. rewrite wp_bind. apply wp_gateway_refund. intros a rt g _ _.
  set (w1 := set_w_calls _ _).
  assert (Hrest : ∀ m : M exn (world * PaymentRecord) unit, Respects quiet m → Halts m → wp m Q (w1, r)).
  { intros m Hm Hh. apply (wp_frame quiet); [done..|]. intros o [w' r'] Ho [Hc He].
    apply (HQ o w' r' a); [done..|]. unfold on_fst, keeps in Hc. by cbn in Hc. }
  destruct a as [rid h l|f l]; cbn [fst snd]; rewrite wp_ret; apply Hrest; unfold quiet; frame.
Qed.

(** After a failed settle nothing but the refund reaches the gateway, and the
    step throws. *)
Lemma settle_failed_wp (rid tx : string) (err : exn)
    (Q : outcome exn unit → world * PaymentRecord → Prop) w r :
  (∀ e w' r' a, evolves r r' →
    w_calls w' = w_calls w ++ [CallRefund (gatewayId (payment r)) tx (Some a)] → Q (Throw e) (w', r')) →
  wp (settle_failed_step rid tx err) Q (w, r).
Proof.
  intros HQ. unfold settle_failed_step. cbv zeta. rewrite wp_bind. apply wp_add_history. intros rt _.
  set (r1 := push_history r _). assert (Hr1 : evolves r r1) by apply evolves_push.
  rewrite wp_bind. unfold withCompensation at 1, the_record. rewrite wp_bind, wp_gets, wp_withSpan.
  apply refundCharge_wp. cbn [snd]. intros res w2 r2 a Hres Hr2 Hc2.
  assert (HQ' : ∀ e s', quiet (w2, r2) s' → Q (Throw e) s').
  { intros e [w' r'] [Hc He]. unfold on_fst, on_snd, keeps in Hc, He. cbn in Hc, He. apply (HQ e w' r' a).
    - etrans; [done|]. by etrans.
    - rewrite Hc, Hc2. unfold r1. cbn. done. }
  assert (Hspan : ∀ ok, quiet (w2, r2) (on_world (end_span SPAN_COMPENSATION
    (record_attributes r1 ++ [("phase", Some "refund_charge")]) ok) (w2, r2))) by (intros ok; by split).
  destruct res as [[]|e|]; [|by apply HQ', Hspan|done].
  cbv beta iota. apply wp_quiet_raises; [unfold quiet; frame|frame|yields|].
  intros e s' Hs. by eapply HQ', quiet_trans.
Qed.

End Calls.

(** One quiet step; [Hq] relates the start to the current state, [Ht] settles an
    exception. *)
Ltac quiet_step Hq Ht :=
  apply (wp_bind_frame quiet);
  [unfold quiet; frame | frame
  | let e := fresh in let s := fresh in let Hs := fresh in
    intros e s Hs; exact (Ht e s (quiet_trans _ _ _ Hq Hs))
  | let a := fresh "a" in let s := fresh "s" in let Hs := fresh in
    intros a s Hs; apply (quiet_trans _ _ _ Hq) in Hs; clear Hq; rename Hs into Hq; cbv beta iota].

Section Execution.
Context `{Platform} `{!PaymentGatewayLaws num gws}.

(** From a successful charge on: no further charge; a refund only on the way to
    an exception. *)
Lemma charge_ok_wp (rid tx : string) (h : Z)
    (Q : outcome exn SagaOutcome → world * PaymentRecord → Prop) s0 :
  (∀ s', quiet s0 s' → Q (Ok {| so_transactionId := tx; so_reservationId := rid |}) s') →
  (∀ e s', quiet s0 s' → Q (Throw e) s') →
  (∀ e s' a, evolves s0.2 s'.2 →
    w_calls s'.1 = w_calls s0.1 ++ [CallRefund (gatewayId (payment s0.2)) tx (Some a)] → Q (Throw e) s') →
  wp (charge_ok_step rid tx h) Q s0.
Proof.
  intros Hok Ht Href. unfold charge_ok_step. assert (Hq : quiet s0 s0) by (by split).
  do 4 (quiet_step Hq Ht). quiet_step Hq Ht. quiet_step Hq Ht. quiet_step Hq Ht.
  rewrite wp_bind, wp_catch. apply (wp_frame quiet); [unfold quiet; frame|frame|].
  intros [[]|e|] s7 Ho Hs7; [| |done]; apply (quiet_trans _ _ _ Hq) in Hs7; clear Hq.
  - rename Hs7 into Hq. do 4 (quiet_step Hq Ht). rewrite wp_ret. by apply Hok.
  - destruct s7 as [w7 r7]. apply settle_failed_wp. intros e' w' r' ans He Hc.
    destruct Hs7 as [Hc7 He7]. unfold on_fst, on_snd, keeps in Hc7, He7. cbn in Hc7, He7.
    apply (Href e' (w', r') ans); cbn; [by etrans|]. rewrite Hc, Hc7. by destruct He7 as [-> _].
Qed.

(** The whole execution. *)
Lemma execute_calls_wp w r :
  wp execute (λ res s', evolves r s'.2 ∧ ∃ made, w_calls s'.1 = w_calls w ++ made ∧
    saga_trace (payment r) made res (λ tx o, so_transactionId o = tx)) (w, r).
Proof.
  unfold execute. assert (Hq : quiet (w, r) (w, r)) by (by split).
  set (Q := λ res s', _).
  assert (Ht : ∀ e s', quiet (w, r) s' → Q (Throw e) s').
  { intros e s' [Hc He]. split; [done|]. exists []. rewrite app_nil_r. split; [done|by exists e]. }
  do 5 (quiet_step Hq Ht). destruct s3 as [w4 r4]. destruct Hq as [Hc4 He4].
  unfold on_fst, on_snd, keeps in Hc4, He4. cbn in Hc4, He4.
  rewrite wp_bind. apply charge_step_wp. intros o w5 made Hc5 _ _ Hmade.
  assert (Hp : payment r4 = payment r) by apply He4. rewrite Hp in Hmade.
  assert (Hfail : ∀ err, saga_trace (payment r) made (Throw (EProcessing err) : outcome exn SagaOutcome)
      (λ tx o, so_transactionId o = tx) → (∀ e : exn, saga_trace (payment r) made
      (Throw e : outcome exn SagaOutcome) (λ tx o, so_transactionId o = tx)) →
    wp (charge_failed_step a err) Q (w5, r4)).
  { intros err _ Hany. apply wp_quiet_raises; [unfold quiet; frame|frame|unfold charge_failed_step; yields|].
    intros e [w' r'] [Hc He]. unfold on_fst, on_snd, keeps in Hc, He. cbn in Hc, He.
    split; [by etrans|]. exists made. split; [cbn [fst]; by rewrite Hc, Hc5, Hc4|apply Hany]. }
  destruct made as [|[g p [ans|]|] [|]]; try done.
  - destruct Hmade as (err&->&_). apply Hfail; cbn; eauto.
  - destruct Hmade as (->&->&->). destruct ans as [tx h l|f l]; cbn [outcome_of]; [|apply Hfail; cbn; eauto].
    apply charge_ok_wp.
    + intros [w' r'] [Hc He]. unfold on_fst, on_snd, keeps in Hc, He. cbn in Hc, He.
      split; [by etrans|]. eexists. split; [cbn [fst]; by rewrite Hc, Hc5, Hc4|]. cbn. eauto 10.
    + intros e [w' r'] [Hc He]. unfold on_fst, on_snd, keeps in Hc, He. cbn in Hc, He.
      split; [by etrans|]. eexists. split; [cbn [fst]; by rewrite Hc, Hc5, Hc4|]. cbn. eauto 10.
    + intros e [w' r'] ans He Hc. cbn in Hc, He. split; [by etrans|].
      eexists. split; [cbn [fst]; by rewrite Hc, Hc5, Hc4, <-app_assoc, Hp|]. cbn. eauto 10.
Qed.

(** The saga assigns neither the status nor the retry count. *)
#[global] Instance execute_status :
  Respects (on_snd (keeps (λ r, (status r, retryCount r)))) execute.
Proof. frame. Qed.

#[global] Instance execute_elapses : Respects (on_fst elapses) execute.
Proof. frame. Qed.
End Execution.
