(* ===== verification/SagaSpec.v ===== *)
(** * What a saga execution does ([src/src/payments/payment-saga.service.ts])

    Symbolic execution of the saga of [Saga.v]: every way an execution can end
    when at most the append to the settlement ledger is lost, with the traces it
    leaves in the record, the audit log, the ledger and on the gateway. *)

From S2P Require Import Prelude Num JsValue Errors Payment TokenBucket CircuitBreaker EventBus.
From S2P Require Import Json Redis Gateway Config World Registries Stores Sim Guard Saga.

(** ** Executions that meet no fault *)

(** Typedness of the key space after the last write. *)
Ltac typed_now :=
  world_simpl;
  try match goal with
  | H : w_redis ?w = _ |- typed (view (w_redis ?w)) => rewrite H
  | H : view ?s = view _ |- typed (view ?s) => rewrite H
  end;
  match goal with
  | H : typed ?d |- typed ?d => exact H
  | H : saved _ _ _ ?d |- typed ?d => exact (sv_typed _ _ _ _ H)
  | H : audited _ _ _ ?d |- typed ?d => exact (au_typed _ _ _ _ H)
  | H : settled _ _ ?d |- typed ?d => exact (st_typed _ _ _ H)
  end.

(** The time of a step is forgotten here; redefined where it matters. *)
Ltac keep_time := intros _.

(** One step of a method; [nofault] shows that its command meets no fault. *)
Ltac saga_step nofault :=
  lazymatch goal with
  | |- wp (_ ≫= _) _ _ => rewrite wp_bind
  | |- wp (mret _) _ _ => rewrite wp_ret
  | |- wp (throw _) _ _ => rewrite wp_throw
  | |- wp (upd _) _ _ => unfold upd; rewrite wp_modify
  | |- wp the_record _ _ => unfold the_record; rewrite wp_gets
  | |- wp (withSpan _ _ _) _ _ => rewrite wp_withSpan
  | |- wp (lift _) _ _ => apply wp_lift
  | |- wp (add_history _ _ _) _ _ => apply wp_add_history; intros ?; keep_time
  | |- wp date_now _ _ => apply wp_date_now; intros ?; keep_time
  | |- wp (emit_event _) _ _ => unfold emit_event; rewrite wp_modify
  | |- wp (trace_log _ _ _) _ _ => unfold trace_log, correlation_current
  | |- wp (gets _) _ _ => rewrite wp_gets
  | |- wp (modify _) _ _ => rewrite wp_modify
  | |- wp (store_save _) _ _ => apply wp_store_save; [nofault|typed_now|intros ? ?; keep_time; intros ?]
  | |- wp (audit_record _ _ None _) _ _ => apply wp_audit_record; [nofault|typed_now|intros ? ? ?; keep_time; intros ?]
  | |- wp (settle _ _) _ _ => apply wp_settle; [nofault|typed_now|intros ? ? ?; keep_time; intros ?]
  | |- wp (catch _ _) _ _ => rewrite wp_catch
  | |- wp charge_step _ _ => fail
  | |- wp (guard_refund _ _) _ _ => fail
  | |- wp ?m _ _ => unfold_method m
  end; cbv beta iota; world_simpl.

(** Reads an observation back through the writes of an execution. *)
Ltac observe :=
  repeat match goal with
  | H : saved _ _ _ (view ?s) |- context [audit_of (view ?s) ?i] => rewrite (sv_audit _ _ _ _ H i)
  | H : audited _ _ _ (view ?s) |- context [audit_of (view ?s) _] => rewrite (au_audit _ _ _ _ H)
  | H : settled _ _ (view ?s) |- context [audit_of (view ?s) ?i] => rewrite (st_audit _ _ _ H i)
  | H : saved _ _ _ (view ?s) |- context [ledger_of (view ?s)] => rewrite (sv_ledger _ _ _ _ H)
  | H : audited _ _ _ (view ?s) |- context [ledger_of (view ?s)] => rewrite (au_ledger _ _ _ _ H)
  | H : settled _ _ (view ?s) |- context [ledger_of (view ?s)] => rewrite (st_ledger _ _ _ H)
  | H : saved _ _ _ (view ?s) |- context [stored (view ?s) _] => rewrite (sv_stored _ _ _ _ H)
  | H : audited _ _ _ (view ?s) |- context [stored (view ?s) ?i] => rewrite (au_stored _ _ _ _ H i)
  | H : settled _ _ (view ?s) |- context [stored (view ?s) ?i] => rewrite (st_stored _ _ _ H i)
  | H : view ?s = view _ |- context [view ?s] => rewrite H
  end.

(** The idempotency records and the locks through the writes of an execution. *)
Ltac strings_back :=
  let k := fresh "k" in let Hk := fresh "Hk" in intros k Hk;
  repeat match goal with
  | H : view ?s = view _ |- context [view ?s] => rewrite H
  | H : saved _ _ _ (view ?s) |- context [view ?s] => rewrite (sv_strings _ _ _ _ H k Hk)
  | H : audited _ _ _ (view ?s) |- context [view ?s] => rewrite (au_strings _ _ _ _ H k Hk)
  | H : settled _ _ (view ?s) |- context [view ?s] => rewrite (st_strings _ _ _ H k Hk)
  end; reflexivity.

Section Calm.
Context `{PlatformLaws}.

Definition entry_name (e : SagaHistoryEntry) : SagaPhase * string := (phase e, event e).

(** The traces an execution on [r] leaves on its way from [w] to [w'] and [r']. *)
Record saga_effect (w : world) (r : PaymentRecord) (w' : world) (r' : PaymentRecord)
    (entries : list (SagaPhase * string)) (audits : list AuditType) : Prop := {
  se_typed : typed (db_of w');
  se_history : map entry_name (history r') = map entry_name (history r) ++ entries;
  se_audit : map ae_type (audit_of (db_of w') (id (payment r))) =
    map ae_type (audit_of (db_of w) (id (payment r))) ++ audits;
  se_strings : same_strings (db_of w) (db_of w')
}.

(** How an execution ends when at most the append to the ledger is lost: it
    settles; or the charge is not made; or the charge is made and not settled. *)
Inductive saga_case (w : world) (r : PaymentRecord) :
    outcome exn SagaOutcome → world → PaymentRecord → Prop :=
  | saga_settled w' r' tx rid h l t :
      w_calls w' = w_calls w ++ [CallCharge (gatewayId (payment r)) (payment r) (Some (ChargeOk tx h l))] →
      saga_effect w r w' r' [(PhReserve, "ok"); (PhCharge, "ok"); (PhSettle, "ok")]
        [A_saga_reserve; A_saga_charge; A_saga_settle] →
      ledger_of (db_of w') = ledger_of (db_of w) ++ [settlement (payment r) tx t] →
      sagaState r' = Settled → transactionId r' = Some tx → reservationId r' = Some rid →
      fault (w_cmds w + 4) = NoFault →
      saga_case w r (Ok {| so_transactionId := tx; so_reservationId := rid |}) w' r'
  | saga_not_charged w' r' made error :
      w_calls w' = w_calls w ++ made →
      match made with
      | [] => retryable error = true
      | [CallCharge g p (Some (ChargeFailed f _))] =>
          g = gatewayId (payment r) ∧ p = payment r ∧ error = toProcessingError f g
      | _ => False
      end →
      saga_effect w r w' r' [(PhReserve, "ok"); (PhCharge, "failure"); (PhCompensation, "release_funds")]
        [A_saga_reserve; A_release_funds] →
      ledger_of (db_of w') = ledger_of (db_of w) →
      stored (db_of w') (id (payment r)) = Some (json_norm r') →
      saga_case w r (Throw (EProcessing error)) w' r'
  | saga_compensated w' r' tx h l answer m :
      w_calls w' = w_calls w ++
        [CallCharge (gatewayId (payment r)) (payment r) (Some (ChargeOk tx h l));
         CallRefund (gatewayId (payment r)) tx (Some answer)] →
      saga_effect w r w' r'
        [(PhReserve, "ok"); (PhCharge, "ok"); (PhSettle, "failure");
         (PhCompensation, match answer with RefundOk _ _ _ => "refund_charge" | _ => "refund_failed" end);
         (PhCompensation, "release_funds")]
        [A_saga_reserve; A_saga_charge; A_refund_charge; A_release_funds] →
      match fault (w_cmds w + 4) with
      | LostCommand m' => m = m' ∧ ledger_of (db_of w') = ledger_of (db_of w)
      | LostReply m' =>
          m = m' ∧ ∃ t, ledger_of (db_of w') = ledger_of (db_of w) ++ [settlement (payment r) tx t]
      | NoFault => False
      end →
      sagaState r' = Compensated →
      match answer with RefundOk rid _ _ => refundId r' = Some rid | _ => refundId r' = refundId r end →
      stored (db_of w') (id (payment r)) = Some (json_norm r') →
      saga_case w r (Throw (EProcessing (settle_failed_error r m tx))) w' r'.

Lemma wp_guard_refund g tx (Q : outcome exn (RefundOutcome num) → world → Prop) w :
  (∀ a rt gs, Q (Ok match a with
      | RefundOk rid h l => RefundedOk rid h l
      | RefundFailed f _ => RefundErr (toProcessingError f g)
      end) (set_w_calls (w_calls w ++ [CallRefund g tx (Some a)]) (set_w_gws gs (set_w_rt rt w)))) →
  wp (guard_refund g tx) Q w.
Proof.
  intros HQ. unfold guard_refund. rewrite wp_bind. apply wp_gateway_refund. intros a rt gs _ _.
  specialize (HQ a rt gs). by destruct a; rewrite wp_ret.
Qed.

(** The append to the ledger meets its fate. *)
Lemma wp_settle_fate p tx (Q : outcome exn SettlementEntry → world → Prop) w :
  typed (db_of w) →
  (∀ t rt s, match fault (w_cmds w) with
    | NoFault => settled (db_of w) (settlement p tx t) (view s) →
        Q (Ok (settlement p tx t)) (after_cmd rt s w)
    | LostCommand m => view s = db_of w → Q (Throw (EError m)) (after_cmd rt s w)
    | LostReply m => settled (db_of w) (settlement p tx t) (view s) →
        Q (Throw (EError m)) (after_cmd rt s w)
    end) →
  wp (settle p tx) Q w.
Proof.
  intros Hd HQ. destruct (fault (w_cmds w)) as [|m|m] eqn:Hf.
  - apply wp_settle; [done..|]. intros t rt s _ Hs. by apply HQ.
  - unfold settle. rewrite wp_bind. apply wp_date_now. intros rt1 Hrt1. rewrite wp_bind.
    unfold wp, redis_cmd. destruct (read_clock _ _) as [now rt]. cbn [w_cmds set_w_rt]. rewrite Hf.
    exact (HQ 0 rt (w_redis w) eq_refl).
  - unfold settle. rewrite wp_bind. apply wp_date_now. intros rt1 Hrt1. rewrite wp_bind.
    unfold wp, redis_cmd. destruct (read_clock _ _) as [now rt]. cbn [w_cmds set_w_rt]. rewrite Hf.
    set (c := RPUSH _ _). apply (HQ (rt_now rt1) rt (exec now c (w_redis w)).2).
    rewrite (proj2 (exec_spec _ now c (w_redis w))). unfold c.
    pose proof (spec_rpush now ledger_key (stringify (settlement p tx (rt_now rt1))) (db_of w) Hd eq_refl)
      as [n Hn]. unfold db_of, settlement in *. cbn [w_redis set_w_rt] in *. rewrite Hn. by apply put_settled.
Qed.

(** Closes a goal on the traces of a finished execution. *)
Ltac saga_end :=
  world_simpl;
  lazymatch goal with
  | |- saga_effect _ _ _ _ _ _ =>
      split; world_simpl; [typed_now|rewrite !map_app, <-?app_assoc; reflexivity
        |observe; rewrite !map_app, <-?app_assoc; reflexivity|strings_back]
  | |- _ => first [done | by observe]
  end.

(** The end of a compensated execution. *)
Ltac compensated nofault r tx h l answer m calls :=
  do 80 try (saga_step nofault);
  change (settle_failed_error _ _ tx) with (settle_failed_error r m tx);
  eapply (saga_compensated _ _ _ _ tx h l answer m);
  [world_simpl; by rewrite calls, <-app_assoc|saga_end| |saga_end|saga_end|saga_end].

(** Everything but the append to the ledger, the fifth command. *)
Lemma execute_case_wp w r :
  typed (db_of w) → (∀ i, i ≠ (w_cmds w + 4)%nat → fault i = NoFault) →
  wp execute (λ res s', saga_case w r res s'.1 s'.2) (w, r).
Proof.
  intros Hw Hcalm. unfold execute.
  do 60 try (saga_step ltac:(apply Hcalm; cbn; lia)).
  apply charge_step_wp. intros o w5 made Hc5 Hr5 Hn5 Hmade. world_simpl. subst s0.
  destruct o as [tx h l|err].
  2: { unfold charge_failed_step. do 80 try (saga_step ltac:(apply Hcalm; cbn; rewrite ?Hn5; lia)).
       eapply saga_not_charged; [exact Hc5| |saga_end..].
       destruct made as [|[g p [[]|]|] [|]]; try done; [by destruct Hmade as (?&[= ->]&?)|destruct Hmade as (->&->&[= ->]); done..]. }
  destruct made as [|[g p [[tx' h' l'|]|]|] [|]]; try done; [by destruct Hmade as (?&?&?)| |by destruct Hmade as (?&?&?)].
  destruct Hmade as (->&->&[= <- <- <-]).
  unfold charge_ok_step. do 80 try (saga_step ltac:(apply Hcalm; cbn; rewrite ?Hn5; lia)).
  apply wp_settle_fate; [typed_now|]. intros t1 rt8 s3. world_simpl. rewrite Hn5.
  replace (S (S (S (S (w_cmds w))))) with (w_cmds w + 4)%nat by lia.
  destruct (fault (w_cmds w + 4)) as [|m|m] eqn:Hfate; intros Hs3;
    do 80 try (saga_step ltac:(apply Hcalm; cbn; rewrite ?Hn5; lia)).
  - eapply saga_settled; try saga_end; try (rewrite Hc5; reflexivity).
  - apply wp_guard_refund. intros a rt' gs'. world_simpl. destruct a as [rid h' l'|f l'].
    + compensated ltac:(apply Hcalm; cbn; rewrite ?Hn5; lia) r tx h l (RefundOk rid h' l') m Hc5.
      rewrite Hfate. split; [done|]. world_simpl. by observe.
    + compensated ltac:(apply Hcalm; cbn; rewrite ?Hn5; lia) r tx h l (RefundFailed f l') m Hc5.
      rewrite Hfate. split; [done|]. world_simpl. by observe.
  - apply wp_guard_refund. intros a rt' gs'. world_simpl. destruct a as [rid h' l'|f l'].
    + compensated ltac:(apply Hcalm; cbn; rewrite ?Hn5; lia) r tx h l (RefundOk rid h' l') m Hc5.
      rewrite Hfate. split; [done|]. world_simpl. exists t1. by observe.
    + compensated ltac:(apply Hcalm; cbn; rewrite ?Hn5; lia) r tx h l (RefundFailed f l') m Hc5.
      rewrite Hfate. split; [done|]. world_simpl. exists t1. by observe.
Qed.

(** The outcome reports the transaction [tx]. *)
Definition reports (tx : string) (out : SagaOutcome) : Prop := so_transactionId out = tx.

(** ** Properties *)

(** C3: the saga does what it promises, when Redis answers (the append to the
    settlement ledger, the fifth command, may be lost).  Either reserve, charge
    and settle all succeed: exactly one charge, one settlement entry for it, the
    three steps in history and audit log, the record settled; or the charge is
    refused: the reservation is released, nothing is settled, the record is
    stored and the classified error is thrown; or the charge succeeds and the
    settlement fails: the charge is refunded once, the reservation released, the
    record stored as compensated and SETTLE_FAILED is thrown, and then the ledger
    has no entry of the payment unless the append was executed and only its reply
    was lost. *)
Theorem saga_execute_cases (w : world) (r : PaymentRecord) :
  typed (db_of w) → (∀ i, i ≠ (w_cmds w + 4)%nat → fault i = NoFault) →
  ∃ res w' r', execute (w, r) = (res, (w', r')) ∧ saga_case w r res w' r'.
Proof.
  intros Hw Hcalm. pose proof (execute_case_wp w r Hw Hcalm) as Hwp. unfold wp in Hwp.
  destruct (execute (w, r)) as [res [w' r']]. eauto.
Qed.

(** Whatever commands are lost, one execution of the saga always ends and
    makes at most one charge, for this payment on its gateway; it refunds at
    most once, only the transaction that charge returned, and only to report a
    failure; it returns normally only after a successful charge that was not
    refunded, with its transaction id.  The payment, its job id and its
    correlation id are never changed and its history only grows. *)
Theorem saga_gateway_trace (w : world) (r : PaymentRecord) :
  ∃ res w' r' made, execute (w, r) = (res, (w', r')) ∧ evolves r r' ∧
    w_calls w' = w_calls w ++ made ∧
    saga_trace (payment r) made res reports.
Proof.
  pose proof (execute_calls_wp w r) as Hwp. unfold wp in Hwp.
  destruct (execute (w, r)) as [res [w' r']]. destruct Hwp as (He&made&Hc&Ht). by exists res, w', r', made.
Qed.
End Calm.

(** ** The properties on the concrete platform *)

(** The gateway accepts, the append to the ledger is lost, the refund passes. *)
Lemma saga_execute_cases_witness :
  let fates := λ i, if bool_decide (i = 4%nat) then LostReply "Connection is closed." else NoFault in
  let w := start fates (stripe_plays []) in
  ∃ res w' r', @execute (sim fates) (w, demo_record "p1") = (res, (w', r')) ∧
    @saga_case (sim fates) (sim_laws fates) w (demo_record "p1") res w' r' ∧
    sagaState r' = Compensated ∧ length (@ledger_of (sim fates) (@db_of (sim fates) _ w')) = 1%nat.
Proof.
  intros fates w.
  destruct (@saga_execute_cases (sim fates) (sim_laws fates) w (demo_record "p1")) as (res&w'&r'&He&Hc).
  - apply empty_typed.
  - intros i Hi. cbn. unfold fates. by rewrite bool_decide_false.
  - exists res, w', r'. split; [exact He|]. split; [exact Hc|].
    assert (H1 : sagaState (@execute (sim fates) (w, demo_record "p1")).2.2 = Compensated)
      by (vm_compute; reflexivity).
    assert (H2 : length (@ledger_of (sim fates) (@db_of (sim fates) _
      (@execute (sim fates) (w, demo_record "p1")).2.1)) = 1%nat) by (vm_compute; reflexivity).
    rewrite He in H1, H2. exact (conj H1 H2).
Defined.

Lemma saga_gateway_trace_witness :
  let w := boot (stripe_plays [200; 503]) in
  ∃ res w' r' made, @execute calm (w, demo_record "p1") = (res, (w', r')) ∧
    w_calls w' = made ∧ length made = 1%nat.
Proof.
  intros w. destruct (@saga_gateway_trace calm _ w (demo_record "p1")) as (res&w'&r'&made&He&_&Hc&_).
  exists res, w', r', made. split; [exact He|]. split; [exact Hc|].
  assert (Hl : length (w_calls (@execute calm (w, demo_record "p1")).2.1) = 1%nat) by (vm_compute; reflexivity).
  rewrite He in Hl. change (w_calls w' = made) in Hc. cbn [fst snd] in Hl. rewrite Hc in Hl. exact Hl.
Defined.
