(* ===== verification/Idempotency.v ===== *)
(** * Two-phase idempotency ([src/src/payments/idempotency.service.ts])

    The processing lease of a payment id, its finalisation, and the execution
    lock of the workers, on keys that expire. *)

From S2P Require Import Prelude Num JsValue Errors Payment TokenBucket Json Redis Config World.
From S2P Require Import Stores Sim.

Inductive ClaimResult :=
  | ClaimNew
  | ClaimConflict (record : IdempotencyRecord)
  | ClaimReplayed (record : IdempotencyRecord).

(** The second argument of [finalize]. *)
Record FinalizeInput := {
  fi_state : IdempotencyState;
  fi_paymentStatus : option PaymentStatus;
  fi_transactionId : option string;
  fi_failureReason : option string
}.

Section Idempotency.
Context `{Platform}.

Definition idem_get (paymentId : string) : M exn world (option IdempotencyRecord) :=
  raw ← redis_cmd (GET (idempotency_key paymentId));
  mret (parse_or_null raw).

Definition getTtlMs (paymentId : string) : M exn world Z :=
  redis_cmd (PTTL (idempotency_key paymentId)).

Definition processing_record (paymentId : string) (claimed now : Z) : IdempotencyRecord :=
  {| ir_paymentId := paymentId; state := PROCESSING; paymentStatus := None;
     ir_transactionId := None; ir_failureReason := None; claimedAt := Some claimed;
     updatedAt := Some now |}.

(** [existing?.claimedAt ?? now] *)
Definition first_claim (existing : option IdempotencyRecord) (now : Z) : Z :=
  default now (existing ≫= claimedAt).

Definition acquireExecutionLock (paymentId : string) : M exn world bool :=
  let lockTtlSeconds := leaseTtlSeconds (idempotency config) in
  acquired ← redis_cmd (SET_NX_EX (lock_key paymentId) (literal "1") lockTtlSeconds);
  if negb acquired then mret false
  else
    existing ← idem_get paymentId;
    now ← date_now;
    let record := processing_record paymentId (first_claim existing now) now in
    redis_cmd (SET_EX (idempotency_key paymentId) (stringify record) lockTtlSeconds);;
    mret true.

Definition releaseExecutionLock (paymentId : string) : M exn world unit :=
  redis_cmd (DEL (lock_key paymentId));; mret tt.

Definition claim (paymentId : string) : M exn world ClaimResult :=
  now ← date_now;
  let record := processing_record paymentId now now in
  let leaseTtl := leaseTtlSeconds (idempotency config) in
  acquired ← redis_cmd (SET_NX_EX (idempotency_key paymentId) (stringify record) leaseTtl);
  if (acquired : bool) then mret ClaimNew
  else
    existing ← idem_get paymentId;
    match existing with
    | None => mret (ClaimConflict record)
    | Some existing =>
        if bool_decide (state existing = PROCESSING) then mret (ClaimConflict existing)
        else mret (ClaimReplayed existing)
    end.

Definition release (paymentId : string) : M exn world unit :=
  redis_cmd (DEL (idempotency_key paymentId));; mret tt.

Definition final_record (paymentId : string) (input : FinalizeInput) (claimed now : Z)
    : IdempotencyRecord :=
  {| ir_paymentId := paymentId; state := fi_state input; paymentStatus := fi_paymentStatus input;
     ir_transactionId := fi_transactionId input; ir_failureReason := fi_failureReason input;
     claimedAt := Some claimed; updatedAt := Some now |}.

Definition finalize (paymentId : string) (input : FinalizeInput) : M exn world unit :=
  previous ← idem_get paymentId;
  now ← date_now;
  let record := final_record paymentId input (first_claim previous now) now in
  redis_cmd (SET_EX (idempotency_key paymentId) (stringify record)
    (retentionSeconds (idempotency config)));;
  mret tt.
End Idempotency.

(** ** Expiring keys *)
Section Keys.
Context `{PlatformLaws}.
Implicit Types (d : db text).

(** [d'] is [d] but for the key [k]. *)
Definition only_key (k : string) d d' : Prop :=
  ∀ k', k' ≠ k → (d' : gmap string (entry text)) !! k' = (d : gmap string (entry text)) !! k'.

(** The key [k] holds the text [v] until [expires]. *)
Definition holds (k : string) (v : text) (expires : Z) d : Prop :=
  (d : gmap string (entry text)) !! k = Some {| e_value := VString v; e_expires := Some expires |}.

Definition idem_at (now : Z) d (paymentId : string) : option IdempotencyRecord :=
  parse_or_null (string_at now (idempotency_key paymentId) d).

Lemma holds_string_at k v expires d now : holds k v expires d →
  string_at now k d = if expires <=? now then None else Some v.
Proof. unfold holds, string_at, live. intros ->. cbn. by destruct (expires <=? now). Qed.

Lemma parse_or_null_stringify (r : IdempotencyRecord) : parse_or_null (Some (stringify r : text)) = Some r.
Proof. unfold parse_or_null. cbn [mbind option_bind]. by rewrite parse_stringify. Qed.

Lemma put_holds k v expires d : holds k v expires (put k (VString v) (Some expires) d).
Proof. unfold holds, put. by rewrite lookup_insert_eq. Qed.

Lemma put_only_key k v x d : only_key k d (put k v x d).
Proof. intros k' Hk. unfold put. by rewrite lookup_insert_ne. Qed.

Lemma delete_only_key k d : only_key k d (delete k (d : gmap string (entry text)) : db text).
Proof. intros k' Hk. by rewrite lookup_delete_ne. Qed.

(** A write to a key of the idempotency records or locks is not seen by the
    other stores. *)
Lemma only_key_stored k d d' id : only_key k d d' → key_kind k = KString → stored d' id = stored d id.
Proof.
  intros Hk Hs. unfold stored, hash_at. rewrite (Hk (store_key id)); [done|].
  intros Heq. by rewrite <-Heq, store_key_kind in Hs.
Qed.
Lemma only_key_audit k d d' id : only_key k d d' → key_kind k = KString → audit_of d' id = audit_of d id.
Proof.
  intros Hk Hs. unfold audit_of, list_at. rewrite (Hk (audit_key id)); [done|].
  intros Heq. by rewrite <-Heq, audit_key_kind in Hs.
Qed.
Lemma only_key_ledger k d d' : only_key k d d' → key_kind k = KString → ledger_of d' = ledger_of d.
Proof.
  intros Hk Hs. unfold ledger_of, list_at. rewrite (Hk ledger_key); [done|].
  intros Heq. by rewrite <-Heq in Hs.
Qed.

Lemma typed_put_string k v x d : typed d → key_kind k = KString → typed (put k (VString v) x d).
Proof. intros Hd Hk. apply typed_put; [done|]. unfold entry_typed. rewrite Hk. eauto. Qed.

(** *** The commands of the service *)
Lemma wp_idem_get pid (Q : outcome exn (option IdempotencyRecord) → world → Prop) w :
  fault (w_cmds w) = NoFault → typed (db_of w) →
  (∀ rt s, rt_now (w_rt w) ≤ rt_now rt → view s = db_of w →
    Q (Ok (idem_at (rt_now rt) (db_of w) pid)) (after_cmd rt s w)) →
  wp (idem_get pid) Q w.
Proof.
  intros Hf Hd HQ. unfold idem_get. rewrite wp_bind. apply wp_redis_cmd; [done|]. intros rt s Hrt Hs.
  rewrite spec_get in Hs |- * by auto with qsys. cbn. rewrite wp_ret. by apply HQ.
Qed.

Lemma wp_set_ex k v ttl (Q : outcome exn unit → world → Prop) w :
  fault (w_cmds w) = NoFault → typed (db_of w) → key_kind k = KString →
  (∀ rt s, rt_now (w_rt w) ≤ rt_now rt → typed (view s) → only_key k (db_of w) (view s) →
    holds k v (rt_now rt + 1000 * ttl) (view s) → Q (Ok tt) (after_cmd rt s w)) →
  wp (redis_cmd (SET_EX k v ttl)) Q w.
Proof.
  intros Hf Hd Hk HQ. apply wp_redis_cmd; [done|]. cbn. intros rt s Hrt Hs. apply HQ; [done|..]; rewrite Hs.
  - by apply typed_put_string.
  - apply put_only_key.
  - apply put_holds.
Qed.

Lemma wp_set_nx k v ttl (Q : outcome exn bool → world → Prop) w :
  fault (w_cmds w) = NoFault → typed (db_of w) → key_kind k = KString →
  (∀ rt s, rt_now (w_rt w) ≤ rt_now rt → string_at (rt_now rt) k (db_of w) = None →
    typed (view s) → only_key k (db_of w) (view s) →
    holds k v (rt_now rt + 1000 * ttl) (view s) → Q (Ok true) (after_cmd rt s w)) →
  (∀ rt s v', rt_now (w_rt w) ≤ rt_now rt → string_at (rt_now rt) k (db_of w) = Some v' →
    view s = db_of w → Q (Ok false) (after_cmd rt s w)) →
  wp (redis_cmd (SET_NX_EX k v ttl)) Q w.
Proof.
  intros Hf Hd Hk Hnew Hold. apply wp_redis_cmd; [done|]. intros rt s Hrt Hs.
  rewrite spec_set_nx in Hs |- * by done.
  destruct (string_at (rt_now rt) k (db_of w)) as [v'|] eqn:Hv; cbn in *; [by eapply Hold|].
  apply Hnew; [done..| | |]; rewrite Hs; [by apply typed_put_string|apply put_only_key|apply put_holds].
Qed.

Lemma wp_del k (Q : outcome exn Z → world → Prop) w :
  fault (w_cmds w) = NoFault → typed (db_of w) →
  (∀ n rt s, rt_now (w_rt w) ≤ rt_now rt → typed (view s) → only_key k (db_of w) (view s) →
    (view s : gmap string (entry text)) !! k = None → Q (Ok n) (after_cmd rt s w)) →
  wp (redis_cmd (DEL k)) Q w.
Proof.
  intros Hf Hd HQ. apply wp_redis_cmd; [done|]. cbn. intros rt s Hrt Hs. apply HQ; [done|..]; rewrite Hs.
  - by apply typed_delete.
  - apply delete_only_key.
  - apply lookup_delete_eq.
Qed.

(** *** The methods *)
Lemma wp_claim pid (Q : outcome exn ClaimResult → world → Prop) w :
  no_faults → typed (db_of w) →
  (∀ t rt s rec, rt_now (w_rt w) ≤ rt_now rt → string_at (rt_now rt) (idempotency_key pid) (db_of w) = None →
    rec = processing_record pid t t → typed (view s) → only_key (idempotency_key pid) (db_of w) (view s) →
    holds (idempotency_key pid) (stringify rec)
      (rt_now rt + 1000 * leaseTtlSeconds (idempotency config)) (view s) →
    Q (Ok ClaimNew) (after_cmd rt s w)) →
  (∀ t rt rt' s s' v, rt_now (w_rt w) ≤ rt_now rt → rt_now rt ≤ rt_now rt' →
    string_at (rt_now rt) (idempotency_key pid) (db_of w) = Some v →
    view s' = db_of w →
    Q (Ok match idem_at (rt_now rt') (db_of w) pid with
          | None => ClaimConflict (processing_record pid t t)
          | Some r => if bool_decide (state r = PROCESSING) then ClaimConflict r else ClaimReplayed r
          end) (after_cmd rt' s' (after_cmd rt s w))) →
  wp (claim pid) Q w.
Proof.
  intros Hf Hd Hnew Hold. unfold claim. rewrite wp_bind. apply wp_date_now. intros rt0 Hrt0.
  rewrite wp_bind. apply wp_set_nx; [apply Hf|done|apply idempotency_key_kind| |].
  - intros rt s Hrt Hs Ht Hk Hh. world_simpl. rewrite wp_ret. eapply Hnew; try done. lia.
  - intros rt s v Hrt Hs Hv. world_simpl. rewrite wp_bind.
    apply wp_idem_get; world_simpl; [apply Hf|by rewrite Hv|]. intros rt' s' Hrt' Hs'.
    world_simpl. rewrite Hv in Hs' |- *.
    specialize (Hold (rt_now rt0) rt rt' s s' v ltac:(lia) Hrt' Hs Hs').
    destruct (idem_at (rt_now rt') (view (w_redis w)) pid) as [r|]; [|by rewrite wp_ret].
    case_bool_decide; by rewrite wp_ret.
Qed.

Lemma wp_finalize pid input (Q : outcome exn unit → world → Prop) w :
  no_faults → typed (db_of w) →
  (∀ t n rt s rec n', rt_now (w_rt w) ≤ rt_now rt → rt_now (w_rt w) ≤ t → t ≤ rt_now rt →
    rec = final_record pid input (first_claim (idem_at t (db_of w) pid) n) n →
    typed (view s) → only_key (idempotency_key pid) (db_of w) (view s) →
    holds (idempotency_key pid) (stringify rec)
      (rt_now rt + 1000 * retentionSeconds (idempotency config)) (view s) →
    Q (Ok tt) (set_w_redis s (set_w_cmds n' (set_w_rt rt w)))) →
  wp (finalize pid input) Q w.
Proof.
  intros Hf Hd HQ. unfold finalize. rewrite wp_bind. apply wp_idem_get; [apply Hf|done|].
  intros rt1 s1 Hrt1 Hs1. rewrite wp_bind. apply wp_date_now. intros rt2 Hrt2. cbv zeta.
  rewrite wp_bind. world_simpl.
  apply wp_set_ex; world_simpl; [apply Hf|by rewrite Hs1|apply idempotency_key_kind|].
  intros rt3 s3 Hrt3 Ht3 Hk3 Hh3. world_simpl. rewrite wp_ret. rewrite Hs1 in Hk3.
  apply (HQ (rt_now rt1) (rt_now rt2) rt3 s3 (final_record pid input
    (first_claim (idem_at (rt_now rt1) (view (w_redis w)) pid) (rt_now rt2)) (rt_now rt2)));
    done || lia.
Qed.

Lemma wp_acquire pid (Q : outcome exn bool → world → Prop) w :
  no_faults → typed (db_of w) →
  let ttl := leaseTtlSeconds (idempotency config) in
  (∀ rt0 rt s n rec, rt_now (w_rt w) ≤ rt_now rt0 → rt_now rt0 ≤ rt_now rt →
    string_at (rt_now rt0) (lock_key pid) (db_of w) = None →
    state rec = PROCESSING →
    typed (view s) →
    (∀ k, k ≠ lock_key pid → k ≠ idempotency_key pid →
      (view s : gmap string (entry text)) !! k = (db_of w : gmap string (entry text)) !! k) →
    holds (lock_key pid) (literal "1") (rt_now rt0 + 1000 * ttl) (view s) →
    holds (idempotency_key pid) (stringify rec) (rt_now rt + 1000 * ttl) (view s) →
    Q (Ok true) (set_w_redis s (set_w_cmds n (set_w_rt rt w)))) →
  (∀ rt s v, rt_now (w_rt w) ≤ rt_now rt → string_at (rt_now rt) (lock_key pid) (db_of w) = Some v →
    view s = db_of w → Q (Ok false) (after_cmd rt s w)) →
  wp (acquireExecutionLock pid) Q w.
Proof.
  intros Hf Hd ttl Hnew Hold. unfold acquireExecutionLock. rewrite wp_bind.
  apply wp_set_nx; [apply Hf|done|apply lock_key_kind| |].
  - intros rt s Hrt Hs Ht Hk Hh. world_simpl. cbn [negb]. rewrite wp_bind.
    apply wp_idem_get; world_simpl; [apply Hf|done|]. intros rt1 s1 Hrt1 Hs1. rewrite wp_bind.
    apply wp_date_now. intros rt2 Hrt2. cbv zeta. rewrite wp_bind. world_simpl.
    apply wp_set_ex; world_simpl; [apply Hf|by rewrite Hs1|apply idempotency_key_kind|].
    intros rt3 s3 Hrt3 Ht3 Hk3 Hh3. world_simpl. rewrite wp_ret. rewrite Hs1 in Hk3.
    eapply (Hnew rt rt3); [done|lia|done| |done| | |exact Hh3]; [done| |].
    + intros k Hk1 Hk2. by rewrite Hk3, Hk.
    + unfold holds. by rewrite Hk3.
  - intros rt s v Hrt Hs Hv. cbn [negb]. rewrite wp_ret. by eapply Hold.
Qed.

Lemma wp_release_lock pid (Q : outcome exn unit → world → Prop) w :
  fault (w_cmds w) = NoFault → typed (db_of w) →
  (∀ rt s, rt_now (w_rt w) ≤ rt_now rt → typed (view s) → only_key (lock_key pid) (db_of w) (view s) →
    (view s : gmap string (entry text)) !! lock_key pid = None → Q (Ok tt) (after_cmd rt s w)) →
  wp (releaseExecutionLock pid) Q w.
Proof.
  intros Hf Hd HQ. unfold releaseExecutionLock. rewrite wp_bind. apply wp_del; [done..|].
  intros n rt s Hrt Ht Hk Hl. rewrite wp_ret. by apply HQ.
Qed.

Lemma absent_string_at k d now : (d : gmap string (entry text)) !! k = None → string_at now k d = None.
Proof. unfold string_at, live. by intros ->. Qed.

Lemma string_at_key k d d' now :
  (d' : gmap string (entry text)) !! k = (d : gmap string (entry text)) !! k →
  string_at now k d' = string_at now k d.
Proof. unfold string_at. intros Hk. by rewrite (live_lookup now d' d k Hk). Qed.
End Keys.

(** ** Properties *)
Section Properties.
Context `{PlatformLaws}.
Hypothesis Hcalm : no_faults.

(** A processing lease is exclusive and crash-safe.  Once a claim of a
    payment id was granted, every other claim that completes within
    [leaseTtlSeconds] of it is answered with a conflict and changes nothing; and
    when the lease was neither finalised nor released, a claim made after
    [leaseTtlSeconds] is granted again. *)
Theorem claim_lease_exclusive (pid : string) (w w1 w2 : world) :
  typed (db_of w) → claim pid w = (Ok ClaimNew, w1) →
  typed (db_of w2) →
  (db_of w2 : gmap string (entry text)) !! idempotency_key pid =
    (db_of w1 : gmap string (entry text)) !! idempotency_key pid →
  let lease := 1000 * leaseTtlSeconds (idempotency config) in
  ∃ c w3, claim pid w2 = (Ok c, w3) ∧
    (rt_now (w_rt w3) < rt_now (w_rt w) + lease →
      ∃ r, c = ClaimConflict r ∧ state r = PROCESSING ∧ db_of w3 = db_of w2) ∧
    (rt_now (w_rt w1) + lease ≤ rt_now (w_rt w2) → c = ClaimNew).
Proof.
  intros Hd Hc Hd2 Hkey lease.
  assert (Hheld : ∃ e r, rt_now (w_rt w) + lease ≤ e ≤ rt_now (w_rt w1) + lease ∧
    state r = PROCESSING ∧ holds (idempotency_key pid) (stringify r) e (db_of w1)).
  { assert (Hwp : wp (claim pid) (λ o w1, o = Ok ClaimNew → ∃ e r,
      rt_now (w_rt w) + lease ≤ e ≤ rt_now (w_rt w1) + lease ∧
      state r = PROCESSING ∧ holds (idempotency_key pid) (stringify r) e (db_of w1)) w).
    { apply wp_claim; [done..| |].
      - intros t rt s rec Hrt _ -> _ _ Hh _. eexists _, _. split; [|split; [|exact Hh]]; [|done].
        unfold lease. cbn. lia.
      - intros t rt rt' s s' v _ _ _ _. destruct (idem_at _ _ _); [case_bool_decide|]; done. }
    unfold wp in Hwp. rewrite Hc in Hwp. by apply Hwp. }
  destruct Hheld as (e&r&He&Hr&Hh). assert (Hh2 : holds (idempotency_key pid) (stringify r) e (db_of w2))
    by (unfold holds; by rewrite Hkey).
  assert (Hwp : wp (claim pid) (λ o w3, ∃ c, o = Ok c ∧
    (rt_now (w_rt w3) < e → c = ClaimConflict r ∧ db_of w3 = db_of w2) ∧
    (e ≤ rt_now (w_rt w2) → c = ClaimNew)) w2).
  { apply wp_claim; [done..| |].
    - intros t rt s rec Hrt Hs _ _ _ _. eexists. split; [done|]. split; [|done].
      rewrite (holds_string_at _ _ _ _ _ Hh2) in Hs. cbn. intros Hlt. case_match; [lia|done].
    - intros t rt rt' s s' v Hrt Hrt' Hs Hv. rewrite (holds_string_at _ _ _ _ _ Hh2) in Hs.
      eexists. split; [done|]. split.
      + cbn. intros Hlt. unfold idem_at. rewrite (holds_string_at _ _ _ _ _ Hh2).
        replace (e <=? rt_now rt') with false by lia. by rewrite parse_or_null_stringify, bool_decide_true.
      + case_match; [done|lia]. }
  unfold wp in Hwp. destruct (claim pid w2) as [o w3]. cbn [fst snd] in Hwp. destruct Hwp as (c&->&H1&H2).
  exists c, w3. split; [done|]. split.
  - intros Hlt. destruct H1 as [-> Hdb]; [cbn in *; lia|]. by exists r.
  - intros Hle. apply H2. lia.
Qed.

(** C12: a finalised payment is answered from its record: for [retentionSeconds]
    after [finalize], every claim of the id is a replay of the final state,
    payment status, transaction id and failure reason that were recorded, and
    the time of the first claim is kept. *)
Theorem finalize_then_replayed (pid : string) (input : FinalizeInput) (w w1 w2 : world) :
  typed (db_of w) → fi_state input ≠ PROCESSING → finalize pid input w = (Ok tt, w1) →
  typed (db_of w2) →
  (db_of w2 : gmap string (entry text)) !! idempotency_key pid =
    (db_of w1 : gmap string (entry text)) !! idempotency_key pid →
  ∃ t n c w3, rt_now (w_rt w) ≤ t ≤ rt_now (w_rt w1) ∧ claim pid w2 = (Ok c, w3) ∧
    (rt_now (w_rt w3) < rt_now (w_rt w) + 1000 * retentionSeconds (idempotency config) →
      c = ClaimReplayed (final_record pid input (first_claim (idem_at t (db_of w) pid) n) n)).
Proof.
  intros Hd Hst Hfin Hd2 Hkey.
  assert (Hwp : wp (finalize pid input) (λ _ w1, ∃ t n e, rt_now (w_rt w) ≤ t ≤ rt_now (w_rt w1) ∧
    rt_now (w_rt w) + 1000 * retentionSeconds (idempotency config) ≤ e ∧
    holds (idempotency_key pid)
      (stringify (final_record pid input (first_claim (idem_at t (db_of w) pid) n) n)) e (db_of w1)) w).
  { apply wp_finalize; [done..|]. intros t n rt s rec n' Hrt Ht Ht' -> _ _ Hh. exists t, n.
    eexists. split; [|split; [|exact Hh]]; cbn; lia. }
  unfold wp in Hwp. rewrite Hfin in Hwp. destruct Hwp as (t&n&e&Ht&He&Hh). exists t, n. cbn in Ht, Hh.
  set (r := final_record _ _ _ _) in *.
  assert (Hh2 : holds (idempotency_key pid) (stringify r) e (db_of w2)) by (unfold holds; by rewrite Hkey).
  assert (Hwp : wp (claim pid) (λ o w3, ∃ c, o = Ok c ∧
    (rt_now (w_rt w3) < e → c = ClaimReplayed r)) w2).
  { apply wp_claim; [done..| |].
    - intros t' rt s rec Hrt Hs _ _ _ _. eexists. split; [done|].
      rewrite (holds_string_at _ _ _ _ _ Hh2) in Hs. cbn. intros Hlt. case_match; [lia|done].
    - intros t' rt rt' s s' v Hrt Hrt' Hs Hv. eexists. split; [done|].
      cbn. intros Hlt. unfold idem_at. rewrite (holds_string_at _ _ _ _ _ Hh2).
      replace (e <=? rt_now rt') with false by lia. by rewrite parse_or_null_stringify, bool_decide_false. }
  unfold wp in Hwp. destruct (claim pid w2) as [o w3]. cbn [fst snd] in Hwp. destruct Hwp as (c&->&Hr).
  exists c, w3. split; [done|]. split; [done|]. intros Hlt. apply Hr. cbn. lia.
Qed.

(** C13: the execution lock admits one worker.  After it was acquired, every other
    attempt that completes within [leaseTtlSeconds] is refused and changes
    nothing; after its release the next attempt acquires it. *)
Theorem execution_lock_exclusive (pid : string) (w w1 w2 : world) :
  typed (db_of w) → acquireExecutionLock pid w = (Ok true, w1) →
  typed (db_of w2) →
  (db_of w2 : gmap string (entry text)) !! lock_key pid =
    (db_of w1 : gmap string (entry text)) !! lock_key pid →
  (∃ b w3, acquireExecutionLock pid w2 = (Ok b, w3) ∧
    (rt_now (w_rt w3) < rt_now (w_rt w) + 1000 * leaseTtlSeconds (idempotency config) →
      b = false ∧ db_of w3 = db_of w2)) ∧
  (∃ w3, releaseExecutionLock pid w2 = (Ok tt, w3) ∧
    ∃ w4, acquireExecutionLock pid w3 = (Ok true, w4)).
Proof.
  intros Hd Hacq Hd2 Hkey. set (ttl := 1000 * _). split.
  - assert (Hwp : wp (acquireExecutionLock pid) (λ o w1, o = Ok true →
      ∃ e, rt_now (w_rt w) + ttl ≤ e ∧ holds (lock_key pid) (literal "1") e (db_of w1)) w).
    { apply wp_acquire; [done..| |done]. intros rt0 rt s n rec Hrt0 _ _ _ _ _ Hl _ _.
      eexists. split; [|exact Hl]. unfold ttl. lia. }
    unfold wp in Hwp. rewrite Hacq in Hwp. destruct (Hwp eq_refl) as (e&He&Hh). cbn in Hh.
    assert (Hh2 : holds (lock_key pid) (literal "1") e (db_of w2)) by (unfold holds; by rewrite Hkey).
    assert (Hwp2 : wp (acquireExecutionLock pid) (λ o w3, ∃ b, o = Ok b ∧
      (rt_now (w_rt w3) < e → b = false ∧ db_of w3 = db_of w2)) w2).
    { apply wp_acquire; [done..| |].
      - intros rt0 rt s n rec Hrt0 Hrt Hs _ _ _ _ _. exists true. split; [done|]. cbn. intros Hlt.
        rewrite (holds_string_at _ _ _ _ _ Hh2) in Hs. case_match; [lia|done].
      - intros rt s v Hrt _ Hv. by exists false. }
    unfold wp in Hwp2. destruct (acquireExecutionLock pid w2) as [o w3]. cbn [fst snd] in Hwp2. destruct Hwp2 as (b&->&Hb).
    exists b, w3. split; [done|]. intros Hlt. apply Hb. cbn. lia.
  - assert (Hwp : wp (releaseExecutionLock pid) (λ o w3, o = Ok tt ∧ typed (db_of w3) ∧
      (db_of w3 : gmap string (entry text)) !! lock_key pid = None) w2).
    { apply wp_release_lock; [apply Hcalm|done|]. intros rt s Hrt Ht Hk Hl. done. }
    unfold wp in Hwp. destruct (releaseExecutionLock pid w2) as [o w3]. cbn [fst snd] in Hwp. destruct Hwp as (->&Hd3&Hl).
    cbn in Hd3, Hl. exists w3. split; [done|].
    assert (Hwp : wp (acquireExecutionLock pid) (λ o _, o = Ok true) w3).
    { apply wp_acquire; [done..| |]; [done|]. intros rt s v _ Hv. by rewrite absent_string_at in Hv. }
    unfold wp in Hwp. destruct (acquireExecutionLock pid w3) as [o' w4]. cbn in Hwp. subst o'. by exists w4.
Qed.

(** Acquiring the lock does not look at the state it overwrites: a payment that
    was finalised is PROCESSING again once a worker has the lock. *)
Lemma acquire_overwrites_final pid w :
  typed (db_of w) → string_at (rt_now (w_rt w)) (lock_key pid) (db_of w) = None →
  wp (acquireExecutionLock pid) (λ o w', o = Ok true → ∃ r e,
    state r = PROCESSING ∧ holds (idempotency_key pid) (stringify r) e (db_of w')) w.
Proof.
  intros Hd Hs. apply wp_acquire; [done..| |done]. intros rt0 rt s n rec _ _ _ Hr _ _ _ Hh _. eauto.
Qed.
End Properties.

(** ** The properties on the concrete platform *)
#[local] Existing Instance calm.

Definition claimed : world := (claim "p1" (boot ∅)).2.
Definition demo_completion : FinalizeInput :=
  {| fi_state := COMPLETED; fi_paymentStatus := Some Completed; fi_transactionId := Some "tx";
     fi_failureReason := None |}.
Definition finalized : world := (finalize "p1" demo_completion claimed).2.
Definition locked : world := (acquireExecutionLock "p1" claimed).2.

Lemma calm_no_faults : no_faults.
Proof. done. Qed.
Definition calm_db (w : world) : db text := @db_of calm (@redis_laws calm calm_laws) w.

Lemma boot_typed gs : typed (calm_db (boot gs)).
Proof. exact empty_typed. Qed.
Lemma claimed_typed : typed (calm_db claimed).
Proof. apply typed_after; [frame|apply boot_typed]. Qed.
Lemma finalized_typed : typed (calm_db finalized).
Proof. apply typed_after; [frame|apply claimed_typed]. Qed.
Lemma locked_typed : typed (calm_db locked).
Proof. apply typed_after; [frame|apply claimed_typed]. Qed.

Lemma claim_lease_exclusive_witness :
  ∃ c w3, claim "p1" claimed = (Ok c, w3) ∧ ∃ r, c = ClaimConflict r ∧ state r = PROCESSING.
Proof.
  assert (Hc : claim "p1" (boot ∅) = (Ok ClaimNew, claimed)).
  { refine (run_pair (claim "p1") (boot ∅) (Ok ClaimNew) _). vm_compute. reflexivity. }
  assert (Ht : rt_now (w_rt (claim "p1" claimed).2) < rt_now (w_rt (boot ∅)) +
    1000 * leaseTtlSeconds (idempotency config)) by (vm_compute; reflexivity).
  destruct (@claim_lease_exclusive calm calm_laws calm_no_faults "p1" (boot ∅) claimed claimed
    (boot_typed ∅) Hc claimed_typed eq_refl) as (c&w3&He&Hconf&_).
  rewrite He in Ht. destruct (Hconf Ht) as (r&->&Hr&_). exists (ClaimConflict r), w3. eauto.
Defined.

Lemma finalize_then_replayed_witness :
  ∃ r w3, claim "p1" finalized = (Ok (ClaimReplayed r), w3) ∧ ir_transactionId r = Some "tx".
Proof.
  assert (Hf : finalize "p1" demo_completion claimed = (Ok tt, finalized)).
  { refine (run_pair (finalize "p1" demo_completion) claimed (Ok tt) _). vm_compute. reflexivity. }
  assert (Ht : rt_now (w_rt (claim "p1" finalized).2) < rt_now (w_rt claimed) +
    1000 * retentionSeconds (idempotency config)) by (vm_compute; reflexivity).
  destruct (@finalize_then_replayed calm calm_laws calm_no_faults "p1" demo_completion claimed finalized
    finalized claimed_typed ltac:(done) Hf finalized_typed eq_refl) as (t&n&c&w3&_&He&Hc).
  rewrite He in Ht. rewrite (Hc Ht) in He. eexists _, w3. split; [exact He|reflexivity].
Defined.

Lemma execution_lock_exclusive_witness :
  ∃ w3, acquireExecutionLock "p1" locked = (Ok false, w3).
Proof.
  assert (Ha : acquireExecutionLock "p1" claimed = (Ok true, locked)).
  { refine (run_pair (acquireExecutionLock "p1") claimed (Ok true) _). vm_compute. reflexivity. }
  assert (Ht : rt_now (w_rt (acquireExecutionLock "p1" locked).2) < rt_now (w_rt claimed) +
    1000 * leaseTtlSeconds (idempotency config)) by (vm_compute; reflexivity).
  destruct (proj1 (@execution_lock_exclusive calm calm_laws calm_no_faults "p1" claimed locked locked
    claimed_typed Ha locked_typed eq_refl)) as (b&w3&He&Hb).
  rewrite He in Ht. destruct (Hb Ht) as [-> _]. by exists w3.
Defined.
