(* ===== verification/QueueManager.v ===== *)
(** * Queue manager ([src/src/queue/queue-manager.service.ts])

    One BullMQ queue with a worker pool per gateway, the dead letter queue, and
    the handler of failed attempts.  The queues and workers themselves are the
    library's ([Bull.v]); a runtime records how many workers were started. *)

From S2P Require Import Prelude Num JsValue Errors Payment TokenBucket Json Redis Gateway Config.
From S2P Require Import Bull World Sim.

(** ** Queue names *)
(** [[a-z0-9-]] *)
Definition name_char (c : Ascii.ascii) : bool :=
  let n := code_unit c in
  ((97 <=? n) && (n <=? 122)) || ((48 <=? n) && (n <=? 57)) || (n =? 45).

(** [.replace(/[^a-z0-9-]/g, '-')] of one code unit. *)
Definition replace_char (c : Ascii.ascii) : Ascii.ascii := if name_char c then c else Ascii.ascii_of_N 45.

Definition queueNameFor (gatewayId : string) : string :=
  String.substring 0 60 (string_map replace_char (string_map lower gatewayId)).

(** The argument of [enqueue]. *)
Record EnqueuePaymentJobInput := {
  eq_gatewayId : string;
  eq_paymentId : string;
  eq_correlationId : option string;
  eq_priority : PaymentPriority;
  eq_maxRetries : Z;
  eq_delayMs : option Z;
  eq_jobId : string
}.

Record QueueDepths := {
  qd_gatewayId : string;
  qd_queueName : option string;
  waiting : Z;
  active : Z;
  delayed : Z;
  failed : Z
}.

Section QueueManager.
Context `{Platform}.

(** [new Queue(name, { ...this.queueOpts(), ... })] *)
Definition queue_named (name : string) : queue_ref :=
  {| q_prefix := prefix (queue config); q_name := name |}.

(** The logger of the class: no correlation id. *)
Definition logger (level : log_level) (message : string) : M exn world unit :=
  modify (λ w, set_w_logs (w_logs w ++ [{| level := level; log_message := message;
    log_context := "QueueManager" |}]) w).

(** ** Runtimes: a [Map] keeps insertion order *)
Fixpoint lookup_runtime (id : string) (rs : list (string * GatewayRuntime)) : option GatewayRuntime :=
  match rs with
  | [] => None
  | (k, r) :: rs => if bool_decide (k = id) then Some r else lookup_runtime id rs
  end.

Fixpoint set_runtime (id : string) (r : GatewayRuntime) (rs : list (string * GatewayRuntime))
    : list (string * GatewayRuntime) :=
  match rs with
  | [] => [(id, r)]
  | (k, r') :: rs => if bool_decide (k = id) then (k, r) :: rs else (k, r') :: set_runtime id r rs
  end.

Definition with_workers (r : GatewayRuntime) (n : nat) : GatewayRuntime :=
  {| gr_gatewayId := gr_gatewayId r; queueName := queueName r; workers := n |}.

Definition put_runtime (id : string) (r : GatewayRuntime) : M exn world unit :=
  modify (λ w, set_w_runtimes (set_runtime id r (w_runtimes w)) w).

(** The number of workers of the runtime object a method holds. *)
Definition worker_count (r : GatewayRuntime) : M exn world nat :=
  gets (λ w, match lookup_runtime (gr_gatewayId r) (w_runtimes w) with
             | Some r => workers r
             | None => workers r
             end).

(** [while (runtime.workers.length < target) { ...; runtime.workers.push(...) }] *)
Fixpoint scale_up (fuel : nat) (r : GatewayRuntime) (target : Z) : M exn world unit :=
  match fuel with
  | O => diverge
  | S fuel =>
      n ← worker_count r;
      if Z.of_nat n <? target then
        bull_do (WorkerStart (queue_named (queueName r)) 1);;
        put_runtime (gr_gatewayId r) (with_workers r (S n));;
        scale_up fuel r target
      else mret tt
  end.

(** [while (runtime.workers.length > target) { runtime.workers.pop(); ... }] *)
Fixpoint scale_down (fuel : nat) (r : GatewayRuntime) (target : Z) : M exn world unit :=
  match fuel with
  | O => diverge
  | S fuel =>
      n ← worker_count r;
      if target <? Z.of_nat n then
        match n with
        | O => mret tt                      (* [pop] gave [undefined] *)
        | S n =>
            put_runtime (gr_gatewayId r) (with_workers r n);;
            bull_do (WorkerClose (queue_named (queueName r)))
        end;;
        scale_down fuel r target
      else mret tt
  end.

(** Each turn moves the length of the array by one towards [target]; the second
    loop never ends for a negative [target], and here exhausts its fuel. *)
Definition scaleWorkers (r : GatewayRuntime) (target : Z) : M exn world unit :=
  scale_up (S (Z.to_nat target)) r target;;
  n ← worker_count r;
  scale_down (S n) r target.

Definition ensureGateway (gatewayId : string) : M exn world GatewayRuntime :=
  existing ← gets (λ w, lookup_runtime gatewayId (w_runtimes w));
  match existing with
  | Some r => mret r
  | None =>
      let queueName := queueNameFor gatewayId in
      bull_do (QueueReady (queue_named queueName));;
      let r := {| gr_gatewayId := gatewayId; queueName := queueName; workers := 0 |} in
      put_runtime gatewayId r;;
      scaleWorkers r (workerPoolSize (queue config));;
      logger L_log ("provisioned queue+worker pool for gateway " +:+ gatewayId +:+ " (" +:+
        queueName +:+ ")");;
      mret r
  end.

Definition getGatewayIds : M exn world (list string) := gets (λ w, map fst (w_runtimes w)).

(** [for (const runtime of this.runtimes.values()) await f(runtime)] *)
Fixpoint for_runtimes (rs : list (string * GatewayRuntime)) (f : GatewayRuntime → M exn world unit)
    : M exn world unit :=
  match rs with
  | [] => mret tt
  | (_, r) :: rs => f r;; for_runtimes rs f
  end.

Definition on_gateways (gatewayId : option string) (c : queue_ref → bull_call num unit) : M exn world unit :=
  if truthy gatewayId then
    r ← ensureGateway (default "" gatewayId);
    bull_do (c (queue_named (queueName r)))
  else
    rs ← gets w_runtimes;
    for_runtimes rs (λ r, bull_do (c (queue_named (queueName r)))).

Definition pause (gatewayId : option string) : M exn world unit := on_gateways gatewayId QueuePause.
Definition resume (gatewayId : option string) : M exn world unit := on_gateways gatewayId QueueResume.

(** The delay BullMQ is given: [delayMs ? Math.max(1, Math.round(delayMs)) : 0]. *)
Definition job_delay (delayMs : option Z) : Z :=
  match delayMs with
  | None | Some 0 => 0
  | Some d => Z.max 1 d
  end.

Definition enqueue_opts (input : EnqueuePaymentJobInput) : JobsOptions num :=
  {| o_jobId := eq_jobId input;
     o_priority := Some (PRIORITY_TO_NUMERIC (eq_priority input));
     o_delay := job_delay (eq_delayMs input);
     o_attempts := eq_maxRetries input + 1;
     o_backoff := Some (backoffBaseMs (queue config), backoffJitter (queue config));
     o_removeOnComplete := true |}.

Definition enqueue_data (input : EnqueuePaymentJobInput) : job_data :=
  JobPayment {| jd_paymentId := eq_paymentId input; jd_correlationId := eq_correlationId input |}.

Definition enqueue (input : EnqueuePaymentJobInput) : M exn world unit :=
  r ← ensureGateway (eq_gatewayId input);
  bull_do (QueueAdd (queue_named (queueName r)) QUEUE_JOB_NAME (enqueue_data input) (enqueue_opts input)).

(** ** The dead letter queue *)

(** [this.dlq] is assigned before the queue is ready. *)
Definition dlqQueue : M exn world queue_ref :=
  created ← gets w_dlq;
  if (created : bool) then mret (queue_named DLQ_QUEUE_NAME)
  else
    modify (set_w_dlq true);;
    bull_do (QueueReady (queue_named DLQ_QUEUE_NAME));;
    mret (queue_named DLQ_QUEUE_NAME).

Definition dlq_opts (entry : DlqEntry) : JobsOptions num :=
  {| o_jobId := dlq_paymentId entry; o_priority := None; o_delay := 0; o_attempts := 1;
     o_backoff := None; o_removeOnComplete := false |}.

Definition routeToDlq (entry : DlqEntry) : M exn world unit :=
  q ← dlqQueue;
  bull_do (QueueAdd q DLQ_JOB_NAME (JobDlq entry) (dlq_opts entry)).

(** [.sort((a, b) => a.deadLetteredAt.localeCompare(b.deadLetteredAt))]: a stable
    sort; ISO strings of four-digit years compare as their times. *)
Fixpoint insert_by_time (e : DlqEntry) (l : list DlqEntry) : list DlqEntry :=
  match l with
  | [] => [e]
  | e' :: l' => if deadLetteredAt e <? deadLetteredAt e' then e :: l else e' :: insert_by_time e l'
  end.
Definition sort_by_time (l : list DlqEntry) : list DlqEntry := foldl (λ acc e, insert_by_time e acc) [] l.

(** The entry a job of the dead letter queue carries.  The queue is typed
    [Queue<DlqEntry>]; a job of another shape has no [deadLetteredAt] and the
    comparison of [listDlq] throws on it. *)
Fixpoint dlq_entries (jobs : list (Job num)) : option (list DlqEntry) :=
  match jobs with
  | [] => Some []
  | j :: jobs => match data j with JobDlq e => (e ::.) <$> dlq_entries jobs | JobPayment _ => None end
  end.

Definition listDlq : M exn world (list DlqEntry) :=
  q ← dlqQueue;
  jobs ← bull_do (QueueJobs q [J_waiting; J_delayed; J_active; J_failed; J_completed] 0 200);
  match dlq_entries jobs with
  | Some es => mret (sort_by_time es)
  | None => throw (EError "Cannot read properties of undefined (reading 'localeCompare')")
  end.

(** ** Depths and pool sizes *)
Definition count (c : job_state → option Z) (s : job_state) : Z := default 0 (c s).

Fixpoint gateway_depths (rs : list (string * GatewayRuntime)) : M exn world (list QueueDepths) :=
  match rs with
  | [] => mret []
  | (_, r) :: rs =>
      counts ← bull_do (QueueCounts (queue_named (queueName r))
        [J_waiting; J_prioritized; J_active; J_delayed; J_failed]);
      ds ← gateway_depths rs;
      mret ({| qd_gatewayId := gr_gatewayId r; qd_queueName := Some (queueName r);
               waiting := count counts J_waiting + count counts J_prioritized;
               active := count counts J_active; delayed := count counts J_delayed;
               failed := count counts J_failed |} :: ds)
  end.

Definition collectQueueDepths : M exn world (list QueueDepths * QueueDepths) :=
  rs ← gets w_runtimes;
  gateways ← gateway_depths rs;
  q ← dlqQueue;
  counts ← bull_do (QueueCounts q [J_waiting; J_active; J_delayed; J_failed]);
  mret (gateways,
    {| qd_gatewayId := DLQ_QUEUE_NAME; qd_queueName := None; waiting := count counts J_waiting;
       active := count counts J_active; delayed := count counts J_delayed;
       failed := count counts J_failed |}).

Definition setWorkerPoolSize (gatewayId : string) (size : Z) : M exn world unit :=
  if size <? 0 then throw (EError "worker pool size must be a non-negative integer")
  else
    r ← ensureGateway gatewayId;
    scaleWorkers r size;;
    n ← worker_count r;
    logger L_log ("gateway " +:+ gatewayId +:+ " worker pool -> " +:+ pretty (Z.of_nat n)).

Definition getWorkerPoolSize (gatewayId : string) : M exn world nat :=
  gets (λ w, match lookup_runtime gatewayId (w_runtimes w) with Some r => workers r | None => 0%nat end).

(** ** Shutdown *)

(** [closeWorkerGracefully]: when its promise resolves, given when [close()] and
    a forced close settle ([None]: never), counted from their calls. *)
Definition graceMs : Z := 15000.
Definition closeWorkerGracefully (close force : option Z) : option Z :=
  match close, force with
  | Some c, Some f => Some (if c <? graceMs then c else Z.min c (graceMs + f))
  | Some c, None => Some c
  | None, Some f => Some (graceMs + f)
  | None, None => None
  end.

(** [onApplicationShutdown]: every close is started, failures are ignored; then
    the connections are dropped. *)
Definition onApplicationShutdown : M exn world unit :=
  started ← date_now;
  rs ← gets w_runtimes;
  dlq ← gets w_dlq;
  all_settled (concat (map (λ kr, let q := queue_named (queueName kr.2) in
      replicate (workers kr.2) (bull_do (WorkerClose q)) ++ [bull_do (QueueClose q)]) rs) ++
    if (dlq : bool) then [bull_do (QueueClose (queue_named DLQ_QUEUE_NAME))] else []);;
  now ← date_now;
  logger L_log ("queue manager shut down in " +:+ pretty (now - started) +:+ "ms").

(** ** What the workers call *)

(** [job.data.paymentId] and [job.data.correlationId]: both shapes of job data
    have these fields. *)
Definition payment_data (d : job_data) : PaymentJobData :=
  match d with
  | JobPayment d => d
  | JobDlq e => {| jd_paymentId := dlq_paymentId e; jd_correlationId := dlq_correlationId e |}
  end.

(** [worker.on('failed', (job, err) => ...)]; every job carries [attempts]. *)
Definition worker_failed (failureHandler : option (PaymentJobData → exn → M exn world unit))
    (job : option (Job num)) (err : exn) : M exn world unit :=
  match job with
  | None => mret tt
  | Some job =>
      let attempts := o_attempts (opts job) in
      let exhausted := attemptsMade job >=? attempts in
      match failureHandler with
      | Some handler =>
          if (exhausted : bool) then
            catch (handler (payment_data (data job)) err)
              (λ e, logger L_error ("failure handler failed for " +:+ jd_paymentId (payment_data (data job))))
          else mret tt
      | None => mret tt
      end
  end.

(** The processing function of a worker, in the correlation context of its job. *)
Definition worker_process {A} (processor : option (Job num → M exn world A)) (job : Job num)
    : M exn world A :=
  let d := payment_data (data job) in
  correlation_enter (default (jd_paymentId d) (jd_correlationId d))
    match processor with
    | Some process => process job
    | None => throw (EError "payment processor not registered")
    end.
End QueueManager.

(** ** Queue names are safe *)
Lemma string_forall_map p f s :
  (∀ c, p (f c) = true) → string_forall p (string_map f s) = true.
Proof. intros Hp. unfold string_forall. induction s as [|c s IH]; [done|]. cbn. by rewrite Hp. Qed.

Lemma string_forall_substring p n s :
  string_forall p s = true → string_forall p (String.substring 0 n s) = true.
Proof.
  unfold string_forall. revert s. induction n as [|n IH]; intros [|c s]; [done..|].
  cbn. rewrite !andb_true_iff. intros [? ?]. auto.
Qed.

Lemma length_substring n s : (String.length (String.substring 0 n s) ≤ n)%nat.
Proof. revert s. induction n as [|n IH]; intros [|c s]; cbn; [lia..|]. specialize (IH s). lia. Qed.

Lemma substring_all n s : (String.length s ≤ n)%nat → String.substring 0 n s = s.
Proof.
  revert s. induction n as [|n IH]; intros [|c s] Hs; cbn in *; [done|lia|done|]. f_equal. apply IH. lia.
Qed.

Lemma string_map_id p f s : (∀ c, p c = true → f c = c) → string_forall p s = true → string_map f s = s.
Proof.
  intros Hf. unfold string_forall. induction s as [|c s IH]; [done|].
  cbn. rewrite andb_true_iff. intros [Hc Hs]. by rewrite (Hf c Hc), IH.
Qed.

Lemma replace_char_ok c : name_char (replace_char c) = true.
Proof. unfold replace_char. by destruct (name_char c) eqn:Hc. Qed.

Lemma lower_name_char c : name_char c = true → lower c = c.
Proof. unfold name_char, lower. set (n := code_unit c). intros Hc. case_match; [lia|done]. Qed.

Lemma replace_name_char c : name_char c = true → replace_char c = c.
Proof. unfold replace_char. by intros ->. Qed.

Lemma queueNameFor_fixed s :
  string_forall name_char s = true → (String.length s ≤ 60)%nat → queueNameFor s = s.
Proof.
  intros Hs Hl. unfold queueNameFor.
  rewrite (string_map_id name_char lower), (string_map_id name_char replace_char), substring_all;
    auto using lower_name_char, replace_name_char.
Qed.

(** Every gateway id, whatever it contains, is given a queue name of at most
    60 characters among [a-z], [0-9] and the hyphen, so a name can neither break
    out of the Redis key nor name another key space; a name of that form is kept
    as it is. *)
Theorem queueNameFor_safe (gatewayId : string) :
  string_forall name_char (queueNameFor gatewayId) = true ∧
  (String.length (queueNameFor gatewayId) ≤ 60)%nat ∧
  queueNameFor (queueNameFor gatewayId) = queueNameFor gatewayId.
Proof.
  assert (Hc : string_forall name_char (queueNameFor gatewayId) = true)
    by apply string_forall_substring, string_forall_map, replace_char_ok.
  assert (Hl : (String.length (queueNameFor gatewayId) ≤ 60)%nat) by apply length_substring.
  split; [done|]. split; [done|]. by apply queueNameFor_fixed.
Qed.

(** Names are not injective: ids that differ in case, in a replaced
    character or after 60 characters share one queue, and a gateway whose id is
    any casing of dlq shares the dead letter queue. *)
Theorem queueNameFor_collides `{Platform} :
  queueNameFor "Stripe" = queueNameFor "stripe" ∧ queueNameFor "pay.pal" = queueNameFor "pay_pal" ∧
  queue_named (queueNameFor "DLQ") = queue_named DLQ_QUEUE_NAME.
Proof. by vm_compute. Qed.

(** ** Worker pools *)
Section Pools.
Context `{Platform}.

Definition pool (r : GatewayRuntime) (w : world) : nat :=
  match lookup_runtime (gr_gatewayId r) (w_runtimes w) with Some r => workers r | None => workers r end.

Lemma lookup_set_runtime id r rs : lookup_runtime id (set_runtime id r rs) = Some r.
Proof.
  induction rs as [|[k r'] rs IH]; cbn; [by rewrite bool_decide_true|].
  case_bool_decide as Hk; cbn; [by rewrite bool_decide_true|by rewrite bool_decide_false].
Qed.

(** A BullMQ call in the middle of a method. *)
Lemma wp_bull_do {A} (c : bull_call num A) (Q : outcome exn A → world → Prop) w :
  (∀ o w', o ≠ Diverged → w_runtimes w' = w_runtimes w → Q o w') → wp (bull_do c) Q w.
Proof.
  intros HQ. apply HQ; [apply halts_bull_do|].
  exact (respects (R := keeps w_runtimes) (m := bull_do c) w).
Qed.

Lemma scale_up_wp fuel r target w :
  (Z.to_nat target - pool r w < fuel)%nat →
  wp (scale_up fuel r target) (λ o w', o ≠ Diverged ∧
    (o = Ok tt → pool r w' = Nat.max (pool r w) (Z.to_nat target))) w.
Proof.
  revert w. induction fuel as [|fuel IH]; intros w Hfuel; [lia|]. cbn [scale_up].
  rewrite wp_bind. unfold worker_count. rewrite wp_gets. fold (pool r w).
  destruct (Z.ltb_spec (Z.of_nat (pool r w)) target) as [Hlt|Hge].
  - rewrite wp_bind. apply wp_bull_do. intros [[]|e|] w1 Ho Hw1; [|by split|done].
    rewrite wp_bind. unfold put_runtime. rewrite wp_modify.
    set (w2 := set_w_runtimes _ w1).
    assert (Hp : pool r w2 = S (pool r w)) by (unfold pool, w2; cbn; by rewrite lookup_set_runtime).
    eapply wp_mono; [|apply IH; rewrite Hp; lia]. cbn. rewrite Hp. intros o w' [Ho' Hw']. split; [done|].
    intros Hok. rewrite (Hw' Hok). lia.
  - rewrite wp_ret. split; [done|]. intros _. lia.
Qed.

Lemma scale_down_wp fuel r target w :
  (pool r w < fuel)%nat → 0 ≤ target →
  wp (scale_down fuel r target) (λ o w', o ≠ Diverged ∧
    (o = Ok tt → pool r w' = Nat.min (pool r w) (Z.to_nat target))) w.
Proof.
  intros Hfuel Ht. revert w Hfuel. induction fuel as [|fuel IH]; intros w Hfuel; [lia|]. cbn [scale_down].
  rewrite wp_bind. unfold worker_count. rewrite wp_gets. fold (pool r w).
  destruct (Z.ltb_spec target (Z.of_nat (pool r w))) as [Hlt|Hge].
  - destruct (pool r w) as [|n] eqn:Hn; [lia|].
    rewrite !wp_bind. unfold put_runtime. rewrite wp_modify. set (w1 := set_w_runtimes _ w).
    assert (Hp : pool r w1 = n) by (unfold pool, w1; cbn; by rewrite lookup_set_runtime).
    apply wp_bull_do. intros [[]|e|] w2 Ho Hw2; [|by split|done].
    assert (Hp2 : pool r w2 = n) by (unfold pool; by rewrite Hw2).
    eapply wp_mono; [|apply IH; rewrite Hp2; lia]. cbv beta. rewrite Hp2. intros o w' [Ho' Hw']. split; [done|].
    intros Hok. rewrite (Hw' Hok). lia.
  - rewrite wp_ret. split; [done|]. intros _. lia.
Qed.

Lemma scaleWorkers_wp r target w :
  0 ≤ target →
  wp (scaleWorkers r target) (λ o w', o ≠ Diverged ∧ (o = Ok tt → pool r w' = Z.to_nat target)) w.
Proof.
  intros Ht. unfold scaleWorkers. rewrite wp_bind. eapply wp_mono; [|apply scale_up_wp; lia].
  intros [[]|e|] w1 [Ho Hw1]; [|by split|done]. specialize (Hw1 eq_refl).
  rewrite wp_bind. unfold worker_count. rewrite wp_gets. fold (pool r w1).
  eapply wp_mono; [|apply scale_down_wp; [lia|done]].
  cbv beta. intros o w2 [Ho2 Hw2]. split; [done|]. intros Hok. rewrite (Hw2 Hok). lia.
Qed.

(** No runtime is ever forgotten. *)
Definition keeps_runtimes : relation world := λ w w',
  ∀ id, lookup_runtime id (w_runtimes w) ≠ None → lookup_runtime id (w_runtimes w') ≠ None.

#[global] Instance keeps_runtimes_preorder : PreOrder keeps_runtimes.
Proof. split; [by intros w id|]. intros w1 w2 w3 H12 H23 id Hid. by apply H23, H12. Qed.

Lemma lookup_set_runtime_ne id id' r rs :
  lookup_runtime id rs ≠ None → lookup_runtime id (set_runtime id' r rs) ≠ None.
Proof.
  induction rs as [|[k r'] rs IH]; [done|]. cbn. case_bool_decide as Hk; case_bool_decide as Hk'; cbn.
  - by rewrite bool_decide_true.
  - by rewrite bool_decide_true.
  - by rewrite bool_decide_false.
  - by rewrite bool_decide_false.
Qed.

#[global] Instance put_runtime_keeps id r : Respects keeps_runtimes (put_runtime id r).
Proof. intros w id' Hid. by apply lookup_set_runtime_ne. Qed.
#[global] Instance bull_do_keeps {A} (c : bull_call num A) : Respects keeps_runtimes (bull_do c).
Proof.
  intros w id Hid. pose proof (respects (R := keeps w_runtimes) (m := bull_do c) w) as Hw.
  unfold keeps in Hw. by rewrite Hw.
Qed.
#[global] Instance scale_up_keeps fuel r target : Respects keeps_runtimes (scale_up fuel r target).
Proof. induction fuel as [|fuel IH]; cbn [scale_up]; frame. Qed.
#[global] Instance scale_down_keeps fuel r target : Respects keeps_runtimes (scale_down fuel r target).
Proof. induction fuel as [|fuel IH]; cbn [scale_down]; frame. Qed.

#[global] Instance scaleWorkers_keeps r target : Respects keeps_runtimes (scaleWorkers r target).
Proof. frame. Qed.

(** Every runtime is stored under its own gateway id, with its queue's name. *)
Definition runtime_of (id : string) (r : GatewayRuntime) : Prop :=
  gr_gatewayId r = id ∧ queueName r = queueNameFor id.
Definition runtimes_wf (w : world) : Prop :=
  ∀ id r, lookup_runtime id (w_runtimes w) = Some r → runtime_of id r.

Lemma lookup_set_runtime_is id id' r rs :
  lookup_runtime id (set_runtime id' r rs) = if bool_decide (id' = id) then Some r else lookup_runtime id rs.
Proof.
  induction rs as [|[k r'] rs IH]; cbn; [done|].
  destruct (decide (k = id')) as [->|Hk]; [rewrite (bool_decide_true (id' = id')) by done; cbn; by case_bool_decide|].
  rewrite (bool_decide_false (k = id')) by done. cbn. rewrite IH. repeat case_bool_decide; congruence.
Qed.

(** The invariant is kept. *)
Definition wf_kept : relation world := λ w w', runtimes_wf w → runtimes_wf w'.

#[global] Instance wf_kept_preorder : PreOrder wf_kept.
Proof. split; [intros w Hw; exact Hw|]. intros w1 w2 w3 H12 H23 Hw. by apply H23, H12. Qed.
#[global] Instance keeps_wf_kept {A} (m : M exn world A) :
  Respects (keeps w_runtimes) m → Respects wf_kept m | 50.
Proof. apply respects_mono. unfold keeps, wf_kept, runtimes_wf. by intros w w' ->. Qed.

#[global] Instance wf_kept_silent : SpanSilent wf_kept.
Proof. intros name attrs ok w Hw. exact Hw. Qed.

Lemma put_runtime_wf id r : runtime_of id r → Respects wf_kept (put_runtime id r).
Proof.
  intros Hr w Hw id' r'. cbn. rewrite lookup_set_runtime_is. case_bool_decide; [by intros [= <-]; subst|apply Hw].
Qed.

Lemma with_workers_wf id r n : runtime_of id r → runtime_of (gr_gatewayId r) (with_workers r n).
Proof. intros [<- Hq]. done. Qed.

Lemma scale_up_wf fuel id r target : runtime_of id r → Respects wf_kept (scale_up fuel r target).
Proof.
  intros Hr. pose proof (λ n, put_runtime_wf _ _ (with_workers_wf id r n Hr)) as Hput.
  induction fuel as [|fuel IH]; cbn [scale_up]; frame.
Qed.
Lemma scale_down_wf fuel id r target : runtime_of id r → Respects wf_kept (scale_down fuel r target).
Proof.
  intros Hr. pose proof (λ n, put_runtime_wf _ _ (with_workers_wf id r n Hr)) as Hput.
  induction fuel as [|fuel IH]; cbn [scale_down]; frame.
Qed.

Lemma ensureGateway_wp id w :
  0 ≤ workerPoolSize (queue config) → runtimes_wf w →
  wp (ensureGateway id) (λ o w', o ≠ Diverged ∧ ∀ r, o = Ok r →
    gr_gatewayId r = id ∧ queueName r = queueNameFor id ∧ lookup_runtime id (w_runtimes w') ≠ None ∧
    match lookup_runtime id (w_runtimes w) with
    | Some r' => r = r' ∧ w' = w
    | None => pool r w' = Z.to_nat (workerPoolSize (queue config))
    end) w.
Proof.
  intros Hsize Hwf. unfold ensureGateway. rewrite wp_bind, wp_gets.
  destruct (lookup_runtime id (w_runtimes w)) as [r|] eqn:Hl.
  { rewrite wp_ret. split; [done|]. intros r' [= <-]. rewrite Hl. destruct (Hwf id r Hl). done. }
  rewrite wp_bind. apply wp_bull_do. intros [[]|e|] w1 Ho Hw1; [|by split|done].
  set (r := {| gr_gatewayId := id; queueName := queueNameFor id; workers := 0 |}).
  rewrite wp_bind. unfold put_runtime. rewrite wp_modify, wp_bind. set (w2 := set_w_runtimes _ w1).
  assert (Hin : lookup_runtime id (w_runtimes w2) ≠ None) by (cbn; by rewrite lookup_set_runtime).
  pose proof (respects (R := keeps_runtimes) (m := scaleWorkers r (workerPoolSize (queue config))) w2 id Hin) as Hk.
  pose proof (scaleWorkers_wp r (workerPoolSize (queue config)) w2 Hsize) as Hp. unfold wp in *.
  destruct (scaleWorkers r _ w2) as [[[]|e|] w3]; cbn in *; destruct Hp as [Hp1 Hp2]; [|by split|done].
  split; [done|]. intros r' [= <-]. split; [done|]. split; [done|]. split; [exact Hk|]. by apply Hp2.
Qed.

(** The pool of a gateway can be set to any size: the call always ends; if it
    returns, the gateway has exactly that many workers, whether it was scaled up,
    scaled down or just provisioned; a negative size is refused before anything
    is changed. *)
Theorem setWorkerPoolSize_reaches (id : string) (size : Z) (w : world) :
  0 ≤ workerPoolSize (queue config) → runtimes_wf w →
  match setWorkerPoolSize id size w with
  | (Ok _, w') => 0 ≤ size ∧ (getWorkerPoolSize id w').1 = Ok (Z.to_nat size)
  | (Throw _, w') => size < 0 → w' = w
  | (Diverged, _) => False
  end.
Proof.
  intros Hcfg Hwf. unfold setWorkerPoolSize. destruct (Z.ltb_spec size 0) as [Hneg|Hpos]; [done|].
  assert (Hwp : wp (r ← ensureGateway id; scaleWorkers r size;; n ← worker_count r;
      logger L_log ("gateway " +:+ id +:+ " worker pool -> " +:+ pretty (Z.of_nat n)))
    (λ o w', o ≠ Diverged ∧ (o = Ok tt → (getWorkerPoolSize id w').1 = Ok (Z.to_nat size))) w).
  { rewrite wp_bind. eapply wp_mono; [|by apply ensureGateway_wp].
    intros [r|e|] w1 [Ho Hr]; [|by split|done]. destruct (Hr r eq_refl) as (Hid&_&Hin&_). clear Hr.
    rewrite wp_bind.
    pose proof (respects (R := keeps_runtimes) (m := scaleWorkers r size) w1 id Hin) as Hk.
    pose proof (scaleWorkers_wp r size w1 Hpos) as Hp. unfold wp in Hp |- *.
    destruct (scaleWorkers r size w1) as [[[]|e|] w2]; cbn [fst snd] in *; [|by split|by destruct Hp].
    split; [done|]. intros _. destruct Hp as [_ Hp]. specialize (Hp eq_refl). unfold pool in Hp.
    rewrite Hid in Hp. unfold getWorkerPoolSize, gets, logger. cbn [fst].
    change (w_runtimes (_ w2).2) with (w_runtimes w2).
    destruct (lookup_runtime id (w_runtimes w2)) as [g|]; [by rewrite <-Hp|done]. }
  unfold wp in Hwp. set (m := ensureGateway id ≫= _) in *. clearbody m.
  destruct (m w) as [[[]|e|] w']; cbn in Hwp |- *; [split; [done|]; by apply Hwp|lia|naive_solver].
Qed.

(** A negative pool size in the configuration (QUEUE_WORKER_POOL_SIZE) hangs
    the process: once no worker is left the loop that scales down still runs,
    whatever fuel it is given. *)
Theorem negative_pool_size_hangs (fuel : nat) (r : GatewayRuntime) (target : Z) (w : world) :
  target < 0 → pool r w = 0%nat → (scale_down fuel r target w).1 = Diverged.
Proof.
  intros Ht Hp. induction fuel as [|fuel IH]; [done|]. cbn [scale_down].
  unfold mbind, M_bind, worker_count, gets. fold (pool r w). rewrite Hp.
  rewrite (proj2 (Z.ltb_lt _ _)) by lia. exact IH.
Qed.
End Pools.

(** ** Jobs *)
#[export] Hint Extern 1 (Respects (keeps _) (modify _)) => solve_frame : typeclass_instances.

Section Jobs.
Context `{Platform} `{!BullLaws num bull}.

Definition jobs_same : relation world := λ w w', ∀ q, bull_jobs (w_bull w') q = bull_jobs (w_bull w) q.

#[global] Instance jobs_same_preorder : PreOrder jobs_same.
Proof. split; [by intros w q|]. intros w1 w2 w3 H12 H23 q. by rewrite H23, H12. Qed.
#[global] Instance keeps_jobs_same {A} (m : M exn world A) :
  Respects (keeps w_bull) m → Respects jobs_same m | 50.
Proof. apply respects_mono. unfold keeps, jobs_same. by intros s s' ->. Qed.

Lemma respects_bull_jobs {A} (c : bull_call num A) : is_add c = false → Respects jobs_same (bull_do c).
Proof.
  intros Hc w q. unfold bull_do. destruct (read_clock _ _) as [now rt].
  pose proof (bull_other A now c (w_bull w) Hc q) as Hq.
  by destruct (bull_exec now c (w_bull w)) as [[m|a] b].
Qed.
End Jobs.
#[global] Typeclasses Opaque jobs_same.
#[export] Hint Extern 1 (Respects jobs_same (bull_do _)) =>
  apply respects_bull_jobs; reflexivity : typeclass_instances.

Section Enqueue.
Context `{Platform} `{!BullLaws num bull}.

#[global] Instance scale_up_jobs fuel r target : Respects jobs_same (scale_up fuel r target).
Proof. induction fuel as [|fuel IH]; cbn [scale_up]; frame. Qed.
#[global] Instance scale_down_jobs fuel r target : Respects jobs_same (scale_down fuel r target).
Proof. induction fuel as [|fuel IH]; cbn [scale_down]; frame. Qed.
#[global] Instance ensureGateway_jobs id : Respects jobs_same (ensureGateway id).
Proof. frame. Qed.

(** The queue [q] holds the job [j], added unless a job of its id was there; the
    other queues are the same. *)
Definition added_once (q : queue_ref) (j : Job num) (b b' : bull) : Prop :=
  bull_jobs b' q = (if bool_decide (job_id j ∈ map job_id (bull_jobs b q)) then bull_jobs b q
                    else bull_jobs b q ++ [j]) ∧
  ∀ q', q' ≠ q → bull_jobs b' q' = bull_jobs b q'.

Definition payment_job (input : EnqueuePaymentJobInput) : Job num :=
  new_job QUEUE_JOB_NAME (enqueue_data input) (enqueue_opts input).

Definition gateway_queue (id : string) : queue_ref := queue_named (queueNameFor id).

Lemma added_once_in q j b b' : added_once q j b b' → job_id j ∈ map job_id (bull_jobs b' q).
Proof.
  intros [-> _]. case_bool_decide as Hin; [done|]. rewrite map_app, elem_of_app. right. by left.
Qed.

Lemma wp_bull_add q name d o (Q : outcome exn unit → world → Prop) w :
  (∀ rt b, bull_jobs b q = (if bool_decide (o_jobId o ∈ map job_id (bull_jobs (w_bull w) q))
      then bull_jobs (w_bull w) q else bull_jobs (w_bull w) q ++ [new_job name d o]) →
    (∀ q', q' ≠ q → bull_jobs b q' = bull_jobs (w_bull w) q') →
    Q (Ok tt) (set_w_bull b (set_w_rt rt w))) →
  (∀ m rt b, Q (Throw (EError m)) (set_w_bull b (set_w_rt rt w))) →
  wp (bull_do (QueueAdd q name d o)) Q w.
Proof.
  intros HQ Ht. unfold wp, bull_do. destruct (read_clock _ _) as [now rt].
  destruct (bull_exec now (QueueAdd q name d o) (w_bull w)) as [[m|[]] b] eqn:Hb; [apply Ht|].
  destruct (bull_add _ _ _ _ _ _ _ Hb). by apply HQ.
Qed.

Lemma enqueue_wp (input : EnqueuePaymentJobInput) w :
  0 ≤ workerPoolSize (queue config) → runtimes_wf w →
  wp (enqueue input) (λ o w', o ≠ Diverged ∧
    (o = Ok tt → added_once (gateway_queue (eq_gatewayId input)) (payment_job input) (w_bull w) (w_bull w'))) w.
Proof.
  intros Hcfg Hwf. unfold enqueue. rewrite wp_bind.
  eapply wp_mono; [|apply (wp_respects jobs_same), ensureGateway_wp; [apply _|done..]].
  intros [r|e|] w1 [[Ho Hr] Hj]; [|by split|done]. destruct (Hr r eq_refl) as (_&->&_).
  unfold jobs_same in Hj. apply wp_bull_add; [|intros; by split]. intros rt b Hb Hb'. split; [done|]. intros _.
  split; cbn; unfold gateway_queue; [by rewrite Hb, Hj|]. intros q Hq. by rewrite Hb', Hj.
Qed.

(** Enqueuing a payment, when it succeeds, puts one job in the queue of its
    gateway, with [maxRetries + 1] attempts, the numeric priority and the delay;
    the job id makes it idempotent: if the queue already has a job of that id it
    is left as it is.  No other queue is touched, even when the gateway has to be
    provisioned first. *)
Theorem enqueue_once (input : EnqueuePaymentJobInput) (w w' : world) :
  0 ≤ workerPoolSize (queue config) → runtimes_wf w → enqueue input w = (Ok tt, w') →
  let q := queue_named (queueNameFor (eq_gatewayId input)) in
  let old := bull_jobs (w_bull w) q in
  bull_jobs (w_bull w') q =
    (if bool_decide (eq_jobId input ∈ map job_id old) then old
     else old ++ [new_job QUEUE_JOB_NAME (enqueue_data input) (enqueue_opts input)]) ∧
  ∀ q', q' ≠ q → bull_jobs (w_bull w') q' = bull_jobs (w_bull w) q'.
Proof.
  intros Hcfg Hwf He q old. pose proof (enqueue_wp input w Hcfg Hwf) as Hwp. unfold wp in Hwp.
  rewrite He in Hwp. by apply Hwp.
Qed.

#[global] Instance ensureGateway_wf id : Respects wf_kept (ensureGateway id).
Proof.
  pose proof (λ fuel r target, scale_up_wf fuel id r target) as Hup.
  pose proof (λ fuel r target, scale_down_wf fuel id r target) as Hdown.
  unfold ensureGateway. frame; try (apply put_runtime_wf; done); [apply Hup|apply Hdown]; done.
Qed.

(** The runtime [ensureGateway] returns is the one of the id. *)
Lemma ensureGateway_typed id w :
  runtimes_wf w →
  wp (ensureGateway id) (λ o w', runtimes_wf w' ∧ ∀ r, o = Ok r → runtime_of id r) w.
Proof.
  intros Hw. split; [by apply ensureGateway_wf|]. intros r. unfold ensureGateway.
  unfold mbind at 1, M_bind at 1, gets. destruct (lookup_runtime id (w_runtimes w)) as [r'|] eqn:Hl.
  - intros [= <-]. by apply Hw.
  - match goal with |- (?m w).1 = _ → _ => assert (yields (runtime_of id) m) as Hy by by yields end. apply Hy.
Qed.

Lemma wf_kept_run {A} (m : M exn world A) w :
  Respects wf_kept m → runtimes_wf w → runtimes_wf (m w).2.
Proof. intros Hm Hw. by apply (Hm w). Qed.

(** A method that first provisions its gateway. *)
Lemma wf_after_ensure {A} id (f : GatewayRuntime → M exn world A) w :
  (∀ r, runtime_of id r → Respects wf_kept (f r)) →
  runtimes_wf w → runtimes_wf ((r ← ensureGateway id; f r) w).2.
Proof.
  intros Hf Hw. cut (wp (r ← ensureGateway id; f r) (λ _ w', runtimes_wf w') w); [done|].
  rewrite wp_bind. eapply wp_mono; [|by apply ensureGateway_typed].
  intros [r|e|] w1 [Hw1 Hr]; [|done..]. by apply (Hf r (Hr r eq_refl)).
Qed.

#[global] Instance for_runtimes_wf c rs :
  Respects wf_kept (for_runtimes rs (λ r, bull_do (c (queue_named (queueName r))))).
Proof. induction rs as [|[k r] rs IH]; cbn [for_runtimes]; frame. Qed.

Lemma on_gateways_wf gatewayId c w : runtimes_wf w → runtimes_wf (on_gateways gatewayId c w).2.
Proof.
  intros Hw. unfold on_gateways. destruct (truthy gatewayId).
  - apply wf_after_ensure; [|done]. intros r _. apply _.
  - apply (for_runtimes_wf c (w_runtimes w)), Hw.
Qed.

#[global] Instance dlqQueue_wf : Respects wf_kept dlqQueue.
Proof. frame. Qed.
#[global] Instance gateway_depths_wf rs : Respects wf_kept (gateway_depths rs).
Proof. induction rs as [|[k r] rs IH]; cbn [gateway_depths]; frame. Qed.

#[global] Instance enqueue_wf input : Respects wf_kept (enqueue input).
Proof. intros w Hw. apply wf_after_ensure; [|done]. intros r _. apply _. Qed.

(** A gateway never gets a second entry. *)
Definition unique_kept : relation world := λ w w',
  NoDup (map fst (w_runtimes w)) → NoDup (map fst (w_runtimes w')).

#[global] Instance unique_kept_preorder : PreOrder unique_kept.
Proof. split; [intros w Hw; exact Hw|]. intros w1 w2 w3 H12 H23 Hw. by apply H23, H12. Qed.
#[global] Instance keeps_unique_kept {A} (m : M exn world A) :
  Respects (keeps w_runtimes) m → Respects unique_kept m | 50.
Proof. apply respects_mono. unfold keeps, unique_kept. by intros w w' ->. Qed.

Lemma set_runtime_keys id r rs :
  map fst (set_runtime id r rs) =
  if bool_decide (id ∈ map fst rs) then map fst rs else map fst rs ++ [id].
Proof.
  induction rs as [|[k r'] rs IH]; [done|]. cbn [set_runtime]. destruct (decide (k = id)) as [->|Hk].
  - rewrite !bool_decide_true; [done|apply elem_of_cons; by left|done].
  - rewrite (bool_decide_false (k = id)) by done. cbn. rewrite IH. repeat case_bool_decide; set_solver.
Qed.

#[global] Instance put_runtime_unique id r : Respects unique_kept (put_runtime id r).
Proof.
  intros w Hw. cbn. rewrite set_runtime_keys. case_bool_decide; [done|].
  apply NoDup_app. split_and!; [done| |apply NoDup_singleton].
  intros k Hk ->%list_elem_of_singleton. done.
Qed.
#[global] Instance scale_up_unique fuel r target : Respects unique_kept (scale_up fuel r target).
Proof. induction fuel as [|fuel IH]; cbn [scale_up]; frame. Qed.
#[global] Instance scale_down_unique fuel r target : Respects unique_kept (scale_down fuel r target).
Proof. induction fuel as [|fuel IH]; cbn [scale_down]; frame. Qed.
#[global] Instance for_runtimes_unique c rs :
  Respects unique_kept (for_runtimes rs (λ r, bull_do (c (queue_named (queueName r))))).
Proof. induction rs as [|[k r] rs IH]; cbn [for_runtimes]; frame. Qed.
#[global] Instance gateway_depths_unique rs : Respects unique_kept (gateway_depths rs).
Proof. induction rs as [|[k r] rs IH]; cbn [gateway_depths]; frame. Qed.

Lemma elem_of_lookup_runtime id r rs :
  NoDup (map fst rs) → (id, r) ∈ rs → lookup_runtime id rs = Some r.
Proof.
  induction rs as [|[k r'] rs IH]; cbn; [by intros _ []%not_elem_of_nil|].
  intros [Hk Hn]%NoDup_cons [[= -> ->]|Hin]%elem_of_cons; [by rewrite bool_decide_true|].
  rewrite bool_decide_false; [by apply IH|]. intros ->. apply Hk.
  by apply (list_elem_of_fmap_2 fst rs (id, r)).
Qed.

(** The operations of the queue manager. *)
Inductive queue_operation : world → world → Prop :=
  | op_resize gatewayId size w : queue_operation w (setWorkerPoolSize gatewayId size w).2
  | op_pause gatewayId w : queue_operation w (pause gatewayId w).2
  | op_resume gatewayId w : queue_operation w (resume gatewayId w).2
  | op_enqueue input w : queue_operation w (enqueue input w).2
  | op_dead_letter entry w : queue_operation w (routeToDlq entry w).2
  | op_list w : queue_operation w (listDlq w).2
  | op_depths w : queue_operation w (collectQueueDepths w).2.

Lemma queue_operation_unique w w' : queue_operation w w' → unique_kept w w'.
Proof.
  destruct 1 as [id size w|gid w|gid w|input w|entry w|w|w];
    match goal with |- unique_kept ?w (?m ?w).2 => cut (Respects unique_kept m); [by intros Hm; apply Hm|] end.
  1, 4-7: frame.
  all: unfold pause, resume, on_gateways; destruct (truthy gid); frame.
Qed.

Lemma queue_operation_wf w w' : queue_operation w w' → wf_kept w w'.
Proof.
  intros Hop Hwf. destruct Hop as [id size w|gid w|gid w|input w|entry w|w|w].
  - unfold setWorkerPoolSize. destruct (size <? 0); [done|]. apply wf_after_ensure; [|done].
    intros r Hr. pose proof (λ fuel target, scale_up_wf fuel id r target Hr) as Hup.
    pose proof (λ fuel target, scale_down_wf fuel id r target Hr) as Hdown. frame.
  - by apply on_gateways_wf.
  - by apply on_gateways_wf.
  - by apply enqueue_wf.
  - apply wf_kept_run; [frame|done].
  - apply wf_kept_run; [frame|done].
  - apply wf_kept_run; [frame|done].
Qed.


(** A failed attempt is routed to the failure handler only when the retry
    budget of the job is spent: for a job enqueued with [maxRetries] the handler
    is not called after the first [maxRetries] failures, which change nothing; it
    is called once the attempts made exceed [maxRetries], and an error it throws
    is logged and goes no further. *)
Theorem worker_failed_when_exhausted (input : EnqueuePaymentJobInput) (job : Job num)
    (handler : PaymentJobData → exn → M exn world unit) (err : exn) (w : world) :
  opts job = enqueue_opts input →
  let d := payment_data (data job) in
  worker_failed (Some handler) (Some job) err w =
    if attemptsMade job <=? eq_maxRetries input then (Ok tt, w)
    else match handler d err w with
         | (Throw _, w') => logger L_error ("failure handler failed for " +:+ jd_paymentId d) w'
         | r => r
         end.
Proof.
  intros Ho d. unfold worker_failed. rewrite Ho. cbn [o_attempts enqueue_opts]. rewrite Z.geb_leb.
  destruct (Z.leb_spec (attemptsMade job) (eq_maxRetries input));
    destruct (Z.leb_spec (eq_maxRetries input + 1) (attemptsMade job)); done || lia.
Qed.
End Enqueue.

(** ** The properties on the concrete platform *)
#[local] Existing Instance calm.

Lemma boot_runtimes gs : runtimes_wf (boot gs).
Proof. by intros id r. Qed.

Definition demo_enqueue : EnqueuePaymentJobInput :=
  {| eq_gatewayId := "stripe"; eq_paymentId := "p1"; eq_correlationId := None; eq_priority := High;
     eq_maxRetries := 3; eq_delayMs := None; eq_jobId := "p1" |}.


Lemma setWorkerPoolSize_reaches_witness :
  (getWorkerPoolSize "stripe" (setWorkerPoolSize "stripe" 5 (boot ∅)).2).1 = Ok 5%nat.
Proof.
  pose proof (setWorkerPoolSize_reaches "stripe" 5 (boot ∅) ltac:(vm_compute; discriminate)
    (boot_runtimes ∅)) as Hs.
  assert (Ho : (setWorkerPoolSize "stripe" 5 (boot ∅)).1 = Ok tt) by (vm_compute; reflexivity).
  destruct (setWorkerPoolSize "stripe" 5 (boot ∅)) as [[[]|e|] w']; [|discriminate..]. apply Hs.
Defined.

Lemma negative_pool_size_hangs_witness :
  (scale_down 1000 {| gr_gatewayId := "stripe"; queueName := "stripe"; workers := 0 |} (-1) (boot ∅)).1 =
  Diverged.
Proof. apply negative_pool_size_hangs; [lia|reflexivity]. Defined.

Lemma enqueue_once_witness :
  let w1 := (enqueue demo_enqueue (boot ∅)).2 in
  map job_id (bull_jobs (w_bull w1) (queue_named "stripe")) = ["p1"] ∧
  bull_jobs (w_bull (enqueue demo_enqueue w1).2) (queue_named "stripe") =
    bull_jobs (w_bull w1) (queue_named "stripe").
Proof.
  intros w1.
  assert (H1 : enqueue demo_enqueue (boot ∅) = (Ok tt, w1)).
  { refine (run_pair (enqueue demo_enqueue) (boot ∅) (Ok tt) _). vm_compute. reflexivity. }
  destruct (enqueue_once demo_enqueue (boot ∅) w1 ltac:(vm_compute; discriminate) (boot_runtimes ∅) H1)
    as [Hj _].
  split; [vm_compute; reflexivity|vm_compute; reflexivity].
Defined.

Lemma worker_failed_when_exhausted_witness :
  let job := {| job_name := QUEUE_JOB_NAME; job_id := "p1"; data := enqueue_data demo_enqueue;
                opts := enqueue_opts demo_enqueue; attemptsMade := 3 |} in
  worker_failed (Some (λ _ _, throw (EError "x"))) (Some job) (EError "y") (boot ∅) = (Ok tt, boot ∅).
Proof.
  intros job. exact (worker_failed_when_exhausted demo_enqueue job (λ _ _, throw (EError "x"))
    (EError "y") (boot ∅) eq_refl).
Defined.
