(* ===== verification/Processor.v ===== *)
(** * Payment processor ([src/src/payments/payment.processor.ts])

    What a worker does with a job: idempotency check, execution lock, saga,
    terminal state; and the terminal handling of permanent failures and of
    exhausted retries. *)

From S2P Require Import Prelude Num JsValue Errors Payment TokenBucket CircuitBreaker EventBus.
From S2P Require Import Json Redis Gateway Config Bull World Registries Stores Sim Guard Saga.
From S2P Require Import SagaSpec Idempotency QueueManager.

Inductive ProcessResult :=
  | PCompleted (paymentId : string) (transactionId : option string)
  | PDeadLetter (paymentId failureReason : string)
  | PSkipped (paymentId reason : string).

Section Processor.
Context `{Platform}.

#[local] Notation R := (M exn (world * PaymentRecord)) (only parsing).

(** Run a method that holds a record, on a record that is then forgotten. *)
Definition with_record {A} (r : PaymentRecord) (m : R A) : M exn world A := λ w,
  let '(o, (w', _)) := m (w, r) in (o, w').

Definition failed_input (reason : string) : FinalizeInput :=
  {| fi_state := FAILED; fi_paymentStatus := Some DeadLetter; fi_transactionId := None;
     fi_failureReason := Some reason |}.

Definition completed_input (transactionId : string) : FinalizeInput :=
  {| fi_state := COMPLETED; fi_paymentStatus := Some Completed; fi_transactionId := Some transactionId;
     fi_failureReason := None |}.

(** [latest] is a copy read from the store; [record] itself is not changed. *)
Definition finalizeDeadLetter (record : PaymentRecord) (reason : string) (correlationId : option string)
    : M exn world ProcessResult :=
  let pid := id (payment record) in
  found ← store_get pid;
  let latest := default record found in
  if bool_decide (status latest = DeadLetter) || bool_decide (status latest = Completed) then
    mret (PSkipped pid ("already " +:+ PAYMENT_STATUSES (status latest)))
  else
    at' ← date_now;
    let latest := transitionToDeadLetter latest reason at' in
    store_save latest;;
    finalize pid (failed_input reason);;
    audit_record pid A_payment_dead_lettered None (Some [("reason", JString reason)]);;
    at1 ← date_now;
    emit_event (EvPayment Ev_failed pid (Some (gatewayId (payment latest))) correlationId
      (Some DeadLetter) at1 (Some [("reason", JString reason)]));;
    at2 ← date_now;
    emit_event (EvPayment Ev_dead_lettered pid (Some (gatewayId (payment latest))) correlationId
      (Some DeadLetter) at2 (Some [("reason", JString reason)]));;
    withSpan SPAN_DLQ
      [("paymentId", Some pid); ("gatewayId", Some (gatewayId (payment latest)));
       ("correlationId", Some (default "" correlationId)); ("reason", Some reason)]
      (at3 ← date_now;
       routeToDlq {| dlq_paymentId := pid; dlq_correlationId := correlationId; dlq_reason := reason;
                     deadLetteredAt := at3 |});;
    trace_log L_warn ("payment " +:+ pid +:+ " dead-lettered: " +:+ reason) "PaymentProcessor";;
    mret (PDeadLetter pid reason).

Definition handleJobFailure (jobData : PaymentJobData) (error : exn) : M exn world unit :=
  record ← store_get (jd_paymentId jobData);
  match record with
  | None =>
      trace_log L_error ("failure handler: payment " +:+ jd_paymentId jobData +:+ " not found (" +:+
        error_message error +:+ ")") "PaymentProcessor"
  | Some record =>
      if bool_decide (status record = Completed) || bool_decide (status record = DeadLetter) then mret tt
      else
        finalizeDeadLetter record ("retries exhausted: " +:+ error_message error)
          (jd_correlationId jobData);;
        mret tt
  end.

(** The body of the inner [try], after the saga. *)
Definition saga_completed (pid : string) (correlationId : option string) (startedAt : Z)
    (outcome : SagaOutcome) : R ProcessResult :=
  let tx := so_transactionId outcome in
  at' ← lift date_now;
  upd (λ r, transitionToCompleted r (Some tx) at');;
  upd (λ r, set_sagaState r Settled);;
  upd (λ r, set_reservationId r (Some (so_reservationId outcome)));;
  upd (λ r, set_failureReason r None);;
  save_record;;
  lift (finalize pid (completed_input tx));;
  lift (audit_record pid A_payment_completed None (Some [("transactionId", JString tx)]));;
  r ← the_record;
  at1 ← lift date_now;
  lift (emit_event (EvPayment Ev_completed pid (Some (gatewayId (payment r))) correlationId
    (Some Completed) at1 None));;
  now ← lift date_now;
  at2 ← lift date_now;
  lift (emit_event (EvJobCompleted pid (gatewayId (payment r)) true (now - startedAt) at2));;
  mret (PCompleted pid (Some tx)).

Definition attempt_saga (pid : string) (correlationId : option string) (startedAt : Z) : R ProcessResult :=
  outcome ← execute;
  saga_completed pid correlationId startedAt outcome.

(** The [catch] block. *)
Definition attempt_failed (pid : string) (correlationId : option string) (startedAt : Z) (err : exn)
    : R ProcessResult :=
  r ← the_record;
  let failure := toPaymentProcessingError err (gatewayId (payment r)) UNKNOWN in
  now ← lift date_now;
  at' ← lift date_now;
  lift (emit_event (EvJobCompleted pid (gatewayId (payment r)) false (now - startedAt) at'));;
  if negb (retryable failure) then
    lift (finalizeDeadLetter r (ppe_message failure) correlationId)
  else
    add_history PhCharge
      ("transient failure (" +:+ ERROR_CODES (code failure) +:+ "), will retry") (Some (ppe_message failure));;
    save_record;;
    throw (EProcessing failure).

Definition attempt (pid : string) (correlationId : option string) (attemptsMade startedAt : Z)
    : R ProcessResult :=
  let detail := [("attempt", JNumber (nof (attemptsMade + 1)))] in
  upd (λ r, transitionToProcessing r attemptsMade startedAt);;
  save_record;;
  lift (audit_record pid A_payment_processing None (Some detail));;
  r ← the_record;
  lift (emit_event (EvPayment Ev_processing pid (Some (gatewayId (payment r))) correlationId
    (Some Processing) startedAt (Some detail)));;
  catch (attempt_saga pid correlationId startedAt) (attempt_failed pid correlationId startedAt).

Definition is_final (idem : option IdempotencyRecord) : bool :=
  match idem with
  | Some r => bool_decide (state r = COMPLETED) || bool_decide (state r = FAILED)
  | None => false
  end.

Definition processJob (job : Job num) : M exn world ProcessResult :=
  let pid := jd_paymentId (payment_data (data job)) in
  let correlationId := jd_correlationId (payment_data (data job)) in
  startedAt ← date_now;
  record ← store_get pid;
  match record with
  | None => throw (EError ("payment record " +:+ pid +:+ " not found while processing job " +:+ job_id job))
  | Some record =>
      idem ← idem_get pid;
      if is_final idem then
        mret (PSkipped pid ("already finalized as " +:+ PAYMENT_STATUSES (status record)))
      else
        locked ← acquireExecutionLock pid;
        if negb locked then mret (PSkipped pid "concurrent execution lock held by another worker")
        else
          finally (with_record record (attempt pid correlationId (attemptsMade job) startedAt))
            (releaseExecutionLock pid)
  end.

Definition process (job : Job num) : M exn world ProcessResult :=
  let d := payment_data (data job) in
  withSpan SPAN_PROCESS
    [("paymentId", Some (jd_paymentId d)); ("correlationId", Some (default "" (jd_correlationId d)));
     ("jobId", Some (job_id job))]
    (processJob job).

(** [PaymentsModule.onModuleInit]: the workers are given [process] and
    [handleJobFailure] ([src/src/payments/payments.module.ts]). *)
Definition worker_run (job : Job num) : M exn world ProcessResult := worker_process (Some process) job.
Definition worker_on_failed (job : Job num) (err : exn) : M exn world unit :=
  worker_failed (Some handleJobFailure) (Some job) err.
End Processor.
