(* ===== verification/ProcessorSpec.v ===== *)
(** * What a worker does with a job ([src/src/payments/payment.processor.ts])

    The properties of [Processor.v]: what an attempt may ask of the gateway
    whatever commands are lost; the jobs that are skipped; and, when Redis
    answers, every way an attempt and the failure handler can end. *)

From S2P Require Import Prelude Num JsValue Errors Payment TokenBucket CircuitBreaker EventBus.
From S2P Require Import Json Redis Gateway Config Bull World Registries Stores Sim Guard Saga.
From S2P Require Import SagaSpec Idempotency QueueManager Processor.

(** ** Frames *)
Section Frames.
Context `{Platform}.

Lemma wp_with_record {A} r (m : M exn (world * PaymentRecord) A) (Q : outcome exn A → world → Prop) w :
  wp m (λ o s', Q o s'.1) (w, r) → wp (with_record r m) Q w.
Proof. unfold wp, with_record. by destruct (m (w, r)) as [o [w' r']]. Qed.

#[global] Instance scale_up_calls fuel r target : Respects (keeps w_calls) (scale_up fuel r target).
Proof. induction fuel as [|fuel IH]; cbn [scale_up]; frame. Qed.

Lemma respects_with_record {A} (R : relation world) r (m : M exn (world * PaymentRecord) A) :
  Respects (on_fst R) m → Respects R (with_record r m).
Proof.
  intros Hm w. specialize (Hm (w, r)). unfold with_record. by destruct (m (w, r)) as [o [w' r']].
Qed.

Lemma halts_with_record {A} r (m : M exn (world * PaymentRecord) A) : Halts m → Halts (with_record r m).
Proof. intros Hm w. specialize (Hm (w, r)). unfold with_record. by destruct (m (w, r)) as [o [w' r']]. Qed.
End Frames.
Ltac frame_hook ::=
  match goal with
  | |- Respects _ (with_record _ _) => apply respects_with_record
  | |- Halts (with_record _ _) => apply halts_with_record
  | _ => frame_lift
  end.

Section Provisioning.
Context `{Platform}.

#[global] Instance scale_up_elapses fuel r target : Respects elapses (scale_up fuel r target).
Proof. induction fuel as [|fuel IH]; cbn [scale_up]; frame. Qed.

End Provisioning.

Section Outcomes.
Context `{Platform}.

(** Dead-lettering and the failure branch never report a completed payment. *)
Definition not_completed (o : ProcessResult) : Prop :=
  match o with PCompleted _ _ => False | _ => True end.

Lemma finalizeDeadLetter_yields r reason c : yields not_completed (finalizeDeadLetter r reason c).
Proof. unfold finalizeDeadLetter. yields; done. Qed.

Lemma attempt_failed_yields pid c t err : yields not_completed (attempt_failed pid c t err).
Proof. unfold attempt_failed, lift. yields. apply finalizeDeadLetter_yields. Qed.
End Outcomes.

(** The possible traces of an execution, one by one. *)
Ltac trace_cases made :=
  destruct made as [|[? ? [[? ? ?|? ?]|]|? ? ?] [|[? ? ?|? ? [?|]] [|? ?]]]; cbn in *; naive_solver.

(** ** The gateway calls of a job *)
Section Calls.
Context `{PlatformLaws}.

#[global] Instance attempt_failed_quiet pid c t err : Respects quiet (attempt_failed pid c t err).
Proof. unfold quiet. frame. Qed.
#[global] Instance attempt_failed_halts pid c t err : Halts (attempt_failed pid c t err).
Proof. frame. Qed.
(** What a job may have asked of the gateway, with its result. *)
Definition job_trace (pid : string) (p : Payment) (made : list (gateway_call num))
    (res : outcome exn ProcessResult) : Prop :=
  let declined := ∀ o, res = Ok o → not_completed o in
  match made with
  | [] => declined
  | [CallCharge g p' (Some (ChargeFailed _ _))] => g = gatewayId p ∧ p' = p ∧ declined
  | [CallCharge g p' (Some (ChargeOk tx _ _))] =>
      g = gatewayId p ∧ p' = p ∧ ∀ o, res = Ok o → not_completed o ∨ o = PCompleted pid (Some tx)
  | [CallCharge g p' (Some (ChargeOk tx _ _)); CallRefund g' tx' (Some _)] =>
      g = gatewayId p ∧ p' = p ∧ g' = g ∧ tx' = tx ∧ declined
  | _ => False
  end.

Lemma job_trace_declined {A} pid p made (res : outcome exn A) charged o e :
  saga_trace p made res charged → res = Throw e →
  (∀ a, o = Ok a → not_completed a) → job_trace pid p made o.
Proof.
  intros Hm -> Ho. trace_cases made.
Qed.

Lemma saga_trace_ends {A} p made (res : outcome exn A) charged :
  saga_trace p made res charged → res ≠ Diverged.
Proof. trace_cases made. Qed.

Lemma attempt_saga_wp pid c t w r :
  wp (attempt_saga pid c t) (λ res s', res ≠ Diverged ∧ evolves r s'.2 ∧
    ∃ made, w_calls s'.1 = w_calls w ++ made ∧
      saga_trace (payment r) made res (λ tx o, o = PCompleted pid (Some tx))) (w, r).
Proof.
  unfold attempt_saga, saga_completed. rewrite wp_bind. eapply wp_mono; [|apply execute_calls_wp].
  intros [so|e|] [w1 r1] (He&made&Hc&Hm); cbn [fst snd] in *; [| |by apply saga_trace_ends in Hm].
  2: { split; [done|]. split; [done|]. exists made. split; [done|].
       trace_cases made. }
  assert (Hmade : ∃ tx h l, made = [CallCharge (gatewayId (payment r)) (payment r) (Some (ChargeOk tx h l))] ∧
    so_transactionId so = tx).
  { trace_cases made. }
  destruct Hmade as (tx&h&l&->&<-). set (Q := λ res s', _).
  assert (Ht : ∀ e s', quiet (w1, r1) s' → Q (Throw e) s').
  { intros e [w' r'] [Hc' He']. unfold on_fst, on_snd, keeps in Hc', He'. cbn in Hc', He'.
    split; [done|]. split; [by etrans|]. eexists. cbn [fst]. rewrite Hc'. split; [done|]. cbn. eauto. }
  assert (Hq : quiet (w1, r1) (w1, r1)) by (by split).
  do 14 (quiet_step Hq Ht).
  match goal with |- wp _ _ ?s => destruct s as [w' r'] end. destruct Hq as [Hc' He'].
  unfold on_fst, on_snd, keeps in Hc', He'. cbn in Hc', He'. rewrite wp_ret.
  split; [done|]. split; [by etrans|]. eexists. cbn [fst]. rewrite Hc'. split; [done|]. cbn. eauto 10.
Qed.
Lemma attempt_wp pid c n t w r :
  wp (attempt pid c n t) (λ res s', res ≠ Diverged ∧ ∃ made, w_calls s'.1 = w_calls w ++ made ∧
    job_trace pid (payment r) made res) (w, r).
Proof.
  unfold attempt. cbv zeta. set (Q := λ res s', _).
  assert (Ht : ∀ e s', quiet (w, r) s' → Q (Throw e) s').
  { intros e s' [Hc _]. split; [done|]. exists []. by rewrite app_nil_r. }
  assert (Hq : quiet (w, r) (w, r)) by (by split).
  do 5 (quiet_step Hq Ht). match goal with |- wp _ _ ?s => destruct s as [w1 r1] end.
  destruct Hq as [Hc1 [Hp1 _]]. unfold on_fst, on_snd, keeps in Hc1, Hp1. cbn in Hc1, Hp1.
  rewrite wp_catch. eapply wp_mono; [|apply attempt_saga_wp]. rewrite Hp1.
  intros res [w2 r2] (Hd&_&made&Hc2&Hm). cbn [fst snd] in *. rewrite Hc1 in Hc2.
  destruct res as [o|e|]; [| |done].
  - split; [done|]. exists made. split; [done|]. trace_cases made.
  - apply (wp_yields _ _ _ _ (attempt_failed_yields _ _ _ _)), (wp_frame quiet); [apply _..|].
    intros res [w3 r3] Hd3 [Hc3 _] Hno. unfold on_fst, keeps in Hc3. cbn in Hc3.
    split; [done|]. exists made. cbn [fst]. rewrite Hc3. split; [done|].
    by apply (job_trace_declined _ _ _ _ _ _ _ Hm eq_refl).
Qed.

Lemma processJob_wp job w :
  let pid := jd_paymentId (payment_data (data job)) in
  typed (db_of w) →
  wp (processJob job) (λ res w', res ≠ Diverged ∧ ∃ made, w_calls w' = w_calls w ++ made ∧
    match stored (db_of w) pid with
    | Some r => job_trace pid (payment r) made res
    | None => made = [] ∧ ∃ e, res = Throw e
    end) w.
Proof.
  intros pid Hd. unfold processJob. cbv zeta. fold pid. set (Q := λ res w', _).
  assert (Ht : ∀ e w', keeps w_calls w w' → Q (Throw e) w').
  { intros e w' Hc. split; [done|]. exists []. rewrite app_nil_r. split; [done|]. case_match; [done|eauto]. }
  rewrite wp_bind. apply wp_date_now. intros rt _. rewrite wp_bind.
  apply wp_store_get_fault; [done|intros rt' s _ _|intros; by apply Ht].
  unfold db_of. cbn [w_redis set_w_rt]. fold (db_of w).
  destruct (stored (db_of w) pid) as [r|] eqn:Hr; [|rewrite wp_throw; by apply Ht].
  set (w1 := after_cmd rt' s _). assert (H1 : keeps w_calls w w1) by done.
  assert (Hskip : ∀ why w', keeps w_calls w w' → Q (Ok (PSkipped pid why)) w').
  { intros e w' Hc. split; [done|]. exists []. rewrite app_nil_r. split; [done|]. by intros o [= <-]. }
  apply (wp_bind_frame (keeps w_calls)); [frame..|intros; apply Ht; by etrans|].
  intros idem w2 H2. assert (Hq2 : keeps w_calls w w2) by (by etrans).
  destruct (is_final idem); [rewrite wp_ret; by apply Hskip|].
  apply (wp_bind_frame (keeps w_calls)); [frame..|by intros; apply Ht; etrans|].
  intros locked w3 H3. assert (Hq3 : keeps w_calls w w3) by (by etrans).
  destruct locked; cbn [negb]; [|rewrite wp_ret; by apply Hskip].
  rewrite wp_finally. apply wp_with_record. eapply wp_mono; [|apply attempt_wp].
  intros res [w4 r4] (Hdv&made&Hc&Hm). cbn [fst]. unfold keeps in Hq3. cbn [fst] in Hc. rewrite Hq3 in Hc.
  assert (HQ : ∀ res' w', keeps w_calls w4 w' → (res' = res ∨ ∃ e, res' = Throw e) → Q res' w').
  { intros res' w' Hk Hres. split; [destruct Hres as [->|[e ->]]; done|]. exists made.
    unfold keeps in Hk. rewrite Hk. split; [done|]. destruct Hres as [->|[e ->]]; [done|].
    trace_cases made. }
  destruct res; [| |done]; (apply (wp_frame (keeps w_calls)); [frame..|]; intros [] w5 Hd5 H5;
    [apply HQ; eauto..|done]).
Qed.
End Calls.

(** ** When Redis answers *)
Section Calm.
Context `{PlatformLaws}.

#[local] Ltac keep_time ::= intros ?.

(** A write to the idempotency records or the locks, as the other stores see it. *)
Record unseen (d d' : db text) : Prop := {
  un_stored id : stored d' id = stored d id;
  un_audit id : audit_of d' id = audit_of d id;
  un_ledger : ledger_of d' = ledger_of d
}.

Lemma only_key_unseen k d d' : only_key k d d' → key_kind k = KString → unseen d d'.
Proof.
  intros Hk Hs. split; [intros; by eapply only_key_stored|intros; by eapply only_key_audit|by eapply only_key_ledger].
Qed.

Definition dlq_ref : queue_ref := queue_named DLQ_QUEUE_NAME.

(** The entry is in the dead letter queue, and no other queue was touched. *)
Definition dlq_routed (e : DlqEntry) (b b' : bull) : Prop :=
  dlq_paymentId e ∈ map job_id (bull_jobs b' dlq_ref) ∧
  bull_jobs b' dlq_ref = (if bool_decide (dlq_paymentId e ∈ map job_id (bull_jobs b dlq_ref))
    then bull_jobs b dlq_ref
    else bull_jobs b dlq_ref ++ [new_job DLQ_JOB_NAME (JobDlq e) (dlq_opts e)]) ∧
  ∀ q, q ≠ dlq_ref → bull_jobs b' q = bull_jobs b q.

Lemma wp_dlqQueue (Q : outcome exn queue_ref → world → Prop) w :
  (∀ rt b c, (∀ q, bull_jobs b q = bull_jobs (w_bull w) q) →
    Q (Ok dlq_ref) (set_w_bull b (set_w_rt rt (set_w_dlq c w)))) →
  (∀ m rt b, Q (Throw (EError m)) (set_w_bull b (set_w_rt rt (set_w_dlq true w)))) →
  wp dlqQueue Q w.
Proof.
  intros HQ Ht. unfold dlqQueue. rewrite wp_bind, wp_gets. destruct (w_dlq w) eqn:Hc.
  - rewrite wp_ret. specialize (HQ (w_rt w) (w_bull w) (w_dlq w) (λ q, eq_refl)). by destruct w.
  - rewrite wp_bind, wp_modify, wp_bind. unfold wp at 1, bull_do. cbn [w_rt set_w_dlq w_bull].
    destruct (read_clock _ _) as [now rt].
    pose proof (bull_other _ now (QueueReady (queue_named DLQ_QUEUE_NAME)) (w_bull w) eq_refl) as Hb.
    destruct (bull_exec now (QueueReady _) (w_bull w)) as [[m|[]] b]; [apply Ht|]. by apply (HQ rt b true).
Qed.

Lemma wp_routeToDlq e (Q : outcome exn unit → world → Prop) w :
  (∀ rt b c, dlq_routed e (w_bull w) b → Q (Ok tt) (set_w_bull b (set_w_rt rt (set_w_dlq c w)))) →
  (∀ m rt b c, Q (Throw (EError m)) (set_w_bull b (set_w_rt rt (set_w_dlq c w)))) →
  wp (routeToDlq e) Q w.
Proof.
  intros HQ Ht. unfold routeToDlq. rewrite wp_bind. apply wp_dlqQueue; [|intros; apply Ht].
  intros rt b c Hb. apply wp_bull_add; [|intros m rt' b'; apply (Ht m rt' b' c)].
  cbn [w_bull set_w_bull]. rewrite Hb. intros rt' b' Hj Ho. apply (HQ rt' b' c).
  split; [|split; [exact Hj|intros q Hq; by rewrite Ho, Hb]].
  rewrite Hj. clear Hj. cbn [o_jobId dlq_opts]. case_bool_decide; [done|].
  rewrite map_app, elem_of_app. right. cbn. by left.
Qed.
Definition is_terminal (s : PaymentStatus) : bool :=
  bool_decide (s = DeadLetter) || bool_decide (s = Completed).

(** The idempotency record of [pid] says [input], for at least [retentionSeconds]
    from [since]. *)
Definition finalized_as (pid : string) (input : FinalizeInput) (since : Z) (d : db text) : Prop :=
  ∃ c n e, holds (idempotency_key pid) (stringify (final_record pid input c n)) e d ∧
    since + 1000 * retentionSeconds (idempotency config) ≤ e.

(** What dead-lettering the record [old] does to the stores. *)
Record dead_lettered (pid reason : string) (old : PaymentRecord) (w w' : world) : Prop := {
  dl_typed : typed (db_of w');
  dl_stored : ∃ t, stored (db_of w') pid = Some (json_norm (transitionToDeadLetter old reason t));
  dl_idem : finalized_as pid (failed_input reason) (rt_now (w_rt w)) (db_of w');
  dl_lock : (db_of w' : gmap string (entry text)) !! lock_key pid =
    (db_of w : gmap string (entry text)) !! lock_key pid;
  dl_audit : map ae_type (audit_of (db_of w') pid) =
    map ae_type (audit_of (db_of w) pid) ++ [A_payment_dead_lettered];
  dl_ledger : ledger_of (db_of w') = ledger_of (db_of w);
  dl_calls : w_calls w' = w_calls w
}.

Lemma wp_finalizeDeadLetter r reason c (Q : outcome exn ProcessResult → world → Prop) w :
  no_faults → typed (db_of w) →
  let pid := id (payment r) in
  let old := default r (stored (db_of w) pid) in
  id (payment old) = pid →
  (is_terminal (status old) = true → ∀ w', db_of w' = db_of w → w_calls w' = w_calls w →
    w_bull w' = w_bull w →
    Q (Ok (PSkipped pid ("already " +:+ PAYMENT_STATUSES (status old)))) w') →
  (is_terminal (status old) = false → ∀ o w', dead_lettered pid reason old w w' →
    (∃ t, o = Ok (PDeadLetter pid reason) ∧ dlq_routed {| dlq_paymentId := pid; dlq_correlationId := c;
       dlq_reason := reason; deadLetteredAt := t |} (w_bull w) (w_bull w')) ∨
    (∃ m, o = Throw (EError m)) → Q o w') →
  wp (finalizeDeadLetter r reason c) Q w.
Proof.
  intros Hf Hd pid old Hid Hskip Hdead. unfold finalizeDeadLetter. cbv zeta. rewrite wp_bind.
  apply wp_store_get; [apply Hf|done|]. intros rt s Hrt Hs. fold pid. fold old.
  change (bool_decide _ || bool_decide _) with (is_terminal (status old)).
  destruct (is_terminal (status old)); [rewrite wp_ret; by apply Hskip|].
  rewrite wp_bind. apply wp_date_now. intros rt1 Hrt1. world_simpl.
  rewrite wp_bind. apply wp_store_save; [apply Hf|typed_now|]. intros rt2 s2 Hrt2 Hs2.
  change (id (payment (transitionToDeadLetter old reason (rt_now rt1)))) with (id (payment old)) in Hs2.
  rewrite Hid in Hs2. world_simpl.
  rewrite wp_bind. apply wp_finalize; [done|typed_now|].
  intros t n rt3 s3 rec n3 Hrt3 Ht Ht' -> Hty3 Hk3 Hh3. world_simpl.
  pose proof (only_key_unseen _ _ _ Hk3 (idempotency_key_kind pid)) as Hu3.
  rewrite wp_bind. apply wp_audit_record; [apply Hf|typed_now|]. intros t4 rt4 s4 Hrt4 Hs4. world_simpl.
  assert (Hdl : ∀ w', w_redis w' = s4 → w_calls w' = w_calls w → dead_lettered pid reason old w w').
  { intros w' Hw' Hc. unfold db_of. split; unfold db_of; rewrite ?Hw'; [typed_now| | | | | |done].
    - exists (rt_now rt1). rewrite (au_stored _ _ _ _ Hs4), (un_stored _ _ Hu3). apply (sv_stored _ _ _ _ Hs2).
    - exists (first_claim (idem_at t (view s2) pid) n), n. eexists. split.
      + unfold holds. rewrite (au_strings _ _ _ _ Hs4) by apply idempotency_key_kind. exact Hh3.
      + lia.
    - rewrite (au_strings _ _ _ _ Hs4), (Hk3 (lock_key pid)), (sv_strings _ _ _ _ Hs2), Hs;
        auto with qsys.
    - rewrite (au_audit _ _ _ _ Hs4), (un_audit _ _ Hu3), (sv_audit _ _ _ _ Hs2), Hs. by rewrite map_app.
    - rewrite (au_ledger _ _ _ _ Hs4), (un_ledger _ _ Hu3), (sv_ledger _ _ _ _ Hs2), Hs. done. }
  do 12 (saga_step idtac). apply wp_routeToDlq.
  - intros rt' b' c' Hb'. do 4 try (saga_step idtac). apply Hdead; [done|by apply Hdl|]. left. eauto.
  - intros m rt' b' c'. world_simpl. apply Hdead; [done|by apply Hdl|eauto].
Qed.
(** From [w] to [w'] only locks, idempotency records and the clock changed. *)
Record unnoticed (w w' : world) : Prop := {
  uw_typed : typed (db_of w');
  uw_db : unseen (db_of w) (db_of w');
  uw_calls : w_calls w' = w_calls w;
  uw_bull : w_bull w' = w_bull w;
  uw_time : rt_now (w_rt w) ≤ rt_now (w_rt w')
}.

Definition attempt_started (job : Job num) : SagaPhase * string :=
  (PhReserve, "attempt " +:+ pretty (attemptsMade job + 1) +:+ " started").

(** The traces of an attempt on the record [r] that [w] has stored. *)
Record job_effect (job : Job num) (r : PaymentRecord) (w w' : world) (st : PaymentStatus)
    (entries : list (SagaPhase * string)) (audits : list AuditType) (r' : PaymentRecord) : Prop := {
  je_typed : typed (db_of w');
  je_stored : stored (db_of w') (id (payment r)) = Some r';
  je_id : id (payment r') = id (payment r);
  je_payment : payment r' = json_payment (payment r);
  je_status : status r' = st;
  je_retryCount : retryCount r' = attemptsMade job;
  je_history : map entry_name (history r') = map entry_name (history r) ++
    attempt_started job :: entries;
  je_audit : map ae_type (audit_of (db_of w') (id (payment r))) =
    map ae_type (audit_of (db_of w) (id (payment r))) ++ A_payment_processing :: audits
}.

(** How a job ends: settled; refused for good; or to be retried. *)
Inductive job_case (job : Job num) (r : PaymentRecord) (w : world) :
    outcome exn ProcessResult → world → Prop :=
  | job_completed w' r' tx h l t :
      w_calls w' = w_calls w ++ [CallCharge (gatewayId (payment r)) (payment r) (Some (ChargeOk tx h l))] →
      job_effect job r w w' Completed
        [(PhReserve, "ok"); (PhCharge, "ok"); (PhSettle, "ok")]
        [A_saga_reserve; A_saga_charge; A_saga_settle; A_payment_completed] r' →
      sagaState r' = Settled → transactionId r' = Some tx → failureReason r' = None →
      ledger_of (db_of w') = ledger_of (db_of w) ++ [settlement (payment r) tx t] →
      finalized_as (id (payment r)) (completed_input tx) (rt_now (w_rt w)) (db_of w') →
      w_bull w' = w_bull w →
      job_case job r w (Ok (PCompleted (id (payment r)) (Some tx))) w'
  | job_dead_letter w' r' f l res :
      w_calls w' = w_calls w ++ [CallCharge (gatewayId (payment r)) (payment r) (Some (ChargeFailed f l))] →
      isTransient (gf_code f) = false →
      job_effect job r w w' DeadLetter
        [(PhReserve, "ok"); (PhCharge, "failure"); (PhCompensation, "release_funds");
         (PhCompensation, "dead_lettered")]
        [A_saga_reserve; A_release_funds; A_payment_dead_lettered] r' →
      failureReason r' = Some (gf_message f) →
      ledger_of (db_of w') = ledger_of (db_of w) →
      finalized_as (id (payment r)) (failed_input (gf_message f)) (rt_now (w_rt w)) (db_of w') →
      (∃ t, res = Ok (PDeadLetter (id (payment r)) (gf_message f)) ∧
        dlq_routed {| dlq_paymentId := id (payment r);
          dlq_correlationId := jd_correlationId (payment_data (data job));
          dlq_reason := gf_message f; deadLetteredAt := t |} (w_bull w) (w_bull w')) ∨
      (∃ m, res = Throw (EError m)) →
      job_case job r w res w'
  | job_retried w' r' made error :
      w_calls w' = w_calls w ++ made →
      match made with
      | [] => True
      | [CallCharge g p (Some (ChargeFailed f _))] =>
          g = gatewayId (payment r) ∧ p = payment r ∧ error = toProcessingError f g
      | _ => False
      end →
      retryable error = true →
      job_effect job r w w' Processing
        [(PhReserve, "ok"); (PhCharge, "failure"); (PhCompensation, "release_funds");
         (PhCharge, "transient failure (" +:+ ERROR_CODES (code error) +:+ "), will retry")]
        [A_saga_reserve; A_release_funds] r' →
      ledger_of (db_of w') = ledger_of (db_of w) →
      (∃ rec e, state rec = PROCESSING ∧ holds (idempotency_key (id (payment r))) (stringify rec) e (db_of w')) →
      w_bull w' = w_bull w →
      job_case job r w (Throw (EProcessing error)) w'.

#[global] Instance execute_bull : Respects (on_fst (keeps w_bull)) execute.
Proof. frame. Qed.

(** What an execution leaves alone. *)
Record run_frame (s s' : world * PaymentRecord) : Prop := {
  rf_evolves : evolves s.2 s'.2;
  rf_status : status s'.2 = status s.2;
  rf_retryCount : retryCount s'.2 = retryCount s.2;
  rf_time : rt_now (w_rt s.1) ≤ rt_now (w_rt s'.1);
  rf_bull : w_bull s'.1 = w_bull s.1
}.

Lemma execute_full_wp w r :
  typed (db_of w) → no_faults →
  wp execute (λ res s', saga_case w r res s'.1 s'.2 ∧ run_frame (w, r) s') (w, r).
Proof.
  intros Hd Hf. pose proof (execute_case_wp w r Hd (λ i _, Hf i)) as Hcase.
  pose proof (execute_calls_wp w r) as [He _]. pose proof (execute_elapses (w, r)) as Ht.
  pose proof (execute_bull (w, r)) as Hb. pose proof (execute_status (w, r)) as Hs. unfold wp in Hcase, He.
  unfold on_fst, on_snd, keeps in Ht, Hb, Hs. split; [exact Hcase|]. injection Hs as Hs1 Hs2. by split.
Qed.

(** From [w], that has stored [r], to the start of the saga. *)
Record started (r : PaymentRecord) (w w1 : world) : Prop := {
  sd_typed : typed (db_of w1);
  sd_audit : map ae_type (audit_of (db_of w1) (id (payment r))) =
    map ae_type (audit_of (db_of w) (id (payment r))) ++ [A_payment_processing];
  sd_ledger : ledger_of (db_of w1) = ledger_of (db_of w);
  sd_strings : same_strings (db_of w) (db_of w1);
  sd_calls : w_calls w1 = w_calls w;
  sd_bull : w_bull w1 = w_bull w;
  sd_time : rt_now (w_rt w) ≤ rt_now (w_rt w1)
}.

Ltac job_step Hf :=
  lazymatch goal with
  | |- wp (finalize _ _) _ _ =>
      apply wp_finalize; [exact Hf|typed_now|];
      let Hk := fresh "Hk" in
      intros ? ? ? ? ? ? ? ? ? -> ? Hk ?;
      pose proof (only_key_unseen _ _ _ Hk (idempotency_key_kind _));
      cbv beta iota; world_simpl
  | _ => saga_step ltac:(apply Hf)
  end.

Ltac observe_job :=
  repeat first
    [progress observe
    |match goal with
     | H : unseen _ (view ?s) |- context [stored (view ?s) ?i] => rewrite (un_stored _ _ H i)
     | H : unseen _ (view ?s) |- context [audit_of (view ?s) ?i] => rewrite (un_audit _ _ H i)
     | H : unseen _ (view ?s) |- context [ledger_of (view ?s)] => rewrite (un_ledger _ _ H)
     end].

Lemma saga_completed_wp job t w w1 w2 r r1 r2 at1 tx rid :
  no_faults → started r w w1 → r1 = transitionToProcessing r (attemptsMade job) at1 →
  saga_case w1 r1 (Ok {| so_transactionId := tx; so_reservationId := rid |}) w2 r2 →
  run_frame (w1, r1) (w2, r2) →
  wp (saga_completed (id (payment r)) (jd_correlationId (payment_data (data job))) t
      {| so_transactionId := tx; so_reservationId := rid |})
    (λ res s', job_case job r w res s'.1 ∧ (∃ o, res = Ok o) ∧
      (db_of s'.1 : gmap string (entry text)) !! lock_key (id (payment r)) =
      (db_of w : gmap string (entry text)) !! lock_key (id (payment r))) (w2, r2).
Proof.
  intros Hf [Hsd Hsa Hsl Hss Hsc Hsb Hst] Hr1 Hcase [He Hstat Hrc Htime Hbull]. cbn [fst snd] in *.
  inversion Hcase as [? ? ? ? h l t' Hc [He1 He2 He3 He4] Hl Hsg Htx Hrid _| |]; subst.
  unfold saga_completed. cbv zeta. cbn [so_transactionId so_reservationId].
  do 40 lazymatch goal with |- wp (mret _) _ _ => idtac | _ => job_step Hf end.
  rewrite wp_ret.
  match goal with H : saved _ ?i ?rF (view ?s), Hu : unseen _ (view ?s'), Ha : audited _ _ _ (view ?s''),
      Hk : only_key _ _ _, Hh : holds _ _ _ _ |- _ (?w', _).1 ∧ _ =>
    set (r' := rF) in *; assert (Hp : payment r' = payment r);
    [|change i with (id (payment r')) in H; rewrite Hp in H; rename H into Hsv, Hu into Hun, Ha into Hau;
     set (w3 := w'); assert (Hw3 : w_redis w3 = s'') by done;
     assert (Hc3 : w_calls w3 = w_calls w2) by done; assert (Hb3 : w_bull w3 = w_bull w2) by done;
     clearbody w3; cbn [fst]]
  end.
  { unfold r', transitionToCompleted. destruct He as [He _]. by case_match. }
  change (payment (transitionToProcessing r (attemptsMade job) at1)) with (payment r) in *.
  split; [|split; [by eexists|]].
  - eapply (job_completed _ _ _ w3 (json_norm r') tx h l t').
    + by rewrite Hc3, Hc, Hsc.
    + split; unfold db_of; rewrite ?Hw3.
      * typed_now.
      * by observe_job.
      * change (id (payment r') = id (payment r)). by rewrite Hp.
      * change (json_payment (payment r') = json_payment (payment r)). by rewrite Hp.
      * cbn. unfold transitionToCompleted. by case_match.
      * cbn. unfold transitionToCompleted. by case_match.
      * change (history (json_norm r')) with (history (transitionToCompleted r2 (Some tx) (rt_now rt))).
        replace (history (transitionToCompleted _ _ _)) with (history r2)
          by (unfold transitionToCompleted; by case_match).
        rewrite He2. cbn. by rewrite map_app, <-app_assoc.
      * observe_job. by rewrite !map_app, He3, Hsa, <-!app_assoc.
    + done.
    + cbn. unfold transitionToCompleted. by case_match.
    + done.
    + unfold db_of. rewrite Hw3. observe_job. by rewrite Hl, Hsl.
    + unfold finalized_as, db_of. rewrite Hw3. eexists _, n, _. split.
      * unfold holds. rewrite (au_strings _ _ _ _ Hau) by apply idempotency_key_kind. exact H8.
      * lia.
    + by rewrite Hb3, Hbull, Hsb.
  - rewrite Hw3, (au_strings _ _ _ _ Hau), (Hk (lock_key (id (payment r)))), (sv_strings _ _ _ _ Hsv), He4, Hss;
      auto with qsys.
Qed.

(** The state a saga that made no charge leaves, from [w] that has stored [r]. *)
Record declined (job : Job num) (r : PaymentRecord) (w w2 : world) (r2 : PaymentRecord)
    (made : list (gateway_call num)) (error : PaymentProcessingError) : Prop := {
  dc_payment : payment r2 = payment r;
  dc_status : status r2 = Processing;
  dc_retryCount : retryCount r2 = attemptsMade job;
  dc_history : map entry_name (history r2) = map entry_name (history r) ++
    [attempt_started job; (PhReserve, "ok"); (PhCharge, "failure"); (PhCompensation, "release_funds")];
  dc_typed : typed (db_of w2);
  dc_stored : stored (db_of w2) (id (payment r)) = Some (json_norm r2);
  dc_audit : map ae_type (audit_of (db_of w2) (id (payment r))) =
    map ae_type (audit_of (db_of w) (id (payment r))) ++
    [A_payment_processing; A_saga_reserve; A_release_funds];
  dc_ledger : ledger_of (db_of w2) = ledger_of (db_of w);
  dc_strings : same_strings (db_of w) (db_of w2);
  dc_calls : w_calls w2 = w_calls w ++ made;
  dc_made : match made with
    | [] => retryable error = true
    | [CallCharge g p (Some (ChargeFailed f _))] =>
        g = gatewayId (payment r) ∧ p = payment r ∧ error = toProcessingError f g
    | _ => False
    end;
  dc_bull : w_bull w2 = w_bull w;
  dc_time : rt_now (w_rt w) ≤ rt_now (w_rt w2)
}.

Lemma saga_declined job w w1 w2 r r2 at1 error :
  let r1 := transitionToProcessing r (attemptsMade job) at1 in
  no_faults → started r w w1 → saga_case w1 r1 (Throw (EProcessing error)) w2 r2 →
  run_frame (w1, r1) (w2, r2) → ∃ made, declined job r w w2 r2 made error.
Proof.
  intros r1 Hf [Hsd Hsa Hsl Hss Hsc Hsb Hst] Hcase [He Hstat Hrc Htime Hbull]. cbn [fst snd] in *.
  inversion Hcase as [|? ? made ? Hc Hm [He1 He2 He3 He4] Hl Hsto|? ? ? ? ? ? ? ? ? Hfate]; subst;
    [|by rewrite Hf in Hfate].
  change (payment r1) with (payment r) in *. exists made. split; try done.
  - apply He.
  - rewrite He2. cbn. by rewrite map_app, <-app_assoc.
  - by rewrite He3, Hsa, <-app_assoc.
  - by rewrite Hl, Hsl.
  - intros k Hk. by rewrite He4, Hss.
  - by rewrite Hc, Hsc.
  - by rewrite Hbull.
  - lia.
Qed.

Lemma declined_later job r w w2 w3 r2 made error :
  declined job r w w2 r2 made error → w_redis w3 = w_redis w2 → w_calls w3 = w_calls w2 →
  w_bull w3 = w_bull w2 → rt_now (w_rt w2) ≤ rt_now (w_rt w3) → declined job r w w3 r2 made error.
Proof.
  intros [] Hr Hc Hb Ht. split; unfold db_of in *; rewrite ?Hr, ?Hc, ?Hb; done || lia.
Qed.

(** A retryable failure is recorded and thrown. *)
Lemma transient_wp job r w w2 r2 made error :
  no_faults → declined job r w w2 r2 made error → retryable error = true →
  (∃ rec e, state rec = PROCESSING ∧
    holds (idempotency_key (id (payment r))) (stringify rec) e (db_of w)) →
  wp (add_history PhCharge
      ("transient failure (" +:+ ERROR_CODES (code error) +:+ "), will retry") (Some (ppe_message error));;
    save_record;;
    throw (EProcessing error))
    (λ res s', job_case job r w res s'.1 ∧
      (db_of s'.1 : gmap string (entry text)) !! lock_key (id (payment r)) =
      (db_of w : gmap string (entry text)) !! lock_key (id (payment r))) (w2, r2).
Proof.
  intros Hf [Hp Hst Hrc Hh Hd Hsto Ha Hl Hs Hc Hm Hb Ht] Hret (rec&e&Hr&Hproc). rewrite wp_bind.
  apply wp_add_history. intros rt _. set (r' := push_history r2 _).
  rewrite wp_bind. unfold save_record, the_record. rewrite wp_bind, wp_gets. cbn [snd].
  apply wp_lift, wp_store_save; [apply Hf|exact Hd|]. intros rt' s _ Hsv.
  change (id (payment r')) with (id (payment r2)) in Hsv. rewrite Hp in Hsv. rewrite wp_throw.
  cbn [fst]. split.
  - eapply (job_retried _ _ _ _ (json_norm r') made); try done.
    + by destruct made as [|[? ? [[]|]|] [|]].
    + split; try done; try apply Hsv.
      * change (id (payment r2) = id (payment r)). by rewrite Hp.
      * change (json_payment (payment r2) = json_payment (payment r)). by rewrite Hp.
      * change (history (json_norm r')) with (history r2 ++ [{| phase := PhCharge;
          event := "transient failure (" +:+ ERROR_CODES (code error) +:+ "), will retry";
          detail := Some (ppe_message error); at_ := rt_now rt |}]). by rewrite map_app, Hh, <-app_assoc.
      * unfold db_of. cbn. by rewrite (sv_audit _ _ _ _ Hsv).
    + unfold db_of. cbn. by rewrite (sv_ledger _ _ _ _ Hsv).
    + exists rec, e. split; [done|]. unfold holds, db_of. cbn.
      rewrite (sv_strings _ _ _ _ Hsv), Hs by apply idempotency_key_kind. exact Hproc.
  - unfold db_of. cbn. rewrite (sv_strings _ _ _ _ Hsv), Hs; auto with qsys.
Qed.

(** A permanent refusal is dead-lettered. *)
Lemma permanent_wp job r w w2 r2 made error :
  no_faults → declined job r w w2 r2 made error → retryable error = false →
  wp (finalizeDeadLetter r2 (ppe_message error) (jd_correlationId (payment_data (data job))))
    (λ res w', job_case job r w res w' ∧
      (db_of w' : gmap string (entry text)) !! lock_key (id (payment r)) =
      (db_of w : gmap string (entry text)) !! lock_key (id (payment r))) w2.
Proof.
  intros Hf [Hp Hst Hrc Hh Hd Hsto Ha Hl Hs Hc Hm Hb Ht] Hret.
  destruct made as [|[g p [[|f l]|]|] [|]]; try done; [congruence|]. destruct Hm as (->&->&->).
  change (isTransient (gf_code f) = false) in Hret.
  change (ppe_message (toProcessingError f _)) with (gf_message f).
  assert (Hterm : is_terminal (status (json_norm r2)) = false)
    by (change (is_terminal (status r2) = false); by rewrite Hst).
  apply wp_finalizeDeadLetter; [done..| | |]; rewrite Hp, Hsto;
    change (default r2 (Some (json_norm r2))) with (json_norm r2);
    [by change (id (payment r2) = id (payment r)); rewrite Hp|by rewrite Hterm|].
  intros _ o w3 [Hd1 [t3 Hd2] Hd3 Hd4 Hd5 Hd6 Hd7] Ho. split; [|by rewrite Hd4, Hs by apply lock_key_kind].
  eapply (job_dead_letter _ _ _ w3
    (json_norm (transitionToDeadLetter (json_norm r2) (gf_message f) t3)) f l); try done.
  - by rewrite Hd7.
  - split; [done|exact Hd2|by rewrite <-Hp| |done|exact Hrc| |by rewrite Hd5, Ha, <-app_assoc].
    { change (json_payment (json_payment (payment r2)) = json_payment (payment r)).
      by rewrite json_payment_idemp, Hp. }
    change (map entry_name (history r2 ++ [{| phase := PhCompensation; event := "dead_lettered";
      detail := Some (gf_message f); at_ := t3 |}]) = map entry_name (history r) ++
      attempt_started job :: [(PhReserve, "ok"); (PhCharge, "failure"); (PhCompensation, "release_funds");
        (PhCompensation, "dead_lettered")]). by rewrite map_app, Hh, <-app_assoc.
  - by rewrite Hd6.
  - destruct Hd3 as (c1&n1&e1&Hh1&Hle). exists c1, n1, e1. split; [done|]. lia.
  - by rewrite <-Hb.
Qed.

Lemma attempt_case_wp job t w r :
  no_faults → typed (db_of w) → 
  (∃ rec e, state rec = PROCESSING ∧ holds (idempotency_key (id (payment r))) (stringify rec) e (db_of w)) →
  wp (attempt (id (payment r)) (jd_correlationId (payment_data (data job))) (attemptsMade job) t)
    (λ res s', job_case job r w res s'.1 ∧
      (db_of s'.1 : gmap string (entry text)) !! lock_key (id (payment r)) =
      (db_of w : gmap string (entry text)) !! lock_key (id (payment r))) (w, r).
Proof.
  intros Hf Hd Hproc. unfold attempt. cbv zeta. set (c := jd_correlationId _).
  do 20 lazymatch goal with |- wp (catch _ _) _ _ => idtac | _ => job_step Hf end.
  rewrite wp_catch. unfold attempt_saga. rewrite wp_bind.
  match goal with |- wp _ _ (?w, ?r) => set (w1 := w); set (r1 := r) end.
  assert (Hst : started r w w1).
  { unfold w1. split; world_simpl; [typed_now|observe; by rewrite map_app|by observe|strings_back|done|done|lia]. }
  clearbody w1.
  eapply wp_mono; [|apply execute_full_wp; [apply Hst|done]].
  intros res [w2 r2] [Hcase Hrf]. cbn [fst snd] in *.
  destruct res as [[tx rid]|[error| | | | |]|]; [| |inversion Hcase..].
  - eapply wp_mono; [|by eapply saga_completed_wp]. intros res s' (Hj&[o ->]&Hl). by split.
  - destruct (saga_declined _ _ _ _ _ _ _ _ Hf Hst Hcase Hrf) as [made Hdec].
    unfold attempt_failed. cbn [toPaymentProcessingError]. 
    do 40 lazymatch goal with |- wp (if _ then _ else _) _ _ => idtac | _ => job_step Hf end.
    match goal with |- wp _ _ (?w', _) => set (w3 := w') end.
    assert (Hdec3 : declined job r w w3 r2 made error).
    { apply (declined_later _ _ _ _ _ _ _ _ Hdec); try done. cbn. lia. }
    destruct (retryable error) eqn:Hret; cbn [negb].
    + by apply (transient_wp _ _ _ _ _ made).
    + by apply wp_lift, (permanent_wp _ _ _ _ _ made).
Qed.

(** An attempt seen from before the lock was taken and after it was released. *)
Lemma job_case_unnoticed job r w w1 res w2 w3 :
  unnoticed w w1 → job_case job r w1 res w2 → unnoticed w2 w3 →
  (db_of w3 : gmap string (entry text)) !! idempotency_key (id (payment r)) =
    (db_of w2 : gmap string (entry text)) !! idempotency_key (id (payment r)) →
  job_case job r w res w3.
Proof.
  intros [_ [Hs1 Ha1 Hl1] Hc1 Hb1 Ht1] Hcase [Hd2 [Hs2 Ha2 Hl2] Hc2 Hb2 Ht2] Hk.
  assert (Heff : ∀ st es au r', job_effect job r w1 w2 st es au r' → job_effect job r w w3 st es au r').
  { intros st es au r' []. split; try done; congruence. }
  assert (Hfin : ∀ i, finalized_as (id (payment r)) i (rt_now (w_rt w1)) (db_of w2) →
    finalized_as (id (payment r)) i (rt_now (w_rt w)) (db_of w3)).
  { intros i (c&n&e&Hh&Hle). exists c, n, e. unfold holds in *. split; [by rewrite Hk|lia]. }
  destruct Hcase as [w2 r' tx h l t Hc He Hsg Htx Hfr Hl Hf Hb|w2 r' f l res Hc Ht He Hfr Hl Hf Hb
    |w2 r' made error Hc Hm Hr He Hl (rec&e&Hst&Hh) Hb].
  - apply (job_completed _ _ _ w3 r' tx h l t); try congruence; auto.
  - apply (job_dead_letter _ _ _ w3 r' f l); try congruence; auto. by rewrite Hb2, <-Hb1.
  - apply (job_retried _ _ _ w3 r' made); try congruence; auto.
    exists rec, e. unfold holds in *. by rewrite Hk.
Qed.

Lemma job_case_typed job r w res w' : job_case job r w res w' → typed (db_of w').
Proof. by destruct 1 as [? ? ? ? ? ? ? []|? ? ? ? ? ? ? []|? ? ? ? ? ? ? []]. Qed.

(** The payment [pid] is stored as [r], not final, and no worker has its lock. *)
Record ready (pid : string) (r : PaymentRecord) (d : db text) : Prop := {
  rd_typed : typed d;
  rd_stored : stored d pid = Some r;
  rd_id : id (payment r) = pid;
  rd_open t : is_final (idem_at t d pid) = false;
  rd_unlocked t : string_at t (lock_key pid) d = None
}.

Lemma processJob_case_wp job r w :
  let pid := jd_paymentId (payment_data (data job)) in
  no_faults → ready pid r (db_of w) →
  wp (processJob job) (λ res w', job_case job r w res w' ∧
    (db_of w' : gmap string (entry text)) !! lock_key pid = None) w.
Proof.
  intros pid Hf [Hd Hsto Hid Hfin Hlock]. unfold processJob. cbv zeta. fold pid.
  rewrite wp_bind. apply wp_date_now. intros rt1 Ht1. rewrite wp_bind.
  apply wp_store_get; [apply Hf|exact Hd|]. intros rt2 s2 Ht2 Hs2. world_simpl. rewrite Hsto, wp_bind.
  apply wp_idem_get; [apply Hf|by world_simpl; rewrite Hs2|]. intros rt3 s3 Ht3 Hs3. world_simpl.
  rewrite Hs2 in *. rewrite Hfin, wp_bind.
  apply wp_acquire; [done|by world_simpl; rewrite Hs3| |].
  2: { world_simpl. rewrite Hs3. intros rt s v _ Hv. by rewrite Hlock in Hv. }
  world_simpl. rewrite Hs3. intros rt4 rt5 s5 n5 rec Ht4 Ht5 _ Hrec Hd5 Hk5 Hl5 Hi5. cbn [negb].
  match goal with |- wp _ _ ?w' => set (w1 := w') end.
  assert (Hw1 : unnoticed w w1).
  { split; cbn; try done; [|lia]. unfold db_of. cbn.
    split; intros; unfold stored, audit_of, ledger_of, hash_at, list_at; by rewrite Hk5. }
  rewrite wp_finally. apply wp_with_record. rewrite <-Hid in *. eapply wp_mono; [|apply attempt_case_wp; eauto].
  intros res [w2 r2] [Hcase Hl2]. cbn [fst snd] in *.
  assert (Hd2 : typed (db_of w2)) by (by eapply job_case_typed).
  assert (Hrel : wp (releaseExecutionLock (id (payment r))) (λ o w3, o = Ok tt ∧ job_case job r w res w3 ∧
    (db_of w3 : gmap string (entry text)) !! lock_key (id (payment r)) = None) w2).
  { apply wp_release_lock; [apply Hf|done|]. intros rt s Hrt Hty Hk Hn. split; [done|]. split; [|done].
    apply (job_case_unnoticed _ _ _ _ _ _ _ Hw1 Hcase).
    - split; try done. unfold db_of. cbn. by eapply only_key_unseen, lock_key_kind.
    - apply Hk. apply idempotency_not_lock. }
  destruct res; [| |by inversion Hcase; subst; naive_solver];
    (eapply wp_mono; [|exact Hrel]); by intros o w3 (->&?&?).
Qed.

(** What a worker adds around the processor, a correlation id and a span, is
    not noticed. *)
Lemma worker_run_case_wp job r w :
  let pid := jd_paymentId (payment_data (data job)) in
  no_faults → ready pid r (db_of w) →
  wp (worker_run job) (λ res w', job_case job r w res w' ∧
    (db_of w' : gmap string (entry text)) !! lock_key pid = None) w.
Proof.
  intros pid Hf Hr. unfold worker_run, worker_process, correlation_enter, wp. cbv zeta.
  set (w0 := set_w_corr _ w).
  assert (Hwp : wp (process job) (λ res w', job_case job r w res w' ∧
    (db_of w' : gmap string (entry text)) !! lock_key pid = None) w0); [|unfold wp in Hwp].
  { unfold process. cbv zeta. rewrite wp_withSpan. eapply wp_mono; [|by apply processJob_case_wp].
    intros res w' [Hcase Hl]. pose proof (job_case_typed _ _ _ _ _ Hcase) as Hty.
    assert (Hw0 : unnoticed w w0) by (split; done || apply Hr).
    destruct res as [res|e|]; (split; [|done]);
      apply (job_case_unnoticed _ _ _ _ _ _ _ Hw0 Hcase); try done; by split. }
  destruct (process job w0) as [res w']. destruct Hwp as [Hcase Hl]. split; [|exact Hl].
  apply (job_case_unnoticed _ _ w w res w' _); [by split; [apply Hr|..]|done| |done].
  split; try done. apply (job_case_typed _ _ _ _ _ Hcase).
Qed.

(** A job that is to be retried finds its payment ready again. *)
Lemma retried_ready job r w e w' :
  let pid := jd_paymentId (payment_data (data job)) in
  ready pid r (db_of w) → job_case job r w (Throw (EProcessing e)) w' →
  (db_of w' : gmap string (entry text)) !! lock_key pid = None →
  ∃ r', ready pid r' (db_of w') ∧ payment r' = json_payment (payment r) ∧ status r' = Processing.
Proof.
  intros pid Hr Hcase Hl. pose proof (rd_id _ _ _ Hr) as Hid.
  inversion Hcase as [|w1 r1 f l res _ _ _ _ _ _ Hres|w1 r' made error _ _ _ He _ (rec&x&Hst&Hh) _]; subst.
  { by destruct Hres as [(?&?&_)|(?&?)]. }
  exists r'. split; [|by destruct He]. rewrite Hid in *. destruct He as [Hty Hsto Hi _ _ _ _ _]. rewrite Hid in *.
  split; [done|done|by rewrite Hi| |].
  - intros t. unfold idem_at. rewrite (holds_string_at _ _ _ _ _ Hh). case_match; [done|].
    rewrite parse_or_null_stringify. cbn. by rewrite Hst.
  - intros t. by apply absent_string_at.
Qed.

(** Whatever is lost, no entry of the audit log or of the ledger is. *)
#[global] Instance processJob_append job : Respects append_only (processJob job).
Proof. frame. Qed.
#[global] Instance handleJobFailure_append d err : Respects append_only (handleJobFailure d err).
Proof. frame. Qed.

(** *** Jobs that are skipped *)
#[global] Instance attempt_elapses pid c n t : Respects (on_fst elapses) (attempt pid c n t).
Proof. frame. Qed.

Lemma too_late {A} (m : M exn world A) (Q : outcome exn A → world → Prop) e w :
  Respects elapses m → e ≤ rt_now (w_rt w) → wp m (λ o w', rt_now (w_rt w') < e → Q o w') w.
Proof. intros Hm He. eapply wp_mono; [|by apply (respects_wp elapses)]. unfold elapses. intros o w' ?. lia. Qed.

(** Why a job may not run: its payment is final, or a worker has the lock. *)
Definition excluded (pid : string) (e : Z) (d : db text) : Prop :=
  (∃ rec, state rec ≠ PROCESSING ∧ holds (idempotency_key pid) (stringify rec) e d) ∨
  (∃ v, holds (lock_key pid) v e d).

Lemma processJob_skip_wp job r e w :
  let pid := jd_paymentId (payment_data (data job)) in
  no_faults → typed (db_of w) → stored (db_of w) pid = Some r → excluded pid e (db_of w) →
  wp (processJob job) (λ res w', rt_now (w_rt w') < e → (∃ why, res = Ok (PSkipped pid why)) ∧
    db_of w' = db_of w ∧ w_calls w' = w_calls w ∧ w_bull w' = w_bull w) w.
Proof.
  intros pid Hf Hd Hsto Hex. unfold processJob. cbv zeta. fold pid.
  rewrite wp_bind. apply wp_date_now. intros rt1 Ht1. rewrite wp_bind.
  apply wp_store_get; [apply Hf|exact Hd|]. intros rt2 s2 Ht2 Hs2. world_simpl. rewrite Hsto, wp_bind.
  apply wp_idem_get; [apply Hf|by world_simpl; rewrite Hs2|]. intros rt3 s3 Ht3 Hs3. world_simpl.
  rewrite Hs2 in *.
  destruct (is_final (idem_at (rt_now rt3) (view (w_redis w)) pid)) eqn:Hfin.
  { rewrite wp_ret. intros _. split; [by eexists|done]. }
  set (rest := acquireExecutionLock pid ≫= _).
  destruct (decide (e ≤ rt_now rt3)) as [Hle|Hlt].
  { apply too_late; [|done]. unfold rest. frame. }
  unfold rest. rewrite wp_bind. destruct Hex as [(rec&Hst&Hh)|(v&Hh)].
  { exfalso. revert Hfin. unfold idem_at. rewrite (holds_string_at _ _ _ _ _ Hh).
    replace (e <=? rt_now rt3) with false by lia. rewrite parse_or_null_stringify. cbn. by destruct (state rec). }
  apply wp_acquire; [done|by world_simpl; rewrite Hs3| |].
  - world_simpl. rewrite Hs3. intros rt4 rt5 s5 n5 rec Ht4 Ht5 Hno _ _ _ _ _.
    rewrite (holds_string_at _ _ _ _ _ Hh) in Hno. cbn [negb].
    apply too_late; [frame|cbn; case_match; [lia|done]].
  - world_simpl. rewrite Hs3. intros rt s v' _ _ Hs. cbn [negb]. rewrite wp_ret. intros _.
    split; [by eexists|]. world_simpl. by rewrite Hs.
Qed.

(** *** The failure handler *)
Lemma wp_handleJobFailure d err (Q : outcome exn unit → world → Prop) w :
  let pid := jd_paymentId d in
  let reason := "retries exhausted: " +:+ error_message err in
  no_faults → typed (db_of w) → (∀ r, stored (db_of w) pid = Some r → id (payment r) = pid) →
  match stored (db_of w) pid with
  | Some r =>
      if is_terminal (status r) then
        ∀ w', db_of w' = db_of w → w_calls w' = w_calls w → w_bull w' = w_bull w → Q (Ok tt) w'
      else
        ∀ o w' since, rt_now (w_rt w) ≤ rt_now (w_rt since) → db_of since = db_of w →
          w_calls since = w_calls w → dead_lettered pid reason r since w' →
          (∃ t, o = Ok tt ∧ dlq_routed {| dlq_paymentId := pid; dlq_correlationId := jd_correlationId d;
             dlq_reason := reason; deadLetteredAt := t |} (w_bull w) (w_bull w')) ∨
          (∃ m, o = Throw (EError m)) → Q o w'
  | None => ∀ w', db_of w' = db_of w → w_calls w' = w_calls w → w_bull w' = w_bull w → Q (Ok tt) w'
  end → wp (handleJobFailure d err) Q w.
Proof.
  intros pid reason Hf Hd Hid HQ. unfold handleJobFailure. rewrite wp_bind.
  apply wp_store_get; [apply Hf|exact Hd|]. intros rt s Hrt Hs. fold pid.
  set (w1 := after_cmd rt s w). assert (Hw1 : db_of w1 = db_of w) by done.
  destruct (stored (db_of w) pid) as [r|] eqn:Hr.
  2: { unfold trace_log, correlation_current. rewrite wp_bind, wp_gets, wp_modify. by apply HQ. }
  rewrite orb_comm. change (bool_decide (status r = DeadLetter) || _) with (is_terminal (status r)).
  specialize (Hid r eq_refl). destruct (is_terminal (status r)) eqn:Hterm; [rewrite wp_ret; by apply HQ|].
  rewrite wp_bind. apply wp_finalizeDeadLetter; [done|by rewrite Hw1|..]; rewrite Hid, Hw1, Hr;
    change (default r (Some r)) with r; [done|by rewrite Hterm|].
  intros _ o w2 Hdl Ho. destruct Ho as [(t&->&Hdlq)|[m ->]]; cbv iota beta; rewrite ?wp_ret;
    apply (HQ _ _ w1); eauto.
Qed.
End Calm.

(** ** Properties *)
Section Properties.
Context `{PlatformLaws}.

(** Every log of [w] is the beginning of the same log of [w']. *)
Definition logs_grow (w w' : world) : Prop :=
  typed (db_of w') ∧ ledger_of (db_of w) `prefix_of` ledger_of (db_of w') ∧
  ∀ pid, audit_of (db_of w) pid `prefix_of` audit_of (db_of w') pid.

(** C1: whatever Redis commands are lost, a job always ends and asks the gateway
    for at most one charge, of the payment stored under its id, on the gateway of
    that payment; a refund is asked for at most once, and only of the transaction
    that charge returned; a job reports the payment as completed only after a
    successful charge that was not refunded, with its transaction id; without a
    stored payment it throws and the gateway is not called. *)
Theorem processJob_charges_at_most_once (job : Job num) (w : world) :
  typed (db_of w) →
  let pid := jd_paymentId (payment_data (data job)) in
  ∃ res w' made, processJob job w = (res, w') ∧ res ≠ Diverged ∧ w_calls w' = w_calls w ++ made ∧
    match stored (db_of w) pid with
    | Some r => job_trace pid (payment r) made res
    | None => made = [] ∧ ∃ e, res = Throw e
    end.
Proof.
  intros Hd pid. destruct (wp_run _ _ _ (processJob_wp job w Hd)) as (res&w'&He&Hdv&made&Hc&Ht).
  by exists res, w', made.
Qed.

(** C2: when Redis answers, a job on a payment that is neither final nor locked
    ends in one of three ways.  Either the payment is charged once, settled once
    in the ledger, stored as completed with its transaction id, recorded as
    COMPLETED in its idempotency record, with the audit trail of all steps; or the
    gateway refused it for good (HTTP 400, 401, 402): it is stored as
    dead-lettered with the reason, recorded as FAILED, nothing is settled, and an
    entry is added to the dead letter queue (or adding it failed); or the failure
    is transient: the attempt is kept in the history, nothing is settled, the
    idempotency record stays PROCESSING and the failure is thrown so that the job
    is retried.  In all three the execution lock is free again. *)
Theorem processJob_cases (job : Job num) (r : PaymentRecord) (w : world) :
  no_faults → ready (jd_paymentId (payment_data (data job))) r (db_of w) →
  ∃ res w', processJob job w = (res, w') ∧ job_case job r w res w' ∧
    (db_of w' : gmap string (entry text)) !! lock_key (jd_paymentId (payment_data (data job))) = None.
Proof. intros Hf Hr. exact (wp_run _ _ _ (processJob_case_wp job r w Hf Hr)). Qed.

(** A job does nothing when its payment is final or another worker has the
    lock: if it completes before the idempotency record or the lock expires, it
    is skipped, no gateway is called and no store or queue is changed. *)
Theorem processJob_excluded (job : Job num) (r : PaymentRecord) (e : Z) (w : world) :
  let pid := jd_paymentId (payment_data (data job)) in
  no_faults → typed (db_of w) → stored (db_of w) pid = Some r → excluded pid e (db_of w) →
  ∃ res w', processJob job w = (res, w') ∧
    (rt_now (w_rt w') < e → (∃ why, res = Ok (PSkipped pid why)) ∧
      db_of w' = db_of w ∧ w_calls w' = w_calls w ∧ w_bull w' = w_bull w).
Proof. intros pid Hf Hd Hs Hex. exact (wp_run _ _ _ (processJob_skip_wp job r e w Hf Hd Hs Hex)). Qed.

(** C9: redelivery is harmless.  After a job that did not end with a retryable
    failure, every job of the same payment that completes within
    [retentionSeconds] is skipped: the customer is not charged again and nothing
    is written.  That includes the job whose entry could not be added to the dead
    letter queue: its payment is final, the redelivered job is skipped, and the
    entry is never added. *)
Theorem processJob_redelivered (job job' : Job num) (r r' : PaymentRecord)
    (res : outcome exn ProcessResult) (w w1 w2 : world) :
  let pid := jd_paymentId (payment_data (data job)) in
  no_faults → ready pid r (db_of w) → processJob job w = (res, w1) →
  (∀ e, res ≠ Throw (EProcessing e)) →
  jd_paymentId (payment_data (data job')) = pid → typed (db_of w2) → stored (db_of w2) pid = Some r' →
  (db_of w2 : gmap string (entry text)) !! idempotency_key pid =
    (db_of w1 : gmap string (entry text)) !! idempotency_key pid →
  ∃ res' w3, processJob job' w2 = (res', w3) ∧
    (rt_now (w_rt w3) < rt_now (w_rt w) + 1000 * retentionSeconds (idempotency config) →
      (∃ why, res' = Ok (PSkipped pid why)) ∧
      db_of w3 = db_of w2 ∧ w_calls w3 = w_calls w2 ∧ w_bull w3 = w_bull w2).
Proof.
  intros pid Hf Hr Hrun Hno Hpid Hd2 Hs2 Hk.
  pose proof (processJob_case_wp job r w Hf Hr) as Hwp. unfold wp in Hwp. rewrite Hrun in Hwp.
  destruct Hwp as [Hcase _]. cbn [fst snd] in Hcase. pose proof (rd_id _ _ _ Hr) as Hid.
  assert (Hfin : ∃ i, fi_state i ≠ PROCESSING ∧ finalized_as pid i (rt_now (w_rt w)) (db_of w1)).
  { destruct Hcase as [w1 r1 tx h l t _ _ _ _ _ _ Hi _|w1 r1 f l res _ _ _ _ _ Hi _|w1 r1 made err];
      [| |by destruct (Hno err)]; rewrite Hid in Hi; eexists; split; [|exact Hi| |exact Hi]; done. }
  destruct Hfin as (i&Hi&c&n&e&Hh&Hle).
  assert (Hex : excluded pid e (db_of w2)).
  { left. eexists. split; [|unfold holds; rewrite Hk; exact Hh]. exact Hi. }
  rewrite <-Hpid in Hs2, Hex. pose proof (processJob_skip_wp job' r' e w2 Hf Hd2 Hs2 Hex) as Hskip.
  unfold wp in Hskip. destruct (processJob job' w2) as [res' w3]. exists res', w3. split; [done|].
  intros Hlt. rewrite <-Hpid. apply Hskip. cbn [snd]. lia.
Qed.

(** Once the retries of a payment are exhausted, the failure handler
    dead-letters it if it is not final yet: it is stored as dead-lettered with the
    last error, its idempotency record says FAILED, and an entry is added to the
    dead letter queue unless adding it fails; a final or unknown payment is left
    alone.  Neither gateway nor ledger is touched. *)
Theorem handleJobFailure_dead_letters (d : PaymentJobData) (err : exn) (w : world) :
  let pid := jd_paymentId d in
  let reason := "retries exhausted: " +:+ error_message err in
  no_faults → typed (db_of w) → (∀ r, stored (db_of w) pid = Some r → id (payment r) = pid) →
  ∃ res w', handleJobFailure d err w = (res, w') ∧ w_calls w' = w_calls w ∧
    ledger_of (db_of w') = ledger_of (db_of w) ∧
    match stored (db_of w) pid with
    | Some r =>
        if is_terminal (status r) then res = Ok tt ∧ db_of w' = db_of w ∧ w_bull w' = w_bull w
        else
          (∃ t, stored (db_of w') pid = Some (json_norm (transitionToDeadLetter r reason t))) ∧
          finalized_as pid (failed_input reason) (rt_now (w_rt w)) (db_of w') ∧
          ((∃ t, res = Ok tt ∧ dlq_routed {| dlq_paymentId := pid;
              dlq_correlationId := jd_correlationId d; dlq_reason := reason; deadLetteredAt := t |}
              (w_bull w) (w_bull w')) ∨
           (∃ m, res = Throw (EError m)))
    | None => res = Ok tt ∧ db_of w' = db_of w ∧ w_bull w' = w_bull w
    end.
Proof.
  intros pid reason Hf Hd Hid. apply wp_run, wp_handleJobFailure; [done..|]. fold pid reason.
  destruct (stored (db_of w) pid) as [r|]; [|intros w' -> -> ->; done].
  destruct (is_terminal (status r)); [intros w' -> -> ->; done|].
  intros o w' since Ht Hdb Hc [Hd1 Hd2 (c&n&e&Hh&Hle) Hd4 Hd5 Hd6 Hd7] Ho.
  split; [by rewrite Hd7|]. split; [by rewrite Hd6, Hdb|]. split; [done|]. split; [|done].
  exists c, n, e. split; [done|]. lia.
Qed.

(** The audit log and the settlement ledger are append-only: whatever Redis
    commands are lost, neither processing a job nor handling its failure removes
    or changes an entry of either, for any payment, and every key of the key
    space keeps the type of value its users expect. *)
Theorem logs_append_only (job : Job num) (d : PaymentJobData) (err : exn) (w : world) :
  typed (db_of w) →
  logs_grow w (processJob job w).2 ∧ logs_grow w (handleJobFailure d err w).2.
Proof.
  intros Hd. assert (Hg : ∀ w', append_only w w' → logs_grow w w').
  { intros w' Hw'. destruct (Hw' Hd) as [Hd' Hl]. split; [done|].
    split; [|intros pid]; apply parsed_prefix, Hl; [done|apply audit_key_kind]. }
  split; apply Hg; [apply processJob_append|apply handleJobFailure_append].
Qed.
End Properties.

(** ** The properties on the concrete platform *)

(** A process with a queued payment, on a platform with the given fates. *)
Definition queued (fates : nat → fault_kind) (gs : gateways binary64) : @world (sim fates) :=
  (@store_save (sim fates) (demo_record "p1") (start fates gs)).2.

Definition demo_job (attempts : Z) : Job binary64 :=
  {| job_name := QUEUE_JOB_NAME; job_id := "p1"; data := enqueue_data demo_enqueue;
     opts := @enqueue_opts calm demo_enqueue; attemptsMade := attempts |}.

(** The gateway calls of a run: charges and refunds by their transaction id. *)
Definition calls_of {N} (cs : list (gateway_call N)) : list (bool * option string) :=
  map (λ c, match c with
    | CallCharge _ _ (Some (ChargeOk tx _ _)) => (true, Some tx)
    | CallCharge _ _ _ => (true, None)
    | CallRefund _ tx _ => (false, Some tx)
    end) cs.

(** Command 10 is the write of the record after the charge. *)
Definition lost_save (i : nat) : fault_kind :=
  if bool_decide (i = 10%nat) then LostCommand "Connection is closed." else NoFault.

(** A payment can be charged twice.  When Redis drops the write of the record
    that follows the charge, the error is taken for a transient one although the
    charge was made: the attempt throws, no refund is asked for, and the retry
    charges the customer a second time and completes with the second
    transaction. *)
Theorem processJob_can_charge_twice :
  let first := @processJob (sim lost_save) (demo_job 0) (queued lost_save (stripe_plays [])) in
  let second := @processJob (sim lost_save) (demo_job 1) first.2 in
  (match first.1 with Throw (EProcessing e) => retryable e | _ => false end) = true ∧
  (∃ tx tx', second.1 = Ok (PCompleted "p1" (Some tx')) ∧ tx ≠ tx' ∧
    calls_of (w_calls second.2) = [(true, Some tx); (true, Some tx')]).
Proof.
  intros first second. split; [vm_compute; reflexivity|].
  exists "stripe_txn_loyw3v37_1", "stripe_txn_loyw3v4c_2".
  split; [vm_compute; reflexivity|]. split; [discriminate|vm_compute; reflexivity].
Qed.

#[local] Existing Instance calm.

Definition calm_queued (statuses : list Z) : @world calm := queued (λ _, NoFault) (stripe_plays statuses).

Lemma queued_typed statuses : typed (calm_db (calm_queued statuses)).
Proof. apply typed_after; [frame|apply boot_typed]. Qed.

Lemma queued_stored statuses : stored (calm_db (calm_queued statuses)) "p1" = Some (demo_record "p1").
Proof. reflexivity. Qed.

Lemma queued_ready statuses : ready "p1" (demo_record "p1") (calm_db (calm_queued statuses)).
Proof.
  split; [apply queued_typed|apply queued_stored|done|intros t..].
  - unfold idem_at. by rewrite absent_string_at.
  - by rewrite absent_string_at.
Qed.

Lemma processJob_charges_at_most_once_witness :
  ∃ res w' made, processJob (demo_job 0) (calm_queued []) = (res, w') ∧ w_calls w' = made ∧
    job_trace "p1" (demo_payment "p1") made res.
Proof.
  destruct (@processJob_charges_at_most_once calm calm_laws (demo_job 0) (calm_queued []) (queued_typed []))
    as (res&w'&made&He&_&Hc&Hm).
  exists res, w', made. split; [exact He|]. split; [exact Hc|exact Hm].
Defined.

(** The gateway declines with HTTP 402. *)
Lemma processJob_cases_witness :
  ∃ res w', processJob (demo_job 0) (calm_queued [402]) = (res, w') ∧
    job_case (demo_job 0) (demo_record "p1") (calm_queued [402]) res w' ∧
    match res with Ok (PDeadLetter pid _) => pid = "p1" | _ => False end.
Proof.
  destruct (@processJob_cases calm calm_laws (demo_job 0) (demo_record "p1") (calm_queued [402])
    calm_no_faults (queued_ready [402])) as (res&w'&He&Hc&_).
  exists res, w'. split; [exact He|]. split; [exact Hc|].
  assert (Hr : match (processJob (demo_job 0) (calm_queued [402])).1 with
               | Ok (PDeadLetter pid _) => pid = "p1" | _ => False end) by (vm_compute; reflexivity).
  rewrite He in Hr. exact Hr.
Defined.

(** A second worker meets the lock of the first. *)
Definition calm_locked : @world calm := (acquireExecutionLock "p1" (calm_queued [])).2.

Lemma calm_locked_typed : typed (calm_db calm_locked).
Proof. apply typed_after; [frame|apply queued_typed]. Qed.

Lemma processJob_excluded_witness :
  ∃ why w', processJob (demo_job 0) calm_locked = (Ok (PSkipped "p1" why), w') ∧ w_calls w' = [].
Proof.
  set (e := rt_now (w_rt calm_locked) + 1000).
  assert (Hex : ∃ e, rt_now (w_rt (processJob (demo_job 0) calm_locked).2) < e ∧
    holds (lock_key "p1") (literal "1") e (calm_db calm_locked)).
  { eexists. split; [|reflexivity]. vm_compute. reflexivity. }
  destruct Hex as (e'&Hlt&Hh).
  destruct (@processJob_excluded calm calm_laws (demo_job 0) (demo_record "p1") e' calm_locked calm_no_faults
    calm_locked_typed eq_refl (or_intror (ex_intro _ (literal "1") Hh))) as (res&w'&He&Hs).
  rewrite He in Hlt. destruct (Hs Hlt) as ((why&->)&_&Hc&_). exists why, w'. split; [exact He|].
  rewrite Hc. reflexivity.
Defined.

Definition calm_completed : @world calm := (processJob (demo_job 0) (calm_queued [])).2.

Lemma calm_completed_typed : typed (calm_db calm_completed).
Proof. apply typed_after; [apply _|apply queued_typed]. Qed.

(** A payment that was completed is delivered again. *)
Lemma processJob_redelivered_witness :
  ∃ why w3, processJob (demo_job 1) calm_completed = (Ok (PSkipped "p1" why), w3) ∧
    w_calls w3 = w_calls calm_completed.
Proof.
  set (res := (@processJob calm (demo_job 0) (calm_queued [])).1).
  assert (Hrun : @processJob calm (demo_job 0) (calm_queued []) = (res, calm_completed)) by exact (run_pair _ _ _ eq_refl).
  assert (Hno : ∀ e, res ≠ Throw (EProcessing e)) by (intros e; vm_compute; discriminate).
  assert (Hst : ∃ r', stored (calm_db calm_completed) "p1" = Some r')
    by (eexists; vm_compute; reflexivity).
  destruct Hst as [r' Hr'].
  assert (Ht : rt_now (w_rt (@processJob calm (demo_job 1) calm_completed).2) <
    rt_now (w_rt (calm_queued [])) + 1000 * retentionSeconds (idempotency config)) by (vm_compute; reflexivity).
  destruct (@processJob_redelivered calm calm_laws (demo_job 0) (demo_job 1) (demo_record "p1") r' res
    (calm_queued []) calm_completed calm_completed calm_no_faults (queued_ready []) Hrun Hno eq_refl
    calm_completed_typed Hr' eq_refl) as (res'&w3&He&Hs).
  rewrite He in Ht. destruct (Hs Ht) as ((why&->)&_&Hc&_). exists why, w3. split; [exact He|exact Hc].
Defined.

Lemma handleJobFailure_dead_letters_witness :
  ∃ res w' t, handleJobFailure (payment_data (data (demo_job 4))) (EError "gone") (calm_queued []) = (res, w') ∧
    stored (calm_db w') "p1" =
      Some (json_norm (transitionToDeadLetter (demo_record "p1") "retries exhausted: gone" t)).
Proof.
  destruct (@handleJobFailure_dead_letters calm calm_laws (payment_data (data (demo_job 4))) (EError "gone")
    (calm_queued []) calm_no_faults (queued_typed [])) as (res&w'&He&_&_&(t&Ht)&_).
  - intros r Hr. pose proof (eq_trans (eq_sym Hr) (queued_stored [])) as [= ->]. reflexivity.
  - exists res, w', t. split; [exact He|exact Ht].
Defined.

Lemma logs_append_only_witness : typed (calm_db (@processJob calm (demo_job 0) (calm_queued [])).2).
Proof.
  exact (proj1 (proj1 (@logs_append_only calm calm_laws (demo_job 0) (payment_data (data (demo_job 0)))
    (EError "gone") (calm_queued []) (queued_typed [])))).
Defined.
