(* ===== verification/Service.v ===== *)
(** * Payment service and HTTP controllers
      ([src/src/payments/payment.service.ts], [payments.controller.ts],
      [src/src/common/correlation.middleware.ts])

    Validation of request bodies, submission behind the idempotency lease,
    status and dead letter queries, the responses of the controllers and the
    correlation id of a request. *)

From S2P Require Import Prelude Num JsValue Errors Payment TokenBucket CircuitBreaker EventBus.
From S2P Require Import Json Redis Gateway Config Bull World Registries Stores Sim Idempotency.
From S2P Require Import QueueManager.

(** [id] is optional in the source's type; every caller passes a validated
    input, which has one. *)
Record CreatePaymentInput := {
  ci_id : string;
  ci_amount : Z;
  ci_currency : string;
  ci_customerId : string;
  ci_gatewayId : string;
  ci_priority : option PaymentPriority;
  ci_maxRetries : option Z;
  ci_metadata : option (list (string * jsval));
  ci_scheduledAt : option Z;
  ci_delayMs : option Z;
  ci_correlationId : option string
}.

Inductive SubmitPaymentResult := SubCreated (p : PaymentRecord) | SubReplayed (p : PaymentRecord).

Definition MAX_DELAY_MS : Z := 2147483000.

(** ** Validation *)

(** [isPlainObject(v)], with the properties of the object. *)
Definition plain_object (v : jsval) : option (list (string * jsval)) :=
  match v with
  | JObject o => Some o
  | JDate _ => Some []                  (* an object without own properties *)
  | _ => None
  end.

Definition js_string (v : jsval) : option string := match v with JString s => Some s | _ => None end.

(** [typeof v === 'number' && Number.isInteger(v)] *)
Definition js_integer (v : jsval) : option Z := match v with JNumber x => b64_integer x | _ => None end.

(** [/^[A-Z]{3}$/.test(s)] *)
Definition upper (c : Ascii.ascii) : bool := (65 <=? code_unit c) && (code_unit c <=? 90).
Definition currency_code (s : string) : bool := (String.length s =? 3)%nat && string_forall upper s.

Definition parse_priority (s : string) : option PaymentPriority :=
  list_find (λ p, priority_string p = s) PAYMENT_PRIORITIES ≫= λ ip, Some ip.2.

Definition is_undefined (v : jsval) : bool := match v with JUndefined => true | _ => false end.

(** [if (cond) throw new BadRequestException(message)] *)
Definition refuse_if {S} (cond : bool) (message : string) : M exn S unit :=
  if cond then throw (EBadRequest message) else mret tt.

(** The value a check extracts, or a 400. *)
Definition require {S A} (v : option A) (message : string) : M exn S A :=
  match v with Some a => mret a | None => throw (EBadRequest message) end.

Section Validate.
Context `{Platform}.
(** [Date.parse]: outside the ISO format it is up to the JavaScript engine. *)
Variable date_parse : string → option Z.

(** [new Date(v).getTime()] of a string or a [Date]; [None] is NaN. *)
Definition date_value (v : jsval) : option Z :=
  match v with JString s => date_parse s | JDate t => t | _ => None end.

Definition guarded {A} (p : A → bool) (v : option A) : option A :=
  a ← v; if p a then Some a else None.

Definition non_empty (s : string) : bool := (0 <? String.length s)%nat.
Definition identifier (s : string) : bool := non_empty s && (String.length s <=? 100)%nat.

Definition validate_schedule (v : jsval) : M exn world (option Z) :=
  if is_undefined v then mret None
  else
    at' ← require (date_value v) "scheduledAt must be a valid ISO-8601 date string";
    now ← date_now;
    refuse_if (MAX_DELAY_MS <? at' - now) "scheduledAt is too far in the future";;
    mret (Some at').

Definition is_date (v : jsval) : bool := match v with JString _ | JDate _ => true | _ => false end.

Definition validateCreatePaymentInput (raw : jsval) : M exn world CreatePaymentInput :=
  body ← require (plain_object raw) "body must be a JSON object";
  id ← require (guarded identifier (js_string (js_get body "id")))
    "id must be a non-empty string (<= 100 chars)";
  amount ← require (guarded (λ a, 0 <? a) (js_integer (js_get body "amount")))
    "amount must be a positive integer (minor currency unit)";
  currency ← require (guarded currency_code (js_string (js_get body "currency")))
    "currency must be a 3-letter ISO code";
  customerId ← require (guarded non_empty (js_string (js_get body "customerId")))
    "customerId must be a non-empty string";
  gatewayId ← require (guarded identifier (js_string (js_get body "gatewayId")))
    "gatewayId must be a non-empty string (<= 100 chars)";
  priority ← require (js_string (js_nullish (js_get body "priority") (JString "normal")) ≫= parse_priority)
    "priority must be one of high, normal, low";
  maxRetries ← require (guarded (λ n, (0 <=? n) && (n <=? 10))
      (js_integer (js_nullish (js_get body "maxRetries") (JNumber (nof DEFAULT_MAX_RETRIES)))))
    "maxRetries must be an integer between 0 and 10";
  metadata ← (if is_undefined (js_get body "metadata") then mret []
              else require (plain_object (js_get body "metadata")) "metadata must be an object");
  let scheduledAt := js_get body "scheduledAt" in
  let delayMs := js_get body "delayMs" in
  refuse_if (negb (is_undefined scheduledAt) && negb (is_date scheduledAt))
    "scheduledAt must be an ISO-8601 date string";;
  delay ← (if is_undefined delayMs then mret None
           else d ← require (guarded (λ d, 0 <=? d) (js_integer delayMs))
                  "delayMs must be a non-negative integer"; mret (Some d));
  refuse_if (negb (is_undefined scheduledAt) && negb (is_undefined delayMs))
    "provide either scheduledAt or delayMs, not both";;
  scheduled ← validate_schedule scheduledAt;
  refuse_if (match delay with Some d => MAX_DELAY_MS <? d | None => false end) "delayMs is too large";;
  mret {| ci_id := id; ci_amount := amount; ci_currency := currency; ci_customerId := customerId;
          ci_gatewayId := gatewayId; ci_priority := Some priority; ci_maxRetries := Some maxRetries;
          ci_metadata := Some metadata; ci_scheduledAt := scheduled; ci_delayMs := delay;
          ci_correlationId := None |}.
End Validate.

(** ** The payment service *)
Section Service.
Context `{Platform}.

(** A PROCESSING record without a stored payment: the previous submission
    crashed before it enqueued; release the lease and claim once more. *)
Definition claim_recovering (paymentId : string) : M exn world ClaimResult :=
  first ← claim paymentId;
  match first with
  | ClaimConflict _ =>
      existing ← store_get paymentId;
      match existing with
      | None => release paymentId;; claim paymentId
      | Some _ => mret first
      end
  | _ => mret first
  end.

(** The argument of [createPaymentRecord] for an input and its correlation id. *)
Definition record_input (input : CreatePaymentInput) (correlationId : option string) : RecordInput :=
  {| in_id := ci_id input; in_amount := ci_amount input; in_currency := ci_currency input;
     in_customerId := ci_customerId input; in_gatewayId := ci_gatewayId input;
     in_priority := default Normal (ci_priority input); in_maxRetries := ci_maxRetries input;
     in_metadata := Some (default [] (ci_metadata input)); in_scheduledAt := ci_scheduledAt input;
     in_correlationId := correlationId; in_createdAt := None |}.

(** The [delayMs] of the job. *)
Definition submit_delay (input : CreatePaymentInput) : M exn world Z :=
  match ci_scheduledAt input with
  | Some at' => now ← date_now; mret (Z.max 0 (at' - now))
  | None => mret (default 0 (ci_delayMs input))
  end.

Definition submit_job (record : PaymentRecord) (delayMs : Z) : EnqueuePaymentJobInput :=
  {| eq_gatewayId := gatewayId (payment record); eq_paymentId := id (payment record);
     eq_correlationId := correlationId record; eq_priority := priority (payment record);
     eq_maxRetries := maxRetries (payment record); eq_delayMs := Some delayMs;
     eq_jobId := id (payment record) |}.

(** When the job cannot be queued the claim is dropped. *)
Definition submit_enqueue (record : PaymentRecord) (delayMs : Z) : M exn world unit :=
  catch
    (withSpan SPAN_ENQUEUE
       [("paymentId", Some (id (payment record))); ("gatewayId", Some (gatewayId (payment record)));
        ("correlationId", Some (default "" (correlationId record)))]
       (enqueue (submit_job record delayMs)))
    (λ err, release (id (payment record));;
            throw (EBadRequest ("payment could not be queued: " +:+ error_message err))).

(** The submission of a payment whose lease was granted. *)
Definition submit_new (input : CreatePaymentInput) (correlation : option string)
    : M exn world SubmitPaymentResult :=
  clock ← date_now;
  let record := createPaymentRecord (record_input input correlation) clock in
  let paymentId := ci_id input in
  audit_record paymentId A_payment_submitted None None;;
  store_save record;;
  at' ← date_now;
  emit_event (EvPayment Ev_queued paymentId (Some (gatewayId (payment record)))
    (correlationId record) (Some Queued) at' None);;
  delayMs ← submit_delay input;
  submit_enqueue record delayMs;;
  mret (SubCreated record).

Definition submit (input : CreatePaymentInput) : M exn world SubmitPaymentResult :=
  let paymentId := ci_id input in
  ambient ← correlation_current;
  let correlation := match ci_correlationId input with Some c => Some c | None => ambient end in
  claimed ← claim_recovering paymentId;
  match claimed with
  | ClaimReplayed _ =>
      existing ← store_get paymentId;
      match existing with
      | Some record => mret (SubReplayed record)
      | None => throw (ENotFound
          "payment already finalized but its record is missing (data inconsistency)" paymentId)
      end
  | ClaimConflict _ =>
      existing ← store_get paymentId;
      throw (EConflict "payment is already being processed" paymentId
        match existing with Some record => PAYMENT_STATUSES (status record) | None => "processing" end)
  | ClaimNew => submit_new input correlation
  end.

Definition service_getStatus (paymentId : string) : M exn world PaymentRecord :=
  record ← store_get paymentId;
  match record with
  | Some record => mret record
  | None => throw (ENotFound "payment not found" paymentId)
  end.

(** An element of the list [listDeadLetters] returns. *)
Record DeadLetter := {
  dead_paymentId : string;
  dead_reason : string;
  dead_at : Z;
  dead_payment : option PaymentRecord
}.

Definition dead_letter (entry : DlqEntry) (payment : option PaymentRecord) : DeadLetter :=
  {| dead_paymentId := dlq_paymentId entry; dead_reason := dlq_reason entry;
     dead_at := deadLetteredAt entry; dead_payment := payment |}.

Definition listDeadLetters : M exn world (list DeadLetter) :=
  entries ← listDlq;
  payments ← promise_all (map (λ entry, store_get (dlq_paymentId entry)) entries);
  mret (zip_with dead_letter entries payments).
End Service.

(** ** The controllers ([src/src/payments/payments.controller.ts],
       [src/src/payments/dto/payment-response.dto.ts])

    A response is its status code and its body; a thrown exception is answered by
    the framework with the status of its class. *)
Record HttpReply (A : Type) := { http_status : Z; http_body : A }.
Arguments http_status {A} _.
Arguments http_body {A} _.

Definition reply {A} (status : Z) (body : A) : HttpReply A := {| http_status := status; http_body := body |}.

Record PaymentQueuedResponseDto := { qr_id : string; qr_status : string }.
Record PaymentScheduledResponseDto := { sr_id : string; sr_status : PaymentStatus; scheduledFor : Z }.
Record PaymentReplayedResponseDto :=
  { rr_id : string; rr_status : PaymentStatus; replayed : bool; rr_payment : PaymentRecord }.
Record DeadLetterListResponseDto := { dl_count : Z; dl_entries : list DeadLetter }.

Section Controllers.
Context `{Platform}.
Variable date_parse : string → option Z.

Definition replayed_body (p : PaymentRecord) : PaymentReplayedResponseDto :=
  {| rr_id := id (payment p); rr_status := status p; replayed := true; rr_payment := p |}.

(** [POST /payments] *)
Definition payments_submit (body : jsval)
    : M exn world (HttpReply (PaymentReplayedResponseDto + PaymentQueuedResponseDto)) :=
  input ← validateCreatePaymentInput date_parse body;
  result ← submit input;
  mret match result with
       | SubReplayed p => reply 200 (inl (replayed_body p))
       | SubCreated p => reply 201 (inr {| qr_id := id (payment p); qr_status := "queued" |})
       end.

(** [POST /payments/scheduled] *)
Definition payments_schedule (body : jsval)
    : M exn world (HttpReply (PaymentReplayedResponseDto + PaymentScheduledResponseDto)) :=
  input ← validateCreatePaymentInput date_parse body;
  result ← submit input;
  match result with
  | SubReplayed p => mret (reply 200 (inl (replayed_body p)))
  | SubCreated p =>
      scheduledFor ← match scheduledAt (payment p) with
                     | Some at' => mret at'
                     | None => now ← date_now; mret (now + default 0 (ci_delayMs input))
                     end;
      mret (reply 201 (inr {| sr_id := id (payment p); sr_status := status p;
                              scheduledFor := scheduledFor |}))
  end.

(** [GET /payments/:id] *)
Definition payments_status (id : string) : M exn world PaymentRecord := service_getStatus id.

(** [GET /queues/dlq?gatewayId=...] *)
Definition queues_dlq (gateway : option string) : M exn world DeadLetterListResponseDto :=
  entries ← listDeadLetters;
  let filtered :=
    if truthy gateway
    then filter (λ e, (gatewayId ∘ payment) <$> dead_payment e = Some (default "" gateway)) entries
    else entries in
  mret {| dl_count := Z.of_nat (length filtered); dl_entries := filtered |}.

(** ** The correlation id of a request ([src/src/common/correlation.middleware.ts]) *)

(** [`corr_${Date.now().toString(36)}_${Math.random().toString(36).slice(2, 10)}`];
    the digits of the random number are an argument. *)
Definition newCorrelationId (random_digits : string) : M exn world string :=
  now ← date_now;
  mret ("corr_" +:+ to_base36 now +:+ "_" +:+ String.substring 2 8 random_digits).

(** [use(req, res, next)]: the header of the response, and what [next] does. *)
Definition correlation_use {A} (incoming : option string) (random_digits : string)
    (next : M exn world A) : M exn world (string * A) :=
  correlationId ← (if truthy incoming then mret (default "" incoming) else newCorrelationId random_digits);
  a ← correlation_enter correlationId next;
  mret (correlationId, a).
End Controllers.

(** ** Health ([src/src/app.controller.ts], [src/src/app.service.ts]) *)
Record HealthResponseDto := { hr_name : string; hr_status : string }.
Definition app_getStatus : HealthResponseDto := {| hr_name := "queue-system"; hr_status := "ok" |}.
