(* ===== verification/ServiceSpec.v ===== *)
(** * What the payment service guarantees ([src/src/payments/payment.service.ts])

    Validation accepts exactly the described requests; a submission ends in one
    of five ways; an accepted payment is processed to an end; duplicates are
    refused or replayed; and the race of the stale-lease recovery. *)

From S2P Require Import Prelude Num JsValue Errors Payment TokenBucket CircuitBreaker EventBus.
From S2P Require Import Json Redis Gateway Config Bull World Registries Stores Sim Guard Saga.
From S2P Require Import SagaSpec Idempotency QueueManager Processor ProcessorSpec Service.

(** ** Valid requests *)
Section Requests.
Context `{Platform}.
Variable date_parse : string → option Z.

(** The request [body], received at time [now], describes [input]. *)
Record describes (body : list (string * jsval)) (now : Z) (input : CreatePaymentInput) : Prop := {
  ds_id : js_get body "id" = JString (ci_id input) ∧ (0 < String.length (ci_id input) ≤ 100)%nat;
  ds_amount : ∃ x, js_get body "amount" = JNumber x ∧ b64_integer x = Some (ci_amount input) ∧
    0 < ci_amount input;
  ds_currency : js_get body "currency" = JString (ci_currency input) ∧
    String.length (ci_currency input) = 3%nat ∧ string_forall upper (ci_currency input) = true;
  ds_customer : js_get body "customerId" = JString (ci_customerId input) ∧ ci_customerId input ≠ "";
  ds_gateway : js_get body "gatewayId" = JString (ci_gatewayId input) ∧
    (0 < String.length (ci_gatewayId input) ≤ 100)%nat;
  ds_priority : ∃ p, ci_priority input = Some p ∧
    js_nullish (js_get body "priority") (JString "normal") = JString (priority_string p);
  ds_retries : ∃ n x, ci_maxRetries input = Some n ∧ 0 ≤ n ≤ 10 ∧
    js_nullish (js_get body "maxRetries") (JNumber (nof 3)) = JNumber x ∧ b64_integer x = Some n;
  ds_metadata : ∃ m, ci_metadata input = Some m ∧
    (if is_undefined (js_get body "metadata") then m = []
     else plain_object (js_get body "metadata") = Some m);
  ds_once : is_undefined (js_get body "scheduledAt") = true ∨ is_undefined (js_get body "delayMs") = true;
  ds_scheduled : if is_undefined (js_get body "scheduledAt") then ci_scheduledAt input = None
    else ∃ t, ci_scheduledAt input = Some t ∧
      date_value date_parse (js_get body "scheduledAt") = Some t ∧ t - now ≤ MAX_DELAY_MS;
  ds_delay : if is_undefined (js_get body "delayMs") then ci_delayMs input = None
    else ∃ x d, ci_delayMs input = Some d ∧ js_get body "delayMs" = JNumber x ∧
      b64_integer x = Some d ∧ 0 ≤ d ≤ MAX_DELAY_MS;
  ds_correlation : ci_correlationId input = None
}.

(** *** The checks *)
Lemma js_string_Some v s : js_string v = Some s ↔ v = JString s.
Proof. destruct v; cbn; split; congruence. Qed.

Lemma js_integer_Some v n : js_integer v = Some n ↔ ∃ x, v = JNumber x ∧ b64_integer x = Some n.
Proof. split; [destruct v; try done; cbn; eauto|by intros (x&->&?)]. Qed.

Lemma guarded_Some {A} (p : A → bool) v a : guarded p v = Some a ↔ v = Some a ∧ p a = true.
Proof.
  destruct v as [b|]; cbn; [|by split; [|intros [? ?]]]. destruct (p b) eqn:Hp; split; try done;
    [by intros [= <-]|by intros [? _]|intros [[= <-] ?]; congruence].
Qed.

Lemma guarded_string p v s : v = JString s → p s = true → guarded p (js_string v) = Some s.
Proof. intros -> Hs. by apply guarded_Some. Qed.

Lemma guarded_integer p v x n :
  v = JNumber x → b64_integer x = Some n → p n = true → guarded p (js_integer v) = Some n.
Proof. intros -> Hx Hn. by apply guarded_Some. Qed.

Lemma parse_priority_Some s p : parse_priority s = Some p ↔ s = priority_string p.
Proof.
  unfold parse_priority. split; [|intros ->; by destruct p].
  rewrite bind_Some. intros ([i q]&Hf&[= <-]). apply list_find_Some in Hf. cbn. naive_solver.
Qed.

Lemma identifier_spec s : identifier s = true ↔ (0 < String.length s ≤ 100)%nat.
Proof. unfold identifier, non_empty. rewrite andb_true_iff, Nat.ltb_lt, Nat.leb_le. done. Qed.

Lemma non_empty_spec s : non_empty s = true ↔ s ≠ "".
Proof. unfold non_empty. rewrite Nat.ltb_lt. destruct s; cbn; split; (done || lia). Qed.

Lemma currency_code_spec s :
  currency_code s = true ↔ String.length s = 3%nat ∧ string_forall upper s = true.
Proof. unfold currency_code. by rewrite andb_true_iff, Nat.eqb_eq. Qed.

Lemma wp_require {A} (v : option A) m (Q : outcome exn A → world → Prop) w :
  (∀ a, v = Some a → Q (Ok a) w) → (v = None → Q (Throw (EBadRequest m)) w) → wp (require v m) Q w.
Proof. destruct v as [a|]; intros H1 H2; [exact (H1 a eq_refl)|exact (H2 eq_refl)]. Qed.

Lemma wp_refuse_if c m (Q : outcome exn unit → world → Prop) w :
  (c = false → Q (Ok tt) w) → (c = true → Q (Throw (EBadRequest m)) w) → wp (refuse_if c m) Q w.
Proof. destruct c; intros H1 H2; [by apply H2|by apply H1]. Qed.

Lemma wp_validate_schedule v now (Q : outcome exn (option Z) → world → Prop) w :
  now = (read_clock elapsed (w_rt w)).1 →
  (∀ rt o, (if is_undefined v then o = None
     else ∃ t, o = Some t ∧ date_value date_parse v = Some t ∧ t - now ≤ MAX_DELAY_MS) →
    Q (Ok o) (set_w_rt rt w)) →
  (∀ rt m, Q (Throw (EBadRequest m)) (set_w_rt rt w)) →
  wp (validate_schedule date_parse v) Q w.
Proof.
  intros -> HQ Ht. unfold validate_schedule.
  assert (Hw : set_w_rt (w_rt w) w = w) by by destruct w.
  destruct (is_undefined v); [rewrite wp_ret, <-Hw; by apply HQ|].
  rewrite wp_bind. apply wp_require; [|intros _; rewrite <-Hw; apply Ht]. intros t Hv. rewrite wp_bind.
  unfold date_now, wp at 1. destruct (read_clock elapsed (w_rt w)) as [now rt]. cbn [fst snd].
  rewrite wp_bind. apply wp_refuse_if; [|intros _; apply Ht]. intros Hle. rewrite wp_ret.
  apply HQ. exists t. apply Z.ltb_ge in Hle. done.
Qed.

Lemma optional_wp v w :
  wp (if is_undefined v then mret [] else require (plain_object v) "metadata must be an object" : M exn world _)
    (λ o w', w' = w ∧ match o with
     | Ok m => if is_undefined v then m = [] else plain_object v = Some m
     | Throw e => ∃ m, e = EBadRequest m
     | Diverged => False
     end) w.
Proof. destruct (is_undefined v); [done|]. apply wp_require; eauto. Qed.

Lemma delay_wp v w :
  wp (if is_undefined v then mret None
      else d ← require (guarded (λ d, 0 <=? d) (js_integer v)) "delayMs must be a non-negative integer";
           mret (Some d) : M exn world _)
    (λ o w', w' = w ∧ match o with
     | Ok d => if is_undefined v then d = None
               else ∃ x n, d = Some n ∧ v = JNumber x ∧ b64_integer x = Some n ∧ 0 ≤ n
     | Throw e => ∃ m, e = EBadRequest m
     | Diverged => False
     end) w.
Proof.
  destruct (is_undefined v); [done|]. rewrite wp_bind. apply wp_require; [|by eauto].
  intros d [(x&Hx&Hd)%js_integer_Some Hpos%Z.leb_le]%guarded_Some. rewrite wp_ret. eauto 10.
Qed.

(** What is accepted is what the request describes, and nothing but 400 is
    thrown. *)
Lemma validate_wp raw w :
  wp (validateCreatePaymentInput date_parse raw) (λ o w', (∃ rt, w' = set_w_rt rt w) ∧
    match o with
    | Ok input => ∃ body, plain_object raw = Some body ∧
        describes body (read_clock elapsed (w_rt w)).1 input
    | Throw e => ∃ m, e = EBadRequest m
    | Diverged => False
    end) w.
Proof.
  assert (Hw : ∃ rt, w = set_w_rt rt w) by (exists (w_rt w); by destruct w).
  unfold validateCreatePaymentInput. rewrite wp_bind. apply wp_require; [intros body Hbody|by eauto].
  rewrite wp_bind. apply wp_require; [intros id [Hid%js_string_Some Hidl%identifier_spec]%guarded_Some|by eauto].
  rewrite wp_bind. apply wp_require; [intros amount [Ham%js_integer_Some Hpos]%guarded_Some|by eauto].
  rewrite wp_bind. apply wp_require; [intros cur [Hcur%js_string_Some Hc%currency_code_spec]%guarded_Some|by eauto].
  rewrite wp_bind. apply wp_require; [intros cust [Hcu%js_string_Some Hn%non_empty_spec]%guarded_Some|by eauto].
  rewrite wp_bind. apply wp_require; [intros gw [Hgw%js_string_Some Hg%identifier_spec]%guarded_Some|by eauto].
  rewrite wp_bind. apply wp_require; [intros prio (s&Hs%js_string_Some&->%parse_priority_Some)%bind_Some|by eauto].
  rewrite wp_bind. apply wp_require; [intros retries [Hr%js_integer_Some Hrb]%guarded_Some|by eauto].
  rewrite wp_bind. eapply wp_mono; [|apply optional_wp]. cbv beta.
  intros [meta|e|] w1 [-> Hm]; [|by destruct Hm; eauto|done].
  rewrite wp_bind. apply wp_refuse_if; [intros Hdate|by eauto].
  rewrite wp_bind. eapply wp_mono; [|apply delay_wp]. cbv beta.
  intros [delay|e|] w1 [-> Hdelay]; [|by destruct Hdelay; eauto|done].
  rewrite wp_bind. apply wp_refuse_if; [intros Honce|by eauto].
  rewrite wp_bind. eapply wp_validate_schedule; [reflexivity|intros rt at' Hat|intros rt m; by eauto].
  rewrite wp_bind. apply wp_refuse_if; [intros Hmax|by eauto].
  rewrite wp_ret. split; [by exists rt|]. exists body. split; [done|]. split; cbn -[nof]; try done; eauto.
  - destruct Ham as (x&?&?). exists x. split_and!; [done..|lia].
  - destruct Hr as (x&?&?). exists retries, x. split_and!; [done|lia..|done|done].
  - destruct (is_undefined (js_get body "scheduledAt")); [by left|right].
    by destruct (is_undefined (js_get body "delayMs")).
  - destruct (is_undefined (js_get body "delayMs")); [done|].
    destruct Hdelay as (x&d&->&?&?&?). exists x, d. split_and!; [done..|lia].
Qed.

(** What a request describes is accepted. *)
Lemma wp_require_Some {A} (v : option A) a m (Q : outcome exn A → world → Prop) w :
  v = Some a → Q (Ok a) w → wp (require v m) Q w.
Proof. by intros ->. Qed.

Lemma wp_refuse_if_false c m (Q : outcome exn unit → world → Prop) w :
  c = false → Q (Ok tt) w → wp (refuse_if c m) Q w.
Proof. by intros ->. Qed.

Lemma date_value_is_date v t : date_value date_parse v = Some t → is_date v = true.
Proof. by destruct v. Qed.

Lemma schedule_accepted v w t :
  (if is_undefined v then t = None
   else ∃ at', t = Some at' ∧ date_value date_parse v = Some at' ∧
     at' - (read_clock elapsed (w_rt w)).1 ≤ MAX_DELAY_MS) →
  wp (validate_schedule date_parse v) (λ o _, o = Ok t) w.
Proof.
  unfold validate_schedule. destruct (is_undefined v); [by intros ->|]. intros (at'&->&Hv&Hle).
  rewrite wp_bind. apply (wp_require_Some _ at'); [done|]. rewrite wp_bind.
  unfold date_now, wp at 1. destruct (read_clock elapsed (w_rt w)) as [now rt]. cbn [fst snd] in *.
  rewrite wp_bind. apply wp_refuse_if_false; [by apply Z.ltb_ge|done].
Qed.

Lemma describes_accepted raw body w input :
  plain_object raw = Some body → describes body (read_clock elapsed (w_rt w)).1 input →
  wp (validateCreatePaymentInput date_parse raw) (λ o _, o = Ok input) w.
Proof.
  intros Hbody [[Hid Hidl] (xa&Ha&Hai&Hap) (Hcur&Hcl&Hcf) [Hcu Hcn] [Hg Hgl] (p&Hp&Hps)
    (n&xn&Hn&Hnb&Hnx&Hni) (m&Hm&Hmo) Honce Hsch Hdel Hco].
  unfold validateCreatePaymentInput. rewrite wp_bind. apply (wp_require_Some _ body); [done|].
  rewrite wp_bind. eapply wp_require_Some; [by apply guarded_string, identifier_spec|].
  rewrite wp_bind. eapply wp_require_Some; [by eapply guarded_integer, Z.ltb_lt|].
  rewrite wp_bind. eapply wp_require_Some; [by apply guarded_string, currency_code_spec|].
  rewrite wp_bind. eapply wp_require_Some; [by apply guarded_string, non_empty_spec|].
  rewrite wp_bind. eapply wp_require_Some; [by apply guarded_string, identifier_spec|].
  rewrite wp_bind. apply (wp_require_Some _ p); [by rewrite Hps; apply parse_priority_Some|].
  rewrite wp_bind. apply (wp_require_Some _ n); [eapply guarded_integer; [done..|lia]|].
  rewrite wp_bind. eapply (wp_mono _ (λ o w', w' = w ∧ o = Ok m)).
  2: { destruct (is_undefined (js_get body "metadata")); [by rewrite wp_ret, Hmo|]. by eapply wp_require_Some. }
  intros o w1 [-> ->]. rewrite wp_bind. apply wp_refuse_if_false.
  { destruct (is_undefined (js_get body "scheduledAt")); [done|]. destruct Hsch as (t&_&Ht&_). apply date_value_is_date in Ht. by rewrite Ht. }
  rewrite wp_bind. eapply (wp_mono _ (λ o w', w' = w ∧ o = Ok (ci_delayMs input))).
  2: { destruct (is_undefined (js_get body "delayMs")); [by rewrite wp_ret, Hdel|]. destruct Hdel as (x&d&->&Hx&Hi&Hd).
       rewrite wp_bind. apply (wp_require_Some _ d); [|done]. eapply guarded_integer; [done..|lia]. }
  intros o w1 [-> ->]. rewrite wp_bind. apply wp_refuse_if_false; [by destruct Honce as [-> | ->]; rewrite ?andb_false_r|].
  rewrite wp_bind. eapply wp_mono; [|exact (schedule_accepted _ _ _ Hsch)]. intros o w1 ->. cbv beta iota.
  rewrite wp_bind. apply wp_refuse_if_false; [|rewrite wp_ret; destruct input; cbn in *; congruence].
  destruct (is_undefined (js_get body "delayMs")); [by rewrite Hdel|].
  destruct Hdel as (x&d&->&_&_&Hd). apply Z.ltb_ge; lia.
Qed.

(** C16: validation is equivalent to the declarative description of a request: a
    body is accepted exactly when it is an object that describes a payment (id and
    gateway of 1 to 100 characters, a positive integer amount, three upper-case
    letters, a non-empty customer, a known priority, 0 to 10 retries, a metadata
    object, at most one of [scheduledAt] and [delayMs] and not beyond
    [MAX_DELAY_MS]), with the defaults of the fields left out; the input returned
    is the one described; everything else is answered with a 400, and nothing but
    the clock is touched. *)
Theorem validate_accepts_described (raw : jsval) (w : world) :
  let now := (read_clock elapsed (w_rt w)).1 in
  ∃ o rt, validateCreatePaymentInput date_parse raw w = (o, set_w_rt rt w) ∧
    (∀ input, o = Ok input ↔ ∃ body, plain_object raw = Some body ∧ describes body now input) ∧
    ((∀ input, o ≠ Ok input) → ∃ m, o = Throw (EBadRequest m)).
Proof.
  intros now. destruct (wp_run _ _ _ (validate_wp raw w)) as (o&w'&He&(rt&->)&Ho).
  exists o, rt. split; [done|]. split.
  - intros input. split; [intros ->; exact Ho|]. intros (body&Hb&Hd).
    pose proof (describes_accepted raw body w input Hb Hd) as Hwp. unfold wp in Hwp. by rewrite He in Hwp.
  - destruct o as [i|e|]; [intros Hno; by destruct (Hno i)|intros _|done]. destruct Ho as [m ->]. by exists m.
Qed.
End Requests.

(** ** Submissions *)
Section Submissions.
Context `{PlatformLaws}.

(** The processing lease of [pid] is held until at least [until]. *)
Definition leased (pid : string) (until : Z) (d : db text) : Prop :=
  ∃ rec e, state rec = PROCESSING ∧ until ≤ e ∧ holds (idempotency_key pid) (stringify rec) e d.

(** No record, or one in progress, was read between [w] and [w']. *)
Definition in_progress (pid : string) (w w' : world) : Prop :=
  ∃ t, rt_now (w_rt w) ≤ t ≤ rt_now (w_rt w') ∧
    match idem_at t (db_of w) pid with Some rec => state rec = PROCESSING | None => True end.

(** What claiming with the stale-lease recovery can answer. *)
Lemma wp_claim_recovering pid (Q : outcome exn ClaimResult → world → Prop) w :
  no_faults → typed (db_of w) →
  (∀ rt s n, rt_now (w_rt w) ≤ rt_now rt →
    (stored (db_of w) pid = None ∨ ∃ t, rt_now (w_rt w) ≤ t ≤ rt_now rt ∧
      string_at t (idempotency_key pid) (db_of w) = None) →
    typed (view s) → only_key (idempotency_key pid) (db_of w) (view s) →
    leased pid (rt_now (w_rt w) + 1000 * leaseTtlSeconds (idempotency config)) (view s) →
    Q (Ok ClaimNew) (set_w_redis s (set_w_cmds n (set_w_rt rt w)))) →
  (∀ rt s n rec r, rt_now (w_rt w) ≤ rt_now rt → view s = db_of w → stored (db_of w) pid = Some r →
    in_progress pid w (set_w_rt rt w) →
    Q (Ok (ClaimConflict rec)) (set_w_redis s (set_w_cmds n (set_w_rt rt w)))) →
  (∀ rt s n rec, rt_now (w_rt w) ≤ rt_now rt → view s = db_of w →
    (∃ t, idem_at t (db_of w) pid = Some rec) → state rec ≠ PROCESSING →
    Q (Ok (ClaimReplayed rec)) (set_w_redis s (set_w_cmds n (set_w_rt rt w)))) →
  wp (claim_recovering pid) Q w.
Proof.
  intros Hf Hd Hnew Hconf Hrep. unfold claim_recovering. rewrite wp_bind. apply wp_claim; [done..| |].
  { intros t rt s rec Hrt Hs -> Ht Hk Hh. rewrite wp_ret. apply Hnew; try done; [right; exists (rt_now rt); split; [lia|done]|].
    exists (processing_record pid t t). eexists. split; [done|]. split; [|exact Hh]. lia. }
  intros t rt rt' s s' v Hrt Hrt' Hv Hs'.
  assert (Hconflict : ∀ rec, match idem_at (rt_now rt') (db_of w) pid with
    | Some rec => state rec = PROCESSING | None => True end → wp (existing ← store_get pid;
    match existing with Some _ => mret (ClaimConflict rec) | None => release pid;; claim pid end) Q
    (after_cmd rt' s' (after_cmd rt s w))).
  { intros rec Hp. rewrite wp_bind. apply wp_store_get; [apply Hf|by world_simpl; rewrite Hs'|].
    intros rt2 s2 Hrt2 Hs2. unfold in_progress in Hconf. world_simpl. rewrite Hs' in *.
    destruct (stored (view (w_redis w)) pid) as [r|] eqn:Hst; [rewrite wp_ret; eapply Hconf; try done; [lia|exists (rt_now rt'); split; [lia|done]]|].
    unfold release. rewrite !wp_bind. apply wp_del; [apply Hf|by world_simpl; rewrite Hs2|].
    intros n rt3 s3 Hrt3 Ht3 Hk3 Hn3. world_simpl. rewrite wp_ret. rewrite Hs2 in *.
    apply wp_claim; [done|exact Ht3| |].
    - intros t4 rt4 s4 rec4 Hrt4 Hs4 -> Ht4 Hk4 Hh4. world_simpl. apply Hnew; try done; [lia|by left| |].
      + intros k Hk. by rewrite Hk4, Hk3.
      + exists (processing_record pid t4 t4). eexists. split; [done|]. split; [|exact Hh4]. lia.
    - world_simpl. intros ? ? ? ? ? ? _ _ Habs. by rewrite absent_string_at in Habs. }
  destruct (idem_at (rt_now rt') (db_of w) pid) as [r|] eqn:Hidem;
    [case_bool_decide; [by apply Hconflict|]|by apply Hconflict].
  rewrite wp_ret. eapply Hrep; (done || eauto || lia).
Qed.

(** What the queue manager leaves alone, whatever it does. *)
Definition queue_side : relation world := λ w w',
  w_redis w' = w_redis w ∧ w_calls w' = w_calls w ∧ w_events w' = w_events w ∧
  rt_now (w_rt w) ≤ rt_now (w_rt w').

#[local] Instance queue_side_preorder : PreOrder queue_side.
Proof.
  split; [by intros w|]. intros w1 w2 w3 (H1&H2&He1&H3) (H4&H5&He2&H6). unfold queue_side.
  split_and!; [congruence..|lia].
Qed.
#[local] Instance queue_side_intro {A} (m : M exn world A) :
  Respects (keeps w_redis) m → Respects (keeps w_calls) m → Respects (keeps w_events) m →
  Respects elapses m → Respects queue_side m | 50.
Proof. intros H1 H2 H3 H4 w. split_and!; [apply H1|apply H2|apply H3|apply H4]. Qed.
#[local] Instance put_runtime_side id r : Respects queue_side (put_runtime id r).
Proof. intros w. by split_and!. Qed.
#[local] Instance logger_side l m : Respects queue_side (logger l m).
Proof. intros w. by split_and!. Qed.
#[local] Instance scale_up_side fuel r target : Respects queue_side (scale_up fuel r target).
Proof. induction fuel as [|fuel IH]; cbn [scale_up]; frame. Qed.
#[local] Instance scale_down_side fuel r target : Respects queue_side (scale_down fuel r target).
Proof. induction fuel as [|fuel IH]; cbn [scale_down]; frame. Qed.
#[local] Instance enqueue_side input : Respects queue_side (enqueue input).
Proof. frame. Qed.
#[global] Instance enqueue_append input : Respects append_only (enqueue input).
Proof.
  apply (respects_mono queue_side); [|apply _]. intros w w' (Hr&_). unfold append_only, db_of. by rewrite Hr.
Qed.

(** The delay of a job submitted after [since]. *)
Definition delay_for (input : CreatePaymentInput) (since d : Z) : Prop :=
  match ci_scheduledAt input with
  | Some at' => ∃ now, since ≤ now ∧ d = Z.max 0 (at' - now)
  | None => d = default 0 (ci_delayMs input)
  end.

(** What accepting the payment [r] does to the stores. *)
Record submission (input : CreatePaymentInput) (correlation : option string) (r : PaymentRecord)
    (w w' : world) : Prop := {
  sm_record : ∃ t, rt_now (w_rt w) ≤ t ∧ r = createPaymentRecord (record_input input correlation) t;
  sm_typed : typed (db_of w');
  sm_stored : stored (db_of w') (ci_id input) = Some (json_norm r);
  sm_others id : id ≠ ci_id input → stored (db_of w') id = stored (db_of w) id;
  sm_audit : map ae_type (audit_of (db_of w') (ci_id input)) =
    map ae_type (audit_of (db_of w) (ci_id input)) ++ [A_payment_submitted];
  sm_ledger : ledger_of (db_of w') = ledger_of (db_of w);
  sm_lock : (db_of w' : gmap string (entry text)) !! lock_key (ci_id input) =
    (db_of w : gmap string (entry text)) !! lock_key (ci_id input);
  sm_calls : w_calls w' = w_calls w;
  sm_events : ∃ t, rt_now (w_rt w) ≤ t ≤ rt_now (w_rt w') ∧ w_events w' = w_events w ++
    [EvPayment Ev_queued (ci_id input) (Some (ci_gatewayId input)) correlation (Some Queued) t None];
  sm_time : rt_now (w_rt w) ≤ rt_now (w_rt w')
}.

Lemma wp_submit_delay input (Q : outcome exn Z → world → Prop) w :
  (∀ rt d, rt_now (w_rt w) ≤ rt_now rt → delay_for input (rt_now (w_rt w)) d →
    Q (Ok d) (set_w_rt rt w)) →
  wp (submit_delay input) Q w.
Proof.
  intros HQ. unfold submit_delay, delay_for in *. destruct (ci_scheduledAt input) as [at'|].
  - rewrite wp_bind. apply wp_date_now. intros rt Hrt. rewrite wp_ret. apply HQ; [done|by eauto].
  - rewrite wp_ret. specialize (HQ (w_rt w) _ ltac:(lia) eq_refl). by destruct w.
Qed.

Lemma wp_submit_enqueue r d (Q : outcome exn unit → world → Prop) w :
  no_faults → typed (db_of w) → 0 ≤ workerPoolSize (queue config) → runtimes_wf w →
  let key := idempotency_key (id (payment r)) in
  (∀ w', queue_side w w' →
    added_once (gateway_queue (gatewayId (payment r))) (payment_job (submit_job r d)) (w_bull w) (w_bull w') →
    Q (Ok tt) w') →
  (∀ w' m, typed (db_of w') → only_key key (db_of w) (db_of w') → w_calls w' = w_calls w →
    w_events w' = w_events w →
    rt_now (w_rt w) ≤ rt_now (w_rt w') → (db_of w' : gmap string (entry text)) !! key = None →
    Q (Throw (EBadRequest ("payment could not be queued: " +:+ m))) w') →
  wp (submit_enqueue r d) Q w.
Proof.
  intros Hf Hd Hcfg Hwf key Hok Hfail. unfold submit_enqueue. rewrite wp_catch, wp_withSpan.
  eapply wp_mono; [|apply (wp_respects queue_side), enqueue_wp; [apply _|done..]].
  intros [[]|e|] w1 [[Ho Hj] (Hr&Hc&He&Ht)]; [|clear Hok|done].
  - apply Hok; [by split_and!|]. by apply Hj.
  - unfold release. rewrite !wp_bind. cbn [on_world world_has_world].
    apply wp_del; [apply Hf|unfold db_of in *; cbn; by rewrite Hr|].
    intros n rt s Hrt Hty Hk Hn. rewrite wp_ret, wp_throw. world_simpl. rewrite Hr in Hk.
    apply Hfail; cbn; (done || lia).
Qed.

(** The job is in the queue of the gateway; no other queue was touched. *)
Definition submitted_job (input : CreatePaymentInput) (r : PaymentRecord) (w w' : world) : Prop :=
  ∃ d, delay_for input (rt_now (w_rt w)) d ∧
    added_once (gateway_queue (ci_gatewayId input)) (payment_job (submit_job r d)) (w_bull w) (w_bull w').

Lemma submit_new_wp input c w :
  no_faults → typed (db_of w) → 0 ≤ workerPoolSize (queue config) → runtimes_wf w →
  let key := idempotency_key (ci_id input) in
  wp (submit_new input c) (λ o w', ∃ r, submission input c r w w' ∧
    match o with
    | Ok res => res = SubCreated r ∧ submitted_job input r w w' ∧
        (db_of w' : gmap string (entry text)) !! key = (db_of w : gmap string (entry text)) !! key
    | Throw e => (∃ m, e = EBadRequest ("payment could not be queued: " +:+ m)) ∧
        (db_of w' : gmap string (entry text)) !! key = None
    | Diverged => False
    end) w.
Proof.
  intros Hf Hd Hcfg Hwf key. unfold submit_new. rewrite wp_bind. apply wp_date_now. intros rt1 Hrt1.
  cbv zeta. set (r := createPaymentRecord (record_input input c) (rt_now rt1)). rewrite wp_bind.
  apply wp_audit_record; [apply Hf|done|]. intros t2 rt2 s2 Hrt2 Hs2. world_simpl.
  rewrite wp_bind. apply wp_store_save; [apply Hf|typed_now|]. intros rt3 s3 Hrt3 Hs3. world_simpl.
  change (id (payment r)) with (ci_id input) in Hs3.
  rewrite wp_bind. apply wp_date_now. intros rt4 Hrt4. world_simpl.
  rewrite wp_bind. unfold emit_event at 1. rewrite wp_modify.
  rewrite wp_bind. apply wp_submit_delay. intros rt5 d Hrt5 Hdel. world_simpl.
  assert (Hsub : ∀ w', typed (db_of w') → only_key key (view s3) (db_of w') → w_calls w' = w_calls w →
    w_events w' = w_events w ++ [EvPayment Ev_queued (ci_id input) (Some (ci_gatewayId input)) c
      (Some Queued) (rt_now rt4) None] →
    rt_now rt5 ≤ rt_now (w_rt w') → submission input c r w w').
  { intros w' Hty Hk Hc He Ht. pose proof (only_key_unseen _ _ _ Hk (idempotency_key_kind _)) as Hu.
    destruct Hs2, Hs3. split; try done.
    - exists (rt_now rt1). split; [lia|done].
    - by rewrite (un_stored _ _ Hu).
    - intros id Hid. by rewrite (un_stored _ _ Hu), sv_others, au_stored.
    - rewrite (un_audit _ _ Hu), sv_audit, au_audit. by rewrite map_app.
    - by rewrite (un_ledger _ _ Hu), sv_ledger, au_ledger.
    - rewrite (Hk (lock_key _)), sv_strings, au_strings by auto with qsys. done.
    - exists (rt_now rt4). split; [lia|exact He].
    - lia. }
  rewrite wp_bind. apply wp_submit_enqueue; [done|typed_now|done|done| |].
  - intros w' (Hr&Hc&He&Ht) Hadd. rewrite wp_ret. cbn in Hr, Hc, He, Ht. exists r. split.
    { apply Hsub; unfold db_of; rewrite ?Hr; [typed_now|done..]. }
    split; [done|]. split; [exists d; split; [|done]|].
    + unfold delay_for in *. destruct (ci_scheduledAt input); [|done].
      destruct Hdel as (now&?&?). exists now. split; [lia|done].
    + unfold db_of. rewrite Hr, (sv_strings _ _ _ _ Hs3), (au_strings _ _ _ _ Hs2) by apply idempotency_key_kind. done.
  - intros w' m Hty Hk Hc He Ht Hn. exists r. split; [by apply Hsub|]. split; [by exists m|done].
Qed.

(** A refused or replayed submission leaves everything but the clock alone. *)
Definition unchanged (w w' : world) : Prop :=
  db_of w' = db_of w ∧ w_calls w' = w_calls w ∧ w_bull w' = w_bull w ∧ w_events w' = w_events w.

(** The payment has no idempotency record, or one whose submission never stored
    a payment. *)
Definition admitted (pid : string) (w w' : world) : Prop :=
  stored (db_of w) pid = None ∨
  ∃ t, rt_now (w_rt w) ≤ t ≤ rt_now (w_rt w') ∧ string_at t (idempotency_key pid) (db_of w) = None.

(** The correlation id a submission is stored with. *)
Definition submit_correlation (input : CreatePaymentInput) (w : world) : option string :=
  match ci_correlationId input with Some c => Some c | None => w_corr w end.

(** How a submission ends. *)
Inductive submit_case (input : CreatePaymentInput) (w : world) :
    outcome exn SubmitPaymentResult → world → Prop :=
  | submit_created w' r :
      admitted (ci_id input) w w' → submission input (submit_correlation input w) r w w' →
      leased (ci_id input) (rt_now (w_rt w) + 1000 * leaseTtlSeconds (idempotency config)) (db_of w') →
      submitted_job input r w w' →
      submit_case input w (Ok (SubCreated r)) w'
  | submit_unqueued w' r m :
      admitted (ci_id input) w w' → submission input (submit_correlation input w) r w w' →
      (db_of w' : gmap string (entry text)) !! idempotency_key (ci_id input) = None →
      submit_case input w (Throw (EBadRequest ("payment could not be queued: " +:+ m))) w'
  | submit_conflict w' r :
      stored (db_of w) (ci_id input) = Some r → in_progress (ci_id input) w w' → unchanged w w' →
      submit_case input w (Throw (EConflict "payment is already being processed" (ci_id input)
        (PAYMENT_STATUSES (status r)))) w'
  | submit_replayed w' r rec t :
      idem_at t (db_of w) (ci_id input) = Some rec → state rec ≠ PROCESSING →
      stored (db_of w) (ci_id input) = Some r → unchanged w w' →
      submit_case input w (Ok (SubReplayed r)) w'
  | submit_inconsistent w' rec t :
      idem_at t (db_of w) (ci_id input) = Some rec → state rec ≠ PROCESSING →
      stored (db_of w) (ci_id input) = None → unchanged w w' →
      submit_case input w (Throw (ENotFound
        "payment already finalized but its record is missing (data inconsistency)" (ci_id input))) w'.

Lemma submission_after input c r w w1 w2 :
  only_key (idempotency_key (ci_id input)) (db_of w) (db_of w1) → w_calls w1 = w_calls w →
  rt_now (w_rt w) ≤ rt_now (w_rt w1) →
  w_events w1 = w_events w → submission input c r w1 w2 → submission input c r w w2.
Proof.
  intros Hk Hc Ht He [(t&Hle&Hr) Hty Hst Hot Hau Hle' Hlo Hca (t'&Hev&Hevs) Htm].
  pose proof (only_key_unseen _ _ _ Hk (idempotency_key_kind _)) as Hu. split; try done; try congruence.
  - exists t. split; [lia|done].
  - intros id Hid. by rewrite Hot, (un_stored _ _ Hu).
  - by rewrite Hau, (un_audit _ _ Hu).
  - by rewrite Hle', (un_ledger _ _ Hu).
  - by rewrite Hlo, (Hk (lock_key _)).
  - exists t'. split; [lia|by rewrite Hevs, He].
  - lia.
Qed.

Lemma submit_wp input w :
  no_faults → typed (db_of w) → 0 ≤ workerPoolSize (queue config) → runtimes_wf w →
  wp (submit input) (submit_case input w) w.
Proof.
  intros Hf Hd Hcfg Hwf. unfold submit. cbv zeta. rewrite wp_bind. unfold correlation_current.
  rewrite wp_gets. fold (submit_correlation input w). rewrite wp_bind.
  apply wp_claim_recovering; [done..| | |].
  - intros rt s n Hrt Hadm Hty Hk Hl. set (w1 := set_w_redis s _).
    eapply wp_mono; [|apply submit_new_wp; done]. intros o w2 (r&Hsub&Ho).
    pose proof (sm_time _ _ _ _ _ Hsub) as Ht. cbn in Ht.
    assert (Hadm' : admitted (ci_id input) w w2).
    { destruct Hadm as [?|(t&?&?)]; [by left|right; exists t; split; [lia|done]]. }
    pose proof (submission_after _ _ _ w w1 w2 Hk eq_refl Hrt eq_refl Hsub) as Hsub'.
    destruct o as [res|e|]; [|destruct Ho as [(m&->) Hn]; by eapply submit_unqueued|done].
    destruct Ho as (->&(d&Hdel&Hadd)&Hkey). eapply submit_created; try done.
    + destruct Hl as (rec&e&?&?&Hh). exists rec, e. split_and!; [done..|]. unfold holds. by rewrite Hkey.
    + exists d. split; [|done]. unfold delay_for in *. destruct (ci_scheduledAt input); [|done].
      destruct Hdel as (now&?&?). cbn in *. exists now. split; [lia|done].
  - intros rt s n rec r Hrt Hs Hr (t&Ht&Hp). rewrite wp_bind. apply wp_store_get; [apply Hf|by world_simpl; rewrite Hs|].
    intros rt2 s2 Hrt2 Hs2. world_simpl. rewrite Hs in *. rewrite Hr, wp_throw.
    apply (submit_conflict _ _ _ r); [done| |by split_and!]. exists t. split; [cbn in *; lia|done].
  - intros rt s n rec Hrt Hs (t&Hi) Hst. rewrite wp_bind.
    apply wp_store_get; [apply Hf|by world_simpl; rewrite Hs|].
    intros rt2 s2 Hrt2 Hs2. world_simpl. rewrite Hs in *.
    destruct (stored (view (w_redis w)) (ci_id input)) as [r|] eqn:Hr; [rewrite wp_ret|rewrite wp_throw].
    + by eapply submit_replayed.
    + by eapply submit_inconsistent.
Qed.

(** C4: every submission ends in one of five ways.  Created: the payment is stored
    as queued with its correlation id, one audit entry is written, one
    payment.queued event is emitted, the lease is held for [leaseTtlSeconds], and
    one job with its delay is in the queue of its gateway and in no other; this
    only if no submission of the id is in progress.  Not queued: the record, the
    audit entry and the event stay, but the lease is dropped, so that the payment
    can be submitted again.
    Conflict, with the status of the stored payment; replayed, with the stored
    payment; or inconsistent: in these three nothing is changed.  The call always
    returns or throws, and the gateway is never called. *)
Theorem submit_cases (input : CreatePaymentInput) (w : world) :
  no_faults → typed (db_of w) → 0 ≤ workerPoolSize (queue config) → runtimes_wf w →
  ∃ o w', submit input w = (o, w') ∧ submit_case input w o w'.
Proof. intros Hf Hd Hcfg Hwf. exact (wp_run _ _ _ (submit_wp input w Hf Hd Hcfg Hwf)). Qed.

(** A duplicate submission can neither charge nor enqueue.  While the
    idempotency record of a stored payment lives, a submission of the same id
    that completes changes nothing: it is answered with a conflict that reports
    the status of the payment while it is being processed, and with the stored
    payment once it is final. *)
Theorem submit_duplicate_refused (input : CreatePaymentInput) (r : PaymentRecord)
    (rec : IdempotencyRecord) (e : Z) (w : world) :
  no_faults → typed (db_of w) → 0 ≤ workerPoolSize (queue config) → runtimes_wf w →
  stored (db_of w) (ci_id input) = Some r →
  holds (idempotency_key (ci_id input)) (stringify rec) e (db_of w) →
  ∃ o w', submit input w = (o, w') ∧ (rt_now (w_rt w') < e → unchanged w w' ∧
    ((state rec = PROCESSING → o = Throw (EConflict "payment is already being processed" (ci_id input)
       (PAYMENT_STATUSES (status r)))) ∧
     (state rec ≠ PROCESSING → o = Ok (SubReplayed r)))).
Proof.
  intros Hf Hd Hcfg Hwf Hs Hh. destruct (wp_run _ _ _ (submit_wp input w Hf Hd Hcfg Hwf)) as (o&w'&He&Hcase).
  exists o, w'. split; [done|]. intros Hlt.
  assert (Hadm : ¬ admitted (ci_id input) w w').
  { intros [Hn|(t&Ht&Hn)]; [congruence|]. rewrite (holds_string_at _ _ _ _ _ Hh) in Hn. case_match; [lia|done]. }
  assert (Hidem : ∀ t, t < e → idem_at t (db_of w) (ci_id input) = Some rec).
  { intros t Ht. unfold idem_at. rewrite (holds_string_at _ _ _ _ _ Hh). case_match; [lia|].
    apply parse_or_null_stringify. }
  destruct Hcase as [w' r' Ha|w' r' m Ha|w' r' Hr (t&Ht&Hp) Hu|w' r' rec' t Hi Hst Hr Hu|w' rec' t Hi Hst Hn];
    try done; try congruence; split; try done.
  - rewrite Hidem in Hp by lia. split; [intros _|done]. do 2 f_equal. congruence.
  - assert (rec' = rec) as ->; [|split; [done|intros _; congruence]].
    revert Hi. unfold idem_at. rewrite (holds_string_at _ _ _ _ _ Hh). case_match; [done|].
    rewrite parse_or_null_stringify. congruence.
Qed.

(** *** The life of an accepted payment *)

(** The stores are left alone while no worker runs the job. *)
Definition idle (w w' : world) : Prop := db_of w' = db_of w.

(** The job as BullMQ hands it out after [k] attempts. *)
Definition delivered (job : Job num) (k : nat) : Job num :=
  {| job_name := job_name job; job_id := job_id job; data := data job; opts := opts job;
     attemptsMade := Z.of_nat k |}.

(** The first [k] deliveries of [job] failed, each to be retried. *)
Inductive retried (job : Job num) : nat → world → world → Prop :=
  | retried_none w w' : idle w w' → retried job 0 w w'
  | retried_again k w w1 w2 w3 e : retried job k w w1 →
      worker_run (delivered job k) w1 = (Throw (EProcessing e), w2) → idle w2 w3 →
      retried job (S k) w w3.

(** A payment just accepted is ready to be processed. *)
Lemma submission_ready input c r rec e w w1 :
  submission input c r w w1 → state rec = PROCESSING →
  holds (idempotency_key (ci_id input)) (stringify rec) e (db_of w1) →
  (db_of w : gmap string (entry text)) !! lock_key (ci_id input) = None →
  ready (ci_id input) (json_norm r) (db_of w1).
Proof.
  intros Hsub Hst Hh Hlock. destruct (sm_record _ _ _ _ _ Hsub) as (t&_&Hr).
  split; [apply (sm_typed _ _ _ _ _ Hsub)|apply (sm_stored _ _ _ _ _ Hsub)|by rewrite Hr| |].
  - intros t'. unfold idem_at. rewrite (holds_string_at _ _ _ _ _ Hh). case_match; [done|].
    rewrite parse_or_null_stringify. cbn. by rewrite Hst.
  - intros t'. apply absent_string_at. by rewrite (sm_lock _ _ _ _ _ Hsub).
Qed.

(** The payment stays ready until a delivery ends otherwise. *)
Lemma retried_stays_ready job k r w w' :
  let pid := jd_paymentId (payment_data (data job)) in
  no_faults → ready pid (json_norm r) (db_of w) → retried job k w w' →
  ∃ r', ready pid r' (db_of w') ∧ payment r' = payment (json_norm r).
Proof.
  intros pid Hf Hr Hret. induction Hret as [w w' Hi|k w w1 w2 w3 e _ IH Hrun Hi].
  { unfold idle in Hi. rewrite Hi. by eexists. }
  destruct (IH Hr) as (r1&Hr1&Hp1).
  pose proof (worker_run_case_wp (delivered job k) r1 w1 Hf Hr1) as Hwp. unfold wp in Hwp.
  rewrite Hrun in Hwp. destruct Hwp as [Hcase Hl]. cbn [fst snd] in Hcase, Hl.
  destruct (retried_ready (delivered job k) _ _ _ _ Hr1 Hcase Hl) as (r2&Hr2&Hp2&_). exists r2.
  unfold idle in Hi. rewrite Hi, Hp2, Hp1. split; [done|]. apply json_payment_idemp.
Qed.

(** What the worker does with the failure of an attempt: nothing while there are
    attempts left; after the last one the payment is dead-lettered. *)
Definition failure_handled (r : PaymentRecord) (k : nat) (err : exn) (w w' : world) : Prop :=
  w_calls w' = w_calls w ∧
  if Z.of_nat k <=? maxRetries (payment r) then w' = w
  else let reason := "retries exhausted: " +:+ error_message err in
    (∃ r', stored (db_of w') (id (payment r)) = Some r' ∧ status r' = Payment.DeadLetter ∧
      failureReason r' = Some reason) ∧
    finalized_as (id (payment r)) (failed_input reason) (rt_now (w_rt w)) (db_of w').

Lemma worker_on_failed_wp job r k err w :
  no_faults → ready (jd_paymentId (payment_data (data job))) r (db_of w) → status r = Processing →
  o_attempts (opts job) = maxRetries (payment r) + 1 →
  wp (worker_on_failed (delivered job k) err) (λ o w', o = Ok tt ∧ failure_handled r k err w w') w.
Proof.
  intros Hf [Hty Hsto Hid _ _] Hst Hatt. unfold worker_on_failed, worker_failed, failure_handled.
  cbn [opts attemptsMade delivered data]. rewrite Hatt, Z.geb_leb.
  destruct (Z.leb_spec (Z.of_nat k) (maxRetries (payment r))) as [Hle|Hgt].
  { rewrite (proj2 (Z.leb_gt _ _)) by lia. by rewrite wp_ret. }
  rewrite (proj2 (Z.leb_le _ _)) by lia. cbv iota. rewrite wp_catch.
  apply wp_handleJobFailure; [done..|by intros r'; rewrite Hsto; intros [= <-]|]. rewrite Hsto, Hst. cbn [is_terminal bool_decide].
  intros o w' since Ht Hdb Hc [_ (t&Hs) (c&n&e&Hh&Hle) _ _ _ Hcalls] Ho.
  assert (Hdone : ∀ w2, db_of w2 = db_of w' → w_calls w2 = w_calls w' → Ok tt = Ok (E := exn) tt ∧
    failure_handled r k err w w2).
  { intros w2 Hd2 Hc2. split; [done|]. unfold failure_handled. rewrite Hc2, Hd2, Hcalls, Hc.
    rewrite (proj2 (Z.leb_gt _ _)) by done. split; [done|]. cbv zeta. rewrite Hid. split.
    - eexists. split; [exact Hs|done].
    - exists c, n, e. split; [done|lia]. }
  revert Hdone. unfold failure_handled. rewrite (proj2 (Z.leb_gt _ _)) by done. intros Hdone.
  destruct Ho as [(t'&->&_)|[m ->]]; [by apply Hdone|]. unfold logger. rewrite wp_modify. by apply Hdone.
Qed.

(** C5: an accepted payment is processed to an end.  When a submission is
    accepted and no worker has the lock of the id, its job is in the queue of the
    gateway, with [maxRetries + 1] attempts.  However many of its deliveries have
    failed to be retried, the next one, run by the worker, finds the accepted
    payment and completes it, dead-letters it or throws to be retried once more;
    a failure that leaves attempts changes nothing further, and after the last
    attempt the worker dead-letters the payment. *)
Theorem submitted_payment_processed (input : CreatePaymentInput) (r : PaymentRecord) (w w1 : world) :
  no_faults → typed (db_of w) → 0 ≤ workerPoolSize (queue config) → runtimes_wf w →
  (db_of w : gmap string (entry text)) !! lock_key (ci_id input) = None →
  ci_id input ∉ map job_id (bull_jobs (w_bull w) (gateway_queue (ci_gatewayId input))) →
  submit input w = (Ok (SubCreated r), w1) →
  ∃ job, job ∈ bull_jobs (w_bull w1) (gateway_queue (ci_gatewayId input)) ∧
    job_id job = ci_id input ∧ o_attempts (opts job) = maxRetries (payment r) + 1 ∧
    ∀ k w2, retried job k w1 w2 → ∃ r2 res w3,
      stored (db_of w2) (ci_id input) = Some r2 ∧ payment r2 = payment (json_norm r) ∧
      worker_run (delivered job k) w2 = (res, w3) ∧ job_case (delivered job k) r2 w2 res w3 ∧
      ∀ e w4, res = Throw (EProcessing e) → idle w3 w4 →
        ∃ w5, worker_on_failed (delivered job (S k)) (EProcessing e) w4 = (Ok tt, w5) ∧
          failure_handled r2 (S k) (EProcessing e) w4 w5.
Proof.
  intros Hf Hd Hcfg Hwf Hlock Hnew Hrun. pose proof (submit_wp input w Hf Hd Hcfg Hwf) as Hcase.
  unfold wp in Hcase. rewrite Hrun in Hcase. cbn [fst snd] in Hcase.
  inversion Hcase as [w' r' _ Hsub (rec&e&Hst&_&Hh) (d&_&Hadd)| | | |]; subst.
  pose proof (submission_ready _ _ _ _ _ _ _ Hsub Hst Hh Hlock) as Hready.
  destruct (sm_record _ _ _ _ _ Hsub) as (t&_&Hr).
  set (job := payment_job (submit_job r d)) in *.
  assert (Hid : id (payment r) = ci_id input) by (by rewrite Hr).
  assert (Hpid : jd_paymentId (payment_data (data job)) = ci_id input) by exact Hid.
  rewrite <-Hpid in Hready. exists job. split.
  { destruct Hadd as [-> _]. rewrite bool_decide_false; [|by rewrite <-Hid in Hnew].
    apply elem_of_app. right. by left. }
  split; [done|]. split; [done|]. intros k w2 Hret.
  destruct (retried_stays_ready _ _ _ _ _ Hf Hready Hret) as (r2&Hr2&Hp2).
  destruct (wp_run _ _ _ (worker_run_case_wp (delivered job k) r2 w2 Hf Hr2)) as (res&w3&He&Hjob&Hl).
  exists r2, res, w3. split; [rewrite <-Hpid; apply Hr2|]. split_and!; [done..|].
  intros err w4 -> Hi. destruct (retried_ready (delivered job k) _ _ _ _ Hr2 Hjob Hl) as (r3&Hr3&Hp3&Hst3).
  unfold idle in Hi. rewrite <-Hi in Hr3.
  assert (Hm : maxRetries (payment r3) = maxRetries (payment r2) ∧ id (payment r3) = id (payment r2))
    by (by rewrite Hp3).
  destruct (wp_run _ _ _ (worker_on_failed_wp job r3 (S k) (EProcessing err) w4 Hf Hr3 Hst3
    ltac:(by rewrite (proj1 Hm), Hp2))) as (o&w5&He5&->&Hh5).
  exists w5. split; [done|]. unfold failure_handled in *. by rewrite <-(proj1 Hm), <-(proj2 Hm).
Qed.
End Submissions.

(** ** The properties on the concrete platform *)
#[local] Existing Instance calm.

Definition demo_create (id : string) : CreatePaymentInput :=
  {| ci_id := id; ci_amount := 4200; ci_currency := "USD"; ci_customerId := "cus_1";
     ci_gatewayId := "stripe"; ci_priority := Some High; ci_maxRetries := Some 3;
     ci_metadata := Some []; ci_scheduledAt := None; ci_delayMs := Some 250;
     ci_correlationId := Some "corr_1" |}.

Definition created {S} (r : outcome exn SubmitPaymentResult * S) : bool :=
  match r.1 with Ok (SubCreated _) => true | _ => false end.

(** The stale-lease recovery can break the lease of a submission that is still
    running.  A submission of p1 claims the lease; before it stores the payment, a
    second submission of p1 finds a record in progress without a payment, releases
    it, claims and completes; the first then goes on.  Both are answered as newly
    created and the audit log has two submissions; the queue still has one job. *)
Theorem submit_race_both_created :
  let w1 := (claim_recovering "p1" (boot ∅)).2 in
  let second := submit (demo_create "p1") w1 in
  let first := submit_new (demo_create "p1") (Some "corr_1") second.2 in
  (claim_recovering "p1" (boot ∅)).1 = Ok ClaimNew ∧ created second = true ∧ created first = true ∧
  map ae_type (audit_of (calm_db first.2) "p1") = [A_payment_submitted; A_payment_submitted] ∧
  map job_id (bull_jobs (w_bull first.2) (gateway_queue "stripe")) = ["p1"].
Proof. intros w1 second first. split_and!; vm_compute; reflexivity. Qed.

Lemma pool_configured : 0 ≤ workerPoolSize (queue config).
Proof. vm_compute. discriminate. Qed.

Lemma submit_cases_witness :
  ∃ r w', submit (demo_create "p1") (boot ∅) = (Ok (SubCreated r), w') ∧
    submit_case (demo_create "p1") (boot ∅) (Ok (SubCreated r)) w'.
Proof.
  destruct (@submit_cases calm calm_laws (demo_create "p1") (boot ∅) calm_no_faults (boot_typed ∅)
    pool_configured (boot_runtimes ∅)) as (o&w'&He&Hc).
  assert (Hr : created (submit (demo_create "p1") (boot ∅)) = true) by (vm_compute; reflexivity).
  rewrite He in Hr. destruct o as [[r|r]|e|]; [|discriminate Hr..]. exists r, w'. split; [exact He|exact Hc].
Defined.

Definition submitted : world := (submit (demo_create "p1") (boot ∅)).2.

Lemma submitted_typed : typed (calm_db submitted).
Proof. apply typed_after; [frame|apply boot_typed]. Qed.

Lemma submitted_runtimes : runtimes_wf submitted.
Proof.
  apply wf_kept_run; [|apply boot_runtimes]. frame.
Qed.

Lemma submitted_payment_processed_witness :
  ∃ r job res w2, job ∈ bull_jobs (w_bull submitted) (gateway_queue "stripe") ∧
    worker_run (delivered job 0) submitted = (res, w2) ∧
    job_case (delivered job 0) r submitted res w2.
Proof.
  assert (Hr : ∃ r, (submit (demo_create "p1") (boot ∅)).1 = Ok (SubCreated r))
    by (eexists; vm_compute; reflexivity).
  destruct Hr as [r Hr].
  destruct (@submitted_payment_processed calm calm_laws (demo_create "p1") r (boot ∅) submitted
    calm_no_faults (boot_typed ∅) pool_configured (boot_runtimes ∅) eq_refl
    ltac:(apply not_elem_of_nil) (run_pair _ _ _ Hr)) as (job&Hj&_&_&Hlife).
  destruct (Hlife 0%nat submitted (retried_none job _ _ eq_refl)) as (r2&res&w2&_&_&He&Hc&_).
  exists r2, job, res, w2. split; [exact Hj|]. split; [exact He|exact Hc].
Defined.

Lemma submit_duplicate_refused_witness :
  ∃ o w', submit (demo_create "p1") submitted = (o, w') ∧
    o = Throw (EConflict "payment is already being processed" "p1" "queued") ∧
    unchanged submitted w'.
Proof.
  assert (Hr : ∃ r, stored (calm_db submitted) "p1" = Some r ∧ PAYMENT_STATUSES (status r) = "queued")
    by (eexists; split; [vm_compute; reflexivity|reflexivity]).
  destruct Hr as (r&Hs&Hst).
  assert (Hh : ∃ rec e, holds (idempotency_key "p1") (@stringify doc _ _ rec) e (calm_db submitted) ∧
    state rec = PROCESSING ∧ rt_now (w_rt (submit (demo_create "p1") submitted).2) < e).
  { eexists {| ir_paymentId := "p1" |}, _. split; [vm_compute; reflexivity|]. split; vm_compute; reflexivity. }
  destruct Hh as (rec&e&Hh&Hrec&Hlt).
  destruct (@submit_duplicate_refused calm calm_laws (demo_create "p1") r rec e submitted
    calm_no_faults submitted_typed pool_configured submitted_runtimes Hs Hh) as (o&w'&He&Hc).
  rewrite He in Hlt. destruct (Hc Hlt) as (Hu&Ho&_). exists o, w'. split; [exact He|].
  split; [|exact Hu]. rewrite <-Hst. exact (Ho Hrec).
Defined.
