(* ===== verification/Metrics.v ===== *)
(** * Metrics ([src/src/metrics/metrics-collector.service.ts], [metrics.gateway.ts])

    The rolling window of attempts, the snapshot computed from it, the alerts
    raised and cleared against thresholds, and the messages sent to sockets. *)

From stdpp Require Import sorting.
From Stdlib Require Import SpecFloat.
From S2P Require Import Prelude Num JsValue Errors Payment TokenBucket CircuitBreaker EventBus.
From S2P Require Import Json Redis Gateway Config Bull World Registries Stores Sim QueueManager.

(** ** [Number.prototype.toFixed]

    [to_fixed digits x]: the integer nearest to [x * 10^digits], the larger one
    of two, printed with a decimal point. *)
Class JsFixed (N : Type) := to_fixed : nat → N → string.
#[global] Hint Mode JsFixed ! : typeclass_instances.

(** Of the nonnegative rational [p/q]; the numbers printed are below 10^21. *)
Definition fixed_ratio (digits : nat) (p q : Z) : string :=
  let scale := 10 ^ Z.of_nat digits in
  let n := (2 * p * scale + q) / (2 * q) in
  pretty (n / scale) +:+ match digits with O => "" | _ => "." +:+ pad digits (n mod scale) end.

#[export] Instance binary64_fixed : JsFixed binary64 := λ digits x,
  match x with
  | S754_nan => "NaN"
  | S754_infinity s => if s then "-Infinity" else "Infinity"
  | S754_zero _ => fixed_ratio digits 0 1
  | S754_finite s m e =>
      (if s then "-" else "") +:+
      if 0 <=? e then fixed_ratio digits (Z.pos m * 2 ^ e) 1 else fixed_ratio digits (Z.pos m) (2 ^ (- e))
  end.

Example to_fixed_ex :
  to_fixed 1 (nmul (nlit 1 8) (nof 100) : binary64) = "12.5" ∧ to_fixed 1 (nlit 1 20 : binary64) = "0.1" ∧
  to_fixed 0 (nof 1234 : binary64) = "1234".
Proof. vm_compute. done. Qed.

(** ** Percentiles *)
Definition percentile {N} `{!JsNum N} (sorted : list Z) (p : N) : option Z :=
  let n := Z.of_nat (length sorted) in
  if n =? 0 then None
  else
    let index := Z.min (n - 1) (Z.max 0 (nceil (nmul p (nof n)) - 1)) in
    sorted !! Z.to_nat index.

Record AttemptSample := { t_ : Z; as_gatewayId : string; as_ok : bool; as_durationMs : Z }.

Record MetricsSnapshot (N : Type) := {
  timestamp : Z;
  ms_windowSeconds : Z;
  tps : Z;
  errorRate : N;
  attempts_ok : Z;
  attempts_failed : Z;
  attempts_total : Z;
  p95Ms : option Z;
  p99Ms : option Z;
  queueDepths : list QueueDepths * QueueDepths;
  snapshot_alerts : list (MetricsAlertPayload N)
}.
Arguments timestamp {N} _.
Arguments ms_windowSeconds {N} _.
Arguments tps {N} _.
Arguments errorRate {N} _.
Arguments attempts_ok {N} _.
Arguments attempts_failed {N} _.
Arguments attempts_total {N} _.
Arguments p95Ms {N} _.
Arguments p99Ms {N} _.
Arguments queueDepths {N} _.
Arguments snapshot_alerts {N} _.

(** The collector: the samples oldest first, the active alerts in the order they
    were raised, the time each id was last notified. *)
Record MetricsCollector (N : Type) := {
  samples : list AttemptSample;
  alerts : list (string * MetricsAlertPayload N);
  lastRaisedAt : gmap string Z
}.
Arguments samples {N} _.
Arguments alerts {N} _.
Arguments lastRaisedAt {N} _.

Definition new_collector {N} : MetricsCollector N := {| samples := []; alerts := []; lastRaisedAt := ∅ |}.

(** ** The map of alerts *)
Section Alerts.
Context {N : Type}.
Implicit Types (l : list (string * MetricsAlertPayload N)).

Fixpoint alert_get (id : string) l : option (MetricsAlertPayload N) :=
  match l with
  | [] => None
  | (k, a) :: l => if bool_decide (k = id) then Some a else alert_get id l
  end.

Fixpoint alert_set (id : string) (a : MetricsAlertPayload N) l : list (string * MetricsAlertPayload N) :=
  match l with
  | [] => [(id, a)]
  | (k, b) :: l => if bool_decide (k = id) then (k, a) :: l else (k, b) :: alert_set id a l
  end.

Definition alert_delete (id : string) l : list (string * MetricsAlertPayload N) :=
  filter (λ ka, ka.1 ≠ id) l.

(** [this.alerts.has(id)] *)
Definition has_alert (id : string) l : bool := match alert_get id l with Some _ => true | None => false end.
End Alerts.

(** The last argument of [evaluate]. *)
Record AlertSpec (N : Type) := {
  sp_severity : AlertSeverity;
  sp_message : string;
  sp_value : option N;
  sp_threshold : option N
}.
Arguments sp_severity {N} _.
Arguments sp_message {N} _.
Arguments sp_value {N} _.
Arguments sp_threshold {N} _.

Section Collector.
Context `{Platform} `{!JsFixed num}.
#[local] Notation C := (M exn (world * MetricsCollector num)) (only parsing).

(** A call that does not see the collector, and an update of the collector. *)
Definition outside {A} (m : M exn world A) : C A := zoom fst (λ w s, (w, s.2)) m.
Definition upd_collector (f : MetricsCollector num → MetricsCollector num) : C unit :=
  modify (λ s, (s.1, f s.2)).

Definition set_samples (l : list AttemptSample) (c : MetricsCollector num) : MetricsCollector num :=
  {| samples := l; alerts := alerts c; lastRaisedAt := lastRaisedAt c |}.
Definition set_alerts (l : list (string * MetricsAlertPayload num)) (c : MetricsCollector num)
    : MetricsCollector num :=
  {| samples := samples c; alerts := l; lastRaisedAt := lastRaisedAt c |}.
Definition set_last (id : string) (t : Z) (c : MetricsCollector num) : MetricsCollector num :=
  {| samples := samples c; alerts := alerts c;
     lastRaisedAt := <[id := t]> (lastRaisedAt c : gmap string Z) |}.

(** ** Recording *)
Definition MAX_SAMPLES : nat := Z.to_nat 10000.

(** [while (samples.length > 0 && samples[0].t < cutoff) samples.shift()] *)
Fixpoint shift_old (cutoff : Z) (l : list AttemptSample) : list AttemptSample :=
  match l with
  | [] => []
  | s :: rest => if t_ s <? cutoff then shift_old cutoff rest else l
  end.

(** [if (samples.length > 10_000) samples.splice(0, samples.length - 10_000)] *)
Definition splice_old (l : list AttemptSample) : list AttemptSample :=
  if (MAX_SAMPLES <? length l)%nat then drop (length l - MAX_SAMPLES) l else l.

Definition recordAttempt (gatewayId : string) (ok : bool) (durationMs : Z) : C unit :=
  t ← outside date_now;
  now ← outside date_now;
  let cutoff := now - windowSeconds (metrics config) * 1000 in
  upd_collector (λ c, set_samples (splice_old (shift_old cutoff (samples c ++
    [{| t_ := t; as_gatewayId := gatewayId; as_ok := ok; as_durationMs := durationMs |}]))) c).

(** ** The snapshot *)
Definition in_window (cutoff : Z) (l : list AttemptSample) : list AttemptSample :=
  filter (λ s, cutoff ≤ t_ s) l.
Definition count_ok (l : list AttemptSample) : Z := Z.of_nat (length (filter (λ s, as_ok s = true) l)).
(** [durations.sort((a, b) => a - b)] *)
Definition durations (l : list AttemptSample) : list Z := merge_sort Z.le (map as_durationMs l).

(** [inWindow] and the alerts are read before and after the depths. *)
Definition snapshot : C (MetricsSnapshot num) :=
  now ← outside date_now;
  all ← gets (λ s, samples s.2);
  let cutoff := now - windowSeconds (metrics config) * 1000 in
  let inWindow := in_window cutoff all in
  let ok := count_ok inWindow in
  let total := Z.of_nat (length inWindow) in
  let failed := total - ok in
  let ds := durations inWindow in
  let recentSecond := Z.of_nat (length (in_window (now - 1000) inWindow)) in
  depths ← outside collectQueueDepths;
  active ← gets (λ s, map snd (alerts s.2));
  mret {| timestamp := now; ms_windowSeconds := windowSeconds (metrics config); tps := recentSecond;
          errorRate := if total =? 0 then nof 0 else ndiv (nof failed) (nof total);
          attempts_ok := ok; attempts_failed := failed; attempts_total := total;
          p95Ms := percentile ds (nlit 95 100 : num); p99Ms := percentile ds (nlit 99 100 : num);
          queueDepths := depths; snapshot_alerts := active |}.

(** ** Alerts *)
Definition evaluate (id : string) (condition : bool) (spec : AlertSpec num) : C unit :=
  now ← outside date_now;
  if condition then
    c ← gets snd;
    let lastRaised := default 0 ((lastRaisedAt c : gmap string Z) !! id) in
    match alert_get id (alerts c) with
    | None =>
        let alert := {| al_id := id; al_severity := sp_severity spec; al_message := sp_message spec;
                        al_value := sp_value spec; al_threshold := sp_threshold spec;
                        al_raisedAt := now |} in
        upd_collector (λ c, set_last id now (set_alerts (alert_set id alert (alerts c)) c));;
        outside (emit_event (EvAlert alert now))
    | Some alert =>
        if alertCooldownMs (metrics config) <=? now - lastRaised then
          upd_collector (set_last id now);;
          outside (emit_event (EvAlert alert now))
        else mret tt
    end
  else mret tt.

Definition depth_alert_id (gatewayId : string) : string := "queue_depth_high:" +:+ gatewayId.
Definition circuit_alert_id (gatewayId : string) : string := "circuit_open:" +:+ gatewayId.

(** The conditions, as both halves of [refresh] state them. *)
Definition error_rate_high (s : MetricsSnapshot num) : bool :=
  nlt (errorRateAlert (metrics config)) (errorRate s).
Definition p95_latency_high (s : MetricsSnapshot num) : bool :=
  match p95Ms s with Some p => p95LatencyAlertMs (metrics config) <? p | None => false end.
Definition depth_high (g : QueueDepths) : bool := queueDepthAlert (metrics config) <? waiting g.

Definition percent (x : num) : string := to_fixed 1 (nmul x (nof 100)).

Fixpoint evaluate_depths (gateways : list QueueDepths) : C unit :=
  match gateways with
  | [] => mret tt
  | g :: gateways =>
      evaluate (depth_alert_id (qd_gatewayId g)) (depth_high g)
        {| sp_severity := Warning_;
           sp_message := "gateway " +:+ qd_gatewayId g +:+ " waiting depth " +:+ pretty (waiting g) +:+
             " exceeds threshold " +:+ pretty (queueDepthAlert (metrics config));
           sp_value := Some (nof (waiting g));
           sp_threshold := Some (nof (queueDepthAlert (metrics config))) |};;
      evaluate_depths gateways
  end.

(** Whether an alert of [refresh] still holds; the others stay. *)
Definition still_active (s : MetricsSnapshot num) (id : string) : bool :=
  if bool_decide (id = "error_rate_high") then error_rate_high s
  else if bool_decide (id = "p95_latency_high") then p95_latency_high s
  else if String.prefix "queue_depth_high:" id then
    let gatewayId := String.substring 17 (String.length id - 17) id in
    queueDepthAlert (metrics config) <?
      match list_find (λ g, qd_gatewayId g = gatewayId) (queueDepths s).1 with
      | Some (_, g) => waiting g
      | None => 0
      end
  else true.

(** [for (const id of this.alerts.keys()) { ...; if (!stillActive) this.alerts.delete(id) }] *)
Definition clear_alerts (s : MetricsSnapshot num) : C unit :=
  upd_collector (λ c, set_alerts (filter (λ ka, still_active s ka.1 = true) (alerts c)) c).

(** The logger of the class: no correlation id. *)
Definition collector_logger (message context : string) : C unit :=
  outside (modify (λ w, set_w_logs (w_logs w ++ [{| level := L_error; log_message := message;
    log_context := context |}]) w)).

Definition refresh_alerts (s : MetricsSnapshot num) : C unit :=
  evaluate "error_rate_high" (error_rate_high s)
    {| sp_severity := Critical;
       sp_message := "error rate " +:+ percent (errorRate s) +:+ "% exceeds threshold " +:+
         percent (errorRateAlert (metrics config)) +:+ "%";
       sp_value := Some (errorRate s); sp_threshold := Some (errorRateAlert (metrics config)) |};;
  evaluate "p95_latency_high" (p95_latency_high s)
    {| sp_severity := Warning_;
       sp_message := "P95 latency " +:+
         match p95Ms s with Some p => to_fixed 0 (nof p : num) | None => "undefined" end +:+
         "ms exceeds threshold " +:+ pretty (p95LatencyAlertMs (metrics config)) +:+ "ms";
       sp_value := nof <$> p95Ms s;
       sp_threshold := Some (nof (p95LatencyAlertMs (metrics config))) |};;
  evaluate_depths (queueDepths s).1;;
  clear_alerts s.

Definition refresh : C (MetricsSnapshot num) :=
  catch (s ← snapshot; refresh_alerts s;; mret s)
    (λ err, collector_logger "metrics refresh failed" (error_message err);; throw err).

Definition setCircuitAlert (gatewayId : string) (open : bool) : C unit :=
  let id := circuit_alert_id gatewayId in
  if open then
    evaluate id true
      {| sp_severity := Critical; sp_message := "circuit breaker OPEN for gateway " +:+ gatewayId;
         sp_value := None; sp_threshold := None |}
  else upd_collector (λ c, set_alerts (alert_delete id (alerts c)) c).

(** [void this.refresh().catch(() => undefined)] *)
Definition safeRefresh : C unit := catch (refresh;; mret tt) (λ _, mret tt).

(** The listeners [onModuleInit] subscribes.  A refresh they start runs in the
    background; here it runs to its end before the next event. *)
Definition collector_on (e : AppEvent num) : C unit :=
  match e with
  | EvJobCompleted _ gatewayId ok durationMs _ => recordAttempt gatewayId ok durationMs;; safeRefresh
  | EvPayment Ev_queued _ _ _ _ _ _ => safeRefresh
  | EvCircuit opened gatewayId _ => setCircuitAlert gatewayId opened
  | _ => mret tt
  end.
End Collector.

(** ** The socket gateway ([src/src/metrics/metrics.gateway.ts]) *)
Inductive SocketMessage (N : Type) :=
  | PaymentEvent (type : PaymentEventType) (paymentId : string) (gatewayId : option string)
      (status : option PaymentStatus) (at' : Z) (detail : option (list (string * jsval)))
  | PaymentFlow (paymentId gatewayId : string) (phase : SagaPhase) (ok : bool) (at' : Z)
  | AlertRaised (alert : MetricsAlertPayload N)
  | Snapshot (s : MetricsSnapshot N).
Arguments PaymentEvent {N} _ _ _ _ _ _.
Arguments PaymentFlow {N} _ _ _ _ _.
Arguments AlertRaised {N} _.
Arguments Snapshot {N} _.

(** The channel of [server.emit]. *)
Definition channel {N} (m : SocketMessage N) : string :=
  match m with
  | PaymentEvent _ _ _ _ _ _ => "payment:event"
  | PaymentFlow _ _ _ _ _ => "payment:flow"
  | AlertRaised _ => "alert:raised"
  | Snapshot _ => "metrics:snapshot"
  end.

(** [broadcastPaymentEvent]: the correlation id is not sent. *)
Definition broadcastPaymentEvent {N} (e : AppEvent N) : list (SocketMessage N) :=
  match e with
  | EvPayment type paymentId gatewayId _ status at' detail =>
      [PaymentEvent type paymentId gatewayId status at' detail]
  | _ => []
  end.

(** The events [onModuleInit] subscribes to, in order. *)
Definition gateway_subscriptions : list string :=
  ["payment.queued"; "payment.processing"; "payment.completed"; "payment.failed";
   "payment.dead_lettered"; "saga.phase"; "metrics.alert"].

(** What the listener of an event sends, when the socket server is up. *)
Definition gateway_listener {N} (e : AppEvent N) : list (SocketMessage N) :=
  match e with
  | EvSagaPhase paymentId gatewayId phase ok at' => [PaymentFlow paymentId gatewayId phase ok at']
  | EvAlert alert _ => [AlertRaised alert]
  | e => broadcastPaymentEvent e
  end.

Definition gateway_on {N} (server : bool) (e : AppEvent N) : list (SocketMessage N) :=
  if bool_decide (event_type e ∈ gateway_subscriptions) then if server then gateway_listener e else []
  else [].

(** One tick of the broadcast timer. *)
Definition pushSnapshot `{Platform} `{!JsFixed num} (server : bool)
    : M exn (world * MetricsCollector num) (list (SocketMessage num)) :=
  if negb server then mret []
  else catch (s ← refresh; mret [Snapshot s])
    (λ err, outside (modify (λ w, set_w_logs (w_logs w ++ [{| level := L_error;
              log_message := "failed to broadcast metrics snapshot"; log_context := error_message err |}]) w));;
            mret []).

(** [GET /queues/metrics] *)
Definition metrics_endpoint `{Platform} `{!JsFixed num} :
    M exn (world * MetricsCollector num) (MetricsSnapshot num) := snapshot.

(** ** Samples *)
Section Samples.

(** Oldest first. *)
Definition by_time (l : list AttemptSample) : Prop := StronglySorted (λ a b, t_ a ≤ t_ b) l.

Lemma shift_old_filter cutoff l : by_time l → shift_old cutoff l = in_window cutoff l.
Proof.
  intros Hs. induction Hs as [|s l Hs IH Hall]; [done|]. cbn [shift_old].
  destruct (Z.ltb_spec (t_ s) cutoff) as [Hlt|Hge].
  - unfold in_window. rewrite filter_cons_False by lia. exact IH.
  - symmetry. apply filter_all_id. intros x Hx. apply elem_of_cons in Hx as [->|Hx]; [done|].
    rewrite Forall_forall in Hall. specialize (Hall x Hx). lia.
Qed.

Lemma by_time_snoc l s : by_time l → (∀ x, x ∈ l → t_ x ≤ t_ s) → by_time (l ++ [s]).
Proof.
  intros Hs Hl. induction Hs as [|x l Hs IH Hall]; [by repeat constructor|]. cbn. constructor.
  - apply IH. intros y Hy. apply Hl. by right.
  - apply Forall_app. split; [done|]. constructor; [|done]. apply Hl. by left.
Qed.

Lemma by_time_drop n l : by_time l → by_time (drop n l).
Proof. intros Hs. revert n. induction Hs as [|s l Hs IH Hall]; intros [|n]; cbn; try by constructor. apply IH. Qed.

Lemma by_time_filter cutoff l : by_time l → by_time (in_window cutoff l).
Proof.
  unfold in_window. intros Hs. induction Hs as [|s l Hs IH Hall]; [constructor|].
  rewrite filter_cons. case_decide; [|done]. constructor; [done|].
  rewrite Forall_forall in Hall |- *. intros x Hx. apply Hall. apply list_elem_of_filter in Hx. apply Hx.
Qed.

Lemma splice_old_spec l :
  (length (splice_old l) = Nat.min MAX_SAMPLES (length l))%nat ∧ ∃ k, splice_old l = drop k l.
Proof.
  unfold splice_old. destruct (Nat.ltb_spec MAX_SAMPLES (length l)).
  - split; [|by eexists]. rewrite length_drop. lia.
  - split; [lia|by exists 0%nat].
Qed.
End Samples.

(** ** Nearest ranks *)
Section Ranks.

Definition count_le (x : Z) (l : list Z) : nat := length (filter (λ y, y ≤ x) l).
Definition count_lt (x : Z) (l : list Z) : nat := length (filter (λ y, y < x) l).

(** [x] is the [k]-th smallest element of [l], counted from one. *)
Definition nearest_rank (k : Z) (l : list Z) (x : Z) : Prop :=
  x ∈ l ∧ k ≤ Z.of_nat (count_le x l) ∧ Z.of_nat (count_lt x l) < k.

Lemma sorted_lookup_le (l : list Z) i j x y :
  StronglySorted Z.le l → (i ≤ j)%nat → l !! i = Some x → l !! j = Some y → x ≤ y.
Proof.
  intros Hs. revert i j. induction Hs as [|a l Hs IH Hall]; intros i j Hij; [done|].
  destruct i as [|i], j as [|j]; cbn; intros Hx Hy; try lia.
  - injection Hx as <-. injection Hy as <-. lia.
  - injection Hx as <-. rewrite Forall_forall in Hall. eapply Hall, list_elem_of_lookup_2, Hy.
  - eapply IH; [|done..]. lia.
Qed.

Lemma filter_none (P : Z → Prop) `{!∀ x, Decision (P x)} l : (∀ x, x ∈ l → ¬ P x) → filter P l = [].
Proof.
  induction l as [|x l IH]; intros Hl; [done|]. rewrite filter_cons_False by (apply Hl; by left).
  apply IH. intros y Hy. apply Hl. by right.
Qed.

Lemma sorted_rank (l : list Z) i x :
  StronglySorted Z.le l → l !! i = Some x → nearest_rank (Z.of_nat i + 1) l x.
Proof.
  intros Hs Hx. split; [by eapply list_elem_of_lookup_2|].
  assert (Hi : (i < length l)%nat) by (by eapply lookup_lt_Some). unfold count_le, count_lt. split.
  - rewrite <-(take_drop (S i) l) at 1. rewrite filter_app, length_app.
    rewrite (filter_all_id _ (take (S i) l)); [rewrite length_take; lia|].
    intros y (j&Hj&Hlt)%elem_of_take. eapply (sorted_lookup_le l j i); (done || lia).
  - rewrite <-(take_drop i l) at 1. rewrite filter_app, length_app.
    rewrite (filter_none _ (drop i l)).
    + pose proof (length_filter (λ y, y < x) (take i l)). rewrite length_take in *. cbn. lia.
    + intros y (j&Hj)%list_elem_of_lookup. rewrite lookup_drop in Hj.
      pose proof (sorted_lookup_le l i (i + j) x y Hs ltac:(lia) Hx Hj). lia.
Qed.

#[local] Instance Zle_total : Total Z.le.
Proof. intros x y. lia. Qed.

Lemma durations_sorted l : StronglySorted Z.le (durations l).
Proof. unfold durations. apply Sorted_StronglySorted; [apply _|]. apply Sorted_merge_sort, _. Qed.

Lemma durations_perm l : durations l ≡ₚ map as_durationMs l.
Proof. apply merge_sort_Permutation. Qed.

Lemma percentile_rank {N} `{!JsNum N} (l : list Z) (p : N) :
  StronglySorted Z.le l → l ≠ [] →
  let n := Z.of_nat (length l) in
  ∃ x, percentile l p = Some x ∧ nearest_rank (Z.min n (Z.max 1 (nceil (nmul p (nof n))))) l x.
Proof.
  intros Hs Hl n. unfold percentile. fold n. assert (Hn : 0 < n) by (destruct l; [done|cbn in n; lia]).
  rewrite (proj2 (Z.eqb_neq n 0)) by lia. set (c := nceil _).
  destruct (lookup_lt_is_Some_2 l (Z.to_nat (Z.min (n - 1) (Z.max 0 (c - 1))))) as [x Hx]; [lia|].
  exists x. split; [done|]. replace (Z.min n (Z.max 1 c)) with
    (Z.of_nat (Z.to_nat (Z.min (n - 1) (Z.max 0 (c - 1)))) + 1) by lia. by apply sorted_rank.
Qed.

(** The product of the source is computed with rounding errors; up to a thousand
    attempts in the window its ceiling is the exact one. *)
Definition ranks_exact (percent : Z) : bool :=
  let p := nlit percent 100 : binary64 in
  forallb (λ n, nceil (nmul p (nof n)) =? (percent * n + 99) / 100) (seqZ 0 1001).

Lemma rank_exact percent n : percent = 95 ∨ percent = 99 → 0 ≤ n ≤ 1000 →
  nceil (nmul (nlit percent 100) (nof n) : binary64) = (percent * n + 99) / 100.
Proof.
  intros Hp Hn. assert (Hall : ranks_exact percent = true) by (by destruct Hp as [-> | ->]; vm_compute).
  unfold ranks_exact in Hall. cbv zeta in Hall. rewrite forallb_forall in Hall. apply Z.eqb_eq, Hall.
  apply list_elem_of_In, elem_of_seqZ. lia.
Qed.

(** The percentiles of a snapshot are exact nearest ranks.  Of a nonempty
    sorted list of at most a thousand durations, [percentile] at 0.95 (0.99) is an
    element with at least [ceil (0.95 n)] elements below or equal and fewer than
    that below it, although the index is computed with doubles; of an empty list
    there is none. *)
Theorem percentile_nearest_rank (l : list Z) (percent : Z) :
  StronglySorted Z.le l → percent = 95 ∨ percent = 99 → (length l ≤ 1000)%nat →
  match percentile l (nlit percent 100 : binary64) with
  | Some x => nearest_rank ((percent * Z.of_nat (length l) + 99) / 100) l x
  | None => l = []
  end.
Proof.
  intros Hs Hp Hl. destruct (decide (l = [])) as [->|Hne]; [done|].
  destruct (percentile_rank l (nlit percent 100 : binary64) Hs Hne) as (x&->&Hx).
  assert (0 < Z.of_nat (length l)) by (destruct l; [done|cbn; lia]).
  rewrite rank_exact in Hx by lia || done. rewrite Z.max_r, Z.min_r in Hx; [done|..].
  - apply Z.lt_succ_r, Z.div_lt_upper_bound; lia.
  - apply Z.div_le_lower_bound; lia.
Qed.
End Ranks.

(** ** The rolling window *)
Section Window.
Context `{Platform} `{!JsFixed num}.
Implicit Types (c : MetricsCollector num) (w : world).

Lemma wp_outside {A} (m : M exn world A) (Q : outcome exn A → world * MetricsCollector num → Prop) w c :
  wp m (λ o w', Q o (w', c)) w → wp (outside m) Q (w, c).
Proof. intros HQ. unfold outside. by rewrite wp_zoom. Qed.

Definition newest (n : nat) (l : list AttemptSample) : list AttemptSample := drop (length l - n) l.

Lemma splice_old_newest l : splice_old l = newest MAX_SAMPLES l.
Proof.
  unfold splice_old, newest. destruct (Nat.ltb_spec MAX_SAMPLES (length l)); [done|].
  by replace (length l - MAX_SAMPLES)%nat with 0%nat by lia.
Qed.

(** At time [now] the samples are in the order of time, not in the future, and
    at most [MAX_SAMPLES]. *)
Record buffer_ok (now : Z) (l : list AttemptSample) : Prop := {
  bf_sorted : by_time l;
  bf_past x : x ∈ l → t_ x ≤ now;
  bf_bound : (length l ≤ MAX_SAMPLES)%nat
}.

Lemma buffer_ok_newest now l : by_time l → (∀ x, x ∈ l → t_ x ≤ now) → buffer_ok now (newest MAX_SAMPLES l).
Proof.
  intros Hs Hp. split; [by apply by_time_drop| |unfold newest; rewrite length_drop; lia].
  intros x Hx. apply Hp. rewrite <-(take_drop (length l - MAX_SAMPLES) l). apply elem_of_app. by right.
Qed.

(** The rolling window is what it is meant to be.  Recording an attempt leaves
    exactly the newest 10 000 of the samples that are not older than
    [windowSeconds], the new one included: the loop that shifts old samples off
    the front and the splice are equivalent to filtering the whole buffer.  The
    buffer stays ordered and bounded, and nothing else of the collector changes. *)
Theorem recordAttempt_window (g : string) (ok : bool) (d : Z) w c :
  buffer_ok (rt_now (w_rt w)) (samples c) →
  ∃ t w', let now := rt_now (w_rt w') in
    let s := {| t_ := t; as_gatewayId := g; as_ok := ok; as_durationMs := d |} in
    let l := newest MAX_SAMPLES (in_window (now - windowSeconds (metrics config) * 1000) (samples c ++ [s])) in
    recordAttempt g ok d (w, c) = (Ok tt, (w', set_samples l c)) ∧
    rt_now (w_rt w) ≤ t ≤ now ∧ buffer_ok now l.
Proof.
  intros [Hs Hp Hb]. cbv zeta. unfold recordAttempt.
  cut (wp (recordAttempt g ok d) (λ o sc, ∃ t, let now := rt_now (w_rt sc.1) in
    let s := {| t_ := t; as_gatewayId := g; as_ok := ok; as_durationMs := d |} in
    let l := newest MAX_SAMPLES (in_window (now - windowSeconds (metrics config) * 1000) (samples c ++ [s])) in
    o = Ok tt ∧ sc.2 = set_samples l c ∧ rt_now (w_rt w) ≤ t ≤ now ∧ buffer_ok now l) (w, c)).
  { intros Hwp. destruct (wp_run _ _ _ Hwp) as (o&[w' c']&He&t&->&Hc&Ht&Hbuf). cbn in *. subst c'.
    exists t, w'. split; [exact He|done]. }
  unfold recordAttempt. rewrite wp_bind. apply wp_outside, wp_date_now. intros rt1 Hrt1.
  rewrite wp_bind. apply wp_outside, wp_date_now. intros rt2 Hrt2. cbn in Hrt2.
  unfold upd_collector. rewrite wp_modify. exists (rt_now rt1). cbn [fst snd w_rt set_w_rt].
  set (s := {| t_ := rt_now rt1 |}).
  assert (Hs' : by_time (samples c ++ [s])).
  { apply by_time_snoc; [done|]. intros x Hx. specialize (Hp x Hx). cbn. lia. }
  assert (Hp' : ∀ x, x ∈ samples c ++ [s] → t_ x ≤ rt_now rt2).
  { intros x [Hx|Hx%list_elem_of_singleton]%elem_of_app; [specialize (Hp x Hx); lia|by subst x]. }
  split; [done|]. rewrite splice_old_newest, shift_old_filter by done. split; [done|]. split; [lia|].
  apply buffer_ok_newest; [by apply by_time_filter|].
  intros x [_ Hx]%list_elem_of_filter. by apply Hp'.
Qed.
End Window.

(** ** Alerts *)
Section AlertLemmas.
Context {N : Type}.
Implicit Types (l : list (string * MetricsAlertPayload N)).

Lemma has_alert_set id id' a l :
  has_alert id (alert_set id' a l) = has_alert id l || bool_decide (id = id').
Proof.
  unfold has_alert. induction l as [|[k b] l IH]; cbn.
  - repeat case_bool_decide; subst; done || congruence.
  - destruct (decide (k = id')) as [->|Hk]; cbn.
    + rewrite (bool_decide_true (id' = id')) by done. cbn. destruct (decide (id' = id)) as [->|Hid].
      * by rewrite bool_decide_true.
      * rewrite (bool_decide_false (id' = id)), (bool_decide_false (id = id')) by congruence.
        by rewrite orb_false_r.
    + rewrite (bool_decide_false (k = id')) by done. cbn. destruct (bool_decide (k = id)); [done|exact IH].
Qed.

Lemma alert_get_filter (P : string → bool) id l :
  alert_get id (filter (λ ka, P ka.1 = true) l) = if P id then alert_get id l else None.
Proof.
  induction l as [|[k b] l IH]; [by destruct (P id)|]. rewrite filter_cons. cbn [alert_get fst].
  destruct (decide (k = id)) as [->|Hid].
  - rewrite (bool_decide_true (id = id)) by done. case_decide as HP.
    + cbn. by rewrite bool_decide_true, HP.
    + rewrite IH. by destruct (P id).
  - rewrite (bool_decide_false (k = id)) by done.
    case_decide; [cbn; rewrite bool_decide_false by done|]; exact IH.
Qed.

Lemma has_alert_filter P id l :
  has_alert id (filter (λ ka, P ka.1 = true) l) = has_alert id l && P id.
Proof. unfold has_alert. rewrite alert_get_filter. by destruct (P id), (alert_get id l). Qed.

Lemma has_alert_delete id id' l : has_alert id (alert_delete id' l) = has_alert id l && negb (bool_decide (id = id')).
Proof.
  rewrite <-(has_alert_filter (λ k, negb (bool_decide (k = id'))) id l). unfold alert_delete. f_equal.
  apply list_filter_iff. intros [k a]. cbn. by rewrite negb_true_iff, bool_decide_eq_false.
Qed.
End AlertLemmas.

Section Alerting.
Context `{Platform} `{!JsFixed num}.
Implicit Types (c : MetricsCollector num) (w : world) (s : MetricsSnapshot num).

Lemma evaluate_wp id cond spec w c :
  wp (evaluate id cond spec) (λ o wc, o = Ok tt ∧ samples wc.2 = samples c ∧
    ∀ id', has_alert id' (alerts wc.2) = has_alert id' (alerts c) || (cond && bool_decide (id' = id))) (w, c).
Proof.
  unfold evaluate. rewrite wp_bind. apply wp_outside, wp_date_now. intros rt _.
  destruct cond; [|rewrite wp_ret; by setoid_rewrite orb_false_r]. rewrite wp_bind, wp_gets. cbn [snd].
  assert (Hhas : ∀ a, alert_get id (alerts c) = Some a → ∀ id',
    has_alert id' (alerts c) = has_alert id' (alerts c) || bool_decide (id' = id)).
  { intros a Ha id'. case_bool_decide; [subst|by rewrite orb_false_r]. unfold has_alert. by rewrite Ha. }
  destruct (alert_get id (alerts c)) as [a|] eqn:Ha.
  - destruct (_ <=? _); [|rewrite wp_ret; split_and!; [done..|by eapply Hhas]].
    rewrite wp_bind. unfold upd_collector. rewrite wp_modify. apply wp_outside. split_and!; [done..|].
    by eapply Hhas.
  - rewrite wp_bind. unfold upd_collector. rewrite wp_modify. apply wp_outside. split_and!; [done..|].
    intros id'. apply has_alert_set.
Qed.

Lemma evaluate_depths_wp gs w c :
  wp (evaluate_depths gs) (λ o wc, o = Ok tt ∧ samples wc.2 = samples c ∧
    ∀ id', has_alert id' (alerts wc.2) = has_alert id' (alerts c) ||
      existsb (λ g, depth_high g && bool_decide (id' = depth_alert_id (qd_gatewayId g))) gs) (w, c).
Proof.
  revert w c. induction gs as [|g gs IH]; intros w c; cbn [evaluate_depths existsb].
  { rewrite wp_ret. split_and!; [done..|]. intros id'. by rewrite orb_false_r. }
  rewrite wp_bind. eapply wp_mono; [|apply evaluate_wp]. intros o [w1 c1] (->&Hs&Ha). cbn [snd] in *.
  eapply wp_mono; [|apply IH]. intros o [w2 c2] (->&Hs2&Ha2). cbn [snd] in *.
  split; [done|]. split; [congruence|]. intros id'. by rewrite Ha2, Ha, orb_assoc.
Qed.

(** An alert [refresh] raises. *)
Definition raised s (id : string) : bool :=
  error_rate_high s && bool_decide (id = "error_rate_high") ||
  p95_latency_high s && bool_decide (id = "p95_latency_high") ||
  existsb (λ g, depth_high g && bool_decide (id = depth_alert_id (qd_gatewayId g))) (queueDepths s).1.

Lemma refresh_alerts_wp s w c :
  wp (refresh_alerts s) (λ o wc, o = Ok tt ∧ samples wc.2 = samples c ∧
    ∀ id, has_alert id (alerts wc.2) = (has_alert id (alerts c) || raised s id) && still_active s id) (w, c).
Proof.
  unfold refresh_alerts. rewrite wp_bind. eapply wp_mono; [|apply evaluate_wp].
  intros o [w1 c1] (->&Hs1&Ha1). rewrite wp_bind. eapply wp_mono; [|apply evaluate_wp].
  intros o [w2 c2] (->&Hs2&Ha2). rewrite wp_bind. eapply wp_mono; [|apply evaluate_depths_wp].
  intros o [w3 c3] (->&Hs3&Ha3). cbn [snd] in *. unfold clear_alerts, upd_collector. rewrite wp_modify.
  cbn [snd fst set_alerts samples alerts]. split; [done|]. split; [congruence|]. intros id.
  rewrite has_alert_filter, Ha3, Ha2, Ha1. unfold raised. by rewrite !orb_assoc.
Qed.

#[global] Instance gateway_depths_halts rs : Halts (gateway_depths rs).
Proof. induction rs as [|[k r] rs IH]; cbn [gateway_depths]; frame. Qed.
#[global] Instance dlqQueue_halts : Halts dlqQueue.
Proof. frame. Qed.
#[global] Instance collectQueueDepths_halts : Halts collectQueueDepths.
Proof. frame. Qed.

(** A snapshot reads the collector and leaves it alone. *)
Lemma snapshot_wp w c :
  wp snapshot (λ o wc, o ≠ Diverged ∧ wc.2 = c ∧
    ∀ s, o = Ok s → snapshot_alerts s = map snd (alerts c)) (w, c).
Proof.
  unfold snapshot. rewrite wp_bind. apply wp_outside, wp_date_now. intros rt _.
  rewrite wp_bind, wp_gets. cbv zeta. rewrite wp_bind. apply wp_outside.
  apply wp_halts; [apply _|]. unfold wp at 1.
  destruct (collectQueueDepths _) as [[d|e|] w1]; cbn [fst snd]; intros Ho; [|by split_and!|done].
  rewrite wp_bind, wp_gets, wp_ret. split_and!; [done..|]. by intros s [= <-].
Qed.

Lemma refresh_wp w c :
  wp refresh (λ o wc, match o with
    | Ok s => samples wc.2 = samples c ∧ snapshot_alerts s = map snd (alerts c) ∧
        ∀ id, has_alert id (alerts wc.2) = (has_alert id (alerts c) || raised s id) && still_active s id
    | Throw _ => wc.2 = c
    | Diverged => False
    end) (w, c).
Proof.
  unfold refresh. rewrite wp_catch, wp_bind. eapply wp_mono; [|apply snapshot_wp].
  intros [s|e|] [w1 c1] (Ho&Hc&Hs); [| |done]; cbn [snd] in Hc; subst c1.
  - rewrite wp_bind. eapply wp_mono; [|apply refresh_alerts_wp]. intros o [w2 c2] (->&Hs2&Ha).
    rewrite wp_ret. split; [done|]. split; [by apply Hs|done].
  - unfold collector_logger. rewrite wp_bind. apply wp_outside. rewrite wp_modify. by rewrite wp_throw.
Qed.

Lemma safeRefresh_wp w c :
  wp safeRefresh (λ o wc, o = Ok tt ∧ samples wc.2 = samples c ∧ (wc.2 = c ∨ ∃ s, ∀ id,
    has_alert id (alerts wc.2) = (has_alert id (alerts c) || raised s id) && still_active s id)) (w, c).
Proof.
  unfold safeRefresh. rewrite wp_catch, wp_bind. eapply wp_mono; [|apply refresh_wp].
  intros [s|e|] [w1 c1]; cbn [snd]; [intros (?&?&?)|intros ->|done]; rewrite wp_ret; eauto.
Qed.

(** Alerts of other kinds are not those of circuits or queues. *)
Lemma circuit_not_raised s g : raised s (circuit_alert_id g) = false.
Proof.
  unfold raised. rewrite !bool_decide_false, !andb_false_r by done. cbn.
  induction (queueDepths s).1 as [|d ds IH]; [done|]. cbn. by rewrite bool_decide_false, andb_false_r.
Qed.

Lemma circuit_ids g g' : bool_decide (circuit_alert_id g = circuit_alert_id g') = bool_decide (g' = g).
Proof. apply bool_decide_ext. split; [intros Heq; by injection Heq|by intros ->]. Qed.

Lemma circuit_still_active s g : still_active s (circuit_alert_id g) = true.
Proof. done. Qed.

Definition depth_condition s (g : string) : bool :=
  queueDepthAlert (metrics config) <?
    match list_find (λ d, qd_gatewayId d = g) (queueDepths s).1 with Some (_, d) => waiting d | None => 0 end.

Lemma depth_still_active s g : still_active s (depth_alert_id g) = depth_condition s g.
Proof.
  unfold still_active, depth_condition. rewrite !bool_decide_false by done.
  replace (String.prefix "queue_depth_high:" (depth_alert_id g)) with true by (by destruct g).
  replace (String.substring 17 (String.length (depth_alert_id g) - 17) (depth_alert_id g)) with g; [done|].
  symmetry. apply (substring_all _ g). change (String.length (depth_alert_id g)) with (17 + String.length g)%nat. lia.
Qed.

(** Raising and clearing agree. *)
Lemma depth_raised s g i d :
  list_find (λ d, qd_gatewayId d = g) (queueDepths s).1 = Some (i, d) →
  (raised s (depth_alert_id g) || negb (depth_high d)) = true.
Proof.
  intros (Hi&Hg&_)%list_find_Some. destruct (depth_high d) eqn:Hd; [|by rewrite orb_true_r].
  rewrite orb_false_r. unfold raised. apply orb_true_iff. right. apply existsb_exists. exists d.
  split; [apply list_elem_of_In; by eapply list_elem_of_lookup_2|]. rewrite Hd, Hg. by apply bool_decide_true.
Qed.

(** After a refresh that succeeds the active alerts are exactly the conditions
    that hold of the snapshot it returns: the error rate alert, the P95 alert and
    the alert of each gateway whose queue was sampled are active if and only if
    their threshold is exceeded, whatever was active before; alerts of circuits
    are left as they were.  A refresh that fails changes nothing. *)
Theorem refresh_alerts_exact (w : world) (c : MetricsCollector num) :
  match refresh (w, c) with
  | (Ok s, (_, c')) =>
      has_alert "error_rate_high" (alerts c') = error_rate_high s ∧
      has_alert "p95_latency_high" (alerts c') = p95_latency_high s ∧
      (∀ g i d, list_find (λ d, qd_gatewayId d = g) (queueDepths s).1 = Some (i, d) →
         has_alert (depth_alert_id g) (alerts c') = depth_high d) ∧
      (∀ g, has_alert (circuit_alert_id g) (alerts c') = has_alert (circuit_alert_id g) (alerts c)) ∧
      samples c' = samples c
  | (Throw _, (_, c')) => c' = c
  | (Diverged, _) => False
  end.
Proof.
  pose proof (refresh_wp w c) as Hwp. unfold wp in Hwp.
  destruct (refresh (w, c)) as [[s|e|] [w' c']]; cbn [fst snd] in *; [|done..].
  destruct Hwp as (Hs&_&Ha). split_and!; [| | | |done].
  - rewrite Ha. unfold still_active, raised. rewrite bool_decide_true by done.
    destruct (error_rate_high s); [by rewrite !orb_true_r|by rewrite andb_false_r].
  - rewrite Ha. unfold still_active, raised. rewrite bool_decide_false, bool_decide_true by done.
    destruct (p95_latency_high s); [by rewrite !orb_true_r|by rewrite andb_false_r].
  - intros g i d Hd. pose proof (depth_raised s g i d Hd) as Hr. rewrite Ha, depth_still_active.
    unfold depth_condition. rewrite Hd. fold (depth_high d).
    destruct (depth_high d); [|by rewrite andb_false_r]. rewrite orb_false_r in Hr. by rewrite Hr, orb_true_r.
  - intros g. rewrite Ha, circuit_not_raised, circuit_still_active. by rewrite orb_false_r, andb_true_r.
Qed.

(** The last thing the events say of the circuit of [g]. *)
Definition circuit_after (g : string) (events : list (AppEvent num)) (was : bool) : bool :=
  foldl (λ b e, match e with
                | EvCircuit opened g' _ => if bool_decide (g' = g) then opened else b
                | _ => b
                end) was events.

Fixpoint replay (events : list (AppEvent num)) : M exn (world * MetricsCollector num) unit :=
  match events with
  | [] => mret tt
  | e :: events => collector_on e;; replay events
  end.

Lemma recordAttempt_wp g ok d w c :
  wp (recordAttempt g ok d) (λ o wc, o = Ok tt ∧ alerts wc.2 = alerts c) (w, c).
Proof.
  unfold recordAttempt. rewrite wp_bind. apply wp_outside, wp_date_now. intros rt1 _.
  rewrite wp_bind. apply wp_outside, wp_date_now. intros rt2 _. by apply wp_modify.
Qed.

Lemma safeRefresh_circuits g w c :
  wp safeRefresh (λ o wc, o = Ok tt ∧
    has_alert (circuit_alert_id g) (alerts wc.2) = has_alert (circuit_alert_id g) (alerts c)) (w, c).
Proof.
  eapply wp_mono; [|apply safeRefresh_wp]. intros o wc (->&_&[-> |(s&Ha)]); [done|].
  by rewrite Ha, circuit_not_raised, circuit_still_active, orb_false_r, andb_true_r.
Qed.

Lemma collector_on_circuits e g w c :
  wp (collector_on e) (λ o wc, o = Ok tt ∧
    has_alert (circuit_alert_id g) (alerts wc.2) = circuit_after g [e] (has_alert (circuit_alert_id g) (alerts c))) (w, c).
Proof.
  unfold circuit_after. cbn [foldl].
  destruct e as [[]| | |opened g' t| | |]; cbn [collector_on]; try done; try apply safeRefresh_circuits.
  - rewrite wp_bind. eapply wp_mono; [|apply recordAttempt_wp]. intros o [w1 c1] (->&Hc). cbn [snd] in Hc.
    eapply wp_mono; [|apply safeRefresh_circuits]. cbn. intros o wc (->&->). by rewrite Hc.
  - unfold setCircuitAlert. destruct opened.
    + eapply wp_mono; [|apply evaluate_wp]. intros o wc (->&_&Ha). split; [done|]. rewrite Ha.
      cbn [andb]. rewrite circuit_ids. destruct (bool_decide (g' = g)); [by rewrite orb_true_r|by rewrite orb_false_r].
    + unfold upd_collector. rewrite wp_modify. split; [done|]. cbn [fst snd alerts set_alerts].
      rewrite has_alert_delete, circuit_ids.
      destruct (bool_decide (g' = g)); [by rewrite andb_false_r|by rewrite andb_true_r].
Qed.

(** The alert of a circuit tracks its breaker.  Whatever events the collector
    receives, and whatever refreshes they start, the alert of gateway [g] is active
    exactly when the last circuit event of [g] says it opened (or, without one,
    when it was active before); no listener throws. *)
Theorem circuit_alerts_track (events : list (AppEvent num)) (g : string) (w : world) (c : MetricsCollector num) :
  ∃ w' c', replay events (w, c) = (Ok tt, (w', c')) ∧
    has_alert (circuit_alert_id g) (alerts c') =
    circuit_after g events (has_alert (circuit_alert_id g) (alerts c)).
Proof.
  revert w c. induction events as [|e events IH]; intros w c; [by exists w, c|].
  destruct (wp_run _ _ _ (collector_on_circuits e g w c)) as (o&[w1 c1]&He&->&Hc). cbn [snd] in Hc.
  destruct (IH w1 c1) as (w2&c2&He2&Hc2). exists w2, c2. split; [|by rewrite Hc2, Hc].
  cbn [replay]. unfold mbind, M_bind. by rewrite He.
Qed.
End Alerting.

(** ** The properties on the concrete platform *)
#[local] Existing Instance calm.
#[local] Instance calm_fixed : JsFixed (@num calm) := binary64_fixed.

Lemma percentile_nearest_rank_witness :
  nearest_rank 4 [10; 20; 20; 400] 400 ∧ percentile [10; 20; 20; 400] (nlit 95 100 : binary64) = Some 400.
Proof.
  assert (Hs : StronglySorted Z.le [10; 20; 20; 400]) by (repeat constructor; lia).
  assert (Hx : percentile [10; 20; 20; 400] (nlit 95 100 : binary64) = Some 400) by (vm_compute; reflexivity).
  pose proof (percentile_nearest_rank [10; 20; 20; 400] 95 Hs (or_introl eq_refl) ltac:(cbn; lia)) as Hr.
  rewrite Hx in Hr. split; [exact Hr|exact Hx].
Defined.

Lemma recordAttempt_window_witness :
  ∃ w' c', recordAttempt "stripe" true 12 (boot ∅, new_collector) = (Ok tt, (w', c')) ∧
    map as_durationMs (samples c') = [12].
Proof.
  destruct (@recordAttempt_window calm "stripe" true 12 (boot ∅) new_collector) as (t&w'&He&_).
  - split; [constructor|intros x Hx; by apply not_elem_of_nil in Hx|cbn; lia].
  - eexists w', _. split; [exact He|].
    assert (Hr : map as_durationMs (samples (recordAttempt "stripe" true 12 (boot ∅, new_collector)).2.2) = [12])
      by (vm_compute; reflexivity).
    rewrite He in Hr. exact Hr.
Defined.

(** The cooldown does not survive an alert that is cleared: when its condition
    comes back at once, it is raised again at once. *)
Lemma alert_reraised_within_cooldown :
  let spec := {| sp_severity := Warning_; sp_message := "m"; sp_value := None; sp_threshold := None |} in
  let run := (evaluate "p95_latency_high" true spec;;
              upd_collector (λ c, set_alerts (alert_delete "p95_latency_high" (alerts c)) c);;
              evaluate "p95_latency_high" true spec) (boot ∅, new_collector) in
  length (w_events run.2.1) = 2%nat ∧
  rt_now (w_rt run.2.1) - rt_now (w_rt (boot ∅)) < alertCooldownMs (metrics config).
Proof. vm_compute. done. Qed.
