(* ===== verification/Geometry.v ===== *)
(** * Diagram geometry
      ([src/.agents/skills/archify/renderers/shared/geometry.mjs], the primitives)

    The geometry the diagram checks of the bundled archify tool are made of:
    rectangles, segments, their intersections, distances and overlaps.  The
    numbers are JavaScript numbers ([JsNum]); a point is the pair of its
    coordinates, a segment the pair of its ends. *)

From Stdlib Require Import QArith Qminmax Qabs Qround Lqa Qfield.
From stdpp Require Import pretty.
From S2P Require Import Prelude Num.
#[local] Open Scope Z_scope.

(** [Math.hypot], which the language leaves to the implementation to
    approximate, [Math.round] and [String(x)]. *)
Class JsMath (N : Type) := {
  nhypot : N → N → N;
  nround : N → N;
  nshow : N → string
}.
#[global] Hint Mode JsMath ! : typeclass_instances.

Section Primitives.
Context {N : Type} `{!JsNum N, !JsMath N}.
#[local] Open Scope js_scope.

Definition point : Type := N * N.
Definition segment : Type := point * point.

Record rect := { x_ : N; y_ : N; width : N; height : N }.

(** [Math.abs] *)
Definition nabs (x : N) : N := if x <? nof 0 then nof 0 - x else x.

(** [0.0001] and [0.0000001] *)
Definition epsilon : N := nlit 1 10000.
Definition tiny : N := nlit 1 10000000.

Definition isFinitePoint (coords : list N) : bool := forallb nfin coords.
Definition finite_point (p : point) : bool := isFinitePoint [p.1; p.2].
Definition finite_rect (r : rect) : bool := isFinitePoint [x_ r; y_ r; width r; height r].

Definition rectsOverlap (a b : rect) (gap : N) : bool :=
  if negb (isFinitePoint [x_ a; y_ a; width a; height a; x_ b; y_ b; width b; height b]) then false
  else negb ((x_ a + width a + gap <=? x_ b) || (x_ b + width b + gap <=? x_ a) ||
             (y_ a + height a + gap <=? y_ b) || (y_ b + height b + gap <=? y_ a)).

(** ** Orientation and intersection *)
Definition crossProduct (a b c : point) : N := (b.1 - a.1) * (c.2 - a.2) - (b.2 - a.2) * (c.1 - a.1).

Definition orientation (a b c : point) : Z :=
  let value := (b.2 - a.2) * (c.1 - b.1) - (b.1 - a.1) * (c.2 - b.2) in
  if nabs value <? epsilon then 0%Z else if value >? nof 0 then 1%Z else 2%Z.

Definition onSegment (a b c : point) : bool :=
  (b.1 <=? nmax a.1 c.1) && (b.1 >=? nmin a.1 c.1) && (b.2 <=? nmax a.2 c.2) && (b.2 >=? nmin a.2 c.2).

Definition segmentsIntersect (a b c d : point) : bool :=
  let o1 := orientation a b c in
  let o2 := orientation a b d in
  let o3 := orientation c d a in
  let o4 := orientation c d b in
  if Z.eqb o1 0 && onSegment a c b then true
  else if Z.eqb o2 0 && onSegment a d b then true
  else if Z.eqb o3 0 && onSegment c a d then true
  else if Z.eqb o4 0 && onSegment c b d then true
  else negb (Z.eqb o1 o2) && negb (Z.eqb o3 o4).

(** [pointInBox], the box given by two corners. *)
Definition pointInBox (p : point) (x1 y1 x2 y2 : N) : bool :=
  (p.1 >=? x1) && (p.1 <=? x2) && (p.2 >=? y1) && (p.2 <=? y2).

Definition segmentIntersectsRect (s : segment) (r : rect) (gap : N) : bool :=
  let x1 := x_ r - gap in
  let y1 := y_ r - gap in
  let x2 := x_ r + width r + gap in
  let y2 := y_ r + height r + gap in
  let '(a, b) := s in
  if pointInBox a x1 y1 x2 y2 || pointInBox b x1 y1 x2 y2 then true
  else segmentsIntersect a b (x1, y1) (x2, y1) || segmentsIntersect a b (x2, y1) (x2, y2) ||
       segmentsIntersect a b (x2, y2) (x1, y2) || segmentsIntersect a b (x1, y2) (x1, y1).

(** ** Distances *)
Definition pointRectDistance (p : point) (r : rect) : N :=
  let dx := nmax (nmax (x_ r - p.1) (nof 0)) (p.1 - (x_ r + width r)) in
  let dy := nmax (nmax (y_ r - p.2) (nof 0)) (p.2 - (y_ r + height r)) in
  nhypot dx dy.

Definition pointSegmentDistance (p start end_ : point) : N :=
  let dx := end_.1 - start.1 in
  let dy := end_.2 - start.2 in
  let lengthSquared := dx * dx + dy * dy in
  if lengthSquared <=? tiny then nhypot (p.1 - start.1) (p.2 - start.2)
  else
    let projection := nmax (nof 0) (nmin (nof 1)
      (((p.1 - start.1) * dx + (p.2 - start.2) * dy) / lengthSquared)) in
    nhypot (p.1 - (start.1 + projection * dx)) (p.2 - (start.2 + projection * dy)).

(** The guards both measures of a segment and a rectangle start with. *)
Definition measurable (s : segment) (r : rect) : bool :=
  isFinitePoint [s.1.1; s.1.2; s.2.1; s.2.2; x_ r; y_ r; width r; height r] &&
  negb ((width r <? nof 0) || (height r <? nof 0)).

Definition corners (r : rect) : list point :=
  [(x_ r, y_ r); (x_ r + width r, y_ r); (x_ r + width r, y_ r + height r); (x_ r, y_ r + height r)].

Definition segmentRectClearance (s : segment) (r : rect) : option N :=
  if negb (measurable s r) then None
  else if segmentIntersectsRect s r (nof 0) then Some (nof 0)
  else Some (foldl nmin (nmin (pointRectDistance s.1 r) (pointRectDistance s.2 r))
               (map (λ c, pointSegmentDistance c s.1 s.2) (corners r))).

(** The loop over the bounds: the parameters at which the segment enters and
    leaves, or [None] for an early return of zero. *)
Fixpoint clip (bounds : list (N * N)) (enter leave : N) : option (N * N) :=
  match bounds with
  | [] => Some (enter, leave)
  | (direction, distance) :: bounds =>
      if nabs direction <=? tiny then
        if distance <? nof 0 - tiny then None else clip bounds enter leave
      else
        let ratio := distance / direction in
        let enter := if direction <? nof 0 then nmax enter ratio else enter in
        let leave := if direction <? nof 0 then leave else nmin leave ratio in
        if enter >? leave + tiny then None else clip bounds enter leave
  end.

Definition segmentRectIntersectionLength (s : segment) (r : rect) : option N :=
  if negb (measurable s r) then None
  else
    let '(start, end_) := s in
    let dx := end_.1 - start.1 in
    let dy := end_.2 - start.2 in
    let length := nhypot dx dy in
    if length <=? tiny then Some (nof 0)
    else
      let bounds := [(nof 0 - dx, start.1 - x_ r); (dx, x_ r + width r - start.1);
                     (nof 0 - dy, start.2 - y_ r); (dy, y_ r + height r - start.2)] in
      match clip bounds (nof 0) (nof 1) with
      | None => Some (nof 0)
      | Some (enter, leave) => Some (length * nmax (nof 0) (leave - enter))
      end.

(** ** Crossings and overlaps of segments *)
Definition opposite (left right : N) : bool :=
  (left >? epsilon) && (right <? nof 0 - epsilon) || (left <? nof 0 - epsilon) && (right >? epsilon).

Definition properSegmentIntersection (a b c d : point) : option point :=
  if negb (opposite (crossProduct a b c) (crossProduct a b d)) ||
     negb (opposite (crossProduct c d a) (crossProduct c d b)) then None
  else
    let denominator := (a.1 - b.1) * (c.2 - d.2) - (a.2 - b.2) * (c.1 - d.1) in
    if nabs denominator <? epsilon then None
    else
      let ab := a.1 * b.2 - a.2 * b.1 in
      let cd := c.1 * d.2 - c.2 * d.1 in
      Some ((ab * (c.1 - d.1) - (a.1 - b.1) * cd) / denominator,
            (ab * (c.2 - d.2) - (a.2 - b.2) * cd) / denominator).

(** An overlap of two segments on a common horizontal or vertical line. *)
Record overlap := { ov_length : N; ov_start : point; ov_end : point }.

Definition axis (horizontal : bool) (p : point) : N := if horizontal then p.1 else p.2.
Definition place (horizontal : bool) (along fixed : N) : point :=
  if horizontal then (along, fixed) else (fixed, along).

Definition collinearAxisOverlap (a b c d : point) : option overlap :=
  let horizontal := (nabs (a.2 - b.2) <=? epsilon) && (nabs (c.2 - d.2) <=? epsilon) &&
                    (nabs (a.2 - c.2) <=? epsilon) in
  let vertical := (nabs (a.1 - b.1) <=? epsilon) && (nabs (c.1 - d.1) <=? epsilon) &&
                  (nabs (a.1 - c.1) <=? epsilon) in
  if negb horizontal && negb vertical then None
  else
    let ax := axis horizontal in
    let low := nmax (nmin (ax a) (ax b)) (nmin (ax c) (ax d)) in
    let high := nmin (nmax (ax a) (ax b)) (nmax (ax c) (ax d)) in
    if high - low <=? epsilon then None
    else
      let fixed := if horizontal then a.2 else a.1 in
      Some {| ov_length := high - low; ov_start := place horizontal low fixed;
              ov_end := place horizontal high fixed |}.

Definition collinearForward (a b c : point) : bool :=
  if nabs (crossProduct a b c) >? epsilon then false
  else (b.1 - a.1) * (c.1 - b.1) + (b.2 - a.2) * (c.2 - b.2) >=? nof 0 - epsilon.

Definition pointLiesOnSegment (p start end_ : point) : bool :=
  if negb (finite_point p && finite_point start && finite_point end_) then false
  else
    let length := nhypot (end_.1 - start.1) (end_.2 - start.2) in
    if length <=? epsilon then nhypot (p.1 - start.1) (p.2 - start.2) <=? epsilon
    else if nabs (crossProduct start end_ p) >? epsilon * length then false
    else (p.1 >=? nmin start.1 end_.1 - epsilon) && (p.1 <=? nmax start.1 end_.1 + epsilon) &&
         (p.2 >=? nmin start.2 end_.2 - epsilon) && (p.2 <=? nmax start.2 end_.2 + epsilon).

Definition segmentsContinueForward (firstStart firstEnd secondStart secondEnd : point) : bool :=
  if negb (forallb finite_point [firstStart; firstEnd; secondStart; secondEnd]) then false
  else if (nabs (firstEnd.1 - secondStart.1) >? epsilon) || (nabs (firstEnd.2 - secondStart.2) >? epsilon)
  then false
  else
    let first := (firstEnd.1 - firstStart.1, firstEnd.2 - firstStart.2) in
    let second := (secondEnd.1 - secondStart.1, secondEnd.2 - secondStart.2) in
    if (nhypot first.1 first.2 <=? epsilon) || (nhypot second.1 second.2 <=? epsilon) then false
    else if nabs (first.1 * second.2 - first.2 * second.1) >? epsilon then false
    else first.1 * second.1 + first.2 * second.2 >? epsilon.
End Primitives.
Arguments point : clear implicits.
Arguments segment : clear implicits.
Arguments rect : clear implicits.
Arguments overlap : clear implicits.

(** ** The rationals
    [nhypot] is the square root to nine decimals. *)
#[export] Instance Q_math : JsMath Q := {|
  nhypot a b := Qmake (Z.sqrt (Qfloor ((a * a + b * b) * inject_Z (10 ^ 18)))) (10 ^ 9);
  nround x := inject_Z (Qfloor (x + (1 # 2)));
  nshow x := pretty (Qfloor x)
|}.

(** The point at parameter [t] of a segment. *)
Definition along (s : segment Q) (t : Q) : point Q :=
  ((s.1.1 + t * (s.2.1 - s.1.1))%Q, (s.1.2 + t * (s.2.2 - s.1.2))%Q).

(** Points that denote the same pair of numbers. *)
Definition same_point (p q : point Q) : Prop := (p.1 == q.1)%Q ∧ (p.2 == q.2)%Q.

(** The open rectangle, [gap] larger on each side. *)
Definition strictly_inside (r : rect Q) (gap : Q) (p : point Q) : Prop :=
  (x_ r - gap < p.1 < x_ r + width r + gap ∧ y_ r - gap < p.2 < y_ r + height r + gap)%Q.

(** The closed rectangle, [gap] larger on each side. *)
Definition within (r : rect Q) (gap : Q) (p : point Q) : Prop :=
  (x_ r - gap <= p.1 <= x_ r + width r + gap ∧ y_ r - gap <= p.2 <= y_ r + height r + gap)%Q.

(** ** Comparisons as propositions *)
Lemma Q_nle_false (a b : Q) : nle a b = false ↔ (b < a)%Q.
Proof. rewrite <-not_true_iff_false, Q_nle. split; [apply Qnot_le_lt|apply Qlt_not_le]. Qed.
Lemma Q_nlt_false (a b : Q) : nlt a b = false ↔ (b <= a)%Q.
Proof. rewrite <-not_true_iff_false, Q_nlt. split; [apply Qnot_lt_le|apply Qle_not_lt]. Qed.

(** Turn every test of [Q] in the context or the goal into a proposition. *)
Ltac q_tests :=
  repeat match goal with
  | H : context [nle ?a ?b = true] |- _ => rewrite (Q_nle a b) in H
  | H : context [nlt ?a ?b = true] |- _ => rewrite (Q_nlt a b) in H
  | H : context [nle ?a ?b = false] |- _ => rewrite (Q_nle_false a b) in H
  | H : context [nlt ?a ?b = false] |- _ => rewrite (Q_nlt_false a b) in H
  | |- context [nle ?a ?b = true] => rewrite (Q_nle a b)
  | |- context [nlt ?a ?b = true] => rewrite (Q_nlt a b)
  | |- context [nle ?a ?b = false] => rewrite (Q_nle_false a b)
  | |- context [nlt ?a ?b = false] => rewrite (Q_nlt_false a b)
  end.
Ltac q_ops := change (@nadd Q Q_num) with Qplus in *; change (@nsub Q Q_num) with Qminus in *;
  change (@nmul Q Q_num) with Qmult in *; change (@ndiv Q Q_num) with Qdiv in *;
  change (@nof Q Q_num) with inject_Z in *;
  change (inject_Z 0) with 0%Q in *; change (inject_Z 1) with 1%Q in *; change (inject_Z 2) with 2%Q in *.

Lemma nabs_cases (x : Q) : ((0 <= x)%Q ∧ nabs x = x) ∨ ((x < 0)%Q ∧ nabs x = (0 - x)%Q).
Proof. unfold nabs. destruct (nlt x (nof 0)) eqn:H; q_tests; q_ops; [right|left]; done. Qed.

(** ** Proper intersections *)

(** The ends of [q] lie on opposite sides of the line of [s], each with a cross
    product beyond [epsilon]. *)
Definition separates (s q : segment Q) : Prop :=
  (epsilon < crossProduct s.1 s.2 q.1 ∧ crossProduct s.1 s.2 q.2 < 0 - epsilon)%Q ∨
  (crossProduct s.1 s.2 q.1 < 0 - epsilon ∧ epsilon < crossProduct s.1 s.2 q.2)%Q.

Lemma epsilon_Q : (epsilon == 1 # 10000)%Q.
Proof. reflexivity. Qed.

Lemma opposite_spec (l r : Q) :
  opposite l r = true ↔ (epsilon < l ∧ r < 0 - epsilon)%Q ∨ (l < 0 - epsilon ∧ epsilon < r)%Q.
Proof. unfold opposite. rewrite orb_true_iff, !andb_true_iff. q_tests. reflexivity. Qed.

(** The crossing's parameters, from the cross products [m1], [m2] of one pair and
    their difference [D]. *)
Lemma separated_parameter (m1 m2 D : Q) : (D == m1 - m2)%Q →
  (epsilon < m1 ∧ m2 < 0 - epsilon)%Q ∨ (m1 < 0 - epsilon ∧ epsilon < m2)%Q →
  (epsilon <= nabs D)%Q ∧ ¬ (D == 0)%Q ∧ (0 < m1 / D < 1)%Q.
Proof.
  intros HD H. rewrite epsilon_Q in *. destruct H as [[H1 H2]|[H1 H2]].
  - assert (0 < D)%Q by lra. destruct (nabs_cases D) as [[? ->]|[? _]]; [|lra].
    split_and!; [lra|lra|apply Qlt_shift_div_l; lra|apply Qlt_shift_div_r; lra].
  - assert (D < 0)%Q by lra. destruct (nabs_cases D) as [[? _]|[? ->]]; [lra|].
    assert (Heq : (m1 / D == (- m1) / (- D))%Q) by (field; lra). rewrite Heq.
    split_and!; [lra|lra|apply Qlt_shift_div_l; lra|apply Qlt_shift_div_r; lra].
Qed.

(** [properSegmentIntersection] reports a crossing exactly when each segment
    separates the ends of the other beyond [epsilon], and then the point it
    reports lies strictly inside both segments: its own test of the denominator
    never hides a crossing. *)
Lemma properSegmentIntersection_exact (a b c d : point Q) :
  match properSegmentIntersection a b c d with
  | Some p => separates (a, b) (c, d) ∧ separates (c, d) (a, b) ∧
      ∃ t s, (0 < t < 1 ∧ 0 < s < 1)%Q ∧ same_point p (along (a, b) t) ∧ same_point p (along (c, d) s)
  | None => ¬ (separates (a, b) (c, d) ∧ separates (c, d) (a, b))
  end.
Proof.
  unfold properSegmentIntersection, separates. cbn [fst snd].
  destruct (opposite (crossProduct a b c) _) eqn:H1, (opposite (crossProduct c d a) _) eqn:H2;
    cbn [negb orb]; try (rewrite <-!opposite_spec; rewrite H1, H2; intuition congruence).
  rewrite opposite_spec in H1, H2.
  set (D := ((a.1 - b.1) * (c.2 - d.2) - (a.2 - b.2) * (c.1 - d.1))%js).
  destruct (separated_parameter (crossProduct c d a) (crossProduct c d b) D) as (Hd&HD&Ht);
    [unfold D, crossProduct; q_ops; ring|done|].
  assert (Hs : (0 < (- crossProduct a b c) / D < 1)%Q).
  { assert (Heq : (- crossProduct a b c / D == crossProduct a b c / (- D))%Q) by (field; done).
    rewrite Heq. apply (separated_parameter _ (crossProduct a b d) (- D)%Q); [|done].
    unfold D, crossProduct. q_ops. ring. }
  rewrite (proj2 (Q_nlt_false _ _) Hd). split_and!; [done|done|].
  exists (crossProduct c d a / D)%Q, (- crossProduct a b c / D)%Q. split; [done|].
  unfold same_point, along, crossProduct. cbn [fst snd].
  unfold D in *. clear D. q_ops. split; split; field; exact HD.
Qed.

(** ** Rectangles *)

(** Two intervals with interiors meet in their interiors exactly when neither
    starts after the other ends. *)
Lemma open_intervals_meet (l1 h1 l2 h2 : Q) : (l1 < h1)%Q → (l2 < h2)%Q →
  (l1 < h2 ∧ l2 < h1)%Q ↔ ∃ x, (l1 < x < h1 ∧ l2 < x < h2)%Q.
Proof.
  intros Hb1 Hb2. split; [|intros (x&?&?); lra]. intros [H1 H2].
  exists ((Qmax l1 l2 + Qmin h1 h2) * (1 # 2))%Q.
  destruct (Q.max_spec l1 l2) as [[? E1]|[? E1]], (Q.min_spec h1 h2) as [[? E2]|[? E2]];
    rewrite E1, E2; lra.
Qed.

(** Two rectangles of positive size overlap within [gap] exactly when the
    interior of the first, enlarged by [gap] on each side, meets the interior of
    the second; rectangles that only touch at that distance do not. *)
Theorem rectsOverlap_exact (a b : rect Q) (gap : Q) :
  (0 < width a)%Q → (0 < height a)%Q → (0 < width b)%Q → (0 < height b)%Q → (0 <= gap)%Q →
  rectsOverlap a b gap = true ↔ ∃ p, strictly_inside a gap p ∧ strictly_inside b 0 p.
Proof.
  intros Hwa Hha Hwb Hhb Hg.
  pose proof (open_intervals_meet (x_ a - gap) (x_ a + width a + gap) (x_ b - 0) (x_ b + width b + 0))
    as Hx.
  pose proof (open_intervals_meet (y_ a - gap) (y_ a + height a + gap) (y_ b - 0) (y_ b + height b + 0))
    as Hy.
  unfold rectsOverlap. cbn [isFinitePoint forallb nfin Q_num andb negb].
  rewrite negb_true_iff, !orb_false_iff. q_tests. q_ops. unfold strictly_inside.
  split.
  - intros [[[? ?] ?] ?]. destruct (proj1 (Hx ltac:(lra) ltac:(lra)) ltac:(lra)) as (px&?&?).
    destruct (proj1 (Hy ltac:(lra) ltac:(lra)) ltac:(lra)) as (py&?&?).
    exists (px, py). cbn [fst snd]. auto.
  - intros (p&[? ?]&[? ?]). lra.
Qed.

Lemma rectsOverlap_exact_witness :
  let a := {| x_ := 0; y_ := 0; width := 10; height := 10 |}%Q in
  let b := {| x_ := 11; y_ := 5; width := 10; height := 10 |}%Q in
  rectsOverlap a b 2%Q = true ∧ ∃ p, strictly_inside a 2%Q p ∧ strictly_inside b 0%Q p.
Proof.
  intros a b. split; [reflexivity|].
  apply (rectsOverlap_exact a b 2%Q); reflexivity || discriminate.
Defined.

(** [orientation] is the sign of a cross product, zero within [epsilon]. *)
Definition turn (v : Q) : Z :=
  if nlt (nabs v) epsilon then 0 else if nlt (nof 0) v then 1 else 2.

Lemma turn_differs (v w : Q) :
  (0 <= v ∧ w <= 0 ∧ 1 <= v - w)%Q ∨ (v <= 0 ∧ 0 <= w ∧ 1 <= w - v)%Q → turn v ≠ turn w.
Proof.
  intros H. unfold turn.
  pose proof epsilon_Q. pose proof (nabs_cases v). pose proof (nabs_cases w).
  destruct (nabs v <? epsilon)%js eqn:?, (nabs w <? epsilon)%js eqn:?, (v >? nof 0)%js eqn:?,
    (w >? nof 0)%js eqn:?; q_tests; q_ops; try done; exfalso; clear - H H0 H1 H2 Heqb Heqb0 Heqb1 Heqb2;
    destruct H1 as [[? E1]|[? E1]], H2 as [[? E2]|[? E2]]; rewrite ?E1, ?E2 in *; lra.
Qed.

(** Segments whose ends are on different sides of each other meet. *)
Lemma segmentsIntersect_straddle (a b c d : point Q) :
  orientation a b c ≠ orientation a b d → orientation c d a ≠ orientation c d b →
  segmentsIntersect a b c d = true.
Proof.
  intros H1 H2. unfold segmentsIntersect.
  rewrite (proj2 (Z.eqb_neq _ _) H1), (proj2 (Z.eqb_neq _ _) H2).
  repeat match goal with |- context [if ?x then _ else _] => destruct x end; done.
Qed.

(** A segment along an axis. *)
Definition axis_parallel (s : segment Q) : Prop := (s.1.1 == s.2.1)%Q ∨ (s.1.2 == s.2.2)%Q.

(** Products of a side of at least one pixel with a run of at least one pixel. *)
Lemma product_ge_1 (a b : Q) : (1 <= a)%Q → (1 <= b)%Q → (1 <= a * b)%Q.
Proof. intros. nra. Qed.

Section Crosses.
Context (X1 Y1 X2 Y2 : Q) (HX : (1 <= X2 - X1)%Q) (HY : (1 <= Y2 - Y1)%Q).

(** A horizontal segment through the box, from one side to the other, straddles
    its right side; a vertical one its top side. *)
Lemma crosses_right (a b : point Q) : (a.2 == b.2)%Q → (Y1 <= a.2 <= Y2)%Q →
  (a.1 < X1 ∧ X2 < b.1)%Q ∨ (b.1 < X1 ∧ X2 < a.1)%Q →
  segmentsIntersect a b (X2, Y1) (X2, Y2) = true.
Proof using HX HY.
  intros Hab Hy H. apply segmentsIntersect_straddle; apply turn_differs; cbn [fst snd]; q_ops;
    destruct H as [[? ?]|[? ?]]; rewrite ?Hab in *.
  - left. assert (1 <= (b.1 - a.1) * (Y2 - Y1))%Q by (apply product_ge_1; lra). nra.
  - right. assert (1 <= (a.1 - b.1) * (Y2 - Y1))%Q by (apply product_ge_1; lra). nra.
  - right. assert (1 <= (b.1 - a.1) * (Y2 - Y1))%Q by (apply product_ge_1; lra). nra.
  - left. assert (1 <= (a.1 - b.1) * (Y2 - Y1))%Q by (apply product_ge_1; lra). nra.
Qed.

Lemma crosses_top (a b : point Q) : (a.1 == b.1)%Q → (X1 <= a.1 <= X2)%Q →
  (a.2 < Y1 ∧ Y2 < b.2)%Q ∨ (b.2 < Y1 ∧ Y2 < a.2)%Q →
  segmentsIntersect a b (X1, Y1) (X2, Y1) = true.
Proof using HX HY.
  intros Hab Hx H. apply segmentsIntersect_straddle; apply turn_differs; cbn [fst snd]; q_ops;
    destruct H as [[? ?]|[? ?]]; rewrite ?Hab in *.
  - right. assert (1 <= (b.2 - a.2) * (X2 - X1))%Q by (apply product_ge_1; lra). nra.
  - left. assert (1 <= (a.2 - b.2) * (X2 - X1))%Q by (apply product_ge_1; lra). nra.
  - left. assert (1 <= (b.2 - a.2) * (X2 - X1))%Q by (apply product_ge_1; lra). nra.
  - right. assert (1 <= (a.2 - b.2) * (X2 - X1))%Q by (apply product_ge_1; lra). nra.
Qed.
End Crosses.

Lemma along_between (a b t : Q) : (0 <= t <= 1)%Q →
  (a <= a + t * (b - a) <= b)%Q ∨ (b <= a + t * (b - a) <= a)%Q.
Proof.
  intros Ht. destruct (Qlt_le_dec a b); [left|right].
  - assert (0 <= t * (b - a))%Q by nra. assert (0 <= (1 - t) * (b - a))%Q by nra. lra.
  - assert (0 <= t * (a - b))%Q by nra. assert (0 <= (1 - t) * (a - b))%Q by nra. lra.
Qed.

(** Outside an interval that a point between holds, two numbers are on the two sides. *)
Lemma straddles (a b l h t : Q) : (0 <= t <= 1)%Q → (l <= a + t * (b - a) <= h)%Q →
  ¬ (l <= a <= h)%Q → ¬ (l <= b <= h)%Q → (a < l ∧ h < b)%Q ∨ (b < l ∧ h < a)%Q.
Proof.
  intros Ht Hp Ha Hb. pose proof (along_between a b t Ht).
  set (p := (a + t * (b - a))%Q) in *. clearbody p.
  destruct (Qlt_le_dec a l), (Qlt_le_dec b l); [exfalso; lra|left|right|].
  - split; [done|]. apply Qnot_le_lt. intros ?. apply Hb. lra.
  - split; [done|]. apply Qnot_le_lt. intros ?. apply Ha. lra.
  - exfalso. destruct (Qlt_le_dec h a); [|apply Ha; lra]. destruct (Qlt_le_dec h b); [lra|apply Hb; lra].
Qed.

Lemma pointInBox_spec (p : point Q) (x1 y1 x2 y2 : Q) :
  pointInBox p x1 y1 x2 y2 = true ↔ (x1 <= p.1 <= x2 ∧ y1 <= p.2 <= y2)%Q.
Proof. unfold pointInBox. rewrite !andb_true_iff. q_tests. intuition. Qed.

(** The test of a segment against a box misses no horizontal or vertical
    segment: one with a point in the box, enlarged by [gap] on each side, is
    reported when the enlarged box is at least a pixel wide and high.  (The
    tolerance of [orientation] could hide it only in a thinner box.) *)
Lemma segmentIntersectsRect_complete (s : segment Q) (r : rect Q) (gap t : Q) :
  axis_parallel s → (1 <= width r + 2 * gap)%Q → (1 <= height r + 2 * gap)%Q →
  (0 <= t <= 1)%Q → within r gap (along s t) → segmentIntersectsRect s r gap = true.
Proof.
  destruct s as [a b]. unfold axis_parallel, within, along, segmentIntersectsRect. cbn [fst snd]. q_ops.
  intros Hs Hw Hh Ht [Hx Hy].
  set (X1 := (x_ r - gap)%Q) in *. set (Y1 := (y_ r - gap)%Q) in *.
  set (X2 := (x_ r + width r + gap)%Q) in *. set (Y2 := (y_ r + height r + gap)%Q) in *.
  assert (HX : (1 <= X2 - X1)%Q) by (unfold X1, X2; lra).
  assert (HY : (1 <= Y2 - Y1)%Q) by (unfold Y1, Y2; lra).
  destruct (pointInBox a X1 Y1 X2 Y2) eqn:Ha; [done|].
  destruct (pointInBox b X1 Y1 X2 Y2) eqn:Hb; [done|]. cbn [orb].
  apply not_true_iff_false in Ha, Hb. rewrite pointInBox_spec in Ha, Hb. clearbody X1 X2 Y1 Y2.
  destruct Hs as [Hs|Hs].
  - rewrite (crosses_top X1 Y1 X2 Y2 HX HY a b Hs); [done|rewrite <-Hs in Hx; lra|].
    rewrite <-Hs in Hx, Hb. apply (straddles _ _ _ _ t Ht Hy); intros ?; [apply Ha|apply Hb]; lra.
  - rewrite (crosses_right X1 Y1 X2 Y2 HX HY a b Hs); [by rewrite !orb_true_r|rewrite <-Hs in Hy; lra|].
    rewrite <-Hs in Hy, Hb. apply (straddles _ _ _ _ t Ht Hx); intros ?; [apply Ha|apply Hb]; lra.
Qed.
