(* ===== verification/Routes.v ===== *)
(** * Routes of diagram relationships
      ([src/.agents/skills/archify/renderers/shared/geometry.mjs], the analyses)

    A route is the list of its points: its normal form, its segments, the sides
    it leaves and enters, its cramped segments and its budget.  The collisions
    between routes are in [Analyses]. *)

From Stdlib Require Import QArith Qminmax Qabs Lqa.
From stdpp Require Import sorting.
From S2P Require Import Prelude Num Geometry.
#[local] Open Scope Z_scope.

(** A relationship of a diagram, with its authored routing.  [rel_ref] is its
    identity as an object. *)
Record relation (N : Type) := {
  rel_ref : nat;
  rel_key : option string;
  rel_id : option string;
  rel_from : string;
  rel_to : string;
  rel_label : option string;
  rel_fromSide : option string;
  rel_toSide : option string;
  rel_route : option string;
  rel_via : bool;
  rel_channelX : bool;
  rel_channelY : bool;
  labelAt : option (point N);
  labelDx : option N;
  labelDy : option N;
  labelSegment : option Z
}.
Arguments rel_ref {N} _.
Arguments rel_key {N} _.
Arguments rel_id {N} _.
Arguments rel_from {N} _.
Arguments rel_to {N} _.
Arguments rel_label {N} _.
Arguments rel_fromSide {N} _.
Arguments rel_toSide {N} _.
Arguments rel_route {N} _.
Arguments rel_via {N} _.
Arguments rel_channelX {N} _.
Arguments rel_channelY {N} _.
Arguments labelAt {N} _.
Arguments labelDx {N} _.
Arguments labelDy {N} _.
Arguments labelSegment {N} _.

(** An entry of [routedRelations]: the relationship, its index in the diagram,
    the points of its route, and the segments when the caller gives them. *)
Record routed (N : Type) := {
  ro_relation : option (relation N);
  ro_index : option Z;
  ro_points : list (point N);
  ro_segments : option (list (segment N))
}.
Arguments ro_relation {N} _.
Arguments ro_index {N} _.
Arguments ro_points {N} _.
Arguments ro_segments {N} _.

(** [Number.isInteger(entry.relationIndex) ? entry.relationIndex : fallbackIndex] *)
Definition index_or (fallback : nat) (o : option Z) : Z := default (Z.of_nat fallback) o.

(** [value || ''] *)
Definition text_or_empty (o : option string) : string := default "" o.
Definition nonempty (o : option string) : bool := match o with Some "" | None => false | _ => true end.

Section Routes.
Context {N : Type} `{!JsNum N, !JsMath N}.
#[local] Open Scope js_scope.
#[local] Notation point := (point N) (only parsing).
Implicit Types (p : point) (ps : list point).

(** ** Normal form *)

(** The points after the first that are not within [epsilon] of the one kept
    before them. *)
Fixpoint dedup_after (previous : point) ps : list point :=
  match ps with
  | [] => []
  | p :: ps =>
      if (nabs (p.1 - previous.1) >? epsilon) || (nabs (p.2 - previous.2) >? epsilon)
      then p :: dedup_after p ps
      else dedup_after previous ps
  end.
Definition dedup ps : list point := match ps with [] => [] | p :: ps => p :: dedup_after p ps end.

(** [while (normalized.length >= 2 && collinearForward(at(-2), at(-1), point))
    normalized.pop()], the list being kept last point first. *)
Fixpoint pop_forward (kept : list point) p : list point :=
  match kept with
  | b :: (a :: _) as rest => if collinearForward a b p then pop_forward rest p else kept
  | _ => kept
  end.
Fixpoint normalize_from (kept : list point) ps : list point :=
  match ps with
  | [] => reverse kept
  | p :: ps => normalize_from (p :: pop_forward kept p) ps
  end.

Definition normalizeRoutePoints ps : list point :=
  normalize_from [] (dedup (filter (λ p, finite_point p = true) ps)).

(** The segments of a route, in order. *)
Fixpoint segments_of ps : list (segment N) :=
  match ps with
  | a :: (b :: _) as rest => (a, b) :: segments_of rest
  | _ => []
  end.

Inductive position := SourceStub | TargetStub | Interior.

Definition segmentPosition (index segmentCount : nat) : position :=
  if (index =? 0)%nat then SourceStub
  else if (index =? segmentCount - 1)%nat then TargetStub
  else Interior.

(** [Math.abs(dx) + Math.abs(dy)] of a segment. *)
Definition manhattan (s : segment N) : N := nabs (s.2.1 - s.1.1) + nabs (s.2.2 - s.1.2).

(** ** Analysis segments *)
Record analysis_segment := {
  an_start : point; an_end : point; an_index : nat; sourceSegments : list (point * point * nat)
}.

(** The segments in order, the current one last in [acc] (kept first). *)
Fixpoint forward_segments (acc : list analysis_segment) (index : nat) (ss : list (segment N))
    : list analysis_segment :=
  match ss with
  | [] => reverse acc
  | (start, end_) :: ss =>
      let fresh := {| an_start := start; an_end := end_; an_index := index;
                      sourceSegments := [(start, end_, index)] |} in
      match acc with
      | previous :: before =>
          if segmentsContinueForward (an_start previous) (an_end previous) start end_ then
            forward_segments ({| an_start := an_start previous; an_end := end_;
                an_index := an_index previous;
                sourceSegments := sourceSegments previous ++ [(start, end_, index)] |} :: before)
              (S index) ss
          else forward_segments (fresh :: acc) (S index) ss
      | [] => forward_segments [fresh] (S index) ss
      end
  end.
Definition forwardCollinearAnalysisSegments ps : list analysis_segment :=
  forward_segments [] 0 (segments_of ps).

Definition authoredAnalysisSegments ps : list analysis_segment :=
  imap (λ i s, {| an_start := s.1; an_end := s.2; an_index := i; sourceSegments := [(s.1, s.2, i)] |})
    (segments_of ps).

Definition sourceSegmentIndexAtPoint (s : analysis_segment) p : nat :=
  match list_find (λ x, pointLiesOnSegment p x.1.1 x.1.2 = true) (sourceSegments s) with
  | Some (_, (_, _, i)) => i
  | None => an_index s
  end.

(** ** Endpoint sides *)
Inductive side := SideLeft | SideRight | SideTop | SideBottom.
Inductive endpoint := Source | Target.

Definition parse_side (s : string) : option side :=
  if bool_decide (s = "left") then Some SideLeft
  else if bool_decide (s = "right") then Some SideRight
  else if bool_decide (s = "top") then Some SideTop
  else if bool_decide (s = "bottom") then Some SideBottom
  else None.

(** [ENDPOINT_SIDE_RULES]: the axis and the signs. *)
Definition side_horizontal (s : side) : bool := match s with SideLeft | SideRight => true | _ => false end.
Definition side_sign (s : side) (e : endpoint) : Z :=
  match s, e with
  | SideLeft, Source | SideTop, Source | SideRight, Target | SideBottom, Target => -1
  | _, _ => 1
  end.
Definition side_direction (s : side) (e : endpoint) : string :=
  match s, e with
  | SideLeft, Source => "leftward" | SideLeft, Target => "rightward from the left"
  | SideRight, Source => "rightward" | SideRight, Target => "leftward from the right"
  | SideTop, Source => "upward" | SideTop, Target => "downward from above"
  | SideBottom, Source => "downward" | SideBottom, Target => "upward from below"
  end.

Record side_issue := {
  is_endpoint : endpoint; is_side : side; is_segment : nat; is_start : point; is_end : point
}.

Definition endpointSideIssue ps (e : endpoint) (side_ : string) : option side_issue :=
  match parse_side side_ with
  | None => None
  | Some s =>
      let segments := segments_of (normalizeRoutePoints ps) in
      let index := match e with Source => 0%nat | Target => (length segments - 1)%nat end in
      match segments !! index with
      | None => None                         (* fewer than two points *)
      | Some (start, end_) =>
          let dx := end_.1 - start.1 in
          let dy := end_.2 - start.2 in
          let along := if side_horizontal s then dx else dy in
          let across := if side_horizontal s then dy else dx in
          if (nabs across <=? epsilon) && (along * nof (side_sign s e) >? epsilon) then None
          else Some {| is_endpoint := e; is_side := s; is_segment := index; is_start := start;
                       is_end := end_ |}
      end
  end.

Definition routeHonorsEndpointSides ps (fromSide toSide : string) : bool :=
  match endpointSideIssue ps Source fromSide, endpointSideIssue ps Target toSide with
  | None, None => true
  | _, _ => false
  end.

(** ** Rhythm *)
Inductive rhythm_code := MicroSegment | ShortInteriorSegment.

Record rhythm_issue := {
  ri_code : rhythm_code; ri_relation : option (relation N); ri_index : Z; ri_segment : nat;
  ri_position : position; ri_length : N; ri_start : point; ri_end : point
}.

Definition is_interior (p : position) : bool := match p with Interior => true | _ => false end.

Definition rhythm_code_of (interiorSegmentPx microSegmentPx length : N) (p : position) : option rhythm_code :=
  if length <? microSegmentPx - epsilon then Some MicroSegment
  else if is_interior p && (length <? interiorSegmentPx - epsilon) then Some ShortInteriorSegment
  else None.

Definition segment_issue (interiorSegmentPx microSegmentPx : N) (fallback : nat) (r : routed N)
    (count index : nat) (s : segment N) : option rhythm_issue :=
  let length := manhattan s in
  let position := segmentPosition index count in
  if length <=? epsilon then None
  else
    code ← rhythm_code_of interiorSegmentPx microSegmentPx length position;
    Some {| ri_code := code; ri_relation := ro_relation r; ri_index := index_or fallback (ro_index r);
            ri_segment := index; ri_position := position; ri_length := length; ri_start := s.1; ri_end := s.2 |}.

Definition route_issues (interiorSegmentPx microSegmentPx : N) (fallback : nat) (r : routed N) : list rhythm_issue :=
  let segments := segments_of (normalizeRoutePoints (ro_points r)) in
  omap id (imap (segment_issue interiorSegmentPx microSegmentPx fallback r (length segments)) segments).

Definition collectRouteRhythmIssues (interiorSegmentPx microSegmentPx : N) (rs : list (routed N))
    : list rhythm_issue := concat (imap (route_issues interiorSegmentPx microSegmentPx) rs).

(** ** Budget metrics *)
Record metrics_ := {
  maxBends : Z; routesOverSuggestedBends : Z; maxStretch : option N; routesOverSuggestedStretch : Z;
  minSegmentPx : option N; minInteriorSegmentPx : option N; shortSegmentCount : Z;
  shortEndpointSegmentCount : Z; shortInteriorSegmentCount : Z; microSegmentCount : Z
}.

Definition no_metrics : metrics_ :=
  {| maxBends := 0; routesOverSuggestedBends := 0; maxStretch := None; routesOverSuggestedStretch := 0;
     minSegmentPx := None; minInteriorSegmentPx := None; shortSegmentCount := 0;
     shortEndpointSegmentCount := 0; shortInteriorSegmentCount := 0; microSegmentCount := 0 |}.

(** [best == null ? x : f(best, x)] *)
Definition best (f : N → N → N) (o : option N) (x : N) : option N :=
  Some (match o with None => x | Some b => f b x end).

Definition bump (c : bool) (n : Z) : Z := if c then (n + 1)%Z else n.

Definition count_segment (segmentPx microSegmentPx : N) (count : nat) (m : metrics_) (index : nat)
    (s : segment N) : metrics_ :=
  let length := manhattan s in
  if length <=? epsilon then m
  else
    let interior := is_interior (segmentPosition index count) in
    let short := length <? segmentPx in
    {| maxBends := maxBends m; routesOverSuggestedBends := routesOverSuggestedBends m;
       maxStretch := maxStretch m; routesOverSuggestedStretch := routesOverSuggestedStretch m;
       minSegmentPx := best nmin (minSegmentPx m) length;
       minInteriorSegmentPx :=
         if interior then best nmin (minInteriorSegmentPx m) length else minInteriorSegmentPx m;
       shortSegmentCount := bump short (shortSegmentCount m);
       shortEndpointSegmentCount := bump (short && negb interior) (shortEndpointSegmentCount m);
       shortInteriorSegmentCount := bump (short && interior) (shortInteriorSegmentCount m);
       microSegmentCount := bump (length <? microSegmentPx) (microSegmentCount m) |}.

Fixpoint count_segments (segmentPx microSegmentPx : N) (count index : nat) (m : metrics_)
    (ss : list (segment N)) : metrics_ :=
  match ss with
  | [] => m
  | s :: ss => count_segments segmentPx microSegmentPx count (S index)
                 (count_segment segmentPx microSegmentPx count m index s) ss
  end.

(** The length of a route, without its negligible segments. *)
Definition route_length (ss : list (segment N)) : N :=
  foldl (λ total s, if manhattan s <=? epsilon then total else total + manhattan s) (nof 0) ss.

Definition count_stretch (stretch : N) (direct routeLength : N) (m : metrics_) : metrics_ :=
  if direct >? epsilon then
    let routeStretch := routeLength / direct in
    {| maxBends := maxBends m; routesOverSuggestedBends := routesOverSuggestedBends m;
       maxStretch := best nmax (maxStretch m) routeStretch;
       routesOverSuggestedStretch := bump (routeStretch >? stretch + epsilon) (routesOverSuggestedStretch m);
       minSegmentPx := minSegmentPx m; minInteriorSegmentPx := minInteriorSegmentPx m;
       shortSegmentCount := shortSegmentCount m; shortEndpointSegmentCount := shortEndpointSegmentCount m;
       shortInteriorSegmentCount := shortInteriorSegmentCount m; microSegmentCount := microSegmentCount m |}
  else m.

Definition count_bends (bendsPerRelationship bends : Z) (m : metrics_) : metrics_ :=
  {| maxBends := Z.max (maxBends m) bends;
     routesOverSuggestedBends := bump (bendsPerRelationship <? bends)%Z (routesOverSuggestedBends m);
     maxStretch := maxStretch m; routesOverSuggestedStretch := routesOverSuggestedStretch m;
     minSegmentPx := minSegmentPx m; minInteriorSegmentPx := minInteriorSegmentPx m;
     shortSegmentCount := shortSegmentCount m; shortEndpointSegmentCount := shortEndpointSegmentCount m;
     shortInteriorSegmentCount := shortInteriorSegmentCount m; microSegmentCount := microSegmentCount m |}.

Definition count_route (bendsPerRelationship : Z) (stretch segmentPx microSegmentPx : N) (m : metrics_)
    (r : routed N) : metrics_ :=
  match normalizeRoutePoints (ro_points r) with
  | (first :: _ :: _) as points =>
      let ss := segments_of points in
      let last_ := default first (last points) in
      let m := count_bends bendsPerRelationship (Z.max 0 (Z.of_nat (length points) - 2)) m in
      let m := count_segments segmentPx microSegmentPx (length ss) 0 m ss in
      count_stretch stretch (manhattan (first, last_)) (route_length ss) m
  | _ => m
  end.

Definition routeBudgetMetrics (bendsPerRelationship : Z) (stretch segmentPx microSegmentPx : N)
    (rs : list (routed N)) : metrics_ :=
  foldl (count_route bendsPerRelationship stretch segmentPx microSegmentPx) no_metrics rs.

(** ** Normal routes *)

(** Points the deduplication does not tell apart. *)
Definition near_point p (q : point) : Prop :=
  q = p ∨ ((nabs (p.1 - q.1) >? epsilon) || (nabs (p.2 - q.2) >? epsilon)) = false.

Lemma dedup_after_sublist previous ps : dedup_after previous ps `sublist_of` ps.
Proof.
  revert previous. induction ps as [|p ps IH]; intros previous; cbn; [done|].
  case_match; [by apply sublist_skip|by apply sublist_cons].
Qed.
Lemma dedup_sublist ps : dedup ps `sublist_of` ps.
Proof. destruct ps as [|p ps]; [done|]. apply sublist_skip, dedup_after_sublist. Qed.

Lemma dedup_after_last previous ps p : last (previous :: ps) = Some p →
  ∃ q, last (previous :: dedup_after previous ps) = Some q ∧ near_point p q.
Proof.
  revert previous. induction ps as [|r ps IH]; intros previous Hl; cbn [dedup_after].
  { exists previous. cbn in Hl |- *. split; [done|]. left. congruence. }
  destruct (_ || _) eqn:Hr.
  - destruct (IH r) as (q&Hq&?); [by rewrite last_cons_cons in Hl|]. exists q.
    by rewrite last_cons_cons.
  - destruct ps as [|r' ps].
    + exists previous. split; [done|]. right. cbn in Hl. by simplify_eq.
    + apply IH. rewrite !last_cons_cons in Hl. by rewrite last_cons_cons.
Qed.

Lemma pop_forward_suffix kept p : pop_forward kept p `suffix_of` kept.
Proof.
  induction kept as [|b [|a rest] IH]; [done..|].
  cbn [pop_forward]. case_match; [|done]. by apply suffix_cons_r.
Qed.

Lemma pop_forward_stops kept p b a rest :
  pop_forward kept p = b :: a :: rest → collinearForward a b p = false.
Proof.
  induction kept as [|b' [|a' kept] IH]; [done..|].
  cbn [pop_forward]. destruct (collinearForward a' b' p) eqn:H; [exact IH|]. by intros [= -> -> _].
Qed.

Lemma pop_forward_last kept p : last (pop_forward kept p) = last kept.
Proof.
  induction kept as [|b [|a rest] IH]; [done..|].
  cbn [pop_forward] in *. destruct (collinearForward a b p); [|done]. etrans; [exact IH|done].
Qed.

(** No point of a route, kept last point first, is straight on its way. *)
Definition bends_only kept : Prop := ∀ l1 a b c l2,
  kept = l1 ++ c :: b :: a :: l2 → collinearForward a b c = false.

Lemma bends_only_pop kept p : bends_only kept → bends_only (p :: pop_forward kept p).
Proof.
  intros Hk l1 a b c l2 H. destruct l1 as [|q l1]; injection H as <- H.
  - by eapply pop_forward_stops.
  - destruct (pop_forward_suffix kept p) as [l Hl]. eapply (Hk (l ++ l1)).
    rewrite Hl, H. by rewrite <-app_assoc.
Qed.

Lemma normalize_from_spec kept ps : bends_only kept →
  normalize_from kept ps `sublist_of` reverse kept ++ ps ∧
  head (normalize_from kept ps) = head (reverse kept ++ ps) ∧
  last (normalize_from kept ps) = last (reverse kept ++ ps) ∧
  bends_only (reverse (normalize_from kept ps)).
Proof.
  revert kept. induction ps as [|p ps IH]; intros kept Hk; cbn [normalize_from].
  { rewrite app_nil_r, reverse_involutive. done. }
  destruct (IH (p :: pop_forward kept p)) as (Hs&Hh&Hl&Hb); [by apply bends_only_pop|].
  rewrite reverse_cons, <-app_assoc in Hs, Hh, Hl. cbn [app] in Hs, Hh, Hl.
  split_and!; [| | |done].
  - etrans; [exact Hs|]. apply sublist_app; [|done].
    destruct (pop_forward_suffix kept p) as [l H%(f_equal reverse)]. rewrite H, reverse_app.
    by apply sublist_inserts_r.
  - rewrite Hh. pose proof (pop_forward_last kept p) as Hlast.
    rewrite !head_app, !head_reverse, Hlast. done.
  - rewrite Hl, !last_app. destruct (last (p :: ps)) eqn:E; [done|]. by apply last_None in E.
Qed.

Lemma bends_only_reverse ps : bends_only (reverse ps) → ∀ l1 a b c l2,
  ps = l1 ++ a :: b :: c :: l2 → collinearForward a b c = false.
Proof.
  intros H l1 a b c l2 ->. apply (H (reverse l2) a b c (reverse l1)).
  rewrite reverse_app, !reverse_cons. by simplify_list_eq.
Qed.

(** The ends of the normal form. *)
Lemma normalizeRoutePoints_ends ps :
  let finite := filter (λ p, finite_point p = true) ps in
  head (normalizeRoutePoints ps) = head finite ∧
  (∀ p, last finite = Some p → ∃ q, last (normalizeRoutePoints ps) = Some q ∧ near_point p q).
Proof.
  intros finite. unfold normalizeRoutePoints. fold finite.
  destruct (normalize_from_spec [] (dedup finite)) as (_&Hh&Hl&_); [by intros [|? [|? ?]]|].
  change (reverse [] ++ dedup finite) with (dedup finite) in Hh, Hl. split.
  - rewrite Hh. by destruct finite.
  - rewrite Hl. destruct finite as [|f fs]; [done|]. apply dedup_after_last.
Qed.

(** Whatever the numbers are, doubles included, the normal form of a route
    keeps some of its finite points in their order; it starts where the route
    starts, ends where it ends (up to the deduplication tolerance), and none of
    its inner points lies straight on the way from its predecessor to its
    successor. *)
Theorem normalizeRoutePoints_normal ps :
  let finite := filter (λ p, finite_point p = true) ps in
  normalizeRoutePoints ps `sublist_of` finite ∧
  head (normalizeRoutePoints ps) = head finite ∧
  (∀ p, last finite = Some p → ∃ q, last (normalizeRoutePoints ps) = Some q ∧ near_point p q) ∧
  (∀ l1 a b c l2, normalizeRoutePoints ps = l1 ++ a :: b :: c :: l2 → collinearForward a b c = false).
Proof.
  intros finite. destruct (normalizeRoutePoints_ends ps) as [Hh Hl]. fold finite in Hh, Hl.
  destruct (normalize_from_spec [] (dedup finite)) as (Hs&_&_&Hb); [by intros [|? [|? ?]]|].
  split_and!; [|done|done|by apply bends_only_reverse].
  etrans; [exact Hs|]. apply dedup_sublist.
Qed.
End Routes.
