(* ===== verification/Analyses.v ===== *)
(** * Collisions between routes
      ([src/.agents/skills/archify/renderers/shared/geometry.mjs], the collectors)

    What the composition gates look for in a set of routed relationships: labels
    too close to another route, proper crossings, corridors two unrelated
    relationships share, and runs along the border of a frame. *)

From Stdlib Require Import QArith Qminmax Qabs Lqa.
From stdpp Require Import sorting pretty.
From S2P Require Import Prelude Num Geometry Routes.
#[local] Open Scope Z_scope.

(** [\u0000] *)
Definition NUL : string := String Ascii.zero EmptyString.

(** The elements whose key no earlier element has ([seen] holds keys). *)
Fixpoint first_of_each {A K} `{EqDecision K} (key : A → K) (seen : list K) (l : list A) : list A :=
  match l with
  | [] => []
  | a :: l => if decide (key a ∈ seen) then first_of_each key seen l
              else a :: first_of_each key (key a :: seen) l
  end.

(** The pairs [(l[i], l[j])] with [i < j], in the order of the two loops. *)
Fixpoint pairs {A} (l : list A) : list (A * A) :=
  match l with [] => [] | a :: l => map (λ b, (a, b)) l ++ pairs l end.

(** The order a comparator returning at most zero describes; [Array.prototype.sort]
    is stable, as [merge_sort] is. *)
Definition before {A} (le : A → A → bool) : A → A → Prop := λ a b, le a b = true.
#[export] Instance before_dec {A} (le : A → A → bool) : RelDecision (before le).
Proof. intros a b. unfold before. apply _. Defined.

Lemma elem_of_imap {A B} (f : nat → A → B) (l : list A) (x : B) :
  x ∈ imap f l ↔ ∃ i a, l !! i = Some a ∧ x = f i a.
Proof.
  rewrite list_elem_of_lookup. setoid_rewrite list_lookup_imap. split.
  - intros [i H]. destruct (l !! i) eqn:E; naive_solver.
  - intros (i&a&H&->). exists i. by rewrite H.
Qed.

Lemma elem_of_concat_imap {A B} (f : nat → A → list B) (l : list A) (x : B) :
  x ∈ concat (imap f l) ↔ ∃ i a, l !! i = Some a ∧ x ∈ f i a.
Proof.
  rewrite list_elem_of_In, in_concat. setoid_rewrite <-list_elem_of_In. setoid_rewrite elem_of_imap.
  naive_solver.
Qed.

Lemma elem_of_omap_imap {A B} (f : nat → A → option B) (l : list A) (x : B) :
  x ∈ omap id (imap f l) ↔ ∃ i a, l !! i = Some a ∧ f i a = Some x.
Proof. rewrite list_elem_of_omap. setoid_rewrite elem_of_imap. unfold id. naive_solver. Qed.

Section Analyses.
Context {N : Type} `{!JsNum N, !JsMath N}.
#[local] Open Scope js_scope.
#[local] Notation point := (point N) (only parsing).

(** ** Identity of relationships *)
Definition relationshipIdentity (relation : option (relation N)) (relationIndex : Z) : string :=
  match relation with
  | Some r =>
      match rel_key r with
      | Some key => "key:" +:+ key
      | None =>
          if nonempty (rel_id r)
          then "id:" +:+ rel_from r +:+ NUL +:+ rel_to r +:+ NUL +:+ text_or_empty (rel_id r)
          else "index:" +:+ pretty relationIndex
      end
  | None => "index:" +:+ pretty relationIndex
  end.

Definition sameRelationship (left right : option (relation N)) : bool :=
  match left, right with
  | Some l, Some r =>
      if (rel_ref l =? rel_ref r)%nat then true
      else match rel_key l, rel_key r with
           | Some k, Some k' => bool_decide (k = k')
           | _, _ => nonempty (rel_id l) && nonempty (rel_id r) &&
                     bool_decide (rel_id l = rel_id r) && bool_decide (rel_from l = rel_from r) &&
                     bool_decide (rel_to l = rel_to r)
           end
  | _, _ => false
  end.

(** [[left.from, left.to].some((id) => id === right.from || id === right.to)] *)
Definition shareEndpoint (left right : relation N) : bool :=
  existsb (λ id, bool_decide (id = rel_from right) || bool_decide (id = rel_to right))
    [rel_from left; rel_to left].

(** ** Labels near other routes *)
Record label_box := {
  lb_rect : rect N; lb_relation : option (relation N); lb_index : option Z; lb_label : option string
}.

(** A normalised route with its relationship and index. *)
Record candidate := { c_relation : option (relation N); c_index : Z; c_points : list point }.

Definition to_candidate (fallback : nat) (r : routed N) : option candidate :=
  let points := normalizeRoutePoints (ro_points r) in
  if (length points <? 2)%nat then None
  else Some {| c_relation := ro_relation r; c_index := index_or fallback (ro_index r); c_points := points |}.

Record near := {
  clearance : N; intersectionLength : option N; n_segment : nat; n_start : point; n_end : point
}.

Definition nearer (r : rect N) (nearest : option near) (i : nat) (s : segment N) : option near :=
  match segmentRectClearance s r with
  | None => nearest
  | Some c =>
      let fresh := Some {| clearance := c; intersectionLength := segmentRectIntersectionLength s r;
                           n_segment := i; n_start := s.1; n_end := s.2 |} in
      match nearest with
      | None => fresh
      | Some n => if c <? clearance n then fresh else nearest
      end
  end.
Fixpoint nearest_from (r : rect N) (nearest : option near) (i : nat) (ss : list (segment N)) : option near :=
  match ss with
  | [] => nearest
  | s :: ss => nearest_from r (nearer r nearest i s) (S i) ss
  end.

Record label_hit := {
  lh_label : label_box; lh_index : Z; lh_other : option (relation N); lh_other_index : Z; lh_near : near;
  lh_threshold : N
}.

(** A label with its index, when it has a measurable rectangle. *)
Definition to_label (fallback : nat) (l : label_box) : option (label_box * Z) :=
  if negb (finite_rect (lb_rect l)) || (width (lb_rect l) <? nof 0) || (height (lb_rect l) <? nof 0)
  then None else Some (l, index_or fallback (lb_index l)).

Definition label_route_hit (threshold : N) (l : label_box * Z) (c : candidate) : option label_hit :=
  if (l.2 =? c_index c)%Z || sameRelationship (lb_relation l.1) (c_relation c) then None
  else
    n ← nearest_from (lb_rect l.1) None 0 (segments_of (c_points c));
    if clearance n + epsilon >=? threshold then None
    else Some {| lh_label := l.1; lh_index := l.2; lh_other := c_relation c; lh_other_index := c_index c;
                 lh_near := n; lh_threshold := threshold |}.

Definition collectLabelRouteClearance (labels : list label_box) (routedRelations : list (routed N))
    (threshold : N) : list label_hit :=
  if negb (nfin threshold) || (threshold <? nof 0) then []
  else
    let routes := first_of_each (λ c, relationshipIdentity (c_relation c) (c_index c)) []
                    (omap id (imap to_candidate routedRelations)) in
    let labels := first_of_each (λ l, relationshipIdentity (lb_relation l.1) l.2) []
                    (omap id (imap to_label labels)) in
    labels ≫= λ l, omap (label_route_hit threshold l) routes.

(** ** Proper crossings *)
Record crossing := { cr_point : point; cr_left : nat; cr_right : nat }.

(** The first pair of segments, in the order of the two loops, that cross. *)
Definition first_crossing (ls rs : list analysis_segment) : option crossing :=
  head (ls ≫= λ l, omap (λ r,
    p ← properSegmentIntersection (an_start l) (an_end l) (an_start r) (an_end r);
    Some {| cr_point := p; cr_left := sourceSegmentIndexAtPoint l p;
            cr_right := sourceSegmentIndexAtPoint r p |}) rs).

(** ** Shared corridors *)
Record corridor := {
  co_left : candidate; co_right : candidate; co_leftSegment : nat; co_rightSegment : nat;
  co_overlap : overlap N
}.

Definition longer (minOverlapPx : N) (l r : candidate) (longest : option corridor)
    (s : (nat * segment N) * (nat * segment N)) : option corridor :=
  let '((i, (a, b)), (j, (c, d))) := s in
  match collinearAxisOverlap a b c d with
  | None => longest
  | Some o =>
      if ov_length o + epsilon <? minOverlapPx then longest
      else
        let fresh := Some {| co_left := l; co_right := r; co_leftSegment := i; co_rightSegment := j;
                             co_overlap := o |} in
        match longest with
        | None => fresh
        | Some best => if ov_length o >? ov_length (co_overlap best) + epsilon then fresh else longest
        end
  end.

Definition indexed_segments (c : candidate) : list (nat * segment N) := imap pair (segments_of (c_points c)).

(** The longest overlap of a segment of one route with a segment of the other. *)
Definition longest_corridor (minOverlapPx : N) (l r : candidate) : option corridor :=
  foldl (longer minOverlapPx l r) None
    (indexed_segments l ≫= λ s, map (λ t, (s, t)) (indexed_segments r)).

Definition corridor_of (minOverlapPx : N) (lr : candidate * candidate) : option corridor :=
  left ← c_relation lr.1; right ← c_relation lr.2;
  if shareEndpoint left right then None else longest_corridor minOverlapPx lr.1 lr.2.

(** The entries with a relationship and at least two points. *)
Definition to_related (fallback : nat) (r : routed N) : option candidate :=
  match ro_relation r with None => None | Some _ => to_candidate fallback r end.

Definition collectAmbiguousCorridors (routedRelations : list (routed N)) (minOverlapPx : N) : list corridor :=
  omap (corridor_of minOverlapPx) (pairs (omap id (imap to_related routedRelations))).

(** ** Runs along the border of a frame *)
Inductive frame_shape :=
  | FrameLine (start end_ : point)
  | FrameRect (shape : option string) (r : rect N) (radius : option N).
Record frame := {
  fr_shape : frame_shape; fr_kind : option string; fr_label : option string; fr_id : option string
}.

Record border := { bo_side : string; bo_start : point; bo_end : point }.

(** [Number(radius) || 0] *)
Definition number_or_0 (o : option N) : N :=
  match o with Some x => if nan x then nof 0 else x | None => nof 0 end.

Definition frameBorderSegments (f : frame) : list border :=
  match fr_shape f with
  | FrameLine start end_ =>
      if finite_point start && finite_point end_
      then [{| bo_side := "line"; bo_start := start; bo_end := end_ |}] else []
  | FrameRect _ r radius =>
      if negb (finite_rect r) || (width r <=? nof 0) || (height r <=? nof 0) then []
      else
        let radius := nmax (nof 0) (nmin (nmin (number_or_0 radius) (width r / nof 2)) (height r / nof 2)) in
        let left := x_ r in
        let right := x_ r + width r in
        let top := y_ r in
        let bottom := y_ r + height r in
        filter (λ b, nhypot ((bo_end b).1 - (bo_start b).1) ((bo_end b).2 - (bo_start b).2) >? epsilon = true)
          [{| bo_side := "top"; bo_start := (left + radius, top); bo_end := (right - radius, top) |};
           {| bo_side := "right"; bo_start := (right, top + radius); bo_end := (right, bottom - radius) |};
           {| bo_side := "bottom"; bo_start := (right - radius, bottom); bo_end := (left + radius, bottom) |};
           {| bo_side := "left"; bo_start := (left, bottom - radius); bo_end := (left, top + radius) |}]
  end.

(** A comparator [d1 || d2] puts its left argument first, or leaves the order. *)
Definition in_order (d1 d2 : N) : bool :=
  if d1 <? nof 0 then true else if d1 >? nof 0 then false else negb (d2 >? nof 0).

Record interval := { low : N; high : N }.

Definition interval_le (l r : interval) : bool := in_order (low l - low r) (high l - high r).

(** The loop over the sorted intervals, the last one of [merged] being [current]. *)
Fixpoint merge_intervals (current : interval) (rest : list interval) : list interval :=
  match rest with
  | [] => [current]
  | i :: rest =>
      if low i <=? high current + epsilon
      then merge_intervals {| low := low current; high := nmax (high current) (high i) |} rest
      else current :: merge_intervals i rest
  end.

Record run := { run_interval : interval; run_length : N; run_start : point; run_end : point }.

Definition mergeBorderOverlaps (overlaps : list (overlap N)) (b : border) : list run :=
  let horizontal := nabs ((bo_start b).2 - (bo_end b).2) <=? epsilon in
  let ax := axis horizontal in
  let fixed := if horizontal then (bo_start b).2 else (bo_start b).1 in
  let sorted := merge_sort (before interval_le)
    (map (λ o, {| low := nmin (ax (ov_start o)) (ax (ov_end o));
                  high := nmax (ax (ov_start o)) (ax (ov_end o)) |}) overlaps) in
  let merged := match sorted with [] => [] | i :: rest => merge_intervals i rest end in
  map (λ i, {| run_interval := i; run_length := high i - low i;
               run_start := place horizontal (low i) fixed;
               run_end := place horizontal (high i) fixed |}) merged.

Record border_run := {
  br_routed : routed N; br_frame : frame; br_frameIndex : nat; br_side : string; br_segment : nat;
  br_length : N; br_start : point; br_end : point
}.

Definition run_le (l r : run) : bool :=
  in_order (run_length r - run_length l) (low (run_interval l) - low (run_interval r)).

(** The overlaps of a border with the segments of a route, with their indices. *)
Definition border_overlaps (ss : list (segment N)) (b : border) : list (overlap N * nat) :=
  omap (λ s : nat * segment N,
      o ← collinearAxisOverlap s.2.1 s.2.2 (bo_start b) (bo_end b);
      if ov_length o <=? epsilon then None else Some (o, s.1))
    (imap pair ss).

Definition border_hit (r : routed N) (ss : list (segment N)) (f : frame) (frameIndex : nat) (b : border)
    : option border_run :=
  match border_overlaps ss b with
  | [] => None
  | ((_, i) :: rest) as overlaps =>
      let merged := mergeBorderOverlaps (map fst overlaps) b in
      longest ← head (merge_sort (before run_le) merged);
      Some {| br_routed := r; br_frame := f; br_frameIndex := frameIndex; br_side := bo_side b;
              br_segment := foldl Nat.min i (map snd rest);
              br_length := foldl (λ total o, total + run_length o) (nof 0) merged;
              br_start := run_start longest; br_end := run_end longest |}
  end.

(** [routed.segments] when given, else the segments of [routed.points]. *)
Definition route_segments (r : routed N) : list (segment N) :=
  match ro_segments r with Some ss => ss | None => segments_of (ro_points r) end.

Definition route_border_runs (frames : list frame) (r : routed N) : list border_run :=
  let ss := route_segments r in
  if negb (forallb (λ s, finite_point s.1 && finite_point s.2) ss) then []
  else concat (imap (λ i f, omap (border_hit r ss f i) (frameBorderSegments f)) frames).

Definition collectBorderRuns (routedRelations : list (routed N)) (frames : list frame) : list border_run :=
  routedRelations ≫= route_border_runs frames.
End Analyses.
Arguments label_box : clear implicits.
Arguments frame : clear implicits.

(** * Properties, over the rationals *)

(** ** Overlaps of segments on a line *)

(** The bounds of a segment along an axis. *)
Definition lo (horizontal : bool) (a b : point Q) : Q := nmin (axis horizontal a) (axis horizontal b).
Definition hi (horizontal : bool) (a b : point Q) : Q := nmax (axis horizontal a) (axis horizontal b).

(** Both coordinates along the other axis agree within [epsilon]. *)
Definition flat (horizontal : bool) (a b : point Q) : Prop :=
  (nabs (axis (negb horizontal) a - axis (negb horizontal) b) <= epsilon)%Q.

Lemma Q_nmin_le (a b : Q) : (nmin a b <= a)%Q ∧ (nmin a b <= b)%Q.
Proof. split; apply Q_nle; [apply nmin_le_l|apply nmin_le_r]; reflexivity. Qed.
Lemma Q_nmax_ge (a b : Q) : (a <= nmax a b)%Q ∧ (b <= nmax a b)%Q.
Proof. split; apply Q_nle; [apply nmax_ge_l|apply nmax_ge_r]; reflexivity. Qed.

(** Bounds of the occurrences of [nmin] and [nmax], for [lra]. *)
Ltac q_minmax := repeat match goal with
  | |- context [nmin ?a ?b] => lazymatch goal with
      | _ : (nmin a b <= a)%Q ∧ _ |- _ => fail | _ => pose proof (Q_nmin_le a b) end
  | H : context [nmin ?a ?b] |- _ => lazymatch goal with
      | _ : (nmin a b <= a)%Q ∧ _ |- _ => fail | _ => pose proof (Q_nmin_le a b) end
  | |- context [nmax ?a ?b] => lazymatch goal with
      | _ : (a <= nmax a b)%Q ∧ _ |- _ => fail | _ => pose proof (Q_nmax_ge a b) end
  | H : context [nmax ?a ?b] |- _ => lazymatch goal with
      | _ : (a <= nmax a b)%Q ∧ _ |- _ => fail | _ => pose proof (Q_nmax_ge a b) end
  end.

(** An overlap lies within both segments, along an axis both are flat on. *)
Record overlap_of (a b c d : point Q) (o : overlap Q) (h : bool) : Prop := {
  oo_flat : flat h c d;
  oo_length : (epsilon < ov_length o)%Q;
  oo_bounds : ov_length o = (axis h (ov_end o) - axis h (ov_start o))%Q;
  oo_low : (lo h c d <= axis h (ov_start o))%Q;
  oo_high : (axis h (ov_end o) <= hi h c d)%Q
}.

Lemma collinearAxisOverlap_spec (a b c d : point Q) (o : overlap Q) :
  collinearAxisOverlap a b c d = Some o → ∃ h, overlap_of a b c d o h.
Proof.
  unfold collinearAxisOverlap.
  set (horizontal := (nabs (a.2 - b.2) <=? epsilon)%js && _ && _).
  set (vertical := (nabs (a.1 - b.1) <=? epsilon)%js && _ && _).
  destruct (negb horizontal && negb vertical) eqn:Hhv; [done|].
  match goal with |- (if ?x then _ else _) = _ → _ => destruct x eqn:Hl; [done|] end. intros [= <-]. exists horizontal.
  q_tests. q_ops.
  split; cbn [ov_length ov_start ov_end]; destruct horizontal eqn:Hh; cbn [axis place negb fst snd] in *;
    try done; try lra; try (unfold lo, hi; cbn [axis]; q_minmax; lra).
  - unfold horizontal in Hh. rewrite !andb_true_iff in Hh. q_tests. q_ops. tauto.
  - destruct vertical eqn:Hv; [|done]. unfold vertical in Hv. rewrite !andb_true_iff in Hv. q_tests. q_ops. tauto.
Qed.

(** ** Merged intervals *)

Definition breadth (i : interval) : Q := high i - low i.
Definition covers (i j : interval) : Prop := (low i <= low j ∧ high j <= high i)%Q.
(** An interval longer than [epsilon] between [m] and [M]. *)
Definition proper_in (m M : Q) (i : interval) : Prop := (m <= low i ∧ epsilon < breadth i ∧ high i <= M)%Q.

Definition total (l : list Q) : Q := foldr Qplus 0%Q l.

Lemma total_nonneg (l : list Q) : Forall (Qle 0) l → (0 <= total l)%Q.
Proof. induction 1; cbn [total foldr]; [done|]. fold (total l). lra. Qed.

Lemma total_member (l : list Q) (x : Q) : Forall (Qle 0) l → x ∈ l → (x <= total l)%Q.
Proof.
  intros Hl. revert x. induction Hl as [|y l Hy Hl IH]; intros x; [by intros ?%elem_of_nil|].
  rewrite elem_of_cons. cbn [total foldr]. fold (total l). pose proof (total_nonneg l Hl).
  intros [-> |?%IH]; lra.
Qed.

Lemma foldl_total {A} (f : A → Q) (l : list A) (acc : Q) :
  (foldl (λ t a, t + f a) acc l == acc + total (map f l))%Q.
Proof.
  revert acc. induction l as [|a l IH]; intros acc; cbn [foldl map total foldr]; [lra|].
  rewrite IH. fold (total (map f l)). lra.
Qed.

Lemma merge_intervals_bounds (m M : Q) (c : interval) rest :
  proper_in m M c → Forall (proper_in m M) rest →
  Forall (proper_in m M) (merge_intervals c rest) ∧
  (total (map breadth (merge_intervals c rest)) <= M - low c)%Q.
Proof.
  intros Hc Hr. revert c Hc. induction Hr as [|i rest Hi Hr IH]; intros c Hc; cbn [merge_intervals].
  - split; [by apply Forall_singleton|]. unfold proper_in, breadth in *. cbn. lra.
  - unfold proper_in, breadth in Hc, Hi. destruct (nle (low i) _) eqn:H; q_tests; q_ops.
    + destruct (IH {| low := low c; high := nmax (high c) (high i) |}) as [? Hle]; [|done].
      unfold proper_in, breadth. cbn [low high]. pose proof (Q_nmax_ge (high c) (high i)).
      destruct (nmax_cases (high c) (high i)) as [E|E]; rewrite E in *; lra.
    + destruct (IH i Hi) as [? Hle]. split; [constructor; done|].
      cbn [map total foldr]. fold (total (map breadth (merge_intervals i rest))).
      pose proof epsilon_Q. unfold breadth at 1. lra.
Qed.

(** In intervals sorted by their lower ends, none is lost. *)
Lemma merge_intervals_covers (c : interval) rest :
  StronglySorted (λ i j : interval, (low i <= low j)%Q) (c :: rest) →
  ∀ i : interval, i ∈ c :: rest → ∃ j, j ∈ merge_intervals c rest ∧ covers j i.
Proof.
  revert c. induction rest as [|h rest IH]; intros c Hs i Hi; cbn [merge_intervals].
  { apply list_elem_of_singleton in Hi as ->. exists c. split; [by left|]. split; lra. }
  apply StronglySorted_inv in Hs as [Hs Hc]. apply StronglySorted_inv in Hs as [Hs Hh].
  apply Forall_cons in Hc as [Hch Hc].
  destruct (nle (low h) _) eqn:H.
  - set (new := {| low := low c; high := nmax (high c) (high h) |}).
    pose proof (Q_nmax_ge (high c) (high h)).
    assert (Hin : ∃ k, k ∈ new :: rest ∧ covers k i).
    { rewrite !elem_of_cons in Hi. destruct Hi as [-> |[-> |Hi]].
      - exists new. split; [by left|]. unfold covers, new; cbn [low high]; lra.
      - exists new. split; [by left|]. unfold covers, new; cbn [low high]; lra.
      - exists i. split; [by right|]. unfold covers; lra. }
    destruct Hin as (k&Hk&Hki). destruct (IH new) with (i := k) as (j&?&?); [by constructor|done|].
    exists j. split; [done|]. unfold covers in *. lra.
  - rewrite elem_of_cons in Hi. destruct Hi as [-> |Hi].
    + exists c. split; [by left|]. unfold covers; lra.
    + destruct (IH h) with (i := i) as (j&?&?); [by constructor|done|]. exists j. split; [by right|done].
Qed.

(** ** Runs of a border *)

Definition border_length (b : border) : Q := manhattan (bo_start b, bo_end b).

Lemma in_order_total (d1 d2 : Q) : in_order d1 d2 = true ∨ in_order (0 - d1)%Q (0 - d2)%Q = true.
Proof.
  unfold in_order. destruct (d1 <? nof 0)%js eqn:?; [by left|].
  destruct (d1 >? nof 0)%js eqn:?; q_tests; q_ops.
  - right. replace (nlt (0 - d1)%Q 0%Q) with true; [done|]. symmetry. q_tests. lra.
  - replace (nlt (0 - d1)%Q 0%Q) with false by (symmetry; q_tests; lra).
    replace (nlt 0%Q (0 - d1)%Q) with false by (symmetry; q_tests; lra).
    destruct (nlt 0%Q d2) eqn:?; q_tests; [right|by left].
    apply negb_true_iff. q_tests. lra.
Qed.

Lemma in_order_proper (d1 d1' d2 d2' : Q) : (d1 == d1')%Q → (d2 == d2')%Q → in_order d1 d2 = in_order d1' d2'.
Proof.
  intros H1 H2. unfold in_order.
  assert (Hlt : ∀ x y x' y' : Q, (x == x')%Q → (y == y')%Q → nlt x y = nlt x' y').
  { intros ???? E1 E2. apply eq_true_iff_eq. rewrite !Q_nlt, E1, E2. done. }
  by rewrite (Hlt d1 (nof 0) d1' (nof 0)), (Hlt (nof 0) d1 (nof 0) d1'), (Hlt (nof 0) d2 (nof 0) d2').
Qed.

#[local] Instance interval_le_total : Total (before (A := interval (N := Q)) interval_le).
Proof.
  intros i j. unfold before, interval_le.
  destruct (in_order_total (low i - low j) (high i - high j)) as [H|H]; [by left|right].
  rewrite <-H. apply in_order_proper; q_ops; ring.
Qed.

Lemma interval_le_low (i j : interval) : before interval_le i j → (low i <= low j)%Q.
Proof.
  unfold before, interval_le, in_order. repeat case_match; q_tests; q_ops; try done; intros _; lra.
Qed.

Lemma sorted_by_low (l : list interval) :
  StronglySorted (λ i j : interval, (low i <= low j)%Q) (merge_sort (before interval_le) l).
Proof.
  assert (Ht : Transitive (λ i j : interval, (low i <= low j)%Q)) by (intros ???; apply Qle_trans).
  apply Sorted_StronglySorted; [exact Ht|].
  pose proof (Sorted_merge_sort (before interval_le) l) as Hs.
  induction Hs as [|i l' _ IH Hhd]; constructor; [done|].
  destruct Hhd as [|j l' Hij]; constructor. by apply interval_le_low.
Qed.

(** What the overlaps of one border satisfy. *)
Definition on_border (b : border) (h : bool) (o : overlap Q) : Prop :=
  ∃ s : segment Q, overlap_of s.1 s.2 (bo_start b) (bo_end b) o h.

Lemma hi_lo_border (b : border) h : (hi h (bo_start b) (bo_end b) - lo h (bo_start b) (bo_end b) <= border_length b)%Q.
Proof.
  unfold hi, lo, border_length, manhattan. cbn [fst snd]. q_ops.
  pose proof (nabs_cases ((bo_end b).1 - (bo_start b).1)).
  pose proof (nabs_cases ((bo_end b).2 - (bo_start b).2)).
  pose proof (nmax_cases (axis h (bo_start b)) (axis h (bo_end b))) as Hx.
  pose proof (nmin_cases (axis h (bo_start b)) (axis h (bo_end b))) as Hn.
  destruct h; cbn [axis] in *; destruct Hx as [-> | ->], Hn as [-> | ->];
    destruct H as [[? ->]|[? ->]], H0 as [[? ->]|[? ->]]; lra.
Qed.

(** The overlaps are along the axis the merge chooses for the border. *)
Lemma on_border_axis (b : border) h o : on_border b h o →
  h = (nabs ((bo_start b).2 - (bo_end b).2) <=? epsilon)%js.
Proof.
  intros [s [Hf Hl Hb Hlo Hhi]]. rewrite Hb in Hl. unfold flat in Hf. symmetry. destruct h; cbn [negb axis] in *.
  - by apply Q_nle.
  - apply Q_nle_false. unfold lo, hi in *. q_ops.
    destruct (nabs_cases ((bo_start b).2 - (bo_end b).2)) as [[? ->]|[? ->]];
      destruct (nmax_cases (axis false (bo_start b)) (axis false (bo_end b))) as [E|E]; rewrite E in *;
      destruct (nmin_cases (axis false (bo_start b)) (axis false (bo_end b))) as [E'|E']; rewrite E' in *;
      pose proof epsilon_Q; cbn [axis] in *; lra.
Qed.

Lemma border_length_nonneg (b : border) : (0 <= border_length b)%Q.
Proof.
  unfold border_length, manhattan. cbn [fst snd]. q_ops.
  destruct (nabs_cases ((bo_end b).1 - (bo_start b).1)) as [[? ->]|[? ->]],
    (nabs_cases ((bo_end b).2 - (bo_start b).2)) as [[? ->]|[? ->]]; lra.
Qed.

(** The interval an overlap becomes. *)
Definition interval_of (h : bool) (o : overlap Q) : interval :=
  {| low := nmin (axis h (ov_start o)) (axis h (ov_end o));
     high := nmax (axis h (ov_start o)) (axis h (ov_end o)) |}.

Lemma interval_of_spec (b : border) h o : on_border b h o →
  proper_in (lo h (bo_start b) (bo_end b)) (hi h (bo_start b) (bo_end b)) (interval_of h o) ∧
  (breadth (interval_of h o) == ov_length o)%Q.
Proof.
  intros [s [_ Hl Hb Hlo Hhi]]. rewrite Hb in *. unfold proper_in, breadth, interval_of. cbn [low high]. pose proof epsilon_Q.
  destruct (nmax_cases (axis h (ov_start o)) (axis h (ov_end o))) as [E|E],
    (nmin_cases (axis h (ov_start o)) (axis h (ov_end o))) as [E'|E'];
    pose proof (Q_nmax_ge (axis h (ov_start o)) (axis h (ov_end o)));
    pose proof (Q_nmin_le (axis h (ov_start o)) (axis h (ov_end o)));
    rewrite E, E' in *; lra.
Qed.

Lemma mergeBorderOverlaps_spec (b : border) h (os : list (overlap Q)) :
  Forall (on_border b h) os →
  Forall (λ r, (epsilon < run_length r)%Q) (mergeBorderOverlaps os b) ∧
  (total (map run_length (mergeBorderOverlaps os b)) <= border_length b)%Q ∧
  (∀ o, o ∈ os → ∃ r, r ∈ mergeBorderOverlaps os b ∧ (ov_length o <= run_length r)%Q).
Proof.
  intros Hos. destruct os as [|o0 os'].
  { split_and!; [constructor|apply border_length_nonneg|by intros ? ?%elem_of_nil]. }
  pose proof (on_border_axis b h o0 (Forall_inv Hos)) as Hh.
  revert Hos. generalize (o0 :: os'). intros os Hos.
  unfold mergeBorderOverlaps. rewrite <-Hh. change (λ o : overlap Q, _) with (interval_of h).
  set (sorted := merge_sort _ _).
  assert (Hp : sorted ≡ₚ map (interval_of h) os) by apply merge_sort_Permutation.
  pose proof (sorted_by_low (map (interval_of h) os)) as Hs. fold sorted in Hs.
  assert (Hin : Forall (proper_in (lo h (bo_start b) (bo_end b)) (hi h (bo_start b) (bo_end b))) sorted).
  { rewrite Hp. apply Forall_map. eapply Forall_impl; [exact Hos|]. intros o Ho. by apply interval_of_spec. }
  clearbody sorted. destruct sorted as [|i rest].
  { symmetry in Hp. apply Permutation_nil_r, map_eq_nil in Hp as ->. split_and!; [constructor|apply border_length_nonneg|].
    by intros ? ?%elem_of_nil. }
  apply Forall_cons in Hin as [Hi Hr].
  destruct (merge_intervals_bounds _ _ i rest Hi Hr) as [Hb Ht].
  rewrite map_map. change (λ x : interval, run_length _) with breadth.
  split_and!.
  - apply Forall_map. eapply Forall_impl; [exact Hb|]. by intros j (_&?&_).
  - pose proof (hi_lo_border b h). destruct Hi as (?&_&_). lra.
  - intros o Ho. destruct (merge_intervals_covers i rest Hs (interval_of h o)) as (j&Hj&Hc).
    { rewrite Hp. by apply (list_elem_of_fmap_2 (interval_of h)). }
    eexists. split; [by apply list_elem_of_fmap_2|]. cbn [run_length].
    rewrite Forall_forall in Hos. destruct (interval_of_spec b h o (Hos o Ho)) as [_ Hl].
    unfold covers, breadth in *. q_ops. lra.
Qed.

Lemma border_overlaps_on (ss : list (segment Q)) (b : border) :
  Forall (on_border b (nabs ((bo_start b).2 - (bo_end b).2) <=? epsilon)%js) (map fst (border_overlaps ss b)).
Proof.
  apply Forall_map, Forall_forall. intros [o i] H. unfold border_overlaps in H.
  apply list_elem_of_omap in H as ([i' s]&_&H). cbn [fst snd] in H.
  destruct (collinearAxisOverlap _ _ _ _) as [o'|] eqn:Ho; [|done]. cbn [mbind option_bind] in H.
  destruct (nle _ epsilon); simplify_eq.
  destruct (collinearAxisOverlap_spec _ _ _ _ _ Ho) as [h Hh].
  assert (Hb : on_border b h o) by (by exists s). cbn [fst]. by rewrite <-(on_border_axis _ _ _ Hb).
Qed.

Lemma border_overlaps_has (ss : list (segment Q)) (b : border) (s : segment Q) o : s ∈ ss →
  collinearAxisOverlap s.1 s.2 (bo_start b) (bo_end b) = Some o → o ∈ map fst (border_overlaps ss b).
Proof.
  intros [i Hi]%list_elem_of_lookup_1 Ho. apply (list_elem_of_fmap_2' fst _ (o, i)); [|done].
  apply list_elem_of_omap. exists (i, s). split.
  - apply (list_elem_of_lookup_2 _ i). by rewrite list_lookup_imap, Hi.
  - cbn [fst snd]. rewrite Ho. cbn [mbind option_bind].
    destruct (collinearAxisOverlap_spec _ _ _ _ _ Ho) as [h [_ Hl _ _ _]].
    by rewrite (proj2 (Q_nle_false _ _) Hl).
Qed.

(** A border with an overlap gives one hit, of the merged length. *)
Lemma border_hit_spec (r : routed Q) ss (f : frame Q) k (b : border) :
  match border_hit r ss f k b with
  | Some hit => br_routed hit = r ∧ br_frame hit = f ∧ br_frameIndex hit = k ∧ br_side hit = bo_side b ∧
      (epsilon < br_length hit <= border_length b)%Q ∧
      ∀ o, o ∈ map fst (border_overlaps ss b) → (ov_length o <= br_length hit)%Q
  | None => map fst (border_overlaps ss b) = []
  end.
Proof.
  unfold border_hit. pose proof (border_overlaps_on ss b) as Hon.
  destruct (border_overlaps ss b) as [|[o i] rest] eqn:Hos; [done|].
  set (os := map fst ((o, i) :: rest)) in *.
  destruct (mergeBorderOverlaps_spec b _ os Hon) as (Hr&Ht&Hc).
  destruct (Hc o) as (r0&Hr0&_); [by left|].
  assert (Hpos : Forall (Qle 0) (map run_length (mergeBorderOverlaps os b))).
  { apply Forall_map. eapply Forall_impl; [exact Hr|]. cbv beta. intros ? ?. pose proof epsilon_Q. lra. }
  assert (Hle : ∀ r, r ∈ mergeBorderOverlaps os b →
      (run_length r <= total (map run_length (mergeBorderOverlaps os b)))%Q).
  { intros r' Hr'. apply total_member; [done|]. by apply list_elem_of_fmap_2. }
  destruct (merge_sort (before run_le) (mergeBorderOverlaps os b)) as [|longest sorted] eqn:Hm.
  { exfalso. pose proof (merge_sort_Permutation (before run_le) (mergeBorderOverlaps os b)) as Hp.
    rewrite Hm in Hp. apply Permutation_nil_l in Hp. rewrite <-Hp in Hr0. by apply elem_of_nil in Hr0. }
  cbn [head mbind option_bind br_routed br_frame br_frameIndex br_side br_length].
  pose proof (foldl_total run_length (mergeBorderOverlaps os b) 0%Q) as Hf.
  rewrite Forall_forall in Hr. pose proof (Hr _ Hr0) as Hl. pose proof (Hle _ Hr0) as Hl'.
  do 4 (split; [done|]). split; [split|].
  - q_ops. rewrite Hf. lra.
  - q_ops. rewrite Hf. lra.
  - intros o' Ho'. destruct (Hc o' Ho') as (r'&Hr'&?). pose proof (Hle r' Hr'). q_ops. rewrite Hf. lra.
Qed.

Lemma finite_segments (ss : list (segment Q)) :
  forallb (λ s, finite_point s.1 && finite_point s.2) ss = true.
Proof. by induction ss. Qed.

(** A border run is reported for a border of the frame it names, and its
    length is more than the tolerance and at most the length of that border:
    overlapping pieces of the route are counted once.  Conversely, every overlap
    of a segment of a route with a border is in a run reported for that route
    and border, and the run is at least as long. *)
Theorem collectBorderRuns_exact (rs : list (routed Q)) (frames : list (frame Q)) :
  (∀ hit, hit ∈ collectBorderRuns rs frames →
    br_routed hit ∈ rs ∧ frames !! br_frameIndex hit = Some (br_frame hit) ∧
    ∃ b, b ∈ frameBorderSegments (br_frame hit) ∧ br_side hit = bo_side b ∧
      (epsilon < br_length hit <= border_length b)%Q) ∧
  (∀ r k f b s o, r ∈ rs → frames !! k = Some f → b ∈ frameBorderSegments f → s ∈ route_segments r →
    collinearAxisOverlap s.1 s.2 (bo_start b) (bo_end b) = Some o →
    ∃ hit, hit ∈ collectBorderRuns rs frames ∧ br_routed hit = r ∧ br_frameIndex hit = k ∧
      br_side hit = bo_side b ∧ (ov_length o <= br_length hit)%Q).
Proof.
  unfold collectBorderRuns, route_border_runs. split.
  - intros hit (r&Hhit&Hr)%list_elem_of_bind. rewrite finite_segments in Hhit. cbn [negb] in Hhit.
    apply elem_of_concat_imap in Hhit as (k&f&Hk&Hhit).
    apply list_elem_of_omap in Hhit as (b&Hb&Hhit).
    pose proof (border_hit_spec r (route_segments r) f k b) as Hs. rewrite Hhit in Hs.
    destruct Hs as (->&->&->&Hside&?&_). eauto 10.
  - intros r k f b s o Hr Hk Hb Hs Ho.
    pose proof (border_overlaps_has _ _ _ _ Hs Ho) as Hin.
    pose proof (border_hit_spec r (route_segments r) f k b) as Hspec.
    destruct (border_hit r (route_segments r) f k b) as [hit|] eqn:Hhit.
    + destruct Hspec as (?&?&?&?&_&Hl). exists hit. split; [|by auto].
      apply list_elem_of_bind. exists r. split; [|done]. rewrite finite_segments. cbn [negb].
      apply elem_of_concat_imap. exists k, f. split; [done|]. apply list_elem_of_omap. eauto.
    + rewrite Hspec in Hin. by apply elem_of_nil in Hin.
Qed.

(** ** Corridors *)

Lemma elem_of_pairs {A} (l : list A) (a b : A) :
  (a, b) ∈ pairs l ↔ ∃ i j, (i < j)%nat ∧ l !! i = Some a ∧ l !! j = Some b.
Proof.
  induction l as [|x l IH]; cbn [pairs].
  { split; [by intros ?%elem_of_nil|]. by intros (i&j&_&?&_). }
  rewrite elem_of_app, IH. split.
  - intros [(y&[= -> ->]&[j Hj]%list_elem_of_lookup_1)%list_elem_of_fmap_1|(i&j&?&?&?)].
    + exists 0%nat, (S j). split_and!; [lia|done|done].
    + exists (S i), (S j). split_and!; [lia|done|done].
  - intros ([|i]&[|j]&Hij&Hi&Hj); try lia; cbn in Hi, Hj.
    + simplify_eq. left. apply (list_elem_of_fmap_2' (pair a) _ b); [by eapply list_elem_of_lookup_2|done].
    + right. exists i, j. split_and!; [lia|done|done].
Qed.

(** The overlap of two indexed segments, when it is long enough to count. *)
Definition counts (minOverlapPx : Q) (st : (nat * segment Q) * (nat * segment Q)) (o : overlap Q) : Prop :=
  collinearAxisOverlap st.1.2.1 st.1.2.2 st.2.2.1 st.2.2.2 = Some o ∧
  (minOverlapPx <= ov_length o + epsilon)%Q.

Definition corridor_at (l r : candidate) (st : (nat * segment Q) * (nat * segment Q)) (o : overlap Q)
    : corridor :=
  {| co_left := l; co_right := r; co_leftSegment := st.1.1; co_rightSegment := st.2.1; co_overlap := o |}.

(** [best] is a corridor of one of [sts], and none of them is longer. *)
Definition longest_of (m : Q) (l r : candidate) (sts : list ((nat * segment Q) * (nat * segment Q)))
    (best : option corridor) : Prop :=
  match best with
  | None => ∀ st o, st ∈ sts → ¬ counts m st o
  | Some c => (∃ st o, st ∈ sts ∧ counts m st o ∧ c = corridor_at l r st o) ∧
      ∀ st o, st ∈ sts → counts m st o → (ov_length o <= ov_length (co_overlap c) + epsilon)%Q
  end.

Lemma longer_spec m l r sts st best :
  longest_of m l r sts best → longest_of m l r (sts ++ [st]) (longer m l r best st).
Proof.
  intros Hb. destruct st as [[i [a b]] [j [c d]]] eqn:Hst. unfold longer.
  assert (Hkeep : (∀ o, counts m st o → match best with None => False | Some k =>
      (ov_length o <= ov_length (co_overlap k) + epsilon)%Q end) → longest_of m l r (sts ++ [st]) best).
  { intros Hn. destruct best as [k|]; cbn in Hb |- *.
    - destruct Hb as [(st'&o'&?&?&?) Hmax]. split; [exists st', o'; rewrite elem_of_app; auto|].
      intros st'' o'' [?|Hin]%elem_of_app ?; [by eapply Hmax|].
      apply list_elem_of_singleton in Hin as ->. by apply Hn.
    - intros st'' o'' [?|Hin]%elem_of_app ?; [by eapply Hb|].
      apply list_elem_of_singleton in Hin as ->. by eapply Hn. }
  assert (Hnew : ∀ o, counts m st o → match best with None => True | Some k =>
      (ov_length (co_overlap k) + epsilon < ov_length o)%Q end →
      longest_of m l r (sts ++ [st]) (Some (corridor_at l r st o))).
  { intros o Ho Hlt. split.
    - exists st, o. rewrite elem_of_app, list_elem_of_singleton. auto.
    - cbn [co_overlap corridor_at]. intros st'' o'' [Hin|Hin]%elem_of_app Ho''.
      + destruct best as [k|]; [|by destruct (Hb _ _ Hin Ho'')].
        destruct Hb as [_ Hmax]. pose proof (Hmax _ _ Hin Ho''). pose proof epsilon_Q. lra.
      + apply list_elem_of_singleton in Hin as ->. destruct Ho as [Ho _], Ho'' as [Ho'' _].
        rewrite Ho in Ho''. injection Ho'' as ->. pose proof epsilon_Q. lra. }
  unfold counts in Hkeep, Hnew. rewrite Hst in Hkeep, Hnew. cbn [fst snd] in Hkeep, Hnew.
  destruct (collinearAxisOverlap a b c d) as [o|]; [|apply Hkeep; by intros ? [? _]].
  destruct (nlt (ov_length o + epsilon)%js m) eqn:Hm; q_tests; q_ops.
  { apply Hkeep. intros ? [[= <-] ?]. lra. }
  destruct best as [k|]; [|apply (Hnew o); auto].
  match goal with |- context [if ?x then _ else _] => destruct x eqn:Hk end; q_tests; [by apply (Hnew o)|]. apply Hkeep. by intros ? [[= <-] _].
Qed.

Lemma longest_corridor_spec m l r :
  longest_of m l r (indexed_segments l ≫= λ s, map (λ t, (s, t)) (indexed_segments r))
    (longest_corridor m l r).
Proof.
  unfold longest_corridor. generalize (indexed_segments l ≫= λ s, map (λ t, (s, t)) (indexed_segments r)).
  intros sts. induction sts as [|st sts IH] using rev_ind; [by intros ? ? ?%elem_of_nil|].
  rewrite foldl_snoc. by apply longer_spec.
Qed.

Lemma elem_of_indexed (c : candidate) (i : nat) (s : segment Q) :
  (i, s) ∈ indexed_segments c ↔ segments_of (c_points c) !! i = Some s.
Proof. unfold indexed_segments. rewrite elem_of_imap. naive_solver. Qed.

(** Two unrelated relationships share a corridor exactly when a segment of
    one overlaps a segment of the other, on a common line, for at least the
    minimum (less the tolerance): every hit names such segments of two
    relationships without a common endpoint, and each such pair of relationships
    gives a hit at least as long, up to the tolerance, as any of its overlaps. *)
Theorem collectAmbiguousCorridors_exact (rs : list (routed Q)) (m : Q) :
  let cs := omap id (imap to_related rs) in
  (∀ hit, hit ∈ collectAmbiguousCorridors rs m →
    ∃ i j lr rr s t, (i < j)%nat ∧ cs !! i = Some (co_left hit) ∧ cs !! j = Some (co_right hit) ∧
      c_relation (co_left hit) = Some lr ∧ c_relation (co_right hit) = Some rr ∧
      shareEndpoint lr rr = false ∧
      segments_of (c_points (co_left hit)) !! co_leftSegment hit = Some s ∧
      segments_of (c_points (co_right hit)) !! co_rightSegment hit = Some t ∧
      collinearAxisOverlap s.1 s.2 t.1 t.2 = Some (co_overlap hit) ∧
      (m <= ov_length (co_overlap hit) + epsilon)%Q) ∧
  (∀ i j l r lr rr s t o, (i < j)%nat → cs !! i = Some l → cs !! j = Some r →
    c_relation l = Some lr → c_relation r = Some rr → shareEndpoint lr rr = false →
    s ∈ segments_of (c_points l) → t ∈ segments_of (c_points r) →
    collinearAxisOverlap s.1 s.2 t.1 t.2 = Some o → (m <= ov_length o + epsilon)%Q →
    ∃ hit, hit ∈ collectAmbiguousCorridors rs m ∧ co_left hit = l ∧ co_right hit = r ∧
      (ov_length o <= ov_length (co_overlap hit) + epsilon)%Q).
Proof.
  intros cs. unfold collectAmbiguousCorridors. fold cs. split.
  - intros hit ([l r]&(i&j&Hij&Hi&Hj)%elem_of_pairs&Hhit)%list_elem_of_omap.
    unfold corridor_of in Hhit. cbn [fst snd] in Hhit.
    destruct (c_relation l) as [lr|] eqn:Hl; [|done]. destruct (c_relation r) as [rr|] eqn:Hr; [|done].
    cbn [mbind option_bind] in Hhit. destruct (shareEndpoint lr rr) eqn:Hsh; [done|].
    pose proof (longest_corridor_spec m l r) as Hs. rewrite Hhit in Hs.
    destruct Hs as [([[p s] [q t]]&o&Hst&[Ho Hm]&->) _].
    apply list_elem_of_bind in Hst as (ps&Hps&Hin).
    apply list_elem_of_fmap_1 in Hps as (qt&[= <- <-]&Hqt).
    apply elem_of_indexed in Hin, Hqt.
    cbn [corridor_at co_left co_right co_leftSegment co_rightSegment co_overlap fst snd] in *.
    exists i, j, lr, rr, s, t. split_and!; done.
  - intros i j l r lr rr s t o Hij Hi Hj Hl Hr Hsh [p Hp]%list_elem_of_lookup_1
      [q Hq]%list_elem_of_lookup_1 Ho Hm.
    pose proof (longest_corridor_spec m l r) as Hs.
    assert (Hst : ((p, s), (q, t)) ∈ indexed_segments l ≫= λ s, map (λ t, (s, t)) (indexed_segments r)).
    { apply list_elem_of_bind. exists (p, s). rewrite elem_of_indexed. split; [|done].
      apply (list_elem_of_fmap_2 (pair (p, s))). by apply elem_of_indexed. }
    destruct (longest_corridor m l r) as [hit|] eqn:Hhit.
    + destruct Hs as [(st&o'&_&_&->) Hmax].
      exists (corridor_at l r st o'). split; [|split; [done|split; [done|by apply (Hmax _ _ Hst)]]].
      apply list_elem_of_omap. exists (l, r). split; [apply elem_of_pairs; eauto|].
      unfold corridor_of. cbn [fst snd]. rewrite Hl, Hr. cbn [mbind option_bind]. by rewrite Hsh.
    + exfalso. by apply (Hs _ o Hst).
Qed.
