(* ===== verification/Ports.v ===== *)
(** * Ports, labels and paths of relationships
      ([src/.agents/skills/archify/renderers/shared/geometry.mjs], the routing helpers)

    Where a relationship leaves and enters a box: the side and its anchor, the
    spread of the ports that share an anchor, the bridge around anchors too close
    to each other, and the path and the label drawn for the route. *)

From Stdlib Require Import QArith Qminmax Qabs Lqa.
From stdpp Require Import gmap sorting strings.
From S2P Require Import Prelude Num Geometry Routes Analyses.
#[local] Open Scope Z_scope.

(** The measured rectangle of a node, [cx] and [cy] being its centre. *)
Record box (N : Type) := { bx_id : string; bx_rect : rect N; cx : N; cy : N }.
Arguments bx_id {N} _.
Arguments bx_rect {N} _.
Arguments cx {N} _.
Arguments cy {N} _.

(** [parts.join(separator)] *)
Definition join (separator : string) (parts : list string) : string := String.concat separator parts.

Section Ports.
Context {N : Type} `{!JsNum N, !JsMath N}.
#[local] Open Scope js_scope.
#[local] Notation point := (point N) (only parsing).
Implicit Types (p : point) (ps : list point).

(** ** Sides *)
Definition anchor (b : box N) (side : string) : point :=
  let r := bx_rect b in
  match parse_side side with
  | Some SideLeft => (x_ r, cy b)
  | Some SideRight => (x_ r + width r, cy b)
  | Some SideTop => (cx b, y_ r)
  | Some SideBottom => (cx b, y_ r + height r)
  | None => (x_ r + width r, cy b)
  end.

Definition defaultFromSide (from to : box N) : string :=
  if cx to <? cx from then "left"
  else if cx to >? cx from then "right"
  else if cy to >? cy from then "bottom"
  else "top".

Definition defaultToSide (from to : box N) : string :=
  if cx to <? cx from then "right"
  else if cx to >? cx from then "left"
  else if cy to >? cy from then "top"
  else "bottom".

Definition chosenSide (side : option string) (fallback : string) : string :=
  match side with
  | Some s => if nonempty side && negb (bool_decide (s = "auto")) then s else fallback
  | None => fallback
  end.

(** ** The bridge between anchors that are nearly aligned *)
Definition PORT_OUTWARD_VECTOR (side : string) : option (Z * Z) :=
  match parse_side side with
  | Some SideLeft => Some (-1, 0)
  | Some SideRight => Some (1, 0)
  | Some SideTop => Some (0, -1)
  | Some SideBottom => Some (0, 1)
  | None => None
  end%Z.

Definition stub (endpointStubPx : N) p (v : Z * Z) : point :=
  (p.1 + nof v.1 * endpointStubPx, p.2 + nof v.2 * endpointStubPx).

Definition bridge_candidates (start end_ startStub endStub : point) (fromSide toSide : string)
    (interiorSegmentPx : N) : list (list point) :=
  let verticalSides s := bool_decide (s = "top") || bool_decide (s = "bottom") in
  let horizontalSides s := bool_decide (s = "left") || bool_decide (s = "right") in
  (if verticalSides fromSide && verticalSides toSide && (nabs (start.1 - end_.1) <? interiorSegmentPx)
   then map (λ channelX, [start; startStub; (channelX, startStub.2); (channelX, endStub.2); endStub; end_])
          [nmax start.1 end_.1 + interiorSegmentPx; nmin start.1 end_.1 - interiorSegmentPx]
   else []) ++
  (if horizontalSides fromSide && horizontalSides toSide && (nabs (start.2 - end_.2) <? interiorSegmentPx)
   then map (λ channelY, [start; startStub; (startStub.1, channelY); (endStub.1, channelY); endStub; end_])
          [nmax start.2 end_.2 + interiorSegmentPx; nmin start.2 end_.2 - interiorSegmentPx]
   else []).

(** The default [microSegmentPx] of [collectRouteRhythmIssues]. *)
Definition default_microSegmentPx : N := nof 8.

Definition bridge_accepts (fromSide toSide : string) (interiorSegmentPx : N)
    (accept : option (list point → bool)) ps : bool :=
  routeHonorsEndpointSides ps fromSide toSide &&
  (length (collectRouteRhythmIssues interiorSegmentPx default_microSegmentPx
     [{| ro_relation := None; ro_index := None; ro_points := ps; ro_segments := None |}]) =? 0)%nat &&
  match accept with Some f => f ps | None => true end.

Definition automaticPortRhythmBridge (start end_ : point) (fromSide toSide : string)
    (endpointStubPx interiorSegmentPx : N) (accept : option (list point → bool)) : option (list point) :=
  if negb (finite_point start && finite_point end_) then None
  else
    fromVector ← PORT_OUTWARD_VECTOR fromSide;
    toVector ← PORT_OUTWARD_VECTOR toSide;
    head (filter (λ ps, bridge_accepts fromSide toSide interiorSegmentPx accept ps = true)
      (map normalizeRoutePoints
        (bridge_candidates start end_ (stub endpointStubPx start fromVector) (stub endpointStubPx end_ toVector)
           fromSide toSide interiorSegmentPx))).

(** ** Spreading the ports that share an anchor *)
Record port := {
  pt_relation : relation N; pt_endpoint : endpoint; pt_rect : box N; pt_side : string; pt_counterpart : box N
}.

(** The entry of the map [spread] for a relationship. *)
Record ends := { ends_from : option point; ends_to : option point }.

(** [groups]: a Map iterates its keys in the order of their first insertion. *)
Fixpoint group_add (key : string) (item : port) (groups : list (string * list port))
    : list (string * list port) :=
  match groups with
  | [] => [(key, [item])]
  | (k, items) :: groups =>
      if bool_decide (k = key) then (k, items ++ [item]) :: groups
      else (k, items) :: group_add key item groups
  end.
Definition add_port (groups : list (string * list port)) (item : port) : list (string * list port) :=
  group_add (bx_id (pt_rect item) +:+ NUL +:+ pt_side item) item groups.

Definition is_auto (r : relation N) : bool :=
  negb (nonempty (rel_route r) && negb (bool_decide (rel_route r = Some "auto"))) &&
  negb (rel_via r || rel_channelX r || rel_channelY r || bool_decide (is_Some (labelAt r))).

(** [sideFor?.(relation, endpoint) || fallback] *)
Definition side_or (sideFor : option (relation N → endpoint → option string)) (r : relation N)
    (e : endpoint) (fallback : string) : string :=
  match sideFor with
  | Some f => let s := f r e in if nonempty s then text_or_empty s else fallback
  | None => fallback
  end.

(** The two ports of a relationship, when it is routed automatically between known boxes. *)
Definition ports_of (boxes : string → option (box N))
    (sideFor : option (relation N → endpoint → option string)) (r : relation N) : list port :=
  if negb (is_auto r) then []
  else match boxes (rel_from r), boxes (rel_to r) with
  | Some from, Some to =>
      let fromSide := chosenSide (rel_fromSide r) (side_or sideFor r Source (defaultFromSide from to)) in
      let toSide := chosenSide (rel_toSide r) (side_or sideFor r Target (defaultToSide from to)) in
      [{| pt_relation := r; pt_endpoint := Source; pt_rect := from; pt_side := fromSide; pt_counterpart := to |};
       {| pt_relation := r; pt_endpoint := Target; pt_rect := to; pt_side := toSide; pt_counterpart := from |}]
  | _, _ => []
  end.

Definition vertical_side (side : string) : bool := bool_decide (side = "left") || bool_decide (side = "right").

Definition port_key (a : port) : string :=
  let r := pt_relation a in
  text_or_empty (rel_id r) +:+ NUL +:+ rel_from r +:+ NUL +:+ rel_to r +:+ NUL +:+ text_or_empty (rel_label r).

Definition port_le (verticalSide : bool) (a b : port) : bool :=
  let coordinate (i : port) := if verticalSide then cy (pt_counterpart i) else cx (pt_counterpart i) in
  let ca := coordinate a in
  let cb := coordinate b in
  if negb ((ca <=? cb) && (cb <=? ca)) then negb (ca - cb >? nof 0)
  else negb (String.ltb (port_key b) (port_key a)).

Definition port_spacing (gutter maxSpacing extent : N) (count : nat) : N :=
  let usable := nmax (nof 0) (extent - gutter * nof 2) in
  nmin maxSpacing (usable / nof (Z.of_nat count - 1)).

Definition port_point (verticalSide : bool) (spacing : N) (count index : nat) (item : port) : point :=
  let offset := (nof (Z.of_nat index) - nof (Z.of_nat count - 1) / nof 2) * spacing in
  let p := anchor (pt_rect item) (pt_side item) in
  if verticalSide then (p.1, p.2 + offset) else (p.1 + offset, p.2).

(** The port points of a group, or nothing when it is not spread. *)
Definition group_points (gutter maxSpacing : N) (items : list port) : list (port * point) :=
  match items with
  | first :: _ :: _ =>
      let verticalSide := vertical_side (pt_side first) in
      match merge_sort (before (port_le verticalSide)) items with
      | (item0 :: _) as items =>
          let extent := if verticalSide then height (bx_rect (pt_rect item0))
                        else width (bx_rect (pt_rect item0)) in
          let spacing := port_spacing gutter maxSpacing extent (length items) in
          if spacing >? nof 0
          then imap (λ i item, (item, port_point verticalSide spacing (length items) i item)) items
          else []
      | [] => []
      end
  | _ => []
  end.

Definition set_end (spread : gmap nat ends) (ip : port * point) : gmap nat ends :=
  let '(item, p) := ip in
  let old := default {| ends_from := None; ends_to := None |} (spread !! rel_ref (pt_relation item)) in
  <[rel_ref (pt_relation item) :=
      match pt_endpoint item with
      | Source => {| ends_from := Some p; ends_to := ends_to old |}
      | Target => {| ends_from := ends_from old; ends_to := Some p |}
      end]> spread.

Definition automaticPortSpread (relations : list (relation N)) (boxes : string → option (box N))
    (gutter maxSpacing : N) (sideFor : option (relation N → endpoint → option string)) : gmap nat ends :=
  let groups := foldl add_port [] (relations ≫= ports_of boxes sideFor) in
  foldl set_end ∅ (groups ≫= λ g, group_points gutter maxSpacing g.2).

(** ** Paths and labels *)
Definition polylinePath ps : string :=
  join " " (imap (λ i p, (if (i =? 0)%nat then "M" else "L") +:+ " " +:+ nshow p.1 +:+ " " +:+ nshow p.2) ps).

Definition routePointsValue ps : string :=
  join ";" (map (λ p, nshow p.1 +:+ "," +:+ nshow p.2) (filter (λ p, finite_point p = true) ps)).

Definition line_to p : string := "L " +:+ nshow p.1 +:+ " " +:+ nshow p.2.

(** The commands at the corner [c] between [p] and [n]. *)
Definition corner (radius : N) p (c n : point) : list string :=
  let prevLen := nhypot (c.1 - p.1) (c.2 - p.2) in
  let nextLen := nhypot (n.1 - c.1) (n.2 - c.2) in
  let r := nmin (nmin radius (prevLen / nof 2)) (nextLen / nof 2) in
  if r <? nof 1 then [line_to c]
  else
    let before := (c.1 - (c.1 - p.1) / prevLen * r, c.2 - (c.2 - p.2) / prevLen * r) in
    let after := (c.1 + (n.1 - c.1) / nextLen * r, c.2 + (n.2 - c.2) / nextLen * r) in
    [line_to before;
     "Q " +:+ nshow c.1 +:+ " " +:+ nshow c.2 +:+ " " +:+ nshow after.1 +:+ " " +:+ nshow after.2].

Fixpoint corners_from (radius : N) ps : list string :=
  match ps with
  | p :: (c :: n :: _) as rest => corner radius p c n ++ corners_from radius rest
  | _ => []
  end.

Definition roundedPath ps (radius : N) : string :=
  match ps, last ps with
  | first :: _ :: _ :: _, Some end_ =>
      if radius <=? nof 0 then polylinePath ps
      else join " " (("M " +:+ nshow first.1 +:+ " " +:+ nshow first.2) :: corners_from radius ps ++ [line_to end_])
  | _, _ => polylinePath ps
  end.

(** [None]: the source reads a coordinate of a missing point and throws. *)
Definition labelPoint (item : relation N) ps : option point :=
  let dx := number_or_0 (labelDx item) in
  let dy := number_or_0 (labelDy item) in
  match labelAt item with
  | Some p => Some p
  | None =>
      match ps with
      | [p0; p1] => Some ((p0.1 + p1.1) / nof 2 + dx, p0.2 - nof 10 + dy)
      | _ =>
          let segmentIndex := Z.min (Z.of_nat (length ps) - 2) (Z.max 0 (default 1 (labelSegment item)))%Z in
          if (segmentIndex <? 0)%Z then None
          else
            a ← ps !! Z.to_nat segmentIndex;
            b ← ps !! S (Z.to_nat segmentIndex);
            Some ((a.1 + b.1) / nof 2 + dx, (a.2 + b.2) / nof 2 - nof 10 + dy)
      end
  end.
End Ports.
Arguments port : clear implicits.
Arguments ends : clear implicits.

(** ** Classes of the drawn elements *)
Definition component_types : list string :=
  ["frontend"; "backend"; "database"; "cloud"; "security"; "messagebus"; "external"].

Definition componentFill (type : string) : option string :=
  if bool_decide (type ∈ component_types) then Some ("c-" +:+ type) else None.
Definition componentText (type : string) : option string :=
  if bool_decide (type ∈ component_types) then Some ("t-" +:+ type) else None.

Definition arrowClassMap (variant : string) : option (string * string) :=
  if bool_decide (variant = "default") then Some ("a-default", "arrowhead")
  else if bool_decide (variant ∈ ["emphasis"; "security"; "dashed"])
  then Some ("a-" +:+ variant, "arrowhead-" +:+ variant)
  else None.

Definition variantAccent (variant dashed : string) : string :=
  if bool_decide (variant = "security") then "t-security"
  else if bool_decide (variant = "emphasis") then "t-backend"
  else if bool_decide (variant = "dashed") then dashed
  else "t-muted".

Example polyline_ex : componentFill "cloud" = Some "c-cloud" ∧ arrowClassMap "default" = Some ("a-default", "arrowhead").
Proof. done. Qed.

(** * Properties *)

(** ** The bridge *)
Section Bridge.
Context {N : Type} `{!JsNum N, !JsMath N}.

Lemma finite_first (p : point N) ps : finite_point p = true →
  head (filter (λ q, finite_point q = true) (p :: ps)) = Some p.
Proof. intros H. by rewrite filter_cons_True. Qed.

Lemma finite_last (p : point N) ps : finite_point p = true →
  last (filter (λ q, finite_point q = true) (ps ++ [p])) = Some p.
Proof. intros H. rewrite filter_app, filter_cons_True by done. apply last_snoc. Qed.

Lemma bridge_candidates_ends (start end_ startStub endStub : point N) fromSide toSide interiorSegmentPx ps :
  ps ∈ bridge_candidates start end_ startStub endStub fromSide toSide interiorSegmentPx →
  ∃ inner, ps = start :: inner ++ [end_].
Proof.
  unfold bridge_candidates. rewrite elem_of_app. intros [H|H]; revert H; case_match;
    first [intros (c&->&_)%list_elem_of_fmap_1; eexists [_; _; _; _]; reflexivity|by intros ?%elem_of_nil].
Qed.

(** A bridge goes from the one port to the other (up to the deduplication
    tolerance), leaves and enters the sides it was asked for, has no segment
    under the rhythm floors, and was accepted by the caller.  This holds for
    whatever numbers, doubles included. *)
Theorem automaticPortRhythmBridge_sound (start end_ : point N) fromSide toSide endpointStubPx
    interiorSegmentPx accept ps :
  automaticPortRhythmBridge start end_ fromSide toSide endpointStubPx interiorSegmentPx accept = Some ps →
  head ps = Some start ∧ (∃ q, last ps = Some q ∧ near_point end_ q) ∧
  endpointSideIssue ps Source fromSide = None ∧ endpointSideIssue ps Target toSide = None ∧
  route_issues interiorSegmentPx default_microSegmentPx 0
    {| ro_relation := None; ro_index := None; ro_points := ps; ro_segments := None |} = [] ∧
  (∀ f, accept = Some f → f ps = true).
Proof.
  unfold automaticPortRhythmBridge. destruct (finite_point start) eqn:Hs, (finite_point end_) eqn:He; try done.
  destruct (PORT_OUTWARD_VECTOR fromSide) as [v|]; [|done].
  destruct (PORT_OUTWARD_VECTOR toSide) as [w|]; [|done]. cbn [andb negb mbind option_bind].
  intros [Hacc Hin]%head_Some_elem_of%list_elem_of_filter.
  apply list_elem_of_fmap_1 in Hin as (qs&->&(inner&->)%bridge_candidates_ends).
  unfold bridge_accepts, routeHonorsEndpointSides in Hacc.
  rewrite !andb_true_iff, Nat.eqb_eq in Hacc. destruct Hacc as [[Hsides Hrhythm] Haccept].
  destruct (normalizeRoutePoints_ends (start :: inner ++ [end_])) as [Hhead Hlast].
  split_and!.
  - by rewrite Hhead, finite_first.
  - apply Hlast. by apply (finite_last _ (start :: inner)).
  - by repeat case_match.
  - by repeat case_match.
  - apply nil_length_inv in Hrhythm. unfold collectRouteRhythmIssues in Hrhythm. cbn [imap concat] in Hrhythm.
    by rewrite app_nil_r in Hrhythm.
  - intros f ->. done.
Qed.
End Bridge.

Lemma automaticPortRhythmBridge_sound_witness :
  ∃ qs, automaticPortRhythmBridge (0, 0)%Q (4, 100)%Q "bottom" "top" 24%Q 16%Q None = Some qs ∧
    head qs = Some (0, 0)%Q ∧ endpointSideIssue qs Source "bottom" = None.
Proof.
  destruct (automaticPortRhythmBridge (0, 0)%Q (4, 100)%Q "bottom" "top" 24%Q 16%Q None) as [qs|] eqn:E;
    [|vm_compute in E; discriminate].
  exists qs. split; [reflexivity|].
  destruct (automaticPortRhythmBridge_sound _ _ _ _ _ _ _ _ E) as (Hh&_&H&_). exact (conj Hh H).
Defined.

(** ** The spread, over the rationals *)

(** On the given side of the box, at least [gutter] away from its ends when the
    anchor is at the middle of the side. *)
Definition on_side (b : box Q) (side : string) (gutter : Q) (p : point Q) : Prop :=
  let a := anchor b side in
  if vertical_side side
  then p.1 = a.1 ∧ (nabs (p.2 - a.2) <= height (bx_rect b) / 2 - gutter)%Q
  else p.2 = a.2 ∧ (nabs (p.1 - a.1) <= width (bx_rect b) / 2 - gutter)%Q.

(** The spacing fits [count] ports between the gutters. *)
Lemma port_spacing_fits (gutter maxSpacing extent : Q) (count : nat) : (2 ≤ count)%nat →
  (0 < port_spacing gutter maxSpacing extent count)%Q →
  (port_spacing gutter maxSpacing extent count * inject_Z (Z.of_nat count - 1) <= extent - gutter * 2)%Q.
Proof.
  intros Hc. unfold port_spacing. q_ops. set (m := inject_Z (Z.of_nat count - 1)).
  assert (Hm : (0 < m)%Q) by (change 0%Q with (inject_Z 0); unfold m; rewrite <-Zlt_Qlt; lia).
  set (usable := nmax 0%Q (extent - gutter * 2)%Q).
  pose proof (Q_nmin_le maxSpacing (usable / m)) as [_ Hle]. intros Hpos.
  assert (Hu : (nmin maxSpacing (usable / m) * m <= usable)%Q).
  { assert (E : (usable == usable / m * m)%Q) by (field; lra). rewrite E at 2. nra. }
  unfold usable in Hu at 2. unfold nmax in Hu. cbn [nan Q_num] in Hu. destruct (nle 0%Q _); [done|nra].
Qed.

(** The [i]-th of [m + 1] equally spaced offsets around zero is at most half the span. *)
Lemma centred_offset (i m sp room : Q) : (0 <= i <= m)%Q → (0 < sp)%Q → (sp * m <= room)%Q →
  (nabs ((i - m / 2) * sp) <= room / 2)%Q.
Proof.
  intros Hi Hsp Hr. assert (Hm : (m / 2 == m * (1 # 2))%Q) by field.
  assert (Hr' : (room / 2 == room * (1 # 2))%Q) by field. rewrite Hr'.
  destruct (nabs_cases ((i - m / 2) * sp)) as [[_ ->]|[_ ->]]; rewrite Hm; nra.
Qed.

(** A coordinate moved by an offset is within a distance of where it was. *)
Lemma moved_within (a off c c' : Q) : (nabs off <= c)%Q → (c == c')%Q → (nabs (a + off - a) <= c')%Q.
Proof.
  intros H E. destruct (nabs_cases off) as [[? H1]|[? H1]], (nabs_cases (a + off - a)) as [[? ->]|[? ->]];
    rewrite H1 in H; lra.
Qed.

Section Group.
Context (gutter maxSpacing : Q) (b : box Q) (side : string).

Definition of_group (items : list (port Q)) : Prop :=
  ∀ it, it ∈ items → pt_rect it = b ∧ pt_side it = side.

Lemma group_points_shape (items : list (port Q)) : of_group items →
  group_points gutter maxSpacing items = [] ∨
  ∃ sorted sp, sorted ≡ₚ items ∧ (0 < sp)%Q ∧
    (sp * inject_Z (Z.of_nat (length sorted) - 1) <=
      (if vertical_side side then height (bx_rect b) else width (bx_rect b)) - gutter * 2)%Q ∧
    group_points gutter maxSpacing items =
      imap (λ i it, (it, port_point (vertical_side side) sp (length sorted) i it)) sorted.
Proof.
  intros Hg. unfold group_points. destruct items as [|first [|second items]]; [by left..|].
  destruct (Hg first) as [_ ->]; [by left|].
  set (all := first :: second :: items) in *.
  pose proof (merge_sort_Permutation (before (port_le (vertical_side side))) all) as Hp.
  destruct (merge_sort _ all) as [|item0 sorted] eqn:Hs; [by left|].
  destruct (nlt (nof 0) (port_spacing _ _ _ _)) eqn:Hsp; [right|by left]. q_tests. q_ops.
  destruct (Hg item0) as [Hb _]; [rewrite <-Hp; by left|]. rewrite Hb in *.
  eexists (item0 :: sorted), _. split_and!; [done|exact Hsp| |done].
  assert (Hl : (2 ≤ length (item0 :: sorted))%nat) by (rewrite Hp; cbn; lia).
  pose proof (port_spacing_fits _ _ _ _ Hl Hsp). by destruct (vertical_side side).
Qed.

Lemma group_points_on_side items it p : of_group items →
  (it, p) ∈ group_points gutter maxSpacing items → it ∈ items ∧ on_side b side gutter p.
Proof.
  intros Hg. destruct (group_points_shape items Hg) as [-> |(sorted&sp&Hp&Hsp&Hroom&->)];
    [by intros ?%elem_of_nil|].
  intros (i&it'&Hi&[= -> ->])%elem_of_imap.
  assert (Hin : it' ∈ items) by (rewrite <-Hp; by eapply list_elem_of_lookup_2). split; [done|].
  destruct (Hg it' Hin) as [Hb Hside]. unfold on_side, port_point. rewrite Hb, Hside. q_ops.
  pose proof (lookup_lt_Some _ _ _ Hi) as Hlt.
  assert (Hrange : (0 <= inject_Z (Z.of_nat i) <= inject_Z (Z.of_nat (length sorted) - 1))%Q).
  { change 0%Q with (inject_Z 0). rewrite <-!Zle_Qle. lia. }
  pose proof (centred_offset _ _ sp _ Hrange Hsp Hroom) as Hc.
  destruct (vertical_side side); cbn [fst snd]; split; try done; apply (moved_within _ _ _ _ Hc); field.
Qed.

(** Different ports of a group are at different points. *)
Lemma group_points_distinct items it it' p p' : of_group items → it ≠ it' →
  (it, p) ∈ group_points gutter maxSpacing items → (it', p') ∈ group_points gutter maxSpacing items →
  ¬ same_point p p'.
Proof.
  intros Hg Hne. destruct (group_points_shape items Hg) as [-> |(sorted&sp&Hp&Hsp&_&->)];
    [by intros ?%elem_of_nil|].
  intros (i&x&Hi&[= -> ->])%elem_of_imap (j&y&Hj&[= -> ->])%elem_of_imap [H1 H2].
  destruct (Hg x) as [Hb Hs]; [rewrite <-Hp; by eapply list_elem_of_lookup_2|].
  destruct (Hg y) as [Hb' Hs']; [rewrite <-Hp; by eapply list_elem_of_lookup_2|].
  assert (Hij : (inject_Z (Z.of_nat i) == inject_Z (Z.of_nat j))%Q).
  { unfold port_point in H1, H2. rewrite Hb, Hs, Hb', Hs' in H1, H2. q_ops.
    set (m := (inject_Z (Z.of_nat (length sorted) - 1) / 2)%Q) in *. clearbody m.
    assert (E : ((inject_Z (Z.of_nat i) - m) * sp == (inject_Z (Z.of_nat j) - m) * sp)%Q)
      by (destruct (vertical_side side); cbn [fst snd] in H1, H2; lra).
    apply Qmult_inj_r in E; [lra|]. intros E0. rewrite E0 in Hsp. by apply Qlt_irrefl in Hsp. }
  apply inject_Z_injective, Nat2Z.inj in Hij as ->. congruence.
Qed.
End Group.

(** The point the spread gives a port. *)
Definition spread_at (spread : gmap nat (ends Q)) (it : port Q) : option (point Q) :=
  e ← spread !! rel_ref (pt_relation it);
  match pt_endpoint it with Source => ends_from e | Target => ends_to e end.

(** Ports of the same end of the same relationship. *)
Definition same_end (it it' : port Q) : Prop :=
  rel_ref (pt_relation it) = rel_ref (pt_relation it') ∧ pt_endpoint it = pt_endpoint it'.

Lemma spread_at_set (spread : gmap nat (ends Q)) it it0 p p0 :
  spread_at (set_end spread (it0, p0)) it = Some p →
  (same_end it0 it ∧ p = p0) ∨ spread_at spread it = Some p.
Proof.
  unfold spread_at, set_end, same_end.
  destruct (decide (rel_ref (pt_relation it0) = rel_ref (pt_relation it))) as [E|E].
  - rewrite E, lookup_insert_eq. destruct (spread !! rel_ref (pt_relation it)) as [e|];
      destruct (pt_endpoint it0), (pt_endpoint it); cbn; intros H; simplify_eq; auto.
  - rewrite lookup_insert_ne by done. auto.
Qed.

Lemma spread_at_foldl (l : list (port Q * point Q)) it p :
  spread_at (foldl set_end ∅ l) it = Some p → ∃ it0, (it0, p) ∈ l ∧ same_end it0 it.
Proof.
  induction l as [|[it1 p1] l IH] using rev_ind.
  { unfold spread_at. cbn. by rewrite lookup_empty. }
  rewrite foldl_snoc. intros [[? ->]|(it0&?&?)%IH]%spread_at_set.
  - exists it1. split; [|done]. apply elem_of_app. right. by left.
  - exists it0. split; [|done]. apply elem_of_app. by left.
Qed.

Lemma group_points_incl gutter maxSpacing (items : list (port Q)) it p :
  (it, p) ∈ group_points gutter maxSpacing items → it ∈ items.
Proof.
  unfold group_points. destruct items as [|first [|second items]]; [by intros ?%elem_of_nil..|].
  set (all := first :: second :: items).
  pose proof (merge_sort_Permutation (before (port_le (vertical_side (pt_side first)))) all) as Hp.
  destruct (merge_sort _ all) as [|item0 sorted]; [by intros ?%elem_of_nil|].
  case_match; [|by intros ?%elem_of_nil]. intros (i&x&Hi&[= -> ->])%elem_of_imap.
  rewrite <-Hp. by eapply list_elem_of_lookup_2.
Qed.

(** ** Groups *)
Definition group_key (it : port Q) : string := bx_id (pt_rect it) +:+ NUL +:+ pt_side it.

(** Keys are distinct, and a group holds ports of its key, among [items]. *)
Definition groups_ok (items : list (port Q)) (groups : list (string * list (port Q))) : Prop :=
  NoDup groups.*1 ∧ ∀ k its it, (k, its) ∈ groups → it ∈ its → group_key it = k ∧ it ∈ items.

Lemma group_add_keys k (it : port Q) groups : (group_add k it groups).*1 ⊆ k :: groups.*1.
Proof. induction groups as [|[k' its] groups IH]; cbn; [done|]. case_bool_decide; cbn; set_solver. Qed.

Lemma group_add_ok items groups it : groups_ok items groups →
  groups_ok (items ++ [it]) (add_port groups it).
Proof.
  unfold add_port. fold (group_key it). intros [Hnd Hok]. split.
  - clear Hok. induction groups as [|[k' its] groups IH]; cbn [group_add]; [apply NoDup_singleton|].
    apply NoDup_cons in Hnd as [Hk Hnd]. case_bool_decide; [by apply NoDup_cons|].
    apply NoDup_cons. split; [|auto]. intros Hin%group_add_keys. set_solver.
  - intros k its x Hk Hx. rewrite elem_of_app, list_elem_of_singleton.
    assert (Hcases : (k = group_key it ∧ x = it) ∨ ∃ its', (k, its') ∈ groups ∧ x ∈ its').
    { clear Hnd Hok. induction groups as [|[k' its'] groups IH]; cbn [group_add] in Hk.
      - apply list_elem_of_singleton in Hk. simplify_eq. apply list_elem_of_singleton in Hx. auto.
      - case_bool_decide as E; apply elem_of_cons in Hk as [Hk|Hk].
        + simplify_eq. apply elem_of_app in Hx as [Hx|Hx%list_elem_of_singleton]; [right|by left].
          exists its'. split; [by left|done].
        + right. eexists. split; [by right|done].
        + simplify_eq. right. eexists. split; [by left|done].
        + destruct (IH Hk) as [?|(i&?&?)]; [by left|right]. exists i. split; [by right|done]. }
    destruct Hcases as [[-> ->]|(its'&Hin&Hx')]; [auto|]. destruct (Hok _ _ _ Hin Hx'). auto.
Qed.

Lemma NoDup_fst_inj {A B} (l : list (A * B)) a b b' :
  NoDup l.*1 → (a, b) ∈ l → (a, b') ∈ l → b = b'.
Proof.
  intros Hnd [i Hi]%list_elem_of_lookup_1 [j Hj]%list_elem_of_lookup_1.
  assert (i = j); [|congruence].
  apply (NoDup_lookup l.*1 i j a Hnd); by rewrite list_lookup_fmap, ?Hi, ?Hj.
Qed.

Lemma groups_of_ok (items : list (port Q)) : groups_ok items (foldl add_port [] items).
Proof.
  induction items as [|it items IH] using rev_ind; [split; [constructor|by intros ??? ?%elem_of_nil]|].
  rewrite foldl_snoc. by apply group_add_ok.
Qed.

(** A key determines the identifier and the side. *)
Fixpoint nul_free (s : string) : bool :=
  match s with EmptyString => true | String c s => negb (Ascii.eqb c Ascii.zero) && nul_free s end.

Lemma append_cons c (s s' : string) : String c s +:+ s' = String c (s +:+ s').
Proof. reflexivity. Qed.

Lemma nul_free_split (id s : string) : nul_free (id +:+ NUL +:+ s) = false.
Proof.
  induction id as [|c id IH]; [done|]. rewrite append_cons. cbn [nul_free]. by rewrite IH, andb_false_r.
Qed.

Lemma nul_split_inj (id id' s s' : string) : nul_free s = true → nul_free s' = true →
  id +:+ NUL +:+ s = id' +:+ NUL +:+ s' → id = id' ∧ s = s'.
Proof.
  intros Hs Hs'. revert id'. induction id as [|c id IH]; intros [|c' id'] H; rewrite ?append_cons in H.
  - by injection H.
  - injection H as _ H. pose proof (nul_free_split id' s') as Hf. rewrite <-H in Hf.
    change (nul_free s = false) in Hf. congruence.
  - injection H as _ H. pose proof (nul_free_split id s) as Hf. rewrite H in Hf.
    change (nul_free s' = false) in Hf. congruence.
  - injection H as -> H. by destruct (IH id' H) as [-> ->].
Qed.

Lemma parse_side_nul_free s : is_Some (parse_side s) → nul_free s = true.
Proof.
  unfold parse_side. intros [x Hx]. repeat case_bool_decide; simplify_eq; done.
Qed.

Section Spread.
Context (boxes : string → option (box Q)) (sideFor : option (relation Q → endpoint → option string)).
Context (relations : list (relation Q)).

(** The ports of all the relationships. *)
Definition all_ports : list (port Q) := relations ≫= ports_of boxes sideFor.

(** Every box is stored under its identifier, and every side is one of the four. *)
Definition well_keyed : Prop := ∀ id b, boxes id = Some b → bx_id b = id.
Definition known_sides : Prop := ∀ it, it ∈ all_ports → is_Some (parse_side (pt_side it)).

Lemma elem_of_all_ports it : it ∈ all_ports → pt_relation it ∈ relations ∧
  it ∈ ports_of boxes sideFor (pt_relation it) ∧ ∃ id, boxes id = Some (pt_rect it).
Proof.
  intros (r&Hit&Hr)%list_elem_of_bind. unfold ports_of in Hit |- *.
  destruct (is_auto r) eqn:Ha; cbn [negb] in Hit; [|by apply elem_of_nil in Hit].
  destruct (boxes (rel_from r)) as [bf|] eqn:Hf; [|by apply elem_of_nil in Hit].
  destruct (boxes (rel_to r)) as [bt|] eqn:Ht; [|by apply elem_of_nil in Hit].
  rewrite elem_of_cons, list_elem_of_singleton in Hit.
  destruct Hit as [-> | ->]; cbn [pt_relation pt_rect]; rewrite Ha; cbn [negb]; rewrite Hf, Ht;
    (split; [done|]); split; eauto; [by left|right; by left].
Qed.

Lemma all_ports_same_end it it' : NoDup (map rel_ref relations) →
  it ∈ all_ports → it' ∈ all_ports → same_end it it' → it = it'.
Proof.
  intros Hnd (Hr&Hit&_)%elem_of_all_ports (Hr'&Hit'&_)%elem_of_all_ports [Href Hend].
  assert (E : pt_relation it = pt_relation it').
  { apply list_elem_of_lookup_1 in Hr as [i Hi], Hr' as [j Hj].
    assert (i = j); [|congruence].
    eapply (NoDup_lookup _ _ _ _ Hnd); change (map rel_ref relations) with (rel_ref <$> relations);
      rewrite list_lookup_fmap; [by rewrite Hi|rewrite Hj; cbn; by rewrite Href]. }
  rewrite <-E in Hit'. unfold ports_of in Hit, Hit'.
  destruct (is_auto _); cbn [negb] in *; [|by apply elem_of_nil in Hit].
  destruct (boxes (rel_from _)); [|by apply elem_of_nil in Hit].
  destruct (boxes (rel_to _)); [|by apply elem_of_nil in Hit].
  rewrite elem_of_cons, list_elem_of_singleton in Hit, Hit'.
  destruct Hit as [Hx|Hx], Hit' as [Hy|Hy]; try congruence; rewrite Hx, Hy in Hend; done.
Qed.

Lemma group_key_box it it' : well_keyed → known_sides → it ∈ all_ports → it' ∈ all_ports →
  group_key it = group_key it' ↔ pt_rect it = pt_rect it' ∧ pt_side it = pt_side it'.
Proof.
  intros Hw Hk Hit Hit'. split; [|by intros [E E']; unfold group_key; rewrite E, E'].
  intros [Hid Hs]%nul_split_inj; [|by apply parse_side_nul_free, Hk..].
  apply elem_of_all_ports in Hit as (_&_&id&Hb), Hit' as (_&_&id'&Hb').
  split; [|done]. apply Hw in Hb as E, Hb' as E'. congruence.
Qed.

(** Where a spread port comes from. *)
Lemma spread_group gutter maxSpacing it p :
  NoDup (map rel_ref relations) → well_keyed → known_sides → it ∈ all_ports →
  spread_at (automaticPortSpread relations boxes gutter maxSpacing sideFor) it = Some p →
  ∃ its, (group_key it, its) ∈ foldl add_port [] all_ports ∧
    of_group (pt_rect it) (pt_side it) its ∧ (it, p) ∈ group_points gutter maxSpacing its.
Proof.
  intros Hnd Hw Hk Hit (it0&Hin&Hsame)%spread_at_foldl. fold all_ports in Hin.
  apply list_elem_of_bind in Hin as ([k its]&Hp&Hg). cbn [snd] in Hp.
  destruct (groups_of_ok all_ports) as [_ Hok].
  destruct (Hok k its it0 Hg) as [Hkey Hall]; [by eapply group_points_incl|].
  assert (it0 = it) as -> by by apply all_ports_same_end. exists its. rewrite Hkey.
  split_and!; [done| |done]. intros x Hx. destruct (Hok k its x Hg Hx) as [Hkx Hx'].
  apply (group_key_box x it); congruence || done.
Qed.

(** C38: the ports that share a side of a box are spread along that side: each
    point of the result is on the side its relationship was given, off the anchor
    by at most half the side less the gutter, and two different ports on one side
    of a box never get the same point. *)
Theorem automaticPortSpread_ports (gutter maxSpacing : Q) :
  NoDup (map rel_ref relations) → well_keyed → known_sides →
  let spread := automaticPortSpread relations boxes gutter maxSpacing sideFor in
  (∀ it p, it ∈ all_ports → spread_at spread it = Some p →
    on_side (pt_rect it) (pt_side it) gutter p) ∧
  (∀ it it' p p', it ∈ all_ports → it' ∈ all_ports → it ≠ it' →
    pt_rect it = pt_rect it' → pt_side it = pt_side it' →
    spread_at spread it = Some p → spread_at spread it' = Some p' → ¬ same_point p p').
Proof.
  intros Hnd Hw Hk spread. split.
  - intros it p Hit Hp. destruct (spread_group _ _ it p Hnd Hw Hk Hit Hp) as (its&_&Hof&Hin).
    by apply (group_points_on_side gutter maxSpacing _ _ its it p Hof).
  - intros it it' p p' Hit Hit' Hne Hb Hs Hp Hp'.
    destruct (spread_group _ _ it p Hnd Hw Hk Hit Hp) as (its&Hg&Hof&Hin).
    destruct (spread_group _ _ it' p' Hnd Hw Hk Hit' Hp') as (its'&Hg'&_&Hin').
    assert (Hkey : group_key it' = group_key it) by (unfold group_key; by rewrite Hb, Hs).
    rewrite Hkey in Hg'. destruct (groups_of_ok all_ports) as [Hnk _].
    assert (its' = its) as -> by by eapply (NoDup_fst_inj _ (group_key it)).
    by apply (group_points_distinct gutter maxSpacing (pt_rect it) (pt_side it) its it it' p p' Hof Hne).
Qed.
End Spread.

Definition ex_boxes (id : string) : option (box Q) :=
  let square (x y : Q) :=
    Some {| bx_id := id; bx_rect := {| x_ := x; y_ := y; width := 100; height := 100 |}%Q;
            cx := (x + 50)%Q; cy := (y + 50)%Q |} in
  if bool_decide (id = "a") then square 0%Q 0%Q
  else if bool_decide (id = "b") then square 300%Q 0%Q
  else if bool_decide (id = "c") then square 300%Q 200%Q
  else None.
Definition ex_link (ref : nat) (to : string) : relation Q :=
  {| rel_ref := ref; rel_key := None; rel_id := None; rel_from := "a"; rel_to := to; rel_label := None;
     rel_fromSide := None; rel_toSide := None; rel_route := None; rel_via := false; rel_channelX := false;
     rel_channelY := false; labelAt := None; labelDx := None; labelDy := None; labelSegment := None |}.
Definition ex_port (ref : nat) (to : string) : port Q :=
  {| pt_relation := ex_link ref to; pt_endpoint := Source;
     pt_rect := default {| bx_id := ""; bx_rect := {| x_ := 0; y_ := 0; width := 0; height := 0 |}%Q;
                           cx := 0%Q; cy := 0%Q |} (ex_boxes "a");
     pt_side := "right"; pt_counterpart := default {| bx_id := "";
                           bx_rect := {| x_ := 0; y_ := 0; width := 0; height := 0 |}%Q;
                           cx := 0%Q; cy := 0%Q |} (ex_boxes to) |}.

(** Two relationships leave the right side of one box, seven pixels above and
    below its middle. *)
Lemma automaticPortSpread_ports_witness :
  let spread := automaticPortSpread [ex_link 0 "c"; ex_link 1 "b"] ex_boxes 16%Q 14%Q None in
  (∀ p, spread_at spread (ex_port 0 "c") = Some p → on_side (pt_rect (ex_port 0 "c")) "right" 16%Q p) ∧
  (∀ p p', spread_at spread (ex_port 0 "c") = Some p → spread_at spread (ex_port 1 "b") = Some p' →
    ¬ same_point p p').
Proof.
  intros spread.
  destruct (automaticPortSpread_ports ex_boxes None [ex_link 0 "c"; ex_link 1 "b"] 16%Q 14%Q) as [H1 H2].
  - apply (bool_decide_unpack _). vm_compute. exact I.
  - intros id b. unfold ex_boxes. repeat case_bool_decide; intros [= <-]; done.
  - unfold known_sides. apply Forall_forall. unfold all_ports. vm_compute. repeat constructor; by eexists.
  - split.
    + intros p Hp. apply (H1 (ex_port 0 "c") p); [by left|exact Hp].
    + intros p p' Hp Hp'. apply (H2 (ex_port 0 "c") (ex_port 1 "b") p p'); try done.
      * by left.
      * right; right; by left.
Defined.

Example spread_points :
  let spread := automaticPortSpread [ex_link 0 "c"; ex_link 1 "b"] ex_boxes 16%Q 14%Q None in
  (λ p : point Q, (Qred p.1, Qred p.2)) <$> spread_at spread (ex_port 1 "b") = Some (100%Q, 43%Q).
Proof. vm_compute. reflexivity. Qed.
