(* ===== verification/Checks.v ===== *)
(** * Composition gates
      ([src/.agents/skills/archify/renderers/shared/geometry.mjs], the [clean...Problems]
      functions, and [diagnostics.mjs])

    Each gate turns the collisions of a diagram into diagnostics: a message and
    its evidence.  A gate returns the messages, and records the diagnostics with
    the recorder of the process. *)

From Stdlib Require Import QArith.
From stdpp Require Import pretty strings.
From S2P Require Import Prelude Num JsValue Config Geometry Routes Analyses Ports.
#[local] Open Scope Z_scope.

Definition cat (parts : list string) : string := join "" parts.

(** A double quote, a new line, and a string between double quotes. *)
Definition DQ : string := String (Ascii.ascii_of_nat 34) EmptyString.
Definition NL : string := String (Ascii.ascii_of_nat 10) EmptyString.
Definition quoted (s : string) : string := cat [DQ; s; DQ].

(** ** Diagnostics *)
Record subject := {
  su_diagramType : string; su_collection : string; su_index : Z; su_id : option string;
  su_from : option string; su_to : option string
}.

Inductive evidence (N : Type) :=
  | EvString (s : string)
  | EvNumber (x : N)
  | EvIndex (i : Z)
  | EvPoint (p : point N)
  | EvRect (r : rect N)
  | EvSubject (s : subject).
Arguments EvString {N} _.
Arguments EvNumber {N} _.
Arguments EvIndex {N} _.
Arguments EvPoint {N} _.
Arguments EvRect {N} _.
Arguments EvSubject {N} _.

Record diagnostic (N : Type) := {
  d_code : string; d_message : string; d_subject : subject;
  d_evidence : list (string * option (evidence N)); supportedFixes : list string
}.
Arguments d_code {N} _.
Arguments d_message {N} _.
Arguments d_subject {N} _.
Arguments d_evidence {N} _.
Arguments supportedFixes {N} _.

(** The state of the module: whether the process reports diagnostics, the depth
    of the calls that suppress them, and the diagnostics recorded. *)
Record recorder (N : Type) := {
  DIAGNOSTIC_MODE : bool; recordingSuppressionDepth : nat; recorded : list (diagnostic N)
}.
Arguments DIAGNOSTIC_MODE {N} _.
Arguments recordingSuppressionDepth {N} _.
Arguments recorded {N} _.

Section Diagnostics.
Context {N : Type}.
Implicit Types (d : diagnostic N) (r : recorder N).

(** [plainObject]: the entries that are not undefined. *)
Definition plainObject (fields : list (string * option (evidence N))) : list (string * option (evidence N)) :=
  filter (λ f, is_Some f.2) fields.

Definition normalizedDiagnostic d : diagnostic N :=
  {| d_code := if bool_decide (d_code d = "") then "internal/unclassified" else d_code d;
     d_message := trim (if bool_decide (d_message d = "") then "Archify could not classify this failure."
                        else d_message d);
     d_subject := d_subject d;
     d_evidence := plainObject (d_evidence d);
     supportedFixes := first_of_each id []
       (filter (λ s, negb (bool_decide (s = "")) = true) (map trim (supportedFixes d))) |}.

Definition recordDiagnostic r d : recorder N :=
  if negb (DIAGNOSTIC_MODE r) || (0 <? recordingSuppressionDepth r)%nat then r
  else
    let normalized := normalizedDiagnostic d in
    if bool_decide (d_message normalized ∈ map d_message (recorded r)) then r
    else {| DIAGNOSTIC_MODE := DIAGNOSTIC_MODE r;
            recordingSuppressionDepth := recordingSuppressionDepth r;
            recorded := recorded r ++ [normalized] |}.

(** The messages a gate returns, and the recorder after its diagnostics. *)
Definition report (ds : list (diagnostic N)) r : list string * recorder N :=
  (map d_message ds, foldl recordDiagnostic r ds).

Definition with_depth (f : nat → nat) r : recorder N :=
  {| DIAGNOSTIC_MODE := DIAGNOSTIC_MODE r; recordingSuppressionDepth := f (recordingSuppressionDepth r);
     recorded := recorded r |}.

(** The callback's result, also when it throws, with the depth restored. *)
Definition withDiagnosticRecordingSuppressed {A} (callback : recorder N → A * recorder N) r : A * recorder N :=
  let '(a, r) := callback (with_depth S r) in (a, with_depth Nat.pred r).
End Diagnostics.

Section Checks.
Context {N : Type} `{!JsNum N, !JsMath N}.
#[local] Open Scope js_scope.
#[local] Notation point := (point N) (only parsing).

(** ** Texts *)
Definition round1 (v : N) : N := nround (v * nof 10) / nof 10.
Definition show_point1 (p : point) : string := join ", " [nshow (round1 p.1); nshow (round1 p.2)].
Definition show_round (p : point) : string := join ", " [nshow (nround p.1); nshow (nround p.2)].
Definition formatRect (r : rect N) : string :=
  cat ["["; join ", " [nshow (nround (x_ r)); nshow (nround (y_ r)); nshow (nround (width r));
                       nshow (nround (height r))]; "]"].
(** [[from] -> [to]] *)
Definition arrow_text (from to : string) : string := cat ["["; from; "] -> ["; to; "]"].

Definition id_text (r : option (relation N)) : string :=
  match r with
  | Some r => if nonempty (rel_id r) then cat [" id "; quoted (text_or_empty (rel_id r))] else ""
  | None => ""
  end.
(** [`${relation?.from}`] *)
Definition from_text (r : option (relation N)) : string := default "undefined" (rel_from <$> r).
Definition to_text (r : option (relation N)) : string := default "undefined" (rel_to <$> r).

(** [collection[index] id "..." "from" -> "to"] *)
Definition describe (relationCollection : string) (index : Z) (r : option (relation N)) : string :=
  cat [relationCollection; "["; pretty index; "]"; id_text r; " "; quoted (from_text r); " -> ";
       quoted (to_text r)].

Definition some_nonempty (o : option string) : option string := if nonempty o then o else None.

Definition relationshipSubject (diagramType relationCollection : string) (relationIndex : Z)
    (r : option (relation N)) : subject :=
  {| su_diagramType := diagramType; su_collection := relationCollection; su_index := relationIndex;
     su_id := r ← r; some_nonempty (rel_id r);
     su_from := r ← r; some_nonempty (Some (rel_from r));
     su_to := r ← r; some_nonempty (Some (rel_to r)) |}.

(** What every gate is called with. *)
Record gate := {
  endpointIds : option (string → bool);
  pathFor : relation N → option (list point);
  diagramType : string;
  relationCollection : string;
  profile : option string;
  profileIsAuthoritative : bool;
  routeHint : string
}.

(** [env] is the variable [ARCHIFY_QUALITY_PROFILE]. *)
Definition qualityProfileForGate (env : option string) (g : gate) : option string :=
  if profileIsAuthoritative g then profile g
  else if nonempty env then env else profile g.
Definition showcase (env : option string) (g : gate) : bool :=
  bool_decide (qualityProfileForGate env g = Some "showcase").

Definition eligible (g : gate) (r : relation N) : bool :=
  match endpointIds g with Some has => has (rel_from r) && has (rel_to r) | None => true end.

Definition collectEligibleRoutedRelations (g : gate) (relations : list (relation N)) : list (routed N) :=
  omap id (imap (λ i r,
    if eligible g r
    then Some {| ro_relation := Some r; ro_index := Some (Z.of_nat i);
                 ro_points := default [] (pathFor g r); ro_segments := None |}
    else None) relations).

(** ** Endpoint sides *)
Definition side_name (s : side) : string :=
  match s with SideLeft => "left" | SideRight => "right" | SideTop => "top" | SideBottom => "bottom" end.

Definition authored_side (side : option string) : option string :=
  if nonempty side && negb (bool_decide (side = Some "auto")) then side else None.

Definition hasAuthoredRouteGeometry (r : relation N) : bool :=
  nonempty (rel_route r) && negb (bool_decide (rel_route r = Some "auto")) || rel_via r.

(** An issue with the origin of its side: authored, or inferred by the renderer. *)
Definition side_check (ps : list point) (e : endpoint) (authored inferred : option string)
    : list (side_issue * bool) :=
  match match authored with Some s => Some s | None => inferred end with
  | Some s =>
      if bool_decide (s = "") then []
      else match endpointSideIssue ps e s with
           | Some issue => [(issue, bool_decide (is_Some authored))]
           | None => []
           end
  | None => []
  end.

Definition side_diagnostic (g : gate) (relationIndex : nat) (r : relation N) (ib : side_issue * bool)
    : diagnostic N :=
  let '(issue, authored) := ib in
  let source := match is_endpoint issue with Source => true | Target => false end in
  let authoredField := if source then "fromSide" else "toSide" in
  let sideField := if authored then authoredField else cat ["inferred "; authoredField] in
  let expectedAxis := if side_horizontal (is_side issue) then "horizontal" else "vertical" in
  let expectedDirection := side_direction (is_side issue) (is_endpoint issue) in
  {| d_code := "clean-flow/endpoint-side-direction";
     d_message := cat ["[clean-flow/endpoint-side-direction] "; diagramType g; " ";
       describe (relationCollection g) (Z.of_nat relationIndex) (Some r); " ";
       if source then "first" else "final"; " segment "; pretty (Z.of_nat (is_segment issue)); " ";
       arrow_text (show_point1 (is_start issue)) (show_point1 (is_end issue)); " does not honor ";
       sideField; " "; quoted (side_name (is_side issue)); " — it must run "; expectedAxis; " ";
       expectedDirection; "; "; routeHint g; "."];
     d_subject := relationshipSubject (diagramType g) (relationCollection g) (Z.of_nat relationIndex) (Some r);
     d_evidence :=
       [("endpoint", Some (EvString (if source then "source" else "target")));
        ("authoredField", Some (EvString authoredField));
        ("sideOrigin", Some (EvString (if authored then "authored" else "inferred")));
        ("side", Some (EvString (side_name (is_side issue))));
        ("segmentIndex", Some (EvIndex (Z.of_nat (is_segment issue))));
        ("from", Some (EvPoint (is_start issue))); ("to", Some (EvPoint (is_end issue)));
        ("expectedAxis", Some (EvString expectedAxis));
        ("expectedDirection", Some (EvString expectedDirection))];
     supportedFixes := [routeHint g] |}.

Definition relation_side_problems (g : gate) (fromSideFor toSideFor : option (relation N → option string))
    (shouldCheckRelation : relation N → nat → bool) (relationIndex : nat) (r : relation N)
    : list (diagnostic N) :=
  let known id := match endpointIds g with Some has => has id | None => false end in
  if negb (known (rel_from r)) || negb (known (rel_to r)) then []
  else if negb (shouldCheckRelation r relationIndex) then []
  else match pathFor g r with
  | Some ((_ :: _ :: _) as points) =>
      let inferred f := if hasAuthoredRouteGeometry r then None else (f ← f; f r) in
      map (side_diagnostic g relationIndex r)
        (side_check points Source (authored_side (rel_fromSide r)) (inferred fromSideFor) ++
         side_check points Target (authored_side (rel_toSide r)) (inferred toSideFor))
  | _ => []
  end.

Definition cleanEndpointSideProblems (g : gate) (fromSideFor toSideFor : option (relation N → option string))
    (shouldCheckRelation : relation N → nat → bool) (relations : list (relation N)) : list (diagnostic N) :=
  concat (imap (relation_side_problems g fromSideFor toSideFor shouldCheckRelation) relations).

(** ** Edges through nodes *)
Record obstacle := { ob_id : string; ob_rect : rect N }.

(** The first segment that meets the obstacle. *)
Definition hit_segment (clearance : N) (ps : list point) (o : obstacle) : option (nat * segment N) :=
  list_find (λ s, segmentIntersectsRect s (ob_rect o) clearance = true) (segments_of ps).

Definition flow_diagnostic (g : gate) (obstacleKind : string) (clearance : N) (relationIndex : nat)
    (r : relation N) (o : obstacle) (hit : nat * segment N) : diagnostic N :=
  let '(hitSegment, (from, to)) := hit in
  {| d_code := "clean-flow/edge-through-node";
     d_message := cat ["[clean-flow/edge-through-node] "; diagramType g; " ";
       describe (relationCollection g) (Z.of_nat relationIndex) (Some r); " crosses "; obstacleKind; " ";
       quoted (ob_id o); " (unrelated to this relationship) on segment "; pretty (Z.of_nat hitSegment); " ";
       arrow_text (show_round from) (show_round to); " ("; nshow clearance; "px clearance) — ";
       routeHint g; "."];
     d_subject := relationshipSubject (diagramType g) (relationCollection g) (Z.of_nat relationIndex) (Some r);
     d_evidence :=
       [("obstacleKind", Some (EvString obstacleKind)); ("obstacleId", Some (EvString (ob_id o)));
        ("segmentIndex", Some (EvIndex (Z.of_nat hitSegment)));
        ("from", Some (EvPoint from)); ("to", Some (EvPoint to));
        ("clearancePx", Some (EvNumber clearance))];
     supportedFixes := [routeHint g] |}.

Definition obstacle_problem (g : gate) (obstacleKind : string) (clearance : N) (relationIndex : nat)
    (r : relation N) (ps : list point) (o : obstacle) : option (diagnostic N) :=
  if bool_decide (ob_id o = rel_from r) || bool_decide (ob_id o = rel_to r) then None
  else if negb (finite_rect (ob_rect o)) then None
  else flow_diagnostic g obstacleKind clearance relationIndex r o <$> hit_segment clearance ps o.

Definition relation_flow_problems (g : gate) (obstacleKind : string) (clearance : N)
    (obstacles : list obstacle) (relationIndex : nat) (r : relation N) : list (diagnostic N) :=
  let known id := bool_decide (id ∈ map ob_id obstacles) in
  if negb (known (rel_from r)) || negb (known (rel_to r)) then []
  else match pathFor g r with
  | Some ((_ :: _ :: _) as points) =>
      if negb (forallb finite_point points) then []
      else omap (obstacle_problem g obstacleKind clearance relationIndex r points) obstacles
  | _ => []
  end.

Definition cleanFlowProblems (g : gate) (obstacleKind : string) (clearance : N) (obstacles : list obstacle)
    (relations : list (relation N)) : list (diagnostic N) :=
  concat (imap (relation_flow_problems g obstacleKind clearance obstacles) relations).

(** ** Crossings *)
Record crossed := { x_relation : relation N; x_index : nat; x_segments : list (@analysis_segment N) }.

(** (Without [endpointIds] the source throws; the renderers always give it.) *)
Definition to_crossed (g : gate) (mergeForwardCollinearWaypoints : bool) (index : nat) (r : relation N)
    : option crossed :=
  let known id := match endpointIds g with Some has => has id | None => false end in
  if negb (known (rel_from r)) || negb (known (rel_to r)) then None
  else match pathFor g r with
  | Some ((_ :: _ :: _) as points) =>
      if negb (forallb finite_point points) then None
      else Some {| x_relation := r; x_index := index;
                   x_segments := if mergeForwardCollinearWaypoints
                                 then forwardCollinearAnalysisSegments points
                                 else authoredAnalysisSegments points |}
  | _ => None
  end.

Definition crossing_diagnostic (g : gate) (left right : crossed) (hit : crossing) : diagnostic N :=
  let text x := describe (relationCollection g) (Z.of_nat (x_index x)) (Some (x_relation x)) in
  let subject x := relationshipSubject (diagramType g) (relationCollection g) (Z.of_nat (x_index x))
                     (Some (x_relation x)) in
  {| d_code := "composition/proper-crossing";
     d_message := cat ["[composition/proper-crossing] showcase "; diagramType g; " "; text left; " crosses ";
       text right; " at ["; show_point1 (cr_point hit); "] (segments "; pretty (Z.of_nat (cr_left hit));
       " and "; pretty (Z.of_nat (cr_right hit)); ") — "; routeHint g; "."];
     d_subject := subject left;
     d_evidence :=
       [("otherRelationship", Some (EvSubject (subject right))); ("point", Some (EvPoint (cr_point hit)));
        ("segmentIndex", Some (EvIndex (Z.of_nat (cr_left hit))));
        ("otherSegmentIndex", Some (EvIndex (Z.of_nat (cr_right hit))))];
     supportedFixes := [routeHint g] |}.

Definition crossing_problem (g : gate) (lr : crossed * crossed) : option (diagnostic N) :=
  if shareEndpoint (x_relation lr.1) (x_relation lr.2) then None
  else crossing_diagnostic g lr.1 lr.2 <$> first_crossing (x_segments lr.1) (x_segments lr.2).

Definition cleanCrossingProblems (env : option string) (g : gate) (mergeForwardCollinearWaypoints : bool)
    (relations : list (relation N)) : list (diagnostic N) :=
  if negb (showcase env g) then []
  else omap (crossing_problem g)
         (pairs (omap id (imap (to_crossed g mergeForwardCollinearWaypoints) relations))).

(** ** Corridors *)
Definition corridor_diagnostic (g : gate) (minOverlapPx : N) (hit : corridor) : diagnostic N :=
  let text c := describe (relationCollection g) (c_index c) (c_relation c) in
  let subject c := relationshipSubject (diagramType g) (relationCollection g) (c_index c) (c_relation c) in
  let o := co_overlap hit in
  let length := round1 (ov_length o) in
  {| d_code := "composition/ambiguous-corridor";
     d_message := cat ["[composition/ambiguous-corridor] showcase "; diagramType g; " ";
       text (co_left hit); " shares a "; nshow length; "px corridor with "; text (co_right hit); " at ";
       arrow_text (show_point1 (ov_start o)) (show_point1 (ov_end o)); " (segments ";
       pretty (Z.of_nat (co_leftSegment hit)); " and "; pretty (Z.of_nat (co_rightSegment hit));
       "; minimum "; nshow minOverlapPx; "px) — "; routeHint g; "."];
     d_subject := subject (co_left hit);
     d_evidence :=
       [("otherRelationship", Some (EvSubject (subject (co_right hit))));
        ("overlapLengthPx", Some (EvNumber length)); ("minimumPx", Some (EvNumber minOverlapPx));
        ("from", Some (EvPoint (ov_start o))); ("to", Some (EvPoint (ov_end o)));
        ("segmentIndex", Some (EvIndex (Z.of_nat (co_leftSegment hit))));
        ("otherSegmentIndex", Some (EvIndex (Z.of_nat (co_rightSegment hit))))];
     supportedFixes := [routeHint g] |}.

Definition cleanAmbiguousCorridorProblems (env : option string) (g : gate) (minOverlapPx : N)
    (relations : list (relation N)) : list (diagnostic N) :=
  if negb (showcase env g) then []
  else map (corridor_diagnostic g minOverlapPx)
         (collectAmbiguousCorridors (collectEligibleRoutedRelations g relations) minOverlapPx).

(** ** Border runs *)
Definition shape_name (f : frame N) : option string :=
  match fr_shape f with FrameLine _ _ => Some "line" | FrameRect shape _ _ => shape end.

(** [`${relationIndex}`] *)
Definition index_text (i : option Z) : string := match i with Some i => pretty i | None => "undefined" end.

Definition border_diagnostic (g : gate) (hit : border_run) : diagnostic N :=
  let relation := ro_relation (br_routed hit) in
  let f := br_frame hit in
  let frameKind := match some_nonempty (fr_kind f), some_nonempty (shape_name f) with
                   | Some k, _ => k | None, Some s => s | None, None => "frame" end in
  let frameIdentity := match some_nonempty (fr_label f), some_nonempty (fr_id f) with
                       | Some l, _ => l | None, Some i => i
                       | None, None => pretty (Z.of_nat (br_frameIndex hit)) end in
  let length := round1 (br_length hit) in
  {| d_code := "composition/container-border-run";
     d_message := cat ["[composition/container-border-run] "; diagramType g; " "; relationCollection g; "[";
       index_text (ro_index (br_routed hit)); "]"; id_text relation; " "; quoted (from_text relation); " -> ";
       quoted (to_text relation); " follows "; frameKind; " "; quoted frameIdentity; " "; br_side hit;
       " border for "; nshow length; "px on segment "; pretty (Z.of_nat (br_segment hit)); " ";
       arrow_text (show_point1 (br_start hit)) (show_point1 (br_end hit)); " — "; routeHint g; "."];
     d_subject := relationshipSubject (diagramType g) (relationCollection g)
                    (default 0%Z (ro_index (br_routed hit))) relation;
     d_evidence :=
       [("frameKind", Some (EvString frameKind)); ("frameId", EvString <$> fr_id f);
        ("frameLabel", EvString <$> fr_label f); ("side", Some (EvString (br_side hit)));
        ("segmentIndex", Some (EvIndex (Z.of_nat (br_segment hit))));
        ("overlapLengthPx", Some (EvNumber length));
        ("from", Some (EvPoint (br_start hit))); ("to", Some (EvPoint (br_end hit)))];
     supportedFixes := [routeHint g] |}.

Definition cleanBorderRunProblems (env : option string) (g : gate) (frames : list (frame N))
    (relations : list (relation N)) : list (diagnostic N) :=
  if negb (nonempty (qualityProfileForGate env g)) then []
  else map (border_diagnostic g) (collectBorderRuns (collectEligibleRoutedRelations g relations) frames).

(** ** Rhythm *)
Definition rhythm_code_name (c : rhythm_code) : string :=
  match c with
  | MicroSegment => "composition/micro-segment"
  | ShortInteriorSegment => "composition/short-interior-segment"
  end.
Definition position_name (p : position) : string :=
  match p with SourceStub => "source-stub" | TargetStub => "target-stub" | Interior => "interior" end.

Definition rhythm_diagnostic (g : gate) (interiorSegmentPx microSegmentPx : N) (hit : rhythm_issue)
    : diagnostic N :=
  let length := round1 (ri_length hit) in
  let micro := match ri_code hit with MicroSegment => true | ShortInteriorSegment => false end in
  let minimum := if micro then microSegmentPx else interiorSegmentPx in
  let rule := cat ["is below the "; nshow minimum; "px ";
                   if micro then "micro-segment floor" else "interior-segment floor"] in
  {| d_code := rhythm_code_name (ri_code hit);
     d_message := cat ["["; rhythm_code_name (ri_code hit); "] showcase "; diagramType g; " ";
       describe (relationCollection g) (ri_index hit) (ri_relation hit); " has a "; nshow length; "px ";
       position_name (ri_position hit); " segment "; pretty (Z.of_nat (ri_segment hit)); " ";
       arrow_text (show_point1 (ri_start hit)) (show_point1 (ri_end hit)); " that "; rule; " — ";
       routeHint g; "."];
     d_subject := relationshipSubject (diagramType g) (relationCollection g) (ri_index hit) (ri_relation hit);
     d_evidence :=
       [("segmentIndex", Some (EvIndex (Z.of_nat (ri_segment hit))));
        ("position", Some (EvString (position_name (ri_position hit))));
        ("lengthPx", Some (EvNumber length)); ("minimumPx", Some (EvNumber minimum));
        ("from", Some (EvPoint (ri_start hit))); ("to", Some (EvPoint (ri_end hit)))];
     supportedFixes := [routeHint g] |}.

Definition cleanRouteRhythmProblems (env : option string) (g : gate) (interiorSegmentPx microSegmentPx : N)
    (relations : list (relation N)) : list (diagnostic N) :=
  if negb (showcase env g) then []
  else map (rhythm_diagnostic g interiorSegmentPx microSegmentPx)
         (collectRouteRhythmIssues interiorSegmentPx microSegmentPx
            (collectEligibleRoutedRelations g relations)).

(** ** Labels *)
Definition describe_labelled (g : gate) (r : option (relation N)) (index : Z) : string :=
  cat [describe (relationCollection g) index r;
       match r with
       | Some r => if nonempty (rel_label r) then cat [" label "; quoted (text_or_empty (rel_label r))] else ""
       | None => ""
       end].

Definition label_diagnostic (g : gate) (hit : label_hit) : diagnostic N :=
  let l := lh_label hit in
  let n := lh_near hit in
  let label := match some_nonempty (lb_label l) with
               | Some t => t
               | None => text_or_empty (r ← lb_relation l; rel_label r) end in
  let clearance_ := round1 (clearance n) in
  {| d_code := "composition/label-route-clearance";
     d_message := cat ["[composition/label-route-clearance] showcase "; diagramType g; " label "; quoted label;
       " on "; describe_labelled g (lb_relation l) (lh_index hit); " is "; nshow clearance_; "px from ";
       describe_labelled g (lh_other hit) (lh_other_index hit); " segment ";
       pretty (Z.of_nat (n_segment n)); " "; arrow_text (show_point1 (n_start n)) (show_point1 (n_end n));
       " (label rect "; formatRect (lb_rect l); "; minimum "; nshow (lh_threshold hit); "px) — ";
       routeHint g; "."];
     d_subject := relationshipSubject (diagramType g) (relationCollection g) (lh_index hit) (lb_relation l);
     d_evidence :=
       [("label", Some (EvString label));
        ("otherRelationship", Some (EvSubject (relationshipSubject (diagramType g) (relationCollection g)
                                                 (lh_other_index hit) (lh_other hit))));
        ("segmentIndex", Some (EvIndex (Z.of_nat (n_segment n))));
        ("clearancePx", Some (EvNumber clearance_)); ("minimumPx", Some (EvNumber (lh_threshold hit)));
        ("labelRect", Some (EvRect (lb_rect l)));
        ("from", Some (EvPoint (n_start n))); ("to", Some (EvPoint (n_end n)))];
     supportedFixes := [routeHint g] |}.

Definition cleanLabelRouteClearanceProblems (env : option string) (g : gate) (threshold : N)
    (labels : list (label_box N)) (relations : list (relation N)) : list (diagnostic N) :=
  if negb (showcase env g) then []
  else map (label_diagnostic g)
         (collectLabelRouteClearance labels (collectEligibleRoutedRelations g relations) threshold).

(** ** Hints *)
Definition formatDelta (n : N) : string :=
  let v := nround n in
  if v >=? nof 0 then cat ["+"; nshow v] else nshow v.

Definition suggestLabelObstacleFix (labelRect : rect N) (lx ly : N) (o : obstacle) (obstacleKind : string)
    : string :=
  let lxR := nround lx in
  let lyR := nround ly in
  let belowY := nround (y_ (ob_rect o) + height (ob_rect o) + nof 14) in
  let aboveY := nround (y_ (ob_rect o) - nof 4) in
  join NL
    [cat ["  label rect: "; formatRect labelRect];
     cat ["  "; obstacleKind; " "; quoted (ob_id o); " rect: "; formatRect (ob_rect o)];
     cat ["  Suggested fix: labelAt ["; nshow lxR; ", "; nshow belowY; "] or labelDy ";
          formatDelta (belowY - lyR); " (below); or labelAt ["; nshow lxR; ", "; nshow aboveY;
          "] or labelDy "; formatDelta (aboveY - lyR); " (above)"]].

(** The two labels with their rectangles. *)
Definition suggestLabelPairFix (a b : string * rect N) : string :=
  join NL
    [cat ["  "; quoted a.1; " "; formatRect a.2; "; "; quoted b.1; " "; formatRect b.2];
     "  Suggested fix: adjust labelDx/labelDy/labelSegment, or route one relationship through a separate corridor"].

Definition suggestComponentSeparation (a b : obstacle) (minGap : N) : string :=
  let rightX := nround (x_ (ob_rect a) + width (ob_rect a) + minGap) in
  let belowY := nround (y_ (ob_rect a) + height (ob_rect a) + minGap) in
  join NL
    [cat ["  "; quoted (ob_id a); " "; formatRect (ob_rect a); "; "; quoted (ob_id b); " "; formatRect (ob_rect b)];
     cat ["  Suggested fix: move "; quoted (ob_id b); " pos to ["; nshow rightX; ", ";
          nshow (nround (y_ (ob_rect b))); "] (right of "; quoted (ob_id a); ") or [";
          nshow (nround (x_ (ob_rect b))); ", "; nshow belowY; "] (below)"]].
End Checks.
Arguments gate : clear implicits.
Arguments obstacle : clear implicits.

(** * Properties *)

Lemma concat_imap_nil {A B} (f : nat → A → list B) (l : list A) :
  concat (imap f l) = [] → ∀ i a, l !! i = Some a → f i a = [].
Proof.
  intros H i a Hi. destruct (f i a) as [|b bs] eqn:E; [done|]. exfalso.
  assert (Hb : b ∈ concat (imap f l)) by (apply elem_of_concat_imap; exists i, a; rewrite E; by split; [|left]).
  rewrite H in Hb. by apply elem_of_nil in Hb.
Qed.

Lemma omap_nil {A B} (f : A → option B) (l : list A) : omap f l = [] → ∀ a, a ∈ l → f a = None.
Proof.
  intros H a Ha. destruct (f a) as [b|] eqn:E; [|done]. exfalso.
  assert (Hb : b ∈ omap f l) by (apply list_elem_of_omap; eauto).
  rewrite H in Hb. by apply elem_of_nil in Hb.
Qed.

Lemma finite_points (ps : list (point Q)) : forallb finite_point ps = true.
Proof. by induction ps. Qed.

Lemma segments_of_two {N} `{!JsNum N} (ps : list (point N)) s :
  s ∈ segments_of ps → ∃ a b rest, ps = a :: b :: rest.
Proof. destruct ps as [|a [|b rest]]; [by intros ?%elem_of_nil..|]. eauto. Qed.

(** A diagram the node gate accepts hides no orthogonal route behind a node.
    When [cleanFlowProblems] reports nothing, no point of a horizontal or
    vertical segment of a relationship between two known nodes lies in another
    node enlarged by the clearance (the enlarged node being at least a pixel
    wide and high). *)
Theorem cleanFlowProblems_complete (g : gate Q) (obstacleKind : string) (clearance : Q)
    (obstacles : list (obstacle Q)) (relations : list (relation Q)) :
  cleanFlowProblems g obstacleKind clearance obstacles relations = [] →
  ∀ i r ps o s t, relations !! i = Some r →
    rel_from r ∈ map ob_id obstacles → rel_to r ∈ map ob_id obstacles →
    pathFor g r = Some ps → s ∈ segments_of ps → axis_parallel s →
    o ∈ obstacles → ob_id o ≠ rel_from r → ob_id o ≠ rel_to r →
    (1 <= width (ob_rect o) + 2 * clearance)%Q → (1 <= height (ob_rect o) + 2 * clearance)%Q →
    (0 <= t <= 1)%Q → ¬ within (ob_rect o) clearance (along s t).
Proof.
  intros Hnil i r ps o s t Hi Hfrom Hto Hps Hs Haxis Ho Hof Hot Hw Hh Ht Hin.
  apply (concat_imap_nil _ _) with (i := i) (a := r) in Hnil; [|done].
  unfold relation_flow_problems in Hnil. rewrite !bool_decide_true, Hps in Hnil by done. cbn [negb orb] in Hnil.
  destruct (segments_of_two ps s Hs) as (a&b&rest&->). rewrite finite_points in Hnil. cbn [negb] in Hnil.
  apply (omap_nil _ _) with (a := o) in Hnil; [|done].
  unfold obstacle_problem in Hnil. rewrite !bool_decide_false in Hnil by done. cbn [orb] in Hnil.
  change (finite_rect (ob_rect o)) with true in Hnil. cbn [negb] in Hnil.
  apply fmap_None in Hnil. unfold hit_segment in Hnil. apply list_find_None in Hnil.
  rewrite Forall_forall in Hnil. apply (Hnil s Hs). by eapply segmentIntersectsRect_complete.
Qed.

Definition ex_box (id : string) (x y : Q) : obstacle Q :=
  {| ob_id := id; ob_rect := {| x_ := x; y_ := y; width := 10; height := 10 |}%Q |}.
Definition ex_relation (ref : nat) (from to : string) : relation Q :=
  {| rel_ref := ref; rel_key := None; rel_id := None; rel_from := from; rel_to := to; rel_label := None;
     rel_fromSide := None; rel_toSide := None; rel_route := None; rel_via := false; rel_channelX := false;
     rel_channelY := false; labelAt := None; labelDx := None; labelDy := None; labelSegment := None |}.
Definition ex_gate (paths : relation Q → option (list (point Q))) : gate Q :=
  {| endpointIds := Some (λ _, true); pathFor := paths; diagramType := "architecture";
     relationCollection := "connections"; profile := Some "showcase"; profileIsAuthoritative := true;
     routeHint := "move the obstacle" |}.

Lemma cleanFlowProblems_complete_witness :
  ¬ within (ob_rect (ex_box "c" 40 40)) 2 (along ((5, 10), (5, 100))%Q (1 # 2)).
Proof.
  apply (cleanFlowProblems_complete (ex_gate (λ _, Some [(5, 10); (5, 100)]%Q)) "component" 2%Q
    [ex_box "a" 0 0; ex_box "b" 0 100; ex_box "c" 40 40] [ex_relation 0 "a" "b"])
    with (i := 0%nat) (r := ex_relation 0 "a" "b") (ps := [(5, 10); (5, 100)]%Q).
  all: try reflexivity; try discriminate; try (cbn; set_solver); try (by left); try (split; discriminate).
Defined.

(** ** Crossings *)

Lemma elem_of_pairs_imap {A B} (f : nat → A → option B) (l : list A) (x y : B) :
  (x, y) ∈ pairs (omap id (imap f l)) ↔
  ∃ i j a b, (i < j)%nat ∧ l !! i = Some a ∧ l !! j = Some b ∧ f i a = Some x ∧ f j b = Some y.
Proof.
  revert f. induction l as [|a l IH]; intros f; cbn [imap omap list_omap].
  { split; [by intros ?%elem_of_nil|]. naive_solver. }
  assert (Hpairs : (x, y) ∈ pairs (omap id (imap (f ∘ S) l)) ↔
      ∃ i j a' b, (i < j)%nat ∧ (a :: l) !! S i = Some a' ∧ (a :: l) !! S j = Some b ∧
        f (S i) a' = Some x ∧ f (S j) b = Some y) by apply IH.
  assert (Hhead : y ∈ omap id (imap (f ∘ S) l) ↔ ∃ j b, (a :: l) !! S j = Some b ∧ f (S j) b = Some y)
    by apply elem_of_omap_imap.
  cbn in Hhead. unfold id at 1. destruct (f 0%nat a) as [x0|] eqn:E; cbn [pairs].
  - rewrite elem_of_app, Hpairs. split.
    + intros [(y'&[= -> ->]&(j&b&?&?)%Hhead)%list_elem_of_fmap_1|(i&j&a'&b&?&?&?&?&?)].
      * exists 0%nat, (S j), a, b. split_and!; by auto with lia.
      * exists (S i), (S j), a', b. split_and!; by auto with lia.
    + intros ([|i]&[|j]&a'&b&Hij&Hi&Hj&Hx&Hy); try lia.
      * cbn in Hi. simplify_eq. left. apply (list_elem_of_fmap_2' (pair _) _ y); [|done].
        apply Hhead. eauto.
      * right. exists i, j, a', b. split_and!; by auto with lia.
  - rewrite Hpairs. split.
    + intros (i&j&a'&b&?&?&?&?&?). exists (S i), (S j), a', b. split_and!; by auto with lia.
    + intros ([|i]&[|j]&a'&b&Hij&Hi&Hj&Hx&Hy); try lia.
      * cbn in Hi. congruence.
      * exists i, j, a', b. split_and!; by auto with lia.
Qed.

Lemma first_crossing_None (ls rs : list (@analysis_segment Q)) : first_crossing ls rs = None ↔
  ∀ l r, l ∈ ls → r ∈ rs →
    ¬ (separates (an_start l, an_end l) (an_start r, an_end r) ∧
       separates (an_start r, an_end r) (an_start l, an_end l)).
Proof.
  unfold first_crossing. set (f := λ l, omap _ rs).
  assert (Hn : head (ls ≫= f) = None ↔ ∀ l, l ∈ ls → f l = []).
  { split.
    - intros H l Hl. destruct (f l) as [|c cs] eqn:E; [done|]. exfalso.
      assert (Hc : c ∈ ls ≫= f) by (apply list_elem_of_bind; exists l; rewrite E; split; [by left|done]).
      destruct (ls ≫= f); [by apply elem_of_nil in Hc|done].
    - intros H. destruct (ls ≫= f) as [|c cs] eqn:E; [done|]. exfalso.
      assert (Hc : c ∈ ls ≫= f) by (rewrite E; by left).
      apply list_elem_of_bind in Hc as (l&Hc&Hl). rewrite (H l Hl) in Hc. by apply elem_of_nil in Hc. }
  rewrite Hn. split.
  - intros H l r Hl Hr. pose proof (omap_nil _ _ (H l Hl) r Hr) as Hp. cbv beta in Hp.
    pose proof (properSegmentIntersection_exact (an_start l) (an_end l) (an_start r) (an_end r)) as Hs.
    by destruct (properSegmentIntersection _ _ _ _).
  - intros H l Hl. unfold f. destruct (omap _ rs) as [|c cs] eqn:E; [done|]. exfalso.
    assert (Hc : c ∈ omap (λ r, p ← properSegmentIntersection (an_start l) (an_end l) (an_start r) (an_end r);
      Some {| cr_point := p; cr_left := sourceSegmentIndexAtPoint l p;
              cr_right := sourceSegmentIndexAtPoint r p |}) rs) by (rewrite E; by left).
    apply list_elem_of_omap in Hc as (r&Hr&Hc).
    pose proof (properSegmentIntersection_exact (an_start l) (an_end l) (an_start r) (an_end r)) as Hs.
    destruct (properSegmentIntersection _ _ _ _); [|done]. destruct Hs as (H1&H2&_). by apply (H l r).
Qed.

(** A relationship the crossing gate looks at, with its route. *)
Definition crossable (g : gate Q) (r : relation Q) (ps : list (point Q)) : Prop :=
  ∃ has, endpointIds g = Some has ∧ has (rel_from r) = true ∧ has (rel_to r) = true ∧
    pathFor g r = Some ps ∧ (2 ≤ length ps)%nat.

(** The straight runs of a route: a segment that continues the run before it
    forward extends it, so that no waypoint is left within a run. *)
Fixpoint runs_from (run : segment Q) (ss : list (segment Q)) : list (segment Q) :=
  match ss with
  | [] => [run]
  | s :: ss => if segmentsContinueForward run.1 run.2 s.1 s.2 then runs_from (run.1, s.2) ss
               else run :: runs_from s ss
  end.
Definition straight_runs (ps : list (point Q)) : list (segment Q) :=
  match segments_of ps with [] => [] | s :: ss => runs_from s ss end.

(** The segments the gate compares: between waypoints, or the straight runs. *)
Definition compared (merge : bool) (ps : list (point Q)) : list (segment Q) :=
  if merge then straight_runs ps else segments_of ps.

Definition analysis_segments (merge : bool) (ps : list (point Q)) : list (@analysis_segment Q) :=
  if merge then forwardCollinearAnalysisSegments ps else authoredAnalysisSegments ps.

Definition an_ends (l : @analysis_segment Q) : segment Q := (an_start l, an_end l).

Lemma forward_segments_runs l before index ss :
  map an_ends (forward_segments (l :: before) index ss) =
  map an_ends (reverse before) ++ runs_from (an_ends l) ss.
Proof.
  revert l before index. induction ss as [|[a b] ss IH]; intros l before index; cbn [forward_segments runs_from].
  - by rewrite reverse_cons, map_app.
  - unfold an_ends at 4 5. cbn [fst snd]. destruct (segmentsContinueForward _ _ _ _); rewrite IH; [done|].
    by rewrite reverse_cons, map_app, <-app_assoc.
Qed.

Lemma analysis_ends merge (ps : list (point Q)) : map an_ends (analysis_segments merge ps) = compared merge ps.
Proof.
  destruct merge; cbn [analysis_segments compared].
  - unfold forwardCollinearAnalysisSegments, straight_runs. destruct (segments_of ps) as [|[a b] ss]; [done|].
    cbn [forward_segments]. by rewrite forward_segments_runs.
  - unfold authoredAnalysisSegments. rewrite fmap_imap.
    erewrite imap_ext with (g := λ _ s, s); [|by intros i [a b] _].
    induction (segments_of ps) as [|s ss IH]; [done|]. cbn. f_equal. exact IH.
Qed.

Lemma elem_of_compared merge (ps : list (point Q)) s :
  s ∈ compared merge ps ↔ ∃ l, l ∈ analysis_segments merge ps ∧ an_ends l = s.
Proof. rewrite <-analysis_ends, list_elem_of_fmap. naive_solver. Qed.

Lemma to_crossed_spec g merge i r x : to_crossed g merge i r = Some x ↔
  ∃ ps, crossable g r ps ∧
    x = {| x_relation := r; x_index := i; x_segments := analysis_segments merge ps |}.
Proof.
  unfold to_crossed, crossable. split.
  - intros H. destruct (endpointIds g) as [has|]; [|done]. 
    destruct (has (rel_from r)) eqn:?, (has (rel_to r)) eqn:?; try done. cbn [negb orb] in H.
    destruct (pathFor g r) as [[|a [|b ps]]|]; try done. rewrite finite_points in H. injection H as <-.
    eexists. split; [|done]. exists has. split_and!; try done. cbn. lia.
  - intros (ps&(has&->&->&->&->&Hl)&->). cbn [negb orb].
    destruct ps as [|a [|b ps]]; cbn in Hl; [lia..|]. by rewrite finite_points.
Qed.

(** C37: the crossing gate of the showcase profile accepts a diagram exactly when
    for every two relationships with no common end, no segment of the one route
    and segment of the other separate each other's ends (beyond the tolerance of
    the cross product).  The segments are those between waypoints, and then a
    crossing on a waypoint goes unnoticed, or, when the caller merges them, the
    straight runs of the routes, with no waypoint within. *)
Theorem cleanCrossingProblems_exact (env : option string) (g : gate Q) (merge : bool) (relations : list (relation Q)) :
  showcase env g = true →
  cleanCrossingProblems env g merge relations = [] ↔
  ∀ i j ri rj pi pj s t, (i < j)%nat → relations !! i = Some ri → relations !! j = Some rj →
    crossable g ri pi → crossable g rj pj → shareEndpoint ri rj = false →
    s ∈ compared merge pi → t ∈ compared merge pj → ¬ (separates s t ∧ separates t s).
Proof.
  intros Hshow. unfold cleanCrossingProblems. rewrite Hshow. cbn [negb].
  set (cs := omap id _). split.
  - intros Hnil i j ri rj pi pj s t Hij Hi Hj Hpi Hpj Hsh.
    intros (l&Hl&<-)%elem_of_compared (r&Hr&<-)%elem_of_compared.
    assert (Hin : ({| x_relation := ri; x_index := i; x_segments := analysis_segments merge pi |},
        {| x_relation := rj; x_index := j; x_segments := analysis_segments merge pj |}) ∈ pairs cs).
    { apply elem_of_pairs_imap. exists i, j, ri, rj. rewrite !to_crossed_spec. split_and!; eauto. }
    pose proof (omap_nil _ _ Hnil _ Hin) as Hp. unfold crossing_problem in Hp. cbn [fst snd x_relation] in Hp.
    rewrite Hsh in Hp. apply fmap_None, first_crossing_None with (l := l) (r := r) in Hp; done.
  - intros H. destruct (omap _ (pairs cs)) as [|d ds] eqn:E; [done|]. exfalso.
    assert (Hd : d ∈ omap (crossing_problem g) (pairs cs)) by (rewrite E; by left).
    apply list_elem_of_omap in Hd as ([x y]&Hxy&Hp).
    apply elem_of_pairs_imap in Hxy as (i&j&ri&rj&Hij&Hi&Hj&Hx&Hy).
    apply to_crossed_spec in Hx as (pi&Hpi&->), Hy as (pj&Hpj&->).
    unfold crossing_problem in Hp. cbn [fst snd x_relation x_segments] in Hp.
    destruct (shareEndpoint ri rj) eqn:Hsh; [done|].
    assert (Hnone : first_crossing (analysis_segments merge pi) (analysis_segments merge pj) = None).
    { apply first_crossing_None. intros l r Hl Hr.
      apply (H i j ri rj pi pj (an_ends l) (an_ends r)); try done; apply elem_of_compared; eauto. }
    by rewrite Hnone in Hp.
Qed.

(** Two routes that cross are reported, by the theorem; the texts are the program's. *)
Definition ex_paths (r : relation Q) : option (list (point Q)) :=
  if (rel_ref r =? 0)%nat then Some [(0, 50); (100, 50)]%Q else Some [(50, 0); (50, 100)]%Q.

Definition waypoint_paths (r : relation Q) : option (list (point Q)) :=
  if (rel_ref r =? 0)%nat then Some [(0, 50); (50, 50); (100, 50)]%Q else Some [(50, 0); (50, 50); (50, 100)]%Q.

(** A crossing on a waypoint of both routes is seen when they are merged, and
    missed when they are not. *)
Lemma cleanCrossingProblems_exact_witness :
  let relations := [ex_relation 0 "a" "b"; ex_relation 1 "c" "d"] in
  cleanCrossingProblems None (ex_gate ex_paths) false relations ≠ [] ∧
  cleanCrossingProblems None (ex_gate waypoint_paths) true relations ≠ [] ∧
  cleanCrossingProblems None (ex_gate waypoint_paths) false relations = [].
Proof.
  intros relations. split_and!; [intros Hnil|intros Hnil|vm_compute; reflexivity].
  - refine (proj1 (cleanCrossingProblems_exact None (ex_gate ex_paths) false relations eq_refl) Hnil 0%nat 1%nat _ _
      [(0, 50); (100, 50)]%Q [(50, 0); (50, 100)]%Q ((0, 50), (100, 50))%Q ((50, 0), (50, 100))%Q
      (Nat.lt_0_succ 0) eq_refl eq_refl _ _ eq_refl _ _ _).
    1-2: exists (λ _, true); split_and!; try reflexivity; cbn; lia.
    1-2: by left.
    unfold separates. vm_compute. intuition.
  - refine (proj1 (cleanCrossingProblems_exact None (ex_gate waypoint_paths) true relations eq_refl) Hnil 0%nat 1%nat _ _
      [(0, 50); (50, 50); (100, 50)]%Q [(50, 0); (50, 50); (50, 100)]%Q ((0, 50), (100, 50))%Q ((50, 0), (50, 100))%Q
      (Nat.lt_0_succ 0) eq_refl eq_refl _ _ eq_refl _ _ _).
    1-2: exists (λ _, true); split_and!; try reflexivity; cbn; lia.
    1-2: by left.
    unfold separates. vm_compute. intuition.
Defined.

Example crossing_message :
  map d_message (cleanCrossingProblems None (ex_gate ex_paths) false
    [ex_relation 0 "a" "b"; ex_relation 1 "c" "d"]) =
  [cat ["[composition/proper-crossing] showcase architecture connections[0] "; quoted "a"; " -> ";
        quoted "b"; " crosses connections[1] "; quoted "c"; " -> "; quoted "d";
        " at [50, 50] (segments 0 and 0) — move the obstacle."]].
Proof. vm_compute. reflexivity. Qed.
