(* ===== verification/DiagramTests.v ===== *)
(** * The repository's test cases on the model
      ([src/.agents/skills/archify/test/geometry.test.mjs])

    Cases of the test suite of the geometry module, evaluated on the definitions
    over the rationals. *)

From Stdlib Require Import QArith.
From S2P Require Import Prelude Num Geometry Routes Analyses Ports Checks.
#[local] Open Scope Q_scope.
#[local] Open Scope string_scope.

Definition rect_ (x y w h : Q) : rect Q := {| x_ := x; y_ := y; width := w; height := h |}.
Definition rel_ (ref : nat) (id from to : string) : relation Q :=
  {| rel_ref := ref; rel_key := None; rel_id := if bool_decide (id = "") then None else Some id;
     rel_from := from; rel_to := to; rel_label := None; rel_fromSide := None; rel_toSide := None;
     rel_route := None; rel_via := false; rel_channelX := false; rel_channelY := false; labelAt := None;
     labelDx := None; labelDy := None; labelSegment := None |}.
Definition sided (r : relation Q) (fromSide toSide : string) : relation Q :=
  {| rel_ref := rel_ref r; rel_key := rel_key r; rel_id := rel_id r; rel_from := rel_from r;
     rel_to := rel_to r; rel_label := rel_label r; rel_fromSide := Some fromSide; rel_toSide := Some toSide;
     rel_route := rel_route r; rel_via := rel_via r; rel_channelX := rel_channelX r;
     rel_channelY := rel_channelY r; labelAt := labelAt r; labelDx := labelDx r; labelDy := labelDy r;
     labelSegment := labelSegment r |}.
Definition routed_ (index : Z) (r : relation Q) (ps : list (point Q)) : routed Q :=
  {| ro_relation := Some r; ro_index := Some index; ro_points := ps; ro_segments := None |}.
Definition gate_ (paths : list (list (point Q))) (type collection hint : string) (prof : string) : gate Q :=
  {| endpointIds := Some (λ _, true); pathFor := λ r, paths !! rel_ref r; diagramType := type;
     relationCollection := collection; profile := Some prof; profileIsAuthoritative := true;
     routeHint := hint |}.
Definition red (p : point Q) : point Q := (Qred p.1, Qred p.2).

(** ** Rectangles and segments *)
Example overlap_touching : rectsOverlap (rect_ 0 0 10 10) (rect_ 10 0 10 10) 0 = false.
Proof. reflexivity. Qed.
Example overlap_gap : map (λ x, rectsOverlap (rect_ 0 0 10 10) (rect_ x 0 10 10) 8) [18; 17] = [false; true].
Proof. reflexivity. Qed.
Example overlap_negative_gap :
  map (λ x, rectsOverlap (rect_ 0 0 10 10) (rect_ x 0 10 10) (-2)) [9; 7] = [false; true].
Proof. reflexivity. Qed.
Example segment_through_box :
  map (λ y, segmentIntersectsRect ((0, y), (20, y)) (rect_ 8 0 4 10) 0) [5; 20] = [true; false].
Proof. reflexivity. Qed.
Example clearances : map (λ s, Qred <$> segmentRectClearance s (rect_ 10 10 10 10))
    [((0, 6), (30, 6)); ((6, 0), (6, 30)); ((0, 15), (30, 15)); ((0, 8), (30, 8))] =
  [Some 4; Some 4; Some 0; Some 2].
Proof. vm_compute. reflexivity. Qed.
Example intersection_lengths : map (λ s, Qred <$> segmentRectIntersectionLength s (rect_ 10 10 10 10))
    [((0, 10), (30, 10)); ((10, 0), (10, 30)); ((0, 0), (10, 10)); ((0, 6), (30, 6))] =
  [Some 10; Some 10; Some 0; Some 0].
Proof. vm_compute. reflexivity. Qed.

(** ** Labels *)
Example label_clearance :
  let owner := rel_ 0 "owner" "a" "b" in
  let labels := [{| lb_rect := rect_ 80 48 60 14; lb_relation := Some owner; lb_index := Some 0%Z;
                    lb_label := Some "handoff" |}] in
  let routes := [routed_ 0 owner [(20, 60); (200, 60)]; routed_ 1 (rel_ 1 "other" "a" "c") [(70, 64); (150, 64)]] in
  map (λ h, (lh_other_index h, Qred (clearance (lh_near h)))) (collectLabelRouteClearance labels routes 2) = [] ∧
  map (λ h, (lh_other_index h, Qred (clearance (lh_near h)))) (collectLabelRouteClearance labels routes 4) = [(1%Z, 2)].
Proof. vm_compute. split; reflexivity. Qed.

(** ** Endpoint sides *)
Definition clean_route : list (point Q) := [(350, 160); (350, 200); (150, 200); (150, 240)].
Definition tangent_route : list (point Q) := [(350, 160); (350, 200); (100, 200); (100, 240); (150, 240)].
Example honors : map (λ ps, routeHonorsEndpointSides ps "bottom" "top") [clean_route; tangent_route] = [true; false].
Proof. vm_compute. reflexivity. Qed.
Example side_message :
  map d_message (cleanEndpointSideProblems (gate_ [tangent_route] "architecture" "connections" "h" "standard")
    None None (λ _ _, true) [sided (rel_ 0 "tasks-file" "cli-agents" "tasks-watch") "bottom" "top"]) =
  [cat ["[clean-flow/endpoint-side-direction] architecture connections[0] id "; quoted "tasks-file"; " ";
        quoted "cli-agents"; " -> "; quoted "tasks-watch";
        " final segment 3 [100, 240] -> [150, 240] does not honor toSide "; quoted "top";
        " — it must run vertical downward from above; h."]].
Proof. vm_compute. reflexivity. Qed.
Example inferred_sides :
  length (cleanEndpointSideProblems
    (gate_ [[(700, 130); (700, 230); (160, 230); (160, 330)]] "architecture" "connections" "h" "standard")
    (Some (λ _, Some "left")) (Some (λ _, Some "right")) (λ _ _, true)
    [rel_ 0 "terminal-return" "stream-hub" "workspace"]) = 2%nat.
Proof. vm_compute. reflexivity. Qed.

(** ** Flow and crossings *)
Example flow_message :
  map d_message (cleanFlowProblems (gate_ [[(20, 10); (80, 10)]] "architecture" "connections" "set route/via" "")
    "component" 2
    [{| ob_id := "client"; ob_rect := rect_ 0 0 20 20 |}; {| ob_id := "proxy"; ob_rect := rect_ 40 0 20 20 |};
     {| ob_id := "database"; ob_rect := rect_ 80 0 20 20 |}] [rel_ 0 "checkout" "client" "database"]) =
  [cat ["[clean-flow/edge-through-node] architecture connections[0] id "; quoted "checkout"; " ";
        quoted "client"; " -> "; quoted "database"; " crosses component "; quoted "proxy";
        " (unrelated to this relationship) on segment 0 [20, 10] -> [80, 10] (2px clearance) — set route/via."]].
Proof. vm_compute. reflexivity. Qed.
Example flow_halo :
  map (λ d, d_evidence d !! 2%nat) (cleanFlowProblems
    (gate_ [[(0, -1); (20, -1); (0, 5); (20, 5)]] "workflow" "edges" "h" "") "node" 2
    [{| ob_id := "a"; ob_rect := rect_ (-20) (-10) 20 20 |}; {| ob_id := "near"; ob_rect := rect_ 8 1 4 2 |};
     {| ob_id := "b"; ob_rect := rect_ 20 (-10) 20 20 |}] [rel_ 0 "" "a" "b"]) =
  [Some ("segmentIndex", Some (EvIndex 0%Z))].
Proof. vm_compute. reflexivity. Qed.
Example crossing_profiles :
  let paths := [[(0, 0); (100, 0); (100, 100)]; [(50, -50); (50, 50); (150, 50); (150, -50); (50, -50)]] in
  let rels := [rel_ 0 "first" "a" "b"; rel_ 1 "second" "c" "d"] in
  map (λ p, length (cleanCrossingProblems None (gate_ paths "architecture" "connections" "h" p) false rels))
    ["showcase"; "standard"] = [1%nat; 0%nat].
Proof. vm_compute. reflexivity. Qed.
Example crossing_touches :
  cleanCrossingProblems None
    (gate_ [[(0, 0); (100, 0)]; [(50, 0); (50, 50)]; [(25, 0); (75, 0)]] "lifecycle" "transitions" "h" "showcase")
    false [rel_ 0 "" "a" "b"; rel_ 1 "" "c" "d"; rel_ 2 "" "e" "f"] = [].
Proof. vm_compute. reflexivity. Qed.

(** ** Corridors *)
Example corridor_message :
  map d_message (cleanAmbiguousCorridorProblems None
    (gate_ [[(0, 20); (100, 20); (100, 80)]; [(40, 20); (140, 20); (140, 80)]] "workflow" "edges"
       "move a channel" "showcase") 8 [rel_ 0 "first" "a" "b"; rel_ 1 "second" "c" "d"]) =
  [cat ["[composition/ambiguous-corridor] showcase workflow edges[0] id "; quoted "first"; " "; quoted "a";
        " -> "; quoted "b"; " shares a 60px corridor with edges[1] id "; quoted "second"; " "; quoted "c";
        " -> "; quoted "d"; " at [40, 20] -> [100, 20] (segments 0 and 0; minimum 8px) — move a channel."]].
Proof. vm_compute. reflexivity. Qed.
Example corridor_exempt :
  collectAmbiguousCorridors
    [routed_ 0 (rel_ 0 "" "a" "b") [(0, 20); (100, 20)]; routed_ 1 (rel_ 1 "" "a" "c") [(40, 20); (140, 20)];
     routed_ 2 (rel_ 2 "" "d" "e") [(100, 20); (100, 80)]; routed_ 3 (rel_ 3 "" "f" "g") [(94, 60); (101, 60)];
     routed_ 4 (rel_ 4 "" "h" "i") [(98, 60); (110, 60)]] 8 = [].
Proof. vm_compute. reflexivity. Qed.

(** ** Border runs *)
Definition frame_ (id kind : string) (label : option string) (r : rect Q) (radius : Q) : frame Q :=
  {| fr_shape := FrameRect None r (Some radius); fr_kind := Some kind; fr_label := label; fr_id := Some id |}.
Example border_message :
  map d_message (cleanBorderRunProblems None
    (gate_ [[(40, 80); (220, 80); (220, 140)]] "architecture" "connections" "move the via point" "standard")
    [frame_ "private" "security-group" (Some "Private tier") (rect_ 100 80 180 120) 8]
    [rel_ 0 "jwt" "auth" "api"]) =
  [cat ["[composition/container-border-run] architecture connections[0] id "; quoted "jwt"; " "; quoted "auth";
        " -> "; quoted "api"; " follows security-group "; quoted "Private tier";
        " top border for 112px on segment 0 [108, 80] -> [220, 80] — move the via point."]].
Proof. vm_compute. reflexivity. Qed.
Example border_allowed :
  collectBorderRuns [routed_ 0 (rel_ 0 "" "a" "b") [(100, 10); (100, 80)];
      routed_ 1 (rel_ 1 "" "c" "d") [(20, 40); (40, 40); (40, 20)]; routed_ 2 (rel_ 2 "" "e" "f") [(40, 40); (49, 40)]]
    [frame_ "stage" "stage" None (rect_ 40 40 120 100) 10] = [].
Proof. vm_compute. reflexivity. Qed.
Example border_merged :
  map (λ h, (br_side h, br_segment h, Qred (br_length h), red (br_start h), red (br_end h)))
    (collectBorderRuns [routed_ 3 (rel_ 0 "" "a" "b") [(160, 60); (160, 110); (150, 110); (160, 110); (160, 135)];
       routed_ 0 (rel_ 1 "" "a" "b") [(52, 40); (70, 40); (90, 40); (90, 50)]]
      [frame_ "lane-1" "lane" None (rect_ 40 40 120 100) 10]) =
  [("right", 0%nat, 70, (160, 60), (160, 130)); ("top", 0%nat, 38, (52, 40), (90, 40))].
Proof. vm_compute. reflexivity. Qed.

(** ** Rhythm and budgets *)
Example budget :
  let m := routeBudgetMetrics 2 (135 # 100) 16 8
    (map (λ ps, {| ro_relation := None; ro_index := None; ro_points := ps; ro_segments := None |})
      [[(0, 0); (10, 0); (30, 0); (30, 8); (50, 8); (50, 30)]; [(5, 5); (5, 5)]]) in
  (maxBends m, routesOverSuggestedBends m, Qred <$> maxStretch m, routesOverSuggestedStretch m) =
    (3%Z, 1%Z, Some 1, 0%Z) ∧
  (Qred <$> minSegmentPx m, Qred <$> minInteriorSegmentPx m) = (Some 8, Some 8) ∧
  (shortSegmentCount m, shortEndpointSegmentCount m, shortInteriorSegmentCount m, microSegmentCount m) =
    (1%Z, 0%Z, 1%Z, 0%Z).
Proof. vm_compute. split_and!; reflexivity. Qed.
Example rhythm :
  map (λ i, (rel_id <$> ri_relation i, ri_code i, ri_position i, Qred (ri_length i)))
    (collectRouteRhythmIssues 16 8
      [routed_ 0 (rel_ 0 "lane-hop" "a" "b") [(0, 0); (13, 0); (13, 40); (80, 40); (80, 53)];
       routed_ 1 (rel_ 1 "bad-turn" "c" "d") [(0, 80); (24, 80); (24, 89); (60, 89)];
       routed_ 2 (rel_ 2 "micro-stub" "e" "f") [(0, 120); (5, 120); (5, 180)]]) =
  [(Some (Some "bad-turn"), ShortInteriorSegment, Interior, 9); (Some (Some "micro-stub"), MicroSegment, SourceStub, 5)].
Proof. vm_compute. reflexivity. Qed.

(** ** Ports and paths *)
Example bridge :
  map red <$> automaticPortRhythmBridge (742, 300) (735, 180) "top" "bottom" 24 16 None =
  Some [(742, 300); (742, 276); (758, 276); (758, 204); (735, 204); (735, 180)].
Proof. vm_compute. reflexivity. Qed.
Definition a_box : box Q := {| bx_id := "a"; bx_rect := rect_ 100 100 40 20; cx := 120; cy := 110 |}.
Example anchors : map (anchor a_box) ["left"; "right"; "top"; "bottom"; "auto"] =
  [(100, 110); (140, 110); (120, 100); (120, 120); (140, 110)].
Proof. reflexivity. Qed.
Example chosen : map (λ s, chosenSide s "right") [Some "left"; Some "auto"; None] = ["left"; "right"; "right"].
Proof. reflexivity. Qed.
Example polyline : polylinePath [(0, 0); (10, 0); (10, 10)] = "M 0 0 L 10 0 L 10 10".
Proof. reflexivity. Qed.
Example rounded : map (λ p : list (point Q) * Q, roundedPath p.1 p.2)
    [([(0, 0); (10, 0)], 10); ([(0, 0); (10, 0); (10, 10)], 0); ([(0, 0); (100, 0); (100, 100)], 10)] =
  ["M 0 0 L 10 0"; "M 0 0 L 10 0 L 10 10"; "M 0 0 L 90 0 Q 100 0 100 10 L 100 100"].
Proof. vm_compute. reflexivity. Qed.
