(* ===== verification/Semver.v ===== *)
(** * Versions ([src/.agents/skills/archify/scripts/update-contract.mjs])

    The parsing and the comparison of semantic versions with which the bundled
    tool decides whether an update is newer, and the reference they are proved
    against: the precedence of the SemVer specification. *)

From S2P Require Import Prelude Num JsValue.
#[local] Open Scope Z_scope.

(** ** Texts *)
Definition ascii_digit (c : Ascii.ascii) : bool := (48 <=? code_unit c) && (code_unit c <=? 57).
Definition DOT : Ascii.ascii := Ascii.ascii_of_N 46.
Definition DASH : Ascii.ascii := Ascii.ascii_of_N 45.
Definition PLUS : Ascii.ascii := Ascii.ascii_of_N 43.

(** [[0-9A-Za-z-]] *)
Definition ident_char (c : Ascii.ascii) : bool :=
  ascii_digit c || ((65 <=? code_unit c) && (code_unit c <=? 90)) || ((97 <=? code_unit c) && (code_unit c <=? 122)) ||
  bool_decide (c = DASH).

(** [/^\d+$/] *)
Definition numeric (s : string) : bool := negb (bool_decide (s = "")) && string_forall ascii_digit s.

(** [0|[1-9]\d*] *)
Definition core_number (s : string) : bool :=
  match s with
  | "" => false
  | String c rest => if bool_decide (s = "0") then true else ascii_digit c && negb (code_unit c =? 48) && string_forall ascii_digit rest
  end.

Definition semver_identifier (s : string) : bool := negb (bool_decide (s = "")) && string_forall ident_char s.

(** ** Parsing *)
Record semver := { core : list string; prerelease : option (list string); build : option (list string) }.

(** An [UpdateContractError], of [parseSemver] or with another message, or the
    [TypeError] of the conversion of an object to a text. *)
Inductive update_error := InvalidSemver (value : jsval) | UpdateContract (message : string) | NotPrimitive.

(** The identifiers of an optional part: [Some None] when the part is absent. *)
Definition identifiers (part : option string) : option (option (list string)) :=
  match part with
  | None => Some None
  | Some t => let l := split_on DOT t in if forallb semver_identifier l then Some (Some l) else None
  end.

(** The match of [SEMVER].  Only the build metadata can follow a plus sign and
    the core has no dash, so the expression cuts the text at the first plus sign
    and what is before it at the first dash. *)
Definition SEMVER (value : string) : option semver :=
  let '(main, b) := cut PLUS value in
  let '(c, p) := cut DASH main in
  let numbers := split_on DOT c in
  if ((length numbers =? 3)%nat && forallb core_number numbers)
  then p ← identifiers p; b ← identifiers b; Some {| core := numbers; prerelease := p; build := b |}
  else None.

(** A numeric identifier with a leading zero. *)
Definition leading_zero (s : string) : bool :=
  numeric s && (1 <? String.length s)%nat && String.prefix "0" s.

Definition parseSemver (value : jsval) : update_error + semver :=
  match value with
  | JString text =>
      if (128 <? String.length text)%nat then inl (InvalidSemver value)
      else match SEMVER text with
      | None => inl (InvalidSemver value)
      | Some v =>
          if existsb leading_zero (default [] (prerelease v)) then inl (InvalidSemver value) else inr v
      end
  | _ => inl (InvalidSemver value)
  end.

(** ** Comparison *)
Definition compareNumericIdentifiers (l r : string) : Z :=
  if negb (String.length l =? String.length r)%nat
  then if (String.length l <? String.length r)%nat then -1 else 1
  else if bool_decide (l = r) then 0
  else if String.ltb l r then -1 else 1.

(** The loop over the indices of the longer list. *)
Fixpoint compare_identifiers (ls rs : list string) : Z :=
  match ls, rs with
  | [], [] => 0
  | [], _ :: _ => -1
  | _ :: _, [] => 1
  | l :: ls, r :: rs =>
      if bool_decide (l = r) then compare_identifiers ls rs
      else
        let leftNumeric := numeric l in
        let rightNumeric := numeric r in
        if leftNumeric && rightNumeric then compareNumericIdentifiers l r
        else if negb (Bool.eqb leftNumeric rightNumeric) then if leftNumeric then -1 else 1
        else if String.ltb l r then -1 else 1
  end.

Definition comparePrerelease (l r : option (list string)) : Z :=
  match l, r with
  | None, None => 0
  | None, Some _ => 1
  | Some _, None => -1
  | Some ls, Some rs => compare_identifiers ls rs
  end.

(** The loop over the three numbers, and what follows it. *)
Fixpoint compare_cores (ls rs : list string) (rest : Z) : Z :=
  match ls, rs with
  | l :: ls, r :: rs =>
      let comparison := compareNumericIdentifiers l r in
      if negb (comparison =? 0) then comparison else compare_cores ls rs rest
  | _, _ => rest
  end.

Definition compareSemver (leftValue rightValue : jsval) : update_error + Z :=
  match parseSemver leftValue with
  | inl e => inl e
  | inr l =>
      match parseSemver rightValue with
      | inl e => inl e
      | inr r => inr (compare_cores (core l) (core r) (comparePrerelease (prerelease l) (prerelease r)))
      end
  end.

Definition releaseChannelForVersion (value : jsval) : update_error + string :=
  match parseSemver value with
  | inl e => inl e
  | inr v => inr (if bool_decide (is_Some (prerelease v)) then "development" else "stable")
  end.

Definition isStableCoreVersion (value : jsval) : bool :=
  match parseSemver value with
  | inl _ => false
  | inr v => bool_decide (prerelease v = None) && bool_decide (build v = None)
  end.


(** ** The precedence of the specification

    Numbers are compared by their values; a numeric identifier is below an
    alphanumeric one, texts are compared in ASCII order, a shorter list of
    identifiers below its extensions, and a version with a pre-release below the
    same version without. *)
Fixpoint decimal_value (s : string) : Z :=
  match s with
  | "" => 0
  | String c rest => (code_unit c - 48) * 10 ^ Z.of_nat (String.length rest) + decimal_value rest
  end.

Inductive pre_id := Num (n : Z) | Alnum (s : string).
Definition pre_id_of (s : string) : pre_id := if numeric s then Num (decimal_value s) else Alnum s.

Definition id_compare (a b : pre_id) : comparison :=
  match a, b with
  | Num m, Num n => Z.compare m n
  | Num _, Alnum _ => Lt
  | Alnum _, Num _ => Gt
  | Alnum s, Alnum t => String.compare s t
  end.

Fixpoint lex {A} (cmp : A → A → comparison) (l r : list A) : comparison :=
  match l, r with
  | [], [] => Eq
  | [], _ :: _ => Lt
  | _ :: _, [] => Gt
  | a :: l, b :: r => match cmp a b with Eq => lex cmp l r | c => c end
  end.

Definition pre_compare (l r : option (list pre_id)) : comparison :=
  match l, r with
  | None, None => Eq
  | None, Some _ => Gt
  | Some _, None => Lt
  | Some ls, Some rs => lex id_compare ls rs
  end.

(** The first component decides, the second breaks ties. *)
Definition pair_cmp {A B} (f : A → A → comparison) (g : B → B → comparison) (p q : A * B) : comparison :=
  match f p.1 q.1 with
  | Eq => g p.2 q.2
  | c => c
  end.

Definition key (v : semver) : list Z * option (list pre_id) :=
  (decimal_value <$> core v, map pre_id_of <$> prerelease v).

Definition precedence (a b : semver) : comparison :=
  pair_cmp (lex Z.compare) pre_compare (key a) (key b).

Definition sign (c : comparison) : Z := match c with Lt => -1 | Eq => 0 | Gt => 1 end.

Example semver_ex : parseSemver (JString "1.20.3-rc.1+x-y.07") =
  inr {| core := ["1"; "20"; "3"]; prerelease := Some ["rc"; "1"]; build := Some ["x-y"; "07"] |}.
Proof. vm_compute. reflexivity. Qed.
Example semver_bad : map (λ s, match parseSemver (JString s) with inl _ => true | inr _ => false end)
  ["1.2"; "01.2.3"; "1.2.3-"; "1.2.3-01"; "1.2.3-a..b"; "1.2.3+a+b"; "v1.2.3"] = repeat true 7.
Proof. vm_compute. reflexivity. Qed.
Example semver_chain :
  let l := ["1.0.0-alpha"; "1.0.0-alpha.1"; "1.0.0-alpha.beta"; "1.0.0-beta"; "1.0.0-beta.2"; "1.0.0-beta.11";
            "1.0.0-rc.1"; "1.0.0"; "2.0.0"; "2.1.0"; "2.1.1"; "10.0.0"] in
  zip_with (λ s t, compareSemver (JString s) (JString t)) l (tail l) = repeat (inr (-1)) 11.
Proof. vm_compute. reflexivity. Qed.

(** ** Numerals *)
Lemma numeric_spec s : numeric s = true ↔ s ≠ "" ∧ string_forall ascii_digit s = true.
Proof. unfold numeric. rewrite andb_true_iff, negb_true_iff, bool_decide_eq_false. done. Qed.

(** A numeral without leading zeros: what the numbers of a version are made of. *)
Definition canonical_numeral (s : string) : Prop := numeric s = true ∧ leading_zero s = false.

Lemma ascii_digit_spec c : ascii_digit c = true → 48 ≤ code_unit c ≤ 57.
Proof. unfold ascii_digit. lia. Qed.

Lemma value_bounds s : string_forall ascii_digit s = true →
  0 ≤ decimal_value s < 10 ^ Z.of_nat (String.length s).
Proof.
  induction s as [|c s IH]; [done|]. rewrite string_forall_cons, andb_true_iff. intros [Hc Hs].
  apply ascii_digit_spec in Hc. specialize (IH Hs). cbn [decimal_value String.length].
  rewrite Nat2Z.inj_succ, Z.pow_succ_r by lia. nia.
Qed.

Lemma value_leading c s : code_unit c ≠ 48 → string_forall ascii_digit (String c s) = true →
  10 ^ Z.of_nat (String.length s) ≤ decimal_value (String c s).
Proof.
  intros Hc. rewrite string_forall_cons, andb_true_iff. intros [Hd Hs].
  apply ascii_digit_spec in Hd. pose proof (value_bounds s Hs). cbn [decimal_value]. nia.
Qed.

Lemma code_unit_inj c d : code_unit c = code_unit d → c = d.
Proof.
  unfold code_unit. intros H%N2Z.inj. by rewrite <-(Ascii.ascii_N_embedding c), H, Ascii.ascii_N_embedding.
Qed.

Lemma canonical_cons c s : canonical_numeral (String c s) → string_forall ascii_digit (String c s) = true ∧ (s = "" ∨ code_unit c ≠ 48).
Proof.
  unfold canonical_numeral, leading_zero. intros [Hn Hz]. rewrite Hn in Hz. apply numeric_spec in Hn as [_ Hn].
  split; [done|]. destruct s as [|d s]; [by left|right]. intros Hc.
  assert (c = Ascii.ascii_of_N 48) as -> by (by apply code_unit_inj). by cbn in Hz.
Qed.

(** The longer of two numerals without leading zeros is the larger. *)
Lemma canonical_longer l r : canonical_numeral l → canonical_numeral r →
  (String.length l < String.length r)%nat → decimal_value l < decimal_value r.
Proof.
  intros [[Hne Hl]%numeric_spec _] Hr Hlen. apply value_bounds in Hl. destruct r as [|c s]; [cbn in Hlen; lia|].
  cbn [String.length] in Hlen. apply canonical_cons in Hr as [Hd [->|Hc]].
  - destruct l; [done|cbn in Hlen; lia].
  - apply value_leading in Hd; [|done].
    pose proof (Z.pow_le_mono_r 10 (Z.of_nat (String.length l)) (Z.of_nat (String.length s))). lia.
Qed.

(** Digits of the same length are compared as texts. *)
Lemma value_compare l r : String.length l = String.length r →
  string_forall ascii_digit l = true → string_forall ascii_digit r = true →
  String.compare l r = (decimal_value l ?= decimal_value r).
Proof.
  revert r. induction l as [|c l IH]; intros [|d r] Hlen; try done.
  rewrite !string_forall_cons, !andb_true_iff. intros [Hc Hl] [Hd Hr].
  cbn [String.length] in Hlen. injection Hlen as Hlen.
  pose proof (value_bounds l Hl). pose proof (value_bounds r Hr). rewrite Hlen in *.
  cbn [String.compare decimal_value]. rewrite Hlen. unfold Ascii.compare.
  rewrite <-N2Z.inj_compare. fold (code_unit c) (code_unit d). rewrite (IH r) by done.
  destruct (Z.compare_spec (code_unit c) (code_unit d)) as [->|Hcd|Hcd]; symmetry.
  - destruct (Z.compare_spec (decimal_value l) (decimal_value r));
      [apply Z.compare_eq_iff|apply Z.compare_lt_iff|apply Z.compare_gt_iff]; lia.
  - apply Z.compare_lt_iff. nia.
  - apply Z.compare_gt_iff. nia.
Qed.

Lemma ltb_compare l r : l ≠ r → (if String.ltb l r then -1 else 1) = sign (String.compare l r).
Proof.
  intros Hne. unfold String.ltb. destruct (String.compare l r) eqn:H; [|done..].
  by apply String.compare_eq_iff in H.
Qed.

Lemma compareNumericIdentifiers_value l r : canonical_numeral l → canonical_numeral r →
  compareNumericIdentifiers l r = sign (decimal_value l ?= decimal_value r).
Proof.
  intros Hl Hr. unfold compareNumericIdentifiers.
  destruct (Nat.eqb_spec (String.length l) (String.length r)) as [Hlen|Hlen]; cbn [negb].
  - pose proof (proj1 (numeric_spec l) (proj1 Hl)) as [_ Hdl]. pose proof (proj1 (numeric_spec r) (proj1 Hr)) as [_ Hdr].
    case_bool_decide as He; [subst; by rewrite Z.compare_refl|].
    by rewrite ltb_compare, value_compare.
  - destruct (Nat.ltb_spec (String.length l) (String.length r)).
    + pose proof (canonical_longer l r Hl Hr). rewrite (proj2 (Z.compare_lt_iff _ _)); [done|auto].
    + pose proof (canonical_longer r l Hr Hl ltac:(lia)). by rewrite (proj2 (Z.compare_gt_iff _ _)).
Qed.

Lemma canonical_inj l r : canonical_numeral l → canonical_numeral r → decimal_value l = decimal_value r → l = r.
Proof.
  intros Hl Hr He. destruct (lt_eq_lt_dec (String.length l) (String.length r)) as [[H|H]|H].
  - pose proof (canonical_longer l r Hl Hr H). lia.
  - apply String.compare_eq_iff. rewrite value_compare; [by rewrite He, Z.compare_refl|done|..].
    all: apply numeric_spec; [apply Hl || apply Hr].
  - pose proof (canonical_longer r l Hr Hl H). lia.
Qed.

(** ** What parsing guarantees *)
Record valid_semver (v : semver) : Prop := {
  valid_core : Forall canonical_numeral (core v);
  valid_length : length (core v) = 3%nat;
  valid_prerelease : ∀ l, prerelease v = Some l → Forall (λ s, leading_zero s = false) l
}.

Lemma core_number_canonical s : core_number s = true → canonical_numeral s.
Proof.
  destruct s as [|c s]; [done|]. unfold core_number. case_bool_decide as H0; [rewrite H0; done|].
  rewrite !andb_true_iff, negb_true_iff. intros [[Hc Hz] Hs]. split.
  - apply numeric_spec. split; [done|]. by rewrite string_forall_cons, Hc.
  - unfold leading_zero. apply andb_false_iff. right. cbn [String.prefix].
    apply Z.eqb_neq in Hz. destruct (Ascii.ascii_dec _ c) as [<-|]; done.
Qed.

Lemma parseSemver_valid s v : parseSemver s = inr v → valid_semver v.
Proof.
  unfold parseSemver. destruct s as [| | | |s| | |]; try done. destruct (128 <? _)%nat; [done|]. destruct (SEMVER s) as [w|] eqn:HS; [|done].
  destruct (existsb _ _) eqn:Hz; [done|]. intros [= <-].
  unfold SEMVER in HS. destruct (cut PLUS s) as [m b]. destruct (cut DASH m) as [c p].
  destruct (_ && _) eqn:Hc; [|done]. apply andb_true_iff in Hc as [Hl%Nat.eqb_eq Hc].
  destruct (identifiers p) as [p'|]; [|done]. destruct (identifiers b) as [b'|]; [|done].
  injection HS as <-. split; cbn in *.
  - apply Forall_forall. intros x Hx. apply core_number_canonical. rewrite forallb_forall in Hc. apply Hc.
    by apply list_elem_of_In.
  - done.
  - intros l ->. cbn in Hz. apply Forall_forall. intros x Hx. apply not_true_iff_false. intros Ht.
    apply not_true_iff_false in Hz. apply Hz, existsb_exists. exists x. by rewrite <-list_elem_of_In.
Qed.

(** ** Comparison is the precedence of the specification *)
Lemma sign_0 c : sign c = 0 ↔ c = Eq.
Proof. by destruct c. Qed.

Lemma compare_cores_lex ls rs rest : Forall canonical_numeral ls → Forall canonical_numeral rs → length ls = length rs →
  compare_cores ls rs rest =
  match lex Z.compare (decimal_value <$> ls) (decimal_value <$> rs) with Eq => rest | c => sign c end.
Proof.
  intros Hl. revert rs. induction Hl as [|l ls Hc Hl IH]; intros rs Hr Hlen; destruct Hr as [|r rs Hd Hr]; try done.
  injection Hlen as Hlen. cbn [compare_cores]. rewrite compareNumericIdentifiers_value by done. cbn.
  destruct (_ ?= _); cbn; [by apply IH|done..].
Qed.

Lemma compare_identifiers_step l r : leading_zero l = false → leading_zero r = false → l ≠ r →
  (if numeric l && numeric r then compareNumericIdentifiers l r
   else if negb (Bool.eqb (numeric l) (numeric r)) then if numeric l then -1 else 1
   else if String.ltb l r then -1 else 1) = sign (id_compare (pre_id_of l) (pre_id_of r)) ∧
  id_compare (pre_id_of l) (pre_id_of r) ≠ Eq.
Proof.
  intros Hl Hr Hne. unfold pre_id_of. destruct (numeric l) eqn:El, (numeric r) eqn:Er; cbn; [|done|done|].
  - split; [by apply compareNumericIdentifiers_value|]. intros H%Z.compare_eq_iff. by apply Hne, canonical_inj.
  - split; [by apply ltb_compare|]. by intros H%String.compare_eq_iff.
Qed.

Lemma string_compare_eq s t : String.compare s t = Eq ↔ s = t.
Proof. split; [apply String.compare_eq_iff|intros <-]. induction s; cbn; [done|]. unfold Ascii.compare. by rewrite N.compare_refl. Qed.

Lemma id_compare_refl a : id_compare a a = Eq.
Proof. destruct a; cbn; [apply Z.compare_refl|by apply (proj2 (string_compare_eq s s))]. Qed.

Lemma compare_identifiers_lex ls rs :
  Forall (λ s, leading_zero s = false) ls → Forall (λ s, leading_zero s = false) rs →
  compare_identifiers ls rs = sign (lex id_compare (map pre_id_of ls) (map pre_id_of rs)).
Proof.
  intros Hl. revert rs. induction Hl as [|l ls Hc Hl IH]; intros rs Hr; destruct Hr as [|r rs Hd Hr]; try done.
  cbn [compare_identifiers map lex]. case_bool_decide as He.
  - subst. rewrite id_compare_refl. by apply IH.
  - destruct (compare_identifiers_step l r) as [-> Hne]; [done..|]. by destruct (id_compare _ _).
Qed.

Lemma compareSemver_valid a b v w : parseSemver a = inr v → parseSemver b = inr w →
  compareSemver a b = inr (sign (precedence v w)).
Proof.
  intros Ha Hb. unfold compareSemver. rewrite Ha, Hb. f_equal.
  apply parseSemver_valid in Ha as [Hv Lv Pv], Hb as [Hw Lw Pw].
  rewrite compare_cores_lex by congruence. unfold precedence, pair_cmp, key. cbn [fst snd].
  destruct (lex Z.compare _ _); [|done..]. unfold comparePrerelease, pre_compare.
  destruct (prerelease v), (prerelease w); cbn; [|done..]. apply compare_identifiers_lex; eauto.
Qed.

(** ** Total orders by comparison *)
Class Comparator {A} (cmp : A → A → comparison) : Prop := {
  cmp_eq a b : cmp a b = Eq ↔ a = b;
  cmp_opp a b : cmp b a = CompOpp (cmp a b);
  cmp_lt_trans a b c : cmp a b = Lt → cmp b c = Lt → cmp a c = Lt
}.

#[export] Instance Z_comparator : Comparator Z.compare.
Proof.
  split; [apply Z.compare_eq_iff|intros; apply Z.compare_antisym|].
  intros a b c. rewrite !Z.compare_lt_iff. lia.
Qed.

Lemma ascii_compare_code_unit c d : Ascii.compare c d = (code_unit c ?= code_unit d).
Proof. unfold code_unit, Ascii.compare. by rewrite <-N2Z.inj_compare. Qed.

#[export] Instance string_comparator : Comparator String.compare.
Proof.
  split; [apply string_compare_eq|intros; apply String.compare_antisym|].
  intros a. induction a as [|x a IH]; intros [|y b] [|z c]; try done. cbn. rewrite !ascii_compare_code_unit.
  destruct (Z.compare_spec (code_unit x) (code_unit y)) as [Hxy|Hxy|Hxy]; [|intros _|done];
    destruct (Z.compare_spec (code_unit y) (code_unit z)) as [Hyz|Hyz|Hyz]; try done; intros.
  - rewrite (proj2 (Z.compare_eq_iff _ _)) by congruence. eauto.
  - rewrite (proj2 (Z.compare_lt_iff _ _)); [done|lia].
  - rewrite (proj2 (Z.compare_lt_iff _ _)); [done|lia].
  - rewrite (proj2 (Z.compare_lt_iff _ _)); [done|lia].
Qed.

#[export] Instance id_comparator : Comparator id_compare.
Proof.
  split.
  - intros [m|s] [n|t]; cbn; rewrite ?cmp_eq; split; congruence.
  - intros [m|s] [n|t]; cbn; [apply cmp_opp|done|done|apply cmp_opp].
  - intros [m|s] [n|t] [o|u]; cbn; try done; apply cmp_lt_trans.
Qed.

Section Lex.
Context {A} {cmp : A → A → comparison} `{!Comparator cmp}.

#[export] Instance lex_comparator : Comparator (lex cmp).
Proof.
  split.
  - intros l. induction l as [|a l IH]; intros [|b r]; cbn; try done.
    destruct (cmp a b) eqn:H; [rewrite IH; apply cmp_eq in H as ->; split; congruence|..].
    all: split; [done|intros [= -> ->]]; rewrite (proj2 (cmp_eq _ _) eq_refl) in H; done.
  - intros l. induction l as [|a l IH]; intros [|b r]; cbn; try done.
    rewrite (cmp_opp a b). destruct (cmp a b); cbn; [apply IH|done..].
  - intros l. induction l as [|a l IH]; intros [|b r] [|c t]; cbn; try done.
    destruct (cmp a b) eqn:Hab; [apply cmp_eq in Hab as ->|intros _|done].
    + destruct (cmp b c); [apply IH|done..].
    + destruct (cmp b c) eqn:Hbc; [apply cmp_eq in Hbc as ->; by rewrite Hab|intros _|done].
      by rewrite (cmp_lt_trans a b c).
Qed.
End Lex.

#[export] Instance pre_comparator : Comparator pre_compare.
Proof.
  split.
  - intros [l|] [r|]; cbn; [rewrite cmp_eq|..]; split; congruence.
  - intros [l|] [r|]; cbn; [apply cmp_opp|done..].
  - intros [l|] [r|] [t|]; cbn; try done. apply cmp_lt_trans.
Qed.

#[export] Instance pair_comparator {A B} {f : A → A → comparison} {g : B → B → comparison} :
  Comparator f → Comparator g → Comparator (pair_cmp f g).
Proof.
  intros Hf Hg. unfold pair_cmp. split.
  - intros [a b] [c d]; cbn. destruct (f a c) eqn:H; [rewrite cmp_eq; apply cmp_eq in H as ->; split; congruence|..].
    all: split; [done|intros [= -> ->]]; rewrite (proj2 (cmp_eq _ _) eq_refl) in H; done.
  - intros [a b] [c d]; cbn. rewrite (cmp_opp a c). destruct (f a c); cbn; [apply cmp_opp|done..].
  - intros [a b] [c d] [x y]; cbn. destruct (f a c) eqn:Hac; [apply cmp_eq in Hac as ->|intros _|done].
    + destruct (f c x); [apply cmp_lt_trans|done..].
    + destruct (f c x) eqn:Hcx; [apply cmp_eq in Hcx as ->; by rewrite Hac|intros _|done].
      by rewrite (cmp_lt_trans a c x).
Qed.

(** ** The order of versions *)
Lemma pre_id_of_inj s t : leading_zero s = false → leading_zero t = false → pre_id_of s = pre_id_of t → s = t.
Proof.
  intros Hs Ht. unfold pre_id_of. destruct (numeric s) eqn:Es, (numeric t) eqn:Et; intros [= H]; [|done].
  by apply canonical_inj.
Qed.

Lemma map_inj_on {A B} (f : A → B) (P : A → Prop) l r :
  (∀ a b, P a → P b → f a = f b → a = b) → Forall P l → Forall P r → map f l = map f r → l = r.
Proof.
  intros Hf Hl. revert r. induction Hl as [|a l Ha Hl IH]; intros r Hr; destruct Hr as [|b r Hb Hr]; try done.
  cbn. intros [= Hab Hlr]. f_equal; eauto.
Qed.

Lemma key_inj v w : valid_semver v → valid_semver w → key v = key w ↔ core v = core w ∧ prerelease v = prerelease w.
Proof.
  intros [Hv _ Pv] [Hw _ Pw]. unfold key. split; [intros [= Hc Hp]|by intros [-> ->]]. split.
  - by eapply (map_inj_on decimal_value canonical_numeral); [apply canonical_inj|..].
  - destruct (prerelease v) as [l|], (prerelease w) as [r|]; try done. injection Hp as Hp. f_equal.
    eapply (map_inj_on pre_id_of (λ s, leading_zero s = false)); eauto. apply pre_id_of_inj.
Qed.

Lemma precedence_trans u v w : precedence u v ≠ Gt → precedence v w ≠ Gt →
  precedence u w ≠ Gt ∧ (precedence u w = Eq → precedence u v = Eq ∧ precedence v w = Eq).
Proof.
  unfold precedence. destruct (pair_cmp _ _ (key u) (key v)) eqn:H; [|intros _|done].
  - apply cmp_eq in H as ->. destruct (pair_cmp _ _ (key v) (key w)); done.
  - destruct (pair_cmp _ _ (key v) (key w)) eqn:H'; [apply cmp_eq in H' as <-; by rewrite H|intros _|done].
    by rewrite (cmp_lt_trans _ _ _ H H').
Qed.

Lemma sign_opp c : sign (CompOpp c) = - sign c.
Proof. by destruct c. Qed.

Lemma compareSemver_inv a b x : compareSemver a b = inr x →
  ∃ v w, parseSemver a = inr v ∧ parseSemver b = inr w ∧ x = sign (precedence v w).
Proof.
  intros H. destruct (parseSemver a) as [|v] eqn:Ha; [by unfold compareSemver in H; rewrite Ha in H|].
  destruct (parseSemver b) as [|w] eqn:Hb; [by unfold compareSemver in H; rewrite Ha, Hb in H|].
  rewrite (compareSemver_valid a b v w) in H by done. injection H as <-. eauto.
Qed.

(** C18: comparing two valid versions is the precedence of the specification:
    the values of the three numbers decide, then a version without a pre-release
    is the larger, then the identifiers, numbers by their values and below
    texts.  The result is an error exactly when a version is invalid. *)
Theorem compareSemver_precedence (a b : jsval) :
  compareSemver a b =
  match parseSemver a, parseSemver b with
  | inl e, _ => inl e
  | inr _, inl e => inl e
  | inr v, inr w => inr (sign (precedence v w))
  end.
Proof.
  destruct (parseSemver a) as [e|v] eqn:Ha; [by unfold compareSemver; rewrite Ha|].
  destruct (parseSemver b) as [e|w] eqn:Hb; [by unfold compareSemver; rewrite Ha, Hb|].
  by apply compareSemver_valid.
Qed.

(** Versions are totally preordered: comparison is antisymmetric in its
    arguments and transitive, and two versions compare equal exactly when they
    have the same numbers and the same pre-release (build metadata is ignored). *)
Theorem compareSemver_order (a b c : jsval) (x y : Z) :
  compareSemver a b = inr x → compareSemver b c = inr y →
  compareSemver b a = inr (- x) ∧
  (x = 0 ↔ ∃ v w, parseSemver a = inr v ∧ parseSemver b = inr w ∧
    core v = core w ∧ prerelease v = prerelease w) ∧
  (x ≤ 0 → y ≤ 0 → ∃ z, compareSemver a c = inr z ∧ z ≤ 0 ∧ (z = 0 → x = 0 ∧ y = 0)).
Proof.
  intros (v & w & Hv & Hw & ->)%compareSemver_inv (w' & u & Hw' & Hu & ->)%compareSemver_inv.
  rewrite Hw in Hw'. injection Hw' as <-. split; [|split].
  - rewrite (compareSemver_valid b a w v) by done. unfold precedence. by rewrite (cmp_opp (key v)), sign_opp.
  - rewrite sign_0. unfold precedence. rewrite cmp_eq, key_inj by eauto using parseSemver_valid.
    split; [naive_solver|]. rewrite Hv, Hw. intros (? & ? & [= <-] & [= <-] & ?). done.
  - intros Hx Hy. exists (sign (precedence v u)). split; [by apply compareSemver_valid|].
    destruct (precedence_trans v w u) as [Hg He]; [by destruct (precedence v w)|by destruct (precedence w u)|].
    rewrite !sign_0. split; [by destruct (precedence v u)|done].
Qed.

Lemma compareSemver_order_witness :
  compareSemver (JString "1.0.0-rc.2") (JString "1.0.0-rc.10+b") = inr (-1) ∧
  compareSemver (JString "1.0.0-rc.10+b") (JString "1.0.0") = inr (-1) ∧
  compareSemver (JString "1.0.0-rc.10+b") (JString "1.0.0-rc.2") = inr 1 ∧
  ∃ z, compareSemver (JString "1.0.0-rc.2") (JString "1.0.0") = inr z ∧ z ≤ 0 ∧ (z = 0 → -1 = 0 ∧ -1 = 0).
Proof.
  assert (H1 : compareSemver (JString "1.0.0-rc.2") (JString "1.0.0-rc.10+b") = inr (-1)) by (vm_compute; reflexivity).
  assert (H2 : compareSemver (JString "1.0.0-rc.10+b") (JString "1.0.0") = inr (-1)) by (vm_compute; reflexivity).
  pose proof (compareSemver_order _ _ _ _ _ H1 H2) as (H & _ & H3).
  split; [exact H1|]. split; [exact H2|]. split; [exact H|]. apply H3; lia.
Defined.
