(* ===== verification/Updates.v ===== *)
(** * Release identities ([src/.agents/skills/archify/scripts/update-contract.mjs])

    The validation of the descriptor of the installed release and of the manifest
    of a stable update, which come as parsed JSON.  [Date.parse], the text of a
    number and the text of a date are parameters. *)

From stdpp Require Import sorting.
From S2P Require Import Prelude Num JsValue Json Semver.
#[local] Open Scope Z_scope.

Definition SKILL_ID : string := "archify".
Definition EXPECTED_REPOSITORY : string := "https://github.com/tt-a1i/archify".
Definition DEFAULT_MANIFEST_URL : string := "https://tt-a1i.github.io/archify/skill-updates/archify/stable.json".

(** ** Values *)

(** [value.name] of a value known to be an object. *)
Definition prop (value : jsval) (name : string) : jsval :=
  match value with
  | JObject o => js_get o name
  | _ => JUndefined
  end.

(** [value === text] *)
Definition is_text (text : string) (value : jsval) : bool :=
  match value with
  | JString t => bool_decide (t = text)
  | _ => false
  end.

(** [value === 1] *)
Definition is_one (value : jsval) : bool :=
  match value with
  | JNumber x => nle x (nof 1) && nle (nof 1) x
  | _ => false
  end.

(** [Object.keys] of a plain object. *)
Definition isPlainObject (value : jsval) : option (list string) :=
  match value with
  | JObject o => Some (map fst o)
  | JDate _ => Some []
  | _ => None
  end.

(** [Array.prototype.sort]: by code units. *)
Definition text_le (s t : string) : Prop := String.compare s t ≠ Gt.
#[export] Instance text_le_dec : RelDecision text_le := λ s t, _.
Definition sorted_keys (keys : list string) : list string := merge_sort text_le keys.

Definition ZERO_BYTE : string := String (Ascii.ascii_of_N 0) "".

Definition hasExactKeys (value : jsval) (expected : list string) : bool :=
  match isPlainObject value with
  | None => false
  | Some keys =>
      bool_decide (String.concat ZERO_BYTE (sorted_keys keys) = String.concat ZERO_BYTE (sorted_keys expected))
  end.

(** ** Regular expressions *)

(** A text that follows a picture, in which a zero stands for a digit. *)
Fixpoint pictured (picture s : string) : bool :=
  match picture, s with
  | "", "" => true
  | String p picture, String c s =>
      (if bool_decide (p = Ascii.ascii_of_N 48) then ascii_digit c else bool_decide (p = c)) && pictured picture s
  | _, _ => false
  end.

Definition UTC_SECONDS (s : string) : bool := pictured "0000-00-00T00:00:00Z" s.

(** [[a-f0-9]{n}] *)
Definition hex_char (c : Ascii.ascii) : bool := ascii_digit c || ((97 <=? code_unit c) && (code_unit c <=? 102)).
Definition hex (n : nat) (s : string) : bool := (String.length s =? n)%nat && string_forall hex_char s.
Definition HEX_40 : string → bool := hex 40.
Definition HEX_64 : string → bool := hex 64.

(** The control characters of Latin-1; the bidirectional ones are not in it. *)
Definition control (c : Ascii.ascii) : bool := (code_unit c <=? 31) || ((127 <=? code_unit c) && (code_unit c <=? 159)).
Definition CONTROL_OR_BIDI (s : string) : bool := negb (string_forall (λ c, negb (control c)) s).

(** ** Validation *)
Section Validation.
Context (date_parse : string → option Z) (number_text : binary64 → string) (date_text : option Z → string).

(** The text of a value given to [RegExp.prototype.test]: [None] when an object
    hides [toString] (no value of the model is a function). *)
Fixpoint js_text (value : jsval) : option string :=
  match value with
  | JUndefined => Some "undefined"
  | JNull => Some "null"
  | JBool b => Some (if b then "true" else "false")
  | JNumber x => Some (number_text x)
  | JString s => Some s
  | JDate t => Some (date_text t)
  | JObject o => if existsb (λ kv, bool_decide (kv.1 = "toString")) o then None else Some "[object Object]"
  | JArray l =>
      String.concat "," <$>
      foldr (λ v acc, t ← match v with JUndefined | JNull => Some "" | _ => js_text v end; acc ← acc; Some (t :: acc))
        (Some []) l
  end.

Definition invalid {A} (message : string) : update_error + A := inl (UpdateContract message).

Definition validateCanonicalUtcTimestamp (value : jsval) : update_error + jsval :=
  match value with
  | JString text =>
      if negb (UTC_SECONDS text) then invalid "publication time must use YYYY-MM-DDTHH:mm:ssZ"
      else match date_parse text with
      | Some timestamp =>
          if bool_decide (replace_first ".000Z" "Z" (toISOString timestamp) = text) then inr value
          else invalid "publication time is not a real UTC calendar instant"
      | None => invalid "publication time is not a real UTC calendar instant"
      end
  | _ => invalid "publication time must use YYYY-MM-DDTHH:mm:ssZ"
  end.

Definition local_identity (value : jsval) : bool :=
  hasExactKeys value ["schemaVersion"; "skillId"; "channel"; "version"; "source"; "updateManifestUrl"] &&
  is_one (prop value "schemaVersion") &&
  is_text SKILL_ID (prop value "skillId") &&
  hasExactKeys (prop value "source") ["repository"] &&
  is_text EXPECTED_REPOSITORY (prop (prop value "source") "repository") &&
  is_text DEFAULT_MANIFEST_URL (prop value "updateManifestUrl").

Definition local_release (value : jsval) : jsval := JObject
  [("schemaVersion", prop value "schemaVersion"); ("skillId", prop value "skillId");
   ("channel", prop value "channel"); ("version", prop value "version");
   ("source", JObject [("repository", prop (prop value "source") "repository")]);
   ("updateManifestUrl", prop value "updateManifestUrl")].

Definition validateLocalRelease (value : jsval) : update_error + jsval :=
  if negb (local_identity value) then invalid "invalid local release identity"
  else match releaseChannelForVersion (prop value "version") with
  | inl e => inl e
  | inr expectedChannel =>
      if negb (is_text expectedChannel (prop value "channel"))
      then invalid "local release channel does not match its version"
      else inr (local_release value)
  end.

(** [`prefix${version}`] of a version that is a text. *)
Definition version_text (prefix : string) (version : jsval) : string :=
  match version with
  | JString t => prefix +:+ t
  | _ => prefix
  end.

Definition RELEASES : string := "https://github.com/tt-a1i/archify/releases/tag/v".

Definition validateReleaseNotesUrl (value version : jsval) : update_error + jsval :=
  if negb (isStableCoreVersion version) then invalid "release notes require a stable core version"
  else if negb (is_text (version_text RELEASES version) value)
  then invalid "release notes URL is outside the exact trusted release path"
  else inr value.

(** The operands of the condition before the first regular expression. *)
Definition stable_identity (value : jsval) : bool :=
  hasExactKeys value ["schemaVersion"; "skillId"; "channel"; "version"; "publishedAt"; "source";
    "artifact"; "summary"; "releaseNotes"; "severity"] &&
  is_one (prop value "schemaVersion") &&
  is_text SKILL_ID (prop value "skillId") &&
  is_text "stable" (prop value "channel") &&
  isStableCoreVersion (prop value "version") &&
  hasExactKeys (prop value "source") ["repository"; "ref"; "treeSha"] &&
  is_text EXPECTED_REPOSITORY (prop (prop value "source") "repository") &&
  is_text (version_text "v" (prop value "version")) (prop (prop value "source") "ref").

(** [re.test(value)]: the text of the value may be an exception. *)
Definition test (re : string → bool) (value : jsval) : update_error + bool :=
  match js_text value with
  | Some t => inr (re t)
  | None => inl NotPrimitive
  end.

(** The whole condition, negated: its operands in order. *)
Definition trusted (value : jsval) : update_error + bool :=
  if stable_identity value then
    match test HEX_40 (prop (prop value "source") "treeSha") with
    | inl e => inl e
    | inr false => inr false
    | inr true =>
        if hasExactKeys (prop value "artifact") ["sha256"]
        then test HEX_64 (prop (prop value "artifact") "sha256") else inr false
    end
  else inr false.

Definition valid_summary (value : jsval) : bool :=
  match value with
  | JString t => negb (String.length t <? 1)%nat && negb (160 <? String.length t)%nat && negb (CONTROL_OR_BIDI t)
  | _ => false
  end.

Definition stable_manifest (value : jsval) : jsval := JObject
  [("schemaVersion", prop value "schemaVersion"); ("skillId", prop value "skillId");
   ("channel", prop value "channel"); ("version", prop value "version");
   ("publishedAt", prop value "publishedAt");
   ("source", JObject
     [("repository", prop (prop value "source") "repository"); ("ref", prop (prop value "source") "ref");
      ("treeSha", prop (prop value "source") "treeSha")]);
   ("artifact", JObject [("sha256", prop (prop value "artifact") "sha256")]);
   ("summary", prop value "summary"); ("releaseNotes", prop value "releaseNotes");
   ("severity", prop value "severity")].

Definition validateStableUpdateManifest (value : jsval) : update_error + jsval :=
  match trusted value with
  | inl e => inl e
  | inr false => invalid "invalid immutable stable release identity"
  | inr true =>
      match validateCanonicalUtcTimestamp (prop value "publishedAt") with
      | inl e => inl e
      | inr _ =>
          if negb (valid_summary (prop value "summary")) then invalid "invalid release summary"
          else match validateReleaseNotesUrl (prop value "releaseNotes") (prop value "version") with
          | inl e => inl e
          | inr _ =>
              if negb (is_text "normal" (prop value "severity") || is_text "security" (prop value "severity"))
              then invalid "invalid update severity"
              else inr (stable_manifest value)
          end
      end
  end.
End Validation.

(** ** The order of texts *)
#[export] Instance text_le_trans : Transitive text_le.
Proof.
  intros a b c. unfold text_le. destruct (String.compare a b) eqn:Hab; [|intros _|done].
  - by apply cmp_eq in Hab as ->.
  - destruct (String.compare b c) eqn:Hbc; [apply cmp_eq in Hbc as <-; by rewrite Hab|intros _|done].
    by rewrite (cmp_lt_trans _ _ _ Hab Hbc).
Qed.

#[export] Instance text_le_total : Total text_le.
Proof. intros a b. unfold text_le. rewrite (cmp_opp (cmp := String.compare) a b). by destruct (String.compare a b); [left|left|right]. Qed.

#[export] Instance text_le_antisym : AntiSymm (=) text_le.
Proof.
  intros a b. unfold text_le. rewrite (cmp_opp (cmp := String.compare) a b).
  destruct (String.compare a b) eqn:H; [by apply cmp_eq in H|done..].
Qed.

Lemma sorted_keys_sorted l : StronglySorted text_le (sorted_keys l).
Proof. apply Sorted_StronglySorted, Sorted_merge_sort; apply _. Qed.
Lemma sorted_keys_perm l : sorted_keys l ≡ₚ l.
Proof. apply merge_sort_Permutation. Qed.

(** Sorting forgets the order in which texts come. *)
Lemma sorted_keys_proper l r : l ≡ₚ r → sorted_keys l = sorted_keys r.
Proof.
  intros H. apply (StronglySorted_unique text_le); [apply sorted_keys_sorted..|]. by rewrite !sorted_keys_perm.
Qed.

(** ** Exact keys *)

(** The bytes of a list of texts, each with its separator. *)
Definition weight (l : list string) : nat := sum_list_with (λ s, S (String.length s)) l.

Lemma weight_app l r : weight (l ++ r) = (weight l + weight r)%nat.
Proof. apply sum_list_with_app. Qed.

Lemma weight_perm l r : l ≡ₚ r → weight l = weight r.
Proof. unfold weight. induction 1; cbn; lia. Qed.

Lemma concat_weight l : l ≠ [] → S (String.length (String.concat ZERO_BYTE l)) = weight l.
Proof.
  induction l as [|a [|b l] IH]; [done|cbn; lia|]. intros _.
  change (String.concat ZERO_BYTE (a :: b :: l)) with (a +:+ ZERO_BYTE +:+ String.concat ZERO_BYTE (b :: l)).
  rewrite !string_length_app. specialize (IH ltac:(done)). cbn in *. lia.
Qed.

(** When every expected key is there, there is no other. *)
Lemma hasExactKeys_perm o expected : NoDup expected → expected ≠ [] →
  (∀ k, k ∈ expected → js_get o k ≠ JUndefined) → hasExactKeys (JObject o) expected = true →
  map fst o ≡ₚ expected.
Proof.
  intros Hnd Hne Hin. unfold hasExactKeys, isPlainObject. rewrite bool_decide_eq_true. intros Heq.
  assert (expected ⊆+ map fst o) as (extra & Hp)%submseteq_Permutation.
  { apply NoDup_submseteq; [done|]. intros k Hk%Hin. apply list_elem_of_In. unfold js_get in Hk.
    destruct (list_find _ o) as [[i [k' v]]|] eqn:Hf; [|done]. apply list_find_Some in Hf as (Ho & Hk' & _).
    cbn in Hk'. subst k'. apply in_map_iff. exists (k, v). split; [done|].
    by apply list_elem_of_In, (list_elem_of_lookup_2 _ i). }
  assert (sorted_keys (map fst o) ≡ₚ map fst o) as Hs by apply merge_sort_Permutation.
  assert (sorted_keys expected ≡ₚ expected) as He by apply merge_sort_Permutation.
  assert (weight (sorted_keys (map fst o)) = weight (sorted_keys expected)) as Hw.
  { rewrite <-!concat_weight; [by rewrite Heq|..]; intros H; rewrite H in *.
    - by apply Permutation_nil_l in He.
    - symmetry in Hs. apply Permutation_nil_r in Hs. rewrite Hs in Hp.
      apply Permutation_nil_l in Hp. by destruct expected. }
  rewrite (weight_perm _ _ Hs), (weight_perm _ _ He), (weight_perm _ _ Hp), weight_app in Hw.
  destruct extra as [|x extra]; [by rewrite app_nil_r in Hp|]. cbn in Hw. lia.
Qed.

(** ** What an accepted manifest is *)
Lemma is_text_eq t v : is_text t v = true → v = JString t.
Proof. destruct v; cbn; try done. by intros ->%bool_decide_eq_true. Qed.

Lemma hasExactKeys_object v expected : expected ≠ [] → NoDup expected →
  (∀ k, k ∈ expected → prop v k ≠ JUndefined) → hasExactKeys v expected = true →
  ∃ o, v = JObject o ∧ map fst o ≡ₚ expected.
Proof.
  intros Hne Hnd Hin H. destruct v as [| | | | | | |o].
  8: { exists o. split; [done|]. by apply hasExactKeys_perm. }
  all: destruct expected as [|k expected]; [done|]; exfalso; apply (Hin k ltac:(by constructor)); reflexivity.
Qed.

Section Accepted.
Context (date_parse : string → option Z) (number_text : binary64 → string) (date_text : option Z → string).
Notation validateStableUpdateManifest := (validateStableUpdateManifest date_parse number_text date_text).

(** The facts an accepted value satisfies. *)
Record accepted (v : jsval) : Prop := {
  acc_trusted : trusted number_text date_text v = inr true;
  acc_published : validateCanonicalUtcTimestamp date_parse (prop v "publishedAt") = inr (prop v "publishedAt");
  acc_summary : valid_summary (prop v "summary") = true;
  acc_notes : validateReleaseNotesUrl (prop v "releaseNotes") (prop v "version") = inr (prop v "releaseNotes");
  acc_severity : is_text "normal" (prop v "severity") || is_text "security" (prop v "severity") = true
}.

Lemma timestamp_same v t : validateCanonicalUtcTimestamp date_parse v = inr t → t = v.
Proof.
  unfold validateCanonicalUtcTimestamp. destruct v; try done. destruct (UTC_SECONDS s); cbn; [|done]. destruct (date_parse s); [|done].
  case_bool_decide; [by intros [= <-]|done].
Qed.

Lemma notes_same v w t : validateReleaseNotesUrl v w = inr t →
  t = v ∧ isStableCoreVersion w = true ∧ is_text (version_text RELEASES w) v = true.
Proof.
  unfold validateReleaseNotesUrl. destruct (isStableCoreVersion w); cbn; [|done].
  destruct (is_text _ v); cbn; [|done]. by intros [= ->].
Qed.

Lemma validate_accepted v r : validateStableUpdateManifest v = inr r ↔ accepted v ∧ r = stable_manifest v.
Proof.
  unfold Updates.validateStableUpdateManifest. split.
  - destruct (trusted _ _ v) as [|[]] eqn:Ht; [done| |done].
    destruct (validateCanonicalUtcTimestamp _ _) as [|t] eqn:Hp; [done|].
    destruct (valid_summary _) eqn:Hs; cbn; [|done].
    destruct (validateReleaseNotesUrl _ _) as [|u] eqn:Hn; [done|].
    destruct (_ || _) eqn:Hv; cbn; [|done]. intros [= <-]. split; [|done].
    pose proof (timestamp_same _ _ Hp) as ->. pose proof (notes_same _ _ _ Hn) as (-> & _). by split.
  - intros [[-> -> -> -> Hv] ->]. cbn. by rewrite Hv.
Qed.

Lemma stable_identity_inv v : stable_identity v = true →
  hasExactKeys v ["schemaVersion"; "skillId"; "channel"; "version"; "publishedAt"; "source";
    "artifact"; "summary"; "releaseNotes"; "severity"] = true ∧
  is_one (prop v "schemaVersion") = true ∧ is_text SKILL_ID (prop v "skillId") = true ∧
  is_text "stable" (prop v "channel") = true ∧ isStableCoreVersion (prop v "version") = true ∧
  hasExactKeys (prop v "source") ["repository"; "ref"; "treeSha"] = true ∧
  is_text EXPECTED_REPOSITORY (prop (prop v "source") "repository") = true ∧
  is_text (version_text "v" (prop v "version")) (prop (prop v "source") "ref") = true.
Proof. unfold stable_identity. rewrite !andb_true_iff. tauto. Qed.

(** The manifest that is returned passes the same tests. *)
Lemma accepted_again v : accepted v → accepted (stable_manifest v).
Proof.
  intros [Ht Hp Hs Hn Hv]. split; [|exact Hp|exact Hs|exact Hn|exact Hv].
  revert Ht. unfold trusted.
  assert (stable_identity (stable_manifest v) = true ∨ stable_identity v = false) as [-> | ->].
  { destruct (stable_identity v) eqn:E; [left|by right].
    apply stable_identity_inv in E as (_ & E1 & E2 & E3 & E4 & _ & E5 & E6).
    unfold stable_identity. rewrite !andb_true_iff.
    split_and!;
      [vm_compute; done|exact E1|exact E2|exact E3|exact E4|vm_compute; done|exact E5|exact E6]. }
  2: done.
  destruct (stable_identity v); [|done].
  destruct (hasExactKeys (prop v "artifact") ["sha256"]).
  - intros H. assert (hasExactKeys (prop (stable_manifest v) "artifact") ["sha256"] = true) as -> by (vm_compute; done).
    exact H.
  - by destruct (test _ _ _ _) as [|[]].
Qed.

Lemma stable_core_text w : isStableCoreVersion w = true → ∃ t, w = JString t.
Proof. destruct w; try done. eauto. Qed.

Lemma trusted_inv v : trusted number_text date_text v = inr true →
  stable_identity v = true ∧ prop (prop v "source") "treeSha" ≠ JUndefined ∧
  hasExactKeys (prop v "artifact") ["sha256"] = true ∧ prop (prop v "artifact") "sha256" ≠ JUndefined.
Proof.
  unfold trusted. destruct (stable_identity v); [|done].
  destruct (test _ _ HEX_40 _) as [|[]] eqn:H; [done| |done].
  destruct (hasExactKeys (prop v "artifact") _); [|done]. intros H'. split_and!; [done| |done|].
  - intros E. by rewrite E in H.
  - intros E. by rewrite E in H'.
Qed.

Ltac present := intros k Hk; repeat (apply elem_of_cons in Hk as [->|Hk]); [..|by apply not_elem_of_nil in Hk].

(** The shape of an accepted manifest: exactly the expected properties. *)
Lemma accepted_keys v : accepted v →
  (∃ o, v = JObject o ∧ map fst o ≡ₚ ["schemaVersion"; "skillId"; "channel"; "version"; "publishedAt";
     "source"; "artifact"; "summary"; "releaseNotes"; "severity"]) ∧
  (∃ o, prop v "source" = JObject o ∧ map fst o ≡ₚ ["repository"; "ref"; "treeSha"]) ∧
  ∃ o, prop v "artifact" = JObject o ∧ map fst o ≡ₚ ["sha256"].
Proof.
  intros [(Hi & Ht & Ha & Hsha)%trusted_inv Hp Hs (_ & Hc & Hn)%notes_same Hv].
  apply stable_identity_inv in Hi as (E & E1 & E2 & E3 & _ & Es & E5 & E6).
  split_and!; apply hasExactKeys_object; try done; try (apply (bool_decide_unpack _); vm_compute; done); present; intros H; rewrite H in *; try done; congruence.
Qed.

(** A manifest that is accepted has exactly the properties of the schema, at
    every level; it is of the trusted repository, its tag and its release notes
    are those of its version, which has neither pre-release nor build metadata;
    its severity is one of the two, its time is the canonical text of the instant
    it denotes.  What is returned is accepted again, unchanged. *)
Theorem validateStableUpdateManifest_trusted (v r : jsval) :
  validateStableUpdateManifest v = inr r →
  (∃ o so ao, v = JObject o ∧ js_get o "source" = JObject so ∧ js_get o "artifact" = JObject ao ∧
     map fst o ≡ₚ ["schemaVersion"; "skillId"; "channel"; "version"; "publishedAt"; "source";
                   "artifact"; "summary"; "releaseNotes"; "severity"] ∧
     map fst so ≡ₚ ["repository"; "ref"; "treeSha"] ∧ map fst ao ≡ₚ ["sha256"]) ∧
  (∃ version w, prop v "version" = JString version ∧ parseSemver (JString version) = inr w ∧
     prerelease w = None ∧ build w = None ∧
     prop (prop v "source") "repository" = JString EXPECTED_REPOSITORY ∧
     prop (prop v "source") "ref" = JString ("v" +:+ version) ∧
     prop v "releaseNotes" = JString (RELEASES +:+ version)) ∧
  (∃ text t, prop v "publishedAt" = JString text ∧ date_parse text = Some t ∧
     replace_first ".000Z" "Z" (toISOString t) = text) ∧
  (prop v "severity" = JString "normal" ∨ prop v "severity" = JString "security") ∧
  r = stable_manifest v ∧ validateStableUpdateManifest r = inr r.
Proof.
  intros [Ha ->]%validate_accepted. pose proof (accepted_keys v Ha) as ((o & -> & Ho) & (so & Hso & Hs) & (ao & Hao & Hk)).
  pose proof (accepted_again _ Ha) as Ha'. destruct Ha as [(Hi & _)%trusted_inv Hp _ (_ & Hc & Hn)%notes_same Hv].
  apply stable_identity_inv in Hi as (_ & _ & _ & _ & _ & _ & E5%is_text_eq & E6%is_text_eq).
  split_and!; [naive_solver|..|done|by apply validate_accepted].
  - destruct (stable_core_text _ Hc) as [version Hver]. rewrite Hver in *. apply is_text_eq in Hn.
    unfold isStableCoreVersion in Hc. destruct (parseSemver (JString version)) as [|w] eqn:Hw; [done|].
    apply andb_true_iff in Hc as [Hc1%bool_decide_eq_true Hc2%bool_decide_eq_true]. exists version, w.
    split_and!; (assumption || reflexivity).
  - unfold validateCanonicalUtcTimestamp in Hp. destruct (prop _ "publishedAt") as [| | | |text| | |] eqn:Ht; try done.
    destruct (UTC_SECONDS text); [|done]. cbn [negb] in Hp.
    destruct (date_parse text) as [t|] eqn:Hd; [|done].
    case_bool_decide; [by exists text, t|done].
  - apply orb_true_iff in Hv as [Hv%is_text_eq|Hv%is_text_eq]; auto.
Qed.
End Accepted.

(** A manifest as the repository's tests build it, with its version and hashes as
    parameters, and the parser of its only date. *)
Definition sample_release (version sha256 : string) (treeSha : jsval) : jsval := JObject
  [("schemaVersion", JNumber (nof 1)); ("skillId", JString SKILL_ID); ("channel", JString "stable");
   ("version", JString version); ("publishedAt", JString "2026-08-28T07:00:00Z");
   ("source", JObject [("repository", JString EXPECTED_REPOSITORY); ("ref", JString ("v" +:+ version)); ("treeSha", treeSha)]);
   ("artifact", JObject [("sha256", JString sha256)]);
   ("summary", JString "Contract fixture.");
   ("releaseNotes", JString (RELEASES +:+ version));
   ("severity", JString "normal")].
Definition sample_manifest (treeSha : jsval) : jsval :=
  sample_release "2.16.0" (String.concat "" (repeat "b" 64)) treeSha.
Definition sample_date (s : string) : option Z :=
  if bool_decide (s = "2026-08-28T07:00:00Z") then Some 1787900400000 else None.
Definition sha40 : jsval := JString (String.concat "" (repeat "a" 40)).

Definition accept_sample (treeSha : jsval) : update_error + jsval :=
  validateStableUpdateManifest sample_date (λ _, "") (λ _, "") (sample_manifest treeSha).

Example sample_accepted : accept_sample sha40 = inr (sample_manifest sha40).
Proof. vm_compute. reflexivity. Qed.

(** The hashes are tested as texts and never required to be strings: an array
    of one hash is accepted and returned as it is. *)
Lemma array_hash_accepted : accept_sample (JArray [sha40]) = inr (sample_manifest (JArray [sha40])).
Proof. vm_compute. reflexivity. Qed.

Lemma validateStableUpdateManifest_trusted_witness :
  prop (sample_manifest sha40) "releaseNotes" = JString (RELEASES +:+ "2.16.0") ∧
  ∃ text t, prop (sample_manifest sha40) "publishedAt" = JString text ∧ sample_date text = Some t ∧
    replace_first ".000Z" "Z" (toISOString t) = text.
Proof.
  assert (H : accept_sample sha40 = inr (sample_manifest sha40)) by (vm_compute; reflexivity).
  pose proof (validateStableUpdateManifest_trusted _ _ _ _ _ H) as (_ & _ & Ht & _).
  split; [vm_compute; reflexivity|exact Ht].
Defined.
