(* ===== verification/RepositoryLocation.v ===== *)
(** * Repository locations
      ([src/.agents/skills/archify/renderers/shared/repository-location.mjs])

    The identity of a remote, the redaction of its credentials and the link to a
    source line.  [new URL], [decodeURIComponent] and [encodeURIComponent] are
    parameters. *)

From stdpp Require Import pretty.
From S2P Require Import Prelude JsValue.
#[local] Open Scope Z_scope.

(** ** Texts *)
Definition DQUOTE : Ascii.ascii := Ascii.ascii_of_N 34.
Definition BACKSLASH : Ascii.ascii := Ascii.ascii_of_N 92.
Definition SLASH : Ascii.ascii := Ascii.ascii_of_N 47.
Definition COLON : Ascii.ascii := Ascii.ascii_of_N 58.
Definition one (c : Ascii.ascii) : string := String c "".

(** A character of a JSON string literal. *)
Definition json_hex_digit (n : Z) : string := one (Ascii.ascii_of_N (Z.to_N (if n <? 10 then 48 + n else 87 + n))).
Definition json_char (c : Ascii.ascii) : string :=
  let n := code_unit c in
  if bool_decide (c = DQUOTE ∨ c = BACKSLASH) then String BACKSLASH (one c)
  else if n =? 8 then String BACKSLASH "b" else if n =? 9 then String BACKSLASH "t"
  else if n =? 10 then String BACKSLASH "n" else if n =? 12 then String BACKSLASH "f"
  else if n =? 13 then String BACKSLASH "r"
  else if n <? 32 then String BACKSLASH ("u00" +:+ json_hex_digit (n / 16) +:+ json_hex_digit (n mod 16))
  else one c.

(** [JSON.stringify] of a string. *)
Fixpoint json_chars (s : string) : string :=
  match s with
  | "" => ""
  | String c rest => json_char c +:+ json_chars rest
  end.
Definition json_string (s : string) : string := one DQUOTE +:+ json_chars s +:+ one DQUOTE.

Definition starts_with (p s : string) : bool := String.prefix p s.
Definition drop_prefix (p s : string) : string :=
  String.substring (String.length p) (String.length s - String.length p) s.
Definition drop_end (n : nat) (s : string) : string := String.substring 0 (String.length s - n) s.
Definition ends_with (e s : string) : bool :=
  bool_decide (String.substring (String.length s - String.length e) (String.length e) s = e).

(** [[\\\s\u0000-\u001f\u007f?#]] *)
Definition unsafe_char (c : Ascii.ascii) : bool :=
  let n := code_unit c in
  white c || bool_decide (c = BACKSLASH) || (n <=? 31) || (n =? 127) || (n =? 63) || (n =? 35).
Definition has_char (p : Ascii.ascii → bool) (s : string) : bool := negb (string_forall (λ c, negb (p c)) s).

(** The parts of a URL the source reads. *)
Record url := { protocol : string; username : string; password : string; hostname : string; host : string; url_port : string }.

Inductive provider := Github | Gitee.
#[export] Instance provider_eq_dec : EqDecision provider.
Proof. solve_decision. Defined.

Record location := {
  identity : string; loc_url : string; loc_provider : option provider; loc_protocol : string;
  loc_path : string; endpoint_kind : string
}.

Section Location.
Context (new_URL : string → option url) (decodeURIComponent : string → option string)
        (encodeURIComponent : string → string).

(** [/^git@([^/:]+):(.+)$/] *)
Definition scp_match (raw : string) : option (string * string) :=
  if starts_with "git@" raw then
    match cut COLON (drop_prefix "git@" raw) with
    | (host, Some path) =>
        if bool_decide (host = "" ∨ path = "") || has_char (λ c, bool_decide (c = SLASH)) host then None
        else Some (host, path)
    | (_, None) => None
    end
  else None.

(** [/^(https?|ssh):\/\/([^/]+)\/(.+)$/i]: the path after the authority. *)
Definition uri_path (expanded : string) : option string :=
  match cut COLON expanded with
  | (scheme, Some rest) =>
      if bool_decide (string_map lower scheme ∈ ["http"; "https"; "ssh"]) && starts_with "//" rest then
        match cut SLASH (drop_prefix "//" rest) with
        | (authority, Some path) => if bool_decide (authority = "" ∨ path = "") then None else Some path
        | (_, None) => None
        end
      else None
  | (_, None) => None
  end.

Definition bad_segment (part : string) : bool :=
  bool_decide (part = "" ∨ part = "." ∨ part = "..") ||
  has_char (λ c, bool_decide (c = SLASH) || unsafe_char c) part.

(** [segments.map(decodeURIComponent)], which throws on a malformed escape. *)
Fixpoint decode_all (parts : list string) : option (list string) :=
  match parts with
  | [] => Some []
  | p :: parts => d ← decodeURIComponent p; ds ← decode_all parts; Some (d :: ds)
  end.

Definition raw_segments (path : string) : list string :=
  split_on SLASH (if ends_with "/" path then drop_end 1 path else path).

(** [segments[last] = f(segments[last])] *)
Fixpoint alter_last (f : string → string) (l : list string) : list string :=
  match l with
  | [] => []
  | [x] => [f x]
  | x :: l => x :: alter_last f l
  end.

Definition strip_git (p : provider) (s : string) : string :=
  let t := match p with Github => string_map lower s | Gitee => s end in
  if ends_with ".git" t then drop_end 4 s else s.

(** The address after the shape of its path has been checked. *)
Definition locate (authored : bool) (scp : option (string * string)) (expanded : string) (segments : list string) :
  option location :=
  match new_URL expanded with
  | None => None
  | Some u =>
      let ssh := bool_decide (protocol u = "ssh:") in
      if ssh && negb (bool_decide (username u = "git" ∧ password u = "")) then None
      else if authored && negb ssh && negb (bool_decide (username u = "" ∧ password u = "")) then None
      else
        let hostname := string_map lower (hostname u) in
        if bool_decide (hostname = "") then None
        else
          let provider := if bool_decide (hostname = "github.com") then Some Github
                          else if bool_decide (hostname = "gitee.com") then Some Gitee else None in
          let segments := match provider with
                          | Some p => alter_last (strip_git p) segments
                          | None => segments
                          end in
          if bool_decide (default "" (last segments) ∈ [""; "."; ".."]) then None
          else
            let repositoryPath := String.concat "/" segments in
            let scpAbsolute := match scp with Some (_, path) => starts_with "/" path | None => false end in
            let port := if negb (bool_decide (url_port u = "")) then url_port u
                        else if ssh then "22"
                        else if bool_decide (protocol u = "https:") then "443" else "80" in
            let endpoint :=
              if bool_decide (is_Some provider) &&
                 (bool_decide (protocol u = "https:" ∧ port = "443") || (ssh && bool_decide (port = "22")))
              then "standard" else protocol u +:+ port in
            let pathKind := if bool_decide (is_Some provider) then "repository"
                            else if bool_decide (is_Some scp) && negb scpAbsolute then "relative" else "absolute" in
            let identityPath := if bool_decide (provider = Some Github)
                                then string_map lower repositoryPath else repositoryPath in
            let encodedPath := String.concat "/" (map encodeURIComponent segments) in
            let canonicalUrl :=
              match scp with
              | Some _ => "git@" +:+ hostname +:+ ":" +:+ (if scpAbsolute then "/" else "") +:+ repositoryPath
              | None => protocol u +:+ "//" +:+ (if ssh then "git@" else "") +:+ host u +:+ "/" +:+ encodedPath
              end in
            Some {|
              identity := "[" +:+ String.concat "," (map json_string [hostname; endpoint; pathKind; identityPath]) +:+ "]";
              loc_url := canonicalUrl; loc_provider := provider; loc_protocol := protocol u;
              loc_path := repositoryPath; endpoint_kind := endpoint |}
  end.

Definition parseRepositoryRemote (value : jsval) (authored : bool) : option location :=
  match value with
  | JString text =>
      let raw := if authored then text else trim text in
      if bool_decide (raw = "") || has_char unsafe_char raw then None
      else
        let scp := scp_match raw in
        let expanded :=
          match scp with
          | Some (host, path) =>
              "ssh://git@" +:+ host +:+ "/" +:+ (if starts_with "/" path then drop_prefix "/" path else path)
          | None => raw
          end in
        match uri_path expanded with
        | None => None
        | Some path =>
            let segments := raw_segments path in
            match (if bool_decide (is_Some scp) then Some segments else decode_all segments) with
            | None => None
            | Some segments => if existsb bad_segment segments then None else locate authored scp expanded segments
            end
        end
  | _ => None
  end.

(** [s.replace(/^((?:https?|ssh):\/\/)[^/]*@/i, '$1REDACTED@')]: up to the last at sign
    of the authority. *)
Fixpoint after_last_at (s : string) : option string :=
  match s with
  | "" => None
  | String c rest =>
      if bool_decide (c = SLASH) then None
      else match after_last_at rest with
           | Some t => Some t
           | None => if bool_decide (one c = "@") then Some rest else None
           end
  end.

Definition redact_authority (s : string) : string :=
  match cut COLON s with
  | (scheme, Some rest) =>
      if bool_decide (string_map lower scheme ∈ ["http"; "https"; "ssh"]) && starts_with "//" rest then
        match after_last_at (drop_prefix "//" rest) with
        | Some t => scheme +:+ "://REDACTED@" +:+ t
        | None => s
        end
      else s
  | (_, None) => s
  end.

(** [s.replace(/[?#].*$/s, '?REDACTED')] *)
Fixpoint redact_query (s : string) : string :=
  match s with
  | "" => ""
  | String c rest => if bool_decide (one c = "?" ∨ one c = "#") then "?REDACTED" else String c (redact_query rest)
  end.

Definition redactRepositoryRemote (value : string) : string := redact_query (redact_authority value).

(** A place in a file: line zero is no line. *)
Record source_ref := { src_path : string; src_line : option Z; src_endLine : option Z }.

Definition nonzero (o : option Z) : option Z :=
  match o with Some z => if z =? 0 then None else Some z | None => None end.

Definition repositorySourceHref (p : option provider) (url revision : string) (source : source_ref) : string :=
  let encodedPath := String.concat "/" (map encodeURIComponent (split_on SLASH (src_path source))) in
  let end_ := match nonzero (src_endLine source) with
              | Some e => if bool_decide (src_line source = Some e) then ""
                          else "-" +:+ (if bool_decide (p = Some Github) then "L" else "") +:+ pretty e
              | None => ""
              end in
  let fragment := match nonzero (src_line source) with
                  | Some l => "#L" +:+ pretty l +:+ end_
                  | None => ""
                  end in
  url +:+ "/blob/" +:+ revision +:+ "/" +:+ encodedPath +:+ fragment.
End Location.

(** ** Redaction *)
Lemma string_app_cons c s t : String c s +:+ t = String c (s +:+ t).
Proof. done. Qed.

Lemma starts_with_app p s : starts_with p (p +:+ s) = true.
Proof.
  unfold starts_with. induction p as [|c p IH]; [by destruct s|]. rewrite string_app_cons. cbn.
  destruct (Ascii.ascii_dec c c); [exact IH|done].
Qed.

Lemma drop_prefix_app p s : drop_prefix p (p +:+ s) = s.
Proof.
  unfold drop_prefix. rewrite string_length_app, Nat.add_comm, Nat.add_sub.
  induction p as [|c p IH]; [|exact IH]. change (String.substring 0 (String.length s) s = s).
  induction s as [|c s IH]; [done|]. cbn. by rewrite IH.
Qed.

Lemma cut_app d s t : has_char (λ c, bool_decide (c = d)) s = false → cut d (s +:+ String d t) = (s, Some t).
Proof.
  unfold has_char. rewrite negb_false_iff. induction s as [|c s IH]; intros H.
  - change (cut d (String d t) = ("", Some t)). cbn [cut]. by rewrite bool_decide_true.
  - rewrite string_forall_cons in H. apply andb_true_iff in H as [Hc%negb_true_iff Hs]. rewrite string_app_cons. cbn [cut].
    by rewrite Hc, IH.
Qed.

Lemma scheme_no_colon scheme : string_map lower scheme ∈ ["http"; "https"; "ssh"] →
  has_char (λ c, bool_decide (c = COLON)) scheme = false.
Proof.
  intros H. assert (has_char (λ c, bool_decide (c = COLON)) (string_map lower scheme) = false) as Hc.
  { repeat (apply elem_of_cons in H as [->|H]; [by vm_compute|]). by apply not_elem_of_nil in H. }
  clear H. unfold has_char in *. rewrite negb_false_iff in *. induction scheme as [|c s IH]; [done|].
  cbn [string_map] in Hc. rewrite string_forall_cons in *. apply andb_true_iff in Hc as [Hc Hs].
  rewrite (IH Hs), andb_true_r.
  apply negb_true_iff, bool_decide_eq_false. intros ->. by vm_compute in Hc.
Qed.

(** Nothing before the last at sign of the authority survives. *)
Lemma after_last_at_credentials credentials rest :
  has_char (λ c, bool_decide (c = SLASH)) credentials = false →
  ∃ t, ∀ c, c = credentials ∨ c = "" → after_last_at (c +:+ "@" +:+ rest) = Some t.
Proof.
  unfold has_char. rewrite negb_false_iff. intros H.
  exists (default rest (after_last_at rest)).
  assert (after_last_at ("@" +:+ rest) = Some (default rest (after_last_at rest))) as H0.
  { change ("@" +:+ rest) with (String (Ascii.ascii_of_N 64) rest). cbn. by destruct (after_last_at rest). }
  intros c [->| ->]; [|exact H0]. induction credentials as [|c s IH]; [done|].
  rewrite string_forall_cons in H. apply andb_true_iff in H as [Hc%negb_true_iff Hs].
  rewrite string_app_cons. cbn [after_last_at].
  by rewrite Hc, IH.
Qed.

Lemma redact_authority_at scheme rest t : string_map lower scheme ∈ ["http"; "https"; "ssh"] →
  after_last_at rest = Some t →
  redact_authority (scheme +:+ "://" +:+ rest) = scheme +:+ "://REDACTED@" +:+ t.
Proof.
  intros Hs Ht. unfold redact_authority.
  change (scheme +:+ "://" +:+ rest) with (scheme +:+ String COLON ("//" +:+ rest)).
  rewrite cut_app by by apply scheme_no_colon. rewrite bool_decide_true by done.
  by rewrite starts_with_app, drop_prefix_app, Ht.
Qed.

(** The credentials of a remote cannot be told from what is printed of it:
    whatever text without a slash comes before an at sign, the redacted remote
    is the one of the remote without it. *)
Theorem redactRepositoryRemote_credentials (scheme credentials rest : string) :
  string_map lower scheme ∈ ["http"; "https"; "ssh"] →
  has_char (λ c, bool_decide (c = SLASH)) credentials = false →
  redactRepositoryRemote (scheme +:+ "://" +:+ credentials +:+ "@" +:+ rest) =
  redactRepositoryRemote (scheme +:+ "://" +:+ "@" +:+ rest).
Proof.
  intros Hs (t & Ht)%(after_last_at_credentials _ rest). unfold redactRepositoryRemote. f_equal.
  transitivity (scheme +:+ "://REDACTED@" +:+ t); [|symmetry]; (apply redact_authority_at; [exact Hs|]).
  - apply Ht. by left.
  - apply (Ht ""). by right.
Qed.

Lemma redactRepositoryRemote_credentials_witness :
  redactRepositoryRemote "HTTPS://bob:p@ss@example.com/r?token=1" = "HTTPS://REDACTED@example.com/r?REDACTED" ∧
  redactRepositoryRemote ("HTTPS" +:+ "://" +:+ "bob:p@ss" +:+ "@" +:+ "example.com/r?token=1") =
  redactRepositoryRemote ("HTTPS" +:+ "://" +:+ "@" +:+ "example.com/r?token=1").
Proof.
  split; [vm_compute; reflexivity|]. apply redactRepositoryRemote_credentials; [|vm_compute; reflexivity].
  apply (bool_decide_unpack _). vm_compute. exact I.
Defined.

(** A password that contains a slash is printed. *)
Example slash_password_printed :
  redactRepositoryRemote "https://bob:pa/ss@example.com/r" = "https://bob:pa/ss@example.com/r".
Proof. vm_compute. reflexivity. Qed.
