(* ===== verification/UpdateCheck.v ===== *)
(** * Update checks ([src/.agents/skills/archify/scripts/check-update.mjs])

    The cached state of the update check, the decisions that change it and the
    results it shows.  An operation here reads the state and replaces it at once;
    that processes which share the cache do no more than that is shown in
    [CacheResults].  Times are milliseconds within the range of [Date]. *)

From stdpp Require Import pretty.
From S2P Require Import Prelude Num JsValue Json Semver Updates RepositoryLocation.
#[local] Open Scope Z_scope.

Definition CHECK_TTL_MS : Z := 72 * 60 * 60 * 1000.
Definition MAX_CACHE_HORIZON_MS : Z := nceil (nmul (nof CHECK_TTL_MS) (nlit 12 10) : binary64).
Definition FIRST_FAILURE_DELAY_MS : Z := 6 * 60 * 60 * 1000.
Definition LATER_FAILURE_DELAY_MS : Z := 24 * 60 * 60 * 1000.
Definition MAX_CACHE_STATE_BYTES : Z := 64 * 1024.
Definition LONGEST_ISO_TIMESTAMP : string := "+275760-09-13T00:00:00.000Z".

Example horizon_ex : MAX_CACHE_HORIZON_MS = 311040000.
Proof. vm_compute. reflexivity. Qed.

(** [/^sha256:[a-f0-9]{64}$/] *)
Definition DIGEST_PATTERN (s : string) : bool := starts_with "sha256:" s && HEX_64 (drop_prefix "sha256:" s).

Record update_candidate := {
  uc_version : string; uc_targetDigest : jsval; uc_severity : string; uc_releaseNotes : string
}.

Record update_state := {
  us_installedVersion : option string; us_nextCheckAt : option string; us_consecutiveFailures : Z;
  us_offeredDigests : list string; us_acknowledgedDigests : list string; us_candidate : option update_candidate
}.

Inductive update_result :=
  | Silent (reason : string)
  | UpdateAvailable (eventKey installedVersion latestVersion targetDigest severity summary releaseNotes : string)
  | Acknowledged (eventKey : string).

(** What a callback of [commitOperation] decides. *)
Record decision := {
  d_state : option update_state; d_result : update_result;
  d_fallback : option (update_state * update_result)
}.

Section Check.
Context (date_parse : string → option Z) (number_text : binary64 → string) (date_text : option Z → string).
Notation js_text := (js_text number_text date_text).

(** ** Candidates *)
Definition text_of (v : jsval) : string := default "" (js_text v).

Definition validateManifest (value : jsval) : update_error + update_candidate :=
  match validateStableUpdateManifest date_parse number_text date_text value with
  | inl e => inl e
  | inr m => inr {|
      uc_version := text_of (prop m "version");
      uc_targetDigest := JString ("sha256:" +:+ text_of (prop (prop m "artifact") "sha256"));
      uc_severity := text_of (prop m "severity"); uc_releaseNotes := text_of (prop m "releaseNotes") |}
  end.

Definition hasOnlyKeys (value : jsval) (allowed : list string) : bool :=
  forallb (λ key, bool_decide (key ∈ allowed)) (default [] (isPlainObject value)).

Definition validateCachedCandidate (value : jsval) : option update_candidate :=
  if negb (bool_decide (is_Some (isPlainObject value)) &&
           hasOnlyKeys value ["version"; "targetDigest"; "severity"; "releaseNotes"]) then None
  else if negb (isStableCoreVersion (prop value "version")) then None
  else match js_text (prop value "targetDigest") with
  | None => None
  | Some digest =>
      if negb (DIGEST_PATTERN digest &&
               (is_text "normal" (prop value "severity") || is_text "security" (prop value "severity"))) then None
      else match validateReleaseNotesUrl (prop value "releaseNotes") (prop value "version") with
      | inl _ => None
      | inr _ => Some {|
          uc_version := text_of (prop value "version"); uc_targetDigest := prop value "targetDigest";
          uc_severity := text_of (prop value "severity"); uc_releaseNotes := text_of (prop value "releaseNotes") |}
      end
  end.

(** ** States *)
Definition emptyState (installedVersion : option string) : update_state := {|
  us_installedVersion := installedVersion; us_nextCheckAt := None; us_consecutiveFailures := 0;
  us_offeredDigests := []; us_acknowledgedDigests := []; us_candidate := None |}.

Definition text_or_null (o : option string) : jsval := match o with Some s => JString s | None => JNull end.

Definition candidate_json (c : update_candidate) : jsval := JObject
  [("version", JString (uc_version c)); ("targetDigest", uc_targetDigest c);
   ("severity", JString (uc_severity c)); ("releaseNotes", JString (uc_releaseNotes c))].

(** The object of a state, with its properties in the order they are created. *)
Definition state_json (s : update_state) : jsval := JObject (
  [("schemaVersion", JNumber (nof 1)); ("skillId", JString SKILL_ID);
   ("installedVersion", text_or_null (us_installedVersion s));
   ("check", JObject [("nextCheckAt", text_or_null (us_nextCheckAt s));
                      ("consecutiveFailures", JNumber (nof (us_consecutiveFailures s)))]);
   ("notification", JObject [("offeredDigests", JArray (map JString (us_offeredDigests s)));
                             ("acknowledgedDigests", JArray (map JString (us_acknowledgedDigests s)))])] ++
  match us_candidate s with Some c => [("candidate", candidate_json c)] | None => [] end).

(** [JSON.stringify]: nothing for undefined. *)
Fixpoint json_text (v : jsval) : option string :=
  match v with
  | JUndefined => None
  | JNull | JDate None => Some "null"
  | JBool b => Some (if b then "true" else "false")
  | JNumber x => Some (if nfin x then number_text x else "null")
  | JString s => Some (json_string s)
  | JDate (Some t) => Some (json_string (toISOString t))
  | JArray l => Some ("[" +:+ String.concat "," (map (λ v, default "null" (json_text v)) l) +:+ "]")
  | JObject o => Some ("{" +:+ String.concat ","
      (foldr (λ kv acc, match json_text kv.2 with
                        | Some t => (json_string kv.1 +:+ ":" +:+ t) :: acc
                        | None => acc
                        end) [] o) +:+ "}")
  end.

(** The bytes of a text in UTF-8, for code units of Latin-1. *)
Fixpoint byte_length (s : string) : Z :=
  match s with
  | "" => 0
  | String c rest => (if code_unit c <? 128 then 1 else 2) + byte_length rest
  end.

(** Whether the state and its new line fit in the file. *)
Definition encodeBoundedState (s : update_state) : bool :=
  byte_length (default "undefined" (json_text (state_json s))) + 1 <=? MAX_CACHE_STATE_BYTES.

Definition stateAfterAcknowledgement (s : update_state) (targetDigest : string) : update_state := {|
  us_installedVersion := us_installedVersion s; us_nextCheckAt := us_nextCheckAt s;
  us_consecutiveFailures := us_consecutiveFailures s;
  us_offeredDigests := filter (λ digest, digest ≠ targetDigest) (us_offeredDigests s);
  us_acknowledgedDigests := if bool_decide (targetDigest ∈ us_acknowledgedDigests s)
                            then us_acknowledgedDigests s else us_acknowledgedDigests s ++ [targetDigest];
  us_candidate := us_candidate s |}.

Definition stateWithFailureCheck (s : update_state) (nextCheckAt : string) (consecutiveFailures : Z)
    (withdrawCandidate : bool) : update_state := {|
  us_installedVersion := us_installedVersion s; us_nextCheckAt := Some nextCheckAt;
  us_consecutiveFailures := consecutiveFailures;
  us_offeredDigests := us_offeredDigests s; us_acknowledgedDigests := us_acknowledgedDigests s;
  us_candidate := if withdrawCandidate then None else us_candidate s |}.

Definition bounded_after_failure (s : update_state) : bool :=
  encodeBoundedState (stateWithFailureCheck s LONGEST_ISO_TIMESTAMP 2 false).

(** The loop over the offered digests, each acknowledged after the others. *)
Fixpoint bounded_after_acknowledgements (s : update_state) (digests : list string) : bool :=
  match digests with
  | [] => true
  | targetDigest :: digests =>
      let s := stateAfterAcknowledgement s targetDigest in
      encodeBoundedState s && bounded_after_failure s && bounded_after_acknowledgements s digests
  end.

(** Whether [encodeRecoverableState] gives a text. *)
Definition encodeRecoverableState (s : update_state) : bool :=
  encodeBoundedState s && bounded_after_failure s && bounded_after_acknowledgements s (us_offeredDigests s).

(** [[...new Set(l)]] *)
Definition unique (l : list string) : list string :=
  foldl (λ acc x, if bool_decide (x ∈ acc) then acc else acc ++ [x]) [] l.

(** An array of digests. *)
Definition digests_of (v : jsval) : option (list string) :=
  match v with
  | JArray l =>
      foldr (λ v acc, match v with
                      | JString s => if DIGEST_PATTERN s then cons s <$> acc else None
                      | _ => None
                      end) (Some []) l
  | _ => None
  end.

Definition safe_count (v : jsval) : option Z :=
  match v with
  | JNumber x =>
      match b64_integer x with
      | Some n => if (0 <=? n) && (n <=? MAX_SAFE_INTEGER) then Some n else None
      | None => None
      end
  | _ => None
  end.

Definition null_or_text (v : jsval) : option (option string) :=
  match v with
  | JNull => Some None
  | JString s => Some (Some s)
  | _ => None
  end.

Definition includes (l : list string) (v : jsval) : bool := existsb (λ d, is_text d v) l.

(** A comparison above zero.  Both versions have been validated. *)
Definition newer (version installed : string) : bool :=
  match compareSemver (JString version) (JString installed) with
  | inr z => 0 <? z
  | inl _ => false
  end.

(** A cached state that is refused, here [None], is ignored by [readState]. *)
Definition normalizeState (value : jsval) (installedVersion : option string) : option update_state :=
  if negb (bool_decide (is_Some (isPlainObject value)) && is_one (prop value "schemaVersion") &&
           is_text SKILL_ID (prop value "skillId") &&
           match installedVersion with Some v => is_text v (prop value "installedVersion") | None => true end)
  then None
  else
    installed ← null_or_text (prop value "installedVersion");
    let check := prop value "check" in
    let notification := prop value "notification" in
    if negb (bool_decide (is_Some (isPlainObject check)) && bool_decide (is_Some (isPlainObject notification)))
    then None
    else
      nextCheckAt ← null_or_text (prop check "nextCheckAt");
      failures ← safe_count (prop check "consecutiveFailures");
      if match installed with
         | Some v => match parseSemver (JString v) with inl _ => true | inr _ => false end
         | None => false
         end then None
      else
        offered ← digests_of (prop notification "offeredDigests");
        acknowledged ← digests_of (prop notification "acknowledgedDigests");
        let s c := {| us_installedVersion := installed; us_nextCheckAt := nextCheckAt;
                      us_consecutiveFailures := failures; us_offeredDigests := unique offered;
                      us_acknowledgedDigests := unique acknowledged; us_candidate := c |} in
        let hasCandidate := bool_decide (is_Some (list_find (λ kv, kv.1 = "candidate")
                              (match value with JObject o => o | _ => [] end))) in
        match validateCachedCandidate (prop value "candidate") with
        | None => if hasCandidate then None else if encodeRecoverableState (s None) then Some (s None) else None
        | Some c =>
            if match installed with
               | Some v => newer (uc_version c) v && negb (includes (unique offered) (uc_targetDigest c)) &&
                           negb (includes (unique acknowledged) (uc_targetDigest c))
               | None => false
               end then None
            else if encodeRecoverableState (s (Some c)) then Some (s (Some c)) else None
        end.

(** ** Schedules *)

(** [Math.round] of a delay, which is far below the precision of a double. *)
Definition round_delay (x : binary64) : Z := nfloor (nadd x (nlit 1 2)).

Definition nextSuccessfulCheck (nowMs : Z) (random : binary64) : string :=
  let r := if nan random then nof 0 else random in
  let boundedRandom := nmin (nof 1) (nmax (nof 0) r) in
  let multiplier := nadd (nlit 8 10) (nmul boundedRandom (nlit 4 10)) in
  toISOString (nowMs + round_delay (nmul (nof CHECK_TTL_MS) multiplier)).

Definition failure_delay (failures : Z) : Z :=
  if failures <=? 1 then FIRST_FAILURE_DELAY_MS else LATER_FAILURE_DELAY_MS.
Definition nextFailedCheck (nowMs failures : Z) : string := toISOString (nowMs + failure_delay failures).

Definition stateAfterFailedCheck (s : update_state) (nowMs : Z) (withdrawCandidate : bool) : update_state :=
  let failures := Z.min (us_consecutiveFailures s + 1) 2 in
  stateWithFailureCheck s (nextFailedCheck nowMs failures) failures withdrawCandidate.

(** ** Results *)
Definition eventKeyForDigest (targetDigest : string) : string := SKILL_ID +:+ "@" +:+ targetDigest.

Definition digestForEventKey (eventKey : jsval) : option string :=
  match eventKey with
  | JString key =>
      let prefix := SKILL_ID +:+ "@" in
      if starts_with prefix key then
        let digest := drop_prefix prefix key in if DIGEST_PATTERN digest then Some digest else None
      else None
  | _ => None
  end.

Definition notification (version : string) (c : update_candidate) : update_result :=
  UpdateAvailable (eventKeyForDigest (text_of (uc_targetDigest c))) version (uc_version c)
    (text_of (uc_targetDigest c)) (uc_severity c)
    ("Archify " +:+ uc_version c +:+ " is available; see the official release notes for details.")
    (uc_releaseNotes c).

(** The result shown for a state; [version] is the one of the local release. *)
Definition resultForCandidate (version : string) (s : update_state) : update_result :=
  match us_candidate s with
  | None => Silent "cache-valid"
  | Some c =>
      if negb (newer (uc_version c) version) then Silent "current"
      else if includes (us_acknowledgedDigests s) (uc_targetDigest c) then Silent "already-notified"
      else notification version c
  end.

Definition freshStateResult (version : string) (s : update_state) (nowMs : Z) : option update_result :=
  match date_parse (default "" (us_nextCheckAt s)) with
  | Some nextCheckAt =>
      if (nowMs <? nextCheckAt) && (nextCheckAt <=? nowMs + MAX_CACHE_HORIZON_MS)
      then Some (resultForCandidate version s) else None
  | None => None
  end.

(** ** Decisions *)
Definition failed_check (nowMs : Z) (reason : string) (s : update_state) : decision :=
  {| d_state := Some (stateAfterFailedCheck s nowMs false); d_result := Silent reason; d_fallback := None |}.

Definition offer (s : update_state) (c : update_candidate) (result : update_result) : list string :=
  match result with
  | UpdateAvailable _ _ _ digest _ _ _ =>
      if includes (us_offeredDigests s) (uc_targetDigest c) then us_offeredDigests s
      else us_offeredDigests s ++ [digest]
  | _ => us_offeredDigests s
  end.

Definition successful_check (version : string) (fetched : update_candidate) (nowMs : Z) (random : binary64)
    (s : update_state) : decision :=
  let next offered := {|
    us_installedVersion := us_installedVersion s; us_nextCheckAt := Some (nextSuccessfulCheck nowMs random);
    us_consecutiveFailures := 0; us_offeredDigests := offered;
    us_acknowledgedDigests := us_acknowledgedDigests s; us_candidate := Some fetched |} in
  let result := resultForCandidate version (next (us_offeredDigests s)) in
  {| d_state := Some (next (offer s fetched result)); d_result := result;
     d_fallback := Some (stateAfterFailedCheck s nowMs true, Silent "cache-unavailable") |}.

Definition acknowledgement (targetDigest eventKey : string) (s : update_state) : decision :=
  if negb (bool_decide (targetDigest ∈ us_offeredDigests s)) && negb (bool_decide (targetDigest ∈ us_acknowledgedDigests s))
  then {| d_state := None; d_result := Silent "invalid-acknowledgement"; d_fallback := None |}
  else {| d_state := Some (stateAfterAcknowledgement s targetDigest); d_result := Acknowledged eventKey; d_fallback := None |}.

(** What [commitOperation] writes, if anything, and its result. *)
Definition commit (d : decision) : option update_state * update_result :=
  match d_state d with
  | None => (None, d_result d)
  | Some s =>
      if encodeRecoverableState s then (Some s, d_result d)
      else match d_fallback d with
      | Some (s', r') => if encodeRecoverableState s' then (Some s', r') else (None, Silent "cache-unavailable")
      | None => (None, Silent "cache-unavailable")
      end
  end.

(** ** Operations *)

(** How the request for the manifest ends: it fails, it gives a text that is
    refused before it is read as JSON, or it gives a value. *)
Inductive fetch_outcome := FetchFailed | FetchRefused | Fetched (body : jsval).

Inductive update_op :=
  | CheckForUpdate (nowMs : Z) (random : binary64) (fetched : fetch_outcome)
  | AcknowledgeUpdate (eventKey : string).

(** [fetchCandidate], with the reason given when it throws: the contract's own
    errors are told from the others. *)
Definition fetchCandidate (fetched : fetch_outcome) : string + update_candidate :=
  match fetched with
  | FetchFailed => inl "check-failed"
  | FetchRefused => inl "invalid-manifest"
  | Fetched body =>
      match validateManifest body with
      | inl NotPrimitive => inl "check-failed"
      | inl _ => inl "invalid-manifest"
      | inr c => inr c
      end
  end.

(** The decision of a check on the state that is current when it commits. *)
Definition check_decision (version : string) (nowMs : Z) (random : binary64) (fetched : fetch_outcome)
    (current : update_state) : decision :=
  match fetchCandidate fetched with
  | inl reason => failed_check nowMs reason current
  | inr candidate => successful_check version candidate nowMs random current
  end.

(** An operation on the state that was read, with the manifest that was fetched. *)
Definition run_op (version : string) (s : update_state) (op : update_op) : option update_state * update_result :=
  match op with
  | CheckForUpdate nowMs random fetched =>
      match freshStateResult version s nowMs with
      | Some r => (None, r)
      | None => commit (check_decision version nowMs random fetched s)
      end
  | AcknowledgeUpdate eventKey =>
      match digestForEventKey (JString eventKey) with
      | None => (None, Silent "invalid-acknowledgement")
      | Some digest => commit (acknowledgement digest eventKey s)
      end
  end.

Definition after_op (version : string) (s : update_state) (op : update_op) : update_state :=
  default s (run_op version s op).1.
Definition after_ops (version : string) (s : update_state) (ops : list update_op) : update_state :=
  foldl (after_op version) s ops.
End Check.

(** ** The size of a state *)
Lemma byte_length_app s t : byte_length (s +:+ t) = byte_length s + byte_length t.
Proof. induction s as [|c s IH]; [done|]. rewrite string_app_cons. cbn [byte_length]. lia. Qed.

(** The bytes of an array of texts, without its brackets. *)
Definition concat_size (sizes : list Z) : Z := foldr Z.add 0 sizes + Z.max 0 (Z.of_nat (length sizes) - 1).

Lemma concat_bytes l : byte_length (String.concat "," l) = concat_size (map byte_length l).
Proof.
  unfold concat_size. induction l as [|a [|b l] IH]; [done|cbn; lia|].
  change (String.concat "," (a :: b :: l)) with (a +:+ "," +:+ String.concat "," (b :: l)).
  rewrite !byte_length_app, IH. cbn [map foldr length byte_length] in *.
  change (code_unit (Ascii.Ascii false false true true false true false false) <? 128) with true. cbn iota. lia.
Qed.

(** All digests have the same size. *)
Lemma hex_json c : hex_char c = true → json_char c = one c ∧ code_unit c <? 128 = true.
Proof.
  intros H. assert (48 <= code_unit c <= 57 ∨ 97 <= code_unit c <= 102) as Hc
    by (unfold hex_char, ascii_digit in H; lia).
  unfold json_char. rewrite bool_decide_false.
  - repeat (match goal with |- context [?a =? ?b] => destruct (Z.eqb_spec a b); [lia|] end).
    destruct (Z.ltb_spec (code_unit c) 32); [lia|]. split; [done|]. lia.
  - intros [-> | ->]; cbn in Hc; vm_compute in Hc; destruct Hc as [[]|[]]; congruence.
Qed.

Lemma string_app_assoc (s t u : string) : (s +:+ t) +:+ u = s +:+ t +:+ u.
Proof. induction s as [|c s IH]; [done|]. rewrite !string_app_cons. by rewrite IH. Qed.

Lemma json_chars_app s t : json_chars (s +:+ t) = json_chars s +:+ json_chars t.
Proof.
  induction s as [|c s IH]; [done|]. rewrite string_app_cons. cbn [json_chars]. rewrite IH.
  by rewrite string_app_assoc.
Qed.

Lemma hex_bytes s : string_forall hex_char s = true → byte_length (json_chars s) = Z.of_nat (String.length s).
Proof.
  induction s as [|c s IH]; [done|]. rewrite string_forall_cons, andb_true_iff. intros [[Hj Hc]%hex_json Hs].
  cbn [json_chars]. rewrite Hj, byte_length_app, IH by done. cbn [one byte_length String.length]. rewrite Hc. lia.
Qed.

Lemma starts_with_inv p s : starts_with p s = true → s = p +:+ drop_prefix p s.
Proof.
  intros H. assert (∃ t, s = p +:+ t) as [t ->]; [|by rewrite drop_prefix_app].
  revert s H. unfold starts_with. induction p as [|c p IH]; intros s H; [by exists s|].
  destruct s as [|d s]; [done|]. cbn in H. destruct (Ascii.ascii_dec c d) as [->|]; [|done].
  destruct (IH s H) as [t ->]. by exists t.
Qed.

Lemma digest_bytes d : DIGEST_PATTERN d = true → byte_length (json_string d) = 73.
Proof.
  unfold DIGEST_PATTERN. rewrite andb_true_iff. intros [Hs%starts_with_inv Hh]. rewrite Hs. clear Hs.
  set (h := drop_prefix _ d) in *. unfold HEX_64, hex in Hh. apply andb_true_iff in Hh as [Hl%Nat.eqb_eq Hh].
  unfold json_string. rewrite json_chars_app, !byte_length_app, (hex_bytes h), Hl by done. reflexivity.
Qed.

Section Sizes.
Context (number_text : binary64 → string).
Notation json_text := (json_text number_text).
Notation size s := (byte_length (default "undefined" (json_text (state_json s)))).

(** The bytes of [n] digests and their commas. *)
Definition digests_size (n : nat) : Z := 73 * Z.of_nat n + Z.max 0 (Z.of_nat n - 1).

Lemma digest_sizes l : Forall (λ d, DIGEST_PATTERN d = true) l →
  concat_size (map byte_length (map json_string l)) = digests_size (length l).
Proof.
  intros Hl. unfold concat_size, digests_size. rewrite !length_map.
  assert (foldr Z.add 0 (map byte_length (map json_string l)) = 73 * Z.of_nat (length l)) as ->; [|done].
  induction Hl as [|d l Hd Hl IH]; [done|]. cbn [map foldr length]. rewrite IH, digest_bytes by done. lia.
Qed.

Lemma json_text_digests l :
  json_text (JArray (map JString l)) = Some ("[" +:+ String.concat "," (map json_string l) +:+ "]").
Proof. cbn. by rewrite map_map. Qed.

Definition with_digests (s : update_state) (offered acknowledged : list string) : update_state := {|
  us_installedVersion := us_installedVersion s; us_nextCheckAt := us_nextCheckAt s;
  us_consecutiveFailures := us_consecutiveFailures s;
  us_offeredDigests := offered; us_acknowledgedDigests := acknowledged; us_candidate := us_candidate s |}.

(** The entries of an object that are serialised. *)
Definition entries (o : list (string * jsval)) : list string :=
  foldr (λ kv acc, match json_text kv.2 with
                   | Some t => (json_string kv.1 +:+ ":" +:+ t) :: acc
                   | None => acc
                   end) [] o.

Lemma json_text_object o : json_text (JObject o) = Some ("{" +:+ String.concat "," (entries o) +:+ "}").
Proof. done. Qed.

Lemma entries_app o o' : entries (o ++ o') = entries o ++ entries o'.
Proof. unfold entries. induction o as [|kv o IH]; [done|]. cbn. rewrite IH. by destruct (json_text kv.2). Qed.

Lemma concat_size_middle l x r : concat_size (l ++ [x] ++ r) = x + concat_size (l ++ [0] ++ r).
Proof.
  unfold concat_size. rewrite !length_app. cbn [length app].
  assert (foldr Z.add 0 (l ++ x :: r) = x + foldr Z.add 0 (l ++ 0 :: r)) as ->; [|lia].
  induction l as [|y l IH]; cbn; [lia|]. rewrite IH. lia.
Qed.

(** The size of a state is that of its digests, and a part they do not change. *)
Lemma state_size s : ∃ rest, ∀ o a, Forall (λ d, DIGEST_PATTERN d = true) o → Forall (λ d, DIGEST_PATTERN d = true) a →
  size (with_digests s o a) = rest + digests_size (length o) + digests_size (length a).
Proof.
  set (before := [("schemaVersion", JNumber (nof 1)); ("skillId", JString SKILL_ID);
     ("installedVersion", text_or_null (us_installedVersion s));
     ("check", JObject [("nextCheckAt", text_or_null (us_nextCheckAt s));
                        ("consecutiveFailures", JNumber (nof (us_consecutiveFailures s)))])]).
  set (after := match us_candidate s with Some c => [("candidate", candidate_json c)] | None => [] end).
  set (label k := byte_length (json_string k) + 1).
  exists (2 + (label "notification" + 3 + label "offeredDigests" + 2 + label "acknowledgedDigests" + 2) +
          concat_size (map byte_length (entries before) ++ [0] ++ map byte_length (entries after))).
  intros o a Ho Ha.
  set (n := JObject [("offeredDigests", JArray (map JString o)); ("acknowledgedDigests", JArray (map JString a))]).
  change (state_json (with_digests s o a)) with (JObject (before ++ [("notification", n)] ++ after)).
  rewrite json_text_object, !entries_app. cbn [from_option]. unfold id.
  assert (∃ t, json_text n = Some t ∧ byte_length t =
    3 + label "offeredDigests" + 2 + label "acknowledgedDigests" + 2 + digests_size (length o) + digests_size (length a))
    as (t & Ht & Hsize).
  { eexists. split; [apply json_text_object|]. rewrite !byte_length_app, concat_bytes.
    assert (entries [("offeredDigests", JArray (map JString o)); ("acknowledgedDigests", JArray (map JString a))] =
      [json_string "offeredDigests" +:+ ":" +:+ "[" +:+ String.concat "," (map json_string o) +:+ "]";
       json_string "acknowledgedDigests" +:+ ":" +:+ "[" +:+ String.concat "," (map json_string a) +:+ "]"]) as ->.
    { unfold entries. cbn [foldr fst snd]. by rewrite !json_text_digests. }
    cbn [map]. rewrite !byte_length_app, !concat_bytes, !digest_sizes by done. unfold label, concat_size.
    change (byte_length ":") with 1. change (byte_length "[") with 1. change (byte_length "]") with 1.
    change (byte_length "{") with 1. change (byte_length "}") with 1. cbn [foldr length]. lia. }
  assert (entries [("notification", n)] = [json_string "notification" +:+ ":" +:+ t]) as ->.
  { unfold entries. cbn [foldr fst snd]. by rewrite Ht. }
  rewrite !byte_length_app, concat_bytes, !map_app. cbn [map].
  rewrite concat_size_middle, !byte_length_app, Hsize. unfold label.
  change (byte_length ":") with 1. change (byte_length "{") with 1. change (byte_length "}") with 1. lia.
Qed.

(** ** Which states can be acknowledged *)

(** The digests of a state: well formed, and none both offered and acknowledged. *)
Record digests_ok (offered acknowledged : list string) : Prop := {
  ok_offered : Forall (λ d, DIGEST_PATTERN d = true) offered;
  ok_acknowledged : Forall (λ d, DIGEST_PATTERN d = true) acknowledged;
  ok_offered_once : NoDup offered;
  ok_acknowledged_once : NoDup acknowledged;
  ok_disjoint : ∀ d, d ∈ offered → d ∉ acknowledged
}.

Lemma filter_other (d : string) (l : list string) : d ∉ l → filter (λ x, x ≠ d) l = l.
Proof. intros Hd. apply filter_all_id. by intros x Hx ->. Qed.

Lemma filter_other_length (d : string) (l : list string) : NoDup l → d ∈ l → S (length (filter (λ x, x ≠ d) l)) = length l.
Proof.
  induction 1 as [|x l Hx Hl IH]; [by intros ?%not_elem_of_nil|]. rewrite filter_cons.
  intros [<-|Hd]%elem_of_cons.
  - rewrite decide_False by tauto. by rewrite filter_other.
  - rewrite decide_True by congruence. cbn. by rewrite IH.
Qed.

Lemma digests_ok_ack o a d : digests_ok o a → d ∈ o → digests_ok (filter (λ x, x ≠ d) o) (a ++ [d]).
Proof.
  intros [Ho Ha No Na Hdis] Hd. split.
  - apply Forall_forall. intros x [_ Hx]%list_elem_of_filter. by eapply Forall_forall in Ho.
  - apply Forall_app. split; [done|]. constructor; [|constructor]. rewrite Forall_forall in Ho. by apply Ho.
  - by apply NoDup_filter.
  - apply NoDup_app. split; [done|]. split; [|apply NoDup_singleton].
    intros x Hx ->%list_elem_of_singleton. by apply (Hdis d).
  - intros x [Hne Hx]%list_elem_of_filter [Hin|Heq%list_elem_of_singleton]%elem_of_app; [by apply (Hdis x)|done].
Qed.

Lemma ack_with_digests s o a d : d ∉ a →
  stateAfterAcknowledgement (with_digests s o a) d = with_digests s (filter (λ x, x ≠ d) o) (a ++ [d]).
Proof. intros Hd. unfold stateAfterAcknowledgement, with_digests. cbn. by rewrite bool_decide_false. Qed.

Lemma with_own_digests s : with_digests s (us_offeredDigests s) (us_acknowledgedDigests s) = s.
Proof. by destruct s. Qed.

(** Whether a state fits, with and without a failed check, depends on how many
    digests are offered and acknowledged. *)
Lemma bounded_counts s : ∃ fits : nat → nat → bool, ∀ o a, digests_ok o a →
  encodeBoundedState number_text (with_digests s o a) && bounded_after_failure number_text (with_digests s o a) =
  fits (length o) (length a).
Proof.
  destruct (state_size s) as [r Hr], (state_size (stateWithFailureCheck s LONGEST_ISO_TIMESTAMP 2 false)) as [r' Hr'].
  exists (λ n m, (r + digests_size n + digests_size m + 1 <=? MAX_CACHE_STATE_BYTES) &&
                 (r' + digests_size n + digests_size m + 1 <=? MAX_CACHE_STATE_BYTES)).
  intros o a [Ho Ha _ _ _]. unfold bounded_after_failure, encodeBoundedState.
  change (stateWithFailureCheck (with_digests s o a) LONGEST_ISO_TIMESTAMP 2 false) with
    (with_digests (stateWithFailureCheck s LONGEST_ISO_TIMESTAMP 2 false) o a).
  by rewrite Hr, Hr'.
Qed.

Lemma recoverable_counts s : ∃ fits : nat → nat → bool, ∀ o a, digests_ok o a →
  encodeRecoverableState number_text (with_digests s o a) = true ↔
  ∀ j, (j ≤ length o)%nat → fits (length o - j)%nat (length a + j)%nat = true.
Proof.
  destruct (bounded_counts s) as [fits Hfits]. exists fits. intros o a Hok. unfold encodeRecoverableState.
  rewrite andb_true_iff, Hfits by done. cbn [us_offeredDigests with_digests].
  revert a Hok. induction o as [|d o IH]; intros a Hok; cbn [bounded_after_acknowledgements].
  - cbn. split; [|intros H; split; [|done]].
    + intros [H _] j Hj. by replace j with 0%nat by lia; rewrite Nat.add_0_r.
    + by specialize (H 0%nat ltac:(lia)); rewrite Nat.add_0_r in H.
  - assert (d ∉ a) as Hd by (apply Hok; constructor). assert (d ∉ o) as Hdo by (by destruct Hok as [_ _ [? _]%NoDup_cons _ _]).
    pose proof (digests_ok_ack _ _ d Hok ltac:(constructor)) as Hok'.
    rewrite ack_with_digests by done. rewrite filter_cons, decide_False, filter_other in Hok' by tauto.
    rewrite filter_cons, decide_False, filter_other by tauto. rewrite andb_true_iff, Hfits by done.
    rewrite (IH _ Hok'). rewrite length_app. cbn [length]. split.
    + intros [H0 H] [|j] Hj; [by rewrite Nat.add_0_r|]. specialize (H j ltac:(lia)).
      by replace (length a + 1 + j)%nat with (length a + S j)%nat in H by lia.
    + intros H. split; [specialize (H 0%nat ltac:(lia)); by rewrite Nat.add_0_r in H|].
      intros j Hj. specialize (H (S j) ltac:(lia)). by replace (length a + 1 + j)%nat with (length a + S j)%nat by lia.
Qed.

(** Whatever is offered in a state that can be stored can be acknowledged, in any order. *)
Lemma recoverable_acknowledgement s d :
  digests_ok (us_offeredDigests s) (us_acknowledgedDigests s) → d ∈ us_offeredDigests s →
  encodeRecoverableState number_text s = true →
  encodeRecoverableState number_text (stateAfterAcknowledgement s d) = true.
Proof.
  intros Hok Hd. destruct (recoverable_counts s) as [fits Hfits].
  rewrite <-(with_own_digests s) at 1 2. rewrite ack_with_digests by by apply Hok.
  rewrite !Hfits by (done || by apply digests_ok_ack).
  pose proof (filter_other_length d _ (ok_offered_once _ _ Hok) Hd) as Hl. rewrite length_app. cbn [length].
  intros H j Hj. specialize (H (S j) ltac:(lia)).
  replace (length (us_offeredDigests s) - S j)%nat with (length (filter (λ x, x ≠ d) (us_offeredDigests s)) - j)%nat in H by lia.
  by replace (length (us_acknowledgedDigests s) + 1 + j)%nat with (length (us_acknowledgedDigests s) + S j)%nat by lia.
Qed.
End Sizes.

(** ** The states the operations make *)
Section Reachable.
Context (date_parse : string → option Z) (number_text : binary64 → string) (date_text : option Z → string).
Notation commit := (commit number_text).
Notation run_op := (run_op date_parse number_text date_text).
Notation after_ops := (after_ops date_parse number_text date_text).

(** A candidate that was validated. *)
Record good_candidate (c : update_candidate) : Prop := {
  gc_version : isStableCoreVersion (JString (uc_version c)) = true;
  gc_digest : ∃ d, uc_targetDigest c = JString d ∧ DIGEST_PATTERN d = true;
  gc_severity : uc_severity c = "normal" ∨ uc_severity c = "security";
  gc_releaseNotes : uc_releaseNotes c = RELEASES +:+ uc_version c
}.

(** The candidate of a state: if it is newer than what is installed, its digest
    is offered or acknowledged. *)
Definition offered_if_newer (version : string) (s : update_state) : Prop :=
  ∀ c, us_candidate s = Some c → good_candidate c ∧
    (newer (uc_version c) version = true →
     includes (us_offeredDigests s) (uc_targetDigest c) || includes (us_acknowledgedDigests s) (uc_targetDigest c) = true).

Record good (version : string) (s : update_state) : Prop := {
  gs_installed : us_installedVersion s = Some version;
  gs_failures : 0 ≤ us_consecutiveFailures s ≤ 2;
  gs_digests : digests_ok (us_offeredDigests s) (us_acknowledgedDigests s);
  gs_candidate : offered_if_newer version s
}.

Lemma emptyState_good version : good version (emptyState (Some version)).
Proof. split; [done|done| |done]. split; [constructor..|]. by intros d ?%not_elem_of_nil. Qed.

Lemma includes_text l d : includes l (JString d) = true ↔ d ∈ l.
Proof.
  unfold includes. rewrite existsb_exists. setoid_rewrite <-list_elem_of_In. split.
  - intros (x & Hx & ->%bool_decide_eq_true). done.
  - intros H. exists d. split; [done|]. cbn. by rewrite bool_decide_true.
Qed.

Lemma validateManifest_good body c : validateManifest date_parse number_text date_text body = inr c → good_candidate c.
Proof.
  unfold validateManifest. destruct (validateStableUpdateManifest _ _ _ body) as [|m] eqn:H; [done|].
  apply validate_accepted in H as [[Ht _ _ Hn Hs] ->]. intros [= <-].
  apply notes_same in Hn as (_ & Hc & Hn%is_text_eq).
  assert (∃ t, js_text number_text date_text (prop (prop body "artifact") "sha256") = Some t ∧ HEX_64 t = true)
    as (t & Htext & Hhex).
  { unfold trusted in Ht. destruct (stable_identity body); [|done].
    destruct (test _ _ HEX_40 _) as [|[]]; [done| |done]. destruct (hasExactKeys _ _); [|done].
    unfold test in Ht. destruct (js_text _ _ _) as [t|]; [|done]. injection Ht as Ht. eauto. }
  destruct (stable_core_text _ Hc) as [v Hv]. split.
  - change (isStableCoreVersion (JString (text_of number_text date_text (prop body "version"))) = true).
    by rewrite Hv in *.
  - exists ("sha256:" +:+ t). split; [|by unfold DIGEST_PATTERN; rewrite starts_with_app, drop_prefix_app].
    change (JString ("sha256:" +:+ text_of number_text date_text (prop (prop body "artifact") "sha256")) = JString ("sha256:" +:+ t)).
    unfold text_of. by rewrite Htext.
  - change (text_of number_text date_text (prop body "severity") = "normal" ∨ text_of number_text date_text (prop body "severity") = "security").
    apply orb_true_iff in Hs as [->%is_text_eq| ->%is_text_eq]; auto.
  - change (text_of number_text date_text (prop body "releaseNotes") = RELEASES +:+ text_of number_text date_text (prop body "version")).
    by rewrite Hn, Hv.
Qed.

Lemma stateWithFailureCheck_good version s next failures withdraw : 0 ≤ failures ≤ 2 → good version s →
  good version (stateWithFailureCheck s next failures withdraw).
Proof. intros Hf [Hi _ Hd Hc]. split; [done|done|done|]. intros c. cbn. destruct withdraw; [done|]. apply Hc. Qed.

Lemma stateAfterFailedCheck_good version s nowMs withdraw : good version s →
  good version (stateAfterFailedCheck s nowMs withdraw).
Proof.
  intros Hg. pose proof (gs_failures _ _ Hg). apply stateWithFailureCheck_good; [lia|done].
Qed.

Lemma stateAfterAcknowledgement_good version s d : d ∈ us_offeredDigests s ∨ d ∈ us_acknowledgedDigests s →
  good version s → good version (stateAfterAcknowledgement s d).
Proof.
  intros Hd [Hi Hf Hok Hc]. split; [done|done|..].
  - cbn. case_bool_decide as Ha.
    + rewrite filter_other; [done|]. intros Ho. by apply (ok_disjoint _ _ Hok d).
    + apply digests_ok_ack; [done|tauto].
  - intros c Hc'. destruct (Hc c Hc') as [Hg Hn]. split; [done|]. intros Hnew. specialize (Hn Hnew).
    destruct (gc_digest c Hg) as (x & Hx & _). rewrite Hx in *.
    unfold stateAfterAcknowledgement. cbn [us_offeredDigests us_acknowledgedDigests].
    rewrite orb_true_iff, !includes_text in *. rewrite list_elem_of_filter.
    destruct (decide (x = d)) as [->|]; case_bool_decide; rewrite ?elem_of_app, ?list_elem_of_singleton; tauto.
Qed.

Lemma successful_check_good version s c nowMs random : good_candidate c → good version s →
  ∀ s', d_state (successful_check number_text date_text version c nowMs random s) = Some s' → good version s'.
Proof.
  intros Hc [Hi Hf Hok _] s' [= <-]. destruct (gc_digest c Hc) as (d & Hd & Hp).
  unfold resultForCandidate, offer. cbn [us_candidate us_acknowledgedDigests us_offeredDigests].
  destruct (newer (uc_version c) version) eqn:Hnew; cbn [negb].
  2: { split; [exact Hi|done|exact Hok|]. intros ? [= <-]. split; [exact Hc|]. rewrite Hnew. done. }
  destruct (includes (us_acknowledgedDigests s) (uc_targetDigest c)) eqn:Ha.
  { split; [exact Hi|done|exact Hok|]. intros ? [= <-]. split; [exact Hc|]. intros _.
    cbn [us_acknowledgedDigests]. rewrite Ha. apply orb_true_r. }
  unfold notification.
  destruct (includes (us_offeredDigests s) (uc_targetDigest c)) eqn:Ho.
  { split; [exact Hi|done|exact Hok|]. intros ? [= <-]. split; [exact Hc|]. intros _.
    cbn [us_offeredDigests]. by rewrite Ho. }
  rewrite Hd in *. apply not_true_iff_false in Ha, Ho. rewrite includes_text in Ha, Ho.
  change (text_of number_text date_text (JString d)) with d.
  split; [exact Hi|done|..]; cbn [us_offeredDigests us_acknowledgedDigests].
  - destruct Hok as [O1 O2 O3 O4 O5]. split; [|done| |done|].
    + apply Forall_app. split; [done|]. by constructor.
    + apply NoDup_app. split; [done|]. split; [|apply NoDup_singleton]. by intros x Hx ->%list_elem_of_singleton.
    + intros x [Hx| ->%list_elem_of_singleton]%elem_of_app; [by apply O5|done].
  - intros ? [= <-]. split; [done|]. intros _.
    cbn [us_offeredDigests us_acknowledgedDigests]. rewrite Hd, orb_true_iff, !includes_text, elem_of_app, list_elem_of_singleton.
    tauto.
Qed.

Lemma commit_inv d s r : commit d = (Some s, r) → encodeRecoverableState number_text s = true ∧
  (d_state d = Some s ∧ r = d_result d ∨ d_fallback d = Some (s, r)).
Proof.
  unfold UpdateCheck.commit. destruct (d_state d) as [s1|]; [|done]. destruct (encodeRecoverableState _ s1) eqn:E.
  - intros [= <- <-]. auto.
  - destruct (d_fallback d) as [[s2 r2]|]; [|done]. destruct (encodeRecoverableState _ s2) eqn:E2; [|done].
    intros [= <- <-]. auto.
Qed.

Lemma fetchCandidate_good fetched c : fetchCandidate date_parse number_text date_text fetched = inr c → good_candidate c.
Proof.
  unfold fetchCandidate. destruct fetched as [| |body]; [done|done|].
  destruct (validateManifest _ _ _ body) as [[]|] eqn:Hm; try done. intros [= <-]. by eapply validateManifest_good.
Qed.

(** What a check or an acknowledgement commits is good and can be stored. *)
Lemma check_decision_good version s nowMs random fetched s' r : good version s →
  commit (check_decision date_parse number_text date_text version nowMs random fetched s) = (Some s', r) →
  good version s' ∧ encodeRecoverableState number_text s' = true.
Proof.
  intros Hg. unfold check_decision. destruct (fetchCandidate _ _ _ fetched) as [reason|c] eqn:Hfetch;
    intros [He Hs]%commit_inv; (split; [|done]).
  - destruct Hs as [[[= <-] _]|[=]]. by apply stateAfterFailedCheck_good.
  - apply fetchCandidate_good in Hfetch.
    destruct Hs as [[Hs _]|[= <- _]]; [by eapply successful_check_good|by apply stateAfterFailedCheck_good].
Qed.

Lemma acknowledgement_good version s digest key s' r : good version s →
  commit (acknowledgement digest key s) = (Some s', r) →
  good version s' ∧ encodeRecoverableState number_text s' = true.
Proof.
  intros Hg [He Hs]%commit_inv. split; [|done].
  unfold acknowledgement in Hs. destruct (_ && _) eqn:Hn; [by destruct Hs as [[[=] _]|[=]]|].
  destruct Hs as [[[= <-] _]|[=]]. apply stateAfterAcknowledgement_good; [|done].
  apply andb_false_iff in Hn as [Hn|Hn]; apply negb_false_iff, bool_decide_eq_true in Hn; auto.
Qed.

(** An operation that writes writes a good state that can be stored. *)
Lemma run_op_good version s op s' r : good version s → run_op version s op = (Some s', r) →
  good version s' ∧ encodeRecoverableState number_text s' = true.
Proof.
  intros Hg. destruct op as [nowMs random fetched|key]; unfold UpdateCheck.run_op.
  - destruct (freshStateResult _ _ _ _ _ _) as [?|]; [done|]. by apply check_decision_good.
  - destruct (digestForEventKey (JString key)) as [d|]; [|done]. by apply acknowledgement_good.
Qed.

Lemma after_ops_good version s ops : good version s → good version (after_ops version s ops).
Proof.
  revert s. induction ops as [|op ops IH]; intros s Hg; [done|]. apply IH.
  unfold after_op. destruct (run_op version s op) as [[s'|] r] eqn:E; [|done]. by eapply run_op_good in E as [? _].
Qed.

(** ** Reading a state back *)
Lemma unique_NoDup (acc l : list string) : NoDup (acc ++ l) →
  foldl (λ acc x, if bool_decide (x ∈ acc) then acc else acc ++ [x]) acc l = acc ++ l.
Proof.
  revert acc. induction l as [|x l IH]; intros acc Hnd; [by rewrite app_nil_r|]. cbn [foldl].
  rewrite bool_decide_false.
  - rewrite IH; rewrite <-app_assoc; [done|exact Hnd].
  - intros Hx. apply NoDup_app in Hnd as (_ & Hd & _). apply (Hd x Hx). constructor.
Qed.

Lemma digests_of_texts l : Forall (λ d, DIGEST_PATTERN d = true) l → digests_of (JArray (map JString l)) = Some l.
Proof.
  unfold digests_of. induction 1 as [|d l Hd Hl IH]; [done|]. cbn [map foldr]. by rewrite IH, Hd.
Qed.

Lemma safe_count_small n : 0 ≤ n ≤ 2 → safe_count (JNumber (nof n)) = Some n.
Proof. intros Hn. assert (n = 0 ∨ n = 1 ∨ n = 2) as [-> | [-> | ->]] by lia; by vm_compute. Qed.

Lemma validateCachedCandidate_json c : good_candidate c →
  validateCachedCandidate number_text date_text (candidate_json c) = Some c.
Proof.
  intros [Hv (d & Hd & Hp) Hs Hn]. destruct c as [version digest severity notes].
  cbn [uc_version uc_targetDigest uc_severity uc_releaseNotes] in *. subst digest notes.
  unfold validateCachedCandidate, candidate_json. cbn [uc_version uc_targetDigest uc_severity uc_releaseNotes].
  match goal with |- context [JObject ?l] => set (o := l) end.
  change (bool_decide (is_Some (isPlainObject (JObject o))) && hasOnlyKeys (JObject o)
    ["version"; "targetDigest"; "severity"; "releaseNotes"]) with true.
  change (prop (JObject o) "version") with (JString version). change (prop (JObject o) "targetDigest") with (JString d).
  change (prop (JObject o) "severity") with (JString severity).
  change (prop (JObject o) "releaseNotes") with (JString (RELEASES +:+ version)).
  change (js_text number_text date_text (JString d)) with (Some d).
  rewrite Hv, Hp. cbn [negb andb].
  replace (is_text "normal" (JString severity) || is_text "security" (JString severity)) with true
    by (by destruct Hs as [-> | ->]).
  unfold validateReleaseNotesUrl. rewrite Hv. cbn [negb version_text is_text]. by rewrite bool_decide_true.
Qed.

Lemma normalizeState_json version parsed s : parseSemver (JString version) = inr parsed →
  good version s → encodeRecoverableState number_text s = true →
  normalizeState number_text date_text (state_json s) (Some version) = Some s.
Proof.
  intros Hv [Hi Hf Hok Hc] He. destruct Hok as [Ho Ha No Na _].
  destruct s as [installed next failures offered acknowledged cand].
  cbn [us_installedVersion us_nextCheckAt us_consecutiveFailures us_offeredDigests us_acknowledgedDigests us_candidate] in *.
  subst installed. unfold normalizeState.
  set (value := state_json _) in *.
  change (bool_decide (is_Some (isPlainObject value)) && is_one (prop value "schemaVersion") &&
          is_text SKILL_ID (prop value "skillId")) with true.
  change (prop value "installedVersion") with (JString version).
  change (prop (prop value "check") "nextCheckAt") with (text_or_null next).
  change (prop (prop value "check") "consecutiveFailures") with (JNumber (nof failures)).
  change (prop (prop value "notification") "offeredDigests") with (JArray (map JString offered)).
  change (prop (prop value "notification") "acknowledgedDigests") with (JArray (map JString acknowledged)).
  change (bool_decide (is_Some (isPlainObject (prop value "check"))) &&
          bool_decide (is_Some (isPlainObject (prop value "notification")))) with true.
  rewrite safe_count_small, !digests_of_texts by done. cbn [is_text andb negb null_or_text mbind option_bind].
  rewrite bool_decide_true by done. cbn [negb].
  replace (null_or_text (text_or_null next)) with (Some next) by (by destruct next). cbn [mbind option_bind].
  rewrite Hv. unfold unique. rewrite !(unique_NoDup []) by done. cbn [app].
  destruct cand as [c|].
  - destruct (Hc c eq_refl) as [Hg Hn]. change (prop value "candidate") with (candidate_json c).
    rewrite validateCachedCandidate_json by done. cbn [us_offeredDigests us_acknowledgedDigests] in Hn.
    destruct (newer (uc_version c) version); [|by rewrite He].
    specialize (Hn eq_refl). apply orb_true_iff in Hn as [-> | ->]; cbn [negb andb]; rewrite ?andb_false_r; by rewrite He.
  - change (validateCachedCandidate number_text date_text (prop value "candidate")) with (@None update_candidate).
    change (bool_decide (is_Some (list_find (λ kv, kv.1 = "candidate") match value with JObject o => o | _ => [] end))) with false.
    by rewrite He.
Qed.

(** C17: what an operation writes is never ignored: a state that is stored after
    any sequence of checks and acknowledgements is read back as it is. *)
Theorem committed_state_read_back (version : string) (parsed : semver) (ops : list update_op) (op : update_op)
    (s : update_state) (r : update_result) :
  parseSemver (JString version) = inr parsed →
  run_op version (after_ops version (emptyState (Some version)) ops) op = (Some s, r) →
  normalizeState number_text date_text (state_json s) (Some version) = Some s.
Proof.
  intros Hv [Hg He]%run_op_good; [|apply after_ops_good, emptyState_good]. by eapply normalizeState_json.
Qed.

(** ** Notices and their acknowledgement *)
Lemma digestForEventKey_key d : DIGEST_PATTERN d = true → digestForEventKey (JString (eventKeyForDigest d)) = Some d.
Proof.
  intros Hd. unfold digestForEventKey, eventKeyForDigest. rewrite <-string_app_assoc.
  by rewrite starts_with_app, drop_prefix_app, Hd.
Qed.

Lemma digestForEventKey_inv key d : digestForEventKey (JString key) = Some d → key = eventKeyForDigest d.
Proof.
  unfold digestForEventKey, eventKeyForDigest. destruct (starts_with _ key) eqn:Hs; [|done].
  apply starts_with_inv in Hs. destruct (DIGEST_PATTERN _); [|done]. intros [= Hd].
  by rewrite Hs, Hd, string_app_assoc.
Qed.

(** A notice is about a candidate of the state that is newer and not acknowledged. *)
Lemma notice_inv version s key i l digest sev sum notes : offered_if_newer version s →
  resultForCandidate number_text date_text version s = UpdateAvailable key i l digest sev sum notes →
  key = eventKeyForDigest digest ∧ DIGEST_PATTERN digest = true ∧
  digest ∈ us_offeredDigests s ∧ digest ∉ us_acknowledgedDigests s.
Proof.
  intros Hc. unfold resultForCandidate. destruct (us_candidate s) as [c|] eqn:E; [|done].
  destruct (Hc c E) as [Hg Hn]. destruct (newer _ _); [|done]. specialize (Hn eq_refl). cbn [negb].
  destruct (gc_digest c Hg) as (d & Hd & Hp). rewrite Hd in Hn.
  destruct (includes (us_acknowledgedDigests s) (uc_targetDigest c)) eqn:Ha; [done|]. rewrite Hd in Ha.
  unfold notification. rewrite Hd. intros [= <- _ _ <- _ _ _].
  change (text_of number_text date_text (JString d)) with d.
  rewrite Ha, orb_false_r, includes_text in Hn. apply not_true_iff_false in Ha. by rewrite includes_text in Ha.
Qed.

(** States of the cache: good, and stored, or without a candidate. *)
Definition stored (version : string) (s : update_state) : Prop :=
  good version s ∧ (us_candidate s = None ∨ encodeRecoverableState number_text s = true).

Lemma after_op_stored version s op : stored version s → stored version (after_op date_parse number_text date_text version s op).
Proof.
  intros [Hg Hs]. unfold after_op. destruct (run_op version s op) as [[s'|] r] eqn:E; [|done].
  apply run_op_good in E as [Hg' He]; [|done]. split; [done|by right].
Qed.

Lemma after_ops_stored version s ops : stored version s → stored version (after_ops version s ops).
Proof. revert s. induction ops as [|op ops IH]; intros s Hs; [done|]. by apply IH, after_op_stored. Qed.

Lemma emptyState_stored version : stored version (emptyState (Some version)).
Proof. split; [apply emptyState_good|by left]. Qed.

(** A notice is the result of the state the check commits. *)
Lemma check_decision_notice version s nowMs random fetched w key i l digest sev sum notes :
  commit (check_decision date_parse number_text date_text version nowMs random fetched s) =
    (w, UpdateAvailable key i l digest sev sum notes) →
  ∃ s', w = Some s' ∧ resultForCandidate number_text date_text version s' = UpdateAvailable key i l digest sev sum notes.
Proof.
  unfold check_decision, UpdateCheck.commit. destruct (fetchCandidate _ _ _ fetched) as [reason|c].
  - unfold failed_check. cbn [d_state d_result d_fallback]. by destruct (encodeRecoverableState _ _).
  - unfold successful_check. cbn [d_state d_result d_fallback].
    destruct (encodeRecoverableState _ _); [|by destruct (encodeRecoverableState _ _)]. intros [= <- H]. eauto.
Qed.

Lemma acknowledgement_confirmed s d key w key' : commit (acknowledgement d key s) = (w, Acknowledged key') →
  key' = key ∧ ∃ s', w = Some s' ∧ d ∈ us_acknowledgedDigests s'.
Proof.
  unfold acknowledgement, UpdateCheck.commit. destruct (_ && _); [done|]. cbn [d_state d_result d_fallback].
  destruct (encodeRecoverableState _ _); [|done]. intros [= <- <-]. split; [done|]. eexists. split; [done|].
  unfold stateAfterAcknowledgement. cbn [us_acknowledgedDigests].
  case_bool_decide; [done|]. apply elem_of_app. right. by constructor.
Qed.

(** A notice is the result of the state the check leaves. *)
Lemma check_notice version s op s' key i l digest sev sum notes :
  run_op version s op = (s', UpdateAvailable key i l digest sev sum notes) →
  resultForCandidate number_text date_text version (default s s') = UpdateAvailable key i l digest sev sum notes.
Proof.
  destruct op as [nowMs random fetched|k]; unfold UpdateCheck.run_op.
  - destruct (freshStateResult _ _ _ _ _ _) as [r|] eqn:Hf.
    { intros [= <- ->]. unfold freshStateResult in Hf. destruct (date_parse _); [|done].
      destruct (_ && _); [|done]. by injection Hf. }
    by intros (s1 & -> & H)%check_decision_notice.
  - destruct (digestForEventKey _); [|done]. unfold acknowledgement, UpdateCheck.commit. destruct (_ && _); [done|].
    cbn [d_state d_result d_fallback]. by destruct (encodeRecoverableState _ _).
Qed.

Lemma stored_notice version s op s' key i l digest sev sum notes : stored version s →
  run_op version s op = (s', UpdateAvailable key i l digest sev sum notes) →
  key = eventKeyForDigest digest ∧ DIGEST_PATTERN digest = true ∧
  digest ∈ us_offeredDigests (default s s') ∧ digest ∉ us_acknowledgedDigests (default s s').
Proof.
  intros Hs H. eapply notice_inv; [|by eapply check_notice].
  pose proof (after_op_stored version s op Hs) as [Hg _]. unfold after_op in Hg. rewrite H in Hg. apply Hg.
Qed.

(** Acknowledging an offered digest of a state that can be stored is stored. *)
Lemma acknowledge_offered version s digest : stored version s → us_candidate s ≠ None →
  DIGEST_PATTERN digest = true → digest ∈ us_offeredDigests s →
  run_op version s (AcknowledgeUpdate (eventKeyForDigest digest)) =
  (Some (stateAfterAcknowledgement s digest), Acknowledged (eventKeyForDigest digest)).
Proof.
  intros [Hg [?|He]] Hc Hp Ho; [done|]. unfold UpdateCheck.run_op, acknowledgement. rewrite digestForEventKey_key by done.
  rewrite bool_decide_true by done. cbn [negb andb]. unfold UpdateCheck.commit. cbn [d_state d_result d_fallback].
  rewrite recoverable_acknowledgement; [done|apply Hg|done|done].
Qed.

Lemma notice_candidate version s key i l digest sev sum notes :
  resultForCandidate number_text date_text version s = UpdateAvailable key i l digest sev sum notes → us_candidate s ≠ None.
Proof. unfold resultForCandidate. by destruct (us_candidate s). Qed.

(** Every notice that is shown can be acknowledged: after any sequence of
    operations, acknowledging the key of the notice a check gives is stored and
    confirmed, however full the file is. *)
Theorem notice_can_be_acknowledged (version : string) (ops : list update_op) (op : update_op) (s' : option update_state)
    (key i l digest sev sum notes : string) :
  let s := after_ops version (emptyState (Some version)) ops in
  run_op version s op = (s', UpdateAvailable key i l digest sev sum notes) →
  run_op version (default s s') (AcknowledgeUpdate key) =
  (Some (stateAfterAcknowledgement (default s s') digest), Acknowledged key).
Proof.
  intros s H. pose proof (after_ops_stored version _ ops (emptyState_stored version)) as Hs.
  destruct (stored_notice _ _ _ _ _ _ _ _ _ _ _ Hs H) as (-> & Hp & Ho & _).
  apply acknowledge_offered; [|by eapply notice_candidate, check_notice|done|done].
  pose proof (after_op_stored version _ op Hs) as Hs'. unfold after_op in Hs'. fold s in Hs'. by rewrite H in Hs'.
Qed.

(** Acknowledged digests stay so. *)
Lemma commit_acknowledged d s digest :
  (∀ s', d_state d = Some s' → digest ∈ us_acknowledgedDigests s') →
  (∀ s' r, d_fallback d = Some (s', r) → digest ∈ us_acknowledgedDigests s') → digest ∈ us_acknowledgedDigests s →
  digest ∈ us_acknowledgedDigests (default s (commit d).1).
Proof.
  intros H1 H2 H. unfold UpdateCheck.commit. destruct (d_state d) as [s1|]; [|done].
  destruct (encodeRecoverableState _ s1); [by apply H1|]. destruct (d_fallback d) as [[s2 r2]|]; [|done].
  destruct (encodeRecoverableState _ s2); [by eapply H2|done].
Qed.

Lemma check_decision_acknowledged version s nowMs random fetched digest : digest ∈ us_acknowledgedDigests s →
  digest ∈ us_acknowledgedDigests (default s
    (commit (check_decision date_parse number_text date_text version nowMs random fetched s)).1).
Proof.
  intros H. unfold check_decision. destruct (fetchCandidate _ _ _ fetched) as [reason|c]; apply commit_acknowledged; try done.
  - by intros s' [= <-].
  - by intros s' [= <-].
  - by intros s' r [= <- _].
Qed.

Lemma acknowledgement_acknowledged s d key digest : digest ∈ us_acknowledgedDigests s →
  digest ∈ us_acknowledgedDigests (default s (commit (acknowledgement d key s)).1).
Proof.
  intros H. apply commit_acknowledged; [|by unfold acknowledgement; destruct (_ && _)|done].
  unfold acknowledgement. destruct (_ && _); [done|]. intros s' [= <-]. unfold stateAfterAcknowledgement.
  cbn [us_acknowledgedDigests]. case_bool_decide; [done|]. apply elem_of_app. by left.
Qed.

(** A digest that was offered stays offered or acknowledged. *)
Definition recorded (digest : string) (s : update_state) : Prop :=
  digest ∈ us_offeredDigests s ∨ digest ∈ us_acknowledgedDigests s.

Lemma check_decision_recorded version s nowMs random fetched s' r digest : recorded digest s →
  commit (check_decision date_parse number_text date_text version nowMs random fetched s) = (Some s', r) → recorded digest s'.
Proof.
  intros H. unfold check_decision. destruct (fetchCandidate _ _ _ fetched) as [reason|c]; intros [_ Hs]%commit_inv.
  - by destruct Hs as [[[= <-] _]|[=]].
  - destruct Hs as [[[= <-] _]|[= <- _]]; [|done]. unfold recorded. cbn [us_offeredDigests us_acknowledgedDigests].
    destruct H as [H|H]; [left|by right]. unfold offer. destruct (resultForCandidate _ _ _ _); [done| |done].
    destruct (includes _ _); [done|]. apply elem_of_app. by left.
Qed.

Lemma acknowledgement_recorded s d key s' r digest : recorded digest s →
  commit (acknowledgement d key s) = (Some s', r) → recorded digest s'.
Proof.
  intros H [_ Hs]%commit_inv. unfold acknowledgement in Hs. destruct (_ && _); [by destruct Hs as [[[=] _]|[=]]|].
  destruct Hs as [[[= <-] _]|[=]]. unfold recorded, stateAfterAcknowledgement. cbn [us_offeredDigests us_acknowledgedDigests].
  destruct (decide (digest = d)) as [->|Hne].
  - right. case_bool_decide; [done|]. apply elem_of_app. right. by constructor.
  - destruct H as [H|H]; [left; by apply list_elem_of_filter|right]. case_bool_decide; [done|]. apply elem_of_app. by left.
Qed.

Lemma after_op_acknowledged version s op digest : digest ∈ us_acknowledgedDigests s →
  digest ∈ us_acknowledgedDigests (after_op date_parse number_text date_text version s op).
Proof.
  intros H. unfold after_op, UpdateCheck.run_op. destruct op as [nowMs random fetched|k].
  - destruct (freshStateResult _ _ _ _ _ _); [done|]. by apply check_decision_acknowledged.
  - destruct (digestForEventKey _) as [d|]; [|done]. by apply acknowledgement_acknowledged.
Qed.

Lemma after_ops_acknowledged version s ops digest : digest ∈ us_acknowledgedDigests s →
  digest ∈ us_acknowledgedDigests (after_ops version s ops).
Proof. revert s. induction ops as [|op ops IH]; intros s H; [done|]. by apply IH, after_op_acknowledged. Qed.

(** An update that was acknowledged is never announced again: once an
    acknowledgement is confirmed, no later check, after any operations and
    whatever manifests are published, gives a notice with its key. *)
Theorem acknowledged_never_announced (version : string) (before : list update_op) (key : string)
    (s1 : option update_state) (between : list update_op) (op : update_op) (s2 : option update_state)
    (key' i l digest sev sum notes : string) :
  let s := after_ops version (emptyState (Some version)) before in
  run_op version s (AcknowledgeUpdate key) = (s1, Acknowledged key) →
  run_op version (after_ops version (default s s1) between) op = (s2, UpdateAvailable key' i l digest sev sum notes) →
  key' ≠ key.
Proof.
  intros s Hack H. pose proof (after_ops_stored version _ before (emptyState_stored version)) as Hs.
  pose proof (after_op_stored version s (AcknowledgeUpdate key) Hs) as Hs1. unfold after_op in Hs1. rewrite Hack in Hs1.
  destruct (stored_notice _ _ _ _ _ _ _ _ _ _ _ (after_ops_stored version _ between Hs1) H) as (-> & Hp & _ & Hn).
  intros Hkey. apply Hn. unfold UpdateCheck.run_op in Hack.
  destruct (digestForEventKey (JString key)) as [d|] eqn:Hd; [|done].
  rewrite <-Hkey, digestForEventKey_key in Hd by done. injection Hd as <-.
  pose proof (after_op_acknowledged version (after_ops version (default s s1) between) op digest) as Hlast.
  unfold after_op in Hlast. rewrite H in Hlast. apply Hlast, after_ops_acknowledged.
  by apply acknowledgement_confirmed in Hack as (_ & s' & -> & Hd).
Qed.
End Reachable.

(** ** Samples *)
Definition sample_op (version : string) (s : update_state) (op : update_op) : option update_state * update_result :=
  run_op sample_date (λ _, "1") (λ _, "") version s op.
Definition sample_check : update_op := CheckForUpdate 1787900400000 (nof 0) (Fetched (sample_manifest sha40)).
Definition sample_digest : string := "sha256:" +:+ String.concat "" (repeat "b" 64).
Definition sample_notice : update_result :=
  UpdateAvailable (eventKeyForDigest sample_digest) "2.15.0" "2.16.0" sample_digest "normal"
    "Archify 2.16.0 is available; see the official release notes for details."
    "https://github.com/tt-a1i/archify/releases/tag/v2.16.0".

Definition sample_sequence : list update_op :=
  [CheckForUpdate 0 (nof 0) FetchFailed; sample_check; AcknowledgeUpdate (eventKeyForDigest sample_digest); sample_check].

(** The results of a sequence. *)
Fixpoint results (version : string) (s : update_state) (ops : list update_op) : list update_result :=
  match ops with
  | [] => []
  | op :: ops => let '(s', r) := sample_op version s op in r :: results version (default s s') ops
  end.

Example sample_results : results "2.15.0" (emptyState (Some "2.15.0")) sample_sequence =
  [Silent "check-failed"; sample_notice; Acknowledged (eventKeyForDigest sample_digest); Silent "already-notified"].
Proof. vm_compute. reflexivity. Qed.
(** A development version or the same version is not told of the release. *)
Example sample_current : results "2.16.0" (emptyState (Some "2.16.0")) [sample_check] = [Silent "current"].
Proof. vm_compute. reflexivity. Qed.

(** The last state of a sequence. *)
Definition sample_state (ops : list update_op) : update_state :=
  after_ops sample_date (λ _, "1") (λ _, "") "2.15.0" (emptyState (Some "2.15.0")) ops.

Lemma committed_state_read_back_witness :
  (sample_op "2.15.0" (sample_state []) sample_check).1 ≠ None ∧
  ∀ s, (sample_op "2.15.0" (sample_state []) sample_check).1 = Some s →
  normalizeState (λ _, "1") (λ _, "") (state_json s) (Some "2.15.0") = Some s.
Proof.
  split; [vm_compute; discriminate|]. intros s Hs.
  refine (committed_state_read_back sample_date _ _ "2.15.0"
    {| core := ["2"; "15"; "0"]; prerelease := None; build := None |} [] sample_check s sample_notice _ _).
  - vm_compute. reflexivity.
  - transitivity ((sample_op "2.15.0" (sample_state []) sample_check).1, sample_notice); [vm_compute; reflexivity|].
    by rewrite Hs.
Defined.

Lemma notice_can_be_acknowledged_witness :
  (sample_op "2.15.0" (sample_state []) sample_check).2 = sample_notice ∧
  (sample_op "2.15.0" (sample_state [sample_check]) (AcknowledgeUpdate (eventKeyForDigest sample_digest))).2 =
  Acknowledged (eventKeyForDigest sample_digest).
Proof.
  assert (H : sample_op "2.15.0" (sample_state []) sample_check =
    (Some (sample_state [sample_check]), sample_notice)) by (vm_compute; reflexivity).
  split; [exact (f_equal snd H)|].
  pose proof (notice_can_be_acknowledged _ _ _ "2.15.0" [] sample_check _ _ _ _ _ _ _ _ H) as Ha.
  exact (f_equal snd Ha).
Defined.

(** A later release, which is announced when the first has been acknowledged. *)
Definition later_check : update_op :=
  CheckForUpdate 1787900400000 (nof 0) (Fetched (sample_release "2.17.0" (String.concat "" (repeat "c" 64)) sha40)).
Definition later_digest : string := "sha256:" +:+ String.concat "" (repeat "c" 64).

Lemma acknowledged_never_announced_witness :
  (sample_op "2.15.0" (sample_state [sample_check]) (AcknowledgeUpdate (eventKeyForDigest sample_digest))).2 =
  Acknowledged (eventKeyForDigest sample_digest) ∧
  match (sample_op "2.15.0" (sample_state [sample_check; AcknowledgeUpdate (eventKeyForDigest sample_digest)]) later_check).2 with
  | UpdateAvailable key _ _ digest _ _ _ => digest = later_digest ∧ key ≠ eventKeyForDigest sample_digest
  | _ => False
  end.
Proof.
  assert (H : sample_op "2.15.0" (sample_state [sample_check]) (AcknowledgeUpdate (eventKeyForDigest sample_digest)) =
    (Some (sample_state [sample_check; AcknowledgeUpdate (eventKeyForDigest sample_digest)]),
     Acknowledged (eventKeyForDigest sample_digest))) by (vm_compute; reflexivity).
  split; [exact (f_equal snd H)|].
  pose proof (acknowledged_never_announced sample_date (λ _, "1") (λ _, "") "2.15.0" [sample_check]
    (eventKeyForDigest sample_digest) (sample_op "2.15.0" (sample_state [sample_check])
       (AcknowledgeUpdate (eventKeyForDigest sample_digest))).1 [] later_check) as Ha.
  assert (∃ s2 i l sev sum notes,
    sample_op "2.15.0" (sample_state [sample_check; AcknowledgeUpdate (eventKeyForDigest sample_digest)]) later_check =
    (s2, UpdateAvailable (eventKeyForDigest later_digest) i l later_digest sev sum notes))
    as (s2 & i & l & sev & sum & notes & H2) by (do 6 eexists; vm_compute; reflexivity).
  rewrite H2. split; [reflexivity|]. rewrite H in Ha. exact (Ha _ _ _ _ _ _ _ _ eq_refl H2).
Defined.
