(* ===== verification/ArchitectureDelta.v ===== *)
(** * Comparison of architectures
      ([src/.agents/skills/archify/delta/architecture-delta.mjs], its comparison)

    Two validated snapshots of an architecture are compared entity by entity.
    Diagrams conform to the schema ([schemas/architecture.schema.json]): the
    collections are arrays of objects, identifiers, kinds and labels are strings.
    The constant fields of the result are left out. *)

From stdpp Require Import sorting pretty gmap.
From S2P Require Import Prelude Num JsValue Semver Updates RepositoryLocation.
#[local] Open Scope Z_scope.

(** ** Values of the schema *)

(** [items || []] of an array. *)
Definition items (v : jsval) : list jsval := match v with JArray l => l | _ => [] end.
(** A string, or [''] when it is absent: [v || '']. *)
Definition string_or_empty (v : jsval) : string := match v with JString s => s | _ => "" end.
Definition present (v : jsval) : bool := match v with JUndefined | JNull => false | _ => true end.

(** [{ ...o, name: v }] *)
Fixpoint set_field (o : list (string * jsval)) (name : string) (v : jsval) : list (string * jsval) :=
  match o with
  | [] => [(name, v)]
  | (k, x) :: o => if bool_decide (k = name) then (name, v) :: o else (k, x) :: set_field o name v
  end.
(** [delete o[name]] *)
Definition delete_field (o : list (string * jsval)) (name : string) : list (string * jsval) :=
  filter (λ kv, kv.1 ≠ name) o.
Definition fields (v : jsval) : list (string * jsval) := match v with JObject o => o | _ => [] end.

(** An [ArchitectureDeltaError]. *)
Record delta_error := { delta_code : string; delta_message : string; delta_details : list (string * jsval) }.

Inductive entity_kind := Component | Connection | Boundary.
#[export] Instance entity_kind_eq_dec : EqDecision entity_kind.
Proof. solve_decision. Defined.

Inductive status :=
  Added | Removed | Changed | EvidenceChanged | Rerouted | Moved | GeometryChanged | Same.
#[export] Instance status_eq_dec : EqDecision status.
Proof. solve_decision. Defined.

(** An entry of the changes: what [describe] gives, the status and the fields. *)
Record change := {
  described : list (string * jsval); change_status : status;
  classifications : list string; changedFields : list string
}.

Record side_info := {
  side_title : string; rawSha256 : option string; semanticSha256 : option string;
  side_bytes : option Z; side_revision : option string
}.

(** The evidence the command line computed of one snapshot. *)
Record side_evidence := {
  ev_rawSha256 : option string; ev_semanticSha256 : option string; ev_bytes : option Z; ev_verified : bool
}.

Record delta := {
  proofLevel : string; base_side : side_info; head_side : side_info;
  components_summary : list (string * Z); connections_summary : list (string * Z);
  boundaries_summary : list (string * Z); presentationChanged_ : bool; provenanceChanged : bool;
  component_changes : list change; connection_changes : list change; boundary_changes : list change;
  visualPreset : jsval
}.

Section Delta.
Context (number_text : binary64 → string).
Context (new_URL : string → option url) (decodeURIComponent : string → option string)
        (encodeURIComponent : string → string).

(** ** Canonical texts *)

(** The text is undefined for undefined. *)
Fixpoint canonical (value : jsval) : option string :=
  match value with
  | JUndefined => None
  | JNull => Some "null"
  | JBool b => Some (if b then "true" else "false")
  | JNumber x => Some (if nfin x then number_text x else "null")
  | JString s => Some (json_string s)
  | JDate _ => Some "{}"
  | JArray l => Some ("[" +:+ String.concat "," (map (λ v, default "" (canonical v)) l) +:+ "]")
  | JObject o =>
      let entries := map (λ kv, (kv.1, json_string kv.1 +:+ ":" +:+ default "undefined" (canonical kv.2))) o in
      Some ("{" +:+ String.concat "," (map snd (merge_sort (λ p q, text_le p.1 q.1) entries)) +:+ "}")
  end.

Definition equal (l r : jsval) : bool := bool_decide (canonical l = canonical r).

Definition sortedObjects (l : list jsval) : list jsval :=
  merge_sort (λ a b, text_le (default "undefined" (canonical a)) (default "undefined" (canonical b))) l.
Definition sortedBy (keyFor : jsval → string) (l : list jsval) : list jsval :=
  merge_sort (λ a b, text_le (keyFor a) (keyFor b)) l.
(** [sorted] of an array of strings. *)
Definition sorted_texts (l : list jsval) : list jsval := sortedBy string_or_empty l.

Definition parse_remote (url : jsval) : option location :=
  parseRepositoryRemote new_URL decodeURIComponent encodeURIComponent url true.

Definition optional_field (o : jsval) (name : string) : list (string * jsval) :=
  match prop o name with
  | JUndefined => []
  | v => [(name, v)]
  end.

Definition normalizeRepository (repository : jsval) : option jsval :=
  if negb (present repository) then None
  else
    let location := parse_remote (prop repository "url") in
    let url := match location with
               | Some l => if bool_decide (loc_url l = "") then string_or_empty (prop repository "url") else loc_url l
               | None => string_or_empty (prop repository "url")
               end in
    Some (JObject (
      [("url", JString (if bool_decide (location ≫= loc_provider = Some Github) then string_map lower url else url));
       ("revision", JString (string_map lower (string_or_empty (prop repository "revision"))))] ++
      optional_field repository "provider" ++ optional_field repository "link_mode")).

Definition normalizeComponent (component : jsval) : jsval :=
  match prop component "sources" with
  | JArray l => JObject (set_field (fields component) "sources" (JArray (sortedObjects l)))
  | _ => JObject (fields component)
  end.

Definition normalizeBoundary (boundary : jsval) : jsval :=
  JObject (set_field (fields boundary) "wraps" (JArray (sorted_texts (items (prop boundary "wraps"))))).

Definition UNIT_SEPARATOR : string := String (Ascii.ascii_of_N 31) "".
Definition boundaryKey (boundary : jsval) : string :=
  string_or_empty (prop boundary "kind") +:+ UNIT_SEPARATOR +:+ string_or_empty (prop boundary "label").
Definition item_id (item : jsval) : string := string_or_empty (prop item "id").

Definition canonicalArchitecture (diagram : jsval) : jsval :=
  let meta := delete_field (fields (prop diagram "meta")) "output" in
  let meta := match normalizeRepository (js_get meta "repository") with
              | Some r => set_field meta "repository" r
              | None => meta
              end in
  JObject (
    [("schema_version", prop diagram "schema_version"); ("diagram_type", prop diagram "diagram_type");
     ("meta", JObject meta)] ++
    (if present (prop diagram "layout") then [("layout", prop diagram "layout")] else []) ++
    [("components", JArray (sortedBy item_id (map normalizeComponent (items (prop diagram "components")))));
     ("boundaries", JArray (sortedBy boundaryKey (map normalizeBoundary (items (prop diagram "boundaries")))));
     ("connections", JArray (sortedBy item_id (items (prop diagram "connections"))))] ++
    (if present (prop diagram "cards") then [("cards", prop diagram "cards")] else [])).

Definition canonicalArchitectureJson (diagram : jsval) : option string := canonical (canonicalArchitecture diagram).

(** ** Indexes *)
Definition requireComparableShape (diagram : jsval) (side : string) : option delta_error :=
  if negb (is_one (prop diagram "schema_version")) then Some {|
    delta_code := "delta/schema-version-mismatch"; delta_message := side +:+ " must use schema_version 1.";
    delta_details := [("side", JString side); ("path", JString "/schema_version"); ("actual", prop diagram "schema_version")] |}
  else if negb (is_text "architecture" (prop diagram "diagram_type")) then Some {|
    delta_code := "delta/type-mismatch"; delta_message := side +:+ " must use diagram_type architecture.";
    delta_details := [("side", JString side); ("path", JString "/diagram_type"); ("actual", prop diagram "diagram_type")] |}
  else None.

(** One item of the loop over an array: the index, and the names of the items
    whose key is already there. *)
Definition index_step (key name : jsval → string) (st : gmap string jsval * list string) (item : jsval) :
  gmap string jsval * list string :=
  let '(index, duplicates) := st in
  if bool_decide (is_Some (index !! key item)) then (index, duplicates ++ [name item])
  else (<[key item := item]> index, duplicates).

Fixpoint missing_ids (collection : string) (itemIndex : Z) (l : list jsval) : list string :=
  match l with
  | [] => []
  | item :: l =>
      (if bool_decide (item_id item = "")
       then ["/" +:+ collection +:+ "/" +:+ pretty itemIndex +:+ "/id"] else []) ++
      missing_ids collection (itemIndex + 1) l
  end.

Definition texts (l : list string) : jsval := JArray (map JString l).

Definition stableIndex (v : jsval) (collection side missingCode : string) : delta_error + gmap string jsval :=
  let l := items v in
  let missing := missing_ids collection 0 l in
  let '(index, duplicates) := foldl (index_step item_id item_id) (∅, []) (filter (λ item, item_id item ≠ "") l) in
  if negb (bool_decide (missing = [])) then inl {|
    delta_code := missingCode;
    delta_message := side +:+ " " +:+ collection +:+ " require authored stable ids for comparison.";
    delta_details := [("side", JString side); ("paths", texts (sorted_keys missing));
      ("supportedFixes", texts ["add a unique id to every " +:+ collection +:+ " item"])] |}
  else if negb (bool_decide (duplicates = [])) then inl {|
    delta_code := "delta/duplicate-stable-id";
    delta_message := side +:+ " " +:+ collection +:+ " contain duplicate ids.";
    delta_details := [("side", JString side); ("collection", JString collection);
      ("ids", texts (sorted_keys (remove_dups duplicates)));
      ("supportedFixes", texts ["make every " +:+ collection +:+ " id unique"])] |}
  else inr index.

Definition boundary_name (boundary : jsval) : string :=
  string_or_empty (prop boundary "kind") +:+ ":" +:+ string_or_empty (prop boundary "label").

Definition boundaryIndex (v : jsval) (side : string) : delta_error + gmap string jsval :=
  let '(index, ambiguous) := foldl (index_step boundaryKey boundary_name) (∅, []) (items v) in
  if negb (bool_decide (ambiguous = [])) then inl {|
    delta_code := "delta/boundary-key-ambiguous";
    delta_message := side +:+ " boundary kind + label keys must be unique.";
    delta_details := [("side", JString side); ("boundaries", texts (sorted_keys (remove_dups ambiguous)));
      ("supportedFixes", texts ["rename one duplicate boundary or add stable boundary ids in a future schema version"])] |}
  else inr index.

(** ** Changes of an entity *)
Definition normalizedField (item : jsval) (field : string) : jsval :=
  match prop item field with
  | JArray l =>
      if bool_decide (field = "sources") then JArray (sortedObjects l)
      else if bool_decide (field = "wraps") then JArray (sorted_texts l)
      else JArray l
  | v => v
  end.

Definition groups := list (string * list string).

Definition changed_in (before after : jsval) (names : list string) : list string :=
  filter (λ field, equal (normalizedField before field) (normalizedField after field) = false) names.

Definition fieldChanges (before after : jsval) (g : groups) : list string * list string :=
  let changed := map (λ kf, (kf.1, changed_in before after kf.2)) g in
  (sorted_keys (map fst (filter (λ kc, kc.2 ≠ []) changed)),
   sorted_keys (mjoin (map (λ kc, map (λ field, "/" +:+ field) kc.2) changed))).

Definition COMPONENT_FIELDS : groups :=
  [("semantic", ["type"; "label"; "sublabel"; "tag"]); ("evidence", ["sources"]);
   ("geometry", ["row"; "col"; "pos"; "size"])].
Definition CONNECTION_FIELDS : groups :=
  [("topology", ["from"; "to"]); ("semantic", ["label"; "variant"]);
   ("geometry", ["fromSide"; "toSide"; "route"; "via"; "labelAt"; "labelDx"; "labelDy"; "labelSegment"; "width"])].
Definition BOUNDARY_FIELDS : groups := [("scope", ["wraps"]); ("geometry", ["pad"])].

Definition statusFor (classes : list string) (k : entity_kind) : status :=
  if existsb (λ value, bool_decide (value ∈ ["topology"; "semantic"; "scope"])) classes then Changed
  else if bool_decide ("evidence" ∈ classes) then EvidenceChanged
  else if bool_decide ("geometry" ∈ classes)
  then match k with Connection => Rerouted | Component => Moved | Boundary => GeometryChanged end
  else Same.

Definition describer := string → option jsval → option jsval → list (string * jsval).

Definition identityClassification (k : entity_kind) : string :=
  match k with Connection => "topology" | Boundary => "scope" | Component => "semantic" end.

(** The body of the loop over the identifiers. *)
Definition compare_entity (base head : gmap string jsval) (k : entity_kind) (g : groups) (describe : describer)
    (id : string) : list change :=
  match base !! id, head !! id with
  | None, h => [{| described := describe id None h; change_status := Added;
                   classifications := [identityClassification k]; changedFields := [] |}]
  | Some b, None => [{| described := describe id (Some b) None; change_status := Removed;
                        classifications := [identityClassification k]; changedFields := [] |}]
  | Some b, Some h =>
      let '(classes, names) := fieldChanges b h g in
      let s := statusFor classes k in
      if bool_decide (s = Same) then []
      else [{| described := describe id (Some b) (Some h); change_status := s;
               classifications := classes; changedFields := names |}]
  end.

Definition all_ids (base head : gmap string jsval) : list string :=
  sorted_keys (elements (dom base ∪ dom head : gset string)).

Definition compareEntities (base head : gmap string jsval) (k : entity_kind) (g : groups) (describe : describer) : list change :=
  mjoin (map (compare_entity base head k g describe) (all_ids base head)).

(** The key of a status in the summary. *)
Definition status_key (s : status) : string :=
  match s with
  | Added => "added" | Removed => "removed" | Changed => "changed" | EvidenceChanged => "evidenceChanged"
  | Rerouted => "rerouted" | Moved => "moved" | GeometryChanged => "geometryChanged" | Same => "same"
  end.

Definition bump_key (summary : list (string * Z)) (key : string) : list (string * Z) :=
  map (λ kn, if bool_decide (kn.1 = key) then (kn.1, kn.2 + 1) else kn) summary.

Definition summaryFor (changes : list change) (shape : list string) : list (string * Z) :=
  foldl (λ summary c, bump_key summary (status_key (change_status c))) (map (λ key, (key, 0)) shape) changes.

Definition presentation (d : jsval) : jsval :=
  JObject (map (λ name, (name, prop (prop d "meta") name))
    ["title"; "subtitle"; "animation"; "visual_preset"; "quality_profile"; "engineering_profile"; "legend"; "views"; "viewBox"] ++
    [("layout", prop d "layout"); ("cards", prop d "cards")]).

Definition presentationChanged (base head : jsval) : bool := negb (equal (presentation base) (presentation head)).

(** ** The comparison *)
Definition label_of (o : option jsval) : jsval := match o with Some v => prop v "label" | None => JUndefined end.

Definition describe_component : describer := λ id before after,
  [("id", JString id); ("baseLabel", label_of before); ("headLabel", label_of after)].

Definition connection_ends (v : jsval) : jsval :=
  JObject [("from", prop v "from"); ("to", prop v "to"); ("label", JString (string_or_empty (prop v "label")))].
Definition describe_connection : describer := λ id before after,
  [("id", JString id)] ++
  match before with Some b => [("base", connection_ends b)] | None => [] end ++
  match after with Some h => [("head", connection_ends h)] | None => [] end.

Definition describe_boundary : describer := λ _ before after,
  match (match after with Some h => Some h | None => before end) with
  | Some v => [("key", JString (boundary_name v)); ("kind", prop v "kind"); ("label", prop v "label")]
  | None => []
  end.

Definition repository_identity (repository : jsval) : string :=
  match parse_remote (prop repository "url") with
  | Some l => identity l
  | None => string_or_empty (prop repository "url")
  end.

Definition no_shared : delta_error := {|
  delta_code := "delta/no-shared-component-id";
  delta_message := "The snapshots share no component id, so Archify cannot prove that they describe the same system.";
  delta_details := [("supportedFixes", texts ["preserve at least one authored component id across snapshots"])] |}.

Definition repository_mismatch (base head : jsval) : delta_error := {|
  delta_code := "delta/repository-mismatch"; delta_message := "The snapshots name different repositories.";
  delta_details := [("baseRepository", prop base "url"); ("headRepository", prop head "url");
    ("supportedFixes", texts ["compare snapshots from the same repository or remove repository evidence from both inputs"])] |}.

Definition revision_of (repository : option jsval) : string :=
  match repository with Some r => string_or_empty (prop r "revision") | None => "" end.

Definition nonempty_text (o : option string) : option string :=
  match o with Some s => if bool_decide (s = "") then None else Some s | None => None end.

Definition side_report (d : jsval) (ev : side_evidence) (repository : option jsval) : side_info := {|
  side_title := string_or_empty (prop (prop d "meta") "title");
  rawSha256 := nonempty_text (ev_rawSha256 ev); semanticSha256 := nonempty_text (ev_semanticSha256 ev);
  side_bytes := ev_bytes ev; side_revision := nonempty_text (Some (revision_of repository)) |}.

Definition COMPONENT_SHAPE := ["added"; "changed"; "evidenceChanged"; "removed"; "moved"].
Definition CONNECTION_SHAPE := ["added"; "changed"; "removed"; "rerouted"].
Definition BOUNDARY_SHAPE := ["added"; "changed"; "removed"; "geometryChanged"].

Definition proof_level (base head : option jsval) (evb evh : side_evidence) : string :=
  if bool_decide (is_Some base ∧ is_Some head) && ev_verified evb && ev_verified evh &&
     HEX_40 (revision_of base) && HEX_40 (revision_of head)
  then "revision-pinned" else "authored".

Definition same_repository (base head : option jsval) : option delta_error :=
  match base, head with
  | Some b, Some h =>
      if bool_decide (repository_identity b = repository_identity h) then None else Some (repository_mismatch b h)
  | _, _ => None
  end.

Definition undefined_or (o : option jsval) : jsval := default JUndefined o.

Definition compare_indexed (base head : jsval) (evb evh : side_evidence)
    (bc hc bn hn bb hb : gmap string jsval) : delta_error + delta :=
  let baseRepository := normalizeRepository (prop (prop base "meta") "repository") in
  let headRepository := normalizeRepository (prop (prop head "meta") "repository") in
  match same_repository baseRepository headRepository with
  | Some e => inl e
  | None =>
      let components := compareEntities bc hc Component COMPONENT_FIELDS describe_component in
      let connections := compareEntities bn hn Connection CONNECTION_FIELDS describe_connection in
      let boundaries := compareEntities bb hb Boundary BOUNDARY_FIELDS describe_boundary in
      inr {|
        proofLevel := proof_level baseRepository headRepository evb evh;
        base_side := side_report base evb baseRepository; head_side := side_report head evh headRepository;
        components_summary := summaryFor components COMPONENT_SHAPE;
        connections_summary := summaryFor connections CONNECTION_SHAPE;
        boundaries_summary := summaryFor boundaries BOUNDARY_SHAPE;
        presentationChanged_ := presentationChanged base head;
        provenanceChanged := negb (equal (undefined_or baseRepository) (undefined_or headRepository));
        component_changes := components; connection_changes := connections; boundary_changes := boundaries;
        visualPreset := match prop (prop head "meta") "visual_preset" with
                        | JString s => if bool_decide (s = "") then JString "classic" else JString s
                        | _ => JString "classic"
                        end |}
  end.

Definition ID_REQUIRED : string := "delta/stable-id-required".
Definition RELATIONSHIP_ID_REQUIRED : string := "delta/relationship-id-required".

Notation "'let?' x ':=' m 'in' k" := (match m with inl e => inl e | inr x => k end)
  (at level 200, x binder, m at level 100, k at level 200, only parsing).

Definition compareArchitecture (base head : jsval) (evb evh : side_evidence) : delta_error + delta :=
  match requireComparableShape base "base" with
  | Some e => inl e
  | None =>
  match requireComparableShape head "head" with
  | Some e => inl e
  | None =>
      let? bc := stableIndex (prop base "components") "components" "base" ID_REQUIRED in
      let? hc := stableIndex (prop head "components") "components" "head" ID_REQUIRED in
      if bool_decide (filter (λ id, is_Some (hc !! id)) (elements (dom bc : gset string)) = []) then inl no_shared
      else
        let? bn := stableIndex (prop base "connections") "connections" "base" RELATIONSHIP_ID_REQUIRED in
        let? hn := stableIndex (prop head "connections") "connections" "head" RELATIONSHIP_ID_REQUIRED in
        let? bb := boundaryIndex (prop base "boundaries") "base" in
        let? hb := boundaryIndex (prop head "boundaries") "head" in
        compare_indexed base head evb evh bc hc bn hn bb hb
  end
  end.
End Delta.

(** ** Identifiers *)
Lemma elem_of_all_ids base head id : id ∈ all_ids base head ↔ is_Some (base !! id) ∨ is_Some (head !! id).
Proof. unfold all_ids. rewrite sorted_keys_perm, elem_of_elements, elem_of_union, !elem_of_dom. done. Qed.

Lemma all_ids_NoDup base head : NoDup (all_ids base head).
Proof. unfold all_ids. rewrite sorted_keys_perm. apply NoDup_elements. Qed.

Lemma all_ids_comm base head : all_ids base head = all_ids head base.
Proof. unfold all_ids. by rewrite (comm_L (∪)). Qed.

(** ** What the changes of a collection are *)
Section Exact.
Context (number_text : binary64 → string).
Notation differ b h field :=
  (equal number_text (normalizedField number_text b field) (normalizedField number_text h field) = false).

(** The fields a comparison looks at. *)
Definition tracked (g : groups) : list string := mjoin (map snd g).

(** An identifier is reported when only one snapshot has it, or a tracked field differs. *)
Definition reported (base head : gmap string jsval) (g : groups) (id : string) : Prop :=
  match base !! id, head !! id with
  | None, None => False
  | Some b, Some h => ∃ field, field ∈ tracked g ∧ differ b h field
  | _, _ => True
  end.

(** What is reported of it. *)
Definition reports_change (base head : gmap string jsval) (k : entity_kind) (g : groups) (describe : describer)
    (id : string) (c : change) : Prop :=
  described c = describe id (base !! id) (head !! id) ∧
  match base !! id, head !! id with
  | None, _ => change_status c = Added ∧ classifications c = [identityClassification k] ∧ changedFields c = []
  | Some _, None => change_status c = Removed ∧ classifications c = [identityClassification k] ∧ changedFields c = []
  | Some b, Some h =>
      change_status c ∉ [Added; Removed; Same] ∧
      (∀ class, class ∈ classifications c ↔ ∃ names field, (class, names) ∈ g ∧ field ∈ names ∧ differ b h field) ∧
      (∀ name, name ∈ changedFields c ↔ ∃ field, name = "/" +:+ field ∧ field ∈ tracked g ∧ differ b h field)
  end.

Definition exact_changes (base head : gmap string jsval) (k : entity_kind) (g : groups) (describe : describer)
    (changes : list change) : Prop :=
  ∃ ids, StronglySorted text_le ids ∧ NoDup ids ∧ (∀ id, id ∈ ids ↔ reported base head g id) ∧
    Forall2 (reports_change base head k g describe) ids changes.

(** The classes [statusFor] knows. *)
Definition known_groups (g : groups) : Prop :=
  ∀ class names, (class, names) ∈ g → class ∈ ["topology"; "semantic"; "scope"; "evidence"; "geometry"].

Lemma elem_of_changed_in b h names field :
  field ∈ changed_in number_text b h names ↔ field ∈ names ∧ differ b h field.
Proof. unfold changed_in. rewrite list_elem_of_filter. tauto. Qed.

Lemma elem_of_classes b h g class :
  class ∈ (fieldChanges number_text b h g).1 ↔ ∃ names field, (class, names) ∈ g ∧ field ∈ names ∧ differ b h field.
Proof.
  unfold fieldChanges; cbn. rewrite sorted_keys_perm, list_elem_of_fmap. setoid_rewrite list_elem_of_filter.
  setoid_rewrite list_elem_of_fmap. split.
  - intros ([c l] & -> & Hne & ([c' names] & [= -> ->] & Hg)). cbn in *.
    destruct (changed_in number_text b h names) as [|field l] eqn:E; [done|].
    exists names, field. split; [done|]. apply elem_of_changed_in. rewrite E. by constructor.
  - intros (names & field & Hg & Hf). exists (class, changed_in number_text b h names). split; [done|]. split.
    + cbn. intros E. apply elem_of_changed_in in Hf. rewrite E in Hf. by apply not_elem_of_nil in Hf.
    + by exists (class, names).
Qed.

Lemma elem_of_names b h g name :
  name ∈ (fieldChanges number_text b h g).2 ↔ ∃ field, name = "/" +:+ field ∧ field ∈ tracked g ∧ differ b h field.
Proof.
  unfold fieldChanges, tracked; cbn. rewrite sorted_keys_perm, list_elem_of_join.
  setoid_rewrite list_elem_of_fmap. setoid_rewrite list_elem_of_join. setoid_rewrite list_elem_of_fmap. split.
  - intros (l & Hn & ([c l'] & -> & ([c' names] & [= -> ->] & Hg))). cbn in Hn.
    apply list_elem_of_fmap in Hn as (field & -> & [Hf Hd]%elem_of_changed_in). exists field. split; [done|].
    split; [|done]. exists names. split; [done|]. by exists (c', names).
  - intros (field & -> & (l & Hf & ([c names] & -> & Hg)) & Hd). cbn in Hf.
    exists (map (λ f, "/" +:+ f) (changed_in number_text b h names)). split.
    + apply list_elem_of_fmap. exists field. by rewrite elem_of_changed_in.
    + exists (c, changed_in number_text b h names). split; [done|]. by exists (c, names).
Qed.

Lemma statusFor_compared classes k : statusFor classes k ∉ [Added; Removed].
Proof. rewrite !not_elem_of_cons. unfold statusFor. split_and!; [..|apply not_elem_of_nil]; by repeat case_match. Qed.

(** A difference in a known class is never called the same. *)
Lemma statusFor_same classes k :
  (∀ class, class ∈ classes → class ∈ ["topology"; "semantic"; "scope"; "evidence"; "geometry"]) →
  statusFor classes k = Same ↔ classes = [].
Proof.
  intros Hk. split; [|by intros ->]. destruct classes as [|c classes]; [done|]. intros H. exfalso. revert H.
  unfold statusFor. destruct (existsb _ _) eqn:He; [done|].
  case_bool_decide as Hev; [done|]. case_bool_decide as Hge; [by destruct k|].
  exfalso. apply not_true_iff_false in He. apply He, existsb_exists.
  specialize (Hk c ltac:(constructor)). exists c. split; [by left|]. apply bool_decide_eq_true.
  assert (c ≠ "evidence") by (intros ->; apply Hev; constructor).
  assert (c ≠ "geometry") by (intros ->; apply Hge; constructor).
  rewrite !elem_of_cons in *. tauto.
Qed.

Lemma classes_known b h g : known_groups g →
  ∀ class, class ∈ (fieldChanges number_text b h g).1 → class ∈ ["topology"; "semantic"; "scope"; "evidence"; "geometry"].
Proof. intros Hg class (names & field & H & _)%elem_of_classes. by apply (Hg class names). Qed.

Lemma classes_nil b h g :
  (fieldChanges number_text b h g).1 = [] ↔ ¬ ∃ field, field ∈ tracked g ∧ differ b h field.
Proof.
  unfold tracked. setoid_rewrite list_elem_of_join. setoid_rewrite list_elem_of_fmap. split.
  - intros E (field & (l & Hf & ([c names] & -> & Hg)) & Hd). cbn in Hf.
    apply (not_elem_of_nil c). rewrite <-E. apply elem_of_classes. eauto.
  - intros Hn. apply elem_of_nil_inv. intros c (names & field & Hg & Hf & Hd)%elem_of_classes.
    apply Hn. exists field. split; [|done]. exists names. split; [done|]. by exists (c, names).
Qed.

(** The body of the loop reports what there is to report of an identifier. *)
Lemma compare_entity_reports base head k g describe id : known_groups g →
  is_Some (base !! id) ∨ is_Some (head !! id) →
  (reported base head g id ∧ ∃ c, compare_entity number_text base head k g describe id = [c] ∧ reports_change base head k g describe id c) ∨
  (¬ reported base head g id ∧ compare_entity number_text base head k g describe id = []).
Proof.
  intros Hg Hin. unfold compare_entity, reported, reports_change.
  destruct (base !! id) as [b|], (head !! id) as [h|].
  - destruct (fieldChanges number_text b h g) as [classes names] eqn:E.
    pose proof (statusFor_same classes k) as Hs. pose proof (classes_known b h g Hg) as Hk. rewrite E in Hk.
    specialize (Hs Hk). pose proof (classes_nil b h g) as Hn. rewrite E in Hn. cbn in Hn.
    case_bool_decide as Hsame.
    + right. split; [|done]. by apply Hn, Hs.
    + left. split.
      { destruct (decide (classes = [])) as [->|Hne]; [by destruct Hsame; apply Hs|].
        destruct classes as [|c classes]; [done|]. pose proof (elem_of_classes b h g c) as Hc. rewrite E in Hc.
        destruct (proj1 Hc ltac:(constructor)) as (ns & field & Hgi & Hf & Hd). exists field. split; [|done].
        unfold tracked. apply list_elem_of_join. exists ns. split; [done|]. apply list_elem_of_fmap. by exists (c, ns). }
      eexists. split; [done|]. cbn. split; [done|]. split; [|split].
      * pose proof (statusFor_compared classes k) as Hc. rewrite !not_elem_of_cons in *. tauto.
      * intros c. pose proof (elem_of_classes b h g c) as Hc. by rewrite E in Hc.
      * intros n. pose proof (elem_of_names b h g n) as Hc. by rewrite E in Hc.
  - left. split; [done|]. by eexists.
  - left. split; [done|]. by eexists.
  - by destruct Hin as [[]|[]].
Qed.

Lemma StronglySorted_filter (P : string → Prop) `{!∀ x, Decision (P x)} l :
  StronglySorted text_le l → StronglySorted text_le (filter P l).
Proof.
  induction 1 as [|a l Hl IH Ha]; [constructor|]. rewrite filter_cons. case_decide; [|done].
  constructor; [done|]. apply Forall_forall. intros x [_ Hx]%list_elem_of_filter. by eapply Forall_forall in Ha.
Qed.

Lemma compareEntities_exact base head k g describe : known_groups g →
  exact_changes base head k g describe (compareEntities number_text base head k g describe).
Proof.
  intros Hg. set (P id := compare_entity number_text base head k g describe id ≠ []).
  exists (filter P (all_ids base head)). split; [apply StronglySorted_filter, sorted_keys_sorted|].
  split; [apply NoDup_filter, all_ids_NoDup|]. split.
  - intros id. rewrite list_elem_of_filter, elem_of_all_ids. unfold P. split.
    + intros [Hne Hin]. destruct (compare_entity_reports base head k g describe id Hg Hin) as [[H _]|[_ H]]; [done|].
      by rewrite H in Hne.
    + intros H. assert (is_Some (base !! id) ∨ is_Some (head !! id)) as Hin.
      { unfold reported in H. destruct (base !! id), (head !! id); eauto. done. }
      split; [|done]. destruct (compare_entity_reports base head k g describe id Hg Hin) as [(_ & c & -> & _)|[Hn _]]; done.
  - unfold compareEntities. assert (∀ id, id ∈ all_ids base head → is_Some (base !! id) ∨ is_Some (head !! id)) as Hin.
    { intros id. apply elem_of_all_ids. }
    induction (all_ids base head) as [|id ids IH]; [constructor|]. rewrite filter_cons.
    change (mjoin (map (compare_entity number_text base head k g describe) (id :: ids))) with
      (compare_entity number_text base head k g describe id ++
       mjoin (map (compare_entity number_text base head k g describe) ids)).
    specialize (IH ltac:(intros; apply Hin; by constructor)).
    destruct (compare_entity_reports base head k g describe id Hg (Hin id ltac:(constructor))) as [(_ & c & Hc & Hr)|[_ Hc]].
    + rewrite decide_True by (unfold P; by rewrite Hc). rewrite Hc. by constructor.
    + rewrite decide_False by (unfold P; rewrite Hc; tauto). by rewrite Hc.
Qed.
End Exact.

(** ** Indexes *)

(** An index holds the items of an array, which have distinct keys. *)
Definition indexes (key : jsval → string) (l : list jsval) (index : gmap string jsval) : Prop :=
  NoDup (map key l) ∧ ∀ k item, index !! k = Some item ↔ item ∈ l ∧ key item = k.

(** The keys an index has before the loop are not those of the items. *)
Definition fresh (key : jsval → string) (l : list jsval) (index : gmap string jsval) : Prop :=
  NoDup (map key l) ∧ ∀ item, item ∈ l → index !! key item = None.

Lemma fresh_cons key x l index : fresh key (x :: l) index ↔ index !! key x = None ∧ fresh key l (<[key x := x]> index).
Proof.
  unfold fresh. cbn. rewrite NoDup_cons, list_elem_of_fmap. split.
  - intros [[Hx Hl] Hin]. split; [apply Hin; constructor|]. split; [done|]. intros item Hi.
    rewrite lookup_insert_ne; [apply Hin; by constructor|]. intros E. apply Hx. eauto.
  - intros (Hx & Hl & Hin). split; [split; [|done]|].
    + intros (y & E & Hy). specialize (Hin y Hy). by rewrite <-E, lookup_insert_eq in Hin.
    + intros item [->|Hi]%elem_of_cons; [done|]. specialize (Hin item Hi). by apply lookup_insert_None in Hin as [].
Qed.

Lemma index_step_duplicates key name l index duplicates :
  ∃ more, (foldl (index_step key name) (index, duplicates) l).2 = duplicates ++ more.
Proof.
  revert index duplicates. induction l as [|x l IH]; intros index duplicates; cbn; [exists []; by rewrite app_nil_r|].
  case_bool_decide; [|apply IH]. destruct (IH index (duplicates ++ [name x])) as [more ->].
  exists (name x :: more). by rewrite <-app_assoc.
Qed.

Lemma index_loop key name l index :
  ((foldl (index_step key name) (index, []) l).2 = [] ↔ fresh key l index) ∧
  (fresh key l index → ∀ k item, (foldl (index_step key name) (index, []) l).1 !! k = Some item ↔
    (item ∈ l ∧ key item = k) ∨ index !! k = Some item).
Proof.
  revert index. induction l as [|x l IH]; intros index; cbn.
  - split; [split; [split; [constructor|]|done]; by intros ? ?%not_elem_of_nil|]. intros _ k item.
    split; [auto|]. by intros [[?%not_elem_of_nil ?]|?].
  - rewrite fresh_cons. case_bool_decide as Hk.
    + destruct Hk as [y Hy]. split; [|intros []; congruence].
      destruct (index_step_duplicates key name l index [name x]) as [more ->]. split; [done|]. intros []; congruence.
    + apply eq_None_not_Some in Hk. destruct (IH (<[key x:=x]> index)) as [IH1 IH2]. split; [tauto|].
      intros [_ Hf] k item. rewrite IH2 by done. destruct Hf as [Hnd Hf]. rewrite elem_of_cons. split.
      * intros [[Hi <-]|[[<- <-]|[Hne H]]%lookup_insert_Some]; auto.
      * intros [[[->|Hi] <-]|H]; [right; apply lookup_insert_eq|auto|right].
        rewrite lookup_insert_ne; [done|congruence].
Qed.

(** The loop finds no duplicate exactly when there is an index, and it is its result. *)
Lemma index_loop_indexes key name l index :
  foldl (index_step key name) (∅, []) l = (index, []) ↔ indexes key l index.
Proof.
  destruct (index_loop key name l ∅) as [H1 H2]. split.
  - intros E. rewrite E in *. destruct H1 as [H1 _]. specialize (H2 (H1 eq_refl)). split; [by apply H1|].
    intros k item. rewrite H2, lookup_empty. naive_solver.
  - intros [Hnd Hi]. assert (fresh key l ∅) as Hf by (split; [done|intros; apply lookup_empty]).
    apply H1 in Hf as Hd. specialize (H2 Hf). destruct (foldl _ _ _) as [m ds]. cbn in *. subst ds. f_equal.
    apply map_eq. intros k. apply option_eq. intros x. rewrite H2, Hi, lookup_empty. naive_solver.
Qed.

Lemma missing_ids_nil collection i l : missing_ids collection i l = [] ↔ Forall (λ item, item_id item ≠ "") l.
Proof.
  revert i. induction l as [|x l IH]; intros i; cbn; [done|]. rewrite Forall_cons, <-(IH (i + 1)).
  case_bool_decide; cbn; naive_solver.
Qed.

(** The index of a collection: every item has an identifier of its own. *)
Lemma stableIndex_inr v collection side missingCode index :
  stableIndex v collection side missingCode = inr index ↔
  Forall (λ item, item_id item ≠ "") (items v) ∧ indexes item_id (items v) index.
Proof.
  unfold stableIndex. rewrite <-(missing_ids_nil collection 0), <-(index_loop_indexes item_id item_id). split.
  - destruct (foldl _ _ _) as [m ds] eqn:E. case_bool_decide as Hmiss; cbn; [|done].
    case_bool_decide as Hd; cbn; [|done]. intros [= <-]. split; [done|]. apply missing_ids_nil in Hmiss.
    rewrite filter_all_id in E by by apply Forall_forall. congruence.
  - intros [Hm Hi]. rewrite filter_all_id by by apply Forall_forall; apply missing_ids_nil in Hm. by rewrite Hi, Hm.
Qed.

Lemma boundaryIndex_inr v side index : boundaryIndex v side = inr index ↔ indexes boundaryKey (items v) index.
Proof.
  unfold boundaryIndex. rewrite <-(index_loop_indexes boundaryKey boundary_name).
  destruct (foldl _ _ _) as [m ds]. case_bool_decide as Hd; cbn; split; congruence.
Qed.

(** ** Comparisons that succeed *)
Section Comparison.
Context (number_text : binary64 → string).
Context (new_URL : string → option url) (decodeURIComponent : string → option string)
        (encodeURIComponent : string → string).
Notation compareArchitecture := (compareArchitecture number_text new_URL decodeURIComponent encodeURIComponent).
Notation compare_indexed := (compare_indexed number_text new_URL decodeURIComponent encodeURIComponent).

(** The three indexes of a snapshot. *)
Record indexed (d : jsval) (side : string) (comps conns bounds : gmap string jsval) : Prop := {
  ix_shape : requireComparableShape d side = None;
  ix_components : stableIndex (prop d "components") "components" side ID_REQUIRED = inr comps;
  ix_connections : stableIndex (prop d "connections") "connections" side RELATIONSHIP_ID_REQUIRED = inr conns;
  ix_boundaries : boundaryIndex (prop d "boundaries") side = inr bounds
}.

Lemma compareArchitecture_inr base head evb evh d :
  compareArchitecture base head evb evh = inr d ↔
  ∃ bc hc bn hn bb hb, indexed base "base" bc bn bb ∧ indexed head "head" hc hn hb ∧
    (∃ id, is_Some (bc !! id) ∧ is_Some (hc !! id)) ∧ compare_indexed base head evb evh bc hc bn hn bb hb = inr d.
Proof.
  assert (∀ bc hc : gmap string jsval, filter (λ id, is_Some (hc !! id)) (elements (dom bc : gset string)) ≠ [] ↔
    ∃ id, is_Some (bc !! id) ∧ is_Some (hc !! id)) as Hshared.
  { intros bc hc. split.
    - destruct (filter _ _) as [|id l] eqn:E; [done|]. intros _. exists id.
      assert (id ∈ id :: l) as Hid by constructor. rewrite <-E in Hid.
      by apply list_elem_of_filter in Hid as [? ?%elem_of_elements%elem_of_dom].
    - intros (id & Hb & Hh) E. apply (not_elem_of_nil id). rewrite <-E. apply list_elem_of_filter.
      by rewrite elem_of_elements, elem_of_dom. }
  unfold ArchitectureDelta.compareArchitecture. split.
  - destruct (requireComparableShape base "base") eqn:?; [done|].
    destruct (requireComparableShape head "head") eqn:?; [done|].
    destruct (stableIndex (prop base "components") _ _ _) as [|bc] eqn:?; [done|].
    destruct (stableIndex (prop head "components") _ _ _) as [|hc] eqn:?; [done|]. case_bool_decide as Hs; [done|].
    destruct (stableIndex (prop base "connections") _ _ _) as [|bn] eqn:?; [done|].
    destruct (stableIndex (prop head "connections") _ _ _) as [|hn] eqn:?; [done|].
    destruct (boundaryIndex (prop base _) _) as [|bb] eqn:?; [done|].
    destruct (boundaryIndex (prop head _) _) as [|hb] eqn:?; [done|].
    intros H. exists bc, hc, bn, hn, bb, hb. split; [done|]. split; [done|]. split; [by apply Hshared|done].
  - intros (bc & hc & bn & hn & bb & hb & [-> -> -> ->] & [-> -> -> ->] & Hs%Hshared & H).
    by rewrite bool_decide_false.
Qed.

Lemma compare_indexed_inr base head evb evh bc hc bn hn bb hb d :
  compare_indexed base head evb evh bc hc bn hn bb hb = inr d →
  component_changes d = compareEntities number_text bc hc Component COMPONENT_FIELDS describe_component ∧
  connection_changes d = compareEntities number_text bn hn Connection CONNECTION_FIELDS describe_connection ∧
  boundary_changes d = compareEntities number_text bb hb Boundary BOUNDARY_FIELDS describe_boundary ∧
  components_summary d = summaryFor (component_changes d) COMPONENT_SHAPE ∧
  connections_summary d = summaryFor (connection_changes d) CONNECTION_SHAPE ∧
  boundaries_summary d = summaryFor (boundary_changes d) BOUNDARY_SHAPE.
Proof. unfold ArchitectureDelta.compare_indexed. destruct (same_repository _ _ _ _ _); [done|]. by intros [= <-]. Qed.

(** How many changes have a status. *)
Definition count_key (changes : list change) (key : string) : Z :=
  Z.of_nat (length (filter (λ c, status_key (change_status c) = key) changes)).

Lemma summaryFor_counts changes shape : summaryFor changes shape = map (λ key, (key, count_key changes key)) shape.
Proof.
  unfold summaryFor. change (map (λ key, (key, 0)) shape) with (map (λ key, (key, count_key [] key)) shape).
  assert (∀ done_, foldl (λ summary c, bump_key summary (status_key (change_status c)))
    (map (λ key, (key, count_key done_ key)) shape) changes = map (λ key, (key, count_key (done_ ++ changes) key)) shape)
    as H; [|apply (H [])].
  induction changes as [|c changes IH]; intros done_; [by rewrite app_nil_r|].
  cbn [foldl]. replace (done_ ++ c :: changes) with ((done_ ++ [c]) ++ changes) by (by rewrite <-app_assoc).
  rewrite <-IH. f_equal. unfold bump_key. rewrite map_map. apply map_ext. intros key. cbn [fst snd].
  unfold count_key. rewrite filter_app, length_app, filter_cons, filter_nil.
  case_bool_decide as Hk; subst.
  - rewrite decide_True by done. cbn. f_equal. lia.
  - rewrite decide_False by congruence. cbn. f_equal. lia.
Qed.

Lemma component_groups : known_groups COMPONENT_FIELDS.
Proof. intros class names H. unfold COMPONENT_FIELDS in H. set_solver. Qed.
Lemma connection_groups : known_groups CONNECTION_FIELDS.
Proof. intros class names H. unfold CONNECTION_FIELDS in H. set_solver. Qed.
Lemma boundary_groups : known_groups BOUNDARY_FIELDS.
Proof. intros class names H. unfold BOUNDARY_FIELDS in H. set_solver. Qed.

(** C19: a comparison that succeeds is complete and exact: the changes of each
    collection are, in the order of the identifiers and each once, those of the
    identifiers that only one snapshot has and of those with a tracked field
    whose canonical text differs, with the classes and the fields that differ;
    the summary counts them. *)
Theorem compareArchitecture_exact (base head : jsval) (evb evh : side_evidence) (d : delta) :
  compareArchitecture base head evb evh = inr d →
  ∃ bc hc bn hn bb hb,
    indexes item_id (items (prop base "components")) bc ∧ indexes item_id (items (prop head "components")) hc ∧
    indexes item_id (items (prop base "connections")) bn ∧ indexes item_id (items (prop head "connections")) hn ∧
    indexes boundaryKey (items (prop base "boundaries")) bb ∧ indexes boundaryKey (items (prop head "boundaries")) hb ∧
    exact_changes number_text bc hc Component COMPONENT_FIELDS describe_component (component_changes d) ∧
    exact_changes number_text bn hn Connection CONNECTION_FIELDS describe_connection (connection_changes d) ∧
    exact_changes number_text bb hb Boundary BOUNDARY_FIELDS describe_boundary (boundary_changes d) ∧
    components_summary d = map (λ key, (key, count_key (component_changes d) key)) COMPONENT_SHAPE ∧
    connections_summary d = map (λ key, (key, count_key (connection_changes d) key)) CONNECTION_SHAPE ∧
    boundaries_summary d = map (λ key, (key, count_key (boundary_changes d) key)) BOUNDARY_SHAPE.
Proof.
  intros (bc & hc & bn & hn & bb & hb & [_ [_ B1]%stableIndex_inr [_ B2]%stableIndex_inr B3%boundaryIndex_inr] &
    [_ [_ H1]%stableIndex_inr [_ H2]%stableIndex_inr H3%boundaryIndex_inr] & _ & H)%compareArchitecture_inr.
  apply compare_indexed_inr in H as (-> & -> & -> & -> & -> & ->). exists bc, hc, bn, hn, bb, hb.
  split_and!; try done; try apply summaryFor_counts;
    apply compareEntities_exact; auto using component_groups, connection_groups, boundary_groups.
Qed.

(** ** Swapping the snapshots *)
Definition swap (s : status) : status :=
  match s with Added => Removed | Removed => Added | _ => s end.

Definition mirrored (c c' : change) : Prop :=
  change_status c' = swap (change_status c) ∧ classifications c' = classifications c ∧ changedFields c' = changedFields c.

Lemma equal_comm a b : equal number_text a b = equal number_text b a.
Proof. unfold equal. apply bool_decide_ext. split; congruence. Qed.

Lemma fieldChanges_comm b h g : fieldChanges number_text b h g = fieldChanges number_text h b g.
Proof.
  unfold fieldChanges. assert (map (λ kf, (kf.1, changed_in number_text b h kf.2)) g =
    map (λ kf, (kf.1, changed_in number_text h b kf.2)) g) as ->; [|done].
  apply map_ext. intros [c names]. cbn. f_equal. unfold changed_in. apply list_filter_iff.
  intros field. by rewrite equal_comm.
Qed.

Lemma swap_compared classes k : swap (statusFor classes k) = statusFor classes k.
Proof. pose proof (statusFor_compared classes k) as H. destruct (statusFor classes k); set_solver. Qed.

Lemma compare_entity_mirrored base head k g describe id : is_Some (base !! id) ∨ is_Some (head !! id) →
  Forall2 mirrored (compare_entity number_text base head k g describe id)
                   (compare_entity number_text head base k g describe id).
Proof.
  intros Hin. unfold compare_entity. destruct (base !! id) as [b|], (head !! id) as [h|].
  - rewrite (fieldChanges_comm h b). destruct (fieldChanges _ b h g) as [classes names].
    case_bool_decide; constructor; [|done]. split; [|done]. cbn. by rewrite swap_compared.
  - by repeat constructor.
  - by repeat constructor.
  - by destruct Hin as [[]|[]].
Qed.

Lemma compareEntities_mirrored base head k g describe :
  Forall2 mirrored (compareEntities number_text base head k g describe) (compareEntities number_text head base k g describe).
Proof.
  unfold compareEntities. rewrite (all_ids_comm head base).
  assert (∀ id, id ∈ all_ids base head → is_Some (base !! id) ∨ is_Some (head !! id)) as Hin
    by (intros id; apply elem_of_all_ids).
  induction (all_ids base head) as [|id ids IH]; [constructor|].
  apply (Forall2_app (l1 := compare_entity number_text base head k g describe id)
                     (l1' := compare_entity number_text head base k g describe id)).
  - apply compare_entity_mirrored, Hin. constructor.
  - apply IH. intros id' Hid. apply Hin. by constructor.
Qed.

Lemma indexed_side d s s' c n b : indexed d s c n b → indexed d s' c n b.
Proof.
  intros [Hs Hc%stableIndex_inr Hn%stableIndex_inr Hb%boundaryIndex_inr]. split;
    [|by apply stableIndex_inr..|by apply boundaryIndex_inr].
  revert Hs. unfold requireComparableShape. by repeat case_match.
Qed.

Lemma same_repository_comm b h :
  same_repository new_URL decodeURIComponent encodeURIComponent b h = None →
  same_repository new_URL decodeURIComponent encodeURIComponent h b = None.
Proof. destruct b, h; cbn; try done. case_bool_decide; [|done]. by rewrite bool_decide_true. Qed.

Lemma proof_level_comm b h evb evh : proof_level b h evb evh = proof_level h b evh evb.
Proof.
  unfold proof_level. rewrite (bool_decide_ext (is_Some b ∧ is_Some h) (is_Some h ∧ is_Some b)) by tauto.
  by destruct (bool_decide _), (ev_verified evb), (ev_verified evh), (HEX_40 (revision_of b)), (HEX_40 (revision_of h)).
Qed.

(** Comparison is symmetric: with the snapshots swapped it succeeds too, what
    was added is removed and conversely, every other change is the same change,
    and the level of proof and the other flags are the same. *)
Theorem compareArchitecture_mirror (base head : jsval) (evb evh : side_evidence) (d : delta) :
  compareArchitecture base head evb evh = inr d →
  ∃ d', compareArchitecture head base evh evb = inr d' ∧
    Forall2 mirrored (component_changes d) (component_changes d') ∧
    Forall2 mirrored (connection_changes d) (connection_changes d') ∧
    Forall2 mirrored (boundary_changes d) (boundary_changes d') ∧
    base_side d' = head_side d ∧ head_side d' = base_side d ∧ proofLevel d' = proofLevel d ∧
    presentationChanged_ d' = presentationChanged_ d ∧ provenanceChanged d' = provenanceChanged d.
Proof.
  intros (bc & hc & bn & hn & bb & hb & Hb & Hh & (id & Hid1 & Hid2) & H)%compareArchitecture_inr.
  unfold ArchitectureDelta.compare_indexed in H. destruct (same_repository _ _ _ _ _) eqn:Hr; [done|].
  injection H as <-. eexists. split.
  - apply compareArchitecture_inr. exists hc, bc, hn, bn, hb, bb. split; [by eapply indexed_side|].
    split; [by eapply indexed_side|]. split; [by exists id|]. unfold ArchitectureDelta.compare_indexed.
    apply same_repository_comm in Hr. by rewrite Hr.
  - cbn [component_changes connection_changes boundary_changes base_side head_side proofLevel presentationChanged_ provenanceChanged].
    split_and!; try apply compareEntities_mirrored; try done; [apply proof_level_comm|..];
      unfold presentationChanged; by rewrite equal_comm.
Qed.

(** ** The order of the collections *)

(** Two snapshots that differ in the order of their collections at most. *)
Definition reordered (d d' : jsval) : Prop :=
  (∀ name, name ∉ ["components"; "connections"; "boundaries"] → prop d name = prop d' name) ∧
  (∀ name, name ∈ ["components"; "connections"; "boundaries"] → items (prop d name) ≡ₚ items (prop d' name)).

Lemma indexes_proper key l l' index : l ≡ₚ l' → indexes key l index → indexes key l' index.
Proof. intros Hl [Hnd Hi]. split; [by rewrite <-Hl|]. intros k item. by rewrite <-Hl. Qed.

Lemma indexed_reordered d d' s c n b : reordered d d' → indexed d s c n b → indexed d' s c n b.
Proof.
  intros [Ho Hp] [Hs [Fc Hc]%stableIndex_inr [Fn Hn]%stableIndex_inr Hb%boundaryIndex_inr].
  assert (items (prop d "components") ≡ₚ items (prop d' "components")) as Pc by (apply Hp; set_solver).
  assert (items (prop d "connections") ≡ₚ items (prop d' "connections")) as Pn by (apply Hp; set_solver).
  assert (items (prop d "boundaries") ≡ₚ items (prop d' "boundaries")) as Pb by (apply Hp; set_solver).
  split.
  - revert Hs. unfold requireComparableShape. rewrite !(Ho "schema_version"), !(Ho "diagram_type"); [done|set_solver..].
  - apply stableIndex_inr. rewrite <-Pc at 1. eauto using indexes_proper.
  - apply stableIndex_inr. rewrite <-Pn at 1. eauto using indexes_proper.
  - apply boundaryIndex_inr. eauto using indexes_proper.
Qed.

(** The order in which components, connections and boundaries are written
    does not matter: the same comparison, with the same changes in the same
    order, is made of snapshots that differ in it. *)
Theorem compareArchitecture_reordered (base base' head head' : jsval) (evb evh : side_evidence) (d : delta) :
  reordered base base' → reordered head head' →
  compareArchitecture base head evb evh = inr d → compareArchitecture base' head' evb evh = inr d.
Proof.
  intros Rb Rh (bc & hc & bn & hn & bb & hb & Hb & Hh & Hs & H)%compareArchitecture_inr.
  apply compareArchitecture_inr. exists bc, hc, bn, hn, bb, hb.
  split; [by eapply indexed_reordered|]. split; [by eapply indexed_reordered|]. split; [done|].
  rewrite <-H. destruct Rb as [Rb _], Rh as [Rh _].
  unfold ArchitectureDelta.compare_indexed, presentationChanged, presentation, side_report.
  rewrite (Rb "meta"), (Rh "meta"), (Rb "layout"), (Rh "layout"), (Rb "cards"), (Rh "cards"); [done|set_solver..].
Qed.
End Comparison.

(** ** Samples *)
Definition sample_component (id label : string) (more : list (string * jsval)) : jsval :=
  JObject ([("id", JString id); ("type", JString "backend"); ("label", JString label)] ++ more).
Definition sample_link (id from to : string) : jsval :=
  JObject [("id", JString id); ("from", JString from); ("to", JString to)].
Definition sample_diagram (components connections boundaries : list jsval) : jsval := JObject
  [("schema_version", JNumber (nof 1)); ("diagram_type", JString "architecture");
   ("meta", JObject [("title", JString "Sample")]); ("components", JArray components);
   ("connections", JArray connections); ("boundaries", JArray boundaries)].
Definition no_evidence : side_evidence :=
  {| ev_rawSha256 := None; ev_semanticSha256 := None; ev_bytes := None; ev_verified := false |}.

Definition sample_boundary (wraps : list string) : jsval :=
  JObject [("kind", JString "region"); ("label", JString "EU"); ("wraps", texts wraps)].
Definition pos (x y : Z) : string * jsval := ("pos", JArray [JNumber (nof x); JNumber (nof y)]).

Definition sample_base : jsval := sample_diagram
  [sample_component "web" "Web" []; sample_component "api" "API" [pos 0 0]; sample_component "cache" "Cache" []]
  [sample_link "web-api" "web" "api"; sample_link "api-cache" "api" "cache"] [sample_boundary ["web"; "api"]].
Definition sample_head : jsval := sample_diagram
  [sample_component "queue" "Queue" []; sample_component "api" "API" [pos 0 1]; sample_component "web" "Site" []]
  [sample_link "web-api" "web" "queue"] [sample_boundary ["api"; "web"]].

(** The decimal text of the numbers of the samples. *)
Definition sample_text (x : binary64) : string := if nle (nof 1) x then "1" else "0".
Definition sample_compare (base head : jsval) : delta_error + delta :=
  compareArchitecture sample_text (λ _, None) Some id base head no_evidence no_evidence.

Definition sample_outcome (r : delta_error + delta) : string + (list (string * status * list string) * list status * list change) :=
  match r with
  | inl e => inl (delta_code e)
  | inr d => inr (map (λ c, (string_or_empty (js_get (described c) "id"), change_status c, changedFields c)) (component_changes d),
                  map change_status (connection_changes d), boundary_changes d)
  end.

Example sample_compared : sample_outcome (sample_compare sample_base sample_head) =
  inr ([("api", Moved, ["/pos"]); ("cache", Removed, []); ("queue", Added, []); ("web", Changed, ["/label"])],
       [Removed; Changed], []).
Proof. vm_compute. reflexivity. Qed.

Example sample_unrelated : sample_outcome (sample_compare sample_base (sample_diagram [sample_component "x" "X" []] [] [])) =
  inl "delta/no-shared-component-id".
Proof. vm_compute. reflexivity. Qed.

(** The mark of a component is in the schema and in no list of fields: changing
    it is not a change of any kind. *)
Definition branded (mark : string) : jsval :=
  sample_diagram [sample_component "web" "Web" [("brand", JString mark)]] [] [].
Lemma brand_unreported :
  canonicalArchitectureJson sample_text (λ _, None) Some id (branded "nginx") ≠
  canonicalArchitectureJson sample_text (λ _, None) Some id (branded "caddy") ∧
  ∃ d, sample_compare (branded "nginx") (branded "caddy") = inr d ∧
    component_changes d = [] ∧ presentationChanged_ d = false.
Proof. split; [vm_compute; discriminate|]. eexists. split; [vm_compute; reflexivity|]. split; reflexivity. Qed.

Lemma compareArchitecture_exact_witness :
  ∃ d bc hc, sample_compare sample_base sample_head = inr d ∧
    exact_changes sample_text bc hc Component COMPONENT_FIELDS describe_component (component_changes d) ∧
    map change_status (component_changes d) = [Moved; Removed; Added; Changed].
Proof.
  assert (∃ d, sample_compare sample_base sample_head = inr d ∧
    map change_status (component_changes d) = [Moved; Removed; Added; Changed]) as (d & H & Hs)
    by (eexists; split; [vm_compute; reflexivity|reflexivity]).
  destruct (compareArchitecture_exact _ _ _ _ _ _ _ _ _ H) as (bc & hc & _ & _ & _ & _ & _ & _ & _ & _ & _ & _ & He & _).
  exists d, bc, hc. split; [exact H|]. split; [exact He|exact Hs].
Defined.

Lemma compareArchitecture_mirror_witness :
  ∃ d d', sample_compare sample_base sample_head = inr d ∧ sample_compare sample_head sample_base = inr d' ∧
    Forall2 mirrored (component_changes d) (component_changes d') ∧ component_changes d ≠ [].
Proof.
  assert (∃ d, sample_compare sample_base sample_head = inr d ∧ component_changes d ≠ []) as (d & H & Hs)
    by (eexists; split; [vm_compute; reflexivity|discriminate]).
  destruct (compareArchitecture_mirror _ _ _ _ _ _ _ _ _ H) as (d' & H' & Hm & _).
  exists d, d'. split; [exact H|]. split; [exact H'|]. split; [exact Hm|exact Hs].
Defined.

(** The head with its components and connections the other way around. *)
Definition sample_head' : jsval := sample_diagram
  [sample_component "web" "Site" []; sample_component "queue" "Queue" []; sample_component "api" "API" [pos 0 1]]
  [sample_link "web-api" "web" "queue"] [sample_boundary ["api"; "web"]].

Lemma sample_reordered : reordered sample_head sample_head'.
Proof.
  split.
  - intros name Hn. rewrite !not_elem_of_cons in Hn. destruct Hn as (H1 & H2 & H3 & _).
    unfold sample_head, sample_head', sample_diagram, prop, js_get. cbn.
    repeat (case_decide; [done || congruence|]). repeat case_match; done || congruence.
  - intros name Hn. repeat (apply elem_of_cons in Hn as [->|Hn]); [..|by apply not_elem_of_nil in Hn]; try done.
    symmetry. apply (Permutation_cons_append [_; _]).
Qed.

Lemma compareArchitecture_reordered_witness :
  ∃ d, sample_compare sample_base sample_head = inr d ∧ sample_compare sample_base sample_head' = inr d.
Proof.
  assert (∃ d, sample_compare sample_base sample_head = inr d) as (d & H) by (eexists; vm_compute; reflexivity).
  exists d. split; [exact H|].
  apply (compareArchitecture_reordered _ _ _ _ sample_base sample_base sample_head sample_head');
    [by split|apply sample_reordered|exact H].
Defined.
