(* ===== verification/Concurrency.v ===== *)
(** * Concurrent programs

    Programs as trees of atomic commands, their interleavings under a schedule,
    and a rely-guarantee logic for them: what a process proves of its own
    program under any interference of the others holds of every schedule. *)

From S2P Require Import Prelude.

(** ** Programs *)
Section Programs.
Context {cmd : Type} {reply : cmd → Type} {err : Type}.

(** A program returns, throws, exhausts the bound of a loop, or does a command
    and goes on with its reply. *)
Inductive prog (A : Type) : Type :=
  | Ret (a : A)
  | Raise (e : err)
  | Stuck
  | Act (c : cmd) (k : reply c → prog A).
Arguments Ret {_} _.
Arguments Raise {_} _.
Arguments Stuck {_}.
Arguments Act {_} _ _.

Fixpoint prog_bind {A B} (f : A → prog B) (p : prog A) : prog B :=
  match p with
  | Ret a => f a
  | Raise e => Raise e
  | Stuck => Stuck
  | Act c k => Act c (λ r, prog_bind f (k r))
  end.

(** [try { p } catch (e) { h(e) }] *)
Fixpoint prog_catch {A} (p : prog A) (h : err → prog A) : prog A :=
  match p with
  | Ret a => Ret a
  | Raise e => h e
  | Stuck => Stuck
  | Act c k => Act c (λ r, prog_catch (k r) h)
  end.

#[global] Instance prog_ret : MRet prog := @Ret.
#[global] Instance prog_mbind : MBind prog := @prog_bind.

Definition do_ (c : cmd) : prog (reply c) := Act c Ret.
End Programs.
Arguments prog {_} _ _ _.
Arguments Ret {_ _ _ _} _.
Arguments Raise {_ _ _ _} _.
Arguments Stuck {_ _ _ _}.
Arguments Act {_ _ _ _} _ _.

(** ** Interleavings *)
Section Interleavings.
Context {cmd : Type} {reply : cmd → Type} {err St Loc A : Type}.
(** A command, with an answer of the environment, on the state of the process
    and the shared state. *)
Context (exec : ∀ c : cmd, bool → Loc → St → reply c * Loc * St).
Notation prog := (prog reply err A).

Record process_state := { p_local : Loc; p_prog : prog }.

Definition step_process (b : bool) (p : process_state) (s : St) : process_state * St :=
  match p_prog p with
  | Act c k =>
      let '(r, l, s') := exec c b (p_local p) s in ({| p_local := l; p_prog := k r |}, s')
  | _ => (p, s)
  end.

(** The processes and the shared state; the process that is scheduled and the
    answer it gets. *)
Definition system : Type := list process_state * St.
Definition step_system (sys : system) (event : nat * bool) : system :=
  match sys.1 !! event.1 with
  | Some p => let '(p', s') := step_process event.2 p sys.2 in (<[event.1 := p']> sys.1, s')
  | None => sys
  end.
Definition run_system (schedule : list (nat * bool)) (sys : system) : system := foldl step_system sys schedule.

(** ** Rely-guarantee *)
Context {Gh : Type}.
Notation state := (St * Gh)%type.
Notation assn := (state → Prop).
Context (Inv : assn) (guar : nat → state → state → Prop).

(** What the others may do to a state. *)
Definition rely (i : nat) (x y : state) : Prop := ∃ j, j ≠ i ∧ guar j x y ∧ Inv y.
Definition stable (i : nat) (P : assn) : Prop := ∀ x y, P x → rely i x y → P y.
End Interleavings.
Arguments process_state {_} _ _ _ _.
Arguments system {_} _ _ _ _ _.

Section Logic.
Context {cmd : Type} {reply : cmd → Type} {err St Loc : Type}.
Context (exec : ∀ c : cmd, bool → Loc → St → reply c * Loc * St).
Context {Gh : Type}.
Notation state := (St * Gh)%type.
Notation assn := (state → Prop).
Context (Inv : assn) (guar : nat → state → state → Prop).
Notation rely := (rely Inv guar).
Notation stable := (stable Inv guar).

(** Every command keeps the invariant and the guarantee, for some ghost state,
    whatever happened before it; the end satisfies [Q], or [E] if it throws. *)
Fixpoint rg {A} (i : nat) (p : prog reply err A) (Q : A → assn) (E : err → assn) (x : state) : Prop :=
  match p with
  | Ret a => ∀ y, rtc (rely i) x y → Inv y → Q a y
  | Raise e => ∀ y, rtc (rely i) x y → Inv y → E e y
  | Stuck => True
  | Act c k => ∀ y, rtc (rely i) x y → Inv y → ∀ b l,
      let '(r, _, s) := exec c b l y.1 in
      ∃ g, Inv (s, g) ∧ guar i y (s, g) ∧ rg i (k r) Q E (s, g)
  end.

Lemma rg_rely {A} i (p : prog reply err A) Q E x y : rtc (rely i) x y → rg i p Q E x → rg i p Q E y.
Proof. intros Hxy. destruct p; cbn; [..|done|]; intros H z Hz; apply H; by etrans. Qed.

(** A command of the goal is that of the hypothesis. *)
Ltac same_act H :=
  let y := fresh "y" in let Hy := fresh "Hy" in let Hi := fresh "Hi" in
  intros y Hy Hi b l; specialize (H y Hy Hi b l); destruct (exec _ b l y.1) as [[? ?] ?];
  destruct H as (g & ? & ? & H); exists g; split_and!; [done|done|].

Lemma rg_mono {A} i (p : prog reply err A) (Q Q' : A → assn) (E E' : err → assn) x :
  (∀ a y, Inv y → Q a y → Q' a y) → (∀ e y, Inv y → E e y → E' e y) → rg i p Q E x → rg i p Q' E' x.
Proof.
  intros HQ HE. revert x. induction p as [a|e| |c k IH]; intros x; cbn; [by eauto..|done|].
  intros H. same_act H. eauto.
Qed.

Lemma rg_bind {A B} i (p : prog reply err A) (f : A → prog reply err B) Q E x :
  rg i p (λ a y, rg i (f a) Q E y) E x → rg i (p ≫= f) Q E x.
Proof.
  revert x. induction p as [a|e| |c k IH]; intros x.
  - cbn. intros H. destruct (f a) eqn:Hf; [| |done|]; cbn; intros y Hy Hi; specialize (H y Hy Hi); cbn in H; by apply H.
  - done.
  - done.
  - cbn. intros H. same_act H. by apply IH.
Qed.

Lemma rg_catch {A} i (p : prog reply err A) (h : err → prog reply err A) Q E x :
  rg i p Q (λ e y, rg i (h e) Q E y) x → rg i (prog_catch p h) Q E x.
Proof.
  revert x. induction p as [a|e| |c k IH]; intros x.
  - done.
  - cbn. intros H. destruct (h e) eqn:Hf; [| |done|]; cbn; intros y Hy Hi; specialize (H y Hy Hi); cbn in H; by apply H.
  - done.
  - cbn. intros H. same_act H. by apply IH.
Qed.

Lemma stable_rtc i (P : assn) x y : stable i P → P x → rtc (rely i) x y → P y.
Proof. intros HP Hx. induction 1 as [|x y z Hxy _ IH]; [done|]. by eapply IH, HP. Qed.

Lemma rg_ret {A} i (a : A) Q (E : err → assn) x : stable i (Q a) → Q a x → rg i (Ret a : prog reply err A) Q E x.
Proof. intros HQ Hx y Hy _. by eapply stable_rtc. Qed.

Lemma rg_raise {A} i (e : err) (Q : A → assn) (E : err → assn) x : stable i (E e) → E e x → rg i (Raise e : prog reply err A) Q E x.
Proof. intros HE Hx y Hy _. by eapply stable_rtc. Qed.

(** One command from a stable assertion. *)
Lemma rg_do i c (P : assn) (Q : reply c → assn) (E : err → assn) x : stable i P → (∀ r, stable i (Q r)) → P x →
  (∀ y, P y → Inv y → ∀ b l, let '(r, _, s) := exec c b l y.1 in ∃ g, Inv (s, g) ∧ guar i y (s, g) ∧ Q r (s, g)) →
  rg i (do_ c : prog reply err (reply c)) Q E x.
Proof.
  intros HP HQ Hx H y Hy Hi b l. specialize (H y ltac:(by eapply stable_rtc) Hi b l).
  destruct (exec c b l y.1) as [[r l'] s]. destruct H as (g & H1 & H2 & H3). exists g.
  split; [done|]. split; [done|]. by apply rg_ret.
Qed.

(** ** Soundness *)
Context {A : Type} (Q : nat → A → assn).
Notation process_state := (process_state reply err Loc A).

Definition pool_ok (ps : list process_state) (x : state) : Prop :=
  Inv x ∧ ∀ i p, ps !! i = Some p → rg i (p_prog p) (Q i) (λ _ _, True) x.

Lemma step_system_ok ps s event g : pool_ok ps (s, g) →
  ∃ g', let '(ps', s') := step_system exec (ps, s) event in
        pool_ok ps' (s', g') ∧ ((s', g') = (s, g) ∨ guar event.1 (s, g) (s', g')).
Proof.
  intros [Hi Hp]. unfold step_system. destruct event as [j b]. cbn [fst snd].
  destruct (ps !! j) as [p|] eqn:Hj; [|exists g; split; [done|by left]].
  pose proof (Hp j p Hj) as Hwp. unfold step_process.
  destruct (p_prog p) as [a|e| |c k] eqn:Hprog.
  1-3: (exists g; rewrite list_insert_id by done; split; [done|by left]).
  specialize (Hwp (s, g) ltac:(done) Hi b (p_local p)). cbn [fst] in Hwp.
  destruct (exec c b (p_local p) s) as [[r l] s']. destruct Hwp as (g' & Hi' & Hg & Hk). exists g'.
  split; [|by right]. split; [done|]. intros i q Hq. destruct (decide (i = j)) as [->|Hne].
  - rewrite list_lookup_insert_eq in Hq by (by eapply lookup_lt_Some). by injection Hq as <-.
  - rewrite list_lookup_insert_ne in Hq by done. eapply rg_rely; [|by apply Hp].
    apply rtc_once. exists j. done.
Qed.

(** The state goes from one to the next as the guarantees say. *)
Lemma run_system_ok schedule ps s g : pool_ok ps (s, g) →
  ∃ g', let '(ps', s') := run_system exec schedule (ps, s) in
        pool_ok ps' (s', g') ∧ rtc (λ x y, ∃ j, guar j x y) (s, g) (s', g').
Proof.
  revert ps s g. induction schedule as [|event schedule IH]; intros ps s g H; [by exists g|].
  apply (step_system_ok _ _ event) in H as [g' H]. cbn. destruct (step_system exec (ps, s) event) as [ps' s'].
  destruct H as [Hp Hs]. apply (IH ps') in Hp as [g'' Hr]. exists g''. destruct (foldl _ _ _) as [ps'' s''] eqn:E.
  unfold run_system in Hr. rewrite E in Hr. destruct Hr as [Hp' Hr]. split; [done|].
  destruct Hs as [Hs|Hs]; [by rewrite <-Hs|]. eapply rtc_l; [|exact Hr]. by exists event.1.
Qed.
End Logic.
