(* ===== verification/CacheFiles.v ===== *)
(** * The cache directory of the update check ([src/.agents/skills/archify/scripts/check-update.mjs])

    The directory that several processes share, the calls a process makes on it,
    each an atomic command, and the guards the source puts around them.

    The entries are those the source makes, of the kind it makes them (a
    directory of plain files), with an identity that a rename keeps.  Creating a
    file and writing its text is one command, and a text is the value it is
    parsed to.  Whether the directories above the cache are still the same, and
    whether a time is within the lease, is answered by the environment. *)

From stdpp Require Import pretty gmap.
From S2P Require Import Prelude Num JsValue Json Semver Updates RepositoryLocation UpdateCheck Concurrency.
#[local] Open Scope Z_scope.

(** ** Names *)
Inductive operation_kind := KReserved | KPending | KCommitted | KFenced | KCancelled.
#[global] Instance operation_kind_eq_dec : EqDecision operation_kind.
Proof. solve_decision. Defined.
#[global] Instance operation_kind_countable : Countable operation_kind.
Proof.
  refine (inj_countable' (λ k, match k with KReserved => 0 | KPending => 1 | KCommitted => 2 | KFenced => 3 | KCancelled => 4 end)%nat
    (λ n, match n with 0 => KReserved | 1 => KPending | 2 => KCommitted | 3 => KFenced | _ => KCancelled end)%nat _).
  by intros [].
Defined.

Definition kind_text (k : operation_kind) : string :=
  match k with
  | KReserved => "reserved" | KPending => "pending" | KCommitted => "committed"
  | KFenced => "fenced" | KCancelled => "cancelled"
  end.
Definition kinds : list operation_kind := [KReserved; KPending; KCommitted; KFenced; KCancelled].

Definition MAX_OPERATION_GENERATION : Z := 10 ^ 20 - 1.

Definition ZERO : Ascii.ascii := Ascii.ascii_of_N 48.

(** [s.padStart(width, '0')] *)
Definition padStart0 (width : nat) (s : string) : string :=
  String.concat "" (repeat "0" (width - String.length s)) +:+ s.

Definition generation_text (generation : Z) : string := padStart0 20 (pretty generation).
Definition operationName (kind : string) (generation : Z) : string := kind +:+ "-" +:+ generation_text generation.

Record operation := { op_kind : operation_kind; op_generation : Z }.

(** [/^(reserved|pending|committed|fenced|cancelled)-(\d{1,20})$/] *)
Definition parseOperationName (name : string) : option operation :=
  kind ← find (λ k, starts_with (kind_text k +:+ "-") name) kinds;
  let digits := drop_prefix (kind_text kind +:+ "-") name in
  if bool_decide (1 ≤ String.length digits ≤ 20)%nat && string_forall ascii_digit digits
  then Some {| op_kind := kind; op_generation := decimal_value digits |} else None.

(** The entries of the cache directory besides the operations: the claim that a
    process prepares, the active one, and where claims are moved when they are
    retired or discarded. *)
Inductive claim_entry :=
  | PreparedClaim (generation : Z)
  | ActiveClaim
  | RetiredClaim (key : string)
  | RetiredActive (key : string)             (** the directory [active] in a retired one *)
  | DiscardedClaim (generation : Z) (token : string).
#[global] Instance claim_entry_eq_dec : EqDecision claim_entry.
Proof. solve_decision. Defined.
#[global] Instance claim_entry_countable : Countable claim_entry.
Proof.
  refine (inj_countable' (λ c, match c with
    | PreparedClaim n => (0%nat, n, "") | ActiveClaim => (1%nat, 0, "") | RetiredClaim key => (2%nat, 0, key)
    | RetiredActive key => (3%nat, 0, key) | DiscardedClaim n token => (4%nat, n, token) end)
    (λ '(i, n, s), match i with
    | 0 => PreparedClaim n | 1 => ActiveClaim | 2 => RetiredClaim s | 3 => RetiredActive s
    | _ => DiscardedClaim n s end%nat) _).
  by intros [].
Defined.

(** The name of an entry of the cache directory. *)
Definition claim_name (c : claim_entry) : option string :=
  match c with
  | PreparedClaim n => Some (operationName "claim" n)
  | ActiveClaim => Some "active-claim"
  | RetiredClaim key => Some ("retired-claim-" +:+ key)
  | RetiredActive _ => None
  | DiscardedClaim n token => Some ("discarded-claim-" +:+ generation_text n +:+ "-" +:+ token)
  end.

Inductive cache_entry := OperationDir (kind : operation_kind) (generation : Z) | ClaimDir (c : claim_entry).

(** The files of an entry: [owner.json], [.retirement-guard], the temporary
    file and [state.json]. *)
Inductive cache_file := OwnerFile | GuardFile | TemporaryFile | StateFile.
#[global] Instance cache_file_eq_dec : EqDecision cache_file.
Proof. solve_decision. Defined.
#[global] Instance cache_file_countable : Countable cache_file.
Proof.
  refine (inj_countable' (λ f, match f with OwnerFile => 0 | GuardFile => 1 | TemporaryFile => 2 | StateFile => 3 end)%nat
    (λ n, match n with 0 => OwnerFile | 1 => GuardFile | 2 => TemporaryFile | _ => StateFile end)%nat _).
  by intros [].
Defined.

Inductive cache_target := Dir (e : cache_entry) | File (e : cache_entry) (f : cache_file).

(** ** The directory *)
Record cache_dir := { cd_id : Z; cd_files : gmap cache_file (Z * jsval) }.
Record cache_fs := {
  fs_operations : gmap (operation_kind * Z) cache_dir; fs_claims : gmap claim_entry cache_dir;
  fs_next : Z                                (** the next identity *)
}.

Definition empty_cache : cache_fs := {| fs_operations := ∅; fs_claims := ∅; fs_next := 1 |}.

Definition dir_at (fs : cache_fs) (e : cache_entry) : option cache_dir :=
  match e with
  | OperationDir k n => fs_operations fs !! (k, n)
  | ClaimDir c => fs_claims fs !! c
  end.

Definition set_dir (e : cache_entry) (d : option cache_dir) (fs : cache_fs) : cache_fs :=
  match e with
  | OperationDir k n => {| fs_operations := partial_alter (λ _, d) (k, n) (fs_operations fs);
                           fs_claims := fs_claims fs; fs_next := fs_next fs |}
  | ClaimDir c => {| fs_operations := fs_operations fs;
                     fs_claims := partial_alter (λ _, d) c (fs_claims fs); fs_next := fs_next fs |}
  end.

Definition new_id (fs : cache_fs) : cache_fs :=
  {| fs_operations := fs_operations fs; fs_claims := fs_claims fs; fs_next := fs_next fs + 1 |}.

Definition set_file (f : cache_file) (v : option (Z * jsval)) (d : cache_dir) : cache_dir :=
  {| cd_id := cd_id d; cd_files := partial_alter (λ _, v) f (cd_files d) |}.

Definition file_at (fs : cache_fs) (e : cache_entry) (f : cache_file) : option (Z * jsval) :=
  dir_at fs e ≫= λ d, cd_files d !! f.

(** The names of the directory's entries. *)
Definition entry_names (fs : cache_fs) : list string :=
  ((λ x : operation_kind * Z * cache_dir, operationName (kind_text x.1.1) x.1.2) <$> map_to_list (fs_operations fs)) ++
  omap (λ x : claim_entry * cache_dir, claim_name x.1) (map_to_list (fs_claims fs)).

(** ** Commands *)
Inductive cache_error :=
  | ENOENT | EEXIST | ENOTEMPTY
  | CachePathChangedError | CacheOperationRaceError | OperationFencedError | FileIdentityChangedError
  | OtherError.
#[global] Instance cache_error_eq_dec : EqDecision cache_error.
Proof. solve_decision. Defined.

(** Calls that change the directory and give nothing. *)
Inductive mutation :=
  | Mkdir (e : cache_entry)
  | RenameDir (source destination : cache_entry)
  | RenameFile (e : cache_entry) (source destination : cache_file)
  | Remove (e : cache_entry) (f : cache_file).

Inductive cache_command :=
  | Prepare                                  (** make and check the directories of the cache *)
  | Token                                    (** whether the process has a token, and trusts it *)
  | Distrust
  | Ancestors                                (** whether the directories of the token are the same *)
  | Lstat (t : cache_target)
  | Readdir
  | Mutate (m : mutation)
  | Create (e : cache_entry) (f : cache_file) (v : jsval)
  | Read (e : cache_entry) (f : cache_file)
  | Lease                                    (** [metadataIsWithinLease] *)
  | Deadline.                                (** whether there is time to retry *)

Definition cache_reply (c : cache_command) : Type :=
  match c with
  | Prepare | Ancestors | Lease | Deadline => bool
  | Token => option bool
  | Distrust => unit
  | Lstat _ => option Z
  | Readdir => list string
  | Mutate _ => option cache_error
  | Create _ _ _ => cache_error + Z
  | Read _ _ => option (Z * jsval)
  end.

(** A directory is renamed onto a missing or an empty one. *)
Definition rename_dir (source destination : cache_entry) (fs : cache_fs) : option cache_error * cache_fs :=
  match dir_at fs source with
  | None => (Some ENOENT, fs)
  | Some d =>
      if match dir_at fs destination with Some d' => bool_decide (cd_files d' = ∅) | None => true end
      then (None, set_dir destination (Some d) (set_dir source None fs))
      else (Some ENOTEMPTY, fs)
  end.

Definition rename_file (e : cache_entry) (source destination : cache_file) (fs : cache_fs) : option cache_error * cache_fs :=
  match dir_at fs e with
  | Some d =>
      match cd_files d !! source with
      | Some v => (None, set_dir e (Some (set_file destination (Some v) (set_file source None d))) fs)
      | None => (Some ENOENT, fs)
      end
  | None => (Some ENOENT, fs)
  end.

(** [open] with [O_CREAT | O_EXCL]. *)
Definition create_file (e : cache_entry) (f : cache_file) (v : jsval) (fs : cache_fs) : (cache_error + Z) * cache_fs :=
  match dir_at fs e with
  | None => (inl ENOENT, fs)
  | Some d =>
      match cd_files d !! f with
      | Some _ => (inl EEXIST, fs)
      | None => (inr (fs_next fs), new_id (set_dir e (Some (set_file f (Some (fs_next fs, v)) d)) fs))
      end
  end.

Definition remove_file (e : cache_entry) (f : cache_file) (fs : cache_fs) : option cache_error * cache_fs :=
  match dir_at fs e with
  | None => (Some ENOENT, fs)
  | Some d =>
      match cd_files d !! f with
      | Some _ => (None, set_dir e (Some (set_file f None d)) fs)
      | None => (Some ENOENT, fs)
      end
  end.

Definition make_dir (e : cache_entry) (fs : cache_fs) : option cache_error * cache_fs :=
  match dir_at fs e with
  | Some _ => (Some EEXIST, fs)
  | None => (None, new_id (set_dir e (Some {| cd_id := fs_next fs; cd_files := ∅ |}) fs))
  end.

Definition mutate (m : mutation) : cache_fs → option cache_error * cache_fs :=
  match m with
  | Mkdir e => make_dir e
  | RenameDir e e' => rename_dir e e'
  | RenameFile e f f' => rename_file e f f'
  | Remove e f => remove_file e f
  end.

Definition lstat_target (fs : cache_fs) (t : cache_target) : option Z :=
  match t with
  | Dir e => cd_id <$> dir_at fs e
  | File e f => fst <$> file_at fs e f
  end.

(** A command on the token of the process and the shared directory, with the
    answer of the environment.  Preparing the directory may fail. *)
Definition exec (c : cache_command) (b : bool) (token : option bool) (fs : cache_fs) : cache_reply c * option bool * cache_fs :=
  match c return cache_reply c * option bool * cache_fs with
  | Prepare => (b, if b then Some true else token, fs)
  | Token => (token, token, fs)
  | Distrust => ((), (λ _, false) <$> token, fs)
  | Ancestors | Lease | Deadline => (b, token, fs)
  | Lstat t => (lstat_target fs t, token, fs)
  | Readdir => (entry_names fs, token, fs)
  | Mutate m => let '(r, fs) := mutate m fs in (r, token, fs)
  | Create e f v => let '(r, fs) := create_file e f v fs in (r, token, fs)
  | Read e f => (file_at fs e f, token, fs)
  end.

Notation cache_prog := (prog cache_reply cache_error).
Notation act := (@do_ cache_command cache_reply cache_error).

(** A call that may throw. *)
Definition throwing (c : cache_prog (option cache_error)) : cache_prog () :=
  r ← c; match r with Some e => Raise e | None => mret () end.
Definition attempt_value {A} (c : cache_prog (cache_error + A)) : cache_prog A :=
  r ← c; match r with inl e => Raise e | inr v => mret v end.
Definition found {A} (c : cache_prog (option A)) : cache_prog A :=
  r ← c; match r with None => Raise ENOENT | Some v => mret v end.

Definition readdir : cache_prog (list string) := act Readdir.
Definition within_lease : cache_prog bool := act Lease.

(** ** Trust *)
Definition cacheTokenFor : cache_prog () :=
  t ← act Token; match t with Some true => mret () | _ => Raise CachePathChangedError end.

Definition invalidateCacheToken {A} : cache_prog A := act Distrust ;; Raise CachePathChangedError.

Definition verifyCacheToken : cache_prog () :=
  cacheTokenFor ;; same ← act Ancestors; if same : bool then mret () else invalidateCacheToken.

Definition guardedCacheRead {A} (read : cache_prog A) : cache_prog A :=
  verifyCacheToken ;;
  result ← prog_catch read (λ e, verifyCacheToken ;; Raise e);
  verifyCacheToken ;; mret result.

Definition prepareCacheDirectory : cache_prog () :=
  prepared ← act Prepare; if prepared : bool then mret () else Raise OtherError.

(** ** Mutations *)

(** The directories between the cache and a target. *)
Definition parents_of (t : cache_target) : list cache_entry :=
  let within e := match e with ClaimDir (RetiredActive key) => [ClaimDir (RetiredClaim key)] | _ => [] end in
  match t with
  | Dir e => within e
  | File e _ => within e ++ [e]
  end.

#[global] Instance cache_entry_eq_dec : EqDecision cache_entry.
Proof. solve_decision. Defined.

Fixpoint capture (snapshots : list (cache_entry * Z)) (l : list cache_entry) : cache_prog (list (cache_entry * Z)) :=
  match l with
  | [] => mret snapshots
  | e :: l =>
      if bool_decide (e ∈ snapshots.*1) then capture snapshots l
      else id ← found (act (Lstat (Dir e))); capture (snapshots ++ [(e, id)]) l
  end.

Fixpoint verifyMutationParentSnapshots (snapshots : list (cache_entry * Z)) : cache_prog () :=
  match snapshots with
  | [] => mret ()
  | (e, id) :: snapshots =>
      now ← act (Lstat (Dir e));
      if bool_decide (now = Some id) then verifyMutationParentSnapshots snapshots
      else Raise CacheOperationRaceError
  end.

Definition captureMutationParentSnapshots (targets : list cache_target) : cache_prog (list (cache_entry * Z)) :=
  verifyCacheToken ;;
  captured ← prog_catch (capture [] (targets ≫= parents_of)) (λ _, invalidateCacheToken);
  verifyMutationParentSnapshots captured ;;
  verifyCacheToken ;; mret captured.

Definition verifyMutationContext (parents : list (cache_entry * Z)) : cache_prog () :=
  verifyCacheToken ;; verifyMutationParentSnapshots parents ;; verifyCacheToken.

Definition same_as (expected : option Z) (id : Z) : bool :=
  match expected with Some id' => bool_decide (id' = id) | None => true end.

(** The identity of an entry that is stable around a check of the token. *)
Definition stableCacheEntry (t : cache_target) (expected : option Z) (missingIsOperationRace : bool) : cache_prog Z :=
  prog_catch
    (first ← found (act (Lstat t));
     if negb (same_as expected first) then Raise OtherError
     else
       verifyCacheToken ;;
       second ← found (act (Lstat t));
       if negb (bool_decide (first = second) && same_as expected second) then Raise OtherError else mret second)
    (λ e, if missingIsOperationRace && bool_decide (e = ENOENT) then verifyCacheToken ;; Raise e
          else invalidateCacheToken).

Definition guardedCacheEntryRead {A} (t : cache_target) (read : Z → cache_prog A) (expected : option Z) : cache_prog A :=
  metadata ← stableCacheEntry t expected true;
  result ← prog_catch (read metadata) (λ e, stableCacheEntry t (Some metadata) true ;; Raise e);
  stableCacheEntry t (Some metadata) true ;; mret result.

Definition assertCacheTargetAbsent (t : cache_target) : cache_prog () :=
  r ← act (Lstat t); match r with None => mret () | Some _ => invalidateCacheToken end.

Definition guardedCacheMutation {A} (parents : list (cache_entry * Z)) (verifyBefore : cache_prog ())
    (mutate : cache_prog A) (verifyAfter : A → cache_prog ()) : cache_prog A :=
  verifyMutationContext parents ;;
  verifyBefore ;;
  result ← prog_catch mutate (λ e, verifyMutationContext parents ;; Raise e);
  prog_catch
    (verifyMutationContext parents ;; verifyAfter result ;; verifyMutationContext parents ;; mret result)
    (λ e, if bool_decide (e = CacheOperationRaceError) then Raise e else invalidateCacheToken).

Definition cacheMkdir (e : cache_entry) : cache_prog () :=
  cacheTokenFor ;;
  parents ← captureMutationParentSnapshots [Dir e];
  guardedCacheMutation parents (mret ()) (throwing (act (Mutate (Mkdir e))))
    (λ _, stableCacheEntry (Dir e) None false ;; mret ()).

Definition cacheWriteFile (e : cache_entry) (f : cache_file) (v : jsval) : cache_prog () :=
  cacheTokenFor ;;
  parents ← captureMutationParentSnapshots [File e f];
  guardedCacheMutation parents (mret ()) (attempt_value (act (Create e f v)))
    (λ written, stableCacheEntry (File e f) (Some written) false ;; mret ()) ;;
  mret ().

(** Between directories, or between files of one directory. *)
Definition rename (source destination : cache_target) : cache_prog () :=
  match source, destination with
  | Dir e, Dir e' => throwing (act (Mutate (RenameDir e e')))
  | File e f, File e' f' => if bool_decide (e = e') then throwing (act (Mutate (RenameFile e f f'))) else Raise OtherError
  | _, _ => Raise OtherError
  end.

Definition cacheRename (source destination : cache_target) (expected : option Z) : cache_prog () :=
  cacheTokenFor ;;
  parents ← captureMutationParentSnapshots [source; destination];
  sourceMetadata ← stableCacheEntry source expected true;
  guardedCacheMutation parents (stableCacheEntry source (Some sourceMetadata) true ;; mret ())
    (rename source destination)
    (λ _, assertCacheTargetAbsent source ;; stableCacheEntry destination (Some sourceMetadata) false ;; mret ()).

(** [cacheRm] of a file, forced. *)
Definition cacheRm (e : cache_entry) (f : cache_file) : cache_prog () :=
  cacheTokenFor ;;
  parents ← captureMutationParentSnapshots [File e f];
  initial ← act (Lstat (File e f));
  match initial with
  | None => verifyMutationContext parents
  | Some initialMetadata =>
      targetMetadata ← stableCacheEntry (File e f) (Some initialMetadata) false;
      guardedCacheMutation parents (stableCacheEntry (File e f) (Some targetMetadata) false ;; mret ())
        (throwing (act (Mutate (Remove e f)))) (λ _, assertCacheTargetAbsent (File e f))
  end.

(** A file that is the same before it is opened, when it is and after. *)
Definition readJsonFile (e : cache_entry) (f : cache_file) (expected : option Z) : cache_prog jsval :=
  pathMetadata ← found (act (Lstat (File e f)));
  if negb (same_as expected pathMetadata) then Raise FileIdentityChangedError
  else
    opened ← found (act (Read e f));
    current ← found (act (Lstat (File e f)));
    if bool_decide (pathMetadata = opened.1) && bool_decide (current = opened.1) then mret opened.2
    else Raise FileIdentityChangedError.

(** ** Operations *)
Definition listOperations : cache_prog (list operation) :=
  cacheTokenFor ;; guardedCacheRead (names ← readdir; mret (omap parseOperationName (names : list string))).

(** What the environment says of the lease, of the owner's file or else of the directory. *)
Definition operationIsActive (o : operation) : cache_prog bool :=
  let e := OperationDir (op_kind o) (op_generation o) in
  prog_catch
    (guardedCacheEntryRead (Dir e) (λ _, act (Lstat (File e OwnerFile)) ;; within_lease) None)
    (λ err, if bool_decide (err = ENOENT) then mret false else Raise err).

(** ** Names are read back *)
Lemma pretty_char_digit (d : N) : (d < 10)%N → ascii_digit (pretty_N_char d) = true ∧ code_unit (pretty_N_char d) - 48 = Z.of_N d.
Proof.
  intros Hd. assert (d = 0 ∨ d = 1 ∨ d = 2 ∨ d = 3 ∨ d = 4 ∨ d = 5 ∨ d = 6 ∨ d = 7 ∨ d = 8 ∨ d = 9)%N as Hc by lia.
  repeat destruct Hc as [-> | Hc]; try (by vm_compute). subst d. by vm_compute.
Qed.

Lemma pretty_go_value x s : string_forall ascii_digit s = true →
  string_forall ascii_digit (pretty_N_go x s) = true ∧
  decimal_value (pretty_N_go x s) = Z.of_N x * 10 ^ Z.of_nat (String.length s) + decimal_value s.
Proof.
  revert s. induction (N.lt_wf_0 x) as [x _ IH]. intros s Hs.
  destruct (N.eq_dec x 0) as [->|Hx]; [done|]. rewrite pretty_N_go_step by lia.
  destruct (pretty_char_digit (x mod 10)) as [Hd Hv]; [by apply N.mod_lt|].
  destruct (IH (x / 10)%N (N.div_lt x 10 ltac:(lia) eq_refl) (String (pretty_N_char (x mod 10)) s)) as [H1 H2].
  { by rewrite string_forall_cons, Hd, Hs. }
  split; [done|]. rewrite H2. cbn [decimal_value String.length]. rewrite Hv, Nat2Z.inj_succ, Z.pow_succ_r by lia.
  rewrite N2Z.inj_div, N2Z.inj_mod. pose proof (Z.div_mod (Z.of_N x) 10 ltac:(lia)). change (Z.of_N 10) with 10. nia.
Qed.

Lemma pretty_go_length k x s : (x < 10 ^ N.of_nat k)%N → (String.length (pretty_N_go x s) ≤ String.length s + k)%nat.
Proof.
  revert x s. induction k as [|k IH]; intros x s Hx.
  { assert (x = 0%N) as -> by (change (x < 1)%N in Hx; lia). rewrite pretty_N_go_0. lia. }
  destruct (N.eq_dec x 0) as [->|Hx0]; [rewrite pretty_N_go_0; lia|]. rewrite pretty_N_go_step by lia.
  etrans; [apply IH|cbn; lia]. apply N.Div0.div_lt_upper_bound.
  by rewrite <-N.pow_succ_r', <-Nat2N.inj_succ.
Qed.

Lemma pretty_generation n : 0 ≤ n < 10 ^ 20 →
  string_forall ascii_digit (pretty n) = true ∧ decimal_value (pretty n) = n ∧ (1 ≤ String.length (pretty n) ≤ 20)%nat.
Proof.
  intros Hn. destruct n as [|p|p]; [split; [done|]; split; [done|]; cbn; lia| |lia].
  change (pretty (Z.pos p)) with (pretty_N_go (N.pos p) "").
  destruct (pretty_go_value (N.pos p) "" eq_refl) as [H1 H2]. split; [done|]. cbn [String.length decimal_value] in H2.
  split; [lia|]. split.
  - destruct (pretty_N_go (N.pos p) "") eqn:E; [|cbn; lia]. unfold decimal_value in H2. lia.
  - etrans; [apply (pretty_go_length 20)|done]. lia.
Qed.

Lemma string_forall_app p (s t : string) : string_forall p (s +:+ t) = string_forall p s && string_forall p t.
Proof.
  induction s as [|c s IH]; [done|]. change (String c s +:+ t) with (String c (s +:+ t)).
  by rewrite !string_forall_cons, IH, andb_assoc.
Qed.

Lemma zeros_value (k : nat) s : string_forall ascii_digit s = true →
  let z := String.concat "" (repeat "0" k) in
  String.length z = k ∧ string_forall ascii_digit (z +:+ s) = true ∧ decimal_value (z +:+ s) = decimal_value s.
Proof.
  intros Hs. assert (∀ k, String.concat "" (repeat "0" (S k)) = String ZERO (String.concat "" (repeat "0" k))) as Hc.
  { intros j. by destruct j. }
  induction k as [|k (IH1 & IH2 & IH3)]; [done|]. cbn zeta. rewrite Hc.
  change (String ZERO ?z +:+ s) with (String ZERO (z +:+ s)). rewrite string_forall_cons.
  cbn [String.length decimal_value]. cbn zeta in *. by rewrite IH1, IH2, IH3.
Qed.

Lemma generation_text_value n : 0 ≤ n < 10 ^ 20 →
  String.length (generation_text n) = 20%nat ∧ string_forall ascii_digit (generation_text n) = true ∧
  decimal_value (generation_text n) = n.
Proof.
  intros Hn. destruct (pretty_generation n Hn) as (H1 & H2 & H3).
  destruct (zeros_value (20 - String.length (pretty n)) (pretty n) H1) as (Z1 & Z2 & Z3).
  unfold generation_text, padStart0. rewrite string_length_app, Z1. split; [lia|]. split; [done|]. by rewrite Z3.
Qed.

(** The name of an operation is read back as its kind and its generation. *)
Lemma operation_name_read_back (kind : operation_kind) (generation : Z) : 0 ≤ generation ≤ MAX_OPERATION_GENERATION →
  parseOperationName (operationName (kind_text kind) generation) = Some {| op_kind := kind; op_generation := generation |}.
Proof.
  intros Hn. destruct (generation_text_value generation) as (Hl & Hd & Hv); [unfold MAX_OPERATION_GENERATION in Hn; lia|].
  unfold parseOperationName, operationName. rewrite <-string_app_assoc.
  assert (∀ t, find (λ k, starts_with (kind_text k +:+ "-") ((kind_text kind +:+ "-") +:+ t)) kinds = Some kind)
    as -> by (intros []; by destruct kind).
  cbn [mbind option_bind]. rewrite drop_prefix_app, Hl, Hd, Hv. done.
Qed.

(** The other entries are no operations. *)
Lemma claim_name_ignored c name : claim_name c = Some name → parseOperationName name = None.
Proof. by destruct c; intros [= <-]. Qed.

(** What [listOperations] finds. *)
Definition listed (fs : cache_fs) : list operation := omap parseOperationName (entry_names fs).

(** The listing is the operations of the directory, each once. *)
Lemma listed_operations fs : (∀ k n, is_Some (fs_operations fs !! (k, n)) → 0 ≤ n ≤ MAX_OPERATION_GENERATION) →
  listed fs = (λ x : operation_kind * Z * cache_dir, {| op_kind := x.1.1; op_generation := x.1.2 |}) <$> map_to_list (fs_operations fs).
Proof.
  intros Hrange. unfold listed, entry_names. rewrite omap_app.
  assert (omap parseOperationName (omap (λ x : claim_entry * cache_dir, claim_name x.1) (map_to_list (fs_claims fs))) = []) as ->.
  { apply elem_of_nil_inv. intros o (name & ([c d] & _ & Hc)%list_elem_of_omap & Ho)%list_elem_of_omap.
    by rewrite (claim_name_ignored c name Hc) in Ho. }
  rewrite app_nil_r. assert (Hl : ∀ k n d, (k, n, d) ∈ map_to_list (fs_operations fs) → 0 ≤ n ≤ MAX_OPERATION_GENERATION).
  { intros k n d Hd%elem_of_map_to_list. apply (Hrange k). by rewrite Hd. }
  induction (map_to_list (fs_operations fs)) as [|[[k n] d] l IH]; [done|].
  rewrite !fmap_cons. cbn [omap list_omap fst snd]. rewrite operation_name_read_back by (eapply Hl; by left).
  f_equal. apply IH. intros. eapply Hl. by right.
Qed.
