(* ===== verification/CacheClaims.v ===== *)
(** * The operations of the update check ([src/.agents/skills/archify/scripts/check-update.mjs])

    The programs by which processes that share a cache directory check for an
    update and acknowledge one: generations are reserved in order, a claim is
    prepared and promoted, lower operations are fenced, and the state is
    committed by renaming the operation's directory.  The loops without a bound
    of the source take one here; a program that reaches it stops, as a process
    that crashes does. *)

From stdpp Require Import pretty gmap sorting.
From S2P Require Import Prelude Num JsValue Json Semver Updates RepositoryLocation UpdateCheck Concurrency CacheFiles.
#[local] Open Scope Z_scope.

(** A reserved operation; its directory is the pending one. *)
Record own_operation := { oo_generation : Z; oo_token : string }.
Definition pending (n : Z) : cache_entry := OperationDir KPending n.

Record claim_owner := { co_generation : Z; co_token : string }.

(** What [inspectActiveClaim] finds. *)
Inductive claim_status :=
  | ClaimAbsent
  | ClaimBusy (owner : option claim_owner)
  | ClaimReleasable (key : string) (metadata : Z) (owner : option claim_owner).

(** A process: its number, and the random texts it draws. *)
Record identity_of_process := { ip_pid : binary64; ip_token : Z → string }.

(** What [commitOperation] gives. *)
Record commit_outcome := { fenced : bool; outcome : update_result }.

(** The operations of a list, by their generation. *)
Definition older (a b : operation) : Prop := op_generation a ≤ op_generation b.
#[global] Instance older_dec : RelDecision older.
Proof. intros a b. unfold older. apply _. Defined.
#[global] Instance older_total : Total older.
Proof. intros a b. unfold older. lia. Qed.
#[global] Instance older_trans : Transitive older.
Proof. intros a b c. unfold older. lia. Qed.
#[global] Instance flip_older_total : Total (flip older).
Proof. intros a b. unfold flip, older. lia. Qed.
Definition oldest_first (l : list operation) : list operation := merge_sort older l.
Definition newest_first (l : list operation) : list operation := merge_sort (flip older) l.
Definition of_kind (k : operation_kind) (l : list operation) : list operation := filter (λ o, op_kind o = k) l.

Section Programs.
Context (date_parse : string → option Z) (number_text : binary64 → string) (date_text : option Z → string).
(** The digest that names a claim which cannot be read, of its identity. *)
Context (fingerprint : Z → string).

(** ** Reading the state *)
Fixpoint first_readable (installedVersion : option string) (l : list operation) : cache_prog update_state :=
  match l with
  | [] => mret (emptyState installedVersion)
  | o :: l =>
      let e := OperationDir (op_kind o) (op_generation o) in
      state ← prog_catch
        (guardedCacheEntryRead (Dir e) (λ _, v ← readJsonFile e StateFile None;
           mret (normalizeState number_text date_text v installedVersion)) None)
        (λ err, match err with
                | FileIdentityChangedError | CachePathChangedError | CacheOperationRaceError => Raise err
                | _ => mret None
                end);
      match state with
      | Some s => mret s
      | None => first_readable installedVersion l
      end
  end.

Definition readState (installedVersion : option string) : cache_prog update_state :=
  cacheTokenFor ;;
  guardedCacheRead (operations ← listOperations;
                    first_readable installedVersion (newest_first (of_kind KCommitted operations))).

(** ** Claims *)

(** [/^[a-f0-9]{32}$/] and [/^[1-9]\d*$/] *)
Definition HEX_32 (s : string) : bool := bool_decide (String.length s = 32%nat) && string_forall hex_char s.
Definition positive_numeral (s : string) : bool := numeric s && negb (starts_with "0" s).

Definition validateClaimOwner (value : jsval) : option claim_owner :=
  if negb (bool_decide (is_Some (isPlainObject value)) && hasOnlyKeys value ["pid"; "token"; "generation"] &&
           match safe_count (prop value "pid") with Some pid => 0 <? pid | None => false end) then None
  else match prop value "token", prop value "generation" with
  | JString token, JString generation =>
      if HEX_32 token && positive_numeral generation
      then Some {| co_generation := decimal_value generation; co_token := token |} else None
  | _, _ => None
  end.

Definition corruptClaimStatus (directory : Z) : cache_prog claim_status :=
  within ← within_lease;
  mret (if within : bool then ClaimBusy None else ClaimReleasable ("corrupt-" +:+ fingerprint directory) directory None).

Definition settled_kind (k : operation_kind) : bool :=
  match k with KCommitted | KFenced | KCancelled => true | _ => false end.

Definition inspectActiveClaim : cache_prog claim_status :=
  cacheTokenFor ;;
  guardedCacheRead (
    directory ← act (Lstat (Dir (ClaimDir ActiveClaim)));
    match directory with
    | None => mret ClaimAbsent
    | Some directoryMetadata =>
        guardedCacheEntryRead (Dir (ClaimDir ActiveClaim)) (λ stable,
          owner ← prog_catch
            (ownerMetadata ← found (act (Lstat (File (ClaimDir ActiveClaim) OwnerFile)));
             source ← readJsonFile (ClaimDir ActiveClaim) OwnerFile (Some ownerMetadata);
             mret (validateClaimOwner source))
            (λ err, if bool_decide (err = FileIdentityChangedError) then Raise err else mret None);
          match owner with
          | None => corruptClaimStatus stable
          | Some o =>
              let releasable := ClaimReleasable (pretty (co_generation o)) stable owner in
              operations ← listOperations;
              if existsb (λ x, bool_decide (op_generation x = co_generation o) && settled_kind (op_kind x)) operations
              then mret releasable
              else match find (λ x, bool_decide (op_kind x = KPending) && bool_decide (op_generation x = co_generation o))
                              operations with
                   | Some x => active ← operationIsActive x; mret (if active : bool then ClaimBusy owner else releasable)
                   | None => corruptClaimStatus stable
                   end
          end) (Some directoryMetadata)
    end).

(** [p.catch(...)] for errors that mean nothing. *)
Definition ignoring (errors : list cache_error) (p : cache_prog ()) : cache_prog () :=
  prog_catch p (λ e, if bool_decide (e ∈ errors) then mret () else Raise e).
(** Whether [p] succeeds, if it does not throw another error. *)
Definition unless (errors : list cache_error) (p : cache_prog bool) : cache_prog bool :=
  prog_catch p (λ e, if bool_decide (e ∈ errors) then mret false else Raise e).

Definition retireActiveClaim (key : string) (metadata : Z) : cache_prog bool :=
  let retirement := ClaimDir (RetiredClaim key) in
  ignoring [EEXIST] (cacheMkdir retirement) ;;
  present ← act (Lstat (Dir retirement));
  if bool_decide (present = None) then mret false
  else
    guarded ← unless [CacheOperationRaceError; ENOENT]
      (found (act (Lstat (Dir (ClaimDir ActiveClaim)))) ;;
       ignoring [EEXIST] (cacheWriteFile (ClaimDir ActiveClaim) GuardFile (JString key)) ;; mret true);
    if negb guarded then mret false
    else unless [CacheOperationRaceError; ENOENT; EEXIST; ENOTEMPTY]
      (cacheRename (Dir (ClaimDir ActiveClaim)) (Dir (ClaimDir (RetiredActive key))) (Some metadata) ;; mret true).

Definition prepareOperationClaim (me : identity_of_process) (o : own_operation) : cache_prog () :=
  let directory := ClaimDir (PreparedClaim (oo_generation o)) in
  cacheMkdir directory ;;
  cacheWriteFile directory OwnerFile (JObject [("pid", JNumber (ip_pid me)); ("token", JString (oo_token o));
                                               ("generation", JString (pretty (oo_generation o)))]).

(** [prepared]: whether the operation has a [preparedClaimDirectory]. *)
Definition discardPreparedClaim (o : own_operation) (prepared : bool) : cache_prog () :=
  if prepared
  then ignoring [ENOENT] (cacheRename (Dir (ClaimDir (PreparedClaim (oo_generation o))))
                            (Dir (ClaimDir (DiscardedClaim (oo_generation o) (oo_token o)))) None)
  else mret ().

Definition operationIsSuperseded (o : own_operation) : cache_prog bool :=
  operations ← listOperations; mret (existsb (λ x, oo_generation o <? op_generation x) operations).

(** [Some e] when [p] throws. *)
Definition catching {A} (p : cache_prog A) : cache_prog (cache_error + A) :=
  prog_catch (x ← p; mret (inr x)) (λ e, mret (inl e)).

Fixpoint promotion_attempts (attempts : nat) (o : own_operation) (prepared : bool) : cache_prog bool :=
  match attempts with
  | O => discardPreparedClaim o prepared ;; mret false
  | S attempts =>
      superseded ← operationIsSuperseded o;
      if superseded : bool then discardPreparedClaim o prepared ;; mret false
      else
        active ← inspectActiveClaim;
        match active with
        | ClaimBusy _ => discardPreparedClaim o prepared ;; mret false
        | ClaimReleasable key metadata owner =>
            if match owner with Some c => oo_generation o <? co_generation c | None => false end
            then discardPreparedClaim o prepared ;; mret false
            else retireActiveClaim key metadata ;; promotion_attempts attempts o prepared
        | ClaimAbsent =>
            let failed (prepared : bool) (e : cache_error) : cache_prog bool :=
              raced ← inspectActiveClaim;
              match raced with
              | ClaimAbsent =>
                  if bool_decide (e ∈ [EEXIST; ENOTEMPTY]) then promotion_attempts attempts o prepared
                  else discardPreparedClaim o prepared ;; Raise e
              | _ => promotion_attempts attempts o prepared
              end in
            renamed ← catching (if prepared
                                then cacheRename (Dir (ClaimDir (PreparedClaim (oo_generation o))))
                                       (Dir (ClaimDir ActiveClaim)) None
                                else Raise OtherError);
            match renamed with
            | inl e => failed prepared e
            | inr _ =>
                still ← catching (operationIsActive {| op_kind := KPending; op_generation := oo_generation o |});
                match still with
                | inr b => mret b
                | inl e => failed false e
                end
            end
        end
  end.

Definition promoteOperationClaim (me : identity_of_process) (o : own_operation) : cache_prog bool :=
  prepareOperationClaim me o ;; promotion_attempts 8 o true.

Definition operationOwnsActiveClaim (o : own_operation) : cache_prog bool :=
  active ← inspectActiveClaim;
  mret (match active with
        | ClaimBusy (Some c) => bool_decide (co_generation c = oo_generation o) && bool_decide (co_token c = oo_token o)
        | _ => false
        end).

(** Each of the operations is looked at, in turn here. *)
Fixpoint active_ones (l : list operation) : cache_prog (list bool) :=
  match l with
  | [] => mret []
  | x :: l => b ← operationIsActive x; bs ← active_ones l; mret (b :: bs)
  end.
Definition hasActivePendingOperation : cache_prog bool :=
  cacheTokenFor ;;
  guardedCacheRead (operations ← listOperations; bs ← active_ones (of_kind KPending operations);
                    mret (existsb (λ b : bool, b) bs)).

(** ** Operations *)
Definition operationWasFenced (n : Z) : cache_prog bool :=
  cacheTokenFor ;;
  guardedCacheRead (
    directory ← act (Lstat (Dir (pending n)));
    match directory with
    | Some _ => mret false
    | None =>
        prog_catch (stableCacheEntry (Dir (OperationDir KFenced n)) None true ;; mret true)
          (λ e, if bool_decide (e = ENOENT) then mret false else Raise e)
    end).

(** The first generation from [n] that is not occupied. *)
Fixpoint next_free (fuel : nat) (occupied : list Z) (n : Z) : Z :=
  match fuel with
  | O => n
  | S fuel => if bool_decide (n ∈ occupied) then next_free fuel occupied (n + 1) else n
  end.

Definition transitionOperation (n : Z) (kind : operation_kind) : cache_prog () :=
  cacheRename (Dir (pending n)) (Dir (OperationDir kind n)) None.

(** [.catch(() => {})] *)
Definition silently (p : cache_prog ()) : cache_prog () := prog_catch p (λ _, mret ()).

Fixpoint reserve (fuel : nat) (me : identity_of_process) (occupied : list Z) (from : Z) : cache_prog own_operation :=
  match fuel with
  | O => Stuck
  | S fuel =>
      let generation := next_free (length occupied) occupied from in
      if MAX_OPERATION_GENERATION <? generation then Raise OtherError
      else
        reserved ← prog_catch (cacheMkdir (OperationDir KReserved generation) ;; mret true)
          (λ e, if bool_decide (e = EEXIST) then mret false else Raise e);
        if negb reserved then reserve fuel me (generation :: occupied) (generation + 1)
        else
          result ← prog_catch
            (cacheMkdir (pending generation) ;;
             let o := {| oo_generation := generation; oo_token := ip_token me generation |} in
             prog_catch (cacheWriteFile (pending generation) OwnerFile
                           (JObject [("pid", JNumber (ip_pid me)); ("token", JString (oo_token o))]))
               (λ e, was ← operationWasFenced generation;
                     if was : bool then Raise OperationFencedError
                     else silently (transitionOperation generation KCancelled) ;; Raise e) ;;
             mret (Some o))
            (λ e, if bool_decide (e = EEXIST) then mret None else Raise e);
          match result with
          | Some o => mret o
          | None => reserve fuel me (generation :: occupied) (generation + 1)
          end
  end.

Definition reserveOperation (fuel : nat) (me : identity_of_process) : cache_prog own_operation :=
  prepareCacheDirectory ;;
  operations ← listOperations;
  reserve fuel me (op_generation <$> operations) 1.

Definition cancelOperation (n : Z) : cache_prog () := ignoring [ENOENT] (transitionOperation n KCancelled).

Definition acquireOperation (fuel : nat) (me : identity_of_process) : cache_prog (option own_operation) :=
  prepareCacheDirectory ;;
  claim ← inspectActiveClaim;
  match claim with
  | ClaimBusy _ => mret None
  | _ =>
      busy ← hasActivePendingOperation;
      if busy : bool then mret None
      else
        reserved ← prog_catch (o ← reserveOperation fuel me; mret (Some o))
          (λ e, if bool_decide (e = OperationFencedError) then mret None else Raise e);
        match reserved with
        | None => mret None
        | Some o =>
            superseded ← operationIsSuperseded o;
            promoted ← (if superseded : bool then mret false else promoteOperationClaim me o);
            if promoted : bool then mret (Some o) else cancelOperation (oo_generation o) ;; mret None
        end
  end.

Fixpoint fence_all (l : list operation) : cache_prog () :=
  match l with
  | [] => mret ()
  | x :: l =>
      ignoring [ENOENT] (cacheRename (Dir (OperationDir (op_kind x) (op_generation x)))
                           (Dir (OperationDir KFenced (op_generation x))) None) ;;
      fence_all l
  end.

Definition fenceLowerOperations (o : own_operation) : cache_prog () :=
  operations ← listOperations;
  fence_all (oldest_first (filter (λ x, op_generation x < oo_generation o) (of_kind KPending operations))).

Definition fenced_outcome : commit_outcome := {| fenced := true; outcome := Silent "check-in-progress" |}.

Definition commitOperation (o : own_operation) (installedVersion : option string)
    (mutate : update_state → decision) : cache_prog commit_outcome :=
  let n := oo_generation o in
  owns ← operationOwnsActiveClaim o;
  if negb owns then cancelOperation n ;; mret fenced_outcome
  else
    fenceLowerOperations o ;;
    owns ← operationOwnsActiveClaim o;
    if negb owns then cancelOperation n ;; mret fenced_outcome
    else
      state ← readState installedVersion;
      match commit number_text (mutate state) with
      | (None, result) => cancelOperation n ;; mret {| fenced := false; outcome := result |}
      | (Some committedState, committedResult) =>
          prog_catch
            (cacheWriteFile (pending n) TemporaryFile (state_json committedState) ;;
             cacheRename (File (pending n) TemporaryFile) (File (pending n) StateFile) None ;;
             transitionOperation n KCommitted ;;
             mret {| fenced := false; outcome := committedResult |})
            (λ e, was ← operationWasFenced n;
                  if was : bool then mret fenced_outcome
                  else silently (cacheRm (pending n) TemporaryFile) ;; Raise e)
      end.

(** ** Checks and acknowledgements *)

(** A candidate that was offered is shown again while a check is in progress. *)
Definition offered_result (version : string) (s : update_state) : update_result :=
  match us_candidate s with
  | Some c => if includes (us_offeredDigests s) (uc_targetDigest c)
              then resultForCandidate number_text date_text version s else Silent "check-in-progress"
  | None => Silent "check-in-progress"
  end.

Definition resultAfterLosingOperation (o : own_operation) (version : string) : cache_prog update_result :=
  cancelOperation (oo_generation o) ;;
  cached ← readState (Some version);
  mret (offered_result version cached).

(** [try { p } catch { return silent('cache-unavailable') }], after what [clean] does. *)
Definition or_unavailable (clean : cache_prog ()) (p : cache_prog update_result) : cache_prog update_result :=
  prog_catch p (λ _, clean ;; mret (Silent "cache-unavailable")).

(** The check from the operation it holds. *)
Definition check_with (o : own_operation) (version : string) (nowMs : Z) (random : binary64)
    (fetched : fetch_outcome) : cache_prog update_result :=
  let n := oo_generation o in
  let clean := silently (cancelOperation n) in
  or_unavailable clean (
    state ← readState (Some version);
    match freshStateResult date_parse number_text date_text version state nowMs with
    | Some raced => cancelOperation n ;; mret raced
    | None =>
        owns ← operationOwnsActiveClaim o;
        if negb owns then resultAfterLosingOperation o version
        else
          verifyCacheToken ;;
          owns ← operationOwnsActiveClaim o;
          if negb owns then resultAfterLosingOperation o version
          else
            or_unavailable clean (
              committed ← commitOperation o (Some version) (check_decision date_parse number_text date_text version nowMs random fetched);
              mret (outcome committed))
    end).

(** [checkForUpdate] of a valid release, with a valid clock. *)
Definition checkForUpdate (fuel : nat) (me : identity_of_process) (version : string) (nowMs : Z)
    (random : binary64) (fetched : fetch_outcome) : cache_prog update_result :=
  start ← catching (prepareCacheDirectory ;; readState (Some version));
  match start with
  | inl _ => mret (Silent "cache-unavailable")
  | inr state =>
      match freshStateResult date_parse number_text date_text version state nowMs with
      | Some cachedResult => mret cachedResult
      | None =>
          acquired ← catching (acquireOperation fuel me);
          match acquired with
          | inl _ => mret (Silent "cache-unavailable")
          | inr None =>
              or_unavailable (mret ()) (cached ← readState (Some version); mret (offered_result version cached))
          | inr (Some o) => check_with o version nowMs random fetched
          end
      end
  end.

Fixpoint acknowledge (fuel : nat) (me : identity_of_process) (version targetDigest eventKey : string) : cache_prog update_result :=
  match fuel with
  | O => Stuck
  | S fuel =>
      let retry := again ← act Deadline;
                   if again : bool then acknowledge fuel me version targetDigest eventKey
                   else mret (Silent "check-in-progress") in
      acquired ← catching (acquireOperation fuel me);
      match acquired with
      | inl _ => mret (Silent "cache-unavailable")
      | inr None => retry
      | inr (Some o) =>
          committed ← catching (commitOperation o (Some version) (acknowledgement targetDigest eventKey));
          match committed with
          | inl _ => silently (cancelOperation (oo_generation o)) ;; mret (Silent "cache-unavailable")
          | inr c => if fenced c then retry else mret (outcome c)
          end
      end
  end.

(** [acknowledgeUpdate] of a valid release, with a clock that is valid at the start. *)
Definition acknowledgeUpdate (fuel : nat) (me : identity_of_process) (version eventKey : string) : cache_prog update_result :=
  match digestForEventKey (JString eventKey) with
  | None => mret (Silent "invalid-acknowledgement")
  | Some targetDigest =>
      start ← catching prepareCacheDirectory;
      match start with
      | inl _ => mret (Silent "cache-unavailable")
      | inr _ => acknowledge fuel me version targetDigest eventKey
      end
  end.
End Programs.
