(* ===== verification/CacheSafety.v ===== *)
(** * The protocol of the cache directory: its invariant

    What the processes keep of the directory they share, with a history of each
    generation: who reserved it, and how far it went.  The claims and the leases
    play no part in it, since a claim may be retired while its owner goes on:
    what keeps the states in one line is that a generation is superseded by
    higher ones, fences the lower ones, and commits by one rename. *)

From stdpp Require Import pretty gmap sorting.
From S2P Require Import Prelude Num JsValue Json Semver Updates RepositoryLocation UpdateCheck Concurrency CacheFiles CacheClaims.
#[local] Open Scope Z_scope.

(** How far a generation went: reserved; its directory made; not superseded when
    it looked; its state read, after the lower ones were fenced; committed; or
    fenced or cancelled. *)
Inductive generation_status := SReserved | SPending | SCleared | SRead (s : update_state) | SCommitted (s : update_state) | SDead.

(** The pending directory is there. *)
Definition is_live (st : generation_status) : bool :=
  match st with SPending | SCleared | SRead _ => true | _ => false end.
(** It may still commit. *)
Definition racing (st : generation_status) : bool :=
  match st with SCleared | SRead _ => true | _ => false end.
(** The lower ones were fenced. *)
Definition decisive (st : generation_status) : bool :=
  match st with SRead _ | SCommitted _ => true | _ => false end.
Definition state_of (st : generation_status) : option update_state :=
  match st with SCommitted s => Some s | _ => None end.

(** The process that reserved each generation, and its status. *)
Notation ghost := (gmap Z (nat * generation_status)).
Notation gstate := (cache_fs * ghost)%type.

Definition commits (G : ghost) (n : Z) : option update_state := G !! n ≫= λ x, state_of x.2.
Definition operations_at (x : gstate) (k : operation_kind) (n : Z) : option cache_dir := fs_operations x.1 !! (k, n).

(** ** One decision after another *)
Inductive update_decision :=
  | DecideCheck (nowMs : Z) (random : binary64) (fetched : fetch_outcome)
  | DecideAcknowledgement (digest eventKey : string).

Section Protocol.
Context (date_parse : string → option Z) (number_text : binary64 → string) (date_text : option Z → string).
Context (version : string).
Notation commit := (commit number_text).

Definition decide_update (d : update_decision) (s : update_state) : decision :=
  match d with
  | DecideCheck nowMs random fetched => check_decision date_parse number_text date_text version nowMs random fetched s
  | DecideAcknowledgement digest eventKey => acknowledgement digest eventKey s
  end.

(** The sequential store: a state is replaced by what a decision on it commits. *)
Definition decided (s s' : update_state) : Prop := ∃ d r, commit (decide_update d s) = (Some s', r).

Lemma decide_update_good d s s' r : good version s → commit (decide_update d s) = (Some s', r) →
  good version s' ∧ encodeRecoverableState number_text s' = true.
Proof. destruct d; [by apply check_decision_good|by apply acknowledgement_good]. Qed.

Lemma decided_acknowledged s s' digest : decided s s' → digest ∈ us_acknowledgedDigests s → digest ∈ us_acknowledgedDigests s'.
Proof.
  intros (d & r & H) Hs. change s' with (default s (Some s', r).1). rewrite <-H.
  destruct d; [by apply check_decision_acknowledged|by apply acknowledgement_acknowledged].
Qed.

(** The state of the newest commit below [n], or the empty state. *)
Inductive latest (C : Z → option update_state) (n : Z) : update_state → Prop :=
  | latest_none : (∀ m, m < n → C m = None) → latest C n (emptyState (Some version))
  | latest_some m s : m < n → C m = Some s → (∀ m', m < m' < n → C m' = None) → latest C n s.

Lemma latest_ext C C' n s : (∀ m, m < n → C m = C' m) → latest C n s → latest C' n s.
Proof.
  intros HC [H|m s' Hm Hs Hmax]; [left|eright]; [|exact Hm|by rewrite <-HC|]; intros k Hk; (rewrite <-HC; [auto|lia]).
Qed.

Lemma latest_unique C n s s' : latest C n s → latest C n s' → s = s'.
Proof.
  intros [H|m t Hm Ht Hmax] [H'|m' t' Hm' Ht' Hmax'].
  - done.
  - by rewrite H in Ht'.
  - by rewrite H' in Ht.
  - assert (¬ m < m') by (intros ?; by rewrite Hmax in Ht'). assert (¬ m' < m) by (intros ?; by rewrite Hmax' in Ht).
    assert (m = m') as -> by lia. rewrite Ht in Ht'. by injection Ht'.
Qed.

(** Every generation is within the bound of the names. *)
Definition BEYOND : Z := MAX_OPERATION_GENERATION + 1.
Definition newest_commit (C : Z → option update_state) (s : update_state) : Prop := latest C BEYOND s.

(** ** The invariant *)

(** The directories of one generation. *)
Record generation_ok (ops : operation_kind → option cache_dir) (x : option (nat * generation_status)) : Prop := {
  go_reserved : is_Some (ops KReserved) ↔ is_Some x;
  go_pending : is_Some (ops KPending) ↔ ∃ p st, x = Some (p, st) ∧ is_live st = true;
  go_committed d : ops KCommitted = Some d → ∃ p s id, x = Some (p, SCommitted s) ∧ cd_files d !! StateFile = Some (id, state_json s);
  go_commit p s : x = Some (p, SCommitted s) → is_Some (ops KCommitted);
  go_dead k : k = KFenced ∨ k = KCancelled → is_Some (ops k) → ∃ p, x = Some (p, SDead)
}.

(** No generation below may commit. *)
Definition out_of_race (G : ghost) (m : Z) : Prop := ∀ p st, G !! m = Some (p, st) → racing st = false.

Record Inv (x : gstate) : Prop := {
  inv_ok n : generation_ok (λ k, operations_at x k n) (x.2 !! n);
  inv_range n : is_Some (x.2 !! n) → 0 ≤ n < BEYOND;
  inv_settled m n p st : m < n → x.2 !! n = Some (p, st) → decisive st = true → out_of_race x.2 m;
  inv_read n p s : x.2 !! n = Some (p, SRead s) → latest (commits x.2) n s;
  inv_chain n s : commits x.2 n = Some s → ∃ s0, latest (commits x.2) n s0 ∧ decided s0 s;
  inv_good n s : commits x.2 n = Some s → good version s ∧ encodeRecoverableState number_text s = true
}.

(** What process [i] may do to the generations of the others, and to commits. *)
Record guar (i : nat) (x y : gstate) : Prop := {
  gu_others n p st : p ≠ i → x.2 !! n = Some (p, st) →
    y.2 !! n = Some (p, st) ∨ is_live st = true ∧ y.2 !! n = Some (p, SDead);
  gu_owner n p st : x.2 !! n = Some (p, st) → ∃ st', y.2 !! n = Some (p, st');
  gu_commits n s : commits x.2 n = Some s → commits y.2 n = Some s;
  gu_settled m n : m < n → is_Some (x.2 !! n) → out_of_race x.2 m → out_of_race y.2 m;
  gu_pending n p st : p ≠ i → x.2 !! n = Some (p, st) →
    operations_at y KPending n = operations_at x KPending n ∨ operations_at y KPending n = None;
  gu_committed n d : operations_at x KCommitted n = Some d → operations_at y KCommitted n = Some d;
  gu_newest s : newest_commit (commits x.2) s → ∃ s', newest_commit (commits y.2) s' ∧ (s' = s ∨ decided s s')
}.

Notation assn := (gstate → Prop).
Notation stable := (stable Inv guar).

Lemma guar_same i fs fs' G : fs_operations fs' = fs_operations fs → guar i (fs, G) (fs', G).
Proof. intros H. unfold operations_at. split; unfold operations_at; cbn [fst snd]; rewrite ?H; eauto. Qed.

Lemma Inv_same fs fs' G : fs_operations fs' = fs_operations fs → Inv (fs, G) → Inv (fs', G).
Proof. intros H [H1 H2 H3 H4 H5 H6]. split; cbn [fst snd] in *; try done. intros n. unfold operations_at in *. cbn [fst snd] in *. rewrite H. apply H1. Qed.

(** ** What a process may keep knowing *)
Definition owns (i : nat) (n : Z) (S : generation_status → Prop) : assn := λ x, ∃ st, x.2 !! n = Some (i, st) ∧ S st.

Lemma owns_stable i n (S : generation_status → Prop) : (∀ st, S st → is_live st = true → S SDead) → stable i (owns i n S).
Proof.
  intros HS x y (st & Hx & Hst) (j & Hj & Hg & _). destruct (gu_others _ _ _ Hg n i st ltac:(done) Hx) as [H|[Hl H]].
  - by exists st.
  - exists SDead. eauto.
Qed.

Lemma owns_mono i n (S S' : generation_status → Prop) x : (∀ st, S st → S' st) → owns i n S x → owns i n S' x.
Proof. intros H (st & ? & ?). exists st. auto. Qed.

Lemma commit_stable i n s : stable i (λ x, commits x.2 n = Some s).
Proof. intros x y H (j & _ & Hg & _). by apply (gu_commits _ _ _ Hg). Qed.

Lemma settled_stable i m n : m < n → stable i (λ x, is_Some (x.2 !! n) ∧ out_of_race x.2 m).
Proof.
  intros Hm x y [[[p st] Hn] H] (j & _ & Hg & _). split; [|by eapply (gu_settled _ _ _ Hg)].
  destruct (gu_owner _ _ _ Hg _ _ _ Hn) as [st' H']. by eexists.
Qed.

Lemma committed_dir_stable i n d : stable i (λ x, operations_at x KCommitted n = Some d).
Proof. intros x y H (j & _ & Hg & _). by apply (gu_committed _ _ _ Hg). Qed.

(** A property of the pending directory of one's own generation, while it is there. *)
Definition in_pending (i : nat) (n : Z) (P : cache_dir → Prop) : assn := λ x,
  owns i n (λ _, True) x ∧ ∀ d, operations_at x KPending n = Some d → P d.
Lemma in_pending_stable i n P : stable i (in_pending i n P).
Proof.
  intros x y [Ho H] Hr. split; [by eapply owns_stable|]. intros d Hd. destruct Hr as (j & Hj & Hg & _).
  destruct Ho as (st & Ho & _). destruct (gu_pending _ _ _ Hg n i st ltac:(done) Ho) as [E|E]; rewrite E in Hd; [by apply H|done].
Qed.

(** ** What decisions keep *)
Lemma decided_recorded s s' digest : decided s s' → recorded digest s → recorded digest s'.
Proof. intros (d & r & H) Hs. destruct d; [by eapply check_decision_recorded|by eapply acknowledgement_recorded]. Qed.

Lemma chain_keeps (P : update_state → Prop) x m n s s' : (∀ s s', decided s s' → P s → P s') → Inv x →
  commits x.2 m = Some s → P s → m ≤ n → commits x.2 n = Some s' → P s'.
Proof.
  intros HP HI Hm Hs. revert s'. induction n as [n IH] using (well_founded_induction (Z.lt_wf m)). intros s' Hmn Hn.
  destruct (decide (n = m)) as [->|Hne]; [rewrite Hm in Hn; by injection Hn as <-|].
  destruct (inv_chain _ HI n s' Hn) as (s0 & Hl & Hd). apply (HP s0 s'); [done|].
  destruct Hl as [Hnone|k t Hk Ht Hmax]; [rewrite Hnone in Hm by lia; done|].
  assert (¬ k < m) by (intros ?; by rewrite Hmax in Hm by lia). apply (IH k); [lia|lia|done].
Qed.

Lemma newest_keeps (P : update_state → Prop) x n s s' : (∀ s s', decided s s' → P s → P s') → Inv x →
  commits x.2 n = Some s → P s → newest_commit (commits x.2) s' → P s'.
Proof.
  intros HP HI Hn Hs Hl. assert (n < BEYOND).
  { apply (inv_range _ HI). unfold commits in Hn. destruct (x.2 !! n); [by eexists|done]. }
  destruct Hl as [Hnone|k t Hk Ht Hmax]; [by rewrite Hnone in Hn|].
  assert (¬ k < n) by (intros ?; by rewrite Hmax in Hn). apply (chain_keeps P x n k s); [done..|lia|done].
Qed.

Lemma newest_good x s : Inv x → newest_commit (commits x.2) s → good version s.
Proof. intros HI [_|n t _ Ht _]; [apply emptyState_good|by eapply inv_good]. Qed.

(** ** Steps on one generation *)
Definition elsewhere (fs fs' : cache_fs) (n : Z) : Prop :=
  ∀ k m, m ≠ n → fs_operations fs' !! (k, m) = fs_operations fs !! (k, m).

Lemma commits_insert G n p st m : commits (<[n:=(p, st)]> G) m = if decide (m = n) then state_of st else commits G m.
Proof.
  unfold commits. destruct (decide (m = n)) as [->|].
  - by rewrite lookup_insert_eq.
  - by rewrite lookup_insert_ne.
Qed.

Lemma commits_at G n p st : G !! n = Some (p, st) → commits G n = state_of st.
Proof. unfold commits. by intros ->. Qed.

Lemma settled_insert G n p st m : out_of_race G m → (m = n → racing st = false) → out_of_race (<[n:=(p, st)]> G) m.
Proof.
  intros H Hr q st'. destruct (decide (m = n)) as [->|].
  - rewrite lookup_insert_eq. intros [= _ <-]. by apply Hr.
  - rewrite lookup_insert_ne by done. apply H.
Qed.

Lemma settled_none G m : G !! m = None → out_of_race G m.
Proof. intros H p st. by rewrite H. Qed.

(** A change of status that is not a commit. *)
Record quiet_step (i : nat) (G : ghost) (n : Z) (p : nat) (st' : generation_status) : Prop := {
  qs_range : 0 ≤ n < BEYOND;
  qs_before : commits G n = None;
  qs_after : state_of st' = None;
  qs_owner : p = i ∧ (G !! n = None ∨ ∃ st, G !! n = Some (i, st)) ∨
             st' = SDead ∧ ∃ st, G !! n = Some (p, st) ∧ is_live st = true;
  qs_racing : racing st' = true →
    (∀ m q st, n < m → G !! m = Some (q, st) → decisive st = false) ∧ (out_of_race G n → ∀ m, n < m → G !! m = None);
  qs_decisive : decisive st' = true → ∀ m, m < n → out_of_race G m;
  qs_read s : st' = SRead s → latest (commits G) n s
}.

Lemma quiet_update i fs fs' G n p st' : Inv (fs, G) → elsewhere fs fs' n → quiet_step i G n p st' →
  generation_ok (λ k, fs_operations fs' !! (k, n)) (Some (p, st')) →
  Inv (fs', <[n:=(p, st')]> G) ∧ guar i (fs, G) (fs', <[n:=(p, st')]> G).
Proof.
  intros [I1 I2 I3 I4 I5 I6] He [Q1 Q2 Q3 Q4 Q5 Q6 Q7] Hok. cbn [fst snd] in *.
  assert (Hc : ∀ m, commits (<[n:=(p, st')]> G) m = commits G m).
  { intros m. rewrite commits_insert. case_decide; [by subst; rewrite Q2, Q3|done]. }
  assert (Hsame : ∀ m s, latest (commits G) m s → latest (commits (<[n:=(p, st')]> G)) m s).
  { intros m s. apply latest_ext. intros. by rewrite Hc. }
  assert (Hdead : ∀ m, out_of_race G m → (m = n → ∃ k, n < k ∧ is_Some (G !! k)) → out_of_race (<[n:=(p, st')]> G) m).
  { intros m Hm Hk. apply settled_insert; [done|]. intros ->. destruct (Hk eq_refl) as (k & Hk1 & Hk2).
    apply not_true_is_false. intros Hr. destruct (Q5 Hr) as [_ Hn]. rewrite (Hn Hm k Hk1) in Hk2. by apply is_Some_None in Hk2. }
  split.
  - split; cbn [fst snd].
    + intros m. destruct (decide (m = n)) as [->|Hm].
      * rewrite lookup_insert_eq. exact Hok.
      * rewrite lookup_insert_ne by done. destruct (I1 m) as [G1 G2 G3 G4 G5]. unfold operations_at in *. cbn [fst] in *.
        split; intros *; rewrite !(He _ m Hm); eauto.
    + intros m. destruct (decide (m = n)) as [->|]; [done|]. rewrite lookup_insert_ne by done. apply I2.
    + intros m k q st Hmk Hk Hd. destruct (decide (k = n)) as [->|Hkn].
      * rewrite lookup_insert_eq in Hk. injection Hk as <- <-. apply settled_insert; [by apply Q6|lia].
      * rewrite lookup_insert_ne in Hk by done. apply Hdead; [by eapply I3|]. intros ->. eauto.
    + intros m q s Hm. apply Hsame. destruct (decide (m = n)) as [->|Hmn].
      * rewrite lookup_insert_eq in Hm. injection Hm as <- ->. by apply Q7.
      * rewrite lookup_insert_ne in Hm by done. by eapply I4.
    + intros m s. rewrite Hc. intros (s0 & H1 & H2)%I5. eauto.
    + intros m s. rewrite Hc. apply I6.
  - split; cbn [fst snd].
    + intros m q st Hq Hm. destruct (decide (m = n)) as [->|].
      * destruct Q4 as [[-> [HN|[st0 HN]]]|[-> (st0 & HN & Hl)]]; rewrite HN in Hm; [done| |].
        -- injection Hm as ? _. done.
        -- injection Hm as <- <-. right. by rewrite lookup_insert_eq.
      * left. by rewrite lookup_insert_ne.
    + intros m q st Hm. destruct (decide (m = n)) as [->|]; [|rewrite lookup_insert_ne by done; eauto].
      rewrite lookup_insert_eq. destruct Q4 as [[-> [HN|[st0 HN]]]|[-> (st0 & HN & _)]]; rewrite HN in Hm; [done| |];
        injection Hm as <- _; eauto.
    + intros m s. by rewrite Hc.
    + intros m k Hmk Hk Hm. apply Hdead; [done|]. intros ->. eauto.
    + intros m q st Hq Hm. destruct (decide (m = n)) as [->|]; [|left; unfold operations_at; cbn; by rewrite He].
      right. destruct (operations_at (fs', _) KPending n) eqn:E; [|done]. exfalso.
      destruct (go_pending _ _ Hok) as [Hp _]. unfold operations_at in E. cbn [fst] in E.
      destruct Hp as (? & ? & [= <- <-] & Hl); [by eexists|].
      destruct Q4 as [[-> [HN|[st0 HN]]]|[-> _]]; [by rewrite HN in Hm| |done].
      rewrite HN in Hm. by injection Hm as ? _.
    + intros m d. unfold operations_at. cbn [fst]. destruct (decide (m = n)) as [->|]; [|by rewrite He].
      intros Hd. destruct (go_committed _ _ (I1 n) d Hd) as (q & s & id & HG & _). by rewrite (commits_at _ _ _ _ HG) in Q2.
    + intros s Hs. exists s. split; [by apply Hsame|by left].
Qed.

(** The commit of the state that was decided from the one read. *)
Lemma commit_update i fs fs' G n s s' : Inv (fs, G) → elsewhere fs fs' n →
  G !! n = Some (i, SRead s) → decided s s' →
  generation_ok (λ k, fs_operations fs' !! (k, n)) (Some (i, SCommitted s')) →
  Inv (fs', <[n:=(i, SCommitted s')]> G) ∧ guar i (fs, G) (fs', <[n:=(i, SCommitted s')]> G).
Proof.
  intros [I1 I2 I3 I4 I5 I6] He Hn Hd Hok. cbn [fst snd] in *.
  pose proof (I4 n i s Hn) as Hlatest.
  assert (Habove : ∀ m q st, n < m → G !! m = Some (q, st) → decisive st = false).
  { intros m q st Hm Hq. apply not_true_is_false. intros Hdec. by specialize (I3 n m q st Hm Hq Hdec i (SRead s) Hn). }
  assert (Hnone : ∀ m, n < m → commits G m = None).
  { intros m Hm. unfold commits. destruct (G !! m) as [[q st]|] eqn:E; [|done]. specialize (Habove m q st Hm E). by destruct st. }
  assert (Hbelow : ∀ m t, m ≤ n → latest (commits G) m t → latest (commits (<[n:=(i, SCommitted s')]> G)) m t).
  { intros m t Hm. apply latest_ext. intros k Hk. rewrite commits_insert, decide_False by lia. done. }
  assert (Hdec : ∀ m q st, <[n:=(i, SCommitted s')]> G !! m = Some (q, st) → decisive st = true → m ≤ n).
  { intros m q st. destruct (decide (m = n)) as [->|]; [lia|]. rewrite lookup_insert_ne by done. intros Hm Hdec.
    assert (¬ n < m) by (intros ?; rewrite (Habove m q st) in Hdec by done; done). lia. }
  assert (Hset : ∀ m, out_of_race G m → out_of_race (<[n:=(i, SCommitted s')]> G) m).
  { intros m Hm. by apply settled_insert. }
  assert (Hgood0 : good version s).
  { destruct Hlatest as [_|m t _ Ht _]; [apply emptyState_good|by eapply I6]. }
  split.
  - split; cbn [fst snd].
    + intros m. destruct (decide (m = n)) as [->|Hm].
      * rewrite lookup_insert_eq. exact Hok.
      * rewrite lookup_insert_ne by done. destruct (I1 m) as [G1 G2 G3 G4 G5]. unfold operations_at in *. cbn [fst] in *.
        split; intros *; rewrite !(He _ m Hm); eauto.
    + intros m. destruct (decide (m = n)) as [->|]; [intros _; apply I2; by eexists|]. rewrite lookup_insert_ne by done. apply I2.
    + intros m k q st Hmk Hk Hdk. apply Hset. pose proof (Hdec k q st Hk Hdk) as Hkn.
      destruct (decide (k = n)) as [->|Hne]; [by eapply I3|]. rewrite lookup_insert_ne in Hk by done. by eapply I3.
    + intros m q t Hm. apply Hbelow; [by eapply Hdec|]. destruct (decide (m = n)) as [->|Hne].
      * by rewrite lookup_insert_eq in Hm.
      * rewrite lookup_insert_ne in Hm by done. by eapply I4.
    + intros m t Hm. rewrite commits_insert in Hm. case_decide as Hmn.
      * subst m. injection Hm as <-. exists s. split; [by apply Hbelow|done].
      * destruct (I5 m t Hm) as (s0 & H1 & H2). exists s0. split; [|done]. apply Hbelow; [|done].
        assert (¬ n < m) by (intros ?; by rewrite Hnone in Hm). lia.
    + intros m t. rewrite commits_insert. case_decide; [|by apply I6]. intros [= <-].
      destruct Hd as (d & r & Hd). by eapply decide_update_good.
  - split; cbn [fst snd].
    + intros m q st Hq Hm. left. destruct (decide (m = n)) as [->|]; [|by rewrite lookup_insert_ne].
      rewrite Hn in Hm. by injection Hm as ? _.
    + intros m q st Hm. destruct (decide (m = n)) as [->|]; [|rewrite lookup_insert_ne by done; eauto].
      rewrite lookup_insert_eq. rewrite Hn in Hm. injection Hm as <- _. eauto.
    + intros m t Hm. rewrite commits_insert. case_decide; [|done]. subst m.
      rewrite (commits_at _ _ _ _ Hn) in Hm. done.
    + intros m k _ _ Hm. by apply Hset.
    + intros m q st Hq Hm. destruct (decide (m = n)) as [->|]; [|left; unfold operations_at; cbn; by rewrite He].
      rewrite Hn in Hm. by injection Hm as ? _.
    + intros m d. unfold operations_at. cbn [fst]. destruct (decide (m = n)) as [->|]; [|by rewrite He].
      intros Hdir. destruct (go_committed _ _ (I1 n) d Hdir) as (q & t & id & HG & _). rewrite Hn in HG. done.
    + intros t Ht. exists s'. split.
      * apply (latest_some _ _ n); [apply I2; by eexists|by rewrite commits_insert, decide_True|].
        intros k Hk. rewrite commits_insert, decide_False by lia. apply Hnone. lia.
      * right. replace t with s; [done|]. eapply latest_unique; [exact Hlatest|].
        destruct Ht as [Ht|m t Hm Ht Hmax]; [left|eright; [|exact Ht|]].
        -- intros k Hk. apply Ht. pose proof (I2 n ltac:(by eexists)). lia.
        -- assert (m ≠ n) by (intros ->; by rewrite (commits_at _ _ _ _ Hn) in Ht).
           assert (¬ n < m) by (intros ?; by rewrite Hnone in Ht). lia.
        -- intros k Hk. apply Hmax. pose proof (I2 n ltac:(by eexists)). lia.
Qed.

(** ** The steps of the source *)
Lemma Inv_init : Inv (empty_cache, ∅).
Proof.
  split; cbn [fst snd]; intros *; rewrite ?lookup_empty; try done.
  split; unfold operations_at; cbn [fst empty_cache fs_operations]; intros *; rewrite ?lookup_empty; try done.
  split; [by intros []|]. by intros (? & ? & ? & _).
Qed.

(** What exists of a generation says its status. *)
Lemma live_pending fs G n d : Inv (fs, G) → fs_operations fs !! (KPending, n) = Some d → ∃ p st, G !! n = Some (p, st) ∧ is_live st = true.
Proof. intros HI Hd. destruct (go_pending _ _ (inv_ok _ HI n)) as [H _]. apply H. unfold operations_at. cbn. by rewrite Hd. Qed.

Lemma pending_only fs G n p st k : Inv (fs, G) → G !! n = Some (p, st) → is_live st = true →
  k ≠ KReserved → k ≠ KPending → fs_operations fs !! (k, n) = None.
Proof.
  intros HI Hn Hl Hk Hk'. destruct (inv_ok _ HI n) as [H1 H2 H3 H4 H5]. unfold operations_at in *. cbn [fst snd] in *.
  destruct (fs_operations fs !! (k, n)) as [d|] eqn:E; [|done]. exfalso. destruct k; try done.
  - destruct (H3 d E) as (? & s & ? & HG & _). rewrite Hn in HG. by injection HG as _ ->.
  - destruct (H5 KFenced) as [q HG]; [by left|by rewrite E|]. rewrite Hn in HG. by injection HG as _ ->.
  - destruct (H5 KCancelled) as [q HG]; [by right|by rewrite E|]. rewrite Hn in HG. by injection HG as _ ->.
Qed.

Lemma rename_operation k k' n fs fs' : k ≠ k' → rename_dir (OperationDir k n) (OperationDir k' n) fs = (None, fs') →
  ∃ d, fs_operations fs !! (k, n) = Some d ∧ elsewhere fs fs' n ∧
       fs_operations fs' !! (k, n) = None ∧ fs_operations fs' !! (k', n) = Some d ∧
       ∀ j, j ≠ k → j ≠ k' → fs_operations fs' !! (j, n) = fs_operations fs !! (j, n).
Proof.
  intros Hk. unfold rename_dir. cbn [dir_at]. destruct (fs_operations fs !! (k, n)) as [d|] eqn:Hd; [|done].
  lazymatch goal with |- context [if ?b then _ else _] => destruct b end; [|done]. intros [= <-]. exists d. split; [done|].
  unfold elsewhere, set_dir. cbn [fs_operations]. split; [|split; [|split]].
  - intros j m Hm. rewrite !lookup_partial_alter_ne by congruence. done.
  - rewrite lookup_partial_alter_ne by congruence. by rewrite lookup_partial_alter_eq.
  - by rewrite lookup_partial_alter_eq.
  - intros j H1 H2. by rewrite !lookup_partial_alter_ne by congruence.
Qed.

(** Fencing or cancelling: allowed to any process, whatever it does not own. *)
Lemma kill_step k n fs fs' G : k = KFenced ∨ k = KCancelled → Inv (fs, G) →
  rename_dir (OperationDir KPending n) (OperationDir k n) fs = (None, fs') →
  ∃ p, ∀ i, Inv (fs', <[n:=(p, SDead)]> G) ∧ guar i (fs, G) (fs', <[n:=(p, SDead)]> G).
Proof.
  intros Hk HI Hr. apply rename_operation in Hr as (d & Hd & He & Hp & Hk' & Hj); [|by destruct Hk as [-> | ->]].
  destruct (live_pending _ _ _ _ HI Hd) as (p & st & Hn & Hl). exists p. intros i.
  apply quiet_update; [done|done| |].
  - split; try done.
    + apply (inv_range _ HI). by exists (p, st).
    + rewrite (commits_at _ _ _ _ Hn). by destruct st.
    + right. eauto.
  - destruct (inv_ok _ HI n) as [H1 _ _ _ _]. unfold operations_at in H1. cbn [fst snd] in H1. rewrite Hn in H1.
    assert (Hc : fs_operations fs' !! (KCommitted, n) = None).
    { rewrite Hj; [|done|by destruct Hk as [-> | ->]]. by eapply pending_only. }
    split.
    + rewrite Hj; [|done|by destruct Hk as [-> | ->]]. split; [by eexists|]. intros _. apply H1. by eexists.
    + rewrite Hp. split; [by intros []|]. by intros (? & ? & [= <- <-] & ?).
    + by rewrite Hc.
    + done.
    + intros _ _ _. eauto.
Qed.

(** A change of the files of one's own pending operation. *)
Lemma files_step i n st fs fs' G d d' : Inv (fs, G) → G !! n = Some (i, st) →
  fs_operations fs !! (KPending, n) = Some d → fs_operations fs' = <[(KPending, n):=d']> (fs_operations fs) →
  Inv (fs', G) ∧ guar i (fs, G) (fs', G).
Proof.
  intros HI Hn Hd Hs. destruct (live_pending _ _ _ _ HI Hd) as (p & st0 & Hn' & Hl). rewrite Hn in Hn'. injection Hn' as <- <-.
  assert (Hk : ∀ k m, (k, m) ≠ (KPending, n) → fs_operations fs' !! (k, m) = fs_operations fs !! (k, m)).
  { intros k m Hkm. by rewrite Hs, lookup_insert_ne. }
  assert (Hp : ∀ m, is_Some (fs_operations fs' !! (KPending, m)) ↔ is_Some (fs_operations fs !! (KPending, m))).
  { intros m. destruct (decide (m = n)) as [->|]; [|by rewrite Hk by congruence]. rewrite Hs, lookup_insert_eq, Hd. split; by eexists. }
  destruct HI as [I1 I2 I3 I4 I5 I6]. cbn [fst snd] in *. split.
  - split; cbn [fst snd]; try done. intros m. destruct (I1 m) as [H1 H2 H3 H4 H5]. unfold operations_at in *. cbn [fst] in *.
    split; intros *; rewrite ?Hp, ?(Hk KReserved), ?(Hk KCommitted) by congruence; eauto.
    intros Hk'. rewrite Hk by (by destruct Hk' as [-> | ->]). by apply H5.
  - split; unfold operations_at; cbn [fst snd]; eauto.
    + intros m q st' Hq Hm. left. rewrite Hk; [done|]. intros [= ->]. rewrite Hn in Hm. by injection Hm as ? _.
    + intros m d0. by rewrite Hk by congruence.
Qed.

Lemma make_operation k n fs fs' : make_dir (OperationDir k n) fs = (None, fs') →
  fs_operations fs !! (k, n) = None ∧ ∃ d, fs_operations fs' = <[(k, n):=d]> (fs_operations fs).
Proof.
  unfold make_dir. cbn [dir_at]. destruct (fs_operations fs !! (k, n)); [done|]. intros [= <-]. split; [done|].
  cbn [new_id set_dir fs_operations]. eexists. apply map_eq. intros [j m].
  destruct (decide ((j, m) = (k, n))) as [->|]; [by rewrite lookup_partial_alter_eq, lookup_insert_eq|].
  by rewrite lookup_partial_alter_ne, lookup_insert_ne.
Qed.

Lemma insert_elsewhere fs fs' k n d : fs_operations fs' = <[(k, n):=d]> (fs_operations fs) → elsewhere fs fs' n.
Proof. intros H j m Hm. rewrite H, lookup_insert_ne by congruence. done. Qed.

Lemma reserved_step i n fs fs' G : Inv (fs, G) → 0 ≤ n < BEYOND → make_dir (OperationDir KReserved n) fs = (None, fs') →
  Inv (fs', <[n:=(i, SReserved)]> G) ∧ guar i (fs, G) (fs', <[n:=(i, SReserved)]> G).
Proof.
  intros HI Hrange (Hd & d & Hs)%make_operation. destruct (inv_ok _ HI n) as [H1 H2 H3 H4 H5]. unfold operations_at in *. cbn [fst snd] in *.
  assert (Hn : G !! n = None) by (destruct (G !! n) as [x|]; [|done]; destruct H1 as [_ [? H1]]; [by eexists|by rewrite Hd in H1]).
  assert (Hj : ∀ j, j ≠ KReserved → fs_operations fs' !! (j, n) = None).
  { intros j Hj. rewrite Hs, lookup_insert_ne by congruence.
    destruct (fs_operations fs !! (j, n)) as [d'|] eqn:E; [|done]. exfalso. rewrite Hn in *. destruct j; try done.
    - destruct H2 as [H2 _]. destruct H2 as (? & ? & ? & _); [by rewrite E|done].
    - by destruct (H3 d' E) as (? & ? & ? & ? & _).
    - by destruct (H5 KFenced) as [? ?]; [by left|by rewrite E|].
    - by destruct (H5 KCancelled) as [? ?]; [by right|by rewrite E|]. }
  apply quiet_update; [done|by eapply insert_elsewhere| |].
  - split; try done; [by unfold commits; rewrite Hn|]. left. split; [done|by left].
  - split; rewrite ?Hj by done; try done.
    + rewrite Hs, lookup_insert_eq. by split; eexists.
    + split; [by intros []|]. by intros (? & ? & [= <- <-] & ?).
    + intros k [-> | ->]; rewrite Hj by done; by intros [].
Qed.

(** The directories of a live generation do not depend on its status. *)
Lemma generation_ok_live ops p st st' : is_live st = true → is_live st' = true →
  generation_ok ops (Some (p, st)) → generation_ok ops (Some (p, st')).
Proof.
  intros Hl Hl' [H1 H2 H3 H4 H5]. split.
  - rewrite H1. by split; eexists.
  - rewrite H2. split; intros _; eauto.
  - intros d Hd. destruct (H3 d Hd) as (? & ? & ? & [= <- ->] & _). done.
  - intros q s [= <- ->]. done.
  - intros k Hk Ho. destruct (H5 k Hk Ho) as [? [= <- ->]]. done.
Qed.

Lemma pending_step i n fs fs' G : Inv (fs, G) → G !! n = Some (i, SReserved) → make_dir (OperationDir KPending n) fs = (None, fs') →
  Inv (fs', <[n:=(i, SPending)]> G) ∧ guar i (fs, G) (fs', <[n:=(i, SPending)]> G).
Proof.
  intros HI Hn (Hd & d & Hs)%make_operation. pose proof (inv_ok _ HI n) as Hok.
  apply quiet_update; [done|by eapply insert_elsewhere| |].
  - split; try done; [by apply (inv_range _ HI); eexists|by rewrite (commits_at _ _ _ _ Hn)|]. left. split; [done|]. right. eauto.
  - destruct Hok as [H1 H2 H3 H4 H5]. unfold operations_at in *. cbn [fst snd] in *. rewrite Hn in *.
    assert (Hj : ∀ j, j ≠ KPending → fs_operations fs' !! (j, n) = fs_operations fs !! (j, n)).
    { intros j Hj. by rewrite Hs, lookup_insert_ne by congruence. }
    split; rewrite ?Hj by done.
    + rewrite H1. by split; eexists.
    + rewrite Hs, lookup_insert_eq. split; [eauto|by eexists].
    + intros d' Hd'. by destruct (H3 d' Hd') as (? & ? & ? & ? & _).
    + done.
    + intros k Hk. rewrite Hj by (by destruct Hk as [-> | ->]). intros Ho. by destruct (H5 k Hk Ho).
Qed.

(** A process finds that it is not superseded. *)
Lemma clear_step i n fs G : Inv (fs, G) → G !! n = Some (i, SPending) → (∀ m, n < m → G !! m = None) →
  Inv (fs, <[n:=(i, SCleared)]> G) ∧ guar i (fs, G) (fs, <[n:=(i, SCleared)]> G).
Proof.
  intros HI Hn Hm. apply quiet_update; [done|done| |].
  - split; try done; [by apply (inv_range _ HI); eexists|by rewrite (commits_at _ _ _ _ Hn)|left; split; [done|right; eauto]|].
    intros _. split; [|done]. intros m q st Hnm. by rewrite Hm.
  - eapply (generation_ok_live _ _ SPending); [done|done|]. rewrite <-Hn. apply (inv_ok _ HI n).
Qed.

(** A process reads the newest state when the generations below are settled. *)
Lemma read_step i n s fs G : Inv (fs, G) → G !! n = Some (i, SCleared) → (∀ m, m < n → out_of_race G m) →
  newest_commit (commits G) s →
  Inv (fs, <[n:=(i, SRead s)]> G) ∧ guar i (fs, G) (fs, <[n:=(i, SRead s)]> G).
Proof.
  intros HI Hn Hset Hs.
  assert (Habove : ∀ m q st, n ≤ m → G !! m = Some (q, st) → decisive st = false).
  { intros m q st Hm Hq. destruct (decide (m = n)) as [->|]; [rewrite Hn in Hq; by injection Hq as _ <-|].
    apply not_true_is_false. intros Hd. pose proof (inv_settled _ HI n m q st ltac:(lia) Hq Hd i SCleared Hn). done. }
  assert (Hnone : ∀ m, n ≤ m → commits G m = None).
  { intros m Hm. unfold commits. destruct (G !! m) as [[q st]|] eqn:E; [|done]. specialize (Habove m q st Hm E). by destruct st. }
  apply quiet_update; [done|done| |].
  - split; try done; [by apply (inv_range _ HI); eexists|by rewrite (commits_at _ _ _ _ Hn)|left; split; [done|right; eauto]| |].
    + intros _. split; [intros m q st Hm; apply Habove; lia|]. intros Hsn. by specialize (Hsn _ _ Hn).
    + intros s' [= <-]. pose proof (inv_range _ HI n ltac:(by eexists)).
      destruct Hs as [H0|m t Hm Ht Hmax]; [left; intros; apply H0; lia|].
      assert (m < n) by (apply Z.nle_gt; intros ?; by rewrite Hnone in Ht).
      eright; [done|exact Ht|]. intros k Hk. apply Hmax. lia.
  - eapply (generation_ok_live _ _ SCleared); [done|done|]. rewrite <-Hn. apply (inv_ok _ HI n).
Qed.

(** The rename that commits. *)
Lemma commit_step i n s s' fs fs' G : Inv (fs, G) → G !! n = Some (i, SRead s) → decided s s' →
  (∀ d, fs_operations fs !! (KPending, n) = Some d → ∃ id, cd_files d !! StateFile = Some (id, state_json s')) →
  rename_dir (OperationDir KPending n) (OperationDir KCommitted n) fs = (None, fs') →
  Inv (fs', <[n:=(i, SCommitted s')]> G) ∧ guar i (fs, G) (fs', <[n:=(i, SCommitted s')]> G).
Proof.
  intros HI Hn Hdec Hfile (d & Hd & He & Hp & Hc & Hj)%rename_operation; [|done]. destruct (Hfile d Hd) as [id Hid].
  apply (commit_update _ _ _ _ _ s); [done..|]. pose proof (inv_ok _ HI n) as [H1 _ _ _ _]. unfold operations_at in H1. cbn [fst snd] in H1.
  split.
  - rewrite Hj by done. rewrite H1, Hn. by split; eexists.
  - rewrite Hp. split; [by intros []|]. by intros (? & ? & [= <- <-] & ?).
  - rewrite Hc. intros ? [= <-]. eauto.
  - rewrite Hc. by eexists.
  - intros k Hk. rewrite Hj, (pending_only _ _ _ _ _ k HI Hn) by (by destruct Hk as [-> | ->]). by intros [].
Qed.
End Protocol.
