(* ===== verification/CacheLogic.v ===== *)
(** * Reasoning about the programs of the cache directory

    Rules for the guards and the reads of [CacheFiles] and [CacheClaims] under
    any interference of other processes: what only reads, or only touches
    claims, keeps whatever the others keep. *)

From stdpp Require Import pretty gmap sorting.
From S2P Require Import Prelude Num JsValue Json Semver Updates RepositoryLocation UpdateCheck Concurrency CacheFiles CacheClaims CacheSafety.
#[local] Open Scope Z_scope.

(** ** Programs that change no operation *)
Definition of_operation (e : cache_entry) : bool := match e with OperationDir _ _ => true | ClaimDir _ => false end.
Definition harmless (c : cache_command) : bool :=
  match c with
  | Mutate (Mkdir e | RenameFile e _ _ | Remove e _) | Create e _ _ => negb (of_operation e)
  | Mutate (RenameDir e e') => negb (of_operation e) && negb (of_operation e')
  | _ => true
  end.

(** Nothing but harmless commands, and no errors but [F]. *)
Fixpoint benign {A} (F : cache_error → Prop) (p : cache_prog A) : Prop :=
  match p with
  | Ret _ | Stuck => True
  | Raise e => F e
  | Act c k => harmless c = true ∧ ∀ r, benign F (k r)
  end.

Lemma set_claim_operations c d fs : fs_operations (set_dir (ClaimDir c) d fs) = fs_operations fs.
Proof. done. Qed.

Lemma harmless_exec c b t fs : harmless c = true → fs_operations (exec c b t fs).2 = fs_operations fs.
Proof.
  destruct c as [| | | | | |[[]|[] []|[]|[]]|[]| | |]; try done; intros _; cbn [exec mutate].
  - unfold make_dir. by destruct (dir_at _ _).
  - unfold rename_dir. destruct (dir_at _ (ClaimDir c)); [|done].
    by lazymatch goal with |- context [if ?b then _ else _] => destruct b end.
  - unfold rename_file. destruct (dir_at _ _); [|done]. by destruct (_ !! _).
  - unfold remove_file. destruct (dir_at _ _); [|done]. by destruct (_ !! _).
  - unfold create_file. destruct (dir_at _ _); [|done]. by destruct (_ !! _).
Qed.

Lemma benign_mono {A} (F F' : cache_error → Prop) (p : cache_prog A) : (∀ e, F e → F' e) → benign F p → benign F' p.
Proof. intros HF. induction p as [| | |c k IH]; cbn; [done|auto|done|]. intros [Hc H]. auto. Qed.

Lemma benign_bind {A B} F (p : cache_prog A) (f : A → cache_prog B) :
  benign F p → (∀ a, benign F (f a)) → benign F (p ≫= f).
Proof.
  intros Hp Hf. induction p as [| | |c k IH]; cbn; [apply Hf|done|done|]. destruct Hp as [Hc H]. split; [done|].
  intros r. apply IH, H.
Qed.

Lemma benign_catch {A} F F' (p : cache_prog A) h : benign F' p → (∀ e, F' e → benign F (h e)) → benign F (prog_catch p h).
Proof. intros Hp Hh. induction p as [| | |c k IH]; cbn; [done|by apply Hh|done|]. destruct Hp as [Hc H]. auto. Qed.

Lemma benign_act F c : harmless c = true → benign F (act c).
Proof. by split. Qed.

(** Errors of the token, and of the parents of a mutation. *)
Definition untrusted (e : cache_error) : Prop := e = CachePathChangedError.
Definition unsettled (e : cache_error) : Prop := e = CachePathChangedError ∨ e = CacheOperationRaceError.
Definition anything (e : cache_error) : Prop := True.

Create HintDb benign discriminated.
(** Takes a program apart down to the calls whose errors are known. *)
Ltac benign_step :=
  lazymatch goal with
  | |- benign _ (mbind _ _) => apply benign_bind; [|intros]
  | |- benign _ (mret _) => exact I
  | |- benign _ (Ret _) => exact I
  | |- benign _ Stuck => exact I
  | |- benign anything (Raise _) => exact I
  | |- benign _ (act _) => apply benign_act; reflexivity
  | |- benign anything (prog_catch _ _) => apply benign_catch with (F' := anything); [|intros ? _]
  | |- benign _ (if ?b then _ else _) => destruct b
  | |- benign _ (match ?o with _ => _ end) => destruct o
  | |- benign _ (let _ := _ in _) => cbv zeta
  end.
(** The components' rules, once they are stated. *)
Ltac benign_hook := fail.
Ltac benign_prog := repeat first [solve [eauto with benign] | benign_step | benign_hook].

Lemma benign_found {A} (F : cache_error → Prop) (p : cache_prog (option A)) : benign F p → F ENOENT → benign F (found p).
Proof. intros. unfold found. apply benign_bind; [done|]. by intros [|]. Qed.

Lemma benign_cacheTokenFor : benign untrusted cacheTokenFor.
Proof. unfold cacheTokenFor. apply benign_bind; [by apply benign_act|]. by intros [[]|]. Qed.

Lemma benign_invalidate {A} : benign untrusted (invalidateCacheToken : cache_prog A).
Proof. unfold invalidateCacheToken. apply benign_bind; [by apply benign_act|done]. Qed.

Lemma benign_verifyCacheToken : benign untrusted verifyCacheToken.
Proof.
  unfold verifyCacheToken. apply benign_bind; [apply benign_cacheTokenFor|]. intros _.
  apply benign_bind; [by apply benign_act|]. intros []; [done|apply benign_invalidate].
Qed.

Lemma untrusted_unsettled e : untrusted e → unsettled e.
Proof. by left. Qed.

Lemma benign_verifyMutationParentSnapshots l : benign unsettled (verifyMutationParentSnapshots l).
Proof.
  induction l as [|[e id] l IH]; [done|]. cbn. split; [done|]. intros r. case_bool_decide; [done|by right].
Qed.

Lemma benign_verifyMutationContext l : benign unsettled (verifyMutationContext l).
Proof.
  unfold verifyMutationContext.
  pose proof (benign_mono _ _ _ untrusted_unsettled benign_verifyCacheToken) as Hv.
  apply benign_bind; [done|]. intros _. apply benign_bind; [apply benign_verifyMutationParentSnapshots|done].
Qed.

Lemma benign_capture l snapshots : benign anything (capture snapshots l).
Proof.
  revert snapshots. induction l as [|e l IH]; intros snapshots; [done|]. cbn [capture]. case_bool_decide; [done|].
  apply benign_bind; [|done]. by apply benign_found; [apply benign_act|].
Qed.

Lemma benign_captureMutationParentSnapshots l : benign unsettled (captureMutationParentSnapshots l).
Proof.
  unfold captureMutationParentSnapshots.
  pose proof (benign_mono _ _ _ untrusted_unsettled benign_verifyCacheToken) as Hv.
  apply benign_bind; [done|]. intros _. apply benign_bind.
  - eapply benign_catch; [apply benign_capture|]. intros e _. eapply benign_mono, benign_invalidate. apply untrusted_unsettled.
  - intros captured. apply benign_bind; [apply benign_verifyMutationParentSnapshots|]. intros _. by apply benign_bind.
Qed.

(** An entry that is missing may be an error of its own. *)
Lemma benign_stableCacheEntry t expected missing :
  benign (λ e, untrusted e ∨ missing = true ∧ e = ENOENT) (stableCacheEntry t expected missing).
Proof.
  unfold stableCacheEntry. eapply benign_catch with (F' := anything).
  - benign_prog; try (by apply benign_found; [apply benign_act|]). eapply benign_mono, benign_verifyCacheToken. done.
  - intros e _. destruct missing; cbn [andb]; [case_bool_decide|].
    + apply benign_bind; [eapply benign_mono, benign_verifyCacheToken; by left|]. intros _. by right.
    + eapply benign_mono, benign_invalidate. by left.
    + eapply benign_mono, benign_invalidate. by left.
Qed.

(** With any errors. *)
Lemma benign_anything {A} F (p : cache_prog A) : benign F p → benign anything p.
Proof. by apply benign_mono. Qed.

#[export] Hint Extern 1 (benign anything _) => (eapply benign_anything; first
  [ exact benign_cacheTokenFor | exact benign_verifyCacheToken | exact benign_invalidate
  | apply benign_verifyMutationContext | apply benign_captureMutationParentSnapshots
  | apply benign_stableCacheEntry ]) : benign.

Lemma benign_found_any {A} (p : cache_prog (option A)) : benign anything p → benign anything (found p).
Proof. intros. by apply benign_found. Qed.

Lemma benign_attempt (p : cache_prog (option cache_error)) : benign anything p → benign anything (throwing p).
Proof. intros. unfold throwing. benign_prog. Qed.

Lemma benign_attempt_value {A} (p : cache_prog (cache_error + A)) : benign anything p → benign anything (attempt_value p).
Proof. intros. unfold attempt_value. benign_prog. Qed.

Lemma benign_within_lease : benign anything within_lease.
Proof. by apply benign_act. Qed.
Lemma benign_readdir : benign anything readdir.
Proof. by apply benign_act. Qed.
#[export] Hint Resolve benign_found_any benign_attempt benign_attempt_value benign_within_lease benign_readdir : benign.

Lemma benign_guardedCacheRead {A} (read : cache_prog A) : benign anything read → benign anything (guardedCacheRead read).
Proof. intros. unfold guardedCacheRead. benign_prog. Qed.

Lemma benign_guardedCacheEntryRead {A} t (read : Z → cache_prog A) expected :
  (∀ id, benign anything (read id)) → benign anything (guardedCacheEntryRead t read expected).
Proof. intros. unfold guardedCacheEntryRead. benign_prog. Qed.

Lemma benign_guardedCacheMutation {A} parents before (mutate : cache_prog A) after :
  benign anything before → benign anything mutate → (∀ a, benign anything (after a)) →
  benign anything (guardedCacheMutation parents before mutate after).
Proof. intros. unfold guardedCacheMutation. benign_prog. Qed.

Lemma benign_assertCacheTargetAbsent t : benign anything (assertCacheTargetAbsent t).
Proof. unfold assertCacheTargetAbsent. benign_prog. Qed.
#[export] Hint Resolve benign_guardedCacheRead benign_guardedCacheEntryRead benign_guardedCacheMutation
  benign_assertCacheTargetAbsent : benign.

Ltac benign_hook ::=
  lazymatch goal with
  | |- benign anything (found _) => apply benign_found_any
  | |- benign anything (throwing _) => apply benign_attempt
  | |- benign anything (attempt_value _) => apply benign_attempt_value
  | |- benign anything (guardedCacheRead _) => apply benign_guardedCacheRead
  | |- benign anything (guardedCacheEntryRead _ _ _) => apply benign_guardedCacheEntryRead; intros
  | |- benign anything (guardedCacheMutation _ _ _ _) => apply benign_guardedCacheMutation; [| |intros]
  | |- benign anything (ignoring _ ?p) => unfold ignoring
  | |- benign anything (unless _ ?p) => unfold unless
  | |- benign anything (catching ?p) => unfold catching
  | |- benign anything (silently ?p) => unfold silently
  end.

Lemma benign_stable_unit t expected missing : benign anything (stableCacheEntry t expected missing ;; mret ()).
Proof. benign_prog. Qed.
#[export] Hint Resolve benign_stable_unit : benign.

(** ** Claims *)
Lemma benign_cacheMkdir_claim c : benign anything (cacheMkdir (ClaimDir c)).
Proof. unfold cacheMkdir. benign_prog. Qed.

Lemma benign_cacheWriteFile_claim c f v : benign anything (cacheWriteFile (ClaimDir c) f v).
Proof.
  unfold cacheWriteFile. benign_prog.
Qed.

Lemma benign_cacheRename_claim c c' expected : benign anything (cacheRename (Dir (ClaimDir c)) (Dir (ClaimDir c')) expected).
Proof.
  unfold cacheRename. unfold rename. benign_prog.
Qed.
#[export] Hint Resolve benign_cacheMkdir_claim benign_cacheWriteFile_claim benign_cacheRename_claim : benign.

Lemma benign_readJsonFile e f expected : benign anything (readJsonFile e f expected).
Proof. unfold readJsonFile. benign_prog. Qed.

Lemma benign_listOperations : benign anything listOperations.
Proof. unfold listOperations. benign_prog. Qed.

Lemma benign_operationIsActive o : benign anything (operationIsActive o).
Proof. unfold operationIsActive. benign_prog. Qed.
#[export] Hint Resolve benign_readJsonFile benign_listOperations benign_operationIsActive : benign.

Section Claims.
Context (fingerprint : Z → string).

Lemma benign_corruptClaimStatus id : benign anything (corruptClaimStatus fingerprint id).
Proof. unfold corruptClaimStatus. benign_prog. Qed.
Hint Resolve benign_corruptClaimStatus : benign.

Lemma benign_inspectActiveClaim : benign anything (inspectActiveClaim fingerprint).
Proof.
  unfold inspectActiveClaim. benign_prog.
Qed.
Hint Resolve benign_inspectActiveClaim : benign.

Lemma benign_retireActiveClaim key metadata : benign anything (retireActiveClaim key metadata).
Proof.
  unfold retireActiveClaim. benign_prog.
Qed.

Lemma benign_discardPreparedClaim o prepared : benign anything (discardPreparedClaim o prepared).
Proof. unfold discardPreparedClaim. benign_prog. Qed.

Lemma benign_operationIsSuperseded o : benign anything (operationIsSuperseded o).
Proof. unfold operationIsSuperseded. benign_prog. Qed.
Hint Resolve benign_retireActiveClaim benign_discardPreparedClaim benign_operationIsSuperseded : benign.

Lemma benign_promotion_attempts attempts o prepared : benign anything (promotion_attempts fingerprint attempts o prepared).
Proof.
  revert prepared. induction attempts as [|attempts IH]; intros prepared; cbn [promotion_attempts]; benign_prog.
Qed.

Lemma benign_promoteOperationClaim me o : benign anything (promoteOperationClaim fingerprint me o).
Proof. unfold promoteOperationClaim, prepareOperationClaim. benign_prog. apply benign_promotion_attempts. Qed.

Lemma benign_operationOwnsActiveClaim o : benign anything (operationOwnsActiveClaim fingerprint o).
Proof. unfold operationOwnsActiveClaim. benign_prog. Qed.

Lemma benign_hasActivePendingOperation : benign anything hasActivePendingOperation.
Proof.
  unfold hasActivePendingOperation. benign_prog.
  lazymatch goal with |- benign _ (active_ones ?l) => induction l; cbn [active_ones]; benign_prog end.
Qed.

Lemma benign_operationWasFenced n : benign anything (operationWasFenced n).
Proof. unfold operationWasFenced. benign_prog. Qed.
End Claims.

(** ** Rules *)
Section Rules.
Context (date_parse : string → option Z) (number_text : binary64 → string) (date_text : option Z → string).
Context (version : string) (i : nat).
Notation decided := (decided date_parse number_text date_text version).
Notation Inv := (Inv date_parse number_text date_text version).
Notation guar := (guar date_parse number_text date_text version).
Notation assn := (gstate → Prop).
Notation stable := (stable Inv guar i).
Notation rg := (rg exec Inv guar i).
Notation rely := (rely Inv guar i).

Lemma rely_same fs fs' G : fs_operations fs' = fs_operations fs → Inv (fs, G) → rely (fs, G) (fs', G).
Proof. intros Hs HI. exists (S i). split; [lia|]. split; [by apply guar_same|]. by eapply Inv_same. Qed.

Lemma stable_same (P : assn) fs fs' G : stable P → fs_operations fs' = fs_operations fs → Inv (fs, G) → P (fs, G) → P (fs', G).
Proof. intros HP Hs HI Hx. by eapply HP, rely_same. Qed.

Lemma stable_and (P Q : assn) : stable P → stable Q → stable (λ x, P x ∧ Q x).
Proof. intros HP HQ x y [? ?] ?. split; [by eapply HP|by eapply HQ]. Qed.

Lemma stable_const (A : Prop) : stable (λ _, A).
Proof. by intros x y. Qed.

Lemma stable_impl (A : Prop) (P : assn) : stable P → stable (λ x, A → P x).
Proof. intros HP x y Hx Hr HA. eapply HP; [by apply Hx|done]. Qed.

Lemma stable_forall {A} (P : A → assn) : (∀ a, stable (P a)) → stable (λ x, ∀ a, P a x).
Proof. intros HP x y Hx Hr a. by eapply HP. Qed.

Lemma stable_exists {A} (P : A → assn) : (∀ a, stable (P a)) → stable (λ x, ∃ a, P a x).
Proof. intros HP x y [a Hx] Hr. exists a. by eapply HP. Qed.

Lemma stable_or (P Q : assn) : stable P → stable Q → stable (λ x, P x ∨ Q x).
Proof. intros HP HQ x y [?|?] ?; [left; by eapply HP|right; by eapply HQ]. Qed.

(** What is benign keeps what is stable. *)
Lemma rg_benign {A} F (p : cache_prog A) (P : assn) x : benign F p → stable P → P x →
  rg p (λ _, P) (λ e y, F e ∧ P y) x.
Proof.
  intros Hp HP. revert x. induction p as [a|e| |c k IH]; intros x Hx; cbn.
  - intros y Hy _. by eapply stable_rtc.
  - intros y Hy _. split; [done|]. by eapply stable_rtc.
  - done.
  - intros [fs G] Hy HI b t. destruct Hp as [Hc Hk]. cbn [fst]. pose proof (harmless_exec c b t fs Hc) as Hs.
    destruct (exec c b t fs) as [[r t'] fs']. cbn [snd] in Hs. exists G.
    split; [by eapply Inv_same|]. split; [by apply guar_same|]. apply IH; [done|].
    eapply stable_same; [done..|]. by eapply stable_rtc.
Qed.

Lemma rg_bind_benign {A B} F (p : cache_prog A) (f : A → cache_prog B) (P : assn) (Q : B → assn) E x :
  benign F p → stable P → P x → (∀ e y, F e → P y → E e y) → (∀ a y, Inv y → P y → rg (f a) Q E y) → rg (p ≫= f) Q E x.
Proof.
  intros Hp HP Hx HE Hf. apply rg_bind. eapply rg_mono; [| |by eapply (rg_benign F _ P)]; [auto|].
  intros e y _ [He Hy]. auto.
Qed.

(** A harmless command, and what its reply says at that time. *)
Lemma rg_harmless c (P : assn) (Q : cache_reply c → assn) (E : cache_error → assn) x : harmless c = true →
  stable P → (∀ r, stable (Q r)) → P x →
  (∀ y b t, P y → Inv y → Q (exec c b t y.1).1.1 y) → rg (act c) Q E x.
Proof.
  intros Hc HP HQ Hx H. apply (rg_do _ _ _ _ _ P); [done..|]. intros [fs G] Hy HI b t. cbn [fst].
  pose proof (harmless_exec c b t fs Hc) as Hs. specialize (H (fs, G) b t Hy HI). cbn [fst] in H.
  destruct (exec c b t fs) as [[r t'] fs']. cbn [fst snd] in *. exists G. split; [by eapply Inv_same|].
  split; [by apply guar_same|]. by eapply stable_same.
Qed.

(** Errors of a call: what is left, and what a missing entry means. *)
Definition failing (W A : assn) (e : cache_error) : assn := λ y, W y ∧ (e = ENOENT → A y).

Lemma failing_stable W A e : stable W → stable A → stable (failing W A e).
Proof. intros. apply stable_and; [done|by apply stable_impl]. Qed.

(** Benign before and after; a missing entry is not one of their errors. *)
Lemma rg_benign_failing {A} F (p : cache_prog A) (P W M : assn) x :
  benign F p → ¬ F ENOENT → stable P → (∀ y, P y → W y) → P x → rg p (λ _, P) (failing W M) x.
Proof.
  intros Hp HF HP HW Hx. eapply rg_mono; [| |by eapply (rg_benign F _ P)]; [done|].
  intros e y _ [He Hy]. split; [by apply HW|]. by intros ->.
Qed.

Lemma not_untrusted : ¬ untrusted ENOENT.
Proof. done. Qed.
Lemma not_unsettled : ¬ unsettled ENOENT.
Proof. by intros [|]. Qed.

Lemma rg_invalidate {A} (Q : A → assn) W M x : stable W → stable M → W x → rg invalidateCacheToken Q (failing W M) x.
Proof.
  intros HW HM Hx. unfold invalidateCacheToken. apply (rg_bind_benign untrusted _ _ W); [by apply benign_act|done..| |].
  - by intros e y -> Hy.
  - intros r y _ Hy. apply rg_raise; [by apply failing_stable|]. by split.
Qed.

(** [catch (e) { check; throw e }] *)
Lemma rg_rethrow {A} (check : cache_prog ()) e (Q : A → assn) W M x : benign unsettled check → stable W → stable M →
  failing W M e x → rg (check ;; Raise e) Q (failing W M) x.
Proof.
  intros Hc HW HM Hx. assert (stable (failing W M e)) as Hf by (by apply failing_stable).
  apply (rg_bind_benign unsettled _ _ (failing W M e)); [done..| |].
  - intros e' y Hu [Hy _]. split; [done|]. intros ->. by destruct (not_unsettled Hu).
  - intros _ y _ Hy. by apply rg_raise.
Qed.

(** A mutation: [P] before it, [Q] after it, [W] if it throws. *)
Lemma rg_guardedCacheMutation {A} parents before (mutate : cache_prog A) after (P W M : assn) (Q : A → assn) x :
  stable P → (∀ a, stable (Q a)) → (∀ y, P y → W y) → (∀ a y, Q a y → W y) → stable W → stable M →
  (∀ y, P y → rg before (λ _, P) (failing W M) y) →
  (∀ y, P y → rg mutate Q (failing W M) y) →
  (∀ a, benign anything (after a)) → P x →
  rg (guardedCacheMutation parents before mutate after) Q (failing W M) x.
Proof.
  intros HP HQ HPW HQW HW HM Hb Hm Ha Hx. unfold guardedCacheMutation.
  pose proof (benign_verifyMutationContext parents) as Hv.
  apply (rg_bind_benign unsettled _ _ P); [done..| |].
  { intros e y He Hy. split; [by apply HPW|]. intros ->. by destruct (not_unsettled He). }
  intros _ y _ Hy. apply rg_bind. eapply rg_mono; [|done|by apply Hb]. intros r z _ Hz; cbn beta in Hz.
  apply rg_bind, rg_catch. eapply rg_mono; [| |by apply Hm].
  - intros a u _ Hu. apply rg_catch.
    assert (Herr : ∀ e v, anything e → Q a v → rg (if bool_decide (e = CacheOperationRaceError) then Raise e else invalidateCacheToken)
                                          Q (failing W M) v).
    { intros e v _ Hq. case_bool_decide as He; [|apply rg_invalidate; [done..|by eapply HQW]].
      apply rg_raise; [by apply failing_stable|]. split; [by eapply HQW|]. by subst. }
    apply (rg_bind_benign anything _ _ (Q a)); [benign_prog|done..|]. intros _ v _ Hq.
    apply (rg_bind_benign anything _ _ (Q a)); [benign_prog|done..|]. intros _ v' _ Hq'.
    apply (rg_bind_benign anything _ _ (Q a)); [benign_prog|done..|]. intros _ v'' _ Hq''. by apply rg_ret.
  - intros e u _ Hu. by apply rg_rethrow.
Qed.

(** ** Entries *)
Lemma rg_found_lstat t (P M : assn) x : stable P → stable M → P x →
  (∀ y, P y → Inv y → lstat_target y.1 t = None → M y) → rg (found (act (Lstat t))) (λ _, P) (failing P M) x.
Proof.
  intros HP HM Hx H. unfold found. apply rg_bind. set (R := λ (r : option Z) y, P y ∧ (r = None → M y)).
  apply (rg_mono _ _ _ _ _ R _ (failing P M)); [|done|apply (rg_harmless (Lstat t) P R); [done|done| |done|]].
  - intros [id|] y _ [Hy HMy]; [by apply rg_ret|]. apply rg_raise; [by apply failing_stable|by split; [|auto]].
  - intros r. apply stable_and; [done|by apply stable_impl].
  - intros y b t' Hy HI. cbn [exec fst]. split; [done|]. by apply H.
Qed.

Lemma rg_stableCacheEntry t expected (P M : assn) x : stable P → stable M → P x →
  (∀ y, P y → Inv y → lstat_target y.1 t = None → M y) →
  rg (stableCacheEntry t expected true) (λ _, P) (failing P M) x.
Proof.
  intros HP HM Hx H. unfold stableCacheEntry. apply rg_catch.
  apply (rg_mono _ _ _ _ _ (λ _, P) _ (failing P M)); [done| |].
  { intros e y _ Hy. cbn [andb]. case_bool_decide as He; [|apply rg_invalidate; [done..|apply Hy]].
    apply rg_rethrow; [|done..]. eapply benign_mono, benign_verifyCacheToken. apply untrusted_unsettled. }
  assert (Hother : ∀ y, P y → rg (Raise OtherError) (λ _ : Z, P) (failing P M) y).
  { intros y Hy. apply rg_raise; [by apply failing_stable|done]. }
  apply rg_bind. eapply rg_mono; [|done|by apply rg_found_lstat]. intros id y _ Hy.
  destruct (negb _); [by apply Hother|]. apply (rg_bind_benign untrusted _ _ P); [apply benign_verifyCacheToken|done..| |].
  { by intros e z -> Hz. }
  intros _ z _ Hz. apply rg_bind. eapply rg_mono; [|done|by apply rg_found_lstat]. intros id' u _ Hu.
  destruct (negb _); [by apply Hother|by apply rg_ret].
Qed.

(** An error leaves the directory as it is. *)
Lemma mutate_error m fs err fs' : mutate m fs = (Some err, fs') → fs' = fs.
Proof.
  destruct m as [e|e e'|e f f'|e f]; cbn [mutate]; [unfold make_dir|unfold rename_dir|unfold rename_file|unfold remove_file].
  - destruct (dir_at _ _); [|done]. by intros [= _ <-].
  - destruct (dir_at fs e); [|by intros [= _ <-]].
    lazymatch goal with |- context [if ?b then _ else _] => destruct b end; [done|]. by intros [= _ <-].
  - destruct (dir_at _ _); [|by intros [= _ <-]]. destruct (_ !! _); [done|]. by intros [= _ <-].
  - destruct (dir_at _ _); [|by intros [= _ <-]]. destruct (_ !! _); [done|]. by intros [= _ <-].
Qed.

Lemma Inv_step_same (x : gstate) : Inv x → Inv (x.1, x.2) ∧ guar i x (x.1, x.2).
Proof. destruct x. intros. split; [done|]. by apply guar_same. Qed.

Lemma rg_mutate m (P Q W M : assn) x : stable P → stable Q → stable W → stable M → P x → (∀ y, P y → W y) →
  (∀ y fs', P y → Inv y → mutate m y.1 = (Some ENOENT, fs') → M y) →
  (∀ y fs', P y → Inv y → mutate m y.1 = (None, fs') → ∃ G, Inv (fs', G) ∧ guar i y (fs', G) ∧ Q (fs', G)) →
  rg (throwing (act (Mutate m))) (λ _, Q) (failing W M) x.
Proof.
  intros HP HQ HW HM Hx HPW Hmissing Hstep. unfold throwing. apply rg_bind.
  set (R := λ (r : option cache_error) y, match r with None => Q y | Some err => failing W M err y end).
  eapply (rg_mono _ _ _ _ _ R _ (failing W M)); [|done|].
  { intros r y _ Hy. destruct r; [apply rg_raise; [by apply failing_stable|done]|by apply rg_ret]. }
  apply (rg_do _ _ _ _ (Mutate m) P R (failing W M)); [done|intros []; [by apply failing_stable|done]|done|].
  intros y Hy HI b t. cbn [exec]. destruct (mutate m y.1) as [[err|] fs'] eqn:E; [|by apply Hstep].
  pose proof (mutate_error _ _ _ _ E) as ->. exists y.2. destruct (Inv_step_same y HI). split; [done|]. split; [done|].
  replace (y.1, y.2) with y by (by destruct y). split; [by apply HPW|]. intros ->. by eapply Hmissing.
Qed.

(** A rename of a directory: an error [ENOENT] says the source was missing. *)
Lemma rg_cacheRename_dir e e' expected (P Q W M : assn) x : stable P → stable Q → stable W → stable M → P x →
  (∀ y, P y → W y) → (∀ y, Q y → W y) →
  (∀ y, P y → Inv y → dir_at y.1 e = None → M y) →
  (∀ y fs', P y → Inv y → rename_dir e e' y.1 = (None, fs') → ∃ G, Inv (fs', G) ∧ guar i y (fs', G) ∧ Q (fs', G)) →
  rg (cacheRename (Dir e) (Dir e') expected) (λ _, Q) (failing W M) x.
Proof.
  intros HP HQ HW HM Hx HPW HQW Hmissing Hstep. unfold cacheRename.
  assert (Hlstat : ∀ y, P y → Inv y → lstat_target y.1 (Dir e) = None → M y).
  { intros y Hy HI Hl. apply Hmissing; [done..|]. cbn in Hl. by destruct (dir_at _ _). }
  assert (Hstable : ∀ exp y, P y → rg (stableCacheEntry (Dir e) exp true) (λ _, P) (failing W M) y).
  { intros exp y Hy. eapply rg_mono; [| |by apply (rg_stableCacheEntry _ exp P M)]; [done|].
    intros err z _ [Hz HMz]. split; [by apply HPW|done]. }
  apply (rg_bind_benign untrusted _ _ P); [apply benign_cacheTokenFor|done..| |].
  { intros err y -> Hy. by split; [apply HPW|]. }
  intros _ y _ Hy. apply (rg_bind_benign unsettled _ _ P); [apply benign_captureMutationParentSnapshots|done..| |].
  { intros err z He Hz. split; [by apply HPW|]. intros ->. by destruct (not_unsettled He). }
  intros parents z _ Hz. apply rg_bind. eapply rg_mono; [|done|by apply Hstable]. intros id u _ Hu.
  apply (rg_guardedCacheMutation _ _ _ _ P W M (λ _, Q)); [done..| | | |done].
  - intros v Hv. apply rg_bind. eapply rg_mono; [|done|by apply Hstable]. intros ? w _ Hw. by apply rg_ret.
  - intros v Hv. apply (rg_mutate _ P); [done..| |done]. intros w fs' Hw HI Hr. apply Hmissing; [done..|].
    cbn [mutate] in Hr. unfold rename_dir in Hr. destruct (dir_at w.1 e); [|done].
    by lazymatch type of Hr with context [if ?b then _ else _] => destruct b end.
  - intros _. benign_prog.
Qed.

(** ** Mutations whose errors say nothing *)
Lemma rg_guarded {A} parents before (m : cache_prog A) after (P W : assn) (Q : A → assn) x :
  stable P → (∀ a, stable (Q a)) → (∀ y, P y → W y) → (∀ a y, Q a y → W y) → stable W →
  benign anything before → (∀ y, P y → rg m Q (failing W (λ _, True)) y) → (∀ a, benign anything (after a)) → P x →
  rg (guardedCacheMutation parents before m after) Q (λ _, W) x.
Proof.
  intros HP HQ HPW HQW HW Hb Hm Ha Hx.
  apply (rg_mono _ _ _ _ _ Q _ (failing W (λ _, True))); [done|by intros e y _ [? _]|].
  apply (rg_guardedCacheMutation _ _ _ _ P W (λ _, True)); try done.
  intros y Hy. eapply rg_mono; [| |by apply (rg_benign anything _ P)]; [done|].
  intros e z _ [_ Hz]. split; [by apply HPW|done].
Qed.

Lemma rg_cacheMkdir e (P Q W : assn) x : stable P → stable Q → stable W → P x → (∀ y, P y → W y) → (∀ y, Q y → W y) →
  (∀ y fs', P y → Inv y → make_dir e y.1 = (None, fs') → ∃ G, Inv (fs', G) ∧ guar i y (fs', G) ∧ Q (fs', G)) →
  rg (cacheMkdir e) (λ _, Q) (λ _, W) x.
Proof.
  intros HP HQ HW Hx HPW HQW Hstep. unfold cacheMkdir.
  apply (rg_bind_benign anything _ _ P); [benign_prog|done|done|auto|]. intros _ y _ Hy.
  apply (rg_bind_benign anything _ _ P); [benign_prog|done|done|auto|]. intros parents z _ Hz.
  apply (rg_guarded _ _ _ _ P W (λ _, Q)); try done; [|intros; benign_prog]. intros u Hu. by apply (rg_mutate _ P).
Qed.

Lemma rg_cacheWriteFile e f v (P Q W : assn) x : stable P → stable Q → stable W → P x → (∀ y, P y → W y) → (∀ y, Q y → W y) →
  (∀ y id fs', P y → Inv y → create_file e f v y.1 = (inr id, fs') → ∃ G, Inv (fs', G) ∧ guar i y (fs', G) ∧ Q (fs', G)) →
  rg (cacheWriteFile e f v) (λ _, Q) (λ _, W) x.
Proof.
  intros HP HQ HW Hx HPW HQW Hstep. unfold cacheWriteFile.
  apply (rg_bind_benign anything _ _ P); [benign_prog|done|done|auto|]. intros _ y _ Hy.
  apply (rg_bind_benign anything _ _ P); [benign_prog|done|done|auto|]. intros parents z _ Hz.
  apply rg_bind. apply (rg_mono _ _ _ _ _ (λ _, Q) _ (λ _, W)); [|done|apply (rg_guarded _ _ _ _ P W (λ _, Q)); try done; [|intros; benign_prog]].
  { intros ? u _ Hu. by apply rg_ret. }
  intros u Hu. unfold attempt_value. apply rg_bind.
  set (R := λ (r : cache_error + Z) y, match r with inr _ => Q y | inl _ => W y end).
  eapply (rg_mono _ _ _ _ _ R _ (failing W (λ _, True))); [|done|].
  { intros r w _ Hw. destruct r; [apply rg_raise; [by apply failing_stable|by split]|by apply rg_ret]. }
  apply (rg_do _ _ _ _ (Create e f v) P R (failing W (λ _, True))); [done|by intros []|done|].
  intros w Hw HI b t. cbn [exec]. destruct (create_file e f v w.1) as [[err|id] fs'] eqn:E; [|by eapply Hstep].
  assert (fs' = w.1) as ->.
  { unfold create_file in E. destruct (dir_at _ _); [|by injection E]. destruct (_ !! _); [by injection E|done]. }
  exists w.2. destruct (Inv_step_same w HI). split; [done|]. split; [done|].
  replace (w.1, w.2) with w by (by destruct w). by apply HPW.
Qed.

Lemma rg_cacheRename_file e f f' (P Q W : assn) x : stable P → stable Q → stable W → P x → (∀ y, P y → W y) → (∀ y, Q y → W y) →
  (∀ y fs', P y → Inv y → rename_file e f f' y.1 = (None, fs') → ∃ G, Inv (fs', G) ∧ guar i y (fs', G) ∧ Q (fs', G)) →
  rg (cacheRename (File e f) (File e f') None) (λ _, Q) (λ _, W) x.
Proof.
  intros HP HQ HW Hx HPW HQW Hstep. unfold cacheRename.
  apply (rg_bind_benign anything _ _ P); [benign_prog|done|done|auto|]. intros _ y _ Hy.
  apply (rg_bind_benign anything _ _ P); [benign_prog|done|done|auto|]. intros parents z _ Hz.
  apply (rg_bind_benign anything _ _ P); [benign_prog|done|done|auto|]. intros id u _ Hu.
  apply (rg_guarded _ _ _ _ P W (λ _, Q)); try done; [benign_prog| |intros; benign_prog].
  intros w Hw. unfold rename. rewrite bool_decide_true by done. by apply (rg_mutate _ P).
Qed.

(** The removal of a file changes nothing that is kept. *)
Lemma rg_cacheRm e f (P : assn) x : stable P → P x →
  (∀ y fs', P y → Inv y → remove_file e f y.1 = (None, fs') → ∃ G, Inv (fs', G) ∧ guar i y (fs', G) ∧ P (fs', G)) →
  rg (cacheRm e f) (λ _, P) (λ _, P) x.
Proof.
  intros HP Hx Hstep. unfold cacheRm.
  apply (rg_bind_benign anything _ _ P); [benign_prog|done|done|auto|]. intros _ y _ Hy.
  apply (rg_bind_benign anything _ _ P); [benign_prog|done|done|auto|]. intros parents z _ Hz.
  apply (rg_bind_benign anything _ _ P); [benign_prog|done|done|auto|]. intros [id|] u _ Hu.
  - apply (rg_bind_benign anything _ _ P); [benign_prog|done|done|auto|]. intros id' w _ Hw.
    apply (rg_guarded _ _ _ _ P P (λ _, P)); try done; [benign_prog| |intros; benign_prog].
    intros v Hv. by apply (rg_mutate _ P).
  - eapply rg_mono; [| |apply (rg_benign anything _ P); [benign_prog|done|done]]; [done|]. by intros e' v _ [_ Hv].
Qed.

(** ** Listings *)
Lemma dir_generation x k n : Inv x → is_Some (operations_at x k n) → is_Some (x.2 !! n).
Proof.
  intros HI [d Hd]. destruct (inv_ok _ _ _ _ _ HI n) as [H1 H2 H3 H4 H5]. destruct k.
  - apply H1. by eexists.
  - destruct H2 as [H2 _]. destruct H2 as (p & st & H & _); [by eexists|by rewrite H].
  - destruct (H3 d Hd) as (p & s & id & H & _). by rewrite H.
  - destruct (H5 KFenced) as [p H]; [by left|by eexists|by rewrite H].
  - destruct (H5 KCancelled) as [p H]; [by right|by eexists|by rewrite H].
Qed.

Lemma listed_spec x o : Inv x → o ∈ listed x.1 ↔ is_Some (operations_at x (op_kind o) (op_generation o)).
Proof.
  intros HI. rewrite listed_operations.
  - rewrite list_elem_of_fmap. split.
    + intros ([[k n] d] & -> & Hd%elem_of_map_to_list). by exists d.
    + intros [d Hd]. exists (op_kind o, op_generation o, d). split; [by destruct o|]. by apply elem_of_map_to_list.
  - intros k n Hn. apply (dir_generation x) in Hn; [|done]. apply (inv_range _ _ _ _ _ HI) in Hn. unfold BEYOND in Hn. lia.
Qed.

Lemma rg_guardedCacheRead {A} (read : cache_prog A) (P W : assn) (Q : A → assn) x : stable P → (∀ a, stable (Q a)) → stable W →
  P x → (∀ y, P y → W y) → (∀ a y, Q a y → W y) → (∀ y, P y → rg read Q (λ _, W) y) →
  rg (guardedCacheRead read) Q (λ _, W) x.
Proof.
  intros HP HQ HW Hx HPW HQW Hread. unfold guardedCacheRead.
  apply (rg_bind_benign anything _ _ P); [benign_prog|done|done|auto|]. intros _ y _ Hy.
  apply rg_bind, rg_catch. eapply rg_mono; [| |by apply Hread].
  - intros a z _ Hz. apply (rg_bind_benign anything _ _ (Q a)); [benign_prog|done|done|eauto|]. intros _ u _ Hu. by apply rg_ret.
  - intros e z _ Hz. apply (rg_bind_benign anything _ _ W); [benign_prog|done|done|auto|]. intros _ u _ Hu. by apply rg_raise.
Qed.

Lemma rg_listOperations (P W : assn) (Q : list operation → assn) x : stable P → (∀ l, stable (Q l)) → stable W → P x →
  (∀ y, P y → W y) → (∀ l y, Q l y → W y) →
  (∀ y, P y → Inv y → ∃ G, Inv (y.1, G) ∧ guar i y (y.1, G) ∧ Q (listed y.1) (y.1, G)) →
  rg listOperations Q (λ _, W) x.
Proof.
  intros HP HQ HW Hx HPW HQW Hstep. unfold listOperations.
  apply (rg_bind_benign anything _ _ P); [benign_prog|done|done|auto|]. intros _ y _ Hy.
  apply (rg_guardedCacheRead _ P); [done..|]. intros u Hu. apply rg_bind.
  set (R := λ (names : list string) u, Q (omap parseOperationName names) u).
  apply (rg_mono _ _ _ _ _ R _ (λ _, W)); [|done|apply (rg_do _ _ _ _ Readdir P R (λ _ : cache_error, W)); [done|intros ?; apply HQ|done|]].
  - intros names v _ Hv. by apply rg_ret.
  - intros v Hv HI b t. cbn [exec]. by apply Hstep.
Qed.

(** A call throws only what it can throw. *)
Lemma rg_benign_errors {A} F (p : cache_prog A) (Q : A → assn) E x : benign F p → rg p Q E x → rg p Q (λ e y, F e ∧ E e y) x.
Proof.
  revert x. induction p as [| | |c k IH]; intros x Hp; cbn; [done|by auto|done|].
  intros H y Hy Hi b l. specialize (H y Hy Hi b l). destruct (exec c b l y.1) as [[r l'] s].
  destruct H as (g & ? & ? & H). exists g. split; [done|]. split; [done|]. by apply IH; [apply Hp|].
Qed.

(** ** Reading the state *)

(** The newest commit is the first of the list. *)
Lemma newest_first_spec x : Inv x →
  match newest_first (of_kind KCommitted (listed x.1)) with
  | [] => ∀ n, operations_at x KCommitted n = None
  | o :: _ => op_kind o = KCommitted ∧ is_Some (operations_at x KCommitted (op_generation o)) ∧
              ∀ n, op_generation o < n → operations_at x KCommitted n = None
  end.
Proof.
  intros HI. unfold newest_first.
  pose proof (merge_sort_Permutation (flip older) (of_kind KCommitted (listed x.1))) as Hp.
  pose proof (StronglySorted_merge_sort (flip older) (of_kind KCommitted (listed x.1))) as Hs.
  assert (Hin : ∀ o, o ∈ merge_sort (flip older) (of_kind KCommitted (listed x.1)) ↔
                     op_kind o = KCommitted ∧ is_Some (operations_at x KCommitted (op_generation o))).
  { intros o. rewrite Hp. unfold of_kind. rewrite list_elem_of_filter, listed_spec by done.
    split; intros [Hk Ho]; (split; [done|by rewrite Hk in *]). }
  destruct (merge_sort _ _) as [|o l].
  - intros n. destruct (operations_at x KCommitted n) eqn:E; [|done]. exfalso.
    destruct (Hin {| op_kind := KCommitted; op_generation := n |}) as [_ H]. cbn in H. rewrite E in H.
    by eapply not_elem_of_nil, H; split; [|eexists].
  - destruct (Hin o) as [H _]. destruct (H ltac:(by left)) as [Hk Ho]. split; [done|]. split; [done|].
    intros n Hn. destruct (operations_at x KCommitted n) eqn:E; [|done]. exfalso.
    destruct (Hin {| op_kind := KCommitted; op_generation := n |}) as [_ Hn']. cbn in Hn'. rewrite E in Hn'.
    specialize (Hn' ltac:(by split; [|eexists])). apply elem_of_cons in Hn' as [<-|Hl]; [cbn in Hn; lia|].
    inversion Hs as [|? ? _ Hall]; subst. rewrite Forall_forall in Hall. specialize (Hall _ Hl). unfold flip, older in Hall.
    cbn in Hall. lia.
Qed.

(** The directory of a commit, which never changes. *)
Definition has_commit (n : Z) (s : update_state) : assn := λ x,
  ∃ d id, operations_at x KCommitted n = Some d ∧ cd_files d !! StateFile = Some (id, state_json s).

Lemma holds_stable n s : stable (has_commit n s).
Proof. intros x y (d & id & Hd & Hf) Hr. exists d, id. split; [|done]. by eapply committed_dir_stable. Qed.

Context (parsed : semver) (Hversion : parseSemver (JString version) = inr parsed).

(** Errors that reading the state does not swallow. *)
Definition rethrown (e : cache_error) : Prop :=
  e = FileIdentityChangedError ∨ e = CachePathChangedError ∨ e = CacheOperationRaceError.

Lemma rg_found_present t (P : assn) x : stable P → P x → (∀ y, P y → Inv y → lstat_target y.1 t ≠ None) →
  rg (found (act (Lstat t))) (λ _, P) (λ _ _, False) x.
Proof.
  intros HP Hx H.
  apply (rg_mono _ _ _ _ _ (λ _, P) _ (λ e y, e = ENOENT ∧ failing P (λ _, False) e y)); [done| |].
  - by intros e y _ [-> [_ []]].
  - apply rg_benign_errors; [by apply benign_found; [apply benign_act|]|].
    apply rg_found_lstat; [done|apply stable_const|done|]. intros y Hy HI Hl. by eapply H.
Qed.

Lemma rg_stable_present t (P : assn) expected x : stable P → P x → (∀ y, P y → Inv y → lstat_target y.1 t ≠ None) →
  rg (stableCacheEntry t expected true) (λ _, P) (λ e y, e = CachePathChangedError ∧ P y) x.
Proof.
  intros HP Hx H.
  apply (rg_mono _ _ _ _ _ (λ _, P) _ (λ e y, (untrusted e ∨ true = true ∧ e = ENOENT) ∧ failing P (λ _, False) e y)); [done| |].
  - by intros e y _ [[He|[_ ->]] [Hy Hm]]; [|destruct (Hm eq_refl)].
  - apply rg_benign_errors; [apply benign_stableCacheEntry|].
    apply rg_stableCacheEntry; [done|apply stable_const|done|]. intros y Hy HI Hl. by eapply H.
Qed.

Lemma rg_read_state_file n s (P : assn) x : stable P → P x → (∀ y, P y → has_commit n s y) →
  rg (readJsonFile (OperationDir KCommitted n) StateFile None)
    (λ v y, v = state_json s ∧ P y) (λ e y, e = FileIdentityChangedError ∧ P y) x.
Proof.
  intros HP Hx Hh. unfold readJsonFile. set (t := File (OperationDir KCommitted n) StateFile).
  assert (Hfile : ∀ y, P y → ∃ id, file_at y.1 (OperationDir KCommitted n) StateFile = Some (id, state_json s)).
  { intros y Hy. destruct (Hh y Hy) as (d & id & Hd & Hf). exists id. unfold file_at. cbn [dir_at].
    unfold operations_at in Hd. by rewrite Hd. }
  assert (Hlstat : ∀ y, P y → rg (found (act (Lstat t))) (λ _, P) (λ _ _, False) y).
  { intros y Hy. apply rg_found_present; [done|done|]. intros z Hz _. destruct (Hfile z Hz) as [id Hid].
    cbn [lstat_target t]. by rewrite Hid. }
  apply rg_bind. apply (rg_mono _ _ _ _ _ (λ _, P) _ (λ _ _, False)); [|by intros ? ? _ []|by apply Hlstat]. intros id y _ Hy. cbn [same_as negb].
  apply rg_bind. set (R := λ (r : Z * jsval) z, r.2 = state_json s ∧ P z).
  assert (∀ r, stable (R r)) as HR by (intros; by apply stable_and; [apply stable_const|]).
  apply (rg_mono _ _ _ _ _ R _ (λ _ _, False)); [|by intros ? ? _ []|].
  - intros r z _ [Hv Hz]. apply rg_bind. apply (rg_mono _ _ _ _ _ (λ _, P) _ (λ _ _, False)); [|by intros ? ? _ []|by apply Hlstat].
    intros current u _ Hu. destruct (_ && _).
    + apply rg_ret; [|done]. by apply stable_and; [apply stable_const|].
    + apply rg_raise; [|done]. by apply stable_and; [apply stable_const|].
  - unfold found. apply rg_bind. set (R' := λ (o : option (Z * jsval)) z, ∃ id, o = Some (id, state_json s) ∧ P z).
    assert (∀ r, stable (R' r)) as HR' by (intros; apply stable_exists; intros; by apply stable_and; [apply stable_const|]).
    apply (rg_mono _ _ _ _ _ R' _ (λ _ _, False)); [|done|].
    + intros o z _ (id' & -> & Hz). by apply rg_ret.
    + apply (rg_harmless (Read _ _) P R'); [done..|]. intros z b t' Hz HI. cbn [exec fst].
      destruct (Hfile z Hz) as [id' ->]. by exists id'.
Qed.

(** A commit is read as what was committed. *)
Lemma rg_first_readable o l s (P : assn) x : stable P → P x → op_kind o = KCommitted →
  (∀ y, P y → has_commit (op_generation o) s y) → good version s → encodeRecoverableState number_text s = true →
  rg (first_readable number_text date_text (Some version) (o :: l)) (λ r y, r = s ∧ P y) (λ _, P) x.
Proof.
  intros HP Hx Hk Hh Hg He. cbn [first_readable]. rewrite Hk. set (e := OperationDir KCommitted (op_generation o)).
  assert (Hentry : ∀ y exp, P y → rg (stableCacheEntry (Dir e) exp true) (λ _, P) (λ err z, err = CachePathChangedError ∧ P z) y).
  { intros y exp Hy. apply rg_stable_present; [done..|]. intros z Hz _. destruct (Hh z Hz) as (d & id & Hd & _).
    cbn [lstat_target dir_at e]. unfold operations_at in Hd. by rewrite Hd. }
  assert (Hs : ∀ (A : Prop), stable (λ y, A ∧ P y)) by (intros; by apply stable_and; [apply stable_const|]).
  set (R := λ (r : option update_state) y, r = Some s ∧ P y).
  apply rg_bind, rg_catch.
  apply (rg_mono _ _ _ _ _ R _ (λ err y, rethrown err ∧ P y)).
  { intros r y _ [-> Hy]. by apply rg_ret; [apply Hs|]. }
  { intros err y _ [Herr Hy]. by destruct Herr as [-> |[-> | ->]]; apply rg_raise. }
  unfold guardedCacheEntryRead. apply rg_bind. apply (rg_mono _ _ _ _ _ (λ _, P) _ (λ err z, err = CachePathChangedError ∧ P z)); [| |by apply Hentry].
  2: { intros err y _ [-> Hy]. split; [by right; left|done]. }
  intros id y _ Hy. apply rg_bind, rg_catch, rg_bind.
  apply (rg_mono _ _ _ _ _ (λ v z, v = state_json s ∧ P z) _ (λ err z, err = FileIdentityChangedError ∧ P z));
    [| |by apply (rg_read_state_file _ s P)].
  - intros v z _ [-> Hz]. apply rg_ret.
    { intros u w Hu Hr. eapply rg_rely; [|exact Hu]. by apply rtc_once. }
    apply rg_bind. apply (rg_mono _ _ _ _ _ (λ _, P) _ (λ err z, err = CachePathChangedError ∧ P z)); [| |by apply Hentry].
    + intros ? u _ Hu. apply rg_ret; [by apply Hs|]. split; [|done]. by eapply normalizeState_json.
    + intros err u _ [-> Hu]. split; [by right; left|done].
  - intros err z _ [-> Hz]. apply rg_bind. apply (rg_mono _ _ _ _ _ (λ _, P) _ (λ err z, err = CachePathChangedError ∧ P z)); [| |by apply Hentry].
    + intros ? u _ Hu. apply rg_raise; [by apply Hs|]. by split; [left|].
    + intros err u _ [-> Hu]. split; [by right; left|done].
Qed.

(** What a listing says of the newest state. *)
Definition reads (l : list operation) (s : update_state) : assn := λ x,
  match newest_first (of_kind KCommitted l) with
  | [] => s = emptyState (Some version)
  | o :: _ => op_kind o = KCommitted ∧ has_commit (op_generation o) s x ∧ good version s ∧ encodeRecoverableState number_text s = true
  end.

Lemma reads_stable l s : stable (reads l s).
Proof.
  unfold reads. destruct (newest_first _); [apply stable_const|]. apply stable_and; [apply stable_const|].
  apply stable_and; [apply holds_stable|apply stable_const].
Qed.

Lemma commit_none x n : Inv x → operations_at x KCommitted n = None → commits x.2 n = None.
Proof.
  intros HI Hn. unfold commits. destruct (x.2 !! n) as [[p st]|] eqn:E; [|done]. destruct st; try done. exfalso.
  destruct (go_commit _ _ (inv_ok _ _ _ _ _ HI n) p s E) as [d Hd]. by rewrite Hn in Hd.
Qed.

Lemma newest_reads x : Inv x → ∃ s, newest_commit version (commits x.2) s ∧ reads (listed x.1) s x.
Proof.
  intros HI. unfold reads. pose proof (newest_first_spec x HI) as H. destruct (newest_first _) as [|o l].
  - exists (emptyState (Some version)). split; [|done]. left. intros n _. by apply commit_none.
  - destruct H as (Hk & [d Hd] & Hmax).
    destruct (go_committed _ _ (inv_ok _ _ _ _ _ HI _) d Hd) as (p & s & id & HG & Hf).
    assert (commits x.2 (op_generation o) = Some s) as Hc by (by rewrite (commits_at _ _ _ _ HG)).
    exists s. split.
    + eright; [|exact Hc|].
      * eapply (inv_range _ _ _ _ _ HI). by eexists.
      * intros m Hm. apply commit_none; [done|]. apply Hmax. lia.
    + split; [done|]. split; [by exists d, id|]. by apply (inv_good _ _ _ _ _ HI (op_generation o)).
Qed.

(** Reading the state, at the time of the listing. *)
Lemma rg_readState (P W : assn) (Q : update_state → assn) x : stable P → (∀ s, stable (Q s)) → stable W → P x →
  (∀ y, P y → W y) → (∀ s y, Q s y → W y) →
  (∀ y s, P y → Inv y → newest_commit version (commits y.2) s → ∃ G, Inv (y.1, G) ∧ guar i y (y.1, G) ∧ Q s (y.1, G)) →
  rg (readState number_text date_text (Some version)) Q (λ _, W) x.
Proof.
  intros HP HQ HW Hx HPW HQW Hstep. unfold readState.
  apply (rg_bind_benign anything _ _ P); [benign_prog|done|done|auto|]. intros _ y _ Hy.
  apply (rg_guardedCacheRead _ P); [done..|]. intros z Hz. apply rg_bind.
  set (R := λ l u, ∃ s, Q s u ∧ reads l s u).
  assert (HR : ∀ l, stable (R l)) by (intros; apply stable_exists; intros; apply stable_and; [done|apply reads_stable]).
  apply (rg_mono _ _ _ _ _ R _ (λ _, W)); [|done|].
  - intros l u _ (s & Hq & Hr). unfold reads in Hr. destruct (newest_first _) as [|o rest].
    + subst s. by apply rg_ret.
    + destruct Hr as (Hk & Hh & Hg & He).
      apply (rg_mono _ _ _ _ _ (λ r v, r = s ∧ (Q s v ∧ has_commit (op_generation o) s v)) _ (λ _ v, Q s v ∧ has_commit (op_generation o) s v)).
      * by intros r v _ [-> [? _]].
      * intros _ v _ [Hv _]. by eapply HQW.
      * apply rg_first_readable; [apply stable_and; [done|apply holds_stable]|done|done| |done|done]. by intros v [_ ?].
  - apply (rg_listOperations P); [done..| |].
    + intros l u (s & Hq & _). by eapply HQW.
    + intros u Hu HI. destruct (newest_reads u HI) as (s & Hn & Hr).
      destruct (Hstep u s Hu HI Hn) as (G & HI' & Hg & Hq). exists G. split; [done|]. split; [done|]. exists s. split; [done|].
      unfold reads in *. by destruct (newest_first _).
Qed.
End Rules.
