(* ===== verification/CacheProtocol.v ===== *)
(** * The operations of the cache under interference

    What a process knows at each point of a check or an acknowledgement, whatever
    the others do: the generation it reserved is its own until it is fenced, the
    state it decides on is the newest one when it commits, and what it returns
    is said of a state that was committed. *)

From stdpp Require Import pretty gmap sorting.
From S2P Require Import Prelude Num JsValue Json Semver Updates RepositoryLocation UpdateCheck Concurrency CacheFiles CacheClaims CacheSafety CacheLogic.
#[local] Open Scope Z_scope.

Section Operations.
Context (date_parse : string → option Z) (number_text : binary64 → string) (date_text : option Z → string).
Context (fingerprint : Z → string) (version : string) (i : nat).
Context (parsed : semver) (Hversion : parseSemver (JString version) = inr parsed).
Notation decided := (decided date_parse number_text date_text version).
Notation Inv := (Inv date_parse number_text date_text version).
Notation guar := (guar date_parse number_text date_text version).
Notation assn := (gstate → Prop).
Notation stable := (stable Inv guar i).
Notation rg := (rg exec Inv guar i).

(** ** Facts about commits *)

(** What later commits keep. *)
Definition upward (R : assn) : Prop := ∀ x y, (∀ n s, commits x.2 n = Some s → commits y.2 n = Some s) → R x → R y.

Lemma upward_guar (R : assn) j x y : upward R → guar j x y → R x → R y.
Proof. intros HR Hg. apply HR. apply (gu_commits _ _ _ _ _ _ _ Hg). Qed.

Lemma upward_stable R : upward R → stable R.
Proof. intros HR x y Hx (j & _ & Hg & _). by eapply upward_guar. Qed.

Definition somewhere (P : update_state → Prop) : assn := λ x, ∃ n s, commits x.2 n = Some s ∧ P s.
Lemma somewhere_upward P : upward (somewhere P).
Proof. intros x y H (n & s & Hn & Hs). exists n, s. auto. Qed.

Lemma somewhere_newest (P : update_state → Prop) x s : (∀ s s', decided s s' → P s → P s') → Inv x → somewhere P x →
  newest_commit version (commits x.2) s → P s.
Proof. intros HP HI (n & t & Hn & Ht). by eapply newest_keeps. Qed.

(** Facts about commits are kept by every program. *)
Lemma rg_frame {A} (p : cache_prog A) (Q : A → assn) E (R : assn) x : upward R → R x → rg p Q E x →
  rg p (λ a y, Q a y ∧ R y) (λ e y, E e y ∧ R y) x.
Proof.
  intros HR. pose proof (upward_stable R HR) as Hst.
  assert (Hrtc : ∀ x y, R x → rtc (rely Inv guar i) x y → R y) by (intros ? ? Hx; by eapply stable_rtc).
  revert x. induction p as [a|e| |c k IH]; intros x Hx; cbn.
  - intros H y Hy HI. split; [by apply H|by eapply Hrtc].
  - intros H y Hy HI. split; [by apply H|by eapply Hrtc].
  - done.
  - intros H y Hy HI b t. specialize (H y Hy HI b t). destruct (exec c b t y.1) as [[r t'] fs]. destruct H as (G & HI' & Hg & H).
    exists G. split; [done|]. split; [done|]. apply IH; [|done]. eapply upward_guar; [done..|]. by eapply Hrtc.
Qed.

(** The digests that were acknowledged before. *)
Context (D : string → Prop).
Definition acknowledged_before : assn := λ x, ∀ d, D d → somewhere (λ s, d ∈ us_acknowledgedDigests s) x.
Lemma acknowledged_before_upward : upward acknowledged_before.
Proof. intros x y H Hx d Hd. by eapply somewhere_upward, Hx. Qed.

(** A state as it is read: it has these digests, and is a commit or empty. *)
Definition current_state (s : update_state) : assn := λ x,
  (∀ d, D d → d ∈ us_acknowledgedDigests s) ∧ good version s ∧
  (s = emptyState (Some version) ∨ somewhere (eq s) x).
Lemma current_state_upward s : upward (current_state s).
Proof. intros x y H (H1 & H2 & H3). split; [done|]. split; [done|]. destruct H3; [by left|right; by eapply somewhere_upward]. Qed.

Lemma newest_current x s : Inv x → acknowledged_before x → newest_commit version (commits x.2) s → current_state s x.
Proof.
  intros HI Ha Hs. split; [|split; [by eapply newest_good|]].
  - intros d Hd. eapply (somewhere_newest (λ s, d ∈ us_acknowledgedDigests s)); [|done|by apply Ha|done].
    intros s1 s2 H. by eapply decided_acknowledged.
  - destruct Hs as [_|n t _ Ht _]; [by left|right]. by exists n, t.
Qed.

Notation owns := (owns i).
Notation mine n := (owns n (λ _, True)).
Notation R0 := acknowledged_before.

Lemma R0_stable : stable R0.
Proof. apply upward_stable, acknowledged_before_upward. Qed.

Lemma owns_R0_stable n S : (∀ st, S st → is_live st = true → S SDead) → stable (λ x, R0 x ∧ owns n S x).
Proof. intros. apply stable_and; [apply R0_stable|by apply owns_stable]. Qed.

(** ** Cancelling and fencing *)
Lemma rg_kill k n expected (R : assn) x : k = KFenced ∨ k = KCancelled → stable R → R x →
  rg (cacheRename (Dir (OperationDir KPending n)) (Dir (OperationDir k n)) expected) (λ _, R) (λ _, R) x.
Proof.
  intros Hk HR Hx.
  apply (rg_mono _ _ _ _ _ (λ _, R) _ (failing R (λ _, True))); [done|by intros e y _ [? _]|].
  apply (rg_cacheRename_dir _ _ _ _ _ _ _ _ R); try done.
  intros [fs G] fs' Hy HI Hr. cbn [fst] in Hr.
  destruct (kill_step date_parse number_text date_text version k n fs fs' G Hk HI Hr) as (p & Hstep).
  exists (<[n:=(p, SDead)]> G). destruct (Hstep i) as [HI' Hg]. split; [done|]. split; [done|].
  eapply HR; [exact Hy|]. exists (S i). split; [lia|]. by split; [apply Hstep|].
Qed.

Lemma rg_ignoring errors (p : cache_prog ()) (Q W : assn) x : stable Q → stable W →
  rg p (λ _, Q) (λ e y, (e ∈ errors → Q y) ∧ W y) x → rg (ignoring errors p) (λ _, Q) (λ _, W) x.
Proof.
  intros HQ HW H. unfold ignoring. apply rg_catch. eapply rg_mono; [| |exact H]; [done|].
  intros e y _ [Hq Hw]. case_bool_decide; [by apply rg_ret; [|auto]|by apply rg_raise].
Qed.

Lemma rg_cancelOperation n (R : assn) x : stable R → R x → rg (cancelOperation n) (λ _, R) (λ _, R) x.
Proof.
  intros HR Hx. apply rg_ignoring; [done..|]. eapply rg_mono; [| |apply (rg_kill _ _ _ R); [by right|done..]]; [done|by auto].
Qed.

Lemma rg_silently (p : cache_prog ()) (R : assn) x : stable R → rg p (λ _, R) (λ _, R) x → ∀ E, rg (silently p) (λ _, R) E x.
Proof.
  intros HR H E. unfold silently. apply rg_catch. eapply rg_mono; [| |exact H]; [done|]. intros e y _ Hy. by apply rg_ret.
Qed.

(** [p], whose errors are caught by the caller. *)
Lemma rg_catching {A} (p : cache_prog A) (Q : A → assn) (W : assn) x : (∀ a, stable (Q a)) → stable W →
  rg p Q (λ _, W) x → rg (catching p) (λ r y, match r with inr a => Q a y | inl _ => W y end) (λ _ _, True) x.
Proof.
  intros HQ HW H. unfold catching. apply rg_catch, rg_bind. eapply rg_mono; [| |exact H].
  - intros a y _ Hy. by apply (rg_ret _ _ _ _ _ _ _).
  - intros e y _ Hy. by apply (rg_ret _ _ _ _ _ _ _).
Qed.

(** ** Status of one's own generation *)
Definition waiting (st : generation_status) : Prop := st = SPending ∨ st = SDead.
Definition cleared (st : generation_status) : Prop := st = SCleared ∨ st = SDead.
Definition has_read (s : update_state) (st : generation_status) : Prop := st = SRead s ∨ st = SDead.

Lemma waiting_stable n : stable (λ x, R0 x ∧ owns n waiting x).
Proof. apply owns_R0_stable. intros st _ _. by right. Qed.
Lemma cleared_stable n : stable (λ x, R0 x ∧ owns n cleared x).
Proof. apply owns_R0_stable. intros st _ _. by right. Qed.
Lemma reserved_stable n : stable (λ x, R0 x ∧ owns n (eq SReserved) x).
Proof. apply owns_R0_stable. by intros st <-. Qed.
Lemma mine_stable n : stable (λ x, R0 x ∧ mine n x).
Proof. by apply owns_R0_stable. Qed.
Lemma owns_mine n S x : R0 x ∧ owns n S x → R0 x ∧ mine n x.
Proof. intros [? ?]. split; [done|]. by eapply owns_mono. Qed.

(** A file of one's own pending directory is written. *)
Lemma own_files_step n S fs fs' G d d' : Inv (fs, G) → (R0 (fs, G) ∧ owns n S (fs, G)) →
  fs_operations fs !! (KPending, n) = Some d → fs_operations fs' = <[(KPending, n):=d']> (fs_operations fs) →
  Inv (fs', G) ∧ guar i (fs, G) (fs', G) ∧ (R0 (fs', G) ∧ owns n S (fs', G)).
Proof.
  intros HI [HR Ho] Hd Hs. destruct Ho as (st & Hn & Hst). destruct (files_step _ _ _ _ i n st fs fs' G d d' HI Hn Hd Hs) as [HI' Hg].
  split; [done|]. split; [done|]. split; [|by exists st]. eapply upward_guar; [apply acknowledged_before_upward|done|done].
Qed.

Lemma create_own n f v fs id fs' : create_file (pending n) f v fs = (inr id, fs') →
  ∃ d, fs_operations fs !! (KPending, n) = Some d ∧
       fs_operations fs' = <[(KPending, n):=set_file f (Some (id, v)) d]> (fs_operations fs).
Proof.
  unfold create_file, pending. cbn [dir_at]. destruct (fs_operations fs !! (KPending, n)) as [d|]; [|done].
  destruct (cd_files d !! f); [done|]. intros [= <- <-]. by exists d.
Qed.

Lemma rg_own_write n S f v x : stable (λ x, R0 x ∧ owns n S x) → R0 x ∧ owns n S x →
  rg (cacheWriteFile (pending n) f v) (λ _ x, R0 x ∧ owns n S x) (λ _ x, R0 x ∧ owns n S x) x.
Proof.
  intros HS Hx. apply (rg_cacheWriteFile _ _ _ _ _ _ _ _ (λ x, R0 x ∧ owns n S x)); try done.
  intros [fs G] id fs' Hy HI (d & Hd & Hs)%create_own. exists G. by eapply own_files_step.
Qed.

(** ** Reserving *)
Lemma next_free_ge fuel occupied n : n ≤ next_free fuel occupied n.
Proof. revert n. induction fuel as [|fuel IH]; intros n; cbn [next_free]; [lia|]. case_bool_decide; [|lia]. specialize (IH (n + 1)). lia. Qed.

(** The inner loop ends at a generation that is not occupied: [fuel + 1]
    generations in a row cannot all be. *)
Lemma next_free_free occupied n : next_free (length occupied) occupied n ∉ occupied.
Proof.
  assert (Hrun : ∀ fuel n, next_free fuel occupied n ∈ occupied → ∀ j, (j ≤ fuel)%nat → n + Z.of_nat j ∈ occupied).
  { induction fuel as [|fuel IH]; intros m; cbn [next_free].
    - intros Hm j Hj. by replace (m + Z.of_nat j) with m by lia.
    - case_bool_decide as Hm; [|done]. intros H j Hj. destruct j as [|j]; [by replace (m + Z.of_nat 0) with m by lia|].
      replace (m + Z.of_nat (S j)) with (m + 1 + Z.of_nat j) by lia. apply IH; [done|lia]. }
  intros H. specialize (Hrun _ _ H).
  assert (Hsub : seqZ n (Z.of_nat (S (length occupied))) ⊆+ occupied).
  { apply NoDup_submseteq; [apply NoDup_seqZ|]. intros m Hm%elem_of_seqZ.
    replace m with (n + Z.of_nat (Z.to_nat (m - n))) by lia. apply Hrun. lia. }
  apply submseteq_length in Hsub. rewrite length_seqZ in Hsub. lia.
Qed.

Lemma rg_reserved n x : 0 ≤ n < BEYOND → R0 x →
  rg (cacheMkdir (OperationDir KReserved n)) (λ _ y, R0 y ∧ owns n (eq SReserved) y) (λ _, R0) x.
Proof.
  intros Hn Hx. apply (rg_cacheMkdir _ _ _ _ _ _ R0); [apply R0_stable|apply reserved_stable|apply R0_stable|done|done|by intros y []|].
  intros [fs G] fs' Hy HI Hm. cbn [fst] in Hm. destruct (reserved_step _ _ _ _ i n fs fs' G HI Hn Hm) as [HI' Hg].
  exists (<[n:=(i, SReserved)]> G). split; [done|]. split; [done|].
  split; [by eapply upward_guar; [apply acknowledged_before_upward|..]|]. exists SReserved. cbn [snd]. by rewrite lookup_insert_eq.
Qed.

Lemma rg_pending n x : R0 x ∧ owns n (eq SReserved) x →
  rg (cacheMkdir (pending n)) (λ _ y, R0 y ∧ owns n waiting y) (λ _, R0) x.
Proof.
  intros Hx. apply (rg_cacheMkdir _ _ _ _ _ _ (λ y, R0 y ∧ owns n (eq SReserved) y));
    [apply reserved_stable|apply waiting_stable|apply R0_stable|done|by intros y []|by intros y []|].
  intros [fs G] fs' [HR (st & Hn & <-)] HI Hm. cbn [fst snd] in *. destruct (pending_step _ _ _ _ i n fs fs' G HI Hn Hm) as [HI' Hg].
  exists (<[n:=(i, SPending)]> G). split; [done|]. split; [done|].
  split; [by eapply upward_guar; [apply acknowledged_before_upward|..]|]. exists SPending. cbn [snd]. rewrite lookup_insert_eq. split; [done|by left].
Qed.

(** What is benign keeps [R0], whatever it throws. *)
Lemma rg_keep {A} (p : cache_prog A) (R : assn) x : benign anything p → stable R → R x → rg p (λ _, R) (λ _, R) x.
Proof.
  intros Hp HR Hx. eapply rg_mono; [| |by apply (rg_benign _ _ _ _ i anything p R)]; [done|]. by intros e y _ [_ Hy].
Qed.

Lemma rg_owner_file me n x : R0 x ∧ owns n waiting x →
  rg (prog_catch (cacheWriteFile (pending n) OwnerFile
        (JObject [("pid", JNumber (ip_pid me)); ("token", JString (ip_token me n))]))
      (λ e, was ← operationWasFenced n;
            if was : bool then Raise OperationFencedError
            else silently (transitionOperation n KCancelled) ;; Raise e))
    (λ _ y, R0 y ∧ owns n waiting y) (λ _, R0) x.
Proof.
  intros Hx. apply rg_catch. eapply rg_mono; [| |by apply rg_own_write; [apply waiting_stable|]]; [done|].
  intros e y _ Hy.
  apply (rg_bind_benign _ _ _ _ _ anything _ _ R0); [apply benign_operationWasFenced|apply R0_stable|apply Hy|done|].
  intros was z _ Hz. destruct was; [by apply rg_raise; [apply R0_stable|]|]. apply rg_bind.
  apply (rg_mono _ _ _ _ _ (λ _, R0) _ (λ _, R0)); [|done|].
  - intros _ u _ Hu. by apply rg_raise; [apply R0_stable|].
  - apply rg_silently; [apply R0_stable|]. by apply (rg_kill _ _ _ R0); [right|apply R0_stable|].
Qed.

Lemma rg_reserve fuel me occupied from x : 0 ≤ from → R0 x →
  rg (reserve fuel me occupied from) (λ o y, R0 y ∧ owns (oo_generation o) waiting y) (λ _, R0) x.
Proof.
  revert occupied from x. induction fuel as [|fuel IH]; intros occupied from x Hfrom Hx; [done|]. cbn [reserve].
  set (n := next_free (length occupied) occupied from). assert (from ≤ n) by apply next_free_ge.
  destruct (MAX_OPERATION_GENERATION <? n) eqn:Hmax; [by apply rg_raise; [apply R0_stable|]|].
  assert (0 ≤ n < BEYOND) by (unfold BEYOND; lia).
  set (R := λ (b : bool) y, R0 y ∧ (b = true → owns n (eq SReserved) y)).
  assert (HR : ∀ b, stable (R b)).
  { intros b. apply stable_and; [apply R0_stable|]. apply stable_impl, owns_stable. by intros st <-. }
  apply rg_bind, rg_catch, rg_bind. apply (rg_mono _ _ _ _ _ (λ _ y, R0 y ∧ owns n (eq SReserved) y) _ (λ _, R0)); [| |by apply rg_reserved].
  2: { intros e y _ Hy. case_bool_decide; [|by apply rg_raise; [apply R0_stable|]].
       apply rg_ret; [|by apply IH; [lia|]]. intros z u Hz Hr. eapply rg_rely; [|exact Hz]. by apply rtc_once. }
  intros _ y _ Hy. apply rg_ret; [intros z u Hz Hr; eapply rg_rely; [|exact Hz]; by apply rtc_once|]. cbn [negb].
  set (Q := λ (r : option own_operation) z, match r with Some o => R0 z ∧ owns (oo_generation o) waiting z | None => R0 z end).
  assert (HQ : ∀ r, stable (Q r)) by (intros [o|]; [apply waiting_stable|apply R0_stable]).
  apply rg_bind. apply (rg_mono _ _ _ _ _ Q _ (λ _, R0)); [|done|].
  { intros [o|] z _ Hz; [by apply rg_ret; [apply waiting_stable|]|by apply IH; [lia|]]. }
  apply rg_catch, rg_bind. apply (rg_mono _ _ _ _ _ (λ _ y, R0 y ∧ owns n waiting y) _ (λ _, R0)); [| |by apply rg_pending].
  2: { intros e z _ Hz. case_bool_decide; [by apply (rg_ret _ _ _ _ None Q)|by apply rg_raise; [apply R0_stable|]]. }
  intros _ z _ Hz. cbv zeta. cbn [oo_token]. apply rg_bind. eapply rg_mono; [| |by apply rg_owner_file].
  - intros r u _ Hu. by apply (rg_ret _ _ _ _ (Some {| oo_generation := n; oo_token := ip_token me n |}) Q).
  - intros e u _ Hu. case_bool_decide; [by apply (rg_ret _ _ _ _ None Q)|by apply rg_raise; [apply R0_stable|]].
Qed.

Lemma rg_reserveOperation fuel me x : R0 x →
  rg (reserveOperation fuel me) (λ o y, R0 y ∧ owns (oo_generation o) waiting y) (λ _, R0) x.
Proof.
  intros Hx. unfold reserveOperation.
  apply (rg_bind_benign _ _ _ _ _ anything _ _ R0); [unfold prepareCacheDirectory; benign_prog|apply R0_stable|done|done|]. intros _ y _ Hy.
  apply (rg_bind_benign _ _ _ _ _ anything _ _ R0); [benign_prog|apply R0_stable|done|done|]. intros l z _ Hz. by apply rg_reserve.
Qed.

(** A generation that is not superseded when it looks is cleared. *)
Lemma rg_clear o x : R0 x ∧ owns (oo_generation o) waiting x →
  rg (operationIsSuperseded o)
    (λ b y, R0 y ∧ (b = false → owns (oo_generation o) cleared y)) (λ _, R0) x.
Proof.
  intros Hx. unfold operationIsSuperseded. set (n := oo_generation o) in *. apply rg_bind.
  set (Q := λ (b : bool) y, R0 y ∧ (b = false → owns n cleared y)).
  assert (HQ : ∀ b, stable (Q b)).
  { intros b. apply stable_and; [apply R0_stable|]. apply stable_impl, owns_stable. intros st _ _. by right. }
  set (sup := λ l : list operation, existsb (λ x, n <? op_generation x) l).
  apply (rg_mono _ _ _ _ _ (λ l, Q (sup l)) _ (λ _, R0)); [|done|].
  { intros l y _ Hy. by apply (rg_ret _ _ _ _ _ Q). }
  apply (rg_listOperations _ _ _ _ _ (λ y, R0 y ∧ owns n waiting y));
    [apply waiting_stable|done|apply R0_stable|done|by intros y []|by intros l y []|].
  intros [fs G] [HR (st & Hn & Hst)] HI. cbn [fst snd] in *.
  assert (Hsame : ∀ R : assn, R (fs, G) → ∃ G', Inv (fs, G') ∧ guar i (fs, G) (fs, G') ∧ R (fs, G')).
  { intros R Hr. exists G. split; [done|]. split; [by apply guar_same|done]. }
  destruct Hst as [-> | ->].
  2: { apply Hsame. split; [done|]. intros _. exists SDead. split; [done|by right]. }
  destruct (sup (listed fs)) eqn:Hs; [by apply Hsame|].
  destruct (clear_step _ _ _ _ i n fs G HI Hn) as [HI' Hg].
  - intros m Hm. destruct (G !! m) as [q|] eqn:E; [|done]. exfalso. apply not_true_iff_false in Hs. apply Hs.
    apply existsb_exists. exists {| op_kind := KReserved; op_generation := m |}. split; [|cbn; lia].
    apply list_elem_of_In, (listed_spec date_parse number_text date_text version (fs, G)); [done|]. cbn. apply (go_reserved _ _ (inv_ok _ _ _ _ _ HI m)). by exists q.
  - exists (<[n:=(i, SCleared)]> G). split; [done|]. split; [done|].
    split; [by eapply upward_guar; [apply acknowledged_before_upward|..]|]. intros _. exists SCleared. cbn [snd]. rewrite lookup_insert_eq. split; [done|by left].
Qed.

Definition acquired (r : option own_operation) : assn := λ y,
  match r with Some o => R0 y ∧ owns (oo_generation o) cleared y | None => R0 y end.
Lemma acquired_stable r : stable (acquired r).
Proof. destruct r; [apply cleared_stable|apply R0_stable]. Qed.

Lemma rg_acquireOperation fuel me x : R0 x → rg (acquireOperation fingerprint fuel me) acquired (λ _, R0) x.
Proof.
  intros Hx. unfold acquireOperation. pose proof R0_stable as HR.
  assert (Hnone : ∀ y, R0 y → rg (mret None : cache_prog (option own_operation)) acquired (λ _, R0) y).
  { intros y Hy. by apply (rg_ret _ _ _ _ None acquired). }
  apply (rg_bind_benign _ _ _ _ _ anything _ _ R0); [unfold prepareCacheDirectory; benign_prog|done..|]. intros _ y _ Hy.
  apply (rg_bind_benign _ _ _ _ _ anything _ _ R0); [apply benign_inspectActiveClaim|done..|]. intros claim z _ Hz.
  assert (Hrest : rg (busy ← hasActivePendingOperation;
      if busy : bool then mret None
      else
        reserved ← prog_catch (o ← reserveOperation fuel me; mret (Some o))
          (λ e, if bool_decide (e = OperationFencedError) then mret None else Raise e);
        match reserved with
        | None => mret None
        | Some o =>
            superseded ← operationIsSuperseded o;
            promoted ← (if superseded : bool then mret false else promoteOperationClaim fingerprint me o);
            if promoted : bool then mret (Some o) else cancelOperation (oo_generation o) ;; mret None
        end) acquired (λ _, R0) z).
  2: { destruct claim; [exact Hrest|by apply Hnone|exact Hrest]. }
  apply (rg_bind_benign _ _ _ _ _ anything _ _ R0); [apply benign_hasActivePendingOperation|done..|]. intros busy u _ Hu.
  destruct busy; [by apply Hnone|].
  set (Q := λ (r : option own_operation) z, match r with Some o => R0 z ∧ owns (oo_generation o) waiting z | None => R0 z end).
  apply rg_bind. apply (rg_mono _ _ _ _ _ Q _ (λ _, R0)); [|done|].
  - intros [o|] v _ Hv; [|by apply Hnone]. apply rg_bind.
    apply (rg_mono _ _ _ _ _ (λ b y, R0 y ∧ (b = false → owns (oo_generation o) cleared y)) _ (λ _, R0)); [|done|by apply rg_clear].
    intros superseded w _ [Hw Hc]. apply rg_bind.
    set (Q' := λ (b : bool) z, R0 z ∧ (b = true → owns (oo_generation o) cleared z)).
    assert (HQ' : ∀ b, stable (Q' b)).
    { intros b. apply stable_and; [done|]. apply stable_impl, owns_stable. intros st _ _. by right. }
    apply (rg_mono _ _ _ _ _ Q' _ (λ _, R0)); [|done|].
    + intros promoted t _ [Ht Hp]. destruct promoted; [by apply (rg_ret _ _ _ _ (Some o) acquired); [apply acquired_stable|split; auto]|].
      apply rg_bind.
      apply (rg_mono _ _ _ _ _ (λ _, R0) _ (λ _, R0)); [|done|by apply rg_cancelOperation]. intros _ t' _ Ht'. by apply Hnone.
    + destruct superseded; [by apply (rg_ret _ _ _ _ false Q')|]. specialize (Hc eq_refl).
      eapply rg_mono; [| |apply (rg_keep _ (λ y, R0 y ∧ owns (oo_generation o) cleared y));
        [apply benign_promoteOperationClaim|apply cleared_stable|done]].
      * intros b t _ [Ht Ho]. by split.
      * by intros e t _ [Ht _].
  - apply rg_catch, rg_bind. eapply rg_mono; [| |by apply rg_reserveOperation].
    + intros o v _ Hv. by apply (rg_ret _ _ _ _ (Some o) Q); [apply waiting_stable|].
    + intros e v _ Hv. case_bool_decide; [by apply (rg_ret _ _ _ _ None Q)|by apply rg_raise].
Qed.

(** ** Fencing *)

(** Below [n], what may still commit is among [l]. *)
Definition fencing (n : Z) (l : list operation) : assn := λ y,
  (R0 y ∧ owns n cleared y) ∧ ∀ m, m < n → out_of_race y.2 m ∨ m ∈ (op_generation <$> l).

Lemma fencing_stable n l : stable (fencing n l).
Proof.
  intros x y [Hx Hm] Hr. split; [by eapply cleared_stable|]. intros m Hmn. destruct (Hm m Hmn) as [H|H]; [left|by right].
  destruct Hx as [_ (st & Hn & _)].
  by eapply (settled_stable _ _ _ _ i m n Hmn x y); [split; [by eexists|]|].
Qed.

Lemma not_pending_settled x m : Inv x → operations_at x KPending m = None → out_of_race x.2 m.
Proof.
  intros HI Hm p st Hst. apply not_true_is_false. intros Hr. destruct (go_pending _ _ (inv_ok _ _ _ _ _ HI m)) as [_ H].
  rewrite Hm in H. apply (is_Some_None (A := cache_dir)), H. exists p, st. split; [done|]. by destruct st.
Qed.

Lemma rg_fence n o l x : op_generation o < n → op_kind o = KPending → fencing n (o :: l) x →
  rg (ignoring [ENOENT] (cacheRename (Dir (OperationDir (op_kind o) (op_generation o)))
                           (Dir (OperationDir KFenced (op_generation o))) None))
    (λ _, fencing n l) (λ _, R0) x.
Proof.
  intros Hn Hk Hx. rewrite Hk. set (m := op_generation o) in *.
  assert (Hweak : ∀ y, fencing n l y → fencing n (o :: l) y).
  { intros y [Hy H]. split; [done|]. intros k Hkn. destruct (H k Hkn) as [|]; [by left|right; by right]. }
  assert (Hdone : ∀ y, fencing n (o :: l) y → out_of_race y.2 m → fencing n l y).
  { intros y [Hy H] Hs. split; [done|]. intros k Hkn. destruct (H k Hkn) as [|Hin]; [by left|].
    apply elem_of_cons in Hin as [->|]; [by left|by right]. }
  apply rg_ignoring; [apply fencing_stable|apply R0_stable|].
  apply (rg_mono _ _ _ _ _ (λ _, fencing n l) _
    (failing (fencing n (o :: l)) (λ y, is_Some (y.2 !! n) ∧ out_of_race y.2 m))); [done| |].
  { intros e y _ [Hy Hm]. split; [|apply Hy]. intros ->%list_elem_of_singleton. apply Hdone; [done|by apply Hm]. }
  apply (rg_cacheRename_dir _ _ _ _ _ _ _ _ (fencing n (o :: l)));
    [apply fencing_stable..|by apply settled_stable|done|done|done| |].
  - intros y Hy HI Hd. split; [|by apply not_pending_settled]. destruct Hy as [[_ (st & Hst & _)] _]. by eexists.
  - intros [fs G] fs' Hy HI Hr. cbn [fst] in Hr.
    destruct (kill_step date_parse number_text date_text version KFenced m fs fs' G ltac:(by left) HI Hr) as (p & Hstep).
    exists (<[m:=(p, SDead)]> G). destruct (Hstep i) as [HI' Hg]. split; [done|]. split; [done|]. apply Hdone.
    + eapply fencing_stable; [exact Hy|]. exists (S i). split; [lia|]. by split; [apply Hstep|].
    + intros q st. cbn [snd]. rewrite lookup_insert_eq. by intros [= _ <-].
Qed.

Lemma rg_fence_all n l x : Forall (λ o, op_generation o < n ∧ op_kind o = KPending) l → fencing n l x →
  rg (fence_all l) (λ _, fencing n []) (λ _, R0) x.
Proof.
  intros Hl. revert x. induction Hl as [|o l [Hn Hk] Hl IH]; intros x Hx; cbn [fence_all].
  - by apply rg_ret; [apply fencing_stable|].
  - apply rg_bind. apply (rg_mono _ _ _ _ _ (λ _, fencing n l) _ (λ _, R0)); [|done|by apply rg_fence]. intros _ y _ Hy. by apply IH.
Qed.

Lemma rg_fenceLowerOperations o x : R0 x ∧ owns (oo_generation o) cleared x →
  rg (fenceLowerOperations o) (λ _, fencing (oo_generation o) []) (λ _, R0) x.
Proof.
  intros Hx. unfold fenceLowerOperations. set (n := oo_generation o) in *. apply rg_bind.
  set (lower := λ l, oldest_first (filter (λ x, op_generation x < n) (of_kind KPending l))).
  assert (Hin : ∀ l z, z ∈ lower l ↔ op_generation z < n ∧ op_kind z = KPending ∧ z ∈ l).
  { intros l z. unfold lower, oldest_first, of_kind. by rewrite merge_sort_Permutation, !list_elem_of_filter. }
  apply (rg_mono _ _ _ _ _ (λ l, fencing n (lower l)) _ (λ _, R0)); [|done|].
  - intros l y _ Hy. apply rg_fence_all; [|done]. apply Forall_forall. intros z (H1 & H2 & _)%Hin. done.
  - apply (rg_listOperations _ _ _ _ _ (λ y, R0 y ∧ owns n cleared y));
      [apply cleared_stable|intros; apply fencing_stable|apply R0_stable|done|by intros y []|by intros l y [[? _] _]|].
    intros [fs G] Hy HI. exists G. split; [done|]. split; [by apply guar_same|]. split; [done|]. intros m Hm. cbn [fst snd].
    destruct (fs_operations fs !! (KPending, m)) as [d|] eqn:E; [right|left; by apply (not_pending_settled (fs, G))].
    apply list_elem_of_fmap. exists {| op_kind := KPending; op_generation := m |}. split; [done|]. apply Hin. split; [done|].
    split; [done|]. apply (listed_spec date_parse number_text date_text version (fs, G)); [done|]. by exists d.
Qed.

(** ** Committing *)
Notation decide_update := (decide_update date_parse number_text date_text version).
Notation commit := (commit number_text).

(** What a commit returns: it was fenced, or its decision was on the state that
    was current, and what the decision writes was committed. *)
Definition outcome_from (dec : update_decision) (c : commit_outcome) : assn := λ y,
  c = fenced_outcome ∨
  ∃ s w, current_state s y ∧ commit (decide_update dec s) = (w, outcome c) ∧ ∀ s', w = Some s' → somewhere (eq s') y.

Lemma outcome_of_upward dec c : upward (outcome_from dec c).
Proof.
  intros x y H [?|(s & w & Hs & Hc & Hw)]; [by left|right]. exists s, w.
  split; [by eapply current_state_upward|]. split; [done|]. intros s' Hs'. eapply somewhere_upward; [done|by apply Hw].
Qed.

Definition having_read (n : Z) (s : update_state) : assn := λ y, R0 y ∧ owns n (has_read s) y.
Lemma having_read_stable n s : stable (having_read n s).
Proof. apply owns_R0_stable. intros st _ _. by right. Qed.

Lemma rg_read_for_commit n x : fencing n [] x →
  rg (readState number_text date_text (Some version)) (λ s y, having_read n s y ∧ current_state s y) (λ _, R0) x.
Proof.
  intros Hx. apply (rg_readState _ _ _ _ _ parsed Hversion (fencing n []));
    [apply fencing_stable| |apply R0_stable|done|by intros y [[? _] _]|by intros s y [[? _] _]|].
  { intros s. apply stable_and; [apply having_read_stable|apply upward_stable, current_state_upward]. }
  intros [fs G] s [[HR (st & Hn & Hst)] Hset] HI Hs. cbn [fst snd] in *.
  pose proof (newest_current (fs, G) s HI HR Hs) as Hcur. destruct Hst as [-> | ->].
  - destruct (read_step date_parse number_text date_text version i n s fs G HI Hn) as [HI' Hg]; [|done|].
    { intros m Hm. destruct (Hset m Hm) as [|Hin]; [done|by apply elem_of_nil in Hin]. }
    exists (<[n:=(i, SRead s)]> G). split; [done|]. split; [done|].
    split; [split|]; [by eapply upward_guar; [apply acknowledged_before_upward|..]| |by eapply upward_guar; [apply current_state_upward|..]].
    exists (SRead s). cbn [snd]. rewrite lookup_insert_eq. split; [done|by left].
  - exists G. split; [done|]. split; [by apply guar_same|]. split; [|done]. split; [done|]. exists SDead. split; [done|by right].
Qed.

(** The pending directory has the state in a file. *)
Definition written (n : Z) (s : update_state) (f : cache_file) (s' : update_state) : assn := λ y,
  having_read n s y ∧ in_pending i n (λ d, ∃ id, cd_files d !! f = Some (id, state_json s')) y.
Lemma written_stable n s f s' : stable (written n s f s').
Proof. apply stable_and; [apply having_read_stable|apply in_pending_stable]. Qed.

Lemma written_step n s f s' fs fs' G d d' : Inv (fs, G) → having_read n s (fs, G) →
  fs_operations fs !! (KPending, n) = Some d → fs_operations fs' = <[(KPending, n):=d']> (fs_operations fs) →
  (∃ id, cd_files d' !! f = Some (id, state_json s')) → Inv (fs', G) ∧ guar i (fs, G) (fs', G) ∧ written n s f s' (fs', G).
Proof.
  intros HI Hr Hd Hs Hf. destruct (own_files_step n _ fs fs' G d d' HI Hr Hd Hs) as (HI' & Hg & Hr'). split; [done|]. split; [done|].
  split; [done|]. split; [apply (owns_mine _ _ _ Hr')|]. intros d0. unfold operations_at. cbn [fst]. rewrite Hs, lookup_insert_eq.
  by intros [= <-].
Qed.

Lemma rg_write_state n s s' x : having_read n s x →
  rg (cacheWriteFile (pending n) TemporaryFile (state_json s')) (λ _, written n s TemporaryFile s') (λ _ y, R0 y ∧ mine n y) x.
Proof.
  intros Hx. apply (rg_cacheWriteFile _ _ _ _ _ _ _ _ (having_read n s));
    [apply having_read_stable|apply written_stable|apply mine_stable|done|by apply owns_mine|by intros y [Hy _]; eapply owns_mine|].
  intros [fs G] id fs' Hy HI (d & Hd & Hs)%create_own. exists G. eapply written_step; [done..|].
  exists id. unfold set_file. cbn [cd_files]. by rewrite lookup_partial_alter_eq.
Qed.

Lemma rg_place_state n s s' x : written n s TemporaryFile s' x →
  rg (cacheRename (File (pending n) TemporaryFile) (File (pending n) StateFile) None)
    (λ _, written n s StateFile s') (λ _ y, R0 y ∧ mine n y) x.
Proof.
  assert (Hmine : ∀ f y, written n s f s' y → R0 y ∧ mine n y) by (intros f y [Hy _]; by eapply owns_mine).
  intros Hx. apply (rg_cacheRename_file _ _ _ _ _ _ _ _ (written n s TemporaryFile s'));
    [apply written_stable..|apply mine_stable|done|apply Hmine|apply Hmine|].
  intros [fs G] fs' [Hy [_ Hf]] HI Hr. cbn [fst] in Hr. unfold rename_file, pending in Hr. cbn [dir_at] in Hr.
  destruct (fs_operations fs !! (KPending, n)) as [d|] eqn:Hd; [|done]. destruct (Hf d Hd) as [id Hid]. rewrite Hid in Hr.
  injection Hr as <-. exists G. eapply (written_step _ _ _ _ fs _ G d); [done|done|done|done|].
  exists id. unfold set_file. cbn [cd_files]. by rewrite lookup_partial_alter_eq.
Qed.

Lemma rg_commit_rename n s s' x : decided s s' → written n s StateFile s' x →
  rg (transitionOperation n KCommitted) (λ _ y, (R0 y ∧ mine n y) ∧ somewhere (eq s') y) (λ _ y, R0 y ∧ mine n y) x.
Proof.
  intros Hdec Hx.
  apply (rg_mono _ _ _ _ _ (λ _ y, (R0 y ∧ mine n y) ∧ somewhere (eq s') y) _ (failing (λ y, R0 y ∧ mine n y) (λ _, True)));
    [done|by intros e y _ [? _]|].
  apply (rg_cacheRename_dir _ _ _ _ _ _ _ _ (written n s StateFile s'));
    [apply written_stable| |apply mine_stable|apply stable_const|done|by intros y [Hy _]; eapply owns_mine|by intros y []|done|].
  { apply stable_and; [apply mine_stable|apply upward_stable, somewhere_upward]. }
  intros [fs G] fs' [[HR (st & Hn & Hst)] [_ Hf]] HI Hr. cbn [fst snd] in *.
  assert (st = SRead s) as ->.
  { destruct Hst as [-> | ->]; [done|]. exfalso. apply rename_operation in Hr as (d & Hd & _); [|done].
    destruct (live_pending _ _ _ _ fs G n d HI Hd) as (p & st & Hn' & Hl). rewrite Hn in Hn'. by injection Hn' as _ <-. }
  destruct (commit_step date_parse number_text date_text version i n s s' fs fs' G HI Hn Hdec Hf Hr) as [HI' Hg].
  exists (<[n:=(i, SCommitted s')]> G). split; [done|]. split; [done|].
  split; [split|]; [by eapply upward_guar; [apply acknowledged_before_upward|..]| |].
  - exists (SCommitted s'). cbn [snd]. by rewrite lookup_insert_eq.
  - exists n, s'. split; [|done]. cbn [snd]. by rewrite commits_insert, decide_True.
Qed.

Definition committed_as (dec : update_decision) (c : commit_outcome) : assn := λ y, R0 y ∧ outcome_from dec c y.
Lemma committed_as_stable dec c : stable (committed_as dec c).
Proof. apply stable_and; [apply R0_stable|apply upward_stable, outcome_of_upward]. Qed.

(** The operation is cancelled, with nothing committed. *)
Lemma rg_cancel_with n dec c x : committed_as dec c x →
  rg (cancelOperation n ;; mret c) (committed_as dec) (λ _, R0) x.
Proof.
  intros Hx. apply rg_bind. apply (rg_mono _ _ _ _ _ (λ _, committed_as dec c) _ (λ _, committed_as dec c)).
  - intros _ y _ Hy. by apply rg_ret; [apply committed_as_stable|].
  - by intros e y _ [Hy _].
  - by apply rg_cancelOperation; [apply committed_as_stable|].
Qed.

Lemma rg_commit_decision n s dec x : having_read n s x → current_state s x →
  rg (match commit (decide_update dec s) with
      | (None, result) => cancelOperation n ;; mret {| fenced := false; outcome := result |}
      | (Some committedState, committedResult) =>
          prog_catch
            (cacheWriteFile (pending n) TemporaryFile (state_json committedState) ;;
             cacheRename (File (pending n) TemporaryFile) (File (pending n) StateFile) None ;;
             transitionOperation n KCommitted ;;
             mret {| fenced := false; outcome := committedResult |})
            (λ e, was ← operationWasFenced n;
                  if was : bool then mret fenced_outcome
                  else silently (cacheRm (pending n) TemporaryFile) ;; Raise e)
      end) (committed_as dec) (λ _, R0) x.
Proof.
  intros Hx Hs. pose proof R0_stable as HR. destruct (commit (decide_update dec s)) as [[s'|] result] eqn:Hc.
  2: { apply rg_cancel_with. split; [apply Hx|]. right. exists s, None. split; [done|]. by split. }
  assert (Hdec : decided s s') by (by exists dec, result).
  apply rg_catch.
  assert (Hfail : ∀ e y, R0 y ∧ mine n y → rg (was ← operationWasFenced n;
      if was : bool then mret fenced_outcome else silently (cacheRm (pending n) TemporaryFile) ;; Raise e) (committed_as dec) (λ _, R0) y).
  { intros e y Hy.
    apply (rg_bind_benign _ _ _ _ _ anything _ _ (λ y, R0 y ∧ mine n y)); [apply benign_operationWasFenced|apply mine_stable|done|by intros ? ? _ []|].
    intros [] z _ Hz.
    { apply rg_ret; [apply committed_as_stable|]. split; [apply Hz|by left]. }
    apply rg_bind. apply (rg_mono _ _ _ _ _ (λ _ y, R0 y ∧ mine n y) _ (λ _, R0)); [|done|].
    { intros _ u _ [Hu _]. by apply rg_raise. }
    apply rg_silently; [apply mine_stable|]. apply rg_cacheRm; [apply mine_stable|done|].
    intros [fs G] fs' Hu HI Hr. cbn [fst] in Hr. unfold remove_file, pending in Hr. cbn [dir_at] in Hr.
    destruct (fs_operations fs !! (KPending, n)) as [d|] eqn:Hd; [|done]. destruct (cd_files d !! _); [|done].
    injection Hr as <-. exists G. by eapply own_files_step. }
  pose proof (current_state_upward s) as Hup.
  set (W := λ (e : cache_error) y, (R0 y ∧ mine n y) ∧ current_state s y).
  apply (rg_mono _ _ _ _ _ (committed_as dec) _ W); [done|by intros e y _ [Hy _]; apply Hfail|]. apply rg_bind.
  apply (rg_mono _ _ _ _ _ (λ _ y, written n s TemporaryFile s' y ∧ current_state s y) _ W); [|done|by apply rg_frame, rg_write_state].
  intros _ y _ [Hy Hsy]. apply rg_bind.
  apply (rg_mono _ _ _ _ _ (λ _ y, written n s StateFile s' y ∧ current_state s y) _ W); [|done|by apply rg_frame, rg_place_state].
  intros _ z _ [Hz Hsz]. apply rg_bind.
  apply (rg_mono _ _ _ _ _ (λ _ y, ((R0 y ∧ mine n y) ∧ somewhere (eq s') y) ∧ current_state s y) _ W); [|done|].
  - intros _ u _ [[[Hu _] Hsome] Hsu]. apply rg_ret; [apply committed_as_stable|]. split; [done|]. right. exists s, (Some s').
    split; [done|]. split; [done|]. by intros s2 [= <-].
  - apply rg_frame; [done|done|]. by apply (rg_commit_rename n s).
Qed.

Lemma rg_commitOperation o dec x : R0 x ∧ owns (oo_generation o) cleared x →
  rg (commitOperation number_text date_text fingerprint o (Some version) (decide_update dec)) (committed_as dec) (λ _, R0) x.
Proof.
  intros Hx. unfold commitOperation. cbv zeta. set (n := oo_generation o) in *. pose proof R0_stable as HR.
  assert (Hlost : ∀ y, R0 y → rg (cancelOperation n ;; mret fenced_outcome) (committed_as dec) (λ _, R0) y).
  { intros y Hy. apply rg_cancel_with. split; [done|by left]. }
  apply (rg_bind_benign _ _ _ _ _ anything _ _ (λ y, R0 y ∧ owns n cleared y));
    [apply benign_operationOwnsActiveClaim|apply cleared_stable|done|by intros ? ? _ []|].
  intros owns1 y _ Hy. destruct (negb owns1); [by apply Hlost, Hy|].
  apply rg_bind. apply (rg_mono _ _ _ _ _ (λ _, fencing n []) _ (λ _, R0)); [|done|by apply rg_fenceLowerOperations].
  intros _ z _ Hz.
  apply (rg_bind_benign _ _ _ _ _ anything _ _ (fencing n []));
    [apply benign_operationOwnsActiveClaim|apply fencing_stable|done|by intros ? ? _ [[? _] _]|].
  intros owns2 u _ Hu. destruct (negb owns2); [by apply Hlost, Hu|].
  apply rg_bind. apply (rg_mono _ _ _ _ _ (λ s y, having_read n s y ∧ current_state s y) _ (λ _, R0)); [|done|by apply rg_read_for_commit].
  intros s v _ [Hv Hs]. by apply rg_commit_decision.
Qed.

(** ** Checks *)

(** A notice is of a digest that was not acknowledged before, and that a commit
    records. *)
Definition checked (r : update_result) : assn := λ y,
  ∀ key l l' d sev sum notes, r = UpdateAvailable key l l' d sev sum notes →
  key = eventKeyForDigest d ∧ DIGEST_PATTERN d = true ∧ ¬ D d ∧ somewhere (recorded d) y.

Lemma checked_upward r : upward (checked r).
Proof. intros x y H Hx key l l' d sev sum notes ->. destruct (Hx _ _ _ _ _ _ _ eq_refl) as (? & ? & ? & ?). repeat split; try done. by eapply somewhere_upward. Qed.

Definition check_result (r : update_result) : assn := λ y, R0 y ∧ checked r y.
Lemma check_result_stable r : stable (check_result r).
Proof. apply stable_and; [apply R0_stable|apply upward_stable, checked_upward]. Qed.

Lemma silent_result reason y : R0 y → check_result (Silent reason) y.
Proof. by split. Qed.

Lemma shown_result s y : R0 y → current_state s y → check_result (resultForCandidate number_text date_text version s) y.
Proof.
  intros HR (HD & Hg & Hs). split; [done|]. intros key l l' d sev sum notes H.
  destruct (notice_inv _ _ _ _ _ _ _ _ _ _ _ (gs_candidate _ _ Hg) H) as (-> & Hp & Ho & Ha). split; [done|]. split; [done|].
  split; [by intros Hd%HD|]. destruct Hs as [->|(n & t & Hn & <-)]; [done|]. exists n, s. split; [done|by left].
Qed.

Lemma fresh_result s nowMs r y : R0 y → current_state s y →
  freshStateResult date_parse number_text date_text version s nowMs = Some r → check_result r y.
Proof.
  intros HR Hs. unfold freshStateResult. destruct (date_parse _); [|done]. destruct (_ && _); [|done]. intros [= <-].
  by apply shown_result.
Qed.

Lemma offered_check_result s y : R0 y → current_state s y → check_result (offered_result number_text date_text version s) y.
Proof.
  intros HR Hs. unfold offered_result. destruct (us_candidate s); [|by apply silent_result].
  destruct (includes _ _); [by apply shown_result|by apply silent_result].
Qed.

Lemma commit_check_result nowMs random fetched c x : Inv x → committed_as (DecideCheck nowMs random fetched) c x → check_result (outcome c) x.
Proof.
  intros HI [HR [->|(s & w & (HD & Hg & Hs) & Hc & Hw)]]; [by apply silent_result|]. split; [done|].
  intros key l l' d sev sum notes Hr. cbn [CacheSafety.decide_update] in Hc. rewrite Hr in Hc.
  destruct (check_decision_notice _ _ _ _ _ _ _ _ _ _ _ _ _ _ _ _ Hc) as (s' & -> & Hn).
  assert (Hdec : decided s s') by (by eexists (DecideCheck nowMs random fetched), _).
  specialize (Hw s' eq_refl). destruct (Hw) as (n & t & Hn' & <-).
  destruct (shown_result s' x HR) as [_ H]; [|by eapply H].
  split; [|split; [by eapply (inv_good _ _ _ _ _ HI)|by right]]. intros d' Hd'. eapply decided_acknowledged; [done|by apply HD].
Qed.

Lemma rg_read_current x : R0 x →
  rg (readState number_text date_text (Some version)) (λ s y, R0 y ∧ current_state s y) (λ _, R0) x.
Proof.
  intros Hx. apply (rg_readState _ _ _ _ _ parsed Hversion R0); [apply R0_stable| |apply R0_stable|done|done|by intros s y []|].
  { intros s. apply stable_and; [apply R0_stable|apply upward_stable, current_state_upward]. }
  intros [fs G] s Hy HI Hs. exists G. split; [done|]. split; [by apply guar_same|]. split; [done|]. by apply newest_current.
Qed.

Lemma rg_or_unavailable clean (p : cache_prog update_result) W x : (∀ y, R0 y → rg clean (λ _, R0) W y) →
  rg p check_result (λ _, R0) x → rg (or_unavailable clean p) check_result W x.
Proof.
  intros Hclean H. unfold or_unavailable. apply rg_catch. eapply rg_mono; [| |exact H]; [done|].
  intros e y _ Hy. apply rg_bind. eapply rg_mono; [|done|by apply Hclean]. intros u z _ Hz.
  apply (rg_ret _ _ _ _ _ check_result); [apply check_result_stable|by apply silent_result].
Qed.

Lemma rg_result r E x : check_result r x → rg (mret r : cache_prog update_result) check_result E x.
Proof. intros Hx. by apply (rg_ret _ _ _ _ _ check_result); [apply check_result_stable|]. Qed.

Lemma rg_resultAfterLosingOperation o x : R0 x →
  rg (resultAfterLosingOperation number_text date_text o version) check_result (λ _, R0) x.
Proof.
  intros Hx. unfold resultAfterLosingOperation. apply rg_bind.
  apply (rg_mono _ _ _ _ _ (λ _, R0) _ (λ _, R0)); [|done|by apply rg_cancelOperation; [apply R0_stable|]]. intros _ y _ Hy.
  apply rg_bind. apply (rg_mono _ _ _ _ _ (λ s y, R0 y ∧ current_state s y) _ (λ _, R0)); [|done|by apply rg_read_current].
  intros s z _ [Hz Hs]. by apply rg_result, offered_check_result.
Qed.

Lemma rg_check_with o nowMs random fetched E x : R0 x ∧ owns (oo_generation o) cleared x →
  rg (check_with date_parse number_text date_text fingerprint o version nowMs random fetched) check_result E x.
Proof.
  intros Hx. unfold check_with. cbv zeta. set (n := oo_generation o) in *. pose proof R0_stable as HR.
  assert (Hclean : ∀ E y, R0 y → rg (silently (cancelOperation n)) (λ _, R0) E y).
  { intros E' y Hy. by apply rg_silently, rg_cancelOperation. }
  apply rg_or_unavailable; [by apply Hclean|]. apply rg_bind.
  apply (rg_mono _ _ _ _ _ (λ s y, (R0 y ∧ owns n cleared y) ∧ current_state s y) _ (λ _, R0)); [|done|].
  2: { apply (rg_readState _ _ _ _ _ parsed Hversion (λ y, R0 y ∧ owns n cleared y));
         [apply cleared_stable| |done|done|by intros y []|by intros s y [[] _]|].
       { intros s. apply stable_and; [apply cleared_stable|apply upward_stable, current_state_upward]. }
       intros [fs G] s [Hy Ho] HI Hs. exists G. split; [done|]. split; [by apply guar_same|]. split; [done|]. by apply newest_current. }
  intros s y _ [Hy Hs]. destruct (freshStateResult _ _ _ _ _ _) as [r|] eqn:Hf.
  { apply rg_bind. apply (rg_mono _ _ _ _ _ (λ _, check_result r) _ (λ _, check_result r)); [|by intros e z _ [? _]|].
    - intros _ z _ Hz. by apply rg_result.
    - apply rg_cancelOperation; [apply check_result_stable|]. destruct Hy. by eapply fresh_result. }
  set (P := λ y, R0 y ∧ owns n cleared y). assert (HP : stable P) by apply cleared_stable.
  apply (rg_bind_benign _ _ _ _ _ anything _ _ P); [apply benign_operationOwnsActiveClaim|done..|by intros ? ? _ []|].
  intros owns1 z _ Hz. destruct (negb owns1); [by apply rg_resultAfterLosingOperation, Hz|].
  apply (rg_bind_benign _ _ _ _ _ anything _ _ P); [benign_prog|done..|by intros ? ? _ []|]. intros _ u _ Hu.
  apply (rg_bind_benign _ _ _ _ _ anything _ _ P); [apply benign_operationOwnsActiveClaim|done..|by intros ? ? _ []|].
  intros owns2 v _ Hv. destruct (negb owns2); [by apply rg_resultAfterLosingOperation, Hv|].
  apply rg_or_unavailable; [by apply Hclean|]. apply rg_bind.
  apply (rg_mono _ _ _ _ _ (committed_as (DecideCheck nowMs random fetched)) _ (λ _, R0)); [|done|by apply (rg_commitOperation o (DecideCheck nowMs random fetched))].
  intros c w HI Hc. by eapply rg_result, commit_check_result.
Qed.

(** A check that starts when the digests of [D] have been acknowledged. *)
Lemma rg_checkForUpdate fuel me nowMs random fetched x : R0 x →
  rg (checkForUpdate date_parse number_text date_text fingerprint fuel me version nowMs random fetched) checked (λ _ _, True) x.
Proof.
  intros Hx. apply (rg_mono _ _ _ _ _ check_result _ (λ _ _, True)); [by intros r y _ []|done|].
  unfold checkForUpdate. pose proof R0_stable as HR. apply rg_bind.
  set (Q := λ s y, R0 y ∧ current_state s y).
  assert (HQ : ∀ s, stable (Q s)) by (intros s; apply stable_and; [done|apply upward_stable, current_state_upward]).
  eapply rg_mono; [|done|apply (rg_catching _ Q R0); [done|done|]].
  2: { apply (rg_bind_benign _ _ _ _ _ anything _ _ R0); [unfold prepareCacheDirectory; benign_prog|done..|].
       intros _ y _ Hy. by apply rg_read_current. }
  intros [e|s] y _ Hy; [by apply rg_result, silent_result|]. destruct Hy as [Hy Hs].
  destruct (freshStateResult _ _ _ _ _ _) as [r|] eqn:Hf; [by eapply rg_result, fresh_result|]. apply rg_bind.
  eapply rg_mono; [|done|apply (rg_catching _ acquired R0); [apply acquired_stable|done|by apply rg_acquireOperation]].
  intros [e|[o|]] z _ Hz; [by apply rg_result, silent_result|by apply rg_check_with|].
  apply rg_or_unavailable; [by intros u Hu; apply rg_ret|]. apply rg_bind.
  apply (rg_mono _ _ _ _ _ Q _ (λ _, R0)); [|done|by apply rg_read_current]. intros t u _ [Hu Ht].
  by apply rg_result, offered_check_result.
Qed.

(** ** Acknowledgements *)
Definition confirmed (targetDigest eventKey : string) (r : update_result) : assn := λ y,
  ∀ key, r = Acknowledged key → key = eventKey ∧ somewhere (λ s, targetDigest ∈ us_acknowledgedDigests s) y.
Lemma confirmed_stable d key r : stable (confirmed d key r).
Proof.
  apply upward_stable. intros x y H Hx k ->. destruct (Hx k eq_refl) as [? ?]. split; [done|]. by eapply somewhere_upward.
Qed.

Lemma rg_acknowledge fuel me d key x : R0 x →
  rg (acknowledge number_text date_text fingerprint fuel me version d key) (confirmed d key) (λ _ _, True) x.
Proof.
  pose proof R0_stable as HR. revert x. induction fuel as [|fuel IH]; intros x Hx; [done|]. cbn [acknowledge]. cbv zeta.
  assert (Hsilent : ∀ reason y, rg (mret (Silent reason) : cache_prog update_result) (confirmed d key) (λ _ _, True) y).
  { intros reason y. by apply (rg_ret _ _ _ _ _ (confirmed d key)); [apply confirmed_stable|]. }
  assert (Hretry : ∀ y, R0 y → rg (again ← act Deadline;
      if again : bool then acknowledge number_text date_text fingerprint fuel me version d key
      else mret (Silent "check-in-progress")) (confirmed d key) (λ _ _, True) y).
  { intros y Hy. apply (rg_bind_benign _ _ _ _ _ anything _ _ R0); [by apply benign_act|done..|]. intros [] z _ Hz; [by apply IH|apply Hsilent]. }
  apply rg_bind. eapply rg_mono; [|done|apply (rg_catching _ acquired R0); [apply acquired_stable|done|by apply rg_acquireOperation]].
  intros [e|[o|]] y _ Hy; [apply Hsilent| |by apply Hretry]. apply rg_bind.
  eapply rg_mono; [|done|apply (rg_catching _ (committed_as (DecideAcknowledgement d key)) R0);
    [apply committed_as_stable|done|by apply (rg_commitOperation o (DecideAcknowledgement d key))]].
  intros [e|c] z _ Hz.
  - apply rg_bind. apply (rg_mono _ _ _ _ _ (λ _, R0) _ (λ _ _, True)); [|done|by apply rg_silently, rg_cancelOperation].
    intros _ u _ _. apply Hsilent.
  - destruct (fenced c); [by apply Hretry, Hz|]. apply (rg_ret _ _ _ _ _ (confirmed d key)); [apply confirmed_stable|].
    destruct Hz as [_ [->|(s & w & _ & Hc & Hw)]]; [done|]. intros k Hk. cbn [CacheSafety.decide_update] in Hc. rewrite Hk in Hc.
    apply acknowledgement_confirmed in Hc as (-> & s' & -> & Hd). split; [done|].
    destruct (Hw s' eq_refl) as (n & t & Hn & <-). by exists n, s'.
Qed.
End Operations.
