(* ===== verification/CacheResults.v ===== *)
(** * Processes that share a cache

    Any number of processes that check for updates and acknowledge them in one
    cache directory, under every schedule: any of them may stop at any call, and
    the environment answers as it likes whether a lease has expired and whether
    the directories above the cache are still the same. *)

From stdpp Require Import pretty gmap sorting.
From S2P Require Import Prelude Num JsValue Json Semver Updates RepositoryLocation UpdateCheck Concurrency CacheFiles CacheClaims CacheSafety CacheLogic CacheProtocol.
#[local] Open Scope Z_scope.

Inductive request :=
  | RequestCheck (nowMs : Z) (random : binary64) (fetched : fetch_outcome)
  | RequestAcknowledgement (eventKey : string).
Record participant := { pt_fuel : nat; pt_identity : identity_of_process; pt_request : request }.

Section Cache.
Context (date_parse : string → option Z) (number_text : binary64 → string) (date_text : option Z → string).
Context (fingerprint : Z → string) (version : string).
Notation decided := (decided date_parse number_text date_text version).
Notation Inv := (Inv date_parse number_text date_text version).
Notation guar := (guar date_parse number_text date_text version).
Notation assn := (gstate → Prop).
Notation rg := (rg exec Inv guar).
Notation system := (system cache_reply cache_error cache_fs (option bool) update_result).

Definition program (p : participant) : cache_prog update_result :=
  match pt_request p with
  | RequestCheck nowMs random fetched =>
      checkForUpdate date_parse number_text date_text fingerprint (pt_fuel p) (pt_identity p) version nowMs random fetched
  | RequestAcknowledgement eventKey =>
      acknowledgeUpdate number_text date_text fingerprint (pt_fuel p) (pt_identity p) version eventKey
  end.

(** A process that has not started. *)
Definition launched (p : participant) : process_state cache_reply cache_error (option bool) update_result :=
  {| p_local := None; p_prog := program p |}.
Definition initial (ps : list participant) : system := (launched <$> ps, empty_cache).

(** What a process returned. *)
Definition returned (sys : system) (i : nat) (r : update_result) : Prop := ∃ l, sys.1 !! i = Some {| p_local := l; p_prog := Ret r |}.

(** The state that the directory stores: what [readState] would read. *)
Definition stored_state (fs : cache_fs) : update_state :=
  match newest_first (of_kind KCommitted (listed fs)) with
  | [] => emptyState (Some version)
  | o :: _ =>
      match file_at fs (OperationDir KCommitted (op_generation o)) StateFile with
      | Some (_, v) => default (emptyState (Some version)) (normalizeState number_text date_text v (Some version))
      | None => emptyState (Some version)
      end
  end.

Context (parsed : semver) (Hversion : parseSemver (JString version) = inr parsed).

Lemma stored_newest x : Inv x → newest_commit version (commits x.2) (stored_state x.1).
Proof.
  intros HI. destruct (newest_reads _ _ _ _ x HI) as (s & Hn & Hr). replace (stored_state x.1) with s; [done|].
  unfold stored_state, reads in *. destruct (newest_first _) as [|o l]; [done|]. destruct Hr as (_ & (d & id & Hd & Hf) & Hg & He).
  unfold file_at. cbn [dir_at]. unfold operations_at in Hd. rewrite Hd. cbn [mbind option_bind]. rewrite Hf.
  by rewrite (normalizeState_json _ _ _ _ _ Hversion Hg He).
Qed.

(** What is kept by decisions and holds of a commit holds of the stored state. *)
Lemma stored_keeps (P : update_state → Prop) x : (∀ s s', decided s s' → P s → P s') → Inv x → somewhere P x → P (stored_state x.1).
Proof. intros HP HI H. eapply somewhere_newest; [done|done|done|by apply stored_newest]. Qed.

(** ** The programs *)
Definition promised (req : request) (r : update_result) : assn := λ y,
  match req with
  | RequestCheck _ _ _ => checked (λ _, False) r y
  | RequestAcknowledgement eventKey =>
      ∀ key, r = Acknowledged key →
      ∃ d, key = eventKeyForDigest d ∧ DIGEST_PATTERN d = true ∧ somewhere (λ s, d ∈ us_acknowledgedDigests s) y
  end.

Lemma promised_upward req r : upward (promised req r).
Proof.
  intros x y H. destruct req as [nowMs random fetched|eventKey]; cbn [promised]; [by apply checked_upward|].
  intros Hx key Hr. destruct (Hx key Hr) as (d & ? & ? & ?). exists d. split; [done|]. split; [done|]. by eapply somewhere_upward.
Qed.

Lemma rg_acknowledgeUpdate i fuel me eventKey x :
  rg i (acknowledgeUpdate number_text date_text fingerprint fuel me version eventKey) (promised (RequestAcknowledgement eventKey)) (λ _ _, True) x.
Proof.
  set (Q := promised (RequestAcknowledgement eventKey)).
  assert (HQ : ∀ r, stable Inv guar i (Q r)) by (intros; apply upward_stable, promised_upward).
  assert (Hsilent : ∀ reason y, rg i (mret (Silent reason) : cache_prog update_result) Q (λ _ _, True) y).
  { intros reason y. by apply (rg_ret _ _ _ _ _ Q). }
  unfold acknowledgeUpdate. destruct (digestForEventKey (JString eventKey)) as [d|] eqn:Hd; [|apply Hsilent].
  assert (HR : acknowledged_before (λ _, False) x) by (by intros ? []).
  apply (rg_bind_benign _ _ _ _ _ anything _ _ (acknowledged_before (λ _, False)));
    [unfold prepareCacheDirectory; benign_prog|apply R0_stable|done|done|].
  intros [e|[]] y _ Hy; [apply Hsilent|].
  eapply rg_mono; [|done|by apply (rg_acknowledge _ _ _ fingerprint _ _ _ Hversion (λ _, False))].
  intros r z _ Hz key Hr. destruct (Hz key Hr) as [-> Hs]. exists d. split; [by apply digestForEventKey_inv|]. split; [|done].
  unfold digestForEventKey in Hd. destruct (starts_with _ _); [|done]. destruct (DIGEST_PATTERN _) eqn:E; [|done]. by injection Hd as <-.
Qed.

Lemma rg_program i p x : rg i (program p) (promised (pt_request p)) (λ _ _, True) x.
Proof.
  unfold program. destruct (pt_request p) as [nowMs random fetched|eventKey]; [|apply rg_acknowledgeUpdate].
  apply (rg_checkForUpdate _ _ _ _ _ _ _ Hversion (λ _, False)). by intros ? [].
Qed.

Definition promises (ps : list participant) (i : nat) (r : update_result) : assn := λ y,
  ∀ p, ps !! i = Some p → promised (pt_request p) r y.

Lemma initial_ok ps : pool_ok exec Inv guar (promises ps) (launched <$> ps) (empty_cache, ∅).
Proof.
  split; [apply Inv_init|]. intros i q Hq. apply list_lookup_fmap_Some in Hq as (p & -> & Hp). cbn [launched p_prog].
  eapply rg_mono; [| |apply rg_program]; [|done]. intros r y _ Hr p' Hp'. rewrite Hp in Hp'. by injection Hp' as <-.
Qed.

(** ** Any schedule *)
Notation run schedule sys := (run_system exec schedule sys).

Lemma upward_rtc (R : assn) x y : upward R → rtc (λ x y, ∃ j, guar j x y) x y → R x → R y.
Proof. intros HR. induction 1 as [|x y z [j Hg] _ IH]; [done|]. intros Hx. apply IH. by eapply upward_guar. Qed.

Lemma run_initial ps schedule :
  ∃ G, pool_ok exec Inv guar (promises ps) (run schedule (initial ps)).1 ((run schedule (initial ps)).2, G).
Proof.
  destruct (run_system_ok exec Inv guar (promises ps) schedule _ _ _ (initial_ok ps)) as [G H]. unfold initial.
  destruct (run_system _ _ _) as [ps' fs']. exists G. apply H.
Qed.

(** What was returned, and what the directory is then and after more steps. *)
Lemma run_returned ps schedule later i p r : ps !! i = Some p → returned (run schedule (initial ps)) i r →
  ∃ G, let sys := run later (run schedule (initial ps)) in Inv (sys.2, G) ∧ promised (pt_request p) r (sys.2, G).
Proof.
  intros Hp [l Hr]. destruct (run_initial ps schedule) as [G Hok].
  assert (Hpr : promised (pt_request p) r ((run schedule (initial ps)).2, G)).
  { destruct Hok as [HI Hall]. by apply (Hall i _ Hr _ (rtc_refl _ _) HI). }
  destruct (run schedule (initial ps)) as [qs fs]. cbn [fst snd] in *.
  destruct (run_system_ok exec Inv guar _ later _ _ _ Hok) as [G' H]. cbv zeta. destruct (run later (qs, fs)) as [qs' fs'].
  destruct H as [[HI _] Hrtc]. exists G'. split; [done|]. by eapply upward_rtc; [apply promised_upward|..].
Qed.

(** C6: the directory is one state that changes by one decision at a time: for
    any processes and any schedule, a step of any of them leaves the stored state
    as it is, or replaces it by what one check or acknowledgement commits when it
    decides on that very state. *)
Theorem cache_is_sequential (ps : list participant) (schedule : list (nat * bool)) (event : nat * bool) :
  let before := run schedule (initial ps) in
  let after := step_system exec before event in
  stored_state after.2 = stored_state before.2 ∨ decided (stored_state before.2) (stored_state after.2).
Proof.
  cbv zeta. destruct (run_initial ps schedule) as [G Hok]. destruct (run schedule (initial ps)) as [qs fs]. cbn [fst snd] in *.
  destruct (step_system_ok exec Inv guar _ _ _ event _ Hok) as [G' H]. destruct (step_system exec (qs, fs) event) as [qs' fs'].
  cbn [snd]. destruct H as [[HI' _] [Hs|Hg]]; [left; by injection Hs as -> _|].
  destruct Hok as [HI _]. destruct (gu_newest _ _ _ _ _ _ _ Hg _ (stored_newest _ HI)) as (s' & Hn & Hd).
  replace (stored_state fs') with s'; [done|]. eapply latest_unique; [exact Hn|apply (stored_newest _ HI')].
Qed.

(** C8: an acknowledgement that was confirmed is kept: when a process has
    returned it, its digest is acknowledged in the stored state, and it stays so
    whatever happens later. *)
Theorem acknowledgement_kept (ps : list participant) (schedule later : list (nat * bool)) (i : nat) (p : participant)
    (eventKey key : string) :
  ps !! i = Some p → pt_request p = RequestAcknowledgement eventKey →
  returned (run schedule (initial ps)) i (Acknowledged key) →
  ∃ digest, key = eventKeyForDigest digest ∧
    digest ∈ us_acknowledgedDigests (stored_state (run later (run schedule (initial ps))).2).
Proof.
  intros Hp Hreq Hr. destruct (run_returned ps schedule later i p _ Hp Hr) as (G & HI & Hpr). rewrite Hreq in Hpr.
  destruct (Hpr key eq_refl) as (d & Hk & _ & Hs). exists d. split; [done|].
  apply (stored_keeps (λ s, d ∈ us_acknowledgedDigests s) _ (λ s s', decided_acknowledged _ _ _ _ s s' d) HI Hs).
Qed.

(** A notice is never lost: when a check has returned one, its digest is
    offered or acknowledged in the stored state, then and whatever happens later,
    so that its key can be acknowledged. *)
Theorem notice_recorded (ps : list participant) (schedule later : list (nat * bool)) (i : nat) (p : participant)
    (nowMs : Z) (random : binary64) (fetched : fetch_outcome) (key installed latest digest severity summary notes : string) :
  ps !! i = Some p → pt_request p = RequestCheck nowMs random fetched →
  returned (run schedule (initial ps)) i (UpdateAvailable key installed latest digest severity summary notes) →
  key = eventKeyForDigest digest ∧ recorded digest (stored_state (run later (run schedule (initial ps))).2).
Proof.
  intros Hp Hreq Hr. destruct (run_returned ps schedule later i p _ Hp Hr) as (G & HI & Hpr). rewrite Hreq in Hpr.
  destruct (Hpr _ _ _ _ _ _ _ eq_refl) as (Hk & _ & _ & Hs). split; [done|].
  apply (stored_keeps (recorded digest) _ (λ s s', decided_recorded _ _ _ _ s s' digest) HI Hs).
Qed.

(** C7: an update that was acknowledged is not announced again, by any process:
    when an acknowledgement of a key has been returned, a check that starts later
    never returns a notice with that key, whatever the others do meanwhile. *)
Theorem acknowledged_not_announced (ps : list participant) (schedule later : list (nat * bool)) (i j : nat)
    (p q : participant) (eventKey key : string) (nowMs : Z) (random : binary64) (fetched : fetch_outcome)
    (key' installed latest digest severity summary notes : string) :
  ps !! i = Some p → pt_request p = RequestAcknowledgement eventKey →
  returned (run schedule (initial ps)) i (Acknowledged key) →
  pt_request q = RequestCheck nowMs random fetched →
  (run schedule (initial ps)).1 !! j = Some (launched q) →
  returned (run later (run schedule (initial ps))) j (UpdateAvailable key' installed latest digest severity summary notes) →
  key' ≠ key.
Proof.
  intros Hp Hreq Hr Hq Hj [l Hret]. destruct (run_initial ps schedule) as [G Hok].
  assert (Hack : ∃ d, key = eventKeyForDigest d ∧ somewhere (λ s, d ∈ us_acknowledgedDigests s) ((run schedule (initial ps)).2, G)).
  { destruct Hr as [l' Hr]. destruct Hok as [HI Hall]. pose proof (Hall i _ Hr _ (rtc_refl _ _) HI p Hp) as H.
    rewrite Hreq in H. destruct (H key eq_refl) as (d & ? & _ & ?). by exists d. }
  destruct Hack as (d & -> & Hack). destruct (run schedule (initial ps)) as [qs fs]. cbn [fst snd] in *.
  set (Q := λ (k : nat) r, λ y, k = j → checked (eq d) r y).
  assert (Hok' : pool_ok exec Inv guar Q qs (fs, G)).
  { destruct Hok as [HI Hall]. split; [done|]. intros k o Ho. destruct (decide (k = j)) as [->|Hne].
    - rewrite Hj in Ho. injection Ho as <-. cbn [launched p_prog]. unfold program. rewrite Hq.
      eapply rg_mono; [| |apply (rg_checkForUpdate _ _ _ fingerprint _ _ _ Hversion (eq d))]; [by intros r y _ Hy _|done|].
      by intros ? <-.
    - eapply rg_mono; [| |by apply (Hall k o)]; [|done]. by intros r y _ _. }
  destruct (run_system_ok exec Inv guar Q later _ _ _ Hok') as [G' H]. destruct (run later (qs, fs)) as [qs' fs']. cbn [fst] in Hret.
  destruct H as [[HI Hall] _]. pose proof (Hall j _ Hret _ (rtc_refl _ _) HI eq_refl) as Hc.
  destruct (Hc _ _ _ _ _ _ _ eq_refl) as (-> & _ & Hn & _). intros Heq. apply Hn.
  unfold eventKeyForDigest in Heq. by simplify_eq.
Qed.
End Cache.

(** ** Samples *)
Definition sample_identity (pid : Z) (digit : string) : identity_of_process :=
  {| ip_pid := nof pid; ip_token := λ _, String.concat "" (repeat digit 32) |}.
Definition sample_fetch (release : jsval) : request := RequestCheck 1787900400000 (nof 0) (Fetched release).
Definition first_check : participant :=
  {| pt_fuel := 5; pt_identity := sample_identity 77 "a"; pt_request := sample_fetch (sample_manifest sha40) |}.
Definition first_acknowledgement : participant :=
  {| pt_fuel := 5; pt_identity := sample_identity 78 "b"; pt_request := RequestAcknowledgement (eventKeyForDigest sample_digest) |}.
Definition second_check : participant :=
  {| pt_fuel := 5; pt_identity := sample_identity 79 "c";
     pt_request := sample_fetch (sample_release "2.17.0" (String.concat "" (repeat "c" 64)) sha40) |}.
Definition sample_participants : list participant := [first_check; first_acknowledgement; second_check].

Notation sample_system := (system cache_reply cache_error cache_fs (option bool) update_result).
Notation sample_initial := (initial sample_date (λ _, "1") (λ _, "") (λ n, pretty n) "2.15.0" sample_participants).
Notation sample_run schedule := (run_system exec schedule sample_initial).
Notation sample_stored sys := (stored_state (λ _, "1") (λ _, "") "2.15.0" sys.2).
Definition sample_version : semver := {| core := ["2"; "15"; "0"]; prerelease := None; build := None |}.

(** The result of a process. *)
Definition sample_result (sys : sample_system) (i : nat) : option update_result :=
  match sys.1 !! i with
  | Some {| p_prog := Ret r |} => Some r
  | _ => None
  end.

(** A process alone until it stops, or for so many calls; its first answers say
    that a lease has expired. *)
Fixpoint alone (fuel : nat) (i : nat) (expired : nat) (sys : sample_system) : list (nat * bool) :=
  match fuel, sys.1 !! i with
  | S fuel, Some {| p_prog := Act c _ |} =>
      let '(answer, expired) := match c with Lease => (bool_decide (expired = 0)%nat, pred expired) | _ => (true, expired) end in
      (i, answer) :: alone fuel i expired (step_system exec sys (i, answer))
  | _, _ => []
  end.
Definition extend (schedule : list (nat * bool)) (fuel i expired : nat) : list (nat * bool) :=
  schedule ++ alone fuel i expired (sample_run schedule).

Definition check_done : list (nat * bool) := extend [] 1000 0 0.
Definition acknowledged_done : list (nat * bool) := extend check_done 1000 1 0.

(** One after the other, each process does what it is asked. *)
Example sample_sequential :
  let sys := sample_run (extend acknowledged_done 1000 2 0) in
  sample_result sys 0 = Some sample_notice ∧ sample_result sys 1 = Some (Acknowledged (eventKeyForDigest sample_digest)) ∧
  match sample_result sys 2 with Some (UpdateAvailable key _ _ _ _ _ _) => key = eventKeyForDigest later_digest | _ => False end ∧
  us_acknowledgedDigests (sample_stored sys) = [sample_digest] ∧ us_offeredDigests (sample_stored sys) = [later_digest].
Proof. vm_compute. repeat split; reflexivity. Qed.

(** A check that stops before it commits is fenced when its lease has expired,
    and what it goes on to do changes nothing. *)
Example sample_takeover :
  let stopped := extend [] 462 0 0 in
  let taken := extend stopped 1000 2 3 in
  let resumed := extend taken 1000 0 0 in
  match sample_result (sample_run taken) 2 with Some (UpdateAvailable key _ _ _ _ _ _) => key = eventKeyForDigest later_digest | _ => False end ∧
  sample_result (sample_run resumed) 0 = Some (Silent "check-in-progress") ∧
  us_offeredDigests (sample_stored (sample_run resumed)) = [later_digest].
Proof. vm_compute. repeat split; reflexivity. Qed.

(** An acknowledgement that is fenced while it writes its state tries again and
    is confirmed; fenced just before, after it has read the state, it is not. *)
Definition fenced_after (calls : nat) : option update_result :=
  let stopped := extend check_done calls 1 0 in
  sample_result (sample_run (extend (extend stopped 1000 2 3) 2000 1 0)) 1.
Example fenced_while_writing : fenced_after 440 = Some (Acknowledged (eventKeyForDigest sample_digest)).
Proof. vm_compute. reflexivity. Qed.
Example fenced_before_writing : fenced_after 434 = Some (Silent "cache-unavailable").
Proof. vm_compute. reflexivity. Qed.

Lemma cache_is_sequential_witness :
  let before := sample_run (firstn 462 check_done) in
  let after := step_system exec before (0%nat, true) in
  us_offeredDigests (sample_stored before) = [] ∧ us_offeredDigests (sample_stored after) = [sample_digest] ∧
  (sample_stored after = sample_stored before ∨
   decided sample_date (λ _, "1") (λ _, "") "2.15.0" (sample_stored before) (sample_stored after)).
Proof.
  split; [vm_compute; reflexivity|]. split; [vm_compute; reflexivity|].
  refine (cache_is_sequential sample_date (λ _, "1") (λ _, "") (λ n, pretty n) "2.15.0" sample_version _ sample_participants _ _).
  vm_compute. reflexivity.
Defined.

Lemma sample_returned sys i r : sample_result sys i = Some r → returned sys i r.
Proof.
  unfold sample_result, returned. destruct (sys.1 !! i) as [[l [| | |]]|]; try done. intros [= ->]. by exists l.
Qed.

Lemma acknowledgement_kept_witness :
  sample_result (sample_run acknowledged_done) 1 = Some (Acknowledged (eventKeyForDigest sample_digest)) ∧
  ∃ digest, eventKeyForDigest sample_digest = eventKeyForDigest digest ∧
    digest ∈ us_acknowledgedDigests (sample_stored (run_system exec (alone 1000 2 0 (sample_run acknowledged_done)) (sample_run acknowledged_done))).
Proof.
  assert (H : sample_result (sample_run acknowledged_done) 1 = Some (Acknowledged (eventKeyForDigest sample_digest)))
    by (vm_compute; reflexivity).
  split; [exact H|].
  refine (acknowledgement_kept sample_date (λ _, "1") (λ _, "") (λ n, pretty n) "2.15.0" sample_version _ sample_participants
    acknowledged_done _ 1 _ (eventKeyForDigest sample_digest) _ eq_refl eq_refl (sample_returned _ _ _ H)).
  vm_compute. reflexivity.
Defined.

Lemma notice_recorded_witness :
  sample_result (sample_run check_done) 0 = Some sample_notice ∧
  recorded sample_digest (sample_stored (run_system exec (alone 1000 1 0 (sample_run check_done)) (sample_run check_done))).
Proof.
  assert (H : sample_result (sample_run check_done) 0 = Some sample_notice) by (vm_compute; reflexivity).
  split; [exact H|].
  refine (proj2 (notice_recorded sample_date (λ _, "1") (λ _, "") (λ n, pretty n) "2.15.0" sample_version _ sample_participants
    check_done _ 0 _ _ _ _ _ _ _ _ _ _ _ eq_refl eq_refl (sample_returned _ _ _ H))).
  vm_compute. reflexivity.
Defined.

(** A process that was not scheduled has not started. *)
Lemma unscheduled schedule (sys : sample_system) j : forallb (λ event, negb (event.1 =? j)%nat) schedule = true →
  (run_system exec schedule sys).1 !! j = sys.1 !! j.
Proof.
  revert sys. induction schedule as [|[i b] schedule IH]; intros sys; [done|]. cbn [forallb fst]. intros [Hi H]%andb_true_iff.
  change (run_system exec ((i, b) :: schedule) sys) with (run_system exec schedule (step_system exec sys (i, b))).
  rewrite IH by done. unfold step_system. cbn [fst snd]. destruct (sys.1 !! i) as [q|]; [|done].
  destruct (step_process _ _ _ _) as [q' fs']. cbn [fst]. apply negb_true_iff, Nat.eqb_neq in Hi. by rewrite list_lookup_insert_ne.
Qed.

Lemma acknowledged_not_announced_witness :
  sample_result (sample_run acknowledged_done) 1 = Some (Acknowledged (eventKeyForDigest sample_digest)) ∧
  match sample_result (run_system exec (alone 1000 2 0 (sample_run acknowledged_done)) (sample_run acknowledged_done)) 2 with
  | Some (UpdateAvailable key _ _ _ _ _ _) => key ≠ eventKeyForDigest sample_digest
  | _ => False
  end.
Proof.
  assert (H : sample_result (sample_run acknowledged_done) 1 = Some (Acknowledged (eventKeyForDigest sample_digest)))
    by (vm_compute; reflexivity).
  split; [exact H|].
  set (sys := run_system _ _ _).
  assert (Hb : match sample_result sys 2 with Some (UpdateAvailable _ _ _ _ _ _ _) => true | _ => false end = true)
    by (vm_compute; reflexivity).
  destruct (sample_result sys 2) as [[reason|key i l d sev sum notes|key]|] eqn:H2; [discriminate Hb| |discriminate Hb|discriminate Hb].
  refine (acknowledged_not_announced sample_date (λ _, "1") (λ _, "") (λ n, pretty n) "2.15.0" sample_version _ sample_participants
    acknowledged_done _ 1 2 first_acknowledgement second_check (eventKeyForDigest sample_digest) _ _ _ _ _ _ _ _ _ _ _
    eq_refl eq_refl (sample_returned _ _ _ H) eq_refl _ (sample_returned _ _ _ H2)).
  - vm_compute. reflexivity.
  - refine (unscheduled acknowledged_done sample_initial 2 _). vm_compute. reflexivity.
Defined.
