(* ===== verification/TextFit.v ===== *)
(** * Fitting the text of a node
      ([src/.agents/skills/archify/renderers/shared/text-fit.mjs], and [textUnits] of [utils.mjs])

    How wide a text is, in units of a narrow character, and the font size at
    which a line of a node is drawn.  The validation of every renderer measures
    the line at its legible minimum; what it accepts fits once drawn. *)

From Stdlib Require Import QArith Qminmax Qround Lqa.
From S2P Require Import Prelude Num JsValue Geometry.
#[local] Open Scope Z_scope.

(** ** Units of a text *)

(** [FULLWIDTH_RE], as the ranges of its class. *)
Definition FULLWIDTH_RE : list (Z * Z) :=
  [(0x1100, 0x115F); (0x231A, 0x231B); (0x2329, 0x232A); (0x23E9, 0x23EC); (0x23F0, 0x23F0);
   (0x23F3, 0x23F3); (0x25FD, 0x25FE); (0x2614, 0x2615); (0x2630, 0x2637); (0x2648, 0x2653);
   (0x267F, 0x267F); (0x268A, 0x268F); (0x2693, 0x2693); (0x26A1, 0x26A1); (0x26AA, 0x26AB);
   (0x26BD, 0x26BE); (0x26C4, 0x26C5); (0x26CE, 0x26CE); (0x26D4, 0x26D4); (0x26EA, 0x26EA);
   (0x26F2, 0x26F3); (0x26F5, 0x26F5); (0x26FA, 0x26FA); (0x26FD, 0x26FD); (0x2705, 0x2705);
   (0x270A, 0x270B); (0x2728, 0x2728); (0x274C, 0x274C); (0x274E, 0x274E); (0x2753, 0x2755);
   (0x2757, 0x2757); (0x2795, 0x2797); (0x27B0, 0x27B0); (0x27BF, 0x27BF); (0x2B1B, 0x2B1C);
   (0x2B50, 0x2B50); (0x2B55, 0x2B55); (0x2E80, 0xA4CF); (0xA960, 0xA97C); (0xAC00, 0xD7A3);
   (0xF900, 0xFAFF); (0xFE10, 0xFE19); (0xFE30, 0xFE6F); (0xFF01, 0xFF60); (0xFFE0, 0xFFE6);
   (0x16FE0, 0x18DFF); (0x1AFF0, 0x1AFFF); (0x1B000, 0x1B2FF); (0x1F000, 0x1FAFF); (0x20000, 0x3FFFD)].

Definition fullwidth (codePoint : Z) : bool :=
  existsb (λ range, (range.1 <=? codePoint) && (codePoint <=? range.2)) FULLWIDTH_RE.

Definition VARIATION_SELECTOR_FIRST : Z := 0xFE00.
Definition VARIATION_SELECTOR_LAST : Z := 0xFE0F.
Definition VARIATION_SELECTOR_TEXT : Z := 0xFE0E.
Definition VARIATION_SELECTOR_EMOJI : Z := 0xFE0F.

Definition variation_selector (codePoint : Z) : bool :=
  (VARIATION_SELECTOR_FIRST <=? codePoint) && (codePoint <=? VARIATION_SELECTOR_LAST).

(** What one character adds, [next] being the code point after it or -1. *)
Definition char_units (codePoint next : Z) : Z :=
  if variation_selector codePoint then 0
  else if next =? VARIATION_SELECTOR_EMOJI then 2
  else if next =? VARIATION_SELECTOR_TEXT then 1
  else if fullwidth codePoint then 2 else 1.

(** The loop over the code points of the text. *)
Fixpoint units_of (chars : list Z) : Z :=
  match chars with
  | [] => 0
  | codePoint :: rest => char_units codePoint (default (-1) (head rest)) + units_of rest
  end.

Definition textUnits (text : string) : Z := units_of (map code_unit (String.list_ascii_of_string text)).

(** ** Font sizes *)
Section TextFit.
Context {N : Type} `{!JsNum N}.
#[local] Open Scope js_scope.

(** [Math.floor] and [Math.ceil] *)
Definition math_floor (x : N) : N := if nfin x then nof (nfloor x) else x.
Definition math_ceil (x : N) : N := if nfin x then nof (nceil x) else x.

Definition widthFactor : N := nlit 6 10.
Definition horizontalPadding : N := nof 8.

Definition fittedNodeFontSize (text : string) (width preferred minimum : N) : N :=
  let units := nof (Z.max 1 (textUnits text)) in
  let available := nmax (nof 1) (width - horizontalPadding) in
  let fitted := nmin preferred (available / (units * widthFactor)) in
  nmax minimum (math_floor (fitted * nof 10) / nof 10).

Definition minimumNodeTextWidth (text : string) (minimum : N) : N :=
  nof (textUnits text) * minimum * widthFactor.

Definition availableNodeTextWidth (width : N) : N := width - horizontalPadding.

(** The width of the line when it is drawn at a font size. *)
Definition drawn_width (text : string) (fontSize : N) : N :=
  nof (textUnits text) * (fontSize * widthFactor).
End TextFit.

(** ** Units *)
Lemma char_units_bounds c next : 0 ≤ char_units c next ≤ 2.
Proof. unfold char_units. repeat case_match; lia. Qed.

Lemma units_of_bounds chars : 0 ≤ units_of chars ≤ 2 * Z.of_nat (length chars).
Proof.
  induction chars as [|c chars IH]; [done|]. cbn [units_of length].
  pose proof (char_units_bounds c (default (-1) (head chars))). lia.
Qed.

Lemma textUnits_nonneg text : 0 ≤ textUnits text.
Proof. apply units_of_bounds. Qed.

(** A base and its selector are measured together, whatever the base. *)
Lemma selector_decides (base : Z) rest : variation_selector base = false →
  units_of (base :: VARIATION_SELECTOR_EMOJI :: rest) = 2 + units_of rest ∧
  units_of (base :: VARIATION_SELECTOR_TEXT :: rest) = 1 + units_of rest.
Proof. intros Hb. cbn [units_of]. unfold char_units. rewrite Hb. cbn [head default]. split; done. Qed.

(** Texts of one byte per character have one unit per character. *)
Lemma textUnits_latin text : textUnits text = Z.of_nat (String.length text).
Proof.
  unfold textUnits. induction text as [|c text IH]; [done|].
  cbn [String.list_ascii_of_string map units_of String.length]. rewrite IH.
  assert (Hc : ∀ d, 0 ≤ code_unit d < 256).
  { intros d. unfold code_unit. pose proof (Ascii.N_ascii_bounded d). lia. }
  set (next := default _ _). assert (next < 256).
  { subst next. destruct text as [|d text]; cbn; [lia|apply Hc]. }
  assert (char_units (code_unit c) next = 1) as ->; [|lia].
  unfold char_units, variation_selector. specialize (Hc c).
  rewrite (proj2 (Z.leb_gt _ _)) by (unfold VARIATION_SELECTOR_FIRST; lia).
  rewrite (proj2 (Z.eqb_neq _ _)) by (unfold VARIATION_SELECTOR_EMOJI; lia).
  rewrite (proj2 (Z.eqb_neq _ _)) by (unfold VARIATION_SELECTOR_TEXT; lia). cbn [andb].
  assert (fullwidth (code_unit c) = false) as ->; [|done].
  unfold fullwidth. apply not_true_iff_false. intros (r&Hr&Hin)%existsb_exists.
  assert (Hlow : Forall (λ r, 256 ≤ r.1) FULLWIDTH_RE) by (repeat first [apply Forall_nil_2 | apply Forall_cons_2; [cbn; lia|]]).
  rewrite Forall_forall in Hlow. specialize (Hlow r (proj2 (list_elem_of_In _ _) Hr)). lia.
Qed.

(** ** Font sizes over the rationals *)
Section Fits.
#[local] Open Scope Q_scope.

Lemma math_floor_le (x : Q) : math_floor x <= x.
Proof. apply Qfloor_le. Qed.
Lemma math_ceil_ge (x : Q) : x <= math_ceil x.
Proof. apply Qle_ceiling. Qed.

Lemma Q_nmax_cases (a b : Q) : (a <= b ∧ nmax a b = b) ∨ (b < a ∧ nmax a b = a).
Proof. unfold nmax. cbn [nan Q_num]. destruct (nle a b) eqn:H; q_tests; auto. Qed.
Lemma Q_nmin_cases (a b : Q) : (a <= b ∧ nmin a b = a) ∨ (b < a ∧ nmin a b = b).
Proof. unfold nmin. cbn [nan Q_num]. destruct (nle a b) eqn:H; q_tests; auto. Qed.

Lemma widthFactor_Q : widthFactor == 6 # 10.
Proof. reflexivity. Qed.

Lemma tenths_le (x : Q) : (math_floor (x * nof 10) / nof 10)%js <= x.
Proof.
  q_ops. change (inject_Z 10) with 10. apply Qle_shift_div_r; [lra|]. apply math_floor_le.
Qed.
Lemma tenths_whole (x : Q) (k : Z) : x * 10 == inject_Z k → (math_floor (x * nof 10) / nof 10)%js == x.
Proof.
  intros Hk. unfold math_floor. cbn [nfin nfloor Q_num]. q_ops. change (inject_Z 10) with 10.
  rewrite Hk, Qfloor_Z, <-Hk. field.
Qed.

Lemma inject_Z_le (m n : Z) : (m <= n)%Z → inject_Z m <= inject_Z n.
Proof. by rewrite <-Zle_Qle. Qed.

(** The width at a size, against the quotient that fills the available width. *)
Lemma quotient_fits (units : Z) (available size : Q) : (1 <= units)%Z →
  size <= available / (inject_Z units * widthFactor) ↔ inject_Z units * (size * widthFactor) <= available.
Proof.
  intros Hu%inject_Z_le. change (inject_Z 1) with 1 in Hu. rewrite widthFactor_Q.
  set (u := inject_Z units) in *.
  assert (Hq : u * (available / (u * (6 # 10)) * (6 # 10)) == available) by (field; lra).
  set (q := available / (u * (6 # 10))) in *. clearbody u q. split; intros H; nra.
Qed.

(** A line that fits at its minimum or at a size under the quotient. *)
Lemma line_fits text (a size : Q) : 1 <= a → 0 <= size →
  size <= a / (inject_Z (Z.max 1 (textUnits text)) * widthFactor) → drawn_width text size <= a.
Proof.
  intros Ha Hs H. rewrite quotient_fits in H by lia. unfold drawn_width. q_ops.
  pose proof (inject_Z_le (textUnits text) (Z.max 1 (textUnits text)) ltac:(lia)) as Hu.
  rewrite widthFactor_Q in *. nra.
Qed.

Lemma max_units text : text ≠ "" → Z.max 1 (textUnits text) = textUnits text.
Proof. intros H. rewrite textUnits_latin. destruct text; [done|]. cbn [String.length]. lia. Qed.

Lemma available_at_least (width : Q) : 9 <= width →
  nmax (nof 1) (width - horizontalPadding)%js = availableNodeTextWidth width ∧ 1 <= availableNodeTextWidth width.
Proof.
  intros Hw. unfold availableNodeTextWidth.
  assert (He : (width - horizontalPadding)%js == width - 8) by reflexivity.
  destruct (Q_nmax_cases (nof 1) (width - horizontalPadding)%js) as [[? ->]|[H ->]]; q_ops; split; try done; lra.
Qed.

(** A line of a node that the validation accepts at its legible minimum fits
    in the node at the size it is drawn at; that size is never under the minimum
    nor over the preferred size; and a line that fits at the preferred size, when
    this is a whole number of tenths, is drawn at it. *)
Theorem fitted_text_fits (text : string) (width preferred minimum : Q) :
  9 <= width → 0 < minimum <= preferred →
  let size := fittedNodeFontSize text width preferred minimum in
  minimum <= size <= preferred ∧
  (minimumNodeTextWidth text minimum <= availableNodeTextWidth width →
   drawn_width text size <= availableNodeTextWidth width) ∧
  (∀ tenths, preferred * 10 == inject_Z tenths → text ≠ "" →
   drawn_width text preferred <= availableNodeTextWidth width → size == preferred).
Proof.
  intros Hw Hm size. destruct (available_at_least width Hw) as [Ea Ha].
  subst size. unfold fittedNodeFontSize. rewrite Ea. set (a := availableNodeTextWidth width) in *.
  set (q := (a / (nof (Z.max 1 (textUnits text)) * widthFactor))%js). set (fitted := nmin preferred q).
  pose proof (tenths_le fitted) as Ht. set (t := (math_floor (fitted * nof 10) / nof 10)%js) in *.
  assert (Hf : (preferred <= q ∧ fitted = preferred) ∨ (q < preferred ∧ fitted = q)) by apply Q_nmin_cases.
  assert (Hp : ∀ tenths, preferred * 10 == inject_Z tenths → text ≠ "" → drawn_width text preferred <= a → t == preferred).
  { intros tenths Hwhole Htext Hd. unfold drawn_width in Hd. rewrite <-(max_units text Htext) in Hd.
    rewrite <-quotient_fits in Hd by lia. change (preferred <= q) in Hd. assert (E : fitted = preferred) by (destruct Hf as [[_ E]|[H _]]; [done|lra]).
    unfold t. rewrite E. exact (tenths_whole _ _ Hwhole). }
  destruct (Q_nmax_cases minimum t) as [[Hmt ->]|[Htm ->]]; split_and!; try done; try lra.
  - destruct Hf as [[? E]|[? E]]; rewrite E in Ht; lra.
  - intros _. apply line_fits; [done|lra|]. change (t <= q). destruct Hf as [[? E]|[? E]]; rewrite E in Ht; lra.
  - intros H. unfold drawn_width. unfold minimumNodeTextWidth in H. q_ops. rewrite Qmult_assoc. exact H.
  - intros tenths Hwhole Htext Hd. specialize (Hp tenths Hwhole Htext Hd). lra.
Qed.

(** A label of 14 characters in a node of the default width. *)
Lemma fitted_text_fits_witness :
  drawn_width "PaymentGateway" (fittedNodeFontSize "PaymentGateway" 92 11 (9 # 1)) <= availableNodeTextWidth 92.
Proof.
  apply (fitted_text_fits "PaymentGateway" 92 11 9); [lra|split; lra|]. vm_compute. discriminate.
Defined.
End Fits.
