(* ===== verification/Legend.v ===== *)
(** * Legends ([src/.agents/skills/archify/renderers/shared/legend.mjs])

    Which kinds of a diagram are listed in its legend, how the entries are packed
    into rows, and where they are drawn, or why the legend is hidden or refused. *)

From Stdlib Require Import QArith Lqa.
From stdpp Require Import sorting pretty.
From S2P Require Import Prelude Num JsValue Geometry Routes Analyses Ports Checks TextFit.
#[local] Open Scope Z_scope.

(** ** Entries *)

(** An entry of a catalogue; the optional fields are those a catalogue may leave out. *)
Record legend_kind (N : Type) := {
  lk_kind : string; lk_label : string; lk_swatchWidth : option N; lk_swatchGap : option N;
  lk_interactive : option bool
}.
Arguments lk_kind {N} _.
Arguments lk_label {N} _.
Arguments lk_swatchWidth {N} _.
Arguments lk_swatchGap {N} _.
Arguments lk_interactive {N} _.

(** [meta.legend] *)
Record legend_override := { ov_visible : option bool; ov_label : option string }.
Record legend_config := { lg_mode : option string; lg_entries : list (string * legend_override) }.

(** An entry of the resolved legend. *)
Record legend_entry (N : Type) := {
  le_kind : string; le_label : string; le_swatchWidth : option N; le_swatchGap : option N;
  le_present : bool; le_interactive : bool
}.
Arguments le_kind {N} _.
Arguments le_label {N} _.
Arguments le_swatchWidth {N} _.
Arguments le_swatchGap {N} _.
Arguments le_present {N} _.
Arguments le_interactive {N} _.

(** [{ ...entry, width }] *)
Record measured_entry (N : Type) := { me_entry : legend_entry N; me_width : N }.
Arguments me_entry {N} _.
Arguments me_width {N} _.

Record legend_footprint (N : Type) := {
  fp_measured : list (measured_entry N); fp_rows : list (list (measured_entry N)); fp_rowCount : nat;
  fp_minWidth : N; fp_extraHeight : N
}.
Arguments fp_measured {N} _.
Arguments fp_rows {N} _.
Arguments fp_rowCount {N} _.
Arguments fp_minWidth {N} _.
Arguments fp_extraHeight {N} _.

(** [{ ...entry, x, baseline, row }] *)
Record placed_entry (N : Type) := { pe_entry : measured_entry N; pe_x : N; pe_baseline : N; pe_row : nat }.
Arguments pe_entry {N} _.
Arguments pe_x {N} _.
Arguments pe_baseline {N} _.
Arguments pe_row {N} _.

(** What a legend keeps away from. *)
Inductive legend_obstacle (N : Type) :=
  | SegmentObstacle (s : segment N)
  | RectObstacle (r : rect N).
Arguments SegmentObstacle {N} _.
Arguments RectObstacle {N} _.

(** The options of [measureLegend], with the defaults filled in. *)
Record legend_options (N : Type) := {
  lo_x : N; lo_baselineY : N; lo_width : N; lo_fontSize : N; lo_itemGap : N; lo_lineGap : N; lo_swatchGap : N;
  lo_minTitleY : N; lo_obstacles : list (legend_obstacle N); lo_hide : bool; lo_diagramType : string
}.
Arguments lo_x {N} _.
Arguments lo_baselineY {N} _.
Arguments lo_width {N} _.
Arguments lo_fontSize {N} _.
Arguments lo_itemGap {N} _.
Arguments lo_lineGap {N} _.
Arguments lo_swatchGap {N} _.
Arguments lo_minTitleY {N} _.
Arguments lo_obstacles {N} _.
Arguments lo_hide {N} _.
Arguments lo_diagramType {N} _.

Record legend_layout (N : Type) := {
  ll_entries : list (placed_entry N); ll_rowCount : nat; ll_titleY : option N; ll_fontSize : option N
}.
Arguments ll_entries {N} _.
Arguments ll_rowCount {N} _.
Arguments ll_titleY {N} _.
Arguments ll_fontSize {N} _.

(** The diagnostic of a legend that cannot be drawn. *)
Record legend_problem (N : Type) := {
  lp_code : string; lp_message : string; lp_path : string; lp_evidence : list (string * evidence N);
  lp_fix : string
}.
Arguments lp_code {N} _.
Arguments lp_message {N} _.
Arguments lp_path {N} _.
Arguments lp_evidence {N} _.
Arguments lp_fix {N} _.

(** [measureLegend] returns a layout, returns [null], or throws. *)
Inductive legend_result (N : Type) :=
  | Drawn (l : legend_layout N)
  | Hidden
  | Refused (p : legend_problem N).
Arguments Drawn {N} _.
Arguments Hidden {N}.
Arguments Refused {N} _.

Section Legend.
Context {N : Type} `{!JsNum N, !JsMath N}.
#[local] Open Scope js_scope.

Definition DEFAULT_FONT_SIZE : N := nof 8.
Definition DEFAULT_ITEM_GAP : N := nof 22.
Definition DEFAULT_LINE_GAP : N := nof 22.
Definition DEFAULT_SWATCH_GAP : N := nof 8.
Definition TEXT_ADVANCE_EM : N := nlit 62 100.
Definition INTERACTIVE_BADGE_ALLOWANCE : N := nof 21.

(** The finite points of each route, pairwise, and the label when it is finite. *)
Definition relation_obstacles (points : list (point N)) (labelRect : option (rect N)) : list (legend_obstacle N) :=
  map SegmentObstacle (segments_of (filter (λ p, finite_point p = true) points)) ++
  match labelRect with
  | Some r => if finite_rect r then [RectObstacle r] else []
  | None => []
  end.
Definition relationshipLegendObstacles {R : Type} (relations : list R)
    (pointsFor : R → nat → list (point N)) (labelRectFor : R → nat → option (rect N)) : list (legend_obstacle N) :=
  concat (imap (λ index relation, relation_obstacles (pointsFor relation index) (labelRectFor relation index)) relations).

(** ** Selection *)
Definition no_override : legend_override := {| ov_visible := None; ov_label := None |}.
Definition override_of (config : option legend_config) (kind : string) : legend_override :=
  default no_override (c ← config; '(_, kv) ← list_find (λ kv, kv.1 = kind) (lg_entries c); Some kv.2).
Definition legend_mode (config : option legend_config) : string :=
  match config with
  | Some c => if nonempty (lg_mode c) then text_or_empty (lg_mode c) else "auto"
  | None => "auto"
  end.

Definition legend_visible (mode : string) (present : list string) (kind : string) (o : legend_override) : bool :=
  let selectedByMode := bool_decide (mode = "all") || bool_decide (kind ∈ present) in
  bool_decide (ov_visible o = Some true) || (selectedByMode && negb (bool_decide (ov_visible o = Some false))).

Definition resolve_entry (config : option legend_config) (present : list string) (k : legend_kind N)
    : option (legend_entry N) :=
  let o := override_of config (lk_kind k) in
  if negb (legend_visible (legend_mode config) present (lk_kind k) o) then None
  else Some {| le_kind := lk_kind k;
               le_label := if nonempty (ov_label o) then text_or_empty (ov_label o) else lk_label k;
               le_swatchWidth := lk_swatchWidth k; le_swatchGap := lk_swatchGap k;
               le_present := bool_decide (lk_kind k ∈ present);
               le_interactive := negb (bool_decide (lk_interactive k = Some false)) &&
                                 bool_decide (lk_kind k ∈ present) |}.

Definition resolveLegend (config : option legend_config) (catalog : list (legend_kind N)) (present : list string)
    : list (legend_entry N) :=
  if bool_decide (legend_mode config = "hidden") then [] else omap (resolve_entry config present) catalog.

(** ** Packing *)
Definition measuredEntryWidth (e : legend_entry N) (fontSize swatchGap : N) : N :=
  let swatchWidth := default (nof 14) (le_swatchWidth e) in
  math_ceil (swatchWidth + swatchGap + nof (textUnits (le_label e)) * fontSize * TEXT_ADVANCE_EM +
             (if le_interactive e then INTERACTIVE_BADGE_ALLOWANCE else nof 0)).

(** The rows that are full, the last row, and [cursor]. *)
Record packing := { pk_done : list (list (measured_entry N)); pk_row : list (measured_entry N); pk_cursor : N }.

Definition pack_start : packing := {| pk_done := []; pk_row := []; pk_cursor := nof 0 |}.

(** The body of the loop over the measured entries. *)
Definition pack_entry (width itemGap : N) (p : packing) (e : measured_entry N) : packing :=
  let occupied := match pk_row p with [] => false | _ => true end in
  let required := (if occupied then itemGap else nof 0) + me_width e in
  if occupied && (pk_cursor p + required >? width) then
    {| pk_done := pk_done p ++ [pk_row p]; pk_row := [e]; pk_cursor := me_width e |}
  else {| pk_done := pk_done p; pk_row := pk_row p ++ [e]; pk_cursor := pk_cursor p + required |}.

Definition pack (width itemGap : N) (entries : list (measured_entry N)) : list (list (measured_entry N)) :=
  let p := foldl (pack_entry width itemGap) pack_start entries in
  pk_done p ++ [pk_row p].

Definition measure_entry (fontSize swatchGap : N) (e : legend_entry N) : measured_entry N :=
  {| me_entry := e; me_width := measuredEntryWidth e fontSize (default swatchGap (le_swatchGap e)) |}.

Definition legendFootprint (entries : list (legend_entry N)) (width fontSize itemGap lineGap swatchGap : N)
    : legend_footprint N :=
  match map (measure_entry fontSize swatchGap) entries with
  | [] => {| fp_measured := []; fp_rows := []; fp_rowCount := 0; fp_minWidth := nof 0; fp_extraHeight := nof 0 |}
  | (first :: rest) as measured =>
      let rows := pack width itemGap measured in
      {| fp_measured := measured; fp_rows := rows; fp_rowCount := length rows;
         fp_minWidth := foldl nmax (me_width first) (map me_width rest);
         fp_extraHeight := (nof (Z.of_nat (length rows)) - nof 1) * lineGap |}
  end.

(** ** Placement *)
Implicit Types (o : legend_options N).

Definition footprint_of (entries : list (legend_entry N)) o : legend_footprint N :=
  legendFootprint entries (lo_width o) (lo_fontSize o) (lo_itemGap o) (lo_lineGap o) (lo_swatchGap o).

(** The entries of a row, from the left. *)
Fixpoint place_row (itemGap baseline : N) (row : nat) (entryX : N) (entries : list (measured_entry N))
    : list (placed_entry N) :=
  match entries with
  | [] => []
  | e :: entries =>
      {| pe_entry := e; pe_x := entryX; pe_baseline := baseline; pe_row := row |} ::
      place_row itemGap baseline row (entryX + (me_width e + itemGap)) entries
  end.

Definition row_baseline o (rowCount rowIndex : nat) : N :=
  lo_baselineY o - (nof (Z.of_nat rowCount) - nof (Z.of_nat rowIndex) - nof 1) * lo_lineGap o.

Definition place_rows o (rows : list (list (measured_entry N))) : list (placed_entry N) :=
  concat (imap (λ rowIndex row,
    place_row (lo_itemGap o) (row_baseline o (length rows) rowIndex) rowIndex (lo_x o) row) rows).

Definition entry_rect (p : placed_entry N) : rect N :=
  {| x_ := pe_x p; y_ := pe_baseline p - nof 10; width := me_width (pe_entry p); height := nof 14 |}.
Definition legend_rects o (legendTopY : N) (placed : list (placed_entry N)) : list (string * rect N) :=
  ("title", {| x_ := lo_x o; y_ := legendTopY; width := nof 48; height := nof 14 |}) ::
  map (λ p, (le_kind (me_entry (pe_entry p)), entry_rect p)) placed.

Definition meets_obstacle (r : rect N) (obstacle : legend_obstacle N) : bool :=
  match obstacle with
  | SegmentObstacle s => segmentIntersectsRect s r (nof 0)
  | RectObstacle q => rectsOverlap q r (nof 0)
  end.

Definition unfit o (p : legend_problem N) : legend_result N := if lo_hide o then Hidden else Refused p.

Definition too_wide_problem o (e : measured_entry N) : legend_problem N :=
  let kind := le_kind (me_entry e) in
  {| lp_code := "legend/label-too-wide";
     lp_message := cat ["[legend/label-too-wide] "; lo_diagramType o; " legend label for "; quoted kind; " needs ";
       nshow (me_width e); "px but only "; nshow (lo_width o); "px is available."];
     lp_path := cat ["/meta/legend/entries/"; kind; "/label"];
     lp_evidence := [("kind", EvString kind); ("measuredWidthPx", EvNumber (me_width e));
                     ("availableWidthPx", EvNumber (lo_width o))];
     lp_fix := "shorten the legend label or use a wider viewBox" |}.

Definition overflow_problem o (rowCount : nat) (legendTopY : N) : legend_problem N :=
  {| lp_code := "legend/vertical-overflow";
     lp_message := cat ["[legend/vertical-overflow] "; lo_diagramType o; " legend needs "; pretty rowCount;
       " rows, which would start at y="; nshow legendTopY; " above the available legend band at y=";
       nshow (lo_minTitleY o); "."];
     lp_path := "/meta/legend";
     lp_evidence := [("rowCount", EvIndex (Z.of_nat rowCount)); ("requiredTopY", EvNumber legendTopY);
                     ("availableTopY", EvNumber (lo_minTitleY o))];
     lp_fix := "shorten legend labels, hide nonessential entries, or use a wider viewBox" |}.

Definition overlap_problem o (collision : string * rect N) : legend_problem N :=
  {| lp_code := "legend/content-overlap";
     lp_message := cat ["[legend/content-overlap] "; lo_diagramType o; " legend entry "; quoted collision.1;
       " overlaps authored relationship geometry."];
     lp_path := "/meta/legend";
     lp_evidence := [("legendKind", EvString collision.1); ("legendRect", EvRect collision.2)];
     lp_fix := "shorten or hide legend entries, use a wider viewBox, or move the authored relationship route/label out of the legend band" |}.

Definition measureLegend (entries : list (legend_entry N)) o : legend_result N :=
  match entries with
  | [] => Drawn {| ll_entries := []; ll_rowCount := 0; ll_titleY := None; ll_fontSize := None |}
  | _ =>
      let footprint := footprint_of entries o in
      match list_find (λ e, (me_width e >? lo_width o) = true) (fp_measured footprint) with
      | Some (_, tooWide) => unfit o (too_wide_problem o tooWide)
      | None =>
          let titleY := lo_baselineY o - fp_extraHeight footprint - nof 20 in
          let legendTopY := titleY - nof 10 in
          if legendTopY <? lo_minTitleY o then unfit o (overflow_problem o (fp_rowCount footprint) legendTopY)
          else
            let positioned := place_rows o (fp_rows footprint) in
            match list_find (λ kr, existsb (meets_obstacle kr.2) (lo_obstacles o) = true)
                    (legend_rects o legendTopY positioned) with
            | Some (_, collision) => unfit o (overlap_problem o collision)
            | None => Drawn {| ll_entries := positioned; ll_rowCount := fp_rowCount footprint;
                               ll_titleY := Some titleY; ll_fontSize := Some (lo_fontSize o) |}
            end
      end
  end.
End Legend.
Arguments packing : clear implicits.

(** * Properties, over the rationals *)
Section Packed.
#[local] Open Scope Q_scope.
Implicit Types (e : measured_entry Q) (row : list (measured_entry Q)).

(** The width of a row, its gaps included. *)
Fixpoint tail_width (gap : Q) row : Q :=
  match row with [] => 0 | e :: row => gap + me_width e + tail_width gap row end.
Definition row_width (gap : Q) row : Q :=
  match row with [] => 0 | e :: row => me_width e + tail_width gap row end.

Context (W gap : Q) (Hgap : 0 <= gap).
Definition fits row : Prop := row_width gap row <= W.

Lemma tail_width_app row row' : tail_width gap (row ++ row') == tail_width gap row + tail_width gap row'.
Proof using. induction row as [|e row IH]; cbn [tail_width app]; [lra|rewrite IH; lra]. Qed.

Lemma row_width_snoc row e : row ≠ [] → row_width gap (row ++ [e]) == row_width gap row + (gap + me_width e).
Proof using.
  destruct row as [|d row]; [done|]. intros _. cbn [row_width app]. rewrite tail_width_app. cbn [tail_width]. lra.
Qed.

Definition wide e : Prop := 0 <= me_width e.

Lemma tail_width_nonneg row : Forall wide row → 0 <= tail_width gap row.
Proof using Hgap. intros H. induction H as [|e row He _ IH]; cbn [tail_width]; [lra|]. unfold wide in He. lra. Qed.

Lemma row_width_tail row : row ≠ [] → row_width gap row == tail_width gap row - gap.
Proof using. destruct row; [done|]. intros _. cbn. lra. Qed.

(** What precedes a row only makes it wider, and so does what follows. *)
Lemma row_width_infix row l r : row ≠ [] → Forall wide (l ++ row ++ r) →
  row_width gap row <= row_width gap (l ++ row ++ r).
Proof using Hgap.
  intros Hne. rewrite !Forall_app. intros (Hl&_&Hr).
  pose proof (tail_width_nonneg l Hl). pose proof (tail_width_nonneg r Hr).
  rewrite !row_width_tail, !tail_width_app by (by destruct l, row). lra.
Qed.

(** The state of the loop, and the entries it has placed. *)
Record packed (p : packing Q) (seen : list (measured_entry Q)) : Prop := {
  pk_seen : concat (pk_done p) ++ pk_row p = seen;
  pk_fit : Forall fits (pk_done p);
  pk_fit_row : pk_row p ≠ [] → fits (pk_row p);
  pk_width : pk_cursor p == row_width gap (pk_row p)
}.

Lemma pack_entry_cases p e : pk_cursor p == row_width gap (pk_row p) →
  (pk_row p ≠ [] ∧ W < row_width gap (pk_row p ++ [e]) ∧
   pack_entry W gap p e = {| pk_done := pk_done p ++ [pk_row p]; pk_row := [e]; pk_cursor := me_width e |}) ∨
  ((pk_row p = [] ∨ row_width gap (pk_row p ++ [e]) <= W) ∧ pk_done (pack_entry W gap p e) = pk_done p ∧
   pk_row (pack_entry W gap p e) = pk_row p ++ [e] ∧
   pk_cursor (pack_entry W gap p e) == row_width gap (pk_row p ++ [e])).
Proof using.
  intros Hw. unfold pack_entry. destruct (pk_row p) as [|d row] eqn:Er.
  { right. cbn [andb]. split; [by left|]. split_and!; cbn -[nadd nof]; try done. rewrite Hw. q_ops. cbn. lra. }
  pose proof (row_width_snoc (d :: row) e ltac:(done)) as Hs.
  destruct (nlt W _) eqn:Hlt; cbn [andb]; q_tests; q_ops; [left|right].
  - split_and!; [done|lra|done].
  - split_and!; try done; cbn [pk_cursor]; [right|]; lra.
Qed.

Lemma packed_step p seen e : me_width e <= W → packed p seen → packed (pack_entry W gap p e) (seen ++ [e]).
Proof using.
  intros He [Hs Hf Hr Hw].
  destruct (pack_entry_cases p e Hw) as [(Hne&_&->)|(Hfit&Hd&Hrow&Hc)].
  - split; cbn [pk_done pk_row pk_cursor].
    + rewrite concat_app. cbn. by rewrite app_nil_r, Hs.
    + apply Forall_app. split; [done|]. constructor; [auto|done].
    + intros _. unfold fits. cbn. lra.
    + cbn. lra.
  - split; [by rewrite Hd, Hrow, app_assoc, Hs|by rewrite Hd| |by rewrite Hrow].
    intros _. rewrite Hrow. unfold fits. destruct Hfit as [->|H]; [cbn; lra|done].
Qed.

Lemma packed_all entries : Forall (λ e, me_width e <= W) entries →
  ∀ p seen, packed p seen → packed (foldl (pack_entry W gap) p entries) (seen ++ entries).
Proof using.
  induction 1 as [|e entries He _ IH]; intros p seen Hp; cbn [foldl]; [by rewrite app_nil_r|].
  rewrite cons_middle, app_assoc. apply IH. by apply packed_step.
Qed.

Lemma packed_start : packed pack_start [].
Proof using. split; cbn; try done. Qed.

(** From a state on, either everything fits in the current row, or the row is
    closed by the first entry that does not. *)
Lemma pack_split entries : ∀ p, pk_cursor p == row_width gap (pk_row p) → pk_row p ≠ [] →
  (pk_done (foldl (pack_entry W gap) p entries) = pk_done p) ∨
  ∃ l1 e l2, entries = l1 ++ e :: l2 ∧ W < row_width gap (pk_row p ++ l1 ++ [e]) ∧
    foldl (pack_entry W gap) p entries =
    foldl (pack_entry W gap) {| pk_done := pk_done p ++ [pk_row p ++ l1]; pk_row := [e]; pk_cursor := me_width e |} l2.
Proof using.
  induction entries as [|e entries IH]; intros p Hw Hne; cbn [foldl]; [by left|].
  destruct (pack_entry_cases p e Hw) as [(_&Hover&->)|(_&Hd&Hrow&Hc)].
  { right. exists [], e, entries. by rewrite app_nil_r. }
  destruct (IH (pack_entry W gap p e)) as [H|(l1&d&l2&->&Hover&->)].
  - by rewrite Hrow.
  - rewrite Hrow. by destruct (pk_row p).
  - left. by rewrite H.
  - right. exists (e :: l1), d, l2. rewrite Hd, Hrow in *. rewrite <-!app_assoc in *. done.
Qed.

Lemma shorter_prefix {A} (p rest a : list A) (e : A) (b : list A) :
  p ++ rest = a ++ e :: b → (length a < length p)%nat → ∃ r, p = a ++ [e] ++ r.
Proof using.
  revert p. induction a as [|x a IH]; intros [|y p] H Hl; cbn in *; try lia.
  - injection H as -> _. by exists p.
  - injection H as -> H. destruct (IH p H ltac:(lia)) as [r ->]. by exists r.
Qed.

Lemma drop_prefix_of {A} (p rest a b : list A) : p ++ rest = a ++ b → (length p <= length a)%nat →
  rest = drop (length p) a ++ b.
Proof using.
  revert a. induction p as [|y p IH]; intros a H Hl; cbn in *; [done|].
  destruct a as [|x a]; cbn in *; [lia|]. injection H as -> H. apply IH; [done|lia].
Qed.

(** No other way to cut what is left into rows that fit needs fewer rows, even
    when its current row started earlier. *)
Lemma pack_fewest rows : ∀ p earlier entries, pk_cursor p == row_width gap (pk_row p) → pk_row p ≠ [] →
  Forall wide (earlier ++ pk_row p ++ entries) → Forall fits rows →
  concat rows = earlier ++ pk_row p ++ entries →
  (S (length (pk_done (foldl (pack_entry W gap) p entries))) <= length (pk_done p) + length rows)%nat.
Proof using Hgap.
  induction rows as [|first rows IH]; intros p earlier entries Hw Hne Hwide Hfits Hcut.
  { destruct earlier, (pk_row p); done. }
  apply Forall_cons in Hfits as [Hfirst Hfits]. cbn [concat] in Hcut.
  destruct (pack_split entries p Hw Hne) as [->|(l1&e&l2&->&Hover&->)]; [cbn; lia|].
  assert (Hshort : (length first <= length (earlier ++ pk_row p ++ l1))%nat).
  { destruct (decide (length (earlier ++ pk_row p ++ l1) < length first)%nat) as [Hlong|]; [exfalso|lia].
    destruct (shorter_prefix first (concat rows) (earlier ++ pk_row p ++ l1) e l2) as [r ->].
    { by rewrite Hcut, <-!app_assoc. } { done. }
    unfold fits in Hfirst. pose proof (row_width_infix (pk_row p ++ l1 ++ [e]) earlier r) as Hi.
    assert (Forall wide (earlier ++ (pk_row p ++ l1 ++ [e]) ++ r)) as Hall.
    { rewrite <-!app_assoc in *. apply (Forall_app _ _ (concat rows)). rewrite <-!app_assoc. by rewrite Hcut. }
    specialize (Hi ltac:(by destruct (pk_row p)) Hall). rewrite <-!app_assoc in *. lra. }
  set (q := {| pk_done := _; pk_row := [e]; pk_cursor := _ |}).
  assert (Hcut' : first ++ concat rows = (earlier ++ pk_row p ++ l1) ++ e :: l2) by by rewrite <-!app_assoc.
  pose proof (drop_prefix_of _ _ _ _ Hcut' Hshort) as Hrest.
  set (earlier' := drop (length first) _) in Hrest.
  assert (Hq : (S (length (pk_done (foldl (pack_entry W gap) q l2))) <= length (pk_done q) + length rows)%nat).
  { apply (IH q earlier' l2); subst q; cbn [pk_row pk_cursor]; try done; [cbn; lra|].
    change (e :: l2) with ([e] ++ l2) in Hrest. rewrite <-Hrest.
    assert (Forall wide (first ++ concat rows)) as [_ Hall]%Forall_app; [by rewrite Hcut|done]. }
  subst q. cbn [pk_done length] in *. rewrite length_app in Hq. cbn in Hq. lia.
Qed.
End Packed.

(** ** Rows *)
Section Rows.
#[local] Open Scope Q_scope.
Context (W gap : Q) (Hgap : 0 <= gap) (entries : list (measured_entry Q)).
Context (Hw : Forall (λ e, 0 <= me_width e <= W) entries) (Hne : entries ≠ []).

Lemma entries_wide : Forall wide entries.
Proof using Hw. eapply Forall_impl; [exact Hw|]. intros e [H _]. exact H. Qed.

Lemma pack_rows : concat (pack W gap entries) = entries ∧ Forall (fits W gap) (pack W gap entries).
Proof using Hw Hne.
  unfold pack. set (p := foldl _ _ entries).
  assert (packed W gap p entries) as [Hs Hf Hr _].
  { apply (packed_all W gap entries) with (seen := []); [|apply packed_start].
    eapply Forall_impl; [exact Hw|]. by intros e []. }
  rewrite concat_app. cbn. rewrite app_nil_r. split; [done|].
  apply Forall_app. split; [done|]. constructor; [|done].
  destruct (decide (pk_row p = [])) as [E|]; [|auto]. rewrite E. unfold fits. cbn.
  destruct entries as [|e rest]; [done|]. apply Forall_cons in Hw as [H _]. lra.
Qed.

Lemma pack_least rows : concat rows = entries → Forall (fits W gap) rows →
  (length (pack W gap entries) <= length rows)%nat.
Proof using Hgap Hw Hne.
  intros Hcut Hfits. unfold pack. rewrite length_app. cbn [length].
  pose proof entries_wide as Hwide. destruct entries as [|e rest]; [done|]. cbn [foldl].
  destruct (pack_entry_cases W gap pack_start e (pk_width _ _ _ _ (packed_start W gap)))
    as [(?&_)|(_&Hd&Hrow&Hc)]; [done|]. cbn [pk_row pk_done app] in *.
  set (p := pack_entry _ _ _ e) in *. pose proof (pack_fewest W gap Hgap rows p [] rest) as H.
  rewrite Hrow, Hd in H. cbn [length app] in *. rewrite Nat.add_1_r. apply H; done.
Qed.
End Rows.

(** ** Places *)
Section Places.
#[local] Open Scope Q_scope.
Context (o : legend_options Q) (Hline : 0 <= lo_lineGap o) (Hitem : 0 <= lo_itemGap o).
Implicit Types (p q : placed_entry Q) (row : list (measured_entry Q)).

(** The entry is between the ends of the legend. *)
Definition inside_legend p : Prop :=
  lo_x o <= pe_x p ∧ pe_x p + me_width (pe_entry p) <= lo_x o + lo_width o.

(** The first entry is left of the second in its row, or in a row above it. *)
Definition precedes p q : Prop :=
  (pe_row p = pe_row q ∧ pe_x p + me_width (pe_entry p) + lo_itemGap o <= pe_x q) ∨
  ((pe_row p < pe_row q)%nat ∧ pe_baseline p + lo_lineGap o <= pe_baseline q).

Lemma place_row_entries gap baseline i x row : map pe_entry (place_row gap baseline i x row) = row.
Proof using. revert x. induction row as [|e row IH]; intros x; cbn; [done|by rewrite IH]. Qed.

Lemma place_row_spec gap baseline i row : ∀ x, 0 <= gap → Forall wide row →
  Forall (λ p, pe_row p = i ∧ pe_baseline p = baseline ∧ x <= pe_x p ∧
               pe_x p + me_width (pe_entry p) <= x + row_width gap row) (place_row gap baseline i x row).
Proof using.
  induction row as [|e row IH]; intros x Hg Hwide; cbn [place_row]; [constructor|].
  apply Forall_cons in Hwide as [He Hwide]. unfold wide in He.
  pose proof (tail_width_nonneg gap Hg row Hwide) as Ht. constructor.
  - cbn. split_and!; try done; lra.
  - destruct row as [|d row]; [constructor|]. eapply Forall_impl; [by apply IH|]. q_ops. intros p (?&?&?&?).
    cbn [row_width tail_width] in *. split_and!; try done; lra.
Qed.

Lemma place_row_sorted baseline i row : ∀ x, Forall wide row →
  StronglySorted precedes (place_row (lo_itemGap o) baseline i x row).
Proof using Hitem.
  induction row as [|e row IH]; intros x Hwide; cbn [place_row]; [constructor|].
  apply Forall_cons in Hwide as [He Hwide]. constructor; [by apply IH|].
  eapply Forall_impl; [by apply place_row_spec|]. cbn. q_ops. intros p (Hrow&_&Hx&_). left. cbn. split; [done|lra].
Qed.

(** The rows from an index on. *)
Definition rows_from (count k : nat) (rows : list (list (measured_entry Q))) : list (placed_entry Q) :=
  concat (imap (λ i row, place_row (lo_itemGap o) (row_baseline o count (k + i)) (k + i) (lo_x o) row) rows).

Lemma rows_from_cons count k row rows : rows_from count k (row :: rows) =
  place_row (lo_itemGap o) (row_baseline o count k) k (lo_x o) row ++ rows_from count (S k) rows.
Proof using.
  unfold rows_from. cbn [imap concat]. rewrite Nat.add_0_r. do 2 f_equal.
  apply imap_ext. intros i r _. cbn. by replace (k + S i)%nat with (S (k + i)) by lia.
Qed.

Lemma row_baseline_mono count i j : (i <= j)%nat →
  row_baseline o count i + (inject_Z (Z.of_nat j) - inject_Z (Z.of_nat i)) * lo_lineGap o == row_baseline o count j.
Proof using. intros _. unfold row_baseline. q_ops. lra. Qed.

Lemma rows_spec rows count : ∀ k, Forall (fits (lo_width o) (lo_itemGap o)) rows → Forall wide (concat rows) →
  map pe_entry (rows_from count k rows) = concat rows ∧
  Forall (λ p, (k <= pe_row p < k + length rows)%nat ∧ pe_baseline p = row_baseline o count (pe_row p) ∧ inside_legend p) (rows_from count k rows) ∧
  StronglySorted precedes (rows_from count k rows).
Proof using Hline Hitem.
  induction rows as [|row rows IH]; intros k Hfits Hwide; [split_and!; constructor|].
  apply Forall_cons in Hfits as [Hfit Hfits]. cbn [concat] in *. apply Forall_app in Hwide as [Hrow Hwide].
  destruct (IH (S k) Hfits Hwide) as (He&Hin&Hs). rewrite rows_from_cons.
  pose proof (place_row_spec (lo_itemGap o) (row_baseline o count k) k row (lo_x o) Hitem Hrow) as Hp.
  unfold fits in Hfit. split_and!.
  - by rewrite map_app, place_row_entries, He.
  - apply Forall_app. split.
    + eapply Forall_impl; [exact Hp|]. intros p (->&->&?&?). unfold inside_legend. cbn [length]. split_and!; try done; lia || lra.
    + eapply Forall_impl; [exact Hin|]. intros p (?&?&?). cbn [length]. split_and!; try done; lia.
  - apply StronglySorted_app_2; [|by apply place_row_sorted|done].
    rewrite Forall_forall in Hp, Hin. intros p q (Ep&Eb&_)%Hp (Hq&Eq&_)%Hin.
    right. rewrite Ep, Eb, Eq. split; [lia|]. rewrite <-(row_baseline_mono count k (pe_row q)) by lia.
      assert (1 <= inject_Z (Z.of_nat (pe_row q)) - inject_Z (Z.of_nat k)).
    { unfold Qminus. rewrite <-inject_Z_opp, <-inject_Z_plus. change 1 with (inject_Z 1). rewrite <-Zle_Qle. lia. }
    nra.
Qed.
End Places.

(** ** Widths *)
Section Drawn.
#[local] Open Scope Q_scope.

(** Sizes that are not negative. *)
Definition not_negative (x : option Q) : Prop := ∀ y, x = Some y → 0 <= y.
Record sensible (entries : list (legend_entry Q)) (o : legend_options Q) : Prop := {
  se_fontSize : 0 <= lo_fontSize o;
  se_itemGap : 0 <= lo_itemGap o;
  se_lineGap : 0 <= lo_lineGap o;
  se_swatchGap : 0 <= lo_swatchGap o;
  se_entries : Forall (λ e, not_negative (le_swatchWidth e) ∧ not_negative (le_swatchGap e)) entries
}.

Lemma measure_entry_wide fontSize swatchGap (e : legend_entry Q) : 0 <= fontSize → 0 <= swatchGap →
  not_negative (le_swatchWidth e) → not_negative (le_swatchGap e) → wide (measure_entry fontSize swatchGap e).
Proof.
  intros Hf Hg Hw He. unfold wide, measure_entry, measuredEntryWidth. cbn [me_width].
  eapply Qle_trans; [|apply math_ceil_ge]. set (u := textUnits (le_label e)).
  pose proof (inject_Z_le 0 u (textUnits_nonneg _)) as Hu. change (inject_Z 0) with 0 in Hu.
  assert (0 <= default (nof 14) (le_swatchWidth e)).
  { destruct (le_swatchWidth e) eqn:E; cbn; [by apply Hw|]. unfold Qle. cbn. lia. }
  assert (0 <= default swatchGap (le_swatchGap e)) by (destruct (le_swatchGap e) eqn:E; cbn; [by apply He|done]).
  assert (0 <= if le_interactive e then INTERACTIVE_BADGE_ALLOWANCE else nof 0)
    by (destruct (le_interactive e); unfold Qle; cbn; lia).
  assert (0 <= inject_Z u * fontSize * TEXT_ADVANCE_EM).
  { assert (TEXT_ADVANCE_EM == 62 # 100) as -> by reflexivity. apply Qmult_le_0_compat; [|lra].
    by apply Qmult_le_0_compat. }
  q_ops. lra.
Qed.

Lemma list_find_none {A} (P : A → Prop) `{!∀ x, Decision (P x)} l : list_find P l = None → Forall (λ x, ¬ P x) l.
Proof. apply list_find_None. Qed.

(** A legend that is as wide as it needs, below its upper bound and without
    obstacles is drawn. *)
Lemma measureLegend_free (entries : list (legend_entry Q)) (o : legend_options Q) :
  entries ≠ [] → lo_obstacles o = [] →
  Forall (λ e, me_width e <= lo_width o) (fp_measured (footprint_of entries o)) →
  lo_minTitleY o <= lo_baselineY o - fp_extraHeight (footprint_of entries o) - 30 →
  ∃ l, measureLegend entries o = Drawn l ∧ ll_rowCount l = fp_rowCount (footprint_of entries o) ∧
       ll_titleY l = Some (lo_baselineY o - fp_extraHeight (footprint_of entries o) - nof 20)%js.
Proof.
  intros Hne Hfree Hwide Htop. unfold measureLegend. destruct entries as [|e0 rest]; [done|].
  destruct (list_find _ (fp_measured _)) as [[]|] eqn:E.
  { apply list_find_Some in E as (Hl&Hlt&_). apply list_elem_of_lookup_2 in Hl. rewrite Forall_forall in Hwide.
    apply Hwide in Hl. q_tests. lra. }
  destruct (nlt _ _) eqn:Hlt; [exfalso; q_tests; q_ops; change (inject_Z 10) with 10 in *; change (inject_Z 20) with 20 in *; lra|].
  rewrite Hfree. destruct (list_find _ (legend_rects _ _ _)) as [[]|] eqn:E'.
  { apply list_find_Some in E' as (_&H&_). done. }
  eexists. split; [done|]. done.
Qed.

Lemma foldl_nmax_least (l : list Q) (x : Q) : x <= foldl nmax x l ∧ Forall (λ y, y <= foldl nmax x l) l.
Proof.
  revert x. induction l as [|y l IH]; intros x; cbn [foldl]; [split; [lra|constructor]|].
  destruct (IH (nmax x y)) as [H1 H2]. destruct (Q_nmax_cases x y) as [[? E]|[? E]]; rewrite E in *;
    (split; [lra|constructor; [lra|done]]).
Qed.

(** No entry is wider than the least width of the footprint. *)
Lemma footprint_minWidth (entries : list (legend_entry Q)) (width fontSize itemGap lineGap swatchGap : Q) :
  let fp := legendFootprint entries width fontSize itemGap lineGap swatchGap in
  Forall (λ e, me_width e <= fp_minWidth fp) (fp_measured fp).
Proof.
  cbv zeta. unfold legendFootprint. destruct (map _ entries) as [|first rest]; [constructor|]. cbn [fp_measured fp_minWidth].
  destruct (foldl_nmax_least (map me_width rest) (me_width first)) as [H1 H2].
  constructor; [done|]. by rewrite Forall_map in H2.
Qed.

Lemma legend_layout_facts (entries : list (legend_entry Q)) (o : legend_options Q) (l : legend_layout Q) :
  sensible entries o → entries ≠ [] → measureLegend entries o = Drawn l →
  let measured := map (measure_entry (lo_fontSize o) (lo_swatchGap o)) entries in
  map pe_entry (ll_entries l) = measured ∧
  Forall (inside_legend o) (ll_entries l) ∧
  StronglySorted (precedes o) (ll_entries l) ∧
  (∃ titleY, ll_titleY l = Some titleY ∧ lo_minTitleY o <= titleY - 10 ∧
     Forall (λ p, titleY + 20 <= pe_baseline p <= lo_baselineY o) (ll_entries l)) ∧
  (∀ p obstacle, p ∈ ll_entries l → obstacle ∈ lo_obstacles o → meets_obstacle (entry_rect p) obstacle = false) ∧
  (∀ rows, concat rows = measured → Forall (fits (lo_width o) (lo_itemGap o)) rows →
     (ll_rowCount l <= length rows)%nat).
Proof.
  intros [Hfont Hitem Hline Hswatch Hent] Hne Hdraw measured.
  assert (Hm : measured ≠ []) by (subst measured; by destruct entries).
  assert (Hfp : footprint_of entries o = {| fp_measured := measured; fp_rows := pack (lo_width o) (lo_itemGap o) measured;
    fp_rowCount := length (pack (lo_width o) (lo_itemGap o) measured); fp_minWidth := fp_minWidth (footprint_of entries o);
    fp_extraHeight := (nof (Z.of_nat (length (pack (lo_width o) (lo_itemGap o) measured))) - nof 1)%js * lo_lineGap o |}).
  { unfold footprint_of, legendFootprint. fold measured. by destruct measured. }
  unfold measureLegend in Hdraw. destruct entries as [|e0 rest]; [done|]. clear Hne.
  rewrite Hfp in Hdraw. cbn [fp_measured fp_rows fp_rowCount fp_extraHeight] in Hdraw.
  unfold unfit in Hdraw. destruct (list_find _ measured) as [[]|] eqn:Hwide; [by destruct (lo_hide o)|].
  apply list_find_none in Hwide. set (rows := pack (lo_width o) (lo_itemGap o) measured) in *.
  set (titleY := (lo_baselineY o - _ - nof 20)%js) in Hdraw.
  destruct (nlt (titleY - nof 10)%js (lo_minTitleY o)) eqn:Htop; [by destruct (lo_hide o)|].
  destruct (list_find _ (legend_rects _ _ _)) as [[]|] eqn:Hfree; [by destruct (lo_hide o)|].
  apply list_find_none in Hfree. injection Hdraw as <-. cbn [ll_entries ll_rowCount ll_titleY].
  assert (Hw : Forall (λ e, 0 <= me_width e <= lo_width o) measured).
  { subst measured. rewrite Forall_map in Hwide |- *. rewrite Forall_forall in *. intros e He. split.
    - apply Hent in He as []. by apply measure_entry_wide.
    - apply Hwide in He. cbv beta in He. apply not_true_iff_false in He. q_tests. lra. }
  pose proof (pack_rows (lo_width o) (lo_itemGap o) measured Hw Hm) as [Hcat Hfit]. fold rows in Hcat, Hfit.
  destruct (rows_spec o Hline Hitem rows (length rows) 0 Hfit) as (Hall&Hin&Hsort).
  { rewrite Hcat. by apply (entries_wide (lo_width o)). }
  change (rows_from o (length rows) 0 rows) with (place_rows o rows) in *. split_and!.
  - by rewrite Hall.
  - eapply Forall_impl; [exact Hin|]. by intros p (_&_&?).
  - done.
  - exists titleY. split; [done|]. split; [q_tests; q_ops; change (inject_Z 10) with 10 in *; lra|].
    eapply Forall_impl; [exact Hin|]. intros p (Hrow&->&_). subst titleY. unfold row_baseline. q_ops.
    assert (0 <= inject_Z (Z.of_nat (pe_row p))) by (apply (inject_Z_le 0); lia).
    assert (inject_Z (Z.of_nat (pe_row p)) + 1 <= inject_Z (Z.of_nat (length rows)))
      by (change 1 with (inject_Z 1); rewrite <-inject_Z_plus; apply inject_Z_le; lia).
    change (inject_Z 20) with 20. split; nra.
  - intros p obstacle Hp Ho. rewrite Forall_forall in Hfree.
    specialize (Hfree (le_kind (me_entry (pe_entry p)), entry_rect p)).
    destruct (meets_obstacle _ _) eqn:E; [|done]. exfalso. apply Hfree.
    + unfold legend_rects. right. apply list_elem_of_fmap. by exists p.
    + cbn. apply existsb_exists. exists obstacle. split; [by apply list_elem_of_In|done].
  - intros other Hcut Hfits. by apply (pack_least (lo_width o) (lo_itemGap o) Hitem measured).
Qed.

(** C33: A legend that is drawn lists all its entries, in the order of the
    catalogue, each between the ends of the legend, each left of the next in its
    row or in a row above it, under the title and away from every obstacle; and
    no other way to cut the entries into rows that fit needs fewer rows. *)
Theorem legend_drawn (entries : list (legend_entry Q)) (o : legend_options Q) (l : legend_layout Q) :
  sensible entries o → entries ≠ [] → measureLegend entries o = Drawn l →
  let measured := map (measure_entry (lo_fontSize o) (lo_swatchGap o)) entries in
  map pe_entry (ll_entries l) = measured ∧
  Forall (inside_legend o) (ll_entries l) ∧
  StronglySorted (precedes o) (ll_entries l) ∧
  (∃ titleY, ll_titleY l = Some titleY ∧ lo_minTitleY o <= titleY - 10 ∧
     Forall (λ p, titleY + 20 <= pe_baseline p <= lo_baselineY o) (ll_entries l)) ∧
  (∀ p obstacle, p ∈ ll_entries l → obstacle ∈ lo_obstacles o → meets_obstacle (entry_rect p) obstacle = false) ∧
  (∀ rows, concat rows = measured → Forall (fits (lo_width o) (lo_itemGap o)) rows →
     (ll_rowCount l <= length rows)%nat).
Proof. apply legend_layout_facts. Qed.

(** ** A legend of two rows *)
Definition sample_kind (kind label : string) : legend_kind Q :=
  {| lk_kind := kind; lk_label := label; lk_swatchWidth := None; lk_swatchGap := None; lk_interactive := None |}.
Definition sample_catalog : list (legend_kind Q) :=
  [sample_kind "frontend" "Frontend"; sample_kind "backend" "Backend"; sample_kind "security" "Security";
   sample_kind "database" "Database"].
Definition sample_config : legend_config :=
  {| lg_mode := None;
     lg_entries := [("security", {| ov_visible := Some false; ov_label := None |});
                    ("database", {| ov_visible := Some true; ov_label := Some "Stores" |})] |}.
Definition sample_entries : list (legend_entry Q) :=
  resolveLegend (Some sample_config) sample_catalog ["frontend"; "security"; "backend"].
Definition sample_options : legend_options Q :=
  {| lo_x := 20; lo_baselineY := 300; lo_width := 180; lo_fontSize := 7; lo_itemGap := 7; lo_lineGap := 22;
     lo_swatchGap := 8; lo_minTitleY := 200; lo_obstacles := [SegmentObstacle ((20, 310), (200, 310))];
     lo_hide := false; lo_diagramType := "workflow" |}.

(** The entry an author hides is not listed, the one shown by request keeps its
    own label and is not interactive. *)
Example sample_entries_ex :
  map (λ e, (le_kind e, le_label e, le_interactive e)) sample_entries =
  [("frontend", "Frontend", true); ("backend", "Backend", true); ("database", "Stores", false)].
Proof. vm_compute. reflexivity. Qed.

Lemma legend_drawn_witness : ∃ l,
  measureLegend sample_entries sample_options = Drawn l ∧ ll_rowCount l = 2%nat ∧
  Forall (inside_legend sample_options) (ll_entries l).
Proof.
  assert (H : ∃ l, measureLegend sample_entries sample_options = Drawn l ∧ ll_rowCount l = 2%nat)
    by (vm_compute; eexists; split; reflexivity).
  destruct H as (l&E&Hrows). exists l. split_and!; [exact E|exact Hrows|].
  apply (legend_drawn sample_entries sample_options l); [|discriminate|exact E].
  split; try (unfold Qle; cbn; lia). repeat constructor; discriminate.
Defined.
End Drawn.
