(* ===== verification/Workflow.v ===== *)
(** * Workflow documents
      ([src/.agents/skills/archify/renderers/workflow/workflow-compiler.mjs])

    The documents the workflow compiler reads once they conform to the schema
    ([schemas/workflow.schema.json]), the order it puts them in
    ([canonicalReadableWorkflow]), and the check of the semantic contract an
    author can state in a document ([semanticContractDiagnostics]). *)

From Stdlib Require Import QArith.
From stdpp Require Import sorting pretty gmap relations.
From S2P Require Import Prelude Num JsValue Semver Updates RepositoryLocation Geometry Routes Analyses Ports Checks.
#[local] Open Scope Z_scope.

(** ** Documents *)
Record lane := { ln_id : string; ln_label : string; ln_variant : option string }.

Record wnode (N : Type) := {
  wn_id : string; wn_lane : string; wn_col : Z; wn_type : string; wn_label : string;
  wn_sublabel : option string; wn_tag : option string;
  wn_width : option N; wn_height : option N; wn_yOffset : option N
}.
Arguments wn_id {N} _.
Arguments wn_lane {N} _.
Arguments wn_col {N} _.
Arguments wn_type {N} _.
Arguments wn_label {N} _.
Arguments wn_sublabel {N} _.
Arguments wn_tag {N} _.
Arguments wn_width {N} _.
Arguments wn_height {N} _.
Arguments wn_yOffset {N} _.

Record wedge (N : Type) := {
  we_id : option string; we_from : string; we_to : string; we_label : option string;
  we_variant : option string; we_role : option string;
  we_fromSide : option string; we_toSide : option string; we_route : option string;
  we_via : option (list (N * N)); we_labelAt : option (N * N);
  we_labelDx : option N; we_labelDy : option N; we_labelSegment : option Z;
  we_channelX : option N; we_channelY : option N; we_bias : option N; we_width : option N
}.
Arguments we_id {N} _.
Arguments we_from {N} _.
Arguments we_to {N} _.
Arguments we_label {N} _.
Arguments we_variant {N} _.
Arguments we_role {N} _.
Arguments we_fromSide {N} _.
Arguments we_toSide {N} _.
Arguments we_route {N} _.
Arguments we_via {N} _.
Arguments we_labelAt {N} _.
Arguments we_labelDx {N} _.
Arguments we_labelDy {N} _.
Arguments we_labelSegment {N} _.
Arguments we_channelX {N} _.
Arguments we_channelY {N} _.
Arguments we_bias {N} _.
Arguments we_width {N} _.

(** A phase spans columns; a group spans columns of a lane. *)
Record phase := { ph_id : string; ph_label : string; ph_fromCol : Z; ph_toCol : Z }.
Record group := { gr_id : string; gr_label : string; gr_lane : string; gr_fromCol : Z; gr_toCol : Z }.

Record semantic_relation := { sr_from : string; sr_to : string }.
Record semantic_checks := {
  allowedRoots : option (list string); allowedTerminals : option (list string);
  requiredEdges : option (list semantic_relation); requiredPaths : option (list semantic_relation)
}.

Record workflow (N : Type) := {
  schema_version : Z; wf_lanes : list lane; wf_nodes : list (wnode N); wf_edges : list (wedge N);
  wf_phases : option (list phase); wf_groups : option (list group);
  wf_mainPath : option (list string); semanticChecks : option semantic_checks
}.
Arguments schema_version {N} _.
Arguments wf_lanes {N} _.
Arguments wf_nodes {N} _.
Arguments wf_edges {N} _.
Arguments wf_phases {N} _.
Arguments wf_groups {N} _.
Arguments wf_mainPath {N} _.
Arguments semanticChecks {N} _.

(** [Array.isArray(value) ? value : []] *)
Definition asArray {A} (value : option (list A)) : list A := default [] value.

Section Workflow.
Context {N : Type} `{!JsNum N, !JsMath N}.
Implicit Types (w : workflow N) (n : wnode N) (e : wedge N).

Definition workflowEdgeName e : string :=
  if nonempty (we_id e) then text_or_empty (we_id e) else cat [we_from e; "->"; we_to e].

(** ** Stable order *)
Definition stableText (value : option string) : string := default "" value.
Definition stableCompare (left right : option string) : comparison :=
  String.compare (stableText left) (stableText right).

(** [left || right] of two comparisons. *)
Definition or_else (left right : comparison) : comparison :=
  match left with Eq => right | _ => left end.

(** A JSON value. *)
Inductive json :=
  | VText (s : string)
  | VNumber (x : N)
  | VArray (l : list json)
  | VObject (o : list (string * json)).

(** [JSON.stringify] of a number. *)
Definition json_number (x : N) : string := if nfin x then nshow x else "null".

Fixpoint stableValueKey (value : json) : string :=
  match value with
  | VText s => json_string s
  | VNumber x => json_number x
  | VArray l => cat ["["; join "," (map stableValueKey l); "]"]
  | VObject o =>
      let entries := map (λ kv, (kv.1, cat [json_string kv.1; ":"; stableValueKey kv.2])) o in
      cat ["{"; join "," (map snd (merge_sort (λ p q, text_le p.1 q.1) entries)); "}"]
  end.

Definition optional {A} (key : string) (f : A → json) (o : option A) : list (string * json) :=
  match o with Some a => [(key, f a)] | None => [] end.
Definition point_value (p : N * N) : json := VArray [VNumber p.1; VNumber p.2].

(** The edge as the object it is in the document. *)
Definition edge_value e : json := VObject (
  optional "id" VText (we_id e) ++ [("from", VText (we_from e)); ("to", VText (we_to e))] ++
  optional "label" VText (we_label e) ++ optional "variant" VText (we_variant e) ++
  optional "role" VText (we_role e) ++ optional "fromSide" VText (we_fromSide e) ++
  optional "toSide" VText (we_toSide e) ++ optional "route" VText (we_route e) ++
  optional "via" (λ ps, VArray (map point_value ps)) (we_via e) ++
  optional "labelAt" point_value (we_labelAt e) ++
  optional "labelDx" VNumber (we_labelDx e) ++ optional "labelDy" VNumber (we_labelDy e) ++
  optional "labelSegment" (λ z, VNumber (nof z)) (we_labelSegment e) ++
  optional "channelX" VNumber (we_channelX e) ++ optional "channelY" VNumber (we_channelY e) ++
  optional "bias" VNumber (we_bias e) ++ optional "width" VNumber (we_width e)).
Definition edge_key e : string := stableValueKey (edge_value e).

(** [new Map(items.map((item, index) => [id(item), value]))]: the last entry of a key wins. *)
Definition last_wins {A} (entries : list (string * A)) : gmap string A := list_to_map (reverse entries).

Definition laneOrder (lanes : list lane) : gmap string Z :=
  last_wins (imap (λ i l, (ln_id l, Z.of_nat i)) lanes).
Definition lane_rank (lanes : list lane) (id : string) : Z := default MAX_SAFE_INTEGER (laneOrder lanes !! id).

(** The comparators of the four sorts. *)
Definition compare_nodes (lanes : list lane) (left right : wnode N) : comparison :=
  or_else (lane_rank lanes (wn_lane left) ?= lane_rank lanes (wn_lane right))
    (or_else (wn_col left ?= wn_col right) (stableCompare (Some (wn_id left)) (Some (wn_id right)))).
Definition compare_edges (left right : wedge N) : comparison :=
  or_else (stableCompare (we_id left) (we_id right))
    (or_else (stableCompare (Some (we_from left)) (Some (we_from right)))
      (or_else (stableCompare (Some (we_to left)) (Some (we_to right)))
        (or_else (stableCompare (we_label left) (we_label right))
          (or_else (stableCompare (we_route left) (we_route right))
            (stableCompare (Some (edge_key left)) (Some (edge_key right))))))).
Definition compare_phases (left right : phase) : comparison :=
  or_else (ph_fromCol left ?= ph_fromCol right)
    (or_else (ph_toCol left ?= ph_toCol right) (stableCompare (Some (ph_id left)) (Some (ph_id right)))).
Definition compare_groups (lanes : list lane) (left right : group) : comparison :=
  or_else (lane_rank lanes (gr_lane left) ?= lane_rank lanes (gr_lane right))
    (or_else (gr_fromCol left ?= gr_fromCol right)
      (or_else (gr_toCol left ?= gr_toCol right) (stableCompare (Some (gr_id left)) (Some (gr_id right))))).

(** [Array.prototype.sort] with a comparator: it is stable, as [merge_sort] is. *)
Definition sorted_by {A} (compare : A → A → comparison) (l : list A) : list A :=
  merge_sort (λ a b, compare a b ≠ Gt) l.

Definition canonicalReadableWorkflow w : workflow N :=
  if negb (schema_version w =? 2) then w
  else
    {| schema_version := schema_version w; wf_lanes := wf_lanes w;
       wf_nodes := sorted_by (compare_nodes (wf_lanes w)) (wf_nodes w);
       wf_edges := sorted_by compare_edges (wf_edges w);
       wf_phases := sorted_by compare_phases <$> wf_phases w;
       wf_groups := sorted_by (compare_groups (wf_lanes w)) <$> wf_groups w;
       wf_mainPath := wf_mainPath w; semanticChecks := semanticChecks w |}.
End Workflow.

(** ** Sorting by keys *)
Section SortedBy.
Context {A K : Type} {compare : A → A → comparison} {order : K → K → comparison} `{!Comparator order}.
Context (key : A → K) (Hkey : ∀ a b, compare a b = order (key a) (key b)).

Lemma order_refl (k : K) : order k k = Eq.
Proof. by apply cmp_eq. Qed.

#[local] Instance order_trans : Transitive (λ k l : K, order k l ≠ Gt).
Proof using All.
  intros a b c Hab Hbc. destruct (order a b) eqn:Eab; [apply cmp_eq in Eab as ->; done| |done].
  destruct (order b c) eqn:Ebc; [apply cmp_eq in Ebc as <-; by rewrite Eab| |done].
  by rewrite (cmp_lt_trans _ _ _ Eab Ebc).
Qed.
#[local] Instance order_antisymm : AntiSymm (=) (λ k l : K, order k l ≠ Gt).
Proof using All.
  intros a b Hab Hba. rewrite (cmp_opp (cmp := order) a b) in Hba.
  destruct (order a b) eqn:E; [by apply cmp_eq in E|done..].
Qed.

Lemma sorted_by_sorted l : StronglySorted (λ k l, order k l ≠ Gt) (map key (sorted_by compare l)).
Proof using All.
  apply (StronglySorted_fmap key (λ a b, compare a b ≠ Gt)); [intros a b; by rewrite Hkey|].
  apply Sorted_StronglySorted.
  - intros a b c. rewrite !Hkey. apply order_trans.
  - apply Sorted_merge_sort. intros a b. rewrite !Hkey. rewrite (cmp_opp (cmp := order) (key a) (key b)).
    by destruct (order _ _); [left|left|right].
Qed.

(** Sorting forgets the order of the items, up to items of the same key. *)
Lemma sorted_by_keys l l' : l ≡ₚ l' → map key (sorted_by compare l) = map key (sorted_by compare l').
Proof using All.
  intros H. apply (StronglySorted_unique (λ k l, order k l ≠ Gt)); [apply sorted_by_sorted..|].
  apply Permutation_map. unfold sorted_by. by rewrite !merge_sort_Permutation.
Qed.

Lemma sorted_by_perm l l' : NoDup (map key l) → l ≡ₚ l' → sorted_by compare l = sorted_by compare l'.
Proof using All.
  intros Hnd H. assert (Hp : sorted_by compare l ≡ₚ l) by apply merge_sort_Permutation.
  assert (Hp' : sorted_by compare l' ≡ₚ l) by (unfold sorted_by; by rewrite merge_sort_Permutation).
  pose proof (sorted_by_keys l l' H) as Hk.
  apply (map_inj_on key (λ a, a ∈ l)) in Hk; [done| |apply Forall_forall; intros a; by rewrite Hp|
    apply Forall_forall; intros a; by rewrite Hp'].
  intros a b [i Hi]%list_elem_of_lookup [j Hj]%list_elem_of_lookup Hab.
  assert (i = j); [|congruence].
  apply (NoDup_lookup _ i j (key a) Hnd); by rewrite list_lookup_fmap, ?Hi, ?Hj; cbn; rewrite ?Hab.
Qed.
End SortedBy.

(** ** The canonical order *)

(** The same document with its nodes, edges, phases and groups in another order. *)
Record same_items {N} (w w' : workflow N) : Prop := {
  same_version : schema_version w' = schema_version w;
  same_lanes : wf_lanes w' = wf_lanes w;
  same_nodes : wf_nodes w ≡ₚ wf_nodes w';
  same_edges : wf_edges w ≡ₚ wf_edges w';
  same_phases : option_Forall2 (≡ₚ) (wf_phases w) (wf_phases w');
  same_groups : option_Forall2 (≡ₚ) (wf_groups w) (wf_groups w');
  same_mainPath : wf_mainPath w' = wf_mainPath w;
  same_checks : semanticChecks w' = semanticChecks w
}.

(** Identifiers are unique, and no edge is written twice. *)
Record distinct_items {N} `{!JsNum N, !JsMath N} (w : workflow N) : Prop := {
  distinct_nodes : NoDup (map wn_id (wf_nodes w));
  distinct_edges : NoDup (map edge_key (wf_edges w));
  distinct_phases : NoDup (map ph_id (asArray (wf_phases w)));
  distinct_groups : NoDup (map gr_id (asArray (wf_groups w)))
}.

Definition node_order : Z * (Z * string) → Z * (Z * string) → comparison :=
  pair_cmp Z.compare (pair_cmp Z.compare String.compare).
Definition node_key {N} (lanes : list lane) (n : wnode N) : Z * (Z * string) :=
  (lane_rank lanes (wn_lane n), (wn_col n, wn_id n)).
Definition phase_key (p : phase) : Z * (Z * string) := (ph_fromCol p, (ph_toCol p, ph_id p)).
Definition group_sort_key (lanes : list lane) (g : group) : Z * (Z * (Z * string)) :=
  (lane_rank lanes (gr_lane g), (gr_fromCol g, (gr_toCol g, gr_id g))).

(** A list without repetition under a function is without repetition under a
    finer one. *)
Lemma NoDup_map_finer {A B C} (f : A → B) (g : A → C) (l : list A) :
  (∀ a b, f a = f b → g a = g b) → NoDup (map g l) → NoDup (map f l).
Proof.
  intros H. induction l as [|a l IH]; [intros _; constructor|]. cbn. rewrite !NoDup_cons.
  intros [Ha Hl]. split; [|auto]. intros (b&Hb&Hin)%list_elem_of_fmap. apply Ha.
  apply list_elem_of_fmap. eauto.
Qed.

Lemma or_else_pair {A B} (f : A → A → comparison) (g : B → B → comparison) a b c d :
  pair_cmp f g (a, b) (c, d) = or_else (f a c) (g b d).
Proof. unfold pair_cmp, or_else. cbn. by destruct (f a c). Qed.

Section Canonical.
Context {N : Type} `{!JsNum N, !JsMath N}.

Definition edge_sort_key (e : wedge N) : string * (string * (string * (string * (string * string)))) :=
  (stableText (we_id e), (we_from e, (we_to e, (stableText (we_label e), (stableText (we_route e), edge_key e))))).

(** A comparator of the source is the lexicographic order of its keys. *)
Ltac by_keys := intros ??; unfold node_order, node_key, edge_sort_key, phase_key, group_sort_key;
  rewrite !or_else_pair; reflexivity.

Lemma sorted_nodes lanes (l l' : list (wnode N)) : NoDup (map wn_id l) → l ≡ₚ l' →
  sorted_by (compare_nodes lanes) l = sorted_by (compare_nodes lanes) l'.
Proof.
  intros Hnd. apply (sorted_by_perm (order := node_order) (node_key lanes)); [by_keys|].
  revert Hnd. apply NoDup_map_finer. by intros a b [= _ _ ?].
Qed.

Lemma sorted_edges (l l' : list (wedge N)) : NoDup (map edge_key l) → l ≡ₚ l' →
  sorted_by compare_edges l = sorted_by compare_edges l'.
Proof.
  intros Hnd. apply (sorted_by_perm (order := pair_cmp String.compare (pair_cmp String.compare
    (pair_cmp String.compare (pair_cmp String.compare (pair_cmp String.compare String.compare))))) edge_sort_key); [by_keys|].
  revert Hnd. apply NoDup_map_finer. intros a b H. exact (f_equal (λ k, k.2.2.2.2.2) H).
Qed.

Lemma sorted_phases (l l' : list phase) : NoDup (map ph_id l) → l ≡ₚ l' →
  sorted_by compare_phases l = sorted_by compare_phases l'.
Proof.
  intros Hnd. apply (sorted_by_perm (order := node_order) phase_key); [by_keys|].
  revert Hnd. apply NoDup_map_finer. by intros a b [= _ _ ?].
Qed.

Lemma sorted_groups lanes (l l' : list group) : NoDup (map gr_id l) → l ≡ₚ l' →
  sorted_by (compare_groups lanes) l = sorted_by (compare_groups lanes) l'.
Proof.
  intros Hnd. apply (sorted_by_perm (order := pair_cmp Z.compare node_order) (group_sort_key lanes)); [by_keys|].
  revert Hnd. apply NoDup_map_finer. by intros a b [= _ _ _ ?].
Qed.

Lemma sorted_optional {A B} (key : A → B) (compare : A → A → comparison) (o o' : option (list A)) :
  (∀ l l', NoDup (map key l) → l ≡ₚ l' → sorted_by compare l = sorted_by compare l') →
  NoDup (map key (asArray o)) → option_Forall2 (≡ₚ) o o' → sorted_by compare <$> o = sorted_by compare <$> o'.
Proof. intros H Hnd Ho. destruct Ho as [l l' Hl|]; [|done]. cbn. f_equal. by apply H. Qed.

(** The order in which an author lists the nodes, edges, phases and groups of
    a document of the readable contract does not matter: two such documents have
    the same canonical form, which is what the compiler lays out. *)
Theorem canonical_forgets_order (w w' : workflow N) :
  schema_version w = 2 → distinct_items w → same_items w w' →
  canonicalReadableWorkflow w = canonicalReadableWorkflow w'.
Proof.
  intros Hv [Hn He Hp Hg] [Hv' Hl Rn Re Rp Rg Hm Hc]. unfold canonicalReadableWorkflow.
  rewrite Hv', Hv, Hl, Hm, Hc. cbn [negb Z.eqb Pos.eqb].
  f_equal; [by apply sorted_nodes|by apply sorted_edges|..].
  - by apply (sorted_optional ph_id); [apply sorted_phases|..].
  - by apply (sorted_optional gr_id); [apply sorted_groups|..].
Qed.
End Canonical.

(** ** Sample documents, over the rationals *)
Definition plain_node (id lane : string) (col : Z) (label : string) : wnode Q :=
  {| wn_id := id; wn_lane := lane; wn_col := col; wn_type := "backend"; wn_label := label; wn_sublabel := None;
     wn_tag := None; wn_width := None; wn_height := None; wn_yOffset := None |}.
Definition sized_node (n : wnode Q) (width height yOffset : option Q) : wnode Q :=
  {| wn_id := wn_id n; wn_lane := wn_lane n; wn_col := wn_col n; wn_type := wn_type n; wn_label := wn_label n;
     wn_sublabel := wn_sublabel n; wn_tag := wn_tag n; wn_width := width; wn_height := height;
     wn_yOffset := yOffset |}.
Definition plain_edge (from to : string) (label : option string) : wedge Q :=
  {| we_id := None; we_from := from; we_to := to; we_label := label; we_variant := None; we_role := None;
     we_fromSide := None; we_toSide := None; we_route := None; we_via := None; we_labelAt := None;
     we_labelDx := None; we_labelDy := None; we_labelSegment := None; we_channelX := None; we_channelY := None;
     we_bias := None; we_width := None |}.
Definition sample_lanes : list lane :=
  [{| ln_id := "client"; ln_label := "Client"; ln_variant := None |};
   {| ln_id := "service"; ln_label := "Payment service"; ln_variant := None |};
   {| ln_id := "failed"; ln_label := "Recovery"; ln_variant := Some "exception" |}].
Definition sample_checks : semantic_checks :=
  {| allowedRoots := Some ["request"]; allowedTerminals := Some ["done"; "dead"];
     requiredEdges := Some [{| sr_from := "request"; sr_to := "validate" |}];
     requiredPaths := Some [{| sr_from := "request"; sr_to := "done" |}; {| sr_from := "validate"; sr_to := "dead" |}] |}.
Definition sample_workflow : workflow Q :=
  {| schema_version := 2; wf_lanes := sample_lanes;
     wf_nodes := [plain_node "request" "client" 0 "Request"; plain_node "validate" "service" 1 "Validate";
                  sized_node (plain_node "charge" "service" 2 "Charge") (Some 140%Q) (Some 68%Q) None;
                  plain_node "done" "client" 4 "Done"; plain_node "dead" "failed" 3 "Dead letter"];
     wf_edges := [plain_edge "request" "validate" None; plain_edge "validate" "charge" (Some "ok");
                  plain_edge "charge" "done" None; plain_edge "charge" "dead" (Some "exhausted")];
     wf_phases := Some [{| ph_id := "run"; ph_label := "Processing"; ph_fromCol := 1; ph_toCol := 3 |}];
     wf_groups := Some [{| gr_id := "core"; gr_label := "Core"; gr_lane := "service"; gr_fromCol := 1; gr_toCol := 2 |}];
     wf_mainPath := None; semanticChecks := Some sample_checks |}.
(** The same document, with everything in the other order. *)
Definition reversed {N} (w : workflow N) : workflow N :=
  {| schema_version := schema_version w; wf_lanes := wf_lanes w; wf_nodes := reverse (wf_nodes w);
     wf_edges := reverse (wf_edges w); wf_phases := reverse <$> wf_phases w; wf_groups := reverse <$> wf_groups w;
     wf_mainPath := wf_mainPath w; semanticChecks := semanticChecks w |}.

Lemma canonical_forgets_order_witness :
  canonicalReadableWorkflow sample_workflow = canonicalReadableWorkflow (reversed sample_workflow).
Proof.
  apply (canonical_forgets_order sample_workflow (reversed sample_workflow)); [reflexivity|..].
  - split; apply (bool_decide_unpack _); vm_compute; exact I.
  - split; try reflexivity; try (symmetry; apply reverse_Permutation);
      cbn; constructor; symmetry; apply reverse_Permutation.
Defined.
