(* ===== verification/SemanticContract.v ===== *)
(** * The semantic contract of a workflow
      ([src/.agents/skills/archify/renderers/workflow/workflow-compiler.mjs], [semanticContractDiagnostics])

    An author can state which nodes may be roots and terminals, which edges and
    which directed paths must exist.  The compiler rejects a document that breaks
    its contract; it accepts exactly the documents that keep it. *)

From stdpp Require Import pretty gmap fin_sets fin_map_dom relations.
From S2P Require Import Prelude Num JsValue Geometry Routes Analyses Ports Checks Workflow.
#[local] Open Scope Z_scope.

(** ** Diagnostics *)
Inductive contract_evidence :=
  | Ids (field : string) (ids : list string)
  | Count (field : string) (n : Z).

Record contract_diagnostic := {
  cd_code : string; cd_message : string; cd_subject : list (string * string);
  cd_evidence : list contract_evidence; cd_supportedFixes : list string
}.

(** [diagnostic(...)]: the subject is of a workflow. *)
Definition contract_diagnostic_of (code message : string) (subject : list (string * string))
    (evidence : list contract_evidence) (supportedFixes : list string) : contract_diagnostic :=
  {| cd_code := code; cd_message := message; cd_subject := ("diagramType", "workflow") :: subject;
     cd_evidence := evidence; cd_supportedFixes := supportedFixes |}.

(** ** The graph of the document *)

(** [incoming], [outgoing] and [adjacency], whose keys are the identifiers of the
    nodes; a set of successors keeps the order of insertion. *)
Record contract_graph := {
  incoming : gmap string Z; outgoing : gmap string Z; adjacency : gmap string (list string)
}.

(** [set.add(id)] *)
Definition text_set_add (id : string) (set : list string) : list string :=
  if bool_decide (id ∈ set) then set else set ++ [id].

Section Contract.
Context {N : Type}.
Implicit Types (w : workflow N) (e : wedge N).

(** [new Set(ids)] *)
Definition id_set (ids : list string) : list string := first_of_each id [] ids.

Definition empty_graph (nodeIds : list string) : contract_graph :=
  {| incoming := list_to_map (map (λ i, (i, 0)) nodeIds); outgoing := list_to_map (map (λ i, (i, 0)) nodeIds);
     adjacency := list_to_map (map (λ i, (i, [])) nodeIds) |}.

(** The body of the loop over the edges. *)
Definition add_edge (nodeIds : list string) (g : contract_graph) e : contract_graph :=
  if negb (bool_decide (we_from e ∈ nodeIds)) || negb (bool_decide (we_to e ∈ nodeIds)) then g
  else {| incoming := alter (λ n, n + 1) (we_to e) (incoming g);
          outgoing := alter (λ n, n + 1) (we_from e) (outgoing g);
          adjacency := alter (text_set_add (we_to e)) (we_from e) (adjacency g) |}.

Definition graph_of (nodeIds : list string) (edges : list (wedge N)) : contract_graph :=
  foldl (add_edge nodeIds) (empty_graph nodeIds) edges.

(** ** Reachability *)

(** [for (const next of adjacency.get(current) || [])] *)
Fixpoint visit (nexts visited pending : list string) : list string * list string :=
  match nexts with
  | [] => (visited, pending)
  | next :: nexts =>
      if bool_decide (next ∈ visited) then visit nexts visited pending
      else visit nexts (text_set_add next visited) (pending ++ [next])
  end.

(** The [while] loop, [None] when [fuel] is exhausted. *)
Fixpoint search (fuel : nat) (g : contract_graph) (to : string) (visited pending : list string) : option bool :=
  match pending with
  | [] => Some false
  | current :: pending =>
      match fuel with
      | O => None
      | S fuel =>
          if bool_decide (current = to) then Some true
          else let '(visited, pending) := visit (default [] (adjacency g !! current)) visited pending in
               search fuel g to visited pending
      end
  end.

(** Each identifier is pending at most once. *)
Definition reachable (g : contract_graph) (from to : string) : option bool :=
  search (S (size (dom (adjacency g)))) g to [from] [from].

(** ** The checks *)
Definition referencedNodes (checks : semantic_checks) : list (string * string) :=
  let relations field (l : list semantic_relation) := concat (imap (λ i r,
    [(sr_from r, cat ["/semanticChecks/"; field; "/"; pretty i; "/from"]);
     (sr_to r, cat ["/semanticChecks/"; field; "/"; pretty i; "/to"])]) l) in
  imap (λ i id, (id, cat ["/semanticChecks/allowedRoots/"; pretty i])) (asArray (allowedRoots checks)) ++
  imap (λ i id, (id, cat ["/semanticChecks/allowedTerminals/"; pretty i])) (asArray (allowedTerminals checks)) ++
  relations "requiredEdges" (asArray (requiredEdges checks)) ++
  relations "requiredPaths" (asArray (requiredPaths checks)).

Definition reference_problem (nodeIds : list string) (reference : string * string) : option contract_diagnostic :=
  let '(id, path) := reference in
  if bool_decide (id ∈ nodeIds) then None
  else Some (contract_diagnostic_of "workflow/semantic-node-reference"
    (cat ["Workflow semantic contract references unknown node "; quoted id; " at "; path; "."])
    [("node", id); ("path", path)] [Ids "knownNodes" nodeIds]
    [cat ["replace "; quoted id; " with an existing node id"]; "add the missing node before compiling"]).

Definition root_problem (g : contract_graph) (allowed : list string) (node : string) : option contract_diagnostic :=
  if (0 <? default 0 (incoming g !! node)) || bool_decide (node ∈ allowed) then None
  else Some (contract_diagnostic_of "workflow/unexpected-root"
    (cat ["Workflow node "; quoted node;
          " has no incoming edge and is not declared in semanticChecks.allowedRoots."])
    [("node", node); ("path", "/semanticChecks/allowedRoots")]
    [Count "incomingEdges" 0; Ids "allowedRoots" (id_set allowed)]
    [cat ["add the missing incoming edge to "; quoted node];
     cat ["declare "; quoted node; " in semanticChecks.allowedRoots if it is an intentional source"]]).

Definition terminal_problem (g : contract_graph) (allowed : list string) (node : string) : option contract_diagnostic :=
  if (0 <? default 0 (outgoing g !! node)) || bool_decide (node ∈ allowed) then None
  else Some (contract_diagnostic_of "workflow/unexpected-terminal"
    (cat ["Workflow node "; quoted node;
          " has no outgoing edge and is not declared in semanticChecks.allowedTerminals."])
    [("node", node); ("path", "/semanticChecks/allowedTerminals")]
    [Count "outgoingEdges" 0; Ids "allowedTerminals" (id_set allowed)]
    [cat ["add the missing outgoing edge from "; quoted node];
     cat ["declare "; quoted node; " in semanticChecks.allowedTerminals if it is an intentional sink"]]).

(** [`${from}\u0000${to}`] *)
Definition relation_key (from to : string) : string := from +:+ NUL +:+ to.
Definition authoredEdges (edges : list (wedge N)) : list string :=
  id_set (map (λ e, relation_key (we_from e) (we_to e)) edges).

Definition edge_problem (edges : list (wedge N)) (index : nat) (r : semantic_relation) : option contract_diagnostic :=
  if bool_decide (relation_key (sr_from r) (sr_to r) ∈ authoredEdges edges) then None
  else Some (contract_diagnostic_of "workflow/required-edge"
    (cat ["Workflow semantic contract requires edge "; quoted (sr_from r); " -> "; quoted (sr_to r);
          ", but no authored edge matches it."])
    [("from", sr_from r); ("to", sr_to r); ("path", cat ["/semanticChecks/requiredEdges/"; pretty index])]
    [Count "authoredEdgeCount" (Z.of_nat (length edges))]
    [cat ["add an edge from "; quoted (sr_from r); " to "; quoted (sr_to r);
          " without deleting the semantic requirement"]]).

Definition path_problem (g : contract_graph) (index : nat) (r : semantic_relation) : option contract_diagnostic :=
  if default false (reachable g (sr_from r) (sr_to r)) then None
  else Some (contract_diagnostic_of "workflow/required-path"
    (cat ["Workflow semantic contract requires a directed path from "; quoted (sr_from r); " to ";
          quoted (sr_to r); ", but none exists."])
    [("from", sr_from r); ("to", sr_to r); ("path", cat ["/semanticChecks/requiredPaths/"; pretty index])]
    [Ids "reachableNodes" (id_set (sr_from r :: default [] (adjacency g !! sr_from r)))]
    [cat ["restore a directed path from "; quoted (sr_from r); " to "; quoted (sr_to r);
          " without weakening the semantic requirement"]]).

Definition semanticContractDiagnostics w : list contract_diagnostic :=
  match semanticChecks w with
  | None => []
  | Some checks =>
      let nodeIds := id_set (map wn_id (wf_nodes w)) in
      let g := graph_of nodeIds (wf_edges w) in
      match omap (reference_problem nodeIds) (referencedNodes checks) with
      | (_ :: _) as unknown => unknown
      | [] =>
          match allowedRoots checks with
          | Some allowed => omap (root_problem g allowed) nodeIds
          | None => []
          end ++
          match allowedTerminals checks with
          | Some allowed => omap (terminal_problem g allowed) nodeIds
          | None => []
          end ++
          omap id (imap (edge_problem (wf_edges w)) (asArray (requiredEdges checks))) ++
          omap id (imap (path_problem g) (asArray (requiredPaths checks)))
      end
  end.
End Contract.

(** ** The graph *)

(** An edge of the document between two of its nodes. *)
Definition link {N} (nodeIds : list string) (edges : list (wedge N)) (a b : string) : Prop :=
  a ∈ nodeIds ∧ b ∈ nodeIds ∧ ∃ e, e ∈ edges ∧ we_from e = a ∧ we_to e = b.

(** A count of edges at a node, and whether there is one. *)
Definition counts_edges (count : option Z) (P : Prop) : Prop := ∃ n, count = Some n ∧ 0 ≤ n ∧ (0 < n ↔ P).

Record graph_ok {N} (nodeIds : list string) (edges : list (wedge N)) (g : contract_graph) : Prop := {
  ok_incoming : ∀ b, b ∈ nodeIds → counts_edges (incoming g !! b) (∃ a, link nodeIds edges a b);
  ok_outgoing : ∀ a, a ∈ nodeIds → counts_edges (outgoing g !! a) (∃ b, link nodeIds edges a b);
  ok_keys : ∀ a, is_Some (adjacency g !! a) ↔ a ∈ nodeIds;
  ok_successors : ∀ a b, b ∈ default [] (adjacency g !! a) ↔ link nodeIds edges a b
}.

Lemma elem_of_set_add x id l : x ∈ text_set_add id l ↔ x ∈ l ∨ x = id.
Proof. unfold text_set_add. case_bool_decide; set_solver. Qed.

Lemma elem_of_first_of_each (seen l : list string) x :
  x ∈ first_of_each id seen l ↔ x ∈ l ∧ x ∉ seen.
Proof.
  revert seen. induction l as [|a l IH]; intros seen; cbn [first_of_each].
  { rewrite elem_of_nil. naive_solver. }
  change (id a) with a. destruct (decide (a ∈ seen)); rewrite !elem_of_cons, IH, ?elem_of_cons.
  - naive_solver.
  - destruct (decide (x = a)); naive_solver.
Qed.
Lemma elem_of_id_set l x : x ∈ id_set l ↔ x ∈ l.
Proof. unfold id_set. rewrite elem_of_first_of_each, elem_of_nil. naive_solver. Qed.

Lemma link_app {N} nodeIds (edges edges' : list (wedge N)) a b :
  link nodeIds (edges ++ edges') a b ↔ link nodeIds edges a b ∨ link nodeIds edges' a b.
Proof. unfold link. setoid_rewrite elem_of_app. naive_solver. Qed.
Lemma link_one {N} nodeIds (e : wedge N) a b :
  link nodeIds [e] a b ↔ a ∈ nodeIds ∧ b ∈ nodeIds ∧ we_from e = a ∧ we_to e = b.
Proof. unfold link. setoid_rewrite list_elem_of_singleton. naive_solver. Qed.

Lemma lookup_constant {A} (x : A) l k : (list_to_map (map (λ i, (i, x)) l) : gmap string A) !! k =
  if bool_decide (k ∈ l) then Some x else None.
Proof.
  induction l as [|i l IH]; [done|]. cbn. destruct (decide (i = k)) as [->|Hne].
  - rewrite lookup_insert_eq, bool_decide_true; [done|by left].
  - rewrite lookup_insert_ne, IH by done. by rewrite (bool_decide_ext _ (k ∈ i :: l)) by set_solver.
Qed.

Lemma counts_zero P : ¬ P → counts_edges (Some 0) P.
Proof. intros H. exists 0. split_and!; [done..|]. split; [lia|done]. Qed.
Lemma counts_more count P Q : counts_edges count P → Q → counts_edges ((λ n, n + 1) <$> count) Q.
Proof. intros (n&->&Hn&_) HQ. exists (n + 1). split_and!; [done|lia|]. split; [done|lia]. Qed.
#[export] Instance counts_proper count : Proper (iff ==> iff) (counts_edges count).
Proof. intros P Q H. unfold counts_edges. by setoid_rewrite H. Qed.
Lemma counts_iff count (P Q : Prop) : (P ↔ Q) → counts_edges count P → counts_edges count Q.
Proof. by intros ->. Qed.

Section Graph.
Context {N : Type} (nodeIds : list string).

Lemma empty_graph_ok : graph_ok (N := N) nodeIds [] (empty_graph nodeIds).
Proof.
  assert (Hno : ∀ a b, ¬ link (N := N) nodeIds [] a b) by (intros a b (_&_&e&?%elem_of_nil&_); done).
  split; cbn; intros; rewrite ?lookup_constant.
  - rewrite bool_decide_true by done. apply counts_zero. naive_solver.
  - rewrite bool_decide_true by done. apply counts_zero. naive_solver.
  - case_bool_decide; [by split|]. split; [by intros [? ?]|done].
  - split; [|by intros ?%Hno]. case_bool_decide; cbn; by intros ?%elem_of_nil.
Qed.

Lemma add_edge_ok edges (e : wedge N) g :
  graph_ok nodeIds edges g → graph_ok nodeIds (edges ++ [e]) (add_edge nodeIds g e).
Proof.
  intros [Hi Ho Hk Hs]. unfold add_edge.
  destruct (bool_decide_reflect (we_from e ∈ nodeIds)) as [Hf|Hf],
    (bool_decide_reflect (we_to e ∈ nodeIds)) as [Ht|Ht]; cbn [negb orb];
    [|(split; try done; intros; [eapply counts_iff; [|by apply Hi]|eapply counts_iff; [|by apply Ho]|rewrite Hs];
       setoid_rewrite link_app; setoid_rewrite link_one; naive_solver)..].
  split; cbn; intros.
  - destruct (decide (we_to e = b)) as [<-|Hne].
    + rewrite lookup_alter_eq. eapply counts_more; [by apply Hi|]. exists (we_from e).
      rewrite link_app, link_one. auto.
    + rewrite lookup_alter_ne by done. eapply counts_iff; [|by apply Hi].
      setoid_rewrite link_app; setoid_rewrite link_one; naive_solver.
  - destruct (decide (we_from e = a)) as [<-|Hne].
    + rewrite lookup_alter_eq. eapply counts_more; [by apply Ho|]. exists (we_to e).
      rewrite link_app, link_one. auto.
    + rewrite lookup_alter_ne by done. eapply counts_iff; [|by apply Ho].
      setoid_rewrite link_app; setoid_rewrite link_one; naive_solver.
  - by rewrite lookup_alter_is_Some.
  - rewrite link_app, link_one, <-Hs. destruct (decide (we_from e = a)) as [<-|Hne].
    + rewrite lookup_alter_eq. destruct (Hk (we_from e)) as [_ [l Hl]]; [done|]. rewrite Hl. cbn.
      rewrite elem_of_set_add. naive_solver.
    + rewrite lookup_alter_ne by done. naive_solver.
Qed.

Lemma graph_of_ok (edges : list (wedge N)) : graph_ok nodeIds edges (graph_of nodeIds edges).
Proof.
  unfold graph_of. induction edges as [|e edges IH] using rev_ind; [apply empty_graph_ok|].
  rewrite foldl_snoc. by apply add_edge_ok.
Qed.
End Graph.

(** ** Reachability *)
Section Visit.
Context (D : gset string).

(** The nodes that can still be visited, and those that wait. *)
Definition work (visited pending : list string) : nat :=
  (length pending + size (D ∖ list_to_set visited))%nat.

Lemma work_visit x visited pending : x ∈ D → x ∉ visited →
  work (text_set_add x visited) (pending ++ [x]) = work visited pending.
Proof.
  intros HD Hx. unfold work, text_set_add. rewrite bool_decide_false, length_app by done. cbn [length].
  assert (D ∖ list_to_set visited = {[x]} ∪ (D ∖ list_to_set (visited ++ [x]) : gset string)) as ->.
  { apply set_eq. intros y. rewrite elem_of_union, !elem_of_difference, !elem_of_list_to_set, elem_of_app,
      list_elem_of_singleton, elem_of_singleton. destruct (decide (y = x)); naive_solver. }
  rewrite (size_union {[x]}), size_singleton; [lia|]. set_solver.
Qed.

(** What a pass over the successors of a node adds. *)
Lemma visit_spec nexts visited pending : (∀ x, x ∈ nexts → x ∈ D) →
  let '(visited', pending') := visit nexts visited pending in
  (∃ new, pending' = pending ++ new ∧ (∀ x, x ∈ visited' ↔ x ∈ visited ∨ x ∈ new) ∧ (∀ x, x ∈ new → x ∈ nexts)) ∧
  (∀ x, x ∈ nexts → x ∈ visited') ∧ work visited' pending' = work visited pending.
Proof.
  revert visited pending. induction nexts as [|x nexts IH]; intros visited pending HD; cbn [visit].
  { split_and!; [|by intros ? ?%elem_of_nil|done]. exists []. rewrite app_nil_r. set_solver. }
  assert (Hx : x ∈ D) by (apply HD; by left).
  assert (HD' : ∀ y, y ∈ nexts → y ∈ D) by (intros y Hy; apply HD; by right).
  case_bool_decide as Hv.
  - specialize (IH visited pending HD'). destruct (visit nexts visited pending) as [v p].
    destruct IH as ((new&->&Hv'&Hnew)&Hin&Hw). split_and!; [|set_solver|done]. exists new. set_solver.
  - specialize (IH (text_set_add x visited) (pending ++ [x]) HD').
    destruct (visit nexts (text_set_add x visited) (pending ++ [x])) as [v p].
    destruct IH as ((new&->&Hv'&Hnew)&Hin&Hw). setoid_rewrite elem_of_set_add in Hv'.
    split_and!; [|set_solver|by rewrite Hw, work_visit]. exists (x :: new). rewrite <-app_assoc. set_solver.
Qed.

End Visit.

Section Search.
Context (g : contract_graph) (to : string) (D : gset string).
Context (next : string → string → Prop).
Context (Hnext : ∀ a b, b ∈ default [] (adjacency g !! a) ↔ next a b).
Context (Hdom : ∀ a b, next a b → b ∈ D).
#[local] Notation work := (work D).

(** Visited nodes are reachable, and what is left to do is pending. *)
Record search_inv (from : string) (visited pending : list string) : Prop := {
  si_from : from ∈ visited;
  si_pending : ∀ x, x ∈ pending → x ∈ visited;
  si_reached : ∀ x, x ∈ visited → rtc next from x;
  si_done : ∀ x, x ∈ visited → x ∉ pending → x ≠ to ∧ ∀ y, next x y → y ∈ visited
}.

Lemma search_step from visited current pending : search_inv from visited (current :: pending) → current ≠ to →
  let '(visited', pending') := visit (default [] (adjacency g !! current)) visited pending in
  search_inv from visited' pending' ∧ S (work visited' pending') = work visited (current :: pending).
Proof using Hnext Hdom.
  intros [Hf Hp Hr Hd] Hto. pose proof (visit_spec D (default [] (adjacency g !! current)) visited pending) as Hs.
  destruct (visit _ _ _) as [v p]. destruct Hs as ((new&->&Hv&Hnew)&Hin&Hw); [intros x; rewrite Hnext; apply Hdom|].
  setoid_rewrite Hnext in Hnew. setoid_rewrite Hnext in Hin. split; [split|].
  - rewrite Hv. auto.
  - intros x. rewrite Hv, elem_of_app. intros [?|?]; [left; apply Hp; by right|auto].
  - intros x [Hx|Hx]%Hv; [auto|]. eapply rtc_r; [|by apply Hnew]. apply Hr, Hp. by left.
  - intros x Hx Hnp. rewrite elem_of_app in Hnp. destruct (decide (x = current)) as [->|Hne]; [split; [done|auto]|].
    apply Hv in Hx as [Hx|Hx]; [|tauto]. destruct (Hd x Hx) as [? Hs]; [rewrite elem_of_cons; tauto|].
    split; [done|]. intros y Hy. apply Hv. left. auto.
  - rewrite Hw. unfold work. cbn [length]. lia.
Qed.

(** With nothing pending, the visited nodes are closed and [to] is not one of them. *)
Lemma nothing_pending from visited : search_inv from visited [] → ¬ rtc next from to.
Proof.
  intros [Hf _ _ Hd] Hrt.
  assert (Hclosed : ∀ x y, rtc next x y → x ∈ visited → y ∈ visited).
  { intros x y Hxy. induction Hxy as [|x y z Hxy _ IH]; [done|]. intros Hx. apply IH.
    exact (proj2 (Hd x Hx (not_elem_of_nil x)) y Hxy). }
  exact (proj1 (Hd to (Hclosed _ _ Hrt Hf) (not_elem_of_nil to)) eq_refl).
Qed.

Lemma search_correct fuel from visited pending : search_inv from visited pending → (work visited pending ≤ fuel)%nat →
  ∃ found, search fuel g to visited pending = Some found ∧ (found = true ↔ rtc next from to).
Proof using Hnext Hdom.
  revert visited pending. induction fuel as [|fuel IH]; intros visited pending Hinv Hfuel;
    (destruct pending as [|current pending]; cbn [search]; [exists false; split; [done|]; split; [done|]|]).
  1, 3: intros Hrt; by destruct (nothing_pending _ _ Hinv).
  { unfold work in Hfuel. cbn in Hfuel. lia. }
  case_bool_decide as Hc.
  - exists true. split; [done|]. split; [|done]. intros _. subst. apply (si_reached _ _ _ Hinv), (si_pending _ _ _ Hinv).
    by left.
  - pose proof (search_step _ _ _ _ Hinv Hc) as Hs. destruct (visit _ _ _) as [v p]. destruct Hs as [Hi Hw].
    apply IH; [done|lia].
Qed.
End Search.

Lemma reachable_correct {N} nodeIds (edges : list (wedge N)) from to : from ∈ nodeIds →
  ∃ found, reachable (graph_of nodeIds edges) from to = Some found ∧
    (found = true ↔ rtc (link nodeIds edges) from to).
Proof.
  intros Hfrom. destruct (graph_of_ok nodeIds edges) as [_ _ Hk Hs]. set (g := graph_of nodeIds edges) in *.
  apply (search_correct g to (dom (adjacency g)) (link nodeIds edges) Hs).
  - intros a b (_&Hb&_). by apply elem_of_dom, Hk.
  - split; [by left|done|..].
    + intros x ->%list_elem_of_singleton. reflexivity.
    + intros x Hx Hn. by destruct Hn.
  - unfold work. cbn [length]. assert (size (dom (adjacency g) ∖ list_to_set [from]) ≤ size (dom (adjacency g)))%nat; [|lia].
    apply subseteq_size. set_solver.
Qed.

(** ** The contract *)
Section Exact.
Context {N : Type}.
Implicit Types (w : workflow N) (c : semantic_checks).

Definition node_ids w : list string := map wn_id (wf_nodes w).

(** An edge of the document between two of its nodes. *)
Definition arrow w (a b : string) : Prop :=
  a ∈ node_ids w ∧ b ∈ node_ids w ∧ ∃ e, e ∈ wf_edges w ∧ we_from e = a ∧ we_to e = b.

(** The identifiers a contract mentions. *)
Definition mentions c (id : string) : Prop :=
  id ∈ asArray (allowedRoots c) ∨ id ∈ asArray (allowedTerminals c) ∨
  ∃ r, r ∈ asArray (requiredEdges c) ++ asArray (requiredPaths c) ∧ (id = sr_from r ∨ id = sr_to r).

Record keeps_contract w c : Prop := {
  kc_known : ∀ id, mentions c id → id ∈ node_ids w;
  kc_roots : ∀ allowed, allowedRoots c = Some allowed →
    ∀ id, id ∈ node_ids w → (∃ a, arrow w a id) ∨ id ∈ allowed;
  kc_terminals : ∀ allowed, allowedTerminals c = Some allowed →
    ∀ id, id ∈ node_ids w → (∃ b, arrow w id b) ∨ id ∈ allowed;
  kc_edges : ∀ r, r ∈ asArray (requiredEdges c) → arrow w (sr_from r) (sr_to r);
  kc_paths : ∀ r, r ∈ asArray (requiredPaths c) → rtc (arrow w) (sr_from r) (sr_to r)
}.

(** The key of a relation determines it: identifiers have no NUL character. *)
Record readable_ids w c : Prop := {
  ri_edges : ∀ e, e ∈ wf_edges w → nul_free (we_to e) = true;
  ri_relations : ∀ r, r ∈ asArray (requiredEdges c) → nul_free (sr_to r) = true
}.

(** The problems of a list are none when each item has none. *)
Lemma no_problem {A B} (f : A → option B) (P : A → Prop) l :
  (∀ a, a ∈ l → f a = None ↔ P a) → omap f l = [] ↔ ∀ a, a ∈ l → P a.
Proof.
  induction l as [|a l IH]; intros Hf; [by split; [intros _ a ?%elem_of_nil|]|]. cbn.
  setoid_rewrite elem_of_cons. setoid_rewrite elem_of_cons in Hf.
  destruct (f a) eqn:E; [|rewrite IH]; naive_solver.
Qed.

Lemma no_indexed_problem {A B} (f : nat → A → option B) (P : A → Prop) l :
  (∀ i a, a ∈ l → f i a = None ↔ P a) → omap id (imap f l) = [] ↔ ∀ a, a ∈ l → P a.
Proof.
  intros Hf. rewrite (no_problem id (λ o, o = None)) by done. setoid_rewrite elem_of_imap. split.
  - intros H a Ha. pose proof Ha as [i Hi]%list_elem_of_lookup. rewrite <-(Hf i a Ha). eapply H. eauto.
  - intros H o (i&a&Hi&->). apply list_elem_of_lookup_2 in Hi. rewrite Hf by done. auto.
Qed.

Lemma elem_of_references (x : string) c : x ∈ (referencedNodes c).*1 ↔ mentions c x.
Proof.
  unfold referencedNodes, mentions. rewrite !fmap_app, !elem_of_app.
  assert (Hids : ∀ (f : nat → string → string) l, x ∈ (imap (λ i a, (a, f i a)) l).*1 ↔ x ∈ l).
  { intros f l. rewrite list_elem_of_fmap. setoid_rewrite elem_of_imap. split.
    - intros (?&->&i&a&Hi&->). by eapply list_elem_of_lookup_2.
    - intros [i Hi]%list_elem_of_lookup. exists (x, f i x). split; [done|]. eauto. }
  assert (Hrel : ∀ (f g : nat → semantic_relation → string) l,
    x ∈ (concat (imap (λ i r, [(sr_from r, f i r); (sr_to r, g i r)]) l)).*1 ↔
    ∃ r, r ∈ l ∧ (x = sr_from r ∨ x = sr_to r)).
  { intros f g l. rewrite list_elem_of_fmap. setoid_rewrite elem_of_concat_imap.
    setoid_rewrite elem_of_cons. setoid_rewrite list_elem_of_singleton. split.
    - intros (?&->&i&r&Hi&[-> | ->]); exists r; (split; [by eapply list_elem_of_lookup_2|]); auto.
    - intros (r&[i Hi]%list_elem_of_lookup&[-> | ->]);
        [exists (sr_from r, f i r)|exists (sr_to r, g i r)]; (split; [done|exists i, r; auto]). }
  rewrite !Hids, !Hrel. setoid_rewrite elem_of_app. naive_solver.
Qed.

Lemma unknown_references nodeIds c :
  omap (reference_problem nodeIds) (referencedNodes c) = [] ↔ ∀ id, mentions c id → id ∈ nodeIds.
Proof.
  rewrite (no_problem _ (λ r, r.1 ∈ nodeIds)).
  - setoid_rewrite <-elem_of_references. setoid_rewrite list_elem_of_fmap. naive_solver.
  - intros [x p] _. unfold reference_problem. cbn. by case_bool_decide.
Qed.

Lemma counted_or_allowed count P (allowed : list string) (id : string) : counts_edges count P →
  (0 <? default 0 count) || bool_decide (id ∈ allowed) = true ↔ P ∨ id ∈ allowed.
Proof.
  intros (n&->&Hn&HP). cbn. rewrite orb_true_iff, Z.ltb_lt, HP, bool_decide_eq_true. done.
Qed.

(** The nodes and the graph the checks read. *)
Definition ids_of w : list string := id_set (node_ids w).
Definition contract_graph_of w : contract_graph := graph_of (ids_of w) (wf_edges w).

Lemma elem_of_ids w id : id ∈ ids_of w ↔ id ∈ node_ids w.
Proof. apply elem_of_id_set. Qed.

Lemma link_arrow w a b : link (ids_of w) (wf_edges w) a b ↔ arrow w a b.
Proof. unfold link, arrow. by rewrite !elem_of_ids. Qed.

Lemma no_unexpected_root w allowed : omap (root_problem (contract_graph_of w) allowed) (ids_of w) = [] ↔
  ∀ id, id ∈ node_ids w → (∃ a, arrow w a id) ∨ id ∈ allowed.
Proof.
  setoid_rewrite <-elem_of_ids. apply no_problem. intros x Hx.
  pose proof (ok_incoming _ _ _ (graph_of_ok _ (wf_edges w)) x Hx) as Hn.
  setoid_rewrite link_arrow in Hn. rewrite <-(counted_or_allowed _ _ allowed x Hn).
  unfold root_problem, contract_graph_of. by destruct (_ || _).
Qed.

Lemma no_unexpected_terminal w allowed : omap (terminal_problem (contract_graph_of w) allowed) (ids_of w) = [] ↔
  ∀ id, id ∈ node_ids w → (∃ b, arrow w id b) ∨ id ∈ allowed.
Proof.
  setoid_rewrite <-elem_of_ids. apply no_problem. intros x Hx.
  pose proof (ok_outgoing _ _ _ (graph_of_ok _ (wf_edges w)) x Hx) as Hn.
  setoid_rewrite link_arrow in Hn. rewrite <-(counted_or_allowed _ _ allowed x Hn).
  unfold terminal_problem, contract_graph_of. by destruct (_ || _).
Qed.

Lemma elem_of_authoredEdges (edges : list (wedge N)) from to :
  (∀ e, e ∈ edges → nul_free (we_to e) = true) → nul_free to = true →
  relation_key from to ∈ authoredEdges edges ↔ ∃ e, e ∈ edges ∧ we_from e = from ∧ we_to e = to.
Proof.
  intros He Ht. unfold authoredEdges. rewrite elem_of_id_set, list_elem_of_fmap. split.
  - intros (e&Hk&Hin). exists e. split; [done|]. symmetry in Hk.
    apply nul_split_inj in Hk; [done|by apply He|done].
  - intros (e&Hin&<-&<-). by exists e.
Qed.

Lemma no_missing_edge w l : (∀ e, e ∈ wf_edges w → nul_free (we_to e) = true) →
  (∀ r, r ∈ l → nul_free (sr_to r) = true) → (∀ r, r ∈ l → sr_from r ∈ node_ids w ∧ sr_to r ∈ node_ids w) →
  omap id (imap (edge_problem (wf_edges w)) l) = [] ↔ ∀ r, r ∈ l → arrow w (sr_from r) (sr_to r).
Proof.
  intros He Hl Hk. apply no_indexed_problem. intros i r Hr. specialize (Hk r Hr). unfold edge_problem, arrow.
  rewrite <-(elem_of_authoredEdges (wf_edges w)) by auto. case_bool_decide; naive_solver.
Qed.

Lemma no_missing_path w l : (∀ r, r ∈ l → sr_from r ∈ node_ids w) →
  omap id (imap (path_problem (contract_graph_of w)) l) = [] ↔ ∀ r, r ∈ l → rtc (arrow w) (sr_from r) (sr_to r).
Proof.
  intros Hk. apply no_indexed_problem. intros i r Hr.
  destruct (reachable_correct (ids_of w) (wf_edges w) (sr_from r) (sr_to r)) as (found&Hf&Hr');
    [by apply elem_of_ids, Hk|].
  unfold path_problem, contract_graph_of. rewrite Hf. cbn [default].
  assert (Hiff : rtc (link (ids_of w) (wf_edges w)) (sr_from r) (sr_to r) ↔ rtc (arrow w) (sr_from r) (sr_to r)).
  { split; apply rtc_subrel; intros a b; apply link_arrow. }
  rewrite <-Hiff, <-Hr'. by destruct found.
Qed.

(** C20: The compiler raises no diagnostic on the semantic contract of a document
    exactly when the document keeps it: every identifier it mentions is a node,
    the nodes without incoming (outgoing) edge are among the allowed roots
    (terminals), the required edges are there, and the required paths exist. *)
Theorem semantic_contract_exact w c : semanticChecks w = Some c → readable_ids w c →
  semanticContractDiagnostics w = [] ↔ keeps_contract w c.
Proof.
  intros Hc [Hnul Hnulr]. unfold semanticContractDiagnostics. rewrite Hc.
  change (id_set (map wn_id (wf_nodes w))) with (ids_of w). fold (contract_graph_of w).
  pose proof (unknown_references (ids_of w) c) as Hknown. setoid_rewrite elem_of_ids in Hknown.
  destruct (omap _ (referencedNodes c)) as [|d ds].
  2: { split; [done|]. intros Hk. discriminate (proj2 Hknown (kc_known _ _ Hk)). }
  destruct Hknown as [Hknown _]. specialize (Hknown eq_refl).
  assert (Hrel : ∀ r, r ∈ asArray (requiredEdges c) ++ asArray (requiredPaths c) →
    sr_from r ∈ node_ids w ∧ sr_to r ∈ node_ids w).
  { intros r Hr. split; apply Hknown; right; right; eauto. }
  setoid_rewrite elem_of_app in Hrel.
  rewrite !app_nil, no_missing_edge, no_missing_path by naive_solver. split.
  - intros (Hr&Ht&He&Hp). split; [done|..|done|done]; intros allowed E; rewrite E in *;
      [by apply no_unexpected_root|by apply no_unexpected_terminal].
  - intros [_ Hr Ht He Hp]. split_and!; [..|done|done].
    + destruct (allowedRoots c) as [allowed|]; [|done]. by apply no_unexpected_root, Hr.
    + destruct (allowedTerminals c) as [allowed|]; [|done]. by apply no_unexpected_terminal, Ht.
Qed.
End Exact.

Lemma semantic_contract_exact_witness :
  semanticContractDiagnostics sample_workflow = [] ∧ keeps_contract sample_workflow sample_checks.
Proof.
  assert (H : semanticContractDiagnostics sample_workflow = []) by (vm_compute; reflexivity).
  split; [exact H|].
  apply (semantic_contract_exact sample_workflow sample_checks); [reflexivity| |exact H].
  split; apply Forall_forall; apply (bool_decide_unpack _); vm_compute; exact I.
Defined.

(** A contract the sample breaks in each of the four ways. *)
Example broken_contract : map (λ d, (cd_code d, last (cd_subject d)))
  (semanticContractDiagnostics {| schema_version := 2; wf_lanes := wf_lanes sample_workflow;
     wf_nodes := wf_nodes sample_workflow; wf_edges := wf_edges sample_workflow; wf_phases := None;
     wf_groups := None; wf_mainPath := None; semanticChecks := Some
       {| allowedRoots := Some []; allowedTerminals := Some ["done"];
          requiredEdges := Some [{| sr_from := "request"; sr_to := "done" |}];
          requiredPaths := Some [{| sr_from := "done"; sr_to := "request" |}] |} |}) =
  [("workflow/unexpected-root", Some ("path", "/semanticChecks/allowedRoots"));
   ("workflow/unexpected-terminal", Some ("path", "/semanticChecks/allowedTerminals"));
   ("workflow/required-edge", Some ("path", "/semanticChecks/requiredEdges/0"));
   ("workflow/required-path", Some ("path", "/semanticChecks/requiredPaths/0"))].
Proof. vm_compute. reflexivity. Qed.
