(* ===== verification/ReadableLayout.v ===== *)
(** * The readable layout of a workflow
      ([src/.agents/skills/archify/renderers/workflow/workflow-compiler.mjs], [createReadableLayout])

    Where the six columns of a workflow stand, how wide its lanes are, and how
    high: the columns are the least that satisfy a system of difference
    constraints, shifted to the right until what is left of them fits; lanes are
    as high as their tallest node asks, with room for the frames of groups.

    A set of the source is the list of its elements in order of insertion. *)

From Stdlib Require Import QArith Qround.
From stdpp Require Import sorting pretty gmap.
From S2P Require Import Prelude Num JsValue Updates Geometry Routes Analyses Ports Checks TextFit Workflow SemanticContract.
#[local] Open Scope Z_scope.

(** A difference constraint between two columns. *)
Record constraint (N : Type) := {
  ct_from : Z; ct_to : Z; ct_minimum : N; ct_contributors : list string
}.
Arguments ct_from {N} _.
Arguments ct_to {N} _.
Arguments ct_minimum {N} _.
Arguments ct_contributors {N} _.

(** What routing asked of the layout in earlier rounds. *)
Record layout_feedback (N : Type) := {
  rankGapMinimums : list ((Z * Z) * N); rankGapContributors : list ((Z * Z) * list string);
  laneGapMin : option N; laneGapContributors : list string
}.
Arguments rankGapMinimums {N} _.
Arguments rankGapContributors {N} _.
Arguments laneGapMin {N} _.
Arguments laneGapContributors {N} _.
Definition no_feedback {N} : layout_feedback N :=
  {| rankGapMinimums := []; rankGapContributors := []; laneGapMin := None; laneGapContributors := [] |}.

(** A layout; the fields that only the readable one has are optional. *)
Record wlayout (N : Type) := {
  contract : string; laneX : N; laneY : N; laneW : N; laneH : N; laneHeights : option (list N);
  laneGap : N; laneTitleH : N; groupHeaderHeights : option (list N); groupFooterHeights : option (list N);
  colXs : list N; nodeW : N; nodeH : N; defaultViewBoxWidth : N; channelLabelEdgeKeys : list string;
  widthContributors : list string; heightContributors : list string
}.
Arguments contract {N} _.
Arguments laneX {N} _.
Arguments laneY {N} _.
Arguments laneW {N} _.
Arguments laneH {N} _.
Arguments laneHeights {N} _.
Arguments laneGap {N} _.
Arguments laneTitleH {N} _.
Arguments groupHeaderHeights {N} _.
Arguments groupFooterHeights {N} _.
Arguments colXs {N} _.
Arguments nodeW {N} _.
Arguments nodeH {N} _.
Arguments defaultViewBoxWidth {N} _.
Arguments channelLabelEdgeKeys {N} _.
Arguments widthContributors {N} _.
Arguments heightContributors {N} _.

(** The columns, and what made each of them stand where it does. *)
Record placed (N : Type) := { pl_cols : list N; pl_provenance : list (list string) }.
Arguments pl_cols {N} _.
Arguments pl_provenance {N} _.

(** [for (const x of xs) set.add(x)] *)
Definition add_all (xs set : list string) : list string := foldl (λ s x, text_set_add x s) set xs.

Section Measures.
Context {N : Type} `{!JsNum N, !JsMath N}.
#[local] Open Scope js_scope.
Implicit Types (w : workflow N) (n : wnode N) (e : wedge N).

Definition LEGACY_COLUMN_CENTERS : list N := map nof [88; 220; 300; 430; 500; 625]%Z.

Definition GROUP_FRAME_TOP_INSET : N := nof 8.
Definition GROUP_FRAME_BOTTOM_INSET : N := nof 4.
Definition GROUP_NODE_INSET : N := nof 4.

Definition createLegacyLayout : wlayout N :=
  {| contract := "fixed-v1"; laneX := nof 40; laneY := nof 52; laneW := nof 640; laneH := nof 104;
     laneHeights := None; laneGap := nof 20; laneTitleH := nof 30; groupHeaderHeights := None;
     groupFooterHeights := None; colXs := LEGACY_COLUMN_CENTERS; nodeW := nof 92; nodeH := nof 52;
     defaultViewBoxWidth := nof 720; channelLabelEdgeKeys := []; widthContributors := [];
     heightContributors := [] |}.

(** ** Sizes *)
Definition authoredNodeWidth n : N :=
  match wn_width n with Some x => if nfin x then x else nof 92 | None => nof 92 end.
Definition nodeWidthContributor n : string :=
  cat ["node "; wn_id n; " width "; nshow (authoredNodeWidth n); "px"].
Definition authoredNodeHeight n : N :=
  let fallback := if nonempty (wn_tag n) then nof 68 else nof 52 in
  match wn_height n with Some x => if nfin x then x else fallback | None => fallback end.
Definition workflowLabelWidth (label : string) : N :=
  nmax (nof 30) (nof (textUnits label) * nlit 48 10 + nof 10).
(** The least widths of the frames of a phase and of a group. *)
Definition phase_label_width (label : string) : N := nof (textUnits label) * nlit 56 10 + nof 8.
Definition group_label_width (label : string) : N := nof (textUnits label) * nlit 56 10 + nof 20.
(** [Number(node?.yOffset) || 0] *)
Definition offset_of n : N := let y := default (nof 0) (wn_yOffset n) in if nan y then nof 0 else y.

Definition column_at (cols : list N) (col : Z) : N := default (nof 0) (cols !! Z.to_nat col).

(** [(column range of a phase or a group)] *)
Definition ordered_range (fromCol toCol count : Z) : bool :=
  ((0 <=? fromCol) && (fromCol <=? toCol) && (toCol <? count))%Z.

(** A node in the lane and the columns of a group. *)
Definition spans (g : group) n (count : Z) : bool :=
  bool_decide (wn_lane n = gr_lane g) &&
  negb ((wn_col n <? gr_fromCol g) || (gr_toCol g <? wn_col n) || (wn_col n <? 0) || (count <=? wn_col n))%Z.

Record bounds := { bd_x : N; bd_width : N; bd_cx : N }.

Definition widen (cols : list N) (lr : N * N) n : N * N :=
  let halfWidth := authoredNodeWidth n / nof 2 in
  (nmin lr.1 (column_at cols (wn_col n) - halfWidth - GROUP_NODE_INSET),
   nmax lr.2 (column_at cols (wn_col n) + halfWidth + GROUP_NODE_INSET)).

Definition readableGroupBounds w (g : group) (cols : list N) : bounds :=
  let count := Z.of_nat (length cols) in
  if negb (ordered_range (gr_fromCol g) (gr_toCol g) count) then
    {| bd_x := nof 0; bd_width := nof 0; bd_cx := nof 0 |}
  else
    let start := column_at cols (gr_fromCol g) - nof 50 in
    let end_ := column_at cols (gr_toCol g) + nof 50 in
    let naturalWidth := end_ - start in
    let width := nmax naturalWidth (group_label_width (gr_label g)) in
    let left_ := if (gr_fromCol g =? gr_toCol g)%Z && (width >? naturalWidth) then start
                else (start + end_ - width) / nof 2 in
    let '(left_, right_) := foldl (widen cols) (left_, left_ + width)
                              (filter (λ n, spans g n count = true) (wf_nodes w)) in
    let width := right_ - left_ in
    {| bd_x := left_; bd_width := width; bd_cx := left_ + width / nof 2 |}.

Definition verticalIntervalsOverlap (a b : wnode N) (clearance : N) : bool :=
  nabs (offset_of a - offset_of b) <?
  authoredNodeHeight a / nof 2 + authoredNodeHeight b / nof 2 + clearance.

(** ** Constraints *)
Definition columnCount : Z := 6.
Definition baselinePitch : N := nof 120.
Definition columnStart : N := nof 94.
Definition maxLayoutIterations : nat := 3.
Definition channelDetourBudgetPx : N := nof 4 * nof 28.

Definition baseline_constraints : list (constraint N) :=
  map (λ col, {| ct_from := col; ct_to := (col + 1)%Z; ct_minimum := baselinePitch; ct_contributors := [] |})
    (seqZ 0 (columnCount - 1)).

Definition rank_text (from to : Z) (what : string) : string :=
  cat ["rank "; pretty from; "→"; pretty to; " "; what].

(** [Object.entries(rankGapMinimums).sort()]: entries are compared as texts. *)
Definition entry_text (entry : (Z * Z) * N) : string :=
  cat [pretty entry.1.1; ":"; pretty entry.1.2; ","; nshow entry.2].
Definition rank_gap_constraints (feedback : layout_feedback N) : list (constraint N) :=
  map (λ entry : (Z * Z) * N, {| ct_from := entry.1.1; ct_to := entry.1.2; ct_minimum := entry.2;
    ct_contributors := match list_find (λ kc, kc.1 = entry.1) (rankGapContributors feedback) with
                       | Some (_, (_, contributors)) => contributors
                       | None => [rank_text entry.1.1 entry.1.2 "route clearance"]
                       end |})
    (merge_sort (λ a b, text_le (entry_text a) (entry_text b)) (rankGapMinimums feedback)).

Definition node_pair_constraint (lr : wnode N * wnode N) : option (constraint N) :=
  let '(leftNode, rightNode) := lr in
  if negb (bool_decide (wn_lane leftNode = wn_lane rightNode)) || (wn_col leftNode =? wn_col rightNode)%Z then None
  else if negb (verticalIntervalsOverlap leftNode rightNode (nof 8)) then None
  else
    let '(fromNode, toNode) := if (wn_col leftNode <? wn_col rightNode)%Z then (leftNode, rightNode)
                               else (rightNode, leftNode) in
    Some {| ct_from := wn_col fromNode; ct_to := wn_col toNode;
            ct_minimum := authoredNodeWidth fromNode / nof 2 + nof 8 + authoredNodeWidth toNode / nof 2;
            ct_contributors := [rank_text (wn_col fromNode) (wn_col toNode) "node width clearance";
                                nodeWidthContributor fromNode; nodeWidthContributor toNode] |}.

(** [new Map(nodes.map((node) => [node.id, node]))] *)
Definition nodesById w : gmap string (wnode N) := last_wins (map (λ n, (wn_id n, n)) (wf_nodes w)).

(** [edge.route || 'auto'] *)
Definition route_of e : string := if nonempty (we_route e) then text_or_empty (we_route e) else "auto".
(** [edge.label && !edge.labelAt] *)
Definition floating_label e : bool := nonempty (we_label e) && negb (bool_decide (is_Some (we_labelAt e))).
Definition label_text e : string := text_or_empty (we_label e).

(** What an edge asks: room for a direct segment, room for its label on it in
    the second round, or a channel above the nodes for its label. *)
Record edge_demand := {
  dm_direct : constraint N; dm_label : option (constraint N); dm_channel : option string
}.

Definition edge_ends w e : option (wnode N * wnode N) :=
  fromNode ← nodesById w !! we_from e;
  toNode ← nodesById w !! we_to e;
  if negb (bool_decide (wn_lane fromNode = wn_lane toNode)) || (wn_col fromNode =? wn_col toNode)%Z then None
  else Some (fromNode, toNode).

Definition directly_routed e : bool :=
  negb (bool_decide (is_Some (we_via e)) || bool_decide (is_Some (we_channelX e)) ||
        bool_decide (is_Some (we_channelY e)) ||
        negb (bool_decide (route_of e ∈ ["auto"; "straight"]))).

Definition can_use_label_channel e : bool :=
  floating_label e && bool_decide (route_of e = "auto") && negb (nonempty (we_fromSide e)) &&
  negb (nonempty (we_toSide e)) && negb (bool_decide (is_Some (we_channelX e))) &&
  negb (bool_decide (is_Some (we_channelY e))).

Definition demand_between e (earlier later : wnode N) : edge_demand :=
  let labeledDirectClearance :=
    if floating_label e then nmax (nof 28) (workflowLabelWidth (label_text e) + nof 8) else nof 28 in
  let directLabelExpansionCost := nmax (nof 0) (labeledDirectClearance - nof 28) in
  let preferLabelChannel := can_use_label_channel e && (directLabelExpansionCost >? channelDetourBudgetPx) in
  let from := wn_col earlier in
  let to := wn_col later in
  {| dm_direct := {| ct_from := from; ct_to := to;
       ct_minimum := authoredNodeWidth earlier / nof 2 + nof 28 + authoredNodeWidth later / nof 2;
       ct_contributors := [rank_text from to "direct clearance"; rank_text from to "node width clearance";
                           nodeWidthContributor earlier; nodeWidthContributor later] |};
     dm_label :=
       if negb preferLabelChannel && (labeledDirectClearance >? nof 28) then
         Some {| ct_from := from; ct_to := to;
                 ct_minimum := authoredNodeWidth earlier / nof 2 + labeledDirectClearance +
                               authoredNodeWidth later / nof 2;
                 ct_contributors := [rank_text from to "direct clearance";
                                     cat ["edge "; workflowEdgeName e; " label mask"];
                                     nodeWidthContributor earlier; nodeWidthContributor later] |}
       else None;
     dm_channel := if preferLabelChannel then Some (edge_key e) else None |}.

(** The body of the loop over the edges, when it is not left early. *)
Definition edge_demand_of w e : option edge_demand :=
  '(fromNode, toNode) ← edge_ends w e;
  if negb (directly_routed e) then None
  else if negb (nle (offset_of fromNode) (offset_of toNode) && nle (offset_of toNode) (offset_of fromNode)) then None
  else
    let '(earlier, later) := if (wn_col fromNode <? wn_col toNode)%Z then (fromNode, toNode) else (toNode, fromNode) in
    Some (demand_between e earlier later).

Definition span_contributor (kind id label : string) : string :=
  cat [kind; " "; if bool_decide (id = "") then label else id; " label span"].

(** The constraint of a phase or a group whose label needs [minimumWidth] and
    whose frame is [frame] wider than the distance of its columns. *)
Definition span_constraint (fromCol toCol : Z) (minimumWidth frame : N) (contributor : string)
    : option (constraint N) :=
  if negb (ordered_range fromCol toCol columnCount) then None
  else if (fromCol =? toCol)%Z then
    if (toCol <? columnCount - 1)%Z then
      Some {| ct_from := toCol; ct_to := (toCol + 1)%Z;
              ct_minimum := baselinePitch + nmax (nof 0) (minimumWidth - frame);
              ct_contributors := [contributor] |}
    else None
  else Some {| ct_from := fromCol; ct_to := toCol; ct_minimum := nmax (nof 0) (minimumWidth - frame);
               ct_contributors := [contributor] |}.

Definition phase_constraint (p : phase) : option (constraint N) :=
  span_constraint (ph_fromCol p) (ph_toCol p) (phase_label_width (ph_label p)) (nof 92)
    (span_contributor "phase" (ph_id p) (ph_label p)).
Definition group_constraint (g : group) : option (constraint N) :=
  span_constraint (gr_fromCol g) (gr_toCol g) (group_label_width (gr_label g)) (nof 100)
    (span_contributor "group" (gr_id g) (gr_label g)).

Definition edge_demands w : list edge_demand := omap (edge_demand_of w) (wf_edges w).

Definition layout_constraints w (feedback : layout_feedback N) : list (constraint N) :=
  baseline_constraints ++ rank_gap_constraints feedback ++
  omap node_pair_constraint (pairs (wf_nodes w)) ++ map dm_direct (edge_demands w) ++
  omap phase_constraint (asArray (wf_phases w)) ++ omap group_constraint (asArray (wf_groups w)).
Definition label_constraints w : list (constraint N) := omap dm_label (edge_demands w).
Definition channel_keys w : list string := add_all (omap dm_channel (edge_demands w)) [].
End Measures.
Arguments bounds : clear implicits.
Arguments edge_demand : clear implicits.

(** ** Columns *)
Section Columns.
Context {N : Type} `{!JsNum N, !JsMath N}.
#[local] Open Scope js_scope.
Implicit Types (w : workflow N) (n : wnode N) (e : wedge N) (c : constraint N) (p : placed N).

Definition baseline_column (col : Z) : N := columnStart + nof col * baselinePitch.
Definition initial_placed : placed N :=
  {| pl_cols := map baseline_column (seqZ 0 columnCount);
     pl_provenance := replicate (Z.to_nat columnCount) [] |}.

Definition valid_constraint c : bool :=
  ((0 <=? ct_from c) && (ct_from c <? ct_to c) && (ct_to c <? columnCount))%Z && nfin (ct_minimum c).

(** [a.to - b.to || a.from - b.from || a.minimum - b.minimum] at most zero. *)
Definition constraint_le (a b : constraint N) : bool :=
  (ct_to a <? ct_to b)%Z ||
  (ct_to a =? ct_to b)%Z && ((ct_from a <? ct_from b)%Z ||
    (ct_from a =? ct_from b)%Z && (ct_minimum a <=? ct_minimum b)).

Definition provenance_at p (col : Z) : list string := default [] (pl_provenance p !! Z.to_nat col).

(** The body of the loop over the constraints of a column. *)
Definition apply_constraint (to : Z) p c : placed N :=
  if negb (ct_to c =? to)%Z then p
  else
    let candidate := column_at (pl_cols p) (ct_from c) + ct_minimum c in
    let current := column_at (pl_cols p) to in
    let candidateProvenance := add_all (ct_contributors c) (provenance_at p (ct_from c)) in
    if candidate >? current + epsilon then
      {| pl_cols := <[Z.to_nat to := candidate]> (pl_cols p);
         pl_provenance := <[Z.to_nat to := candidateProvenance]> (pl_provenance p) |}
    else if (nabs (candidate - current) <=? epsilon) &&
            (candidate >? columnStart + nof to * baselinePitch + epsilon) then
      {| pl_cols := pl_cols p;
         pl_provenance := alter (add_all candidateProvenance) (Z.to_nat to) (pl_provenance p) |}
    else p.

Definition ordered_constraints (active : list (constraint N)) : list (constraint N) :=
  merge_sort (before constraint_le) (filter (λ c, valid_constraint c = true) active).

Definition solve_columns (active : list (constraint N)) : placed N :=
  let ordered := ordered_constraints active in
  foldl (λ p to, foldl (apply_constraint to) p ordered) initial_placed (seqZ 1 (columnCount - 1)).

(** The loop over the iterations: the constraints of labels join in the second. *)
Fixpoint layout_rounds (fuel iteration : nat) (active feedback : list (constraint N)) p : placed N :=
  match fuel with
  | O => p
  | S fuel =>
      let p := solve_columns active in
      if (0 <? iteration)%nat || bool_decide (length feedback = 0)%nat then p
      else layout_rounds fuel (S iteration) (active ++ feedback) feedback p
  end.

(** ** Shifts *)
Definition shift_columns (by_ : N) p : placed N :=
  {| pl_cols := map (λ x, x + by_) (pl_cols p); pl_provenance := pl_provenance p |}.
Definition contribute (contributors : list string) p : placed N :=
  {| pl_cols := pl_cols p; pl_provenance := map (add_all contributors) (pl_provenance p) |}.

(** A number that is not zero. *)
Definition truthy_number (x : N) : bool := negb (nan x) && negb ((x <=? nof 0) && (nof 0 <=? x)).

Definition firstRankNodes w : list (wnode N) := filter (λ n, wn_col n = 0%Z) (wf_nodes w).
Definition firstExtent w : N :=
  foldl (λ maximum n, nmax maximum (authoredNodeWidth n / nof 2)) (nof 46) (firstRankNodes w).

(** The first column moves until its widest node is 8 pixels inside the lanes. *)
Definition shift_first_rank w p : placed N :=
  let leftShift := nmax (nof 0) (nof 40 + nof 8 + firstExtent w - column_at (pl_cols p) 0) in
  if negb (truthy_number leftShift) then p
  else contribute (map nodeWidthContributor
         (filter (λ n, nabs (authoredNodeWidth n / nof 2 - firstExtent w) >? epsilon = false) (firstRankNodes w)))
       (shift_columns leftShift p).

(** [String(n).padStart(2, '0')] *)
Definition padded (n : nat) : string :=
  let s := pretty n in if (String.length s <? 2)%nat then "0" +:+ s else s.
Definition is_exception (l : lane) : bool := bool_decide (ln_variant l = Some "exception").
Definition lane_prefix (l : lane) (position : nat) : string :=
  if is_exception l then "EX" else padded (S position).

Definition unpinnedTopEndpointIds w : list string :=
  foldl (λ ids e,
    if bool_decide (is_Some (we_via e)) || bool_decide (is_Some (we_channelX e)) then ids
    else
      let ids := if bool_decide (we_fromSide e = Some "top") then text_set_add (we_from e) ids else ids in
      if bool_decide (we_toSide e = Some "top") then text_set_add (we_to e) ids else ids) [] (wf_edges w).

(** The right end of a lane's header, two pixels further. *)
Definition header_clearance w (l : lane) (position : nat) : N :=
  nof 40 + nof 14 + nof (textUnits (cat [lane_prefix l position; " / "; ln_label l])) * nlit 62 10 + nof 2.

Definition header_step w (cols : list N) (st : N * list string) (nodeId : string) : N * list string :=
  default st (
    n ← nodesById w !! nodeId;
    if negb ((0 <=? wn_col n) && (wn_col n <? columnCount))%Z then None
    else
      position ← laneOrder (wf_lanes w) !! wn_lane n;
      l ← wf_lanes w !! Z.to_nat position;
      let contributor := cat ["lane "; ln_id l; " label width"] in
      let requiredShift := header_clearance w l (Z.to_nat position) - column_at cols (wn_col n) in
      if requiredShift >? st.1 + epsilon then Some (requiredShift, [contributor])
      else if (requiredShift >? nof 0) && (nabs (requiredShift - st.1) <=? epsilon)
      then Some (st.1, text_set_add contributor st.2)
      else None).

(** A top port moves clear of the header of its lane. *)
Definition shift_lane_headers w p : placed N :=
  let '(laneHeaderShift, contributors) :=
    foldl (header_step w (pl_cols p)) (nof 0, []) (unpinnedTopEndpointIds w) in
  if laneHeaderShift >? nof 0 then contribute contributors (shift_columns laneHeaderShift p) else p.

Definition phase_left (cols : list N) (ph : phase) : N :=
  let from := column_at cols (ph_fromCol ph) in
  let to := column_at cols (ph_toCol ph) in
  let width := nmax (to - from + nof 92) (phase_label_width (ph_label ph)) in
  if (ph_fromCol ph =? ph_toCol ph)%Z then from - nof 46 else (from + to - width) / nof 2.

Definition channel_label_shift w (keys : list string) (cols : list N) (maximum : N) e : N :=
  if negb (bool_decide (edge_key e ∈ keys)) then maximum
  else match nodesById w !! we_from e, nodesById w !! we_to e with
  | Some fromNode, Some toNode =>
      let labelCenter := (column_at cols (wn_col fromNode) + column_at cols (wn_col toNode)) / nof 2 in
      let labelLeft := labelCenter - workflowLabelWidth (label_text e) / nof 2 in
      nmax maximum (nof 16 - labelLeft)
  | _, _ => maximum
  end.

(** How far labels, phases and groups stick out on the left. *)
Definition measuredContentLeftShift w (keys : list string) (cols : list N) : N :=
  let labels := foldl (channel_label_shift w keys cols) (nof 0) (wf_edges w) in
  let phases := foldl (λ m ph, nmax m (nof 16 - phase_left cols ph)) labels (asArray (wf_phases w)) in
  foldl (λ m g, nmax m (nof 44 - bd_x (readableGroupBounds w g cols))) phases (asArray (wf_groups w)).

Definition shift_content w (keys : list string) p : placed N :=
  let by_ := measuredContentLeftShift w keys (pl_cols p) in
  if by_ >? nof 0 then shift_columns by_ p else p.

(** The columns of the layout. *)
Definition placed_columns w (feedback : layout_feedback N) : placed N :=
  shift_content w (channel_keys w)
    (shift_lane_headers w
      (shift_first_rank w
        (layout_rounds maxLayoutIterations 0 (layout_constraints w feedback) (label_constraints w) initial_placed))).
End Columns.

(** ** Lanes *)
Section Lanes.
Context {N : Type} `{!JsNum N, !JsMath N}.
#[local] Open Scope js_scope.
Implicit Types (w : workflow N) (n : wnode N) (p : placed N).

(** The larger of two extents, with what contributes to it. *)
Definition extend_extent (st : N * list string) (extent : N) (contributors : list string) : N * list string :=
  if extent >? st.1 + epsilon then (extent, contributors)
  else if nabs (extent - st.1) <=? epsilon then (st.1, add_all contributors st.2)
  else st.

Definition rightmost_node p (st : N * list string) n : N * list string :=
  if negb ((0 <=? wn_col n) && (wn_col n <? columnCount))%Z then st
  else extend_extent st (column_at (pl_cols p) (wn_col n) + authoredNodeWidth n / nof 2)
         (add_all [nodeWidthContributor n] (provenance_at p (wn_col n))).

(** (Here a node of the lane counts between the columns of the group only.) *)
Definition rightmost_group w p (st : N * list string) (g : group) : N * list string :=
  let bounds := readableGroupBounds w g (pl_cols p) in
  let inside := filter (λ n, wn_lane n = gr_lane g ∧ gr_fromCol g ≤ wn_col n ≤ gr_toCol g) (wf_nodes w) in
  extend_extent st (bd_x bounds + bd_width bounds)
    (add_all (provenance_at p (gr_toCol g) ++ [span_contributor "group" (gr_id g) (gr_label g)] ++
              map nodeWidthContributor inside) (provenance_at p (gr_fromCol g))).

Definition rightmost w p : N * list string :=
  let last := (column_at (pl_cols p) (columnCount - 1) + nof 50, provenance_at p (columnCount - 1)) in
  foldl (rightmost_group w p) (foldl (rightmost_node p) last (wf_nodes w)) (asArray (wf_groups w)).

(** [lane.id || lane.label] *)
Definition lane_text (l : lane) : string := if bool_decide (ln_id l = "") then ln_label l else ln_id l.

(** The lane with the widest label, the first of them. *)
Definition widestLaneLabel w : N * option lane :=
  foldl (λ widest width_lane, if width_lane.1 >? widest.1 then width_lane else widest) (nof 0, None)
    (imap (λ i l, (nof (textUnits (cat [padded (S i); " / "; ln_label l])) * nlit 62 10 + nof 30, Some l))
       (wf_lanes w)).

Definition rightmostLaneWidth w p : N := math_ceil ((rightmost w p).1 - nof 40 + nof 8).
Definition lane_width w p : N :=
  nmax (nmax (nof 640) (rightmostLaneWidth w p)) (math_ceil (widestLaneLabel w).1).

Definition same_number (a b : N) : bool := (a <=? b) && (b <=? a).

Definition width_contributors w p : list string :=
  if negb (lane_width w p >? nof 640) then []
  else
    add_all
      match (widestLaneLabel w).2 with
      | Some l => if same_number (math_ceil (widestLaneLabel w).1) (lane_width w p)
                  then [cat ["lane "; lane_text l; " label width"]]
                  else []
      | None => []
      end
      (if same_number (rightmostLaneWidth w p) (lane_width w p) then add_all (rightmost w p).2 [] else []).

(** ** Heights *)
Definition vertical_contributor n : string :=
  let yOffset := offset_of n in
  cat ["node "; wn_id n; " height "; nshow (authoredNodeHeight n); "px";
       if truthy_number yOffset then cat [" with yOffset "; nshow yOffset; "px"] else ""].
Definition vertical_extent n : N := authoredNodeHeight n / nof 2 + nabs (offset_of n).
Definition maxVerticalExtent w : N * list string :=
  foldl (λ st n, extend_extent st (vertical_extent n) [vertical_contributor n]) (nof 0, []) (wf_nodes w).

Definition baseContentH w : N := nmax (nof 74) (math_ceil ((maxVerticalExtent w).1 * nof 2 + nof 8)).
Definition lane_height w : N := nof 30 + baseContentH w.

(** The room a node asks above and below the frame of its group. *)
Definition reserve_for w (g : group) (cols : list N) (bounds : bounds N) (reserve : N * N) n : N * N :=
  let labelLeft := bd_x bounds + nof 10 in
  let labelRight := labelLeft + nof (textUnits (gr_label g)) * nlit 56 10 in
  let halfWidth := authoredNodeWidth n / nof 2 in
  let nodeLeft := column_at cols (wn_col n) - halfWidth in
  let nodeRight := column_at cols (wn_col n) + halfWidth in
  let overlapsLabel := (nodeRight >? labelLeft) && (nodeLeft <? labelRight) in
  let topOffset := (baseContentH w - authoredNodeHeight n) / nof 2 + offset_of n in
  let minimumTopOffset := if overlapsLabel then nof 11 else nof 9 in
  let bottomMargin := baseContentH w - GROUP_FRAME_BOTTOM_INSET - topOffset - authoredNodeHeight n in
  (nmax reserve.1 (math_ceil (minimumTopOffset - topOffset)), nmax reserve.2 (math_ceil (nof 1 - bottomMargin))).

Definition reserve_of_group w (cols : list N) (reserve : N * N) (g : group) : N * N :=
  foldl (reserve_for w g cols (readableGroupBounds w g cols)) reserve
    (filter (λ n, spans g n (Z.of_nat (length cols)) = true) (wf_nodes w)).

(** [groupLaneReserves]: header and footer of a lane. *)
Definition lane_reserve w (cols : list N) (l : lane) : N * N :=
  let '(header, footer) := foldl (reserve_of_group w cols) (nof 0, nof 0)
    (filter (λ g, gr_lane g = ln_id l) (asArray (wf_groups w))) in
  (nmax (nof 0) header, nmax (nof 0) footer).

Definition reserve_contributors w (what : string) (reserves : list N) : list string :=
  omap (λ lr : lane * N, if truthy_number lr.2
                         then Some (cat ["lane "; lane_text lr.1; " "; what; " "; nshow lr.2; "px"]) else None)
    (zip (wf_lanes w) reserves).

Definition lane_gap (feedback : layout_feedback N) : N :=
  let minimum := match laneGapMin feedback with
                 | Some x => if truthy_number x then x else nof 0
                 | None => nof 0
                 end in
  nmax (nof 20) (math_ceil minimum).

Definition height_contributors w (feedback : layout_feedback N) (headers footers : list N) : list string :=
  add_all
    ((if lane_height w >? nof 104 then (maxVerticalExtent w).2 else []) ++
     (if lane_gap feedback >? nof 20 then laneGapContributors feedback else []))
    (add_all (reserve_contributors w "group frame containment" footers)
      (add_all (reserve_contributors w "group label clearance" headers) [])).

Definition createReadableLayout w (feedback : layout_feedback N) : wlayout N :=
  let p := placed_columns w feedback in
  let reserves := map (lane_reserve w (pl_cols p)) (wf_lanes w) in
  {| contract := "readable-v2"; laneX := nof 40; laneY := nof 52; laneW := lane_width w p;
     laneH := lane_height w;
     laneHeights := Some (map (λ r, lane_height w + r.1 + r.2) reserves);
     laneGap := lane_gap feedback; laneTitleH := nof 30;
     groupHeaderHeights := Some (map fst reserves); groupFooterHeights := Some (map snd reserves);
     colXs := pl_cols p; nodeW := nof 92; nodeH := nof 52;
     defaultViewBoxWidth := nof 40 + lane_width w p + nof 16;
     channelLabelEdgeKeys := channel_keys w;
     widthContributors := sorted_keys (width_contributors w p);
     heightContributors := sorted_keys (height_contributors w feedback (map fst reserves) (map snd reserves)) |}.
End Lanes.
