(* ===== verification/LaneGeometry.v ===== *)
(** * Lanes, nodes and frames of a laid out workflow
      ([src/.agents/skills/archify/renderers/workflow/workflow-compiler.mjs], [compileWorkflowInternal])

    From a layout to coordinates: the rectangles of lanes, nodes, phases and
    groups, and the labels routes keep away from.  [None] stands for coordinates
    that are not numbers, those of a node in a lane that does not exist. *)

From Stdlib Require Import QArith.
From stdpp Require Import pretty gmap.
From S2P Require Import Prelude Num JsValue Geometry Routes Analyses Ports Checks TextFit Workflow SemanticContract ReadableLayout.
#[local] Open Scope Z_scope.

Section LaneGeometry.
Context {N : Type} `{!JsNum N, !JsMath N}.
Context (w : workflow N) (layout : wlayout N).
#[local] Open Scope js_scope.

Definition laneIndex (id : string) : option nat := Z.to_nat <$> laneOrder (wf_lanes w) !! id.

(** [layout.laneHeights?.[index] ?? layout.laneH] and the like. *)
Definition at_index (values : option (list N)) (index : nat) (fallback : N) : N :=
  default fallback (l ← values; l !! index).
Definition laneHeight_at (index : nat) : N := at_index (laneHeights layout) index (laneH layout).
Definition laneGroupHeaderH_at (index : nat) : N := at_index (groupHeaderHeights layout) index (nof 0).
Definition laneGroupFooterH_at (index : nat) : N := at_index (groupFooterHeights layout) index (nof 0).

(** With an identifier, whose lane may not exist. *)
Definition laneHeight (id : string) : N := default (laneH layout) (laneHeight_at <$> laneIndex id).
Definition laneGroupHeaderH (id : string) : N := default (nof 0) (laneGroupHeaderH_at <$> laneIndex id).
Definition laneGroupFooterH (id : string) : N := default (nof 0) (laneGroupFooterH_at <$> laneIndex id).

(** The sum of the heights of the first lanes. *)
Definition heights_before (count : nat) : N :=
  foldl (λ total position, total + laneHeight_at position) (nof 0) (seq 0 count).
Definition laneTop_at (index : nat) : N :=
  laneY layout + heights_before index + nof (Z.of_nat index) * laneGap layout.
Definition laneTop (id : string) : option N := laneTop_at <$> laneIndex id.

Definition lastLaneBottom : N :=
  laneY layout + heights_before (length (wf_lanes w)) + (nof (Z.of_nat (length (wf_lanes w))) - nof 1) * laneGap layout.

(** [a || b] of numbers *)
Definition number_or (a : option N) (b : N) : N :=
  match a with Some x => if truthy_number x then x else b | None => b end.

Definition measureNode (n : wnode N) : option (box N) :=
  top ← laneTop (wn_lane n);
  let width := number_or (wn_width n) (nodeW layout) in
  let height := number_or (wn_height n) (if nonempty (wn_tag n) then nof 68 else nodeH layout) in
  let cx := column_at (colXs layout) (wn_col n) in
  let groupHeaderH := laneGroupHeaderH (wn_lane n) in
  let contentH := laneHeight (wn_lane n) - laneTitleH layout - groupHeaderH - laneGroupFooterH (wn_lane n) in
  let y := top + laneTitleH layout + groupHeaderH + (contentH - height) / nof 2 +
           number_or (wn_yOffset n) (nof 0) in
  Some {| bx_id := wn_id n;
          bx_rect := {| x_ := cx - width / nof 2; y_ := y; width := width; height := height |};
          cx := cx; cy := y + height / nof 2 |}.

(** ** Spans of columns *)
Definition spanForCols (fromCol toCol : Z) (pad minimumWidth : N) : bounds N :=
  let start := column_at (colXs layout) fromCol - pad in
  let end_ := column_at (colXs layout) toCol + pad in
  let width := nmax (end_ - start) minimumWidth in
  if (fromCol =? toCol)%Z && (width >? end_ - start) then
    {| bd_x := start; bd_width := width; bd_cx := start + width / nof 2 |}
  else
    let cx := (start + end_) / nof 2 in
    {| bd_x := cx - width / nof 2; bd_width := width; bd_cx := cx |}.

Definition readable : bool := (schema_version w =? 2)%Z.

Definition phaseSpan (p : phase) : bounds N :=
  spanForCols (ph_fromCol p) (ph_toCol p) (nof 46) (if readable then phase_label_width (ph_label p) else nof 0).
Definition groupSpan (g : group) : bounds N :=
  if readable then readableGroupBounds w g (colXs layout)
  else spanForCols (gr_fromCol g) (gr_toCol g) (nof 50) (nof 0).

Definition gapYBetween (fromLane toLane : string) (bias : N) : option N :=
  top ← laneTop fromLane;
  b ← laneTop toLane;
  let a := top + laneHeight fromLane in
  Some (a + (b - a) * bias).

(** ** Frames *)
Record wframe := {
  fm_id : string; fm_label : string; fm_kind : string; fm_x : N; fm_y : option N; fm_width : N; fm_height : N;
  fm_radius : N
}.

Definition lane_frames (index : nat) (l : lane) : list wframe :=
  let y := laneTop (ln_id l) in
  let height := laneHeight_at index in
  {| fm_id := cat ["lane-"; pretty index]; fm_label := ln_label l; fm_kind := "lane"; fm_x := laneX layout;
     fm_y := y; fm_width := laneW layout; fm_height := height; fm_radius := nof 10 |} ::
  (if is_exception l then
     [{| fm_id := cat ["lane-"; pretty index; "-exception"]; fm_label := cat [ln_label l; " exception"];
         fm_kind := "exception-lane"; fm_x := laneX layout + nof 6; fm_y := (λ y, y + nof 6) <$> y;
         fm_width := laneW layout - nof 12; fm_height := height - nof 12; fm_radius := nof 8 |}]
   else []).

(** The frame of a group starts below the title of its lane. *)
Definition group_frame_y (g : group) : option N :=
  (λ top, top + laneTitleH layout + GROUP_FRAME_TOP_INSET) <$> laneTop (gr_lane g).
Definition group_frame_height (g : group) : N :=
  if readable then laneHeight (gr_lane g) - laneTitleH layout - GROUP_FRAME_TOP_INSET - GROUP_FRAME_BOTTOM_INSET
  else laneH layout - laneTitleH layout - nof 16.

Definition group_frame (index : nat) (g : group) : wframe :=
  let span := groupSpan g in
  {| fm_id := cat ["group-"; pretty index]; fm_label := gr_label g; fm_kind := "group"; fm_x := bd_x span;
     fm_y := group_frame_y g; fm_width := bd_width span; fm_height := group_frame_height g; fm_radius := nof 9 |}.

Definition workflowCompositionFrames : list wframe :=
  concat (imap lane_frames (wf_lanes w)) ++ imap group_frame (asArray (wf_groups w)).

(** ** Labels of the scene *)
Definition GROUP_LABEL_BASELINE_OFFSET : N := nof 0 - nof 2.
Definition GROUP_LABEL_MASK_ASCENT : N := nof 10.
Definition GROUP_LABEL_MASK_H : N := nof 14.

Record scene_label := {
  sl_kind : string; sl_id : string; sl_x : N; sl_y : option N; sl_width : N; sl_height : N
}.

Definition lane_header (index : nat) (l : lane) : scene_label :=
  {| sl_kind := "lane-header"; sl_id := ln_id l; sl_x := laneX layout + nof 14;
     sl_y := (λ top, top + nof 12) <$> laneTop (ln_id l);
     sl_width := nof (textUnits (cat [lane_prefix l index; " / "; ln_label l])) * nlit 62 10;
     sl_height := nof 14 |}.
Definition phase_header (p : phase) : option scene_label :=
  if negb (ordered_range (ph_fromCol p) (ph_toCol p) (Z.of_nat (length (colXs layout)))) then None
  else
    let span := phaseSpan p in
    Some {| sl_kind := "phase-header"; sl_id := ph_id p; sl_x := bd_x span; sl_y := Some (nof 27);
            sl_width := bd_width span; sl_height := nof 16 |}.
Definition group_label (g : group) : option scene_label :=
  if negb (bool_decide (is_Some (laneIndex (gr_lane g)))) ||
     negb (ordered_range (gr_fromCol g) (gr_toCol g) (Z.of_nat (length (colXs layout)))) then None
  else
    Some {| sl_kind := "group-label"; sl_id := gr_id g; sl_x := bd_x (groupSpan g) + nof 10;
            sl_y := (λ frameY, frameY + GROUP_LABEL_BASELINE_OFFSET - GROUP_LABEL_MASK_ASCENT) <$> group_frame_y g;
            sl_width := nof (textUnits (gr_label g)) * nlit 56 10; sl_height := GROUP_LABEL_MASK_H |}.

Definition workflowSceneLabelObstacles : list scene_label :=
  imap lane_header (wf_lanes w) ++ omap phase_header (asArray (wf_phases w)) ++
  omap group_label (asArray (wf_groups w)).
End LaneGeometry.
Arguments wframe : clear implicits.
Arguments scene_label : clear implicits.
