(* ===== verification/WorkflowCanvas.v ===== *)
(** * The canvas and the legend of a workflow
      ([src/.agents/skills/archify/renderers/workflow/workflow-compiler.mjs], [compileWorkflowInternal])

    The legend a workflow shows, the least canvas of a layout, and where the
    legend stands.  Labels are those of the default locale: texts of other
    scripts are outside the texts of the development. *)

From Stdlib Require Import QArith Lqa.
From stdpp Require Import sorting pretty.
From S2P Require Import Prelude Num JsValue Geometry Routes Analyses Ports Checks TextFit Legend Workflow SemanticContract ReadableLayout LaneGeometry.
#[local] Open Scope Z_scope.

(** What a document says of its canvas in [meta]. *)
Record wmeta (N : Type) := {
  mt_legend : option legend_config; mt_viewBox : option (N * N); mt_qualityProfile : option string
}.
Arguments mt_legend {N} _.
Arguments mt_viewBox {N} _.
Arguments mt_qualityProfile {N} _.

(** [i18nText(locale, `legend.workflow.${kind}`)] *)
Definition legend_text (kind : string) : string :=
  default "" (kv ← list_find (λ kv : string * string, kv.1 = kind)
    [("frontend", "User UI"); ("backend", "Agent logic"); ("security", "Policy"); ("messagebus", "Tool action");
     ("database", "Context / trace"); ("cloud", "Cloud service"); ("external", "External system")]; Some kv.2.2).

Section Canvas.
Context {N : Type} `{!JsNum N, !JsMath N}.
Context (w : workflow N) (meta : wmeta N) (layout : wlayout N).
#[local] Open Scope js_scope.

Definition LEGEND_CATALOG : list (legend_kind N) :=
  map (λ kind, {| lk_kind := kind; lk_label := legend_text kind; lk_swatchWidth := None; lk_swatchGap := None;
                  lk_interactive := None |})
    ["frontend"; "backend"; "security"; "messagebus"; "database"; "cloud"; "external"].
Definition presentLegendKinds : list string := id_set (map wn_type (wf_nodes w)).
Definition workflowLegendEntries : list (legend_entry N) :=
  resolveLegend (mt_legend meta) LEGEND_CATALOG presentLegendKinds.

(** The footprint at a width, with the sizes of workflow legends. *)
Definition workflow_footprint (width : N) : legend_footprint N :=
  legendFootprint workflowLegendEntries width (nof 7) (nof 7) DEFAULT_LINE_GAP DEFAULT_SWATCH_GAP.
Definition oneRowLegendFootprint : legend_footprint N := workflow_footprint (nof MAX_SAFE_INTEGER).

Definition minimumCanvasWidth : N :=
  if readable w then nmax (defaultViewBoxWidth layout) (fp_minWidth oneRowLegendFootprint + nof 40)
  else defaultViewBoxWidth layout.
Definition legendPackingWidth : N :=
  nmax (nof 1)
    ((if readable w then minimumCanvasWidth else default minimumCanvasWidth (fst <$> mt_viewBox meta)) - nof 40).
Definition packedLegendFootprint : legend_footprint N := workflow_footprint legendPackingWidth.
Definition legendExtraHeight : N := if readable w then fp_extraHeight packedLegendFootprint else nof 0.

(** [workflow.lanes?.length || 1] *)
Definition lane_count : N := nof (Z.max 1 (Z.of_nat (length (wf_lanes w)))).
Definition autoHeight : N :=
  laneY layout +
  match laneHeights layout with
  | Some heights => foldl (λ total height, total + height) (nof 0) heights
  | None => lane_count * laneH layout
  end + (lane_count - nof 1) * laneGap layout + nof 124 + legendExtraHeight.
Definition initial_viewBox : N * N := default (minimumCanvasWidth, autoHeight) (mt_viewBox meta).

Definition legendY : N := lastLaneBottom w layout + nof 44 + legendExtraHeight.
Definition workflowLegendLayout (viewBoxWidth : N) (obstacles : list (legend_obstacle N)) : legend_options N :=
  {| lo_x := nof 20; lo_baselineY := legendY;
     lo_width := if readable w then legendPackingWidth else viewBoxWidth - nof 40;
     lo_fontSize := nof 7; lo_itemGap := nof 7; lo_lineGap := DEFAULT_LINE_GAP; lo_swatchGap := DEFAULT_SWATCH_GAP;
     lo_minTitleY := lastLaneBottom w layout + nof 8; lo_obstacles := obstacles;
     lo_hide := bool_decide (mt_legend meta = None); lo_diagramType := "workflow" |}.

(** The rectangles of a legend that is drawn. *)
Definition rects_of_legend (l : legend_layout N) (titleY : N) : list (string * rect N) :=
  ("title", {| x_ := nof 20; y_ := titleY - nof 10; width := nof 48; height := nof 14 |}) ::
  map (λ p, (le_kind (me_entry (pe_entry p)), entry_rect p)) (ll_entries l).
Definition workflowLegendRects (viewBoxWidth : N) : list (string * rect N) :=
  match workflowLegendEntries with
  | [] => []
  | _ =>
      match measureLegend workflowLegendEntries (workflowLegendLayout viewBoxWidth []) with
      | Drawn l => match ll_titleY l with Some titleY => rects_of_legend l titleY | None => [] end
      | _ => []
      end
  end.

(** [nodeContext]: the lane, the group and the phase of a node. *)
Definition nodeContext (n : wnode N) : string :=
  let laneLabel := last_wins (map (λ l, (ln_id l, ln_label l)) (wf_lanes w)) !! wn_lane n in
  let group := list_find (λ g, gr_lane g = wn_lane n ∧ gr_fromCol g ≤ wn_col n ≤ gr_toCol g) (asArray (wf_groups w)) in
  let phase := list_find (λ p, ph_fromCol p ≤ wn_col n ≤ ph_toCol p) (asArray (wf_phases w)) in
  let parts := filter (λ s, s ≠ "") (omap id [laneLabel; (λ g, gr_label g.2) <$> group; (λ p, ph_label p.2) <$> phase]) in
  let text := join " › " parts in
  if bool_decide (text = "") then "Workflow node" else text.
End Canvas.

(** * The legend fits its canvas *)
Section Fits.
#[local] Open Scope Q_scope.
Context (w : workflow Q) (meta : wmeta Q) (feedback : layout_feedback Q).
#[local] Abbreviation layout := (createReadableLayout w feedback).

Lemma lane_width_at_least p : 640 <= lane_width w p.
Proof using.
  unfold lane_width. destruct (Q_nmax_cases (nof 640) (rightmostLaneWidth w p)) as [[? E]|[? E]]; rewrite E;
    (match goal with |- _ <= nmax ?a ?b => destruct (Q_nmax_cases a b) as [[? ->]|[? ->]] end);
    q_ops; change (inject_Z 640) with 640 in *; lra.
Qed.

Lemma fold_lane_heights (heights : list Q) (start : Q) :
  foldl (λ total h, total + h)%js start heights =
  foldl (λ total position, total + default (laneH layout) (heights !! position))%js start (seq 0 (length heights)).
Proof using.
  revert start. induction heights as [|h heights IH] using rev_ind; intros start; [done|].
  rewrite foldl_app, length_app, seq_app, foldl_app. cbn [foldl length seq]. rewrite Nat.add_0_l.
  rewrite list_lookup_middle by done. cbn. f_equal. rewrite IH.
  assert (Hext : ∀ l a, (∀ i, i ∈ l → (i < length heights)%nat) →
    foldl (λ total position, total + default (laneH layout) (heights !! position))%js a l =
    foldl (λ total position, total + default (laneH layout) ((heights ++ [h]) !! position))%js a l).
  { induction l as [|i l IHl]; intros a Hl; [done|]. cbn [foldl].
    rewrite (lookup_app_l heights) by (apply Hl; by left). apply IHl. intros j Hj. apply Hl. by right. }
  apply Hext. intros i Hi%elem_of_seq. lia.
Qed.

Lemma autoHeight_Q : schema_version w = 2%Z → wf_lanes w ≠ [] →
  autoHeight w meta layout == lastLaneBottom w layout + 124 + legendExtraHeight w meta layout.
Proof using.
  intros Hv Hl. unfold autoHeight, lastLaneBottom, lane_count.
  replace (Z.max 1 (Z.of_nat (length (wf_lanes w)))) with (Z.of_nat (length (wf_lanes w)))
    by (destruct (wf_lanes w); [done|cbn [length]; lia]).
  assert (Hh : ∃ heights, laneHeights layout = Some heights ∧ length heights = length (wf_lanes w)).
  { eexists. split; [reflexivity|]. by rewrite !length_map. }
  destruct Hh as (heights&Eh&Hlen). unfold heights_before, laneHeight_at, at_index. rewrite Eh.
  rewrite fold_lane_heights, Hlen. cbn [option_bind mbind option_ret]. q_ops. change (inject_Z 124) with 124. lra.
Qed.

Lemma legendExtraHeight_nonneg : 0 <= legendExtraHeight w meta layout.
Proof using.
  unfold legendExtraHeight. destruct (readable w); [|unfold Qle; cbn; lia].
  unfold packedLegendFootprint, workflow_footprint, legendFootprint. destruct (map _ _); [unfold Qle; cbn; lia|].
  cbn [fp_extraHeight]. unfold pack. rewrite length_app. cbn [length]. q_ops.
  set (k := length _). assert (1 <= inject_Z (Z.of_nat (k + 1))) by (change 1 with (inject_Z 1); apply inject_Z_le; lia).
  change (@DEFAULT_LINE_GAP Q _) with 22. nra.
Qed.

(** The sizes of the legend of a workflow are not negative. *)
Lemma workflow_legend_sensible viewBoxWidth obstacles :
  sensible (workflowLegendEntries w meta) (workflowLegendLayout w meta layout viewBoxWidth obstacles).
Proof using.
  split; try (unfold Qle; cbn; lia). rewrite Forall_forall. intros e He. unfold workflowLegendEntries, resolveLegend in He.
  case_bool_decide; [by apply elem_of_nil in He|]. apply list_elem_of_omap in He as (k&Hk&Hres).
  unfold resolve_entry in Hres. destruct (negb _); [done|]. injection Hres as <-. cbn.
  unfold LEGEND_CATALOG in Hk. apply list_elem_of_fmap in Hk as (kind&->&_). cbn. by split; intros y ?.
Qed.

Section Readable.
Context (Hv : schema_version w = 2%Z).

Lemma canvas_room : 696 <= minimumCanvasWidth w meta layout ∧
  fp_minWidth (oneRowLegendFootprint w meta) <= minimumCanvasWidth w meta layout - 40.
Proof using Hv.
  assert (Hcanvas : 696 <= defaultViewBoxWidth layout).
  { change (696 <= (nof 40 + lane_width w (placed_columns w feedback) + nof 16)%js). q_ops.
    pose proof (lane_width_at_least (placed_columns w feedback)). change (inject_Z 40) with 40. change (inject_Z 16) with 16. lra. }
  unfold minimumCanvasWidth, readable. rewrite Hv. cbn [Z.eqb Pos.eqb].
  match goal with |- context [nmax ?a ?b] => destruct (Q_nmax_cases a b) as [[? ->]|[? ->]] end;
    q_ops; change (inject_Z 40) with 40 in *; split; lra.
Qed.

Lemma packing_width : legendPackingWidth w meta layout == minimumCanvasWidth w meta layout - 40.
Proof using Hv.
  pose proof canvas_room as [Hmin _]. unfold legendPackingWidth, readable at 1. rewrite Hv. cbn [Z.eqb Pos.eqb].
  destruct (Q_nmax_cases (nof 1) (minimumCanvasWidth w meta layout - nof 40)%js) as [[? ->]|[? _]];
    q_ops; change (inject_Z 40) with 40 in *; lra.
Qed.

Lemma workflow_legend_options viewBoxWidth obstacles :
  let o := workflowLegendLayout w meta layout viewBoxWidth obstacles in
  lo_width o = legendPackingWidth w meta layout ∧
  footprint_of (workflowLegendEntries w meta) o = packedLegendFootprint w meta layout ∧
  legendExtraHeight w meta layout = fp_extraHeight (packedLegendFootprint w meta layout).
Proof using Hv.
  assert (Hr : readable w = true) by (unfold readable; by rewrite Hv).
  cbv zeta. unfold footprint_of, packedLegendFootprint, workflow_footprint, legendExtraHeight, workflowLegendLayout.
  cbn [lo_width lo_fontSize lo_itemGap lo_lineGap lo_swatchGap]. by rewrite Hr.
Qed.

(** Without obstacles the legend is drawn. *)
Lemma legend_without_obstacles viewBoxWidth : workflowLegendEntries w meta ≠ [] → ∃ l,
  measureLegend (workflowLegendEntries w meta) (workflowLegendLayout w meta layout viewBoxWidth []) = Drawn l ∧
  ll_titleY l = Some (legendY w meta layout - legendExtraHeight w meta layout - nof 20)%js.
Proof using Hv.
  intros Hne. destruct (workflow_legend_options viewBoxWidth []) as (Hw&Hfp&Hextra).
  set (o := workflowLegendLayout _ _ _ _ _) in *.
  destruct (measureLegend_free (workflowLegendEntries w meta) o Hne eq_refl) as (l&Hdraw&_&Htitle).
  - rewrite Hfp. eapply Forall_impl; [apply footprint_minWidth|]. cbv beta. intros e He. rewrite Hw, packing_width.
    eapply Qle_trans; [exact He|].
    assert (Hsame : ∀ W, fp_minWidth (workflow_footprint w meta W) = fp_minWidth (oneRowLegendFootprint w meta)).
    { intros W. unfold oneRowLegendFootprint, workflow_footprint, legendFootprint. by destruct (map _ _). }
    fold (workflow_footprint w meta (legendPackingWidth w meta layout)). rewrite Hsame. apply canvas_room.
  - rewrite Hfp, <-Hextra. subst o. cbn [lo_minTitleY lo_baselineY workflowLegendLayout]. unfold legendY. q_ops.
    change (inject_Z 44) with 44. change (inject_Z 8) with 8. lra.
  - exists l. split; [done|]. rewrite Htitle, Hfp, <-Hextra. done.
Qed.
End Readable.

(** The legend of a readable workflow is never hidden and never refused for
    its size: it is drawn, between 20 pixels inside the canvas on both sides,
    below the lanes and above the lower end of the canvas. *)
Theorem legend_fits_canvas : schema_version w = 2%Z → wf_lanes w ≠ [] → workflowLegendEntries w meta ≠ [] →
  (∃ l, measureLegend (workflowLegendEntries w meta) (workflowLegendLayout w meta layout 0 []) = Drawn l) ∧
  Forall (λ kr : string * rect Q, 20 <= x_ kr.2 ∧ x_ kr.2 + width kr.2 <= minimumCanvasWidth w meta layout - 20 ∧
     lastLaneBottom w layout + 14 <= y_ kr.2 ∧ y_ kr.2 + height kr.2 <= autoHeight w meta layout)
    (workflowLegendRects w meta layout 0).
Proof using.
  intros Hv Hlanes Hne. pose proof (autoHeight_Q Hv Hlanes) as Hauto. pose proof legendExtraHeight_nonneg as Hextra.
  pose proof (canvas_room Hv) as [Hmin _]. destruct (legend_without_obstacles Hv 0 Hne) as (l&Hdraw&Htitle).
  split; [by exists l|]. unfold workflowLegendRects. rewrite Hdraw, Htitle.
  destruct (legend_layout_facts _ _ l (workflow_legend_sensible 0 []) Hne Hdraw) as (_&Hin&_&(titleY&Et&_&Hbase)&_).
  destruct (workflowLegendEntries w meta) as [|e0 rest]; [done|]. rewrite Htitle in Et. apply (inj Some) in Et.
  destruct (workflow_legend_options Hv 0 []) as (Hwidth&_).
  assert (Hy : legendY w meta layout == lastLaneBottom w layout + 44 + legendExtraHeight w meta layout) by reflexivity.
  assert (Ht : titleY == lastLaneBottom w layout + 24).
  { rewrite <-Et. q_ops. change (inject_Z 20) with 20. lra. }
  rewrite Et. constructor; cbn [x_ y_ width height fst snd].
  - q_ops. change (inject_Z 20) with 20. change (inject_Z 10) with 10.
    change (inject_Z 48) with 48. change (inject_Z 14) with 14. split_and!; lra.
  - rewrite Forall_map. rewrite Forall_forall in *. intros p Hp. cbn [x_ y_ width height fst snd entry_rect].
    specialize (Hin p Hp) as [Hx1 Hx2]. specialize (Hbase p Hp). rewrite Hwidth, (packing_width Hv) in Hx2.
    change (lo_x _) with (inject_Z 20) in *. change (lo_baselineY _) with (legendY w meta layout) in *.
    q_ops. change (inject_Z 20) with 20 in *. change (inject_Z 10) with 10. change (inject_Z 14) with 14.
    split_and!; lra.
Qed.
End Fits.

(** The sample document shows the kinds it uses. *)
Definition sample_meta : wmeta Q := {| mt_legend := None; mt_viewBox := None; mt_qualityProfile := None |}.
Lemma legend_fits_canvas_witness :
  Forall (λ kr : string * rect Q, 20 <= x_ kr.2 ∧
    x_ kr.2 + width kr.2 <= minimumCanvasWidth sample_workflow sample_meta (createReadableLayout sample_workflow no_feedback) - 20 ∧
    lastLaneBottom sample_workflow (createReadableLayout sample_workflow no_feedback) + 14 <= y_ kr.2 ∧
    y_ kr.2 + height kr.2 <= autoHeight sample_workflow sample_meta (createReadableLayout sample_workflow no_feedback))%Q
    (workflowLegendRects sample_workflow sample_meta (createReadableLayout sample_workflow no_feedback) 0%Q).
Proof. apply (legend_fits_canvas sample_workflow sample_meta no_feedback); [reflexivity|discriminate|discriminate]. Defined.
