(* ===== verification/RouteCandidates.v ===== *)
(** * Candidate routes of a workflow
      ([src/.agents/skills/archify/renderers/workflow/workflow-compiler.mjs], [compileWorkflowInternal])

    The routes an edge may take, which of them are feasible next to the nodes,
    the frames, the legend and the routes placed before, and what they cost.

    The nodes are those whose lane exists: a document of the readable contract
    with another node is rejected before anything is routed. *)

From Stdlib Require Import QArith.
From stdpp Require Import sorting pretty gmap.
From S2P Require Import Prelude Num JsValue Geometry Routes Analyses Ports Checks TextFit Legend Workflow SemanticContract ReadableLayout LaneGeometry WorkflowCanvas.
#[local] Open Scope Z_scope.

(** [{ ...node, width, height, x, y, cx, cy }] *)
Record measured_node (N : Type) := { mn_node : wnode N; mn_box : box N }.
Arguments mn_node {N} _.
Arguments mn_box {N} _.

(** An entry of [pathCache]: an edge, its position, and the points of its route. *)
Record placed_route (N : Type) := { pr_index : nat; pr_edge : wedge N; pr_points : list (point N) }.
Arguments pr_index {N} _.
Arguments pr_edge {N} _.
Arguments pr_points {N} _.

(** The dimensions of a cost, in the order of their priority. *)
Record route_cost (N : Type) := {
  rc_automaticForwardReversePx : N; rc_properCrossingCount : N; rc_sharedCorridorPx : N;
  rc_labelRouteClearanceDeficit : N; rc_interiorPreferred28Deficit : N; rc_bendCount : N; rc_stretchMilli : N;
  rc_canvasGrowthPx : N; rc_portDisplacementMilli : N; rc_legacyCoordinateDisplacement : N;
  rc_stableCandidateOrdinal : N
}.
Arguments rc_automaticForwardReversePx {N} _.
Arguments rc_properCrossingCount {N} _.
Arguments rc_sharedCorridorPx {N} _.
Arguments rc_labelRouteClearanceDeficit {N} _.
Arguments rc_interiorPreferred28Deficit {N} _.
Arguments rc_bendCount {N} _.
Arguments rc_stretchMilli {N} _.
Arguments rc_canvasGrowthPx {N} _.
Arguments rc_portDisplacementMilli {N} _.
Arguments rc_legacyCoordinateDisplacement {N} _.
Arguments rc_stableCandidateOrdinal {N} _.

(** A pair of sides, and a feasible candidate with its cost. *)
Record side_pair := { sp_fromSide : string; sp_toSide : string }.
#[export] Instance side_pair_eq_dec : EqDecision side_pair.
Proof. solve_decision. Defined.

Record route_plan (N : Type) := { rp_points : list (point N); rp_cost : route_cost N }.
Arguments rp_points {N} _.
Arguments rp_cost {N} _.

Section Candidates.
Context {N : Type} `{!JsNum N, !JsMath N}.
Context (w : workflow N) (meta : wmeta N) (layout : wlayout N).
#[local] Open Scope js_scope.
#[local] Abbreviation point := (point N) (only parsing).
Implicit Types (e : wedge N) (ps : list point) (placed : list (placed_route N)).

(** ** Nodes *)
Definition node_at (id : string) : option (measured_node N) :=
  n ← nodesById w !! id;
  b ← measureNode w layout n;
  Some {| mn_node := n; mn_box := b |}.
(** [nodes.values()] *)
Definition measuredNodes : list (measured_node N) := omap node_at (id_set (map wn_id (wf_nodes w))).
Definition node_id (n : measured_node N) : string := wn_id (mn_node n).
Definition node_rect (n : measured_node N) : rect N := bx_rect (mn_box n).
(** The lane of a measured node exists. *)
Definition top_of (n : measured_node N) : N := default (nof 0) (laneTop w layout (wn_lane (mn_node n))).
Definition bottom_of (n : measured_node N) : N := top_of n + laneHeight w layout (wn_lane (mn_node n)).
Definition legendRects : list (rect N) :=
  map snd (workflowLegendRects w meta layout (initial_viewBox w meta layout).1).

(** ** Labels *)
(** The edge as a relationship of the shared geometry; [index] is its identity. *)
Definition edge_relation_with (index : nat) e (segment : option Z) : relation N :=
  {| rel_ref := index; rel_key := None; rel_id := we_id e; rel_from := we_from e; rel_to := we_to e;
     rel_label := we_label e; rel_fromSide := we_fromSide e; rel_toSide := we_toSide e; rel_route := we_route e;
     rel_via := bool_decide (is_Some (we_via e)); rel_channelX := bool_decide (is_Some (we_channelX e));
     rel_channelY := bool_decide (is_Some (we_channelY e)); labelAt := we_labelAt e; labelDx := we_labelDx e;
     labelDy := we_labelDy e; labelSegment := segment |}.
Definition edge_relation (index : nat) e : relation N := edge_relation_with index e (we_labelSegment e).
(** [labelPoint(edge, points)] and [labelPoint({ ...edge, labelSegment }, points)] *)
Definition label_point e ps : option point := labelPoint (edge_relation 0 e) ps.
Definition label_point_on e (segment : nat) ps : option point :=
  p ← labelPoint (edge_relation_with 0 e (Some (Z.of_nat segment))) ps;
  a ← ps !! segment;
  b ← ps !! S segment;
  Some (if same_number a.1 b.1 then (p.1, p.2 + nof 10) else p).

Definition hypot_of (s : segment N) : N := nhypot (s.2.1 - s.1.1) (s.2.2 - s.1.2).

(** A segment with its index; horizontal ones first, then the longest. *)
Definition label_segment_le (a b : nat * segment N) : bool :=
  let horizontal (s : segment N) := nabs (s.2.2 - s.1.2) <=? epsilon in
  if bool_decide (horizontal a.2 = horizontal b.2) then
    in_order (hypot_of b.2 - hypot_of a.2) (nof (Z.of_nat a.1 - Z.of_nat b.1))
  else horizontal a.2.

Definition workflowEdgeLabelPoint e ps : option point :=
  let pinned := bool_decide (is_Some (we_labelAt e)) || bool_decide (is_Some (we_labelSegment e)) in
  if readable w then
    if pinned || (length ps <=? 2)%nat then label_point e ps
    else match merge_sort (before label_segment_le) (imap pair (segments_of ps)) with
         | [] => label_point_on e 0 ps
         | (labelSegment, _) :: _ => label_point_on e labelSegment ps
         end
  else match ps with
  | [a; b; c] => if pinned then label_point e ps
                 else label_point_on e (if hypot_of (a, b) >=? hypot_of (b, c) then 0%nat else 1%nat) ps
  | _ => label_point e ps
  end.

(** The mask of a label around its point. *)
Definition label_mask e (p : point) : rect N :=
  let width := workflowLabelWidth (label_text e) in
  {| x_ := p.1 - width / nof 2; y_ := p.2 - nof 10; width := width; height := nof 14 |}.
(** (A route has two points, so its label has a point.) *)
Definition candidateLabelRect e ps : option (rect N) :=
  if negb (nonempty (we_label e)) then None else label_mask e <$> workflowEdgeLabelPoint e ps.
(** [labelRectFor] of an edge that is placed. *)
Definition placed_label (r : placed_route N) : option (rect N) := candidateLabelRect (pr_edge r) (pr_points r).

(** ** Feasibility *)
Definition OUTWARD_SIDE_VECTOR (side : string) : Z * Z := default (0, 0)%Z (PORT_OUTWARD_VECTOR side).
Definition outwardStub (p : point) (side : string) : point := stub (nof 16) p (OUTWARD_SIDE_VECTOR side).

Definition orthogonal_segment (s : segment N) : bool :=
  xorb (nabs (s.2.1 - s.1.1) <=? epsilon) (nabs (s.2.2 - s.1.2) <=? epsilon).
Definition orthogonalRoute ps : bool := forallb finite_point ps && forallb orthogonal_segment (segments_of ps).

(** A segment meets the rectangle. *)
Definition meets_route (ss : list (segment N)) (clearance : N) (r : rect N) : bool :=
  existsb (λ s, segmentIntersectsRect s r clearance) ss.

Definition is_endpoint e (id : string) : bool := bool_decide (id = we_from e) || bool_decide (id = we_to e).
Definition routeClearsUnrelatedNodes e ps : bool :=
  forallb (λ n, is_endpoint e (node_id n) || negb (meets_route (segments_of ps) (nof 2) (node_rect n))) measuredNodes.
Definition routeClearsEndpointNodes ps (from to : measured_node N) : bool :=
  negb (meets_route (drop 1 (segments_of ps)) (nof 0) (node_rect from)) &&
  negb (meets_route (take (length ps - 2) (segments_of ps)) (nof 0) (node_rect to)).

Definition rhythm_ok (count : nat) (entry : nat * segment N) : bool :=
  let '(index, s) := entry in
  let endpoint := (index =? 0)%nat || (index =? count - 2)%nat in
  manhattan s + epsilon >=? (if endpoint then nof 8 else nof 16).
Definition routeMeetsHardRhythm ps : bool :=
  match ps with
  | [a; b] => hypot_of (a, b) + epsilon >=? nof 28
  | _ => forallb (rhythm_ok (length ps)) (imap pair (segments_of ps))
  end.

Definition routeLabelClearsNodes e ps : bool :=
  if negb (nonempty (we_label e)) || bool_decide (is_Some (we_labelAt e)) then true
  else match candidateLabelRect e ps with
       | None => true
       | Some r => forallb (λ n, negb (rectsOverlap r (node_rect n) (nof 0 - nof 2))) measuredNodes
       end.

(** Some segment comes closer to the label than four pixels. *)
Definition too_close (ps : list point) (label : rect N) : bool :=
  existsb (λ s, match segmentRectClearance s label with
                | Some clearance => clearance + epsilon <? nof 4
                | None => false
                end) (segments_of ps).
Definition clears_placed e ps (r : placed_route N) : bool :=
  let candidateLabel := candidateLabelRect e ps in
  let otherLabel := placed_label r in
  negb (match candidateLabel, otherLabel with
        | Some c, Some o => rectsOverlap c o (nof 0 - nof 2)
        | _, _ => false
        end) &&
  negb (match candidateLabel with Some c => too_close (pr_points r) c | None => false end) &&
  negb (match otherLabel with Some o => too_close ps o | None => false end).
Definition routeClearsPlacedLabels placed e ps : bool := forallb (clears_placed e ps) placed.

(** The route and its label meet none of the rectangles. *)
Definition clears_rects (rects : list (rect N)) e ps : bool :=
  forallb (λ r, negb (meets_route (segments_of ps) (nof 0) r) &&
                negb (match candidateLabelRect e ps with Some l => rectsOverlap l r (nof 0) | None => false end)) rects.
Definition routeClearsLegend e ps : bool := clears_rects legendRects e ps.
(** (A label whose top is not a number is met by nothing.) *)
Definition label_rect_of (l : scene_label N) : option (rect N) :=
  (λ y, {| x_ := sl_x l; y_ := y; width := sl_width l; height := sl_height l |}) <$> sl_y l.
Definition routeClearsSceneLabelObstacles e ps : bool :=
  clears_rects (omap label_rect_of (workflowSceneLabelObstacles w layout)) e ps.

(** (A frame whose top is not a number has no border.) *)
Definition frame_of (f : wframe N) : option (frame N) :=
  y ← fm_y f;
  Some {| fr_shape := FrameRect None {| x_ := fm_x f; y_ := y; width := fm_width f; height := fm_height f |}
                        (Some (fm_radius f));
          fr_kind := Some (fm_kind f); fr_label := Some (fm_label f); fr_id := Some (fm_id f) |}.
Definition compositionFrames : list (frame N) := omap frame_of (workflowCompositionFrames w layout).
Definition bare_route ps : routed N :=
  {| ro_relation := None; ro_index := None; ro_points := ps; ro_segments := None |}.
Definition routeClearsFrameBorders ps : bool :=
  match collectBorderRuns [bare_route ps] compositionFrames with [] => true | _ => false end.

Definition routeExtentCoordinates e ps : list point :=
  ps ++ match candidateLabelRect e ps with
        | Some label => if bool_decide (is_Some (we_labelAt e)) then []
                        else [(x_ label, y_ label); (x_ label + width label, y_ label + height label)]
        | None => []
        end.
Definition routeFitsCanvasOrigin e ps : bool :=
  forallb (λ p, (p.1 >=? nof 0) && (p.2 >=? nof 0)) (routeExtentCoordinates e ps).

Definition readableCandidateIsFeasible placed e ps (from to : measured_node N) (sides : side_pair) : bool :=
  (2 <=? length ps)%nat && orthogonalRoute ps &&
  routeHonorsEndpointSides ps (sp_fromSide sides) (sp_toSide sides) && routeMeetsHardRhythm ps &&
  routeClearsEndpointNodes ps from to && routeClearsUnrelatedNodes e ps && routeLabelClearsNodes e ps &&
  routeClearsPlacedLabels placed e ps && routeClearsLegend e ps && routeClearsSceneLabelObstacles e ps &&
  routeClearsFrameBorders ps && routeFitsCanvasOrigin e ps.

(** ** Costs *)
Definition axisOverlapLength (s t : segment N) : N :=
  let '(a, b) := s in
  let '(c, d) := t in
  let along (pick : point → N) := (nabs (pick a - pick b) <=? epsilon) && (nabs (pick c - pick d) <=? epsilon) &&
                                  (nabs (pick a - pick c) <=? epsilon) in
  let horizontal := along snd in
  let vertical := along fst in
  if negb horizontal && negb vertical then nof 0
  else
    let ax := axis horizontal in
    nmax (nof 0) (nmin (nmax (ax a) (ax b)) (nmax (ax c) (ax d)) - nmax (nmin (ax a) (ax b)) (nmin (ax c) (ax d))).

Definition properAxisCrossing (s t : segment N) : bool :=
  let horizontal_one (s : segment N) := nabs (s.1.2 - s.2.2) <=? epsilon in
  if bool_decide (horizontal_one s = horizontal_one t) then false
  else
    let '(horizontal, vertical) := if horizontal_one s then (s, t) else (t, s) in
    let x := vertical.1.1 in
    let y := horizontal.1.2 in
    (x >? nmin horizontal.1.1 horizontal.2.1 + epsilon) && (x <? nmax horizontal.1.1 horizontal.2.1 - epsilon) &&
    (y >? nmin vertical.1.2 vertical.2.2 + epsilon) && (y <? nmax vertical.1.2 vertical.2.2 - epsilon).

Definition share_endpoint e (other : wedge N) : bool :=
  existsb (is_endpoint other) [we_from e; we_to e].
(** The pairs of segments of the route and of the unrelated routes. *)
Definition interacting placed e ps : list (segment N * segment N) :=
  filter (λ r, share_endpoint e (pr_edge r) = false) placed ≫= λ r,
    segments_of ps ≫= λ s, map (pair s) (segments_of (pr_points r)).
Definition sum (l : list N) : N := foldl nadd (nof 0) l.
Definition properCrossingCount placed e ps : N :=
  nof (Z.of_nat (length (filter (λ st, properAxisCrossing st.1 st.2 = true) (interacting placed e ps)))).
Definition sharedCorridorPx placed e ps : N :=
  sum (map (λ st, axisOverlapLength st.1 st.2) (interacting placed e ps)).

Definition label_deficits (label : option (rect N)) ps : list N :=
  match label with
  | Some l => omap (λ s, (λ clearance, nmax (nof 0) (nof 8 - clearance)) <$> segmentRectClearance s l) (segments_of ps)
  | None => []
  end.
Definition labelRouteClearanceDeficit placed e ps : N :=
  sum (placed ≫= λ r, label_deficits (candidateLabelRect e ps) (pr_points r) ++ label_deficits (placed_label r) ps).

Definition automaticForwardReversePx e (from to : measured_node N) ps : N :=
  if bool_decide (we_role e = Some "return") || bool_decide (we_role e = Some "error") ||
     (wn_col (mn_node to) <=? wn_col (mn_node from))%Z
  then nof 0
  else sum (map (λ s : segment N, nmax (nof 0) (s.1.1 - s.2.1)) (segments_of ps)).

Definition negative (x : N) : N := nof 0 - x.
(** [Math.min(...values)] and [Math.max(...values)] of values that exist. *)
Definition least_of (values : list N) : N :=
  match values with [] => nof 0 | v :: values => foldl nmin v values end.
Definition greatest_of (values : list N) : N :=
  match values with [] => nof 0 | v :: values => foldl nmax v values end.

Definition readableCandidateCost placed e (from to : measured_node N) ps (ordinal : Z) (natural : side_pair)
    : route_cost N :=
  let lengths := map manhattan (segments_of ps) in
  let routeLength := sum lengths in
  let first := default (nof 0, nof 0) (head ps) in
  let last_ := default (nof 0, nof 0) (last ps) in
  let directLength := nabs (last_.1 - first.1) + nabs (last_.2 - first.2) in
  let interior := take (length lengths - 2) (drop 1 lengths) in
  let xs := map fst ps in
  let ys := map snd ps in
  let naturalStart := anchor (mn_box from) (sp_fromSide natural) in
  let naturalEnd := anchor (mn_box to) (sp_toSide natural) in
  let portDisplacementPx := nabs (first.1 - naturalStart.1) + nabs (first.2 - naturalStart.2) +
                            nabs (last_.1 - naturalEnd.1) + nabs (last_.2 - naturalEnd.2) in
  {| rc_automaticForwardReversePx := automaticForwardReversePx e from to ps;
     rc_properCrossingCount := properCrossingCount placed e ps;
     rc_sharedCorridorPx := sharedCorridorPx placed e ps;
     rc_labelRouteClearanceDeficit := labelRouteClearanceDeficit placed e ps;
     rc_interiorPreferred28Deficit := sum (map (λ length, nmax (nof 0) (nof 28 - length)) interior);
     rc_bendCount := nmax (nof 0) (nof (Z.of_nat (length ps)) - nof 2);
     rc_stretchMilli := nround ((if directLength >? nof 0 then routeLength / directLength else nof 1) * nof 1000);
     rc_canvasGrowthPx :=
       nmax (nof 0) (negative (least_of xs)) + nmax (nof 0) (greatest_of xs - minimumCanvasWidth w meta layout) +
       nmax (nof 0) (negative (least_of ys)) + nmax (nof 0) (greatest_of ys - autoHeight w meta layout);
     rc_portDisplacementMilli := nround (portDisplacementPx * nof 1000);
     rc_legacyCoordinateDisplacement :=
       nabs (cx (mn_box from) - column_at LEGACY_COLUMN_CENTERS (wn_col (mn_node from))) +
       nabs (cx (mn_box to) - column_at LEGACY_COLUMN_CENTERS (wn_col (mn_node to)));
     rc_stableCandidateOrdinal := nof ordinal |}.

(** [READABLE_CANDIDATE_COST_PRIORITY] *)
Definition cost_dimensions (c : route_cost N) : list N :=
  [rc_automaticForwardReversePx c; rc_properCrossingCount c; rc_sharedCorridorPx c; rc_labelRouteClearanceDeficit c;
   rc_interiorPreferred28Deficit c; rc_bendCount c; rc_stretchMilli c; rc_canvasGrowthPx c;
   rc_portDisplacementMilli c; rc_legacyCoordinateDisplacement c; rc_stableCandidateOrdinal c].
(** [x || 0] *)
Definition or_zero (x : N) : N := if truthy_number x then x else nof 0.
Fixpoint compare_dimensions (ls rs : list N) : N :=
  match ls, rs with
  | l :: ls, r :: rs =>
      if same_number (or_zero l) (or_zero r) then compare_dimensions ls rs else or_zero l - or_zero r
  | _, _ => nof 0
  end.
Definition compareCost (left right : route_cost N) : N :=
  compare_dimensions (cost_dimensions left) (cost_dimensions right).
Definition cost_le (left right : route_cost N) : bool := compareCost left right <=? nof 0.
Definition plan_le (left right : route_plan N) : bool := cost_le (rp_cost left) (rp_cost right).

(** ** Candidates *)
Definition corridorViaY (start end_ : point) (sides : side_pair) (y : N) : list point :=
  let startStub := outwardStub start (sp_fromSide sides) in
  let endStub := outwardStub end_ (sp_toSide sides) in
  [startStub; (startStub.1, y); (endStub.1, y); endStub].
Definition corridorViaX (start end_ : point) (sides : side_pair) (x : N) : list point :=
  let startStub := outwardStub start (sp_fromSide sides) in
  let endStub := outwardStub end_ (sp_toSide sides) in
  [startStub; (x, startStub.2); (x, endStub.2); endStub].

Definition outsideRight : N := laneX layout + laneW layout + nof 12.
(** [gapYBetween(from.lane, to.lane, edge.bias ?? 0.5)] *)
Definition lane_gap_y e (from to : measured_node N) : N :=
  default (nof 0) (gapYBetween w layout (wn_lane (mn_node from)) (wn_lane (mn_node to))
                     (default (nlit 1 2) (we_bias e))).

Definition rawCandidates e (from to : measured_node N) (start end_ : point) (sides : side_pair)
    : list (string * list point) :=
  let midX := (start.1 + end_.1) / nof 2 in
  let laneGapY := if bool_decide (wn_lane (mn_node from) = wn_lane (mn_node to)) then top_of from - nof 16
                  else lane_gap_y e from to in
  let topY := nmax (nof 8) (nmin (top_of from) (top_of to) - nof 16) in
  let bottomY := nmax (bottom_of from) (bottom_of to) + nof 16 in
  [("facing-straight", []);
   ("horizontal-then-vertical", [(end_.1, start.2)]);
   ("vertical-then-horizontal", [(start.1, end_.2)]);
   ("lane-gap-corridor", corridorViaY start end_ sides laneGapY);
   ("column-gap-corridor", corridorViaX start end_ sides midX);
   ("outside-left", corridorViaX start end_ sides (laneX layout - nof 20));
   ("outside-right", corridorViaX start end_ sides outsideRight);
   ("top-corridor", corridorViaY start end_ sides topY);
   ("bottom-corridor", corridorViaY start end_ sides bottomY)].

(** The normal form of the route through the points. *)
Definition route_through (start end_ : point) (via : list point) : list point :=
  normalizeRoutePoints (start :: via ++ [end_]).

Definition readableAutomaticCandidateSet placed e (from to : measured_node N) (start end_ : point)
    (sides : side_pair) (ordinalOffset : Z) (natural : side_pair) : list (route_plan N) :=
  let routes := imap (λ ordinal family_via, (Z.of_nat ordinal, route_through start end_ family_via.2))
                  (rawCandidates e from to start end_ sides) in
  merge_sort (before plan_le)
    (map (λ r : Z * list point,
            {| rp_points := r.2;
               rp_cost := readableCandidateCost placed e from to r.2 (ordinalOffset + r.1) natural |})
      (filter (λ r : Z * list point, readableCandidateIsFeasible placed e r.2 from to sides = true) routes)).
End Candidates.
