(* ===== verification/RouteSearch.v ===== *)
(** * The search for routes
      ([src/.agents/skills/archify/renderers/workflow/workflow-compiler.mjs], [compileWorkflowInternal])

    How an edge gets its route: by the cheapest feasible candidate, by a channel
    right of the lanes that is moved outwards until it is feasible, along the
    preset or the pins of its author; or why it gets none.

    A thrown error is a [route_failure].  What a diagnostic reports besides its
    message, and the repairs it verifies by compiling repaired documents, are not
    modelled. *)

From Stdlib Require Import QArith.
From stdpp Require Import sorting pretty gmap.
From S2P Require Import Prelude Num JsValue Geometry Routes Analyses Ports Checks TextFit Legend Workflow SemanticContract ReadableLayout LaneGeometry WorkflowCanvas RouteCandidates.
#[local] Open Scope Z_scope.

(** What routing asks of the layout, for an edge with its identifier and ends. *)
Inductive layout_demand (N : Type) :=
  | RankGapMinimum (fromCol toCol : Z) (minimum : N)
  | LaneGapMinimum (minimum : N).
Arguments RankGapMinimum {N} _ _ _.
Arguments LaneGapMinimum {N} _.
Record layout_request (N : Type) := {
  lq_demand : layout_demand N; lq_edge : option string; lq_from : string; lq_to : string
}.
Arguments lq_demand {N} _.
Arguments lq_edge {N} _.
Arguments lq_from {N} _.
Arguments lq_to {N} _.

Inductive route_failure (N : Type) :=
  | WorkflowLayoutFeedback (request : layout_request N)
  | ExplicitPinConflict (invariant : string)
  | RoutePresetConflict (message : string)
  | SolverBudgetExhausted (message : string)
  | NoEnumeration
  | RouteTypeError.
Arguments WorkflowLayoutFeedback {N} _.
Arguments ExplicitPinConflict {N} _.
Arguments RoutePresetConflict {N} _.
Arguments SolverBudgetExhausted {N} _.
Arguments NoEnumeration {N}.
Arguments RouteTypeError {N}.

(** [pathCache], in the order of insertion, and [readableSideCache]. *)
Record route_state (N : Type) := {
  rs_placed : list (placed_route N); rs_sides : gmap nat (option side_pair)
}.
Arguments rs_placed {N} _.
Arguments rs_sides {N} _.

(** A route with its sides. *)
Record planned_route (N : Type) := { pn_points : list (point N); pn_sides : side_pair }.
Arguments pn_points {N} _.
Arguments pn_sides {N} _.

Inductive segment_orientation := Vertical | Horizontal | Diagonal.
#[export] Instance segment_orientation_eq_dec : EqDecision segment_orientation.
Proof. solve_decision. Defined.

Section Search.
Context {N : Type} `{!JsNum N, !JsMath N}.
Context (w : workflow N) (meta : wmeta N) (layout : wlayout N).
#[local] Open Scope js_scope.
#[local] Abbreviation point := (point N) (only parsing).
#[local] Abbreviation result A := (route_failure N + A)%type.
Implicit Types (e : wedge N) (ps : list point) (placed : list (placed_route N)) (from to : measured_node N)
  (start : point) (sides : side_pair) (st : route_state N).

#[local] Abbreviation feasible := (readableCandidateIsFeasible w meta layout).
#[local] Abbreviation candidate_set := (readableAutomaticCandidateSet w meta layout).

(** [points.slice(1, -1)] *)
Definition inner ps : list point := take (length ps - 2) (drop 1 ps).

(** ** A channel right of the lanes *)

(** [Math.ceil(x * 1000) / 1000] *)
Definition ceil_milli (x : N) : N := math_ceil (x * nof 1000) / nof 1000.

Definition outside_right_route start (end_ : point) sides (x : N) : list point :=
  route_through start end_ (corridorViaX start end_ sides x).

(** A label that sticks out by [deficit] moves the channel by twice as much. *)
Definition push_right (minX deficit : N) : N :=
  if deficit >? nof 0 then nmax minX (outsideRight layout + deficit * nof 2) else minX.
Definition push_node (label : rect N) (minX : N) (n : measured_node N) : N :=
  let r := node_rect n in
  if rectsOverlap label r (nof 0 - nof 2) then push_right minX (x_ r + width r - nof 2 - x_ label) else minX.
Definition push_segment (label : rect N) (minX : N) (s : segment N) : N :=
  match segmentRectClearance s label with
  | None => minX
  | Some clearance => if clearance + epsilon >=? nof 4 then minX
                      else push_right minX (nmax s.1.1 s.2.1 + nof 4 - x_ label)
  end.
Definition push_placed (label : rect N) (minX : N) (r : placed_route N) : N :=
  let minX := match placed_label w r with
              | Some other => if rectsOverlap label other (nof 0 - nof 2)
                              then push_right minX (x_ other + width other - nof 2 - x_ label) else minX
              | None => minX
              end in
  foldl (push_segment label) minX (segments_of (pr_points r)).
Definition outsideRightMinX placed (label : option (rect N)) : N :=
  match label with
  | Some label => foldl (push_placed label) (foldl (push_node label) (outsideRight layout) (measuredNodes w layout)) placed
  | None => outsideRight layout
  end.

Definition right_of_placed (x : N) (r : placed_route N) : N :=
  let x := foldl (λ x p, nmax x p.1) x (pr_points r) in
  match placed_label w r with Some other => nmax x (x_ other + width other) | None => x end.
Definition rightmostPlacedX placed : N :=
  foldl right_of_placed
    (foldl (λ x n, nmax x (x_ (node_rect n) + width (node_rect n))) (outsideRight layout) (measuredNodes w layout)) placed.

Section Probe.
Context (accept : list point → bool) (start end_ : point) (sides : side_pair).

(** The loop over the refinements: [feasibleX] moves left as long as it can. *)
Fixpoint refine (fuel : nat) (feasibleX infeasibleX : N) (feasiblePoints : list point) : list point :=
  match fuel with
  | O => feasiblePoints
  | S fuel =>
      if negb (feasibleX - infeasibleX >? nlit 1 1000) then feasiblePoints
      else
        let midpointX := ceil_milli ((infeasibleX + feasibleX) / nof 2) in
        if midpointX >=? feasibleX - epsilon then feasiblePoints
        else
          let midpointPoints := outside_right_route start end_ sides midpointX in
          if accept midpointPoints then refine fuel midpointX infeasibleX midpointPoints
          else refine fuel feasibleX midpointX feasiblePoints
  end.

(** The loop over the probes: [minX] moves right, twice as far every time. *)
Fixpoint probe (fuel : nat) (minX growth lastInfeasibleX : N) : option (list point) :=
  match fuel with
  | O => None
  | S fuel =>
      let next := ceil_milli (minX + growth) in
      if minX >? outsideRight layout + epsilon then
        let expandedPoints := outside_right_route start end_ sides minX in
        if accept expandedPoints then Some (refine 53 minX lastInfeasibleX expandedPoints)
        else probe fuel next (growth * nof 2) minX
      else probe fuel next (growth * nof 2) lastInfeasibleX
  end.
End Probe.

Definition probe_outside_right placed e from to start (end_ : point) sides : option (list point) :=
  let currentPoints := outside_right_route start end_ sides (outsideRight layout) in
  let label := candidateLabelRect w e currentPoints in
  let minX := ceil_milli (outsideRightMinX placed label) in
  let growth := nmax (nmax (nof 32) (default (nof 0) (width <$> label))) (rightmostPlacedX placed + nof 16 - minX) in
  probe (λ ps, feasible placed e ps from to sides) start end_ sides 7 minX growth (outsideRight layout).

(** ** Failures *)
Definition hasAbsoluteRoutePins e : bool :=
  bool_decide (is_Some (we_via e)) || bool_decide (is_Some (we_channelX e)) || bool_decide (is_Some (we_channelY e)).
Definition has_labelAt e : bool := bool_decide (is_Some (we_labelAt e)).

Definition placed_relation (r : placed_route N) : relation N := edge_relation (pr_index r) (pr_edge r).
Definition prior_label (r : placed_route N) : option (label_box N) :=
  (λ rect, {| lb_rect := rect; lb_relation := Some (placed_relation r); lb_index := Some (Z.of_nat (pr_index r));
              lb_label := we_label (pr_edge r) |}) <$> placed_label w r.
Definition prior_route (r : placed_route N) : routed N :=
  {| ro_relation := Some (placed_relation r); ro_index := Some (Z.of_nat (pr_index r)); ro_points := pr_points r;
     ro_segments := None |}.

(** The candidates it is called with have no [points]: the label of an edge has a
    rectangle only where it is pinned, and reading the points of another label
    throws; a route without points comes near no label. *)
Definition classifyFailedAutomaticCandidatePins placed (index : nat) e : option (route_failure N) :=
  match filter (λ r, pr_index r ≠ index) placed with
  | [] => None
  | (_ :: _) as prior =>
      if negb (nonempty (we_label e)) then None
      else match we_labelAt e with
      | None => Some RouteTypeError
      | Some p =>
          let label := {| lb_rect := label_mask e p; lb_relation := Some (edge_relation index e);
                          lb_index := Some (Z.of_nat index); lb_label := we_label e |} in
          if existsb (λ other, rectsOverlap (lb_rect label) (lb_rect other) (nof 0 - nof 2)) (omap prior_label prior)
          then Some (ExplicitPinConflict "explicit label-label clearance")
          else match collectLabelRouteClearance [label] (map prior_route prior) (nof 4) with
               | _ :: _ => Some (ExplicitPinConflict "explicit label-route clearance")
               | [] => None
               end
      end
  end.

Definition horizontallyFacing start (end_ : point) sides : bool :=
  (bool_decide (sp_fromSide sides = "right") && bool_decide (sp_toSide sides = "left") && (end_.1 >? start.1)) ||
  (bool_decide (sp_fromSide sides = "left") && bool_decide (sp_toSide sides = "right") && (start.1 >? end_.1)).

Definition request_of e (demand : layout_demand N) : route_failure N :=
  WorkflowLayoutFeedback {| lq_demand := demand; lq_edge := we_id e; lq_from := we_from e; lq_to := we_to e |}.

(** Two columns that are too close for the nodes and 32 pixels between them. *)
Definition rank_gap_failure e from to start (end_ : point) sides : option (route_failure N) :=
  let a := wn_col (mn_node from) in
  let b := wn_col (mn_node to) in
  if horizontallyFacing start end_ sides && negb (a =? b)%Z then
    let requiredRankGap := width (node_rect from) / nof 2 + nof 32 + width (node_rect to) / nof 2 in
    let actualRankGap := column_at (colXs layout) (Z.max a b) - column_at (colXs layout) (Z.min a b) in
    if actualRankGap + epsilon <? requiredRankGap
    then Some (request_of e (RankGapMinimum (Z.min a b) (Z.max a b) (ceil_milli requiredRankGap)))
    else None
  else None.
Definition lane_gap_failure e from to : option (route_failure N) :=
  if negb (bool_decide (wn_lane (mn_node from) = wn_lane (mn_node to))) && (laneGap layout <? nof 32)
  then Some (request_of e (LaneGapMinimum (nof 32))) else None.

Definition budget_message e : string :=
  cat ["Workflow edge "; quoted (workflowEdgeName e); " has no feasible readable-v2 automatic route."].

(** What [readableAutomaticVia] throws when the search has failed. *)
Definition automatic_failure placed (index : nat) e from to start (end_ : point) sides : route_failure N :=
  let hasRelevantAbsolutePin :=
    has_labelAt e || existsb (λ r, has_labelAt (pr_edge r) || hasAbsoluteRoutePins (pr_edge r)) placed in
  let pins := if hasRelevantAbsolutePin then classifyFailedAutomaticCandidatePins placed index e else None in
  default (SolverBudgetExhausted (budget_message e))
    (match pins with
     | Some failure => Some failure
     | None => match rank_gap_failure e from to start end_ sides with
               | Some failure => Some failure
               | None => lane_gap_failure e from to
               end
     end).

Definition readableAutomaticVia placed (index : nat) e from to start (end_ : point) sides : result (list point) :=
  match candidate_set placed e from to start end_ sides 0 sides with
  | best :: _ => inr (inner (rp_points best))
  | [] =>
      match probe_outside_right placed e from to start end_ sides with
      | Some ps => inr (inner ps)
      | None => inl (automatic_failure placed index e from to start end_ sides)
      end
  end.

(** ** Presets and pins *)
Definition segmentOrientation (s : segment N) : segment_orientation :=
  if nabs (s.1.1 - s.2.1) <=? epsilon then Vertical
  else if nabs (s.1.2 - s.2.2) <=? epsilon then Horizontal else Diagonal.
(** [routeSegments(points).map(({ orientation }) => orientation)] *)
Definition route_pattern ps : list segment_orientation := map segmentOrientation (segments_of ps).

(** A segment lies at the coordinate of a channel. *)
Definition routeContainsChannelPin ps (vertical : bool) (value : N) : bool :=
  existsb (λ s : segment N,
    if vertical then same_number s.1.1 value && same_number s.2.1 value && (nabs (s.2.2 - s.1.2) >? epsilon)
    else same_number s.1.2 value && same_number s.2.2 value && (nabs (s.2.1 - s.1.1) >? epsilon)) (segments_of ps).

(** [corridorTopologyMatches(points, vertical ? 'x' : 'y', coordinate)] *)
Definition corridorTopologyMatches ps (vertical : bool) (coordinate : N) : bool :=
  let collapsed := normalizeRoutePoints ps in
  let start := default (nof 0, nof 0) (head collapsed) in
  let end_ := default (nof 0, nof 0) (last collapsed) in
  let via := if vertical then [(coordinate, start.2); (coordinate, end_.2)]
             else [(start.1, coordinate); (end_.1, coordinate)] in
  bool_decide (route_pattern collapsed = route_pattern (route_through start end_ via)) &&
  routeContainsChannelPin collapsed vertical coordinate.

Definition routeMatchesPresetFamily (preset : string) ps from to : bool :=
  let collapsed := normalizeRoutePoints ps in
  let segments := segments_of collapsed in
  let a := node_rect from in
  let b := node_rect to in
  let along (orientation : segment_orientation) (vertical : bool) (pick : point → N) (beyond : N → bool) :=
    existsb (λ s, bool_decide (segmentOrientation s = orientation) && beyond (pick s.1) &&
                  corridorTopologyMatches ps vertical (pick s.1)) segments in
  if bool_decide (preset = "straight") then (length collapsed =? 2)%nat
  else if bool_decide (preset = "drop") then
    if bool_decide (wn_lane (mn_node from) = wn_lane (mn_node to)) then false
    else
      let '(upper, lower) := if cy (mn_box from) <=? cy (mn_box to) then (a, b) else (b, a) in
      (length collapsed =? 2)%nat &&
        match segments with s :: _ => bool_decide (segmentOrientation s = Vertical) | [] => false end ||
      along Horizontal false snd (λ y, (y >=? y_ upper + height upper - epsilon) && (y <=? y_ lower + epsilon))
  else if bool_decide (preset = "outside-right") then
    along Vertical true fst (λ x, x >? nmax (x_ a + width a) (x_ b + width b) + epsilon)
  else if bool_decide (preset = "return-left") then
    along Vertical true fst (λ x, x <? nmin (x_ a) (x_ b) - epsilon)
  else if bool_decide (preset = "bottom-channel") then
    along Horizontal false snd (λ y, y >? nmax (y_ a + height a) (y_ b + height b) + epsilon)
  else if bool_decide (preset = "up-channel") then
    along Horizontal false snd (λ y, y <? nmin (y_ a) (y_ b) - epsilon)
  else false.

(** The points of a preset; [None] for a preset that is none, and for [auto]. *)
Definition preset_via e from to start (end_ : point) (channelX channelY : option N) : option (list point) :=
  let preset := route_of e in
  let a := node_rect from in
  let b := node_rect to in
  let across (x : N) := Some [(x, start.2); (x, end_.2)] in
  let down (y : N) := Some [(start.1, y); (end_.1, y)] in
  if bool_decide (preset = "straight") then Some []
  else if bool_decide (preset = "drop") then down (default (lane_gap_y w layout e from to) channelY)
  else if bool_decide (preset = "outside-right") then across (default (outsideRight layout) channelX)
  else if bool_decide (preset = "return-left") then across (default (nmin (x_ a) (x_ b) - nof 28) channelX)
  else if bool_decide (preset = "bottom-channel") then
    down (default (nmax (y_ a + height a) (y_ b + height b) + nof 32) channelY)
  else if bool_decide (preset = "up-channel") then down (default (nmin (y_ a) (y_ b) - nof 28) channelY)
  else None.

Definition preset_message e : string :=
  cat ["Workflow edge "; quoted (workflowEdgeName e); " cannot satisfy route preset "; quoted (route_of e);
       " under readable-v2 constraints (minimum 8px endpoint stubs, 16px interior turns, and 28px direct clearance)."].

Definition readablePresetVia placed (index : nat) e from to start (end_ : point) sides : result (list point) :=
  match preset_via e from to start end_ None None with
  | None => readableAutomaticVia placed index e from to start end_ sides
  | Some via =>
      let points := route_through start end_ via in
      if feasible placed e points from to sides && routeMatchesPresetFamily (route_of e) points from to
      then inr (inner points) else inl (RoutePresetConflict (preset_message e))
  end.

(** ** Sides *)
Definition automatic_route e : bool := negb (hasAbsoluteRoutePins e) && bool_decide (route_of e = "auto").
Definition side_names : list string := ["right"; "bottom"; "left"; "top"].

(** The sides an author has chosen. *)
Definition authored_from e : option string := authored_side (we_fromSide e).
Definition authored_to e : option string := authored_side (we_toSide e).
Definition natural_sides e from to : side_pair :=
  {| sp_fromSide := default (defaultFromSide (mn_box from) (mn_box to)) (authored_from e);
     sp_toSide := default (defaultToSide (mn_box from) (mn_box to)) (authored_to e) |}.
(** All pairs of sides an author allows, in the order of the two loops. *)
Definition all_sides e : list side_pair :=
  let choices (authored : option string) := match authored with Some side => [side] | None => side_names end in
  choices (authored_from e) ≫= λ fromSide,
    map (λ toSide, {| sp_fromSide := fromSide; sp_toSide := toSide |}) (choices (authored_to e)).
Definition allowed_sides e sides : bool :=
  match authored_from e with Some side => bool_decide (sp_fromSide sides = side) | None => true end &&
  match authored_to e with Some side => bool_decide (sp_toSide sides = side) | None => true end.
(** The pairs that are allowed, each once. *)
Definition side_pairs e (preferred : list side_pair) : list side_pair :=
  first_of_each id [] (filter (λ sides, allowed_sides e sides = true) (preferred ++ all_sides e)).

(** ** Fixed-v1 routes *)
Definition sameLaneAutoVia start (end_ : point) : list point :=
  if same_number start.1 end_.1 || same_number start.2 end_.2 then []
  else let midX := (start.1 + end_.1) / nof 2 in [(midX, start.2); (midX, end_.2)].

Definition vertical_end (side : string) : bool := bool_decide (side = "top") || bool_decide (side = "bottom").
Definition oneBendCrossLaneVia e start (end_ : point) sides : option (list point) :=
  let fromVertical := vertical_end (sp_fromSide sides) in
  if bool_decide (fromVertical = vertical_end (sp_toSide sides)) then None
  else
    let corner := if fromVertical then (start.1, end_.2) else (end_.1, start.2) in
    let points := route_through start end_ [corner] in
    if negb (length points =? 3)%nat || negb (routeHonorsEndpointSides points (sp_fromSide sides) (sp_toSide sides)) ||
       negb (forallb (λ s, hypot_of s >=? nof 8) (segments_of points)) ||
       negb (routeClearsUnrelatedNodes w layout e points)
    then None else Some (inner points).

Definition legacyAutomaticOneBendSides e from to : option side_pair :=
  let a := mn_box from in
  let b := mn_box to in
  if bool_decide (is_Some (we_via e)) || negb (bool_decide (route_of e = "auto")) ||
     bool_decide (is_Some (authored_from e)) || bool_decide (is_Some (authored_to e)) ||
     bool_decide (wn_lane (mn_node from) = wn_lane (mn_node to)) ||
     same_number (cx a) (cx b) || same_number (cy a) (cy b) then None
  else
    let above := cy b <? cy a in
    let left_of := cx b <? cx a in
    head (filter (λ sides,
        is_Some (oneBendCrossLaneVia e (anchor a (sp_fromSide sides)) (anchor b (sp_toSide sides)) sides))
      [{| sp_fromSide := if above then "top" else "bottom"; sp_toSide := if left_of then "right" else "left" |};
       {| sp_fromSide := if left_of then "left" else "right"; sp_toSide := if above then "bottom" else "top" |}]).

(** ** Automatic routes *)
Definition sides_plans placed e from to sides (ordinal : nat) : list (route_plan N) :=
  candidate_set placed e from to (anchor (mn_box from) (sp_fromSide sides)) (anchor (mn_box to) (sp_toSide sides))
    sides (Z.of_nat ordinal * 9) (natural_sides e from to).

(** A plan with its sides; the cheapest first. *)
Definition cheapest (plans : list (route_plan N * side_pair)) : list (route_plan N * side_pair) :=
  merge_sort (before (λ p q : route_plan N * side_pair, plan_le p.1 q.1)) plans.

(** [readableAutomaticSides], without the cache. *)
Definition automatic_sides placed e from to : option side_pair :=
  let preferred := match legacyAutomaticOneBendSides e from to with Some sides => [sides] | None => [] end in
  let pairs := side_pairs e (preferred ++ [natural_sides e from to]) in
  let first_plans := match pairs with primary :: _ => sides_plans placed e from to primary 0 | [] => [] end in
  match pairs, first_plans with
  | primary :: _, _ :: _ => Some primary
  | _, _ =>
      snd <$> head (cheapest (concat (imap (λ ordinal sides,
        map (λ p, (p, sides)) (sides_plans placed e from to sides ordinal)) pairs)))
  end.

(** [readableAutomaticSides] *)
Definition readableAutomaticSides (index : nat) e from to st : option side_pair * route_state N :=
  if negb (automatic_route e) || (bool_decide (is_Some (authored_from e)) && bool_decide (is_Some (authored_to e)))
  then (None, st)
  else match rs_sides st !! index with
  | Some sides => (sides, st)
  | None =>
      let sides := automatic_sides (rs_placed st) e from to in
      (sides, {| rs_placed := rs_placed st; rs_sides := <[index := sides]> (rs_sides st) |})
  end.

Definition edgeSides (index : nat) e from to st : side_pair * route_state N :=
  let fallback :=
    {| sp_fromSide := chosenSide (we_fromSide e) (defaultFromSide (mn_box from) (mn_box to));
       sp_toSide := chosenSide (we_toSide e) (defaultToSide (mn_box from) (mn_box to)) |} in
  if readable w then
    match rs_sides st !! index with
    | Some (Some sides) => (sides, st)
    | _ =>
        let '(sides, st) := readableAutomaticSides index e from to st in
        match sides with
        | Some sides => (sides, st)
        | None =>
            if bool_decide (edge_key e ∈ channelLabelEdgeKeys layout) && negb (nonempty (we_fromSide e)) &&
               negb (nonempty (we_toSide e))
            then ({| sp_fromSide := "top"; sp_toSide := "top" |}, st) else (fallback, st)
        end
    end
  else (default fallback (legacyAutomaticOneBendSides e from to), st).

(** The ends of an edge. *)
Definition ends_of e : option (measured_node N * measured_node N) :=
  from ← node_at w layout (we_from e); to ← node_at w layout (we_to e); Some (from, to).

(** The caches after the sides of all ports were chosen. *)
Definition chosen_at_first (index : nat) e st : route_state N :=
  match ends_of e with
  | Some (from, to) => if is_auto (edge_relation index e) then (edgeSides index e from to st).2 else st
  | None => st
  end.
Definition initial_state : route_state N :=
  foldl (λ st ie, chosen_at_first ie.1 ie.2 st) {| rs_placed := []; rs_sides := ∅ |} (imap pair (wf_edges w)).
Definition side_for (r : relation N) (ep : endpoint) : option string :=
  e ← wf_edges w !! rel_ref r;
  '(from, to) ← ends_of e;
  let sides := (edgeSides (rel_ref r) e from to {| rs_placed := []; rs_sides := ∅ |}).1 in
  Some match ep with Source => sp_fromSide sides | Target => sp_toSide sides end.
Definition automaticPorts : gmap nat (ends N) :=
  automaticPortSpread (imap edge_relation (wf_edges w)) (λ id, mn_box <$> node_at w layout id) (nof 16) (nof 14)
    (Some side_for).

(** A pair of sides that is tried: its plans, or the failure of the search. *)
Inductive side_attempt :=
  | Plans (plans : list (route_plan N * side_pair))
  | Failed (failure : route_failure N) (ordinal : nat).

(** The position of the outside-right family among the candidates. *)
Definition outside_right_ordinal : Z := 6.

(** The ends of a candidate: the ports of the first pair of sides, or the anchors. *)
Definition start_of from (ports : option (ends N)) (ordinal : nat) sides : point :=
  default (anchor (mn_box from) (sp_fromSide sides)) (if (ordinal =? 0)%nat then p ← ports; ends_from p else None).
Definition end_of to (ports : option (ends N)) (ordinal : nat) sides : point :=
  default (anchor (mn_box to) (sp_toSide sides)) (if (ordinal =? 0)%nat then p ← ports; ends_to p else None).

(** The body of the loop over the pairs of sides. *)
Definition try_sides placed (index : nat) e from to (ports : option (ends N)) (ordinal : nat) sides : side_attempt :=
  let start := start_of from ports ordinal sides in
  let end_ := end_of to ports ordinal sides in
  match candidate_set placed e from to start end_ sides (Z.of_nat ordinal * 9) (natural_sides e from to) with
  | (_ :: _) as plans => Plans (map (λ p, (p, sides)) plans)
  | [] =>
      match readableAutomaticVia placed index e from to start end_ sides with
      | inl failure => Failed failure ordinal
      | inr via =>
          let points := route_through start end_ via in
          Plans [({| rp_points := points;
                     rp_cost := readableCandidateCost w meta layout placed e from to points
                                  (Z.of_nat ordinal * 9 + outside_right_ordinal) (natural_sides e from to) |}, sides)]
      end
  end.

Definition plans_of (a : side_attempt) : list (route_plan N * side_pair) := match a with Plans plans => plans | _ => [] end.
Definition feedback_of (a : side_attempt) : option (layout_request N * nat) :=
  match a with Failed (WorkflowLayoutFeedback request) ordinal => Some (request, ordinal) | _ => None end.
Definition failure_of (a : side_attempt) : option (route_failure N) :=
  match a with
  | Failed (WorkflowLayoutFeedback _) _ | Plans _ => None
  | Failed failure _ => Some failure
  end.

Definition demand_priority (d : layout_demand N) : Z :=
  match d with RankGapMinimum _ _ _ => 0 | LaneGapMinimum _ => 1 end.
Definition feedback_le (a b : layout_request N * nat) : bool :=
  let pa := demand_priority (lq_demand a.1) in
  let pb := demand_priority (lq_demand b.1) in
  ((pa <? pb) || ((pa =? pb) && (Z.of_nat a.2 <=? Z.of_nat b.2)))%Z.

Definition readableAutomaticRoute placed (index : nat) e from to (primarySides : side_pair)
    (ports : option (ends N)) : result (planned_route N) :=
  let attempts := imap (try_sides placed index e from to ports) (side_pairs e [primarySides]) in
  match cheapest (attempts ≫= plans_of) with
  | (plan, sides) :: _ => inr {| pn_points := rp_points plan; pn_sides := sides |}
  | [] =>
      match merge_sort (before feedback_le) (omap feedback_of attempts) with
      | (request, _) :: _ => inl (WorkflowLayoutFeedback request)
      | [] =>
          if bool_decide (is_Some (authored_from e)) || bool_decide (is_Some (authored_to e))
          then inl (ExplicitPinConflict "readable route feasibility with authored endpoint sides")
          else inl (default NoEnumeration (head (omap failure_of attempts)))
      end
  end.

(** ** Controlled routes *)

(** [routeVia], with [{ validateReadablePreset }]. *)
Definition routeVia placed (index : nat) e from to start (end_ : point) sides (validateReadablePreset : bool)
    : result (list point) :=
  match we_via e with
  | Some via => inr via
  | None =>
      let hasCoordinatePins := bool_decide (is_Some (we_channelX e)) || bool_decide (is_Some (we_channelY e)) in
      if readable w && negb (bool_decide (route_of e = "auto")) && negb hasCoordinatePins && validateReadablePreset
      then readablePresetVia placed index e from to start end_ sides
      else match preset_via e from to start end_ (we_channelX e) (we_channelY e) with
      | Some via => inr via
      | None =>
          if readable w then
            match we_channelX e, we_channelY e with
            | Some x, Some y => inr [(x, start.2); (x, y); (end_.1, y)]
            | Some x, None => inr [(x, start.2); (x, end_.2)]
            | None, Some y => inr [(start.1, y); (end_.1, y)]
            | None, None => readableAutomaticVia placed index e from to start end_ sides
            end
          else if bool_decide (wn_lane (mn_node from) = wn_lane (mn_node to)) then inr (sameLaneAutoVia start end_)
          else match oneBendCrossLaneVia e start end_ sides with
          | Some via => inr via
          | None => let y := lane_gap_y w layout e from to in inr [(start.1, y); (end_.1, y)]
          end
      end
  end.

Definition isReadableControlledRoute e : bool :=
  readable w && (hasAbsoluteRoutePins e || negb (bool_decide (route_of e = "auto"))).

(** [presentChannelPins(edge)] that the route keeps. *)
Definition keeps_channel_pins e ps : bool :=
  match we_channelX e with Some x => routeContainsChannelPin ps true x | None => true end &&
  match we_channelY e with Some y => routeContainsChannelPin ps false y | None => true end.

(** A candidate of a controlled route, with the position of its sides. *)
Record materialized := { mz_points : list point; mz_sides : side_pair; mz_ordinal : nat }.

Definition materialize placed (index : nat) e from to (ordinal : nat) sides : result materialized :=
  let start := anchor (mn_box from) (sp_fromSide sides) in
  let end_ := anchor (mn_box to) (sp_toSide sides) in
  match routeVia placed index e from to start end_ sides false with
  | inl failure => inl failure
  | inr via =>
      let authoredPoints := start :: via ++ [end_] in
      inr {| mz_points := if hasAbsoluteRoutePins e then authoredPoints else normalizeRoutePoints authoredPoints;
             mz_sides := sides; mz_ordinal := ordinal |}
  end.

(** The list of the results, or the first failure. *)
Fixpoint collect {A} (results : list (result A)) : result (list A) :=
  match results with
  | [] => inr []
  | inl failure :: _ => inl failure
  | inr a :: results => match collect results with inl failure => inl failure | inr l => inr (a :: l) end
  end.

Definition controlled_candidate placed e from to (m : materialized) : bool :=
  feasible placed e (mz_points m) from to (mz_sides m) &&
  (bool_decide (route_of e = "auto") || routeMatchesPresetFamily (route_of e) (mz_points m) from to) &&
  keeps_channel_pins e (mz_points m).
Definition controlled_plan placed e from to (m : materialized) : route_plan N * side_pair :=
  ({| rp_points := mz_points m;
      rp_cost := readableCandidateCost w meta layout placed e from to (mz_points m) (Z.of_nat (mz_ordinal m))
                   (natural_sides e from to) |}, mz_sides m).
(** A candidate that is fit to be diagnosed. *)
Definition diagnosable (m : materialized) : bool :=
  (2 <=? length (mz_points m))%nat && forallb finite_point (mz_points m) &&
  routeHonorsEndpointSides (mz_points m) (sp_fromSide (mz_sides m)) (sp_toSide (mz_sides m)).
Definition planned_of (m : materialized) : planned_route N := {| pn_points := mz_points m; pn_sides := mz_sides m |}.

Definition readableControlledRoute placed (index : nat) e from to : result (option (planned_route N)) :=
  match collect (imap (materialize placed index e from to) (side_pairs e [natural_sides e from to])) with
  | inl failure => inl failure
  | inr materials =>
      match cheapest (map (controlled_plan placed e from to)
              (filter (λ m, controlled_candidate placed e from to m = true) materials)) with
      | (plan, sides) :: _ => inr (Some {| pn_points := rp_points plan; pn_sides := sides |})
      | [] =>
          if hasAbsoluteRoutePins e then
            inr (planned_of <$> match head (filter (λ m, diagnosable m = true) materials) with
                                | Some m => Some m
                                | None => head materials
                                end)
          else match materials with
          | [] => inr None
          | fallback :: _ =>
              let start := default (nof 0, nof 0) (head (mz_points fallback)) in
              let end_ := default (nof 0, nof 0) (last (mz_points fallback)) in
              match readablePresetVia placed index e from to start end_ (mz_sides fallback) with
              | inl failure => inl failure
              | inr via => inr (Some {| pn_points := route_through start end_ via; pn_sides := mz_sides fallback |})
              end
          end
      end
  end.

(** ** [pathFor] *)
Definition place_route (index : nat) e ps st : route_state N :=
  {| rs_placed := rs_placed st ++ [{| pr_index := index; pr_edge := e; pr_points := ps |}]; rs_sides := rs_sides st |}.
Definition place_planned (index : nat) e (planned : planned_route N) st : route_state N :=
  place_route index e (pn_points planned)
    {| rs_placed := rs_placed st; rs_sides := <[index := Some (pn_sides planned)]> (rs_sides st) |}.

(** The route of an edge that is not controlled. *)
Definition uncontrolled_path (index : nat) e from to st : result (route_state N) :=
  let ports := automaticPorts !! index in
  let '(sides, st) := edgeSides index e from to st in
  if readable w && automatic_route e then
    match readableAutomaticRoute (rs_placed st) index e from to sides ports with
    | inl failure => inl failure
    | inr planned => inr (place_planned index e planned st)
    end
  else
    let start := default (anchor (mn_box from) (sp_fromSide sides)) (p ← ports; ends_from p) in
    let end_ := default (anchor (mn_box to) (sp_toSide sides)) (p ← ports; ends_to p) in
    match routeVia (rs_placed st) index e from to start end_ sides true with
    | inl failure => inl failure
    | inr via =>
        let authoredPoints := start :: via ++ [end_] in
        let points := if readable w && negb (hasAbsoluteRoutePins e) then normalizeRoutePoints authoredPoints
                      else authoredPoints in
        inr (place_route index e points st)
    end.

(** The caches after the route of an edge between measured nodes is asked for. *)
Definition path_for (index : nat) e from to st : result (route_state N) :=
  if existsb (λ r, (pr_index r =? index)%nat) (rs_placed st) then inr st
  else if isReadableControlledRoute e then
    match readableControlledRoute (rs_placed st) index e from to with
    | inl failure => inl failure
    | inr (Some planned) => inr (place_planned index e planned st)
    | inr None => uncontrolled_path index e from to st
    end
  else uncontrolled_path index e from to st.

(** The edges are routed in their order. *)
Definition route_edge (r : result (route_state N)) (ie : nat * wedge N) : result (route_state N) :=
  match r with
  | inl failure => inl failure
  | inr st => match ends_of ie.2 with
              | Some (from, to) => path_for ie.1 ie.2 from to st
              | None => inr st
              end
  end.
Definition route_workflow : result (route_state N) :=
  foldl route_edge (inr initial_state) (imap pair (wf_edges w)).
End Search.
