(* ===== verification/ColumnSolver.v ===== *)
(** * The columns are the least solution
      ([src/.agents/skills/archify/renderers/workflow/workflow-compiler.mjs], [createReadableLayout])

    The columns of the readable layout satisfy every constraint up to the
    tolerance of the source; before the shifts no assignment that satisfies the
    constraints puts a column further left, and each shift moves all columns
    together by the least distance that makes the room it is for.
    Over the rationals. *)

From Stdlib Require Import QArith Qminmax Lqa.
From stdpp Require Import sorting.
From S2P Require Import Prelude Num Geometry Analyses TextFit Workflow ReadableLayout.
#[local] Open Scope Z_scope.

Implicit Types (p : placed Q) (c : constraint Q).

#[local] Notation column p i := (column_at (pl_cols p) i).

(** A column of the layout. *)
Definition in_columns (i : Z) : Prop := 0 ≤ i < 6.
Definition six p : Prop := length (pl_cols p) = 6%nat.

Lemma column_insert (cols : list Q) (to i : Z) (x : Q) : 0 ≤ to < Z.of_nat (length cols) → 0 ≤ i →
  column_at (<[Z.to_nat to := x]> cols) i = if bool_decide (i = to) then x else column_at cols i.
Proof.
  intros Hto Hi. unfold column_at. case_bool_decide as E.
  - subst. by rewrite list_lookup_insert_eq by lia.
  - by rewrite list_lookup_insert_ne by lia.
Qed.

Lemma column_map (f : Q → Q) p i : six p → in_columns i →
  column_at (map f (pl_cols p)) i = f (column p i).
Proof.
  unfold six, in_columns, column_at. intros Hl Hi. rewrite list_lookup_fmap.
  destruct (pl_cols p !! Z.to_nat i) eqn:E; [done|]. apply lookup_ge_None in E. lia.
Qed.

Lemma initial_column i : in_columns i → column (@initial_placed Q _) i = baseline_column i.
Proof.
  unfold in_columns, initial_placed, column_at, columnCount. intros Hi. cbn [pl_cols].
  rewrite list_lookup_fmap, lookup_seqZ_lt, Z2Nat.id by lia. reflexivity.
Qed.

Section Pass.
#[local] Open Scope Q_scope.
Context (to : Z) (Hto : in_columns to).

(** One constraint on the column [to]. *)
Record pass_step p p' c : Prop := {
  ps_six : six p';
  ps_others : ∀ i, (0 <= i)%Z → i ≠ to → column p' i = column p i;
  ps_grows : column p to <= column p' to;
  ps_satisfies : ct_to c = to → column p (ct_from c) + ct_minimum c <= column p' to + epsilon;
  ps_least : ∀ x, column p to <= x → (ct_to c = to → column p (ct_from c) + ct_minimum c <= x) → column p' to <= x
}.

Lemma apply_constraint_step p c : six p → pass_step p (apply_constraint to p c) c.
Proof using Hto.
  intros Hl. unfold apply_constraint. unfold six, in_columns in *.
  destruct (Z.eqb_spec (ct_to c) to) as [E|E]; cbn [negb].
  2: { split; try done; intros; lra. }
  set (current := column p to). set (candidate := (column p (ct_from c) + ct_minimum c)%js).
  assert (Hc : column p (ct_from c) + ct_minimum c == candidate) by reflexivity.
  assert (He : 0 < epsilon) by (rewrite epsilon_Q; lra).
  destruct (nlt _ candidate) eqn:Hlt; q_tests; q_ops.
  - assert (Hat : ∀ i, (0 <= i)%Z → column_at (<[Z.to_nat to:=candidate]> (pl_cols p)) i =
      if bool_decide (i = to) then candidate else column p i) by (intros; apply column_insert; lia).
    split; cbn [pl_cols]; [by unfold six; cbn [pl_cols]; rewrite length_insert|..].
    + intros i Hi Hne. by rewrite Hat, bool_decide_false.
    + rewrite Hat, bool_decide_true by (done || lia). fold current. lra.
    + rewrite Hat, bool_decide_true by (done || lia). lra.
    + intros x _ Hx. rewrite Hat, bool_decide_true by (done || lia). specialize (Hx E). lra.
  - assert (Hkeep : pass_step p p c) by (split; try done; intros; fold current; lra).
    destruct (_ && _); [|exact Hkeep]. destruct Hkeep. split; done.
Qed.

Record pass_result p p' (l : list (constraint Q)) : Prop := {
  pr_six : six p';
  pr_others : ∀ i, (0 <= i)%Z → i ≠ to → column p' i = column p i;
  pr_grows : column p to <= column p' to;
  pr_satisfies : ∀ c, c ∈ l → ct_to c = to → column p (ct_from c) + ct_minimum c <= column p' to + epsilon;
  pr_least : ∀ x, column p to <= x →
    (∀ c, c ∈ l → ct_to c = to → column p (ct_from c) + ct_minimum c <= x) → column p' to <= x
}.

Lemma pass_spec l p : six p → (∀ c, c ∈ l → (0 <= ct_from c < ct_to c)%Z) →
  pass_result p (foldl (apply_constraint to) p l) l.
Proof using Hto.
  revert p. induction l as [|c l IH]; intros p Hl Hvalid.
  { split; try done; cbn; try lra. by intros c ?%elem_of_nil. }
  cbn [foldl]. destruct (apply_constraint_step p c Hl) as [S1 S2 S3 S4 S5].
  set (q := apply_constraint to p c) in *.
  destruct (IH q S1) as [P1 P2 P3 P4 P5]; [intros d Hd; apply Hvalid; by right|].
  set (r := foldl _ q l) in *. assert (Hfrom : ∀ d, d ∈ c :: l → ct_to d = to → column q (ct_from d) = column p (ct_from d)).
  { intros d Hd E. apply Hvalid in Hd. apply S2; lia. }
  split; [done|..].
  - intros i Hi Hne. rewrite P2, S2; done.
  - lra.
  - intros d Hd E. pose proof (Hfrom d Hd E) as Hf. apply elem_of_cons in Hd as [->|Hd].
    + specialize (S4 E). lra.
    + rewrite <-Hf. auto.
  - intros x Hx Hall. apply P5.
    + apply S5; [done|]. intros E. apply Hall; [by left|done].
    + intros d Hd E. rewrite Hfrom by (done || by right). apply Hall; [by right|done].
Qed.
End Pass.

(** ** The loop over the columns *)
Section Solve.
#[local] Open Scope Q_scope.

(** An assignment of columns at or after the baseline that satisfies the constraints. *)
Record satisfies (l : list (constraint Q)) (x : Z → Q) : Prop := {
  sat_baseline : ∀ i, in_columns i → baseline_column i <= x i;
  sat_constraint : ∀ c, c ∈ l → valid_constraint c = true → x (ct_from c) + ct_minimum c <= x (ct_to c)
}.

Lemma valid_range c : valid_constraint c = true → (0 <= ct_from c < ct_to c ∧ ct_to c < 6)%Z.
Proof. unfold valid_constraint, columnCount. rewrite !andb_true_iff. lia. Qed.

(** What holds when the columns under [k] have been processed. *)
Record solved_to (l : list (constraint Q)) (k : Z) p : Prop := {
  so_six : six p;
  so_baseline : ∀ i, in_columns i → baseline_column i <= column p i;
  so_satisfies : ∀ c, c ∈ l → (ct_to c < k)%Z → column p (ct_from c) + ct_minimum c <= column p (ct_to c) + epsilon;
  so_least : ∀ x, satisfies l x → ∀ i, in_columns i → column p i <= x i
}.

Lemma solve_step l k p : (∀ c, c ∈ l → valid_constraint c = true) → in_columns k →
  solved_to l k p → solved_to l (k + 1) (foldl (apply_constraint k) p l).
Proof.
  intros Hv Hk [S1 S2 S3 S4].
  destruct (pass_spec k Hk l p S1) as [P1 P2 P3 P4 P5]; [intros c Hc; by apply valid_range, Hv|].
  set (q := foldl _ p l) in *. split; [done|..].
  - intros i Hi. destruct (decide (i = k)) as [->|Hne]; [specialize (S2 k Hi); lra|].
    rewrite P2 by (unfold in_columns in Hi; lia || done). auto.
  - intros c Hc Hto. pose proof (valid_range c (Hv c Hc)) as [Hr _]. rewrite (P2 (ct_from c)) by lia.
    destruct (decide (ct_to c = k)) as [E|Hne]; [rewrite E; auto|]. rewrite (P2 (ct_to c)) by lia. apply S3; [done|lia].
  - intros x Hx i Hi. destruct (decide (i = k)) as [->|Hne].
    + apply P5; [auto|]. intros c Hc E. pose proof (sat_constraint _ _ Hx c Hc (Hv c Hc)) as Hs. rewrite E in Hs.
      pose proof (valid_range c (Hv c Hc)). assert (column p (ct_from c) <= x (ct_from c)); [|lra].
      apply S4; [done|unfold in_columns; lia].
    + rewrite P2 by (unfold in_columns in Hi; lia || done). auto.
Qed.

Lemma elem_of_ordered (active : list (constraint Q)) c :
  c ∈ ordered_constraints active ↔ c ∈ active ∧ valid_constraint c = true.
Proof. unfold ordered_constraints. rewrite merge_sort_Permutation, list_elem_of_filter. tauto. Qed.

Lemma initial_solved l : (∀ c, c ∈ l → valid_constraint c = true) → solved_to l 1 initial_placed.
Proof.
  intros Hv. split; [reflexivity|..].
  - intros i Hi. rewrite initial_column by done. lra.
  - intros c Hc Hto. apply Hv, valid_range in Hc. lia.
  - intros x Hx i Hi. rewrite initial_column by done. by apply Hx.
Qed.

Lemma solve_prefix l n : (∀ c, c ∈ l → valid_constraint c = true) → (n <= 5)%nat →
  solved_to l (1 + Z.of_nat n) (foldl (λ p to, foldl (apply_constraint to) p l) initial_placed (seqZ 1 (Z.of_nat n))).
Proof.
  intros Hv. induction n as [|n IH]; intros Hn; [by apply initial_solved|].
  replace (Z.of_nat (S n)) with (Z.of_nat n + 1)%Z by lia. rewrite seqZ_app by lia.
  cbn [seqZ]. rewrite foldl_app. change (seqZ (1 + Z.of_nat n) 1) with [(0 + (1 + Z.of_nat n))%Z].
  cbn [foldl]. replace (0 + (1 + Z.of_nat n))%Z with (1 + Z.of_nat n)%Z by lia.
  rewrite Z.add_assoc. apply solve_step; [done|unfold in_columns; lia|]. apply IH. lia.
Qed.

(** The columns satisfy the constraints, up to the tolerance, and are the least. *)
Record least_columns (active : list (constraint Q)) p : Prop := {
  lc_six : six p;
  lc_baseline : ∀ i, in_columns i → baseline_column i <= column p i;
  lc_satisfies : ∀ c, c ∈ active → valid_constraint c = true →
    column p (ct_from c) + ct_minimum c <= column p (ct_to c) + epsilon;
  lc_least : ∀ x, satisfies active x → ∀ i, in_columns i → column p i <= x i
}.

Lemma solve_columns_least (active : list (constraint Q)) : least_columns active (solve_columns active).
Proof.
  assert (Hv : ∀ c, c ∈ ordered_constraints active → valid_constraint c = true) by (intros c; rewrite elem_of_ordered; tauto).
  destruct (solve_prefix (ordered_constraints active) 5 Hv) as [S1 S2 S3 S4]; [lia|].
  change (foldl _ initial_placed _) with (solve_columns active) in *.
  split; [done|done|..].
  - intros c Hc Hval. apply S3; [by apply elem_of_ordered|]. apply valid_range in Hval. lia.
  - intros x [Hb Hx]. apply S4. split; [done|]. intros c [Hc _]%elem_of_ordered. auto.
Qed.

(** The rounds: the constraints of labels are all there at the end. *)
Lemma layout_rounds_eq (active feedback : list (constraint Q)) p :
  layout_rounds maxLayoutIterations 0 active feedback p = solve_columns (active ++ feedback).
Proof.
  unfold maxLayoutIterations. cbn [layout_rounds Nat.ltb Nat.leb orb].
  case_bool_decide as E; [|done]. apply nil_length_inv in E as ->. by rewrite app_nil_r.
Qed.
End Solve.

(** ** Shifts *)
Section Shifts.
#[local] Open Scope Q_scope.

(** The columns move together, to the right. *)
Definition shifted p p' : Prop :=
  six p → six p' ∧ ∃ d, 0 <= d ∧ ∀ i, in_columns i → column p' i == column p i + d.

#[export] Instance shifted_preorder : PreOrder shifted.
Proof.
  split.
  - intros p Hl. split; [done|]. exists 0. split; [lra|]. intros. lra.
  - intros p q r Hpq Hqr Hl. destruct (Hpq Hl) as (Hq&d&Hd&Hc). destruct (Hqr Hq) as (Hr&d'&Hd'&Hc').
    split; [done|]. exists (d + d'). split; [lra|]. intros i Hi. rewrite Hc', Hc by done. lra.
Qed.

Lemma shift_columns_shifted (d : Q) p : 0 <= d → shifted p (shift_columns d p).
Proof.
  intros Hd Hl. split; [by unfold six, shift_columns; cbn; rewrite length_map|]. exists d. split; [done|].
  intros i Hi. unfold shift_columns. cbn [pl_cols]. by rewrite column_map.
Qed.
Lemma contribute_shifted contributors p : shifted p (contribute contributors p).
Proof. intros Hl. split; [done|]. exists 0. split; [lra|]. intros. unfold contribute. cbn. lra. Qed.

Context (w : workflow Q).

Lemma shift_first_rank_shifted p : shifted p (shift_first_rank w p).
Proof.
  unfold shift_first_rank. destruct (negb _); [reflexivity|]. etrans; [|apply contribute_shifted].
  apply shift_columns_shifted. destruct (Q_nmax_cases (nof 0) (nof 40 + nof 8 + firstExtent w - column p 0)%js)
    as [[? ->]|[? ->]]; q_ops; lra.
Qed.

Lemma shift_lane_headers_shifted p : shifted p (shift_lane_headers w p).
Proof.
  unfold shift_lane_headers. destruct (foldl _ _ _) as [d contributors]. destruct (nlt _ d) eqn:Hd; [|reflexivity].
  q_tests. q_ops. etrans; [|apply contribute_shifted]. apply shift_columns_shifted. lra.
Qed.

Lemma shift_content_shifted keys p : shifted p (shift_content w keys p).
Proof.
  unfold shift_content. destruct (nlt _ _) eqn:Hd; [|reflexivity]. q_tests. q_ops. apply shift_columns_shifted. lra.
Qed.

(** All that the layout asks of the columns. *)
Definition column_demands (feedback : layout_feedback Q) : list (constraint Q) :=
  layout_constraints w feedback ++ label_constraints w.

Lemma placed_columns_shifted feedback :
  ∃ p, least_columns (column_demands feedback) p ∧ shifted p (placed_columns w feedback).
Proof.
  unfold placed_columns. rewrite layout_rounds_eq.
  exists (solve_columns (layout_constraints w feedback ++ label_constraints w)). split; [apply solve_columns_least|].
  etrans; [apply shift_first_rank_shifted|]. etrans; [apply shift_lane_headers_shifted|]. apply shift_content_shifted.
Qed.
End Shifts.

(** ** How far the columns are moved *)
Section Room.
#[local] Open Scope Q_scope.

(** [d] is the least distance, up to [slack], that gives everything in [needs]
    its room at the left: nothing, or exactly what one of them asks. *)
Record least_room (slack : Q) (needs : Q → Prop) (d : Q) : Prop := {
  lr_nonneg : 0 <= d;
  lr_tight : d == 0 ∨ ∃ r, needs r ∧ d == r;
  lr_enough : ∀ r, needs r → r <= d + slack
}.

(** A running maximum of needs takes [needs] into account. *)
Definition room_step (slack : Q) (needs : Q → Prop) (m m' : Q) : Prop :=
  m <= m' ∧ (m' = m ∨ needs m') ∧ ∀ r, needs r → r <= m' + slack.

Lemma least_room_step slack needs needs' m m' : least_room slack needs m → room_step slack needs' m m' →
  least_room slack (λ r, needs r ∨ needs' r) m'.
Proof.
  intros [H1 H2 H3] (Hm&Hstep&Hn). split; [lra|..].
  - destruct Hstep as [->|Hneed]; [|right; exists m'; split; [by right|reflexivity]].
    destruct H2 as [?|(r&?&?)]; [by left|right; exists r; split; [by left|done]].
  - intros r [Hr|Hr]; [|auto]. specialize (H3 r Hr). lra.
Qed.

Lemma least_room_iff slack (needs needs' : Q → Prop) d :
  (∀ r, needs r ↔ needs' r) → least_room slack needs d → least_room slack needs' d.
Proof.
  intros Heq [H1 H2 H3]. split; [done|..].
  - destruct H2 as [?|(r&?&?)]; [by left|right; exists r; by rewrite <-Heq].
  - intros r Hr. apply H3. by apply Heq.
Qed.

Lemma least_room_fold {A S} (value : S → Q) (step : S → A → S) slack (P : A → Q → Prop) (l : list A) :
  (∀ st a, room_step slack (P a) (value st) (value (step st a))) →
  ∀ needs st, least_room slack needs (value st) →
    least_room slack (λ r, needs r ∨ ∃ a, a ∈ l ∧ P a r) (value (foldl step st l)).
Proof.
  intros Hstep. induction l as [|a l IH]; intros needs st Hst; cbn [foldl].
  - eapply least_room_iff; [|exact Hst]. intros r. split; [by left|].
    intros [?|(a&Hin&_)]; [done|by apply not_elem_of_nil in Hin].
  - pose proof (IH _ _ (least_room_step _ _ _ _ _ Hst (Hstep st a))) as H.
    eapply least_room_iff; [|exact H]. intros r. setoid_rewrite elem_of_cons. naive_solver.
Qed.

Lemma no_room slack : least_room slack (λ _, False) 0.
Proof. split; [lra|by left|done]. Qed.

(** The step of a maximum. *)
Lemma room_max slack (needs : Q → Prop) (m v : Q) : 0 <= slack → needs v → (∀ r, needs r → r == v) →
  room_step slack needs m (nmax m v).
Proof.
  intros Hs Hv Hr. unfold room_step. destruct (Q_nmax_cases m v) as [[H ->]|[H ->]];
    (split; [q_ops; lra|split; [by auto|intros r Hn; rewrite (Hr r Hn); q_ops; lra]]).
Qed.

Lemma room_none slack (needs : Q → Prop) (m : Q) : (∀ r, ¬ needs r) → room_step slack needs m m.
Proof. intros Hn. split; [lra|]. split; [by left|]. intros r Hr. by destruct (Hn r). Qed.

Context (w : workflow Q).

(** The widest node of the first column stays 8 pixels inside the lanes, that
    begin at 40. *)
Definition first_rank_need (cols : list Q) (r : Q) : Prop := r == 48 + firstExtent w - column_at cols 0.

(** A node with an unpinned top port stays clear of the header of its lane. *)
Definition header_need (cols : list Q) (nodeId : string) (r : Q) : Prop :=
  ∃ n position l, nodesById w !! nodeId = Some n ∧ in_columns (wn_col n) ∧
    laneOrder (wf_lanes w) !! wn_lane n = Some position ∧ wf_lanes w !! Z.to_nat position = Some l ∧
    r == header_clearance w l (Z.to_nat position) - column_at cols (wn_col n).

(** Labels in channels and phases begin at 16 or later, groups at 44. *)
Definition label_need (cols : list Q) (e : wedge Q) (r : Q) : Prop :=
  edge_key e ∈ channel_keys w ∧
  ∃ from to, nodesById w !! we_from e = Some from ∧ nodesById w !! we_to e = Some to ∧
    r == 16 - ((column_at cols (wn_col from) + column_at cols (wn_col to)) / 2 - workflowLabelWidth (label_text e) / 2).
Definition phase_need (cols : list Q) (ph : phase) (r : Q) : Prop := r == 16 - phase_left cols ph.
Definition group_need (cols : list Q) (g : group) (r : Q) : Prop := r == 44 - bd_x (readableGroupBounds w g cols).

Definition header_needs (cols : list Q) (r : Q) : Prop :=
  ∃ id, id ∈ unpinnedTopEndpointIds w ∧ header_need cols id r.
Definition content_needs (cols : list Q) (r : Q) : Prop :=
  (∃ e, e ∈ wf_edges w ∧ label_need cols e r) ∨ (∃ ph, ph ∈ asArray (wf_phases w) ∧ phase_need cols ph r) ∨
  (∃ g, g ∈ asArray (wf_groups w) ∧ group_need cols g r).

(** The columns [p'] are those of [p], moved by the least distance. *)
Definition moved (slack : Q) (needs : Q → Prop) p p' : Prop :=
  ∃ d, least_room slack needs d ∧ ∀ i, in_columns i → column p' i == column p i + d.

Lemma first_rank_moved p : six p → moved 0 (first_rank_need (pl_cols p)) p (shift_first_rank w p).
Proof.
  intros Hl. unfold shift_first_rank. set (v := (nof 40 + nof 8 + firstExtent w - column p 0)%js).
  assert (Hv : v == 48 + firstExtent w - column p 0) by (unfold v; q_ops; ring).
  assert (Hroom : least_room 0 (first_rank_need (pl_cols p)) (nmax (nof 0) v)).
  { apply (least_room_iff 0 (λ r, False ∨ first_rank_need (pl_cols p) r)); [tauto|].
    apply (least_room_step 0 _ _ 0); [apply no_room|].
    apply room_max; [lra|exact Hv|]. unfold first_rank_need. intros r Hr. lra. }
  exists (nmax (nof 0) v). split; [done|]. intros i Hi.
  unfold truthy_number. cbn [nan Q_num negb andb].
  set (d := nmax (nof 0) v) in *. destruct (nle d (nof 0) && nle (nof 0) d) eqn:Ht; cbn [negb].
  - apply andb_true_iff in Ht as [Hd1 Hd2]. q_tests. q_ops. lra.
  - cbn [contribute shift_columns pl_cols]. by rewrite column_map.
Qed.

Lemma header_step_room (cols : list Q) (st : Q * list string) nodeId :
  room_step epsilon (header_need cols nodeId) st.1 (header_step w cols st nodeId).1.
Proof.
  unfold header_step. destruct (nodesById w !! nodeId) as [n|] eqn:Hn;
    [|apply room_none; intros r (?&?&?&?&_); congruence].
  cbn [option_bind mbind]. destruct (_ && _)%Z eqn:Hc; cbn [negb default];
    [|apply room_none; intros r (?&?&?&E&[? ?]&_); rewrite Hn in E; simplify_eq; unfold columnCount in Hc; lia].
  destruct (laneOrder _ !! _) as [position|] eqn:Hp; cbn [option_bind mbind default];
    [|apply room_none; intros r (?&?&?&?&_&?&_); congruence].
  destruct (wf_lanes w !! _) as [l|] eqn:Hl; cbn [option_bind mbind default];
    [|apply room_none; intros r (?&?&?&?&_&?&?&_); congruence].
  set (v := (header_clearance w l _ - _)%js).
  assert (Hneed : header_need cols nodeId v).
  { exists n, position, l. split_and!; try done; unfold in_columns, columnCount in *; lia. }
  assert (Honly : ∀ r, header_need cols nodeId r → r == v).
  { intros r (n'&position'&l'&E1&_&E2&E3&Hr). by simplify_eq. }
  assert (He : 0 < epsilon) by (rewrite epsilon_Q; lra).
  destruct (nlt _ v) eqn:Hlt; q_tests; q_ops; cbn [default id fst].
  - split; [lra|]. split; [by right|]. intros r Hr%Honly. lra.
  - assert (Hkeep : room_step epsilon (header_need cols nodeId) st.1 st.1).
    { split; [lra|]. split; [by left|]. intros r Hr%Honly. lra. }
    case_match; exact Hkeep.
Qed.

Lemma lane_headers_moved p : six p → moved epsilon (header_needs (pl_cols p)) p (shift_lane_headers w p).
Proof.
  intros Hl. unfold shift_lane_headers.
  assert (Hroom : least_room epsilon (header_needs (pl_cols p))
    (foldl (header_step w (pl_cols p)) (nof 0, []) (unpinnedTopEndpointIds w)).1).
  { eapply least_room_iff; [|apply (least_room_fold fst _ epsilon (header_need (pl_cols p)) _
      (header_step_room (pl_cols p)) (λ _, False)); exact (no_room epsilon)].
    unfold header_needs. intros r. by split; [intros [[]|?]|right]. }
  destruct (foldl _ _ _) as [d contributors]. cbn [fst] in Hroom. exists d. split; [done|]. intros i Hi.
  destruct Hroom as [H0 _ _]. destruct (nlt _ d) eqn:Hd; q_tests; q_ops; [|lra].
  cbn [contribute shift_columns pl_cols]. by rewrite column_map.
Qed.

Lemma measured_room (cols : list Q) :
  least_room 0 (content_needs cols) (measuredContentLeftShift w (channel_keys w) cols).
Proof.
  unfold measuredContentLeftShift. eapply least_room_iff; [|apply (least_room_fold id _ 0 (group_need cols))].
  2: { intros m g. apply room_max; [lra|unfold group_need; q_ops; reflexivity|intros r Hr; exact Hr]. }
  2: { apply (least_room_fold id _ 0 (phase_need cols)).
    { intros m ph. apply room_max; [lra|unfold phase_need; q_ops; reflexivity|intros r Hr; exact Hr]. }
    apply (least_room_fold id _ 0 (label_need cols) _ ); [|apply no_room].
    intros m e. unfold channel_label_shift, id, label_need. case_bool_decide as Hk; cbn [negb];
      [|apply room_none; intros r (?&_); done].
    destruct (nodesById w !! we_from e) as [from|] eqn:Hf; [|apply room_none; by intros r (_&?&?&?&_)].
    destruct (nodesById w !! we_to e) as [to|] eqn:Ht; [|apply room_none; by intros r (_&?&?&_&?&_)].
    apply room_max; [lra|split; [done|]; exists from, to; split_and!; [done..|q_ops; reflexivity]|].
    intros r (_&from'&to'&E1&E2&Hr). simplify_eq. exact Hr. }
  intros r. unfold content_needs. tauto.
Qed.

Lemma content_moved p : six p → moved 0 (content_needs (pl_cols p)) p (shift_content w (channel_keys w) p).
Proof.
  intros Hl. unfold shift_content. pose proof (measured_room (pl_cols p)) as Hroom.
  set (d := measuredContentLeftShift _ _ _) in *. clearbody d. exists d. split; [done|]. intros i Hi.
  destruct Hroom as [H0 _ _]. destruct (nlt _ d) eqn:Hd; q_tests; q_ops; [|lra].
  cbn [shift_columns pl_cols]. by rewrite column_map.
Qed.
End Room.

Section Columns.
#[local] Open Scope Q_scope.

(** C36: The columns of the readable layout are the least solution of what nodes,
    edges, labels, phases, groups and routing ask, moved to the right together,
    three times, each time by the least distance that makes room at the left:
    for the widest node of the first column, for the headers of the lanes of
    nodes with an unpinned top port (up to the tolerance of the source), and for
    labels in channels, phases and groups.  So every constraint holds up to the
    tolerance, and before the moves no assignment at or after the baseline that
    satisfies the constraints puts a column further left. *)
Theorem readable_columns_least (w : workflow Q) (feedback : layout_feedback Q) :
  let x := column_at (colXs (createReadableLayout w feedback)) in
  (∀ c, c ∈ column_demands w feedback → valid_constraint c = true →
    x (ct_from c) + ct_minimum c <= x (ct_to c) + epsilon) ∧
  ∃ solved first cleared : placed Q, least_columns (column_demands w feedback) solved ∧
    moved 0 (first_rank_need w (pl_cols solved)) solved first ∧
    moved epsilon (header_needs w (pl_cols first)) first cleared ∧
    ∃ d, least_room 0 (content_needs w (pl_cols cleared)) d ∧
      ∀ i, in_columns i → x i == column cleared i + d.
Proof.
  cbn [colXs createReadableLayout]. unfold placed_columns. rewrite layout_rounds_eq.
  set (solved := solve_columns _). pose proof (solve_columns_least (column_demands w feedback)) as Hsolved.
  change (solve_columns (column_demands w feedback)) with solved in Hsolved.
  pose proof (lc_six _ _ Hsolved) as H6. destruct (shift_first_rank_shifted w solved H6) as [H6' _].
  destruct (shift_lane_headers_shifted w _ H6') as [H6'' _].
  assert (Hsh : shifted solved (shift_content w (channel_keys w) (shift_lane_headers w (shift_first_rank w solved))))
    by (etrans; [apply shift_first_rank_shifted|]; etrans; [apply shift_lane_headers_shifted|apply shift_content_shifted]).
  split.
  - destruct (Hsh H6) as (_&d&_&Hc). intros c Hin Hv. pose proof (valid_range c Hv).
    rewrite !Hc by (unfold in_columns; lia). pose proof (lc_satisfies _ _ Hsolved c Hin Hv). lra.
  - exists solved, (shift_first_rank w solved), (shift_lane_headers w (shift_first_rank w solved)).
    split; [done|]. split; [by apply first_rank_moved|]. split; [by apply lane_headers_moved|].
    destruct (content_moved w _ H6'') as (d&Hd&Hc). by exists d.
Qed.
End Columns.
