(* ===== verification/LayoutSpec.v ===== *)
(** * What the readable layout guarantees
      ([src/.agents/skills/archify/renderers/workflow/workflow-compiler.mjs])

    In a document that conforms to the schema, nodes of different columns, rows
    or lanes do not come closer than the clearance the validation asks for, up to
    the tolerance of the layout; nodes stay inside their lanes, lanes do not
    overlap, and the frame of a group stays inside its lane, contains its nodes
    and keeps its label off them.  Over the rationals. *)

From Stdlib Require Import QArith Qminmax Qround Lqa.
From stdpp Require Import gmap.
From S2P Require Import Prelude Num Geometry Routes Analyses Ports TextFit Workflow ReadableLayout LaneGeometry ColumnSolver.
#[local] Open Scope Z_scope.

(** What the schema and the check of identifiers ensure. *)
Record conforming (w : workflow Q) : Prop := {
  cf_lanes : NoDup (map ln_id (wf_lanes w));
  cf_lane : ∀ n, n ∈ wf_nodes w → wn_lane n ∈ map ln_id (wf_lanes w);
  cf_column : ∀ n, n ∈ wf_nodes w → in_columns (wn_col n);
  cf_width : ∀ n x, n ∈ wf_nodes w → wn_width n = Some x → (32 <= x)%Q;
  cf_height : ∀ n x, n ∈ wf_nodes w → wn_height n = Some x → (32 <= x)%Q
}.

(** ** Lanes by identifier *)
Lemma lane_position (w : workflow Q) id : NoDup (map ln_id (wf_lanes w)) → id ∈ map ln_id (wf_lanes w) →
  ∃ i l, laneIndex w id = Some i ∧ wf_lanes w !! i = Some l ∧ ln_id l = id.
Proof.
  intros Hnd (l&->&[i Hi]%list_elem_of_lookup)%list_elem_of_fmap. exists i, l. split; [|done].
  unfold laneIndex, laneOrder, last_wins. rewrite (elem_of_list_to_map_1 _ _ (Z.of_nat i)).
  - cbn. by rewrite Nat2Z.id.
  - rewrite reverse_Permutation, fmap_imap. erewrite imap_ext; [by rewrite imap_const|done].
  - rewrite elem_of_reverse. apply elem_of_imap. eauto.
Qed.

Section Extents.
#[local] Open Scope Q_scope.

(** A fold whose steps do not decrease a measure, and one step that reaches [m]. *)
Lemma fold_grows {A S} (value : S → Q) (step : S → A → S) l st :
  (∀ st a, value st <= value (step st a)) → value st <= value (foldl step st l).
Proof.
  intros Hgrow. revert st. induction l as [|a l IH]; intros st; cbn [foldl]; [lra|].
  specialize (IH (step st a)). specialize (Hgrow st a). lra.
Qed.
Lemma fold_reaches {A S} (value : S → Q) (step : S → A → S) l st a m :
  (∀ st a, value st <= value (step st a)) → a ∈ l → (∀ st, m <= value (step st a)) → m <= value (foldl step st l).
Proof.
  intros Hgrow [k [l' ->]]%list_elem_of_split Hm. rewrite foldl_app. cbn [foldl].
  pose proof (fold_grows value step l' (step (foldl step st k) a) Hgrow). specialize (Hm (foldl step st k)). lra.
Qed.

Lemma extend_spec st (extent : Q) contributors :
  st.1 <= (extend_extent st extent contributors).1 ∧ extent - epsilon <= (extend_extent st extent contributors).1.
Proof.
  assert (0 < epsilon) by (rewrite epsilon_Q; lra).
  unfold extend_extent. destruct (nlt _ extent) eqn:H1; q_tests; q_ops; [cbn [fst]; lra|].
  destruct (nle _ epsilon); cbn [fst]; lra.
Qed.

Lemma vertical_extent_max (w : workflow Q) n : n ∈ wf_nodes w →
  vertical_extent n - epsilon <= (maxVerticalExtent w).1.
Proof. intros Hn. apply (fold_reaches fst _ _ _ n); [|done|]; intros; apply extend_spec. Qed.

Lemma rightmost_node_grows p st n : st.1 <= (@rightmost_node Q _ _ p st n).1.
Proof. unfold rightmost_node. destruct (negb _); [lra|]. apply extend_spec. Qed.

Lemma rightmost_of_node (w : workflow Q) p n : n ∈ wf_nodes w → in_columns (wn_col n) →
  column_at (pl_cols p) (wn_col n) + authoredNodeWidth n / 2 - epsilon <= (rightmost w p).1.
Proof.
  intros Hn Hc. unfold rightmost. eapply Qle_trans; [|apply (fold_grows fst); intros; apply extend_spec].
  apply (fold_reaches fst _ _ _ n); [apply rightmost_node_grows|done|]. intros st.
  unfold rightmost_node, columnCount, in_columns in *.
  rewrite (proj2 (Z.leb_le _ _)), (proj2 (Z.ltb_lt _ _)) by lia. apply extend_spec.
Qed.

Lemma rightmost_of_group (w : workflow Q) p g : g ∈ asArray (wf_groups w) →
  let b := readableGroupBounds w g (pl_cols p) in bd_x b + bd_width b - epsilon <= (rightmost w p).1.
Proof.
  intros Hg. apply (fold_reaches fst _ _ _ g); [intros; apply extend_spec|done|]. intros st. apply extend_spec.
Qed.
End Extents.

(** ** Measured nodes *)
Lemma truthy_positive (x : Q) : (32 <= x)%Q → truthy_number x = true.
Proof.
  intros Hx. unfold truthy_number. cbn [nan Q_num negb andb].
  assert (nle x (nof 0) = false) as ->; [|done]. q_tests. q_ops. lra.
Qed.

Section Measured.
#[local] Open Scope Q_scope.
Context (w : workflow Q) (feedback : layout_feedback Q) (Hw : conforming w).
#[local] Notation layout := (createReadableLayout w feedback).
#[local] Notation cols := (pl_cols (placed_columns w feedback)).

(** Header and footer of a lane. *)
Definition header_of (l : lane) : Q := (lane_reserve w cols l).1.
Definition footer_of (l : lane) : Q := (lane_reserve w cols l).2.

Lemma lane_sizes i l : wf_lanes w !! i = Some l →
  laneHeight_at layout i = (lane_height w + header_of l + footer_of l)%js ∧
  laneGroupHeaderH_at layout i = header_of l ∧ laneGroupFooterH_at layout i = footer_of l.
Proof using.
  intros Hi. unfold laneHeight_at, laneGroupHeaderH_at, laneGroupFooterH_at, at_index.
  cbn [laneHeights groupHeaderHeights groupFooterHeights createReadableLayout option_bind mbind].
  rewrite !list_lookup_fmap, Hi. done.
Qed.

(** The rectangle of a node, in the lane [l] at position [i]. *)
Record measured_at (n : wnode Q) (i : nat) (l : lane) (b : box Q) : Prop := {
  ma_lane : wf_lanes w !! i = Some l;
  ma_id : ln_id l = wn_lane n;
  ma_measure : measureNode w layout n = Some b;
  ma_width : width (bx_rect b) = authoredNodeWidth n;
  ma_height : height (bx_rect b) = authoredNodeHeight n;
  ma_x : x_ (bx_rect b) == column_at (colXs layout) (wn_col n) - authoredNodeWidth n / 2;
  ma_y : y_ (bx_rect b) == laneTop_at layout i + 30 + header_of l +
           (baseContentH w - authoredNodeHeight n) / 2 + offset_of n;
  ma_index : laneIndex w (wn_lane n) = Some i
}.

Lemma measured_width n : n ∈ wf_nodes w → number_or (wn_width n) (nof 92) = authoredNodeWidth n.
Proof using Hw.
  intros Hn. unfold number_or, authoredNodeWidth. destruct (wn_width n) as [x|] eqn:E; [|done].
  by rewrite truthy_positive by (by eapply cf_width).
Qed.
Lemma measured_height n : n ∈ wf_nodes w →
  number_or (wn_height n) (if nonempty (wn_tag n) then nof 68 else nof 52) = authoredNodeHeight n.
Proof using Hw.
  intros Hn. unfold number_or, authoredNodeHeight. destruct (wn_height n) as [x|] eqn:E; [|done].
  by rewrite truthy_positive by (by eapply cf_height).
Qed.
Lemma measured_offset (n : wnode Q) : number_or (wn_yOffset n) (nof 0) == offset_of n.
Proof using.
  unfold number_or, offset_of, truthy_number. cbn [nan Q_num negb andb]. destruct (wn_yOffset n) as [y|]; [|reflexivity].
  cbn [default from_option id]. destruct (nle y (nof 0) && nle (nof 0) y) eqn:E; [|reflexivity].
  apply andb_true_iff in E as [H1 H2]. q_tests. q_ops. cbn [negb]. lra.
Qed.

Lemma measure_spec n : n ∈ wf_nodes w → ∃ i l b, measured_at n i l b.
Proof using Hw.
  intros Hn. destruct (lane_position w (wn_lane n)) as (i&l&Hidx&Hl&Hid); [by apply cf_lanes|by eapply cf_lane|].
  exists i, l. destruct (lane_sizes i l Hl) as (Hh&Hhd&Hft).
  eexists. split; [done|done|..].
  - unfold measureNode, laneTop. rewrite Hidx. reflexivity.
  - cbn [bx_rect width nodeW createReadableLayout]. by apply measured_width.
  - cbn [bx_rect height nodeH createReadableLayout]. by apply measured_height.
  - cbn [bx_rect x_ nodeW createReadableLayout colXs]. rewrite measured_width by done. q_ops. reflexivity.
  - cbn [bx_rect y_ nodeH laneTitleH createReadableLayout]. rewrite measured_height by done.
    unfold laneHeight, laneGroupHeaderH, laneGroupFooterH. rewrite Hidx. cbn [fmap option_fmap option_map default].
    cbn [from_option id]. rewrite Hh, Hhd, Hft. unfold lane_height. q_ops. rewrite measured_offset.
    change (inject_Z 30) with 30. field.
  - done.
Qed.

(** ** Vertical room *)
Lemma reserves_nonneg l : 0 <= header_of l ∧ 0 <= footer_of l.
Proof using.
  unfold header_of, footer_of, lane_reserve. destruct (foldl _ _ _) as [header footer].
  destruct (Q_nmax_cases (nof 0) header) as [[? E]|[? E]], (Q_nmax_cases (nof 0) footer) as [[? F]|[? F]];
    cbn [fst snd]; rewrite E, F; q_ops; lra.
Qed.

Lemma content_room n : n ∈ wf_nodes w →
  4 - epsilon <= (baseContentH w - authoredNodeHeight n) / 2 + offset_of n ∧
  (baseContentH w - authoredNodeHeight n) / 2 + offset_of n + authoredNodeHeight n <= baseContentH w - 4 + epsilon.
Proof using.
  intros Hn. pose proof (vertical_extent_max w n Hn) as Hext. unfold vertical_extent in Hext.
  assert (Hbase : (maxVerticalExtent w).1 * 2 + 8 <= baseContentH w).
  { unfold baseContentH. set (x := ((maxVerticalExtent w).1 * nof 2 + nof 8)%js). pose proof (math_ceil_ge x) as Hx.
    assert (x == (maxVerticalExtent w).1 * 2 + 8) as <- by reflexivity.
    destruct (Q_nmax_cases (nof 74) (math_ceil x)) as [[? ->]|[? ->]]; lra. }
  q_ops. unfold Qdiv in *. change (/ 2) with (1 # 2) in *.
  destruct (nabs_cases (offset_of n)) as [[? E]|[? E]]; rewrite E in Hext; lra.
Qed.

Lemma measured_vertical n i l b : n ∈ wf_nodes w → measured_at n i l b →
  laneTop_at layout i + 30 + header_of l + 4 - epsilon <= y_ (bx_rect b) ∧
  y_ (bx_rect b) + height (bx_rect b) <= laneTop_at layout i + laneHeight_at layout i - footer_of l - 4 + epsilon.
Proof using.
  intros Hn [Hl _ _ _ Hh _ Hy]. destruct (content_room n Hn) as [H1 H2].
  destruct (lane_sizes i l Hl) as (Ht&_&_). rewrite Ht, Hh, Hy. unfold lane_height. q_ops.
  change (inject_Z 30) with 30. lra.
Qed.

Lemma lane_height_at_least i l : wf_lanes w !! i = Some l → 104 <= laneHeight_at layout i.
Proof using.
  intros Hl. destruct (lane_sizes i l Hl) as (Ht&_&_). rewrite Ht. destruct (reserves_nonneg l) as [? ?].
  unfold lane_height, baseContentH.
  destruct (Q_nmax_cases (nof 74) (math_ceil ((maxVerticalExtent w).1 * nof 2 + nof 8)%js)) as [[? E]|[? E]];
    rewrite E; q_ops; change (inject_Z 74) with 74 in *; change (inject_Z 30) with 30; lra.
Qed.

Lemma lane_gap_at_least : 20 <= laneGap layout.
Proof using.
  cbn [laneGap createReadableLayout]. unfold lane_gap. set (x := math_ceil _).
  destruct (Q_nmax_cases (nof 20) x) as [[? E]|[? E]]; rewrite E; q_ops; change (inject_Z 20) with 20 in *; lra.
Qed.

Lemma laneTop_next i : laneTop_at layout (S i) == laneTop_at layout i + laneHeight_at layout i + laneGap layout.
Proof using.
  unfold laneTop_at, heights_before. rewrite seq_S, foldl_app. cbn [foldl]. q_ops.
  rewrite Nat2Z.inj_succ, <-Z.add_1_r, inject_Z_plus. change (inject_Z 1) with 1. cbn [Nat.add]. ring.
Qed.

(** Lanes are stacked, at least 20 pixels apart. *)
Lemma lanes_stacked i j : (i < j)%nat → (j < length (wf_lanes w))%nat →
  laneTop_at layout i + laneHeight_at layout i + 20 <= laneTop_at layout j.
Proof using.
  intros Hij Hj. pose proof lane_gap_at_least as Hgap. induction Hij as [|j Hij IH].
  - rewrite laneTop_next. lra.
  - rewrite laneTop_next. specialize (IH ltac:(lia)).
    destruct (lookup_lt_is_Some_2 (wf_lanes w) j) as [l Hl]; [lia|].
    pose proof (lane_height_at_least j l Hl). lra.
Qed.
End Measured.

(** ** Clearance *)
Section Clearance.
#[local] Open Scope Q_scope.

Lemma apart_no_overlap (a b : rect Q) (gap : Q) :
  x_ a + width a + gap <= x_ b ∨ x_ b + width b + gap <= x_ a ∨
  y_ a + height a + gap <= y_ b ∨ y_ b + height b + gap <= y_ a → rectsOverlap a b gap = false.
Proof.
  intros H. unfold rectsOverlap. cbn [isFinitePoint forallb nfin Q_num andb negb].
  apply negb_false_iff. rewrite !orb_true_iff, !Q_nle. q_ops. tauto.
Qed.

Lemma overlap_spec (a b : wnode Q) :
  verticalIntervalsOverlap a b (nof 8) = true ↔
  offset_of a - offset_of b < authoredNodeHeight a / 2 + authoredNodeHeight b / 2 + 8 ∧
  offset_of b - offset_of a < authoredNodeHeight a / 2 + authoredNodeHeight b / 2 + 8.
Proof.
  unfold verticalIntervalsOverlap. rewrite Q_nlt. q_ops. change (inject_Z 8) with 8.
  set (h := authoredNodeHeight a / 2 + authoredNodeHeight b / 2 + 8).
  destruct (nabs_cases (offset_of a - offset_of b)) as [[? ->]|[? ->]]; lra.
Qed.

Lemma overlap_comm (a b : wnode Q) :
  verticalIntervalsOverlap a b (nof 8) = verticalIntervalsOverlap b a (nof 8).
Proof. apply eq_true_iff_eq. rewrite !overlap_spec. lra. Qed.

(** The constraint of two nodes of a lane that overlap vertically. *)
Lemma pair_constraint (w : workflow Q) (a b : wnode Q) :
  a ∈ wf_nodes w → b ∈ wf_nodes w → wn_lane a = wn_lane b → (wn_col a < wn_col b)%Z →
  verticalIntervalsOverlap a b (nof 8) = true →
  ∃ c, c ∈ omap node_pair_constraint (pairs (wf_nodes w)) ∧ ct_from c = wn_col a ∧ ct_to c = wn_col b ∧
    ct_minimum c = (authoredNodeWidth a / nof 2 + nof 8 + authoredNodeWidth b / nof 2)%js.
Proof.
  intros [i Hi]%list_elem_of_lookup [j Hj]%list_elem_of_lookup Hlane Hcol Hov.
  assert (Hne : i ≠ j) by (intros ->; rewrite Hi in Hj; simplify_eq; lia).
  setoid_rewrite list_elem_of_omap. destruct (decide (i < j)%nat).
  - eexists. split; [exists (a, b); split; [apply elem_of_pairs; eauto|]|].
    + unfold node_pair_constraint. rewrite bool_decide_true, (proj2 (Z.eqb_neq _ _)), Hov, (proj2 (Z.ltb_lt _ _)) by (done || lia).
      reflexivity.
    + done.
  - eexists. split; [exists (b, a); split; [apply elem_of_pairs; exists j, i; split; [lia|done]|]|].
    + unfold node_pair_constraint. rewrite bool_decide_true, (proj2 (Z.eqb_neq _ _)), overlap_comm, Hov, (proj2 (Z.ltb_ge _ _))
        by (done || lia). reflexivity.
    + done.
Qed.

Context (w : workflow Q) (feedback : layout_feedback Q) (Hw : conforming w).
#[local] Notation layout := (createReadableLayout w feedback).

Lemma columns_apart (a b : wnode Q) :
  a ∈ wf_nodes w → b ∈ wf_nodes w → wn_lane a = wn_lane b → (wn_col a < wn_col b)%Z →
  verticalIntervalsOverlap a b (nof 8) = true →
  column_at (colXs layout) (wn_col a) + authoredNodeWidth a / 2 + 8 + authoredNodeWidth b / 2 <=
  column_at (colXs layout) (wn_col b) + epsilon.
Proof using Hw.
  intros Ha Hb Hlane Hcol Hov. destruct (pair_constraint w a b Ha Hb Hlane Hcol Hov) as (c&Hc&Hf&Ht&Hm).
  destruct (placed_columns_shifted w feedback) as (p&[Hsix _ Hs _]&Hsh). destruct (Hsh Hsix) as (_&d&Hd&Hcol').
  pose proof (cf_column _ Hw a Ha). pose proof (cf_column _ Hw b Hb). unfold in_columns in *.
  specialize (Hs c). rewrite Hf, Ht, Hm in Hs. cbn [colXs createReadableLayout]. rewrite !Hcol' by done.
  q_ops. change (inject_Z 8) with 8 in Hs. lapply Hs.
  - intros Hs'. lapply Hs'; [lra|]. unfold valid_constraint. rewrite Hf, Ht, !andb_true_iff. unfold columnCount.
    split_and!; [lia..|done].
  - unfold column_demands, layout_constraints. rewrite !elem_of_app. tauto.
Qed.

(** Two nodes of a lane whose rows are 8 pixels apart, whatever their columns. *)
Lemma rows_apart a b i l la lb : verticalIntervalsOverlap a b (nof 8) = false →
  measured_at w feedback a i l la → measured_at w feedback b i l lb →
  rectsOverlap (bx_rect la) (bx_rect lb) (8 - epsilon) = false ∧
  rectsOverlap (bx_rect lb) (bx_rect la) (8 - epsilon) = false.
Proof using.
  intros Hov [_ _ _ _ Ga _ Ya] [_ _ _ _ Gb _ Yb].
  assert (0 < epsilon) by (rewrite epsilon_Q; lra). unfold Qdiv in *. change (/ 2) with (1 # 2) in *.
  assert (Hn : ¬ (offset_of a - offset_of b < authoredNodeHeight a * (1 # 2) + authoredNodeHeight b * (1 # 2) + 8 ∧
      offset_of b - offset_of a < authoredNodeHeight a * (1 # 2) + authoredNodeHeight b * (1 # 2) + 8))
    by (intros H'; apply overlap_spec in H'; congruence).
  split; apply apart_no_overlap; right; right; rewrite ?Ga, ?Gb, ?Ya, ?Yb;
    set (u := offset_of a) in *; set (v := offset_of b) in *;
    destruct (Qlt_le_dec (u - v) (authoredNodeHeight a * (1 # 2) + authoredNodeHeight b * (1 # 2) + 8));
    [left|right|right|left]; lra.
Qed.

(** Two nodes of a lane, the first in an earlier column. *)
Lemma same_lane_apart a b i l la lb : a ∈ wf_nodes w → b ∈ wf_nodes w → wn_lane a = wn_lane b →
  (wn_col a < wn_col b)%Z → measured_at w feedback a i l la → measured_at w feedback b i l lb →
  rectsOverlap (bx_rect la) (bx_rect lb) (8 - epsilon) = false ∧
  rectsOverlap (bx_rect lb) (bx_rect la) (8 - epsilon) = false.
Proof using Hw.
  intros Ha Hb Hlane Hcol Ma Mb. destruct (verticalIntervalsOverlap a b (nof 8)) eqn:Hov; [|by apply (rows_apart a b i l)].
  destruct Ma as [_ _ _ Wa _ Xa _], Mb as [_ _ _ Wb _ Xb _].
  pose proof (columns_apart a b Ha Hb Hlane Hcol Hov) as Hc. unfold Qdiv in *. change (/ 2) with (1 # 2) in *.
  split; apply apart_no_overlap; rewrite ?Wa, ?Wb, ?Xa, ?Xb; [left|right; left]; lra.
Qed.

(** Two nodes of different lanes. *)
Lemma other_lane_apart a b i j l m la lb : a ∈ wf_nodes w → b ∈ wf_nodes w → (i < j)%nat →
  measured_at w feedback a i l la → measured_at w feedback b j m lb →
  rectsOverlap (bx_rect la) (bx_rect lb) 8 = false ∧ rectsOverlap (bx_rect lb) (bx_rect la) 8 = false.
Proof using Hw.
  intros Ha Hb Hij Ma Mb. pose proof (ma_lane _ _ _ _ _ _ Mb) as Hm.
  destruct (measured_vertical w feedback a i l la Ha Ma) as [_ Hva].
  destruct (measured_vertical w feedback b j m lb Hb Mb) as [Hvb _].
  pose proof (lanes_stacked w feedback i j Hij (lookup_lt_Some _ _ _ Hm)).
  pose proof (reserves_nonneg w feedback l). pose proof (reserves_nonneg w feedback m).
  rewrite epsilon_Q in *. split; apply apart_no_overlap; right; right; [left|right]; lra.
Qed.

Lemma overlap_weaken (a b : rect Q) (gap gap' : Q) : gap' <= gap →
  rectsOverlap a b gap = false → rectsOverlap a b gap' = false.
Proof using.
  intros Hg. unfold rectsOverlap. cbn [isFinitePoint forallb nfin Q_num andb negb].
  rewrite !negb_false_iff, !orb_true_iff, !Q_nle. q_ops. intros [[[?|?]|?]|?]; [left; left; left|left; left; right|left; right|right]; lra.
Qed.

(** C34: In the readable layout of a document that conforms to the schema, two
    nodes stay as far apart as the validation asks of nodes (8 pixels), up to the
    tolerance with which the columns are placed, unless they are in the same
    column of the same lane and their offsets do not keep their rows apart, which
    no layout of the columns can mend. *)
Theorem nodes_apart a b la lb : a ∈ wf_nodes w → b ∈ wf_nodes w →
  ¬ (wn_lane a = wn_lane b ∧ wn_col a = wn_col b ∧ verticalIntervalsOverlap a b (nof 8) = true) →
  measureNode w layout a = Some la → measureNode w layout b = Some lb →
  rectsOverlap (bx_rect la) (bx_rect lb) (8 - epsilon) = false.
Proof using Hw.
  intros Ha Hb Hne Hla Hlb.
  destruct (measure_spec w feedback Hw a Ha) as (i&l&la'&Ma), (measure_spec w feedback Hw b Hb) as (j&m&lb'&Mb).
  pose proof (ma_measure _ _ _ _ _ _ Ma). pose proof (ma_measure _ _ _ _ _ _ Mb). simplify_eq.
  assert (H8 : 8 - epsilon <= 8) by (rewrite epsilon_Q; lra).
  destruct (decide (i = j)) as [->|Hij].
  - pose proof (ma_lane _ _ _ _ _ _ Ma) as El. rewrite (ma_lane _ _ _ _ _ _ Mb) in El. simplify_eq.
    assert (Hl : wn_lane a = wn_lane b) by (rewrite <-(ma_id _ _ _ _ _ _ Ma), <-(ma_id _ _ _ _ _ _ Mb); done).
    destruct (Z.lt_trichotomy (wn_col a) (wn_col b)) as [Hc|[Hc|Hc]].
    + edestruct (same_lane_apart a b) as [Hab _]; eauto.
    + destruct (verticalIntervalsOverlap a b (nof 8)) eqn:Hov; [tauto|]. edestruct (rows_apart a b) as [Hab _]; eauto.
    + edestruct (same_lane_apart b a) as [_ Hab]; eauto.
  - apply (overlap_weaken _ _ 8); [done|]. destruct (decide (i < j)%nat).
    + edestruct (other_lane_apart a b i j) as [Hab _]; eauto.
    + edestruct (other_lane_apart b a j i) as [_ Hab]; eauto. lia.
Qed.
End Clearance.

(** ** Containment *)
Section Inside.
#[local] Open Scope Q_scope.
Context (w : workflow Q) (feedback : layout_feedback Q) (Hw : conforming w).
#[local] Notation layout := (createReadableLayout w feedback).
#[local] Notation cols := (pl_cols (placed_columns w feedback)).

Lemma first_extent_max n : n ∈ wf_nodes w → wn_col n = 0%Z → authoredNodeWidth n / 2 <= firstExtent w.
Proof using.
  intros Hn Hc. assert (Hg : ∀ (m : Q) (n : wnode Q), m <= nmax m (authoredNodeWidth n / nof 2)%js ∧
    authoredNodeWidth n / 2 <= nmax m (authoredNodeWidth n / nof 2)%js) by (intros; apply Q_nmax_ge).
  apply (fold_reaches (λ m, m) _ _ _ n); [intros; apply Hg| |intros; apply Hg].
  unfold firstRankNodes. by apply list_elem_of_filter.
Qed.

(** After the first shift the first column leaves 8 pixels to its widest node. *)
Lemma first_column_room p : six p → 48 + firstExtent w <= column_at (pl_cols (shift_first_rank w p)) 0.
Proof using.
  intros Hp. unfold shift_first_rank. set (need := (nof 40 + nof 8 + firstExtent w - column_at (pl_cols p) 0)%js).
  assert (Hneed : need == 48 + firstExtent w - column_at (pl_cols p) 0) by (unfold need; q_ops; ring).
  unfold truthy_number. cbn [nan Q_num negb andb].
  destruct (Q_nmax_ge (nof 0) need) as [H0 H1]. set (d := nmax (nof 0) need) in *. clearbody d.
  destruct (nle d (nof 0) && nle (nof 0) d) eqn:Ht; cbn [negb].
  - apply andb_true_iff in Ht as [Hd _]. q_tests. q_ops. lra.
  - cbn [contribute shift_columns pl_cols]. rewrite column_map by (done || (unfold in_columns; lia)). q_ops. lra.
Qed.

Lemma first_column_final : 48 + firstExtent w <= column_at cols 0.
Proof using.
  unfold placed_columns. rewrite layout_rounds_eq. set (p := solve_columns _).
  assert (Hp : six p) by apply solve_columns_least. pose proof (first_column_room p Hp) as H.
  destruct (shift_first_rank_shifted w p Hp) as [Hp1 _].
  assert (Hsh : shifted (shift_first_rank w p) (shift_content w (channel_keys w) (shift_lane_headers w (shift_first_rank w p))))
    by (etrans; [apply shift_lane_headers_shifted|apply shift_content_shifted]).
  destruct (Hsh Hp1) as (_&d&Hd&Hc). rewrite Hc by (unfold in_columns; lia). lra.
Qed.

Lemma lane_width_room m : (∃ p, p = placed_columns w feedback ∧ m - epsilon <= (rightmost w p).1) →
  m <= laneX layout + laneW layout - 8 + epsilon.
Proof using.
  intros (p&->&Hm). cbn [laneX laneW createReadableLayout]. unfold lane_width, rightmostLaneWidth.
  set (r := ((rightmost w (placed_columns w feedback)).1 - nof 40 + nof 8)%js). pose proof (math_ceil_ge r) as Hr.
  assert (r == (rightmost w (placed_columns w feedback)).1 - 32) as Er by (unfold r; q_ops; change (inject_Z 40) with 40;
    change (inject_Z 8) with 8; ring).
  destruct (Q_nmax_ge (nmax (nof 640) (math_ceil r)) (math_ceil (widestLaneLabel w).1)) as [H1 _].
  destruct (Q_nmax_ge (nof 640) (math_ceil r)) as [_ H2]. q_ops. change (inject_Z 40) with 40. lra.
Qed.

(** A node of a conforming document stays in its lane: under its title and
    above its lower border by 4 pixels, 8 pixels left of the right border, both
    up to the tolerance, and right of the left border when it is in the first
    column or no wider than what its column leaves it. *)
Theorem nodes_inside_lanes n b : n ∈ wf_nodes w → measureNode w layout n = Some b →
  ∃ i l, wf_lanes w !! i = Some l ∧ ln_id l = wn_lane n ∧
    laneTop_at layout i + laneTitleH layout + 4 - epsilon <= y_ (bx_rect b) ∧
    y_ (bx_rect b) + height (bx_rect b) <= laneTop_at layout i + laneHeight_at layout i - 4 + epsilon ∧
    x_ (bx_rect b) + width (bx_rect b) <= laneX layout + laneW layout - 8 + epsilon ∧
    (wn_col n = 0%Z ∨ authoredNodeWidth n <= 108 + 240 * inject_Z (wn_col n) → laneX layout <= x_ (bx_rect b)).
Proof using Hw.
  intros Hn Hb. destruct (measure_spec w feedback Hw n Hn) as (i&l&b'&M).
  pose proof (ma_measure _ _ _ _ _ _ M). simplify_eq. exists i, l.
  destruct (measured_vertical w feedback n i l b Hn M) as [Hv1 Hv2].
  destruct (reserves_nonneg w feedback l) as [Hr1 Hr2]. destruct M as [Hl Hid _ Wn _ Xn _].
  change (laneTitleH layout) with 30. change (laneX layout) with 40.
  pose proof (cf_column _ Hw n Hn) as Hc. split_and!; [done|done|lra|lra|..].
  - rewrite Xn, Wn. eapply Qle_trans; [|apply (lane_width_room (column_at cols (wn_col n) + authoredNodeWidth n / 2))].
    + cbn [colXs createReadableLayout]. unfold Qdiv. change (/ 2) with (1 # 2). lra.
    + eexists. split; [done|]. by apply rightmost_of_node.
  - rewrite Xn. cbn [colXs createReadableLayout]. unfold Qdiv. change (/ 2) with (1 # 2). intros [H0|Hwide].
    + rewrite H0. pose proof first_column_final. pose proof (first_extent_max n Hn H0) as He.
      unfold Qdiv in He. change (/ 2) with (1 # 2) in He. lra.
    + destruct (placed_columns_shifted w feedback) as (p&[Hsix Hbase _ _]&Hsh).
      destruct (Hsh Hsix) as (_&d&Hd&Hcol). rewrite Hcol by done. specialize (Hbase _ Hc).
      unfold baseline_column, columnStart, baselinePitch in Hbase. q_ops. change (inject_Z 94) with 94 in Hbase.
      change (inject_Z 120) with 120 in Hbase. lra.
Qed.
End Inside.

(** ** Groups *)
Section Groups.
#[local] Open Scope Q_scope.
Context (w : workflow Q) (feedback : layout_feedback Q) (Hw : conforming w).
#[local] Notation layout := (createReadableLayout w feedback).
#[local] Notation cols := (pl_cols (placed_columns w feedback)).

Lemma cols_six : length cols = 6%nat.
Proof using. destruct (placed_columns_shifted w feedback) as (p&[Hsix _ _ _]&Hsh). apply (Hsh Hsix). Qed.

Lemma half (x : Q) : x / 2 == x * (1 # 2).
Proof using. reflexivity. Qed.

Lemma bounds_contain g n : ordered_range (gr_fromCol g) (gr_toCol g) 6 = true → n ∈ wf_nodes w →
  spans g n 6 = true →
  let bounds := readableGroupBounds w g cols in
  bd_x bounds + 4 <= column_at cols (wn_col n) - authoredNodeWidth n / 2 ∧
  column_at cols (wn_col n) + authoredNodeWidth n / 2 + 4 <= bd_x bounds + bd_width bounds.
Proof using.
  intros Hr Hn Hs. unfold readableGroupBounds. rewrite cols_six. change (Z.of_nat 6) with 6%Z. rewrite Hr. cbn [negb].
  set (start := (_, _ + _)%js). set (inside := filter _ (wf_nodes w)).
  assert (Hin : n ∈ inside) by (by apply list_elem_of_filter).
  assert (Hgrow : ∀ (lr : Q * Q) m, (widen cols lr m).1 <= lr.1 ∧ lr.2 <= (widen cols lr m).2 ∧
    (widen cols lr m).1 <= column_at cols (wn_col m) - authoredNodeWidth m / 2 - 4 ∧
    column_at cols (wn_col m) + authoredNodeWidth m / 2 + 4 <= (widen cols lr m).2).
  { intros lr m. unfold widen. cbn [fst snd].
    split_and!; [apply Q_nmin_le|apply Q_nmax_ge|eapply Qle_trans; [apply Q_nmin_le|]|
      eapply Qle_trans; [|apply Q_nmax_ge]]; unfold GROUP_NODE_INSET; q_ops; apply Qle_refl. }
  pose proof (fold_reaches (λ lr : Q * Q, - lr.1) (widen cols) inside start n
    (- (column_at cols (wn_col n) - authoredNodeWidth n / 2 - 4))) as H1.
  pose proof (fold_reaches snd (widen cols) inside start n
    (column_at cols (wn_col n) + authoredNodeWidth n / 2 + 4)) as H2.
  destruct (foldl (widen cols) start inside) as [l r]. cbn [fst snd bd_x bd_width] in *. q_ops. rewrite !half in *.
  lapply H1; [clear H1; intros H1; specialize (H1 Hin)|intros lr m; destruct (Hgrow lr m); lra].
  lapply H2; [clear H2; intros H2; specialize (H2 Hin)|intros lr m; destruct (Hgrow lr m) as (_&?&_); lra].
  lapply H1; [clear H1; intros H1|intros lr; destruct (Hgrow lr n) as (_&_&?&_); rewrite half in *; lra].
  lapply H2; [clear H2; intros H2|intros lr; destruct (Hgrow lr n) as (_&_&_&?); rewrite half in *; lra].
  split; lra.
Qed.

(** The bounds of a group move with the columns. *)
Definition pair_shift (d : Q) (lr lr' : Q * Q) : Prop := lr'.1 == lr.1 + d ∧ lr'.2 == lr.2 + d.

Lemma widen_shift (c c' : list Q) d lr lr' n : column_at c' (wn_col n) == column_at c (wn_col n) + d →
  pair_shift d lr lr' → pair_shift d (widen c lr n) (widen c' lr' n).
Proof using.
  unfold pair_shift, widen. cbn [fst snd]. intros Hc [H1 H2]. set (h := (authoredNodeWidth n / nof 2)%js).
  generalize dependent h. generalize (@GROUP_NODE_INSET Q _). intros inset h.
  set (u := (column_at c (wn_col n) - h - inset)%js). set (u' := (column_at c' (wn_col n) - h - inset)%js).
  set (v := (column_at c (wn_col n) + h + inset)%js). set (v' := (column_at c' (wn_col n) + h + inset)%js).
  assert (u' == u + d ∧ v' == v + d) as [Hu Hv] by (unfold u, u', v, v'; q_ops; split; lra).
  destruct (Q_nmin_cases lr.1 u) as [[? ->]|[? ->]], (Q_nmin_cases lr'.1 u') as [[? ->]|[? ->]],
    (Q_nmax_cases lr.2 v) as [[? ->]|[? ->]], (Q_nmax_cases lr'.2 v') as [[? ->]|[? ->]]; lra.
Qed.

Lemma bounds_shift (c c' : list Q) d g : length c = 6%nat → length c' = 6%nat →
  (∀ i, in_columns i → column_at c' i == column_at c i + d) →
  ordered_range (gr_fromCol g) (gr_toCol g) 6 = true →
  bd_x (readableGroupBounds w g c') == bd_x (readableGroupBounds w g c) + d.
Proof using.
  intros Hl Hl' Hc Hr. unfold readableGroupBounds. rewrite Hl, Hl'. change (Z.of_nat 6) with 6%Z. rewrite Hr. cbn [negb].
  assert (in_columns (gr_fromCol g) ∧ in_columns (gr_toCol g)) as [Hf Ht]
    by (unfold ordered_range in Hr; unfold in_columns; lia).
  pose proof (Hc _ Hf) as Cf. pose proof (Hc _ Ht) as Ct.
  set (n1 := (column_at c (gr_toCol g) + nof 50 - (column_at c (gr_fromCol g) - nof 50))%js).
  set (n2 := (column_at c' (gr_toCol g) + nof 50 - (column_at c' (gr_fromCol g) - nof 50))%js).
  assert (En : n2 == n1) by (unfold n1, n2; q_ops; lra).
  set (lab := group_label_width _). assert (Em : nmax n2 lab == nmax n1 lab).
  { destruct (Q_nmax_cases n1 lab) as [[? ->]|[? ->]], (Q_nmax_cases n2 lab) as [[? ->]|[? ->]]; lra. }
  set (m1 := nmax n1 lab) in *. set (m2 := nmax n2 lab) in *.
  assert (Et : nlt n2 m2 = nlt n1 m1).
  { destruct (nlt n2 m2) eqn:E2, (nlt n1 m1) eqn:E1; try done; q_tests; lra. }
  rewrite Et. set (l2 := if _ && _ then _ else _). set (l1 := if _ && _ then _ else _).
  assert (El : l2 == l1 + d) by (unfold l1, l2; destruct (_ && _); q_ops; unfold Qdiv; change (/ 2) with (1 # 2); lra).
  set (inside := filter _ (wf_nodes w)).
  assert (Hin : ∀ n, n ∈ inside → in_columns (wn_col n)).
  { intros n [Hs _]%list_elem_of_filter. unfold spans in Hs. apply andb_true_iff in Hs as [_ Hs]. unfold in_columns. lia. }
  assert (Hp : pair_shift d (l1, l1 + m1) (l2, l2 + m2)) by (unfold pair_shift; cbn [fst snd]; lra).
  change ((l1 + m1)%js) with (l1 + m1). change ((l2 + m2)%js) with (l2 + m2).
  revert Hp. generalize (l1, l1 + m1), (l2, l2 + m2). clearbody inside. clear -Hc Hin.
  induction inside as [|n ns IH]; intros lr lr' Hp; cbn [foldl]; [by destruct lr, lr', Hp|].
  apply IH; [intros; apply Hin; by right|]. apply widen_shift; [|done]. apply Hc, Hin. by left.
Qed.

(** The frame of a group in its lane, horizontally. *)
Lemma group_frame_across g : g ∈ asArray (wf_groups w) → ordered_range (gr_fromCol g) (gr_toCol g) 6 = true →
  let bounds := readableGroupBounds w g cols in
  laneX layout + 4 <= bd_x bounds ∧ bd_x bounds + bd_width bounds <= laneX layout + laneW layout - 8 + epsilon.
Proof using.
  intros Hg Hr bounds. split.
  - unfold bounds, placed_columns. set (p := shift_lane_headers _ _).
    assert (Hp : six p).
    { apply shift_lane_headers_shifted, shift_first_rank_shifted. rewrite layout_rounds_eq. apply solve_columns_least. }
    destruct (content_moved w p Hp) as (d&[_ _ Hd]&Hc).
    destruct (shift_content_shifted w (channel_keys w) p Hp) as [Hp' _].
    rewrite (bounds_shift (pl_cols p) _ d g Hp Hp' Hc Hr).
    specialize (Hd (44 - bd_x (readableGroupBounds w g (pl_cols p)))). change (laneX layout) with 40.
    lapply Hd; [lra|]. right; right. exists g. split; [done|]. unfold group_need. reflexivity.
  - apply (lane_width_room w feedback). eexists. split; [reflexivity|].
    by apply (rightmost_of_group w (placed_columns w feedback) g).
Qed.

(** The offset of a node below the top of the content of its lane. *)
Definition top_offset (n : wnode Q) : Q := ((baseContentH w - authoredNodeHeight n) / nof 2 + offset_of n)%js.

(** Whether a node meets the label of a group horizontally. *)
Definition under_label g (n : wnode Q) : bool :=
  let labelLeft := (bd_x (readableGroupBounds w g cols) + nof 10)%js in
  (nlt labelLeft (column_at cols (wn_col n) + authoredNodeWidth n / nof 2)%js &&
   nlt (column_at cols (wn_col n) - authoredNodeWidth n / nof 2)%js
       (labelLeft + nof (textUnits (gr_label g)) * nlit 56 10)%js)%js.

Lemma under_label_true g n :
  bd_x (readableGroupBounds w g cols) + 10 < column_at cols (wn_col n) + authoredNodeWidth n / 2 →
  column_at cols (wn_col n) - authoredNodeWidth n / 2 <
    (bd_x (readableGroupBounds w g cols) + nof 10 + nof (textUnits (gr_label g)) * nlit 56 10)%js →
  under_label g n = true.
Proof using. intros H1 H2. apply andb_true_iff. split; apply Q_nlt; assumption. Qed.

Lemma reserve_for_spec g reserve n :
  let r := reserve_for w g cols (readableGroupBounds w g cols) reserve n in
  reserve.1 <= r.1 ∧ reserve.2 <= r.2 ∧
  (if under_label g n then 11 else 9) - top_offset n <= r.1 ∧
  1 - (baseContentH w - 4 - top_offset n - authoredNodeHeight n) <= r.2.
Proof using.
  unfold reserve_for. fold (top_offset n). cbn [fst snd]. split_and!; [apply Q_nmax_ge|apply Q_nmax_ge|..];
    (eapply Qle_trans; [|apply Q_nmax_ge]); (eapply Qle_trans; [|apply math_ceil_ge]).
  - unfold under_label. destruct (_ && _); apply Qle_refl.
  - apply Qle_refl.
Qed.

Lemma reserve_of_group_grows reserve g :
  reserve.1 <= (reserve_of_group w cols reserve g).1 ∧ reserve.2 <= (reserve_of_group w cols reserve g).2.
Proof using.
  unfold reserve_of_group. split; [apply (fold_grows fst)|apply (fold_grows snd)]; intros; apply reserve_for_spec.
Qed.

Lemma reserved_room g n l : g ∈ asArray (wf_groups w) → gr_lane g = ln_id l → n ∈ wf_nodes w → spans g n 6 = true →
  (if under_label g n then 11 else 9) - top_offset n <= header_of w feedback l ∧
  1 - (baseContentH w - 4 - top_offset n - authoredNodeHeight n) <= footer_of w feedback l.
Proof using.
  intros Hg Hl Hn Hs.
  assert (Hin : g ∈ filter (λ g, gr_lane g = ln_id l) (asArray (wf_groups w))) by (by apply list_elem_of_filter).
  assert (Hin' : n ∈ filter (λ n, spans g n (Z.of_nat (length cols)) = true) (wf_nodes w))
    by (apply list_elem_of_filter; by rewrite cols_six).
  unfold header_of, footer_of, lane_reserve.
  pose proof (fold_reaches fst (reserve_of_group w cols) _ (nof 0, nof 0) g
    ((if under_label g n then 11 else 9) - top_offset n) ltac:(intros; apply reserve_of_group_grows) Hin) as H1.
  pose proof (fold_reaches snd (reserve_of_group w cols) _ (nof 0, nof 0) g
    (1 - (baseContentH w - 4 - top_offset n - authoredNodeHeight n)) ltac:(intros; apply reserve_of_group_grows) Hin) as H2.
  destruct (foldl (reserve_of_group w cols) _ _) as [header footer]. cbn [fst snd] in *.
  split; (eapply Qle_trans; [|apply Q_nmax_ge]); [apply H1|apply H2]; intros reserve; unfold reserve_of_group.
  - apply (fold_reaches fst _ _ _ n); [intros; apply reserve_for_spec|done|]. intros. apply reserve_for_spec.
  - apply (fold_reaches snd _ _ _ n); [intros; apply reserve_for_spec|done|]. intros. apply reserve_for_spec.
Qed.

(** The frame of a group in the lane [l], vertically. *)
Lemma group_frame_vertical g i l : schema_version w = 2%Z → laneIndex w (gr_lane g) = Some i →
  wf_lanes w !! i = Some l →
  ∃ frameY, group_frame_y w layout g = Some frameY ∧ frameY == laneTop_at layout i + 38 ∧
    group_frame_height w layout g == baseContentH w + header_of w feedback l + footer_of w feedback l - 12.
Proof using.
  intros Hv Hidx Hl. destruct (lane_sizes w feedback i l Hl) as (Ht&_&_).
  eexists. unfold group_frame_y, group_frame_height, laneHeight, laneTop, readable. rewrite Hv, Hidx.
  cbn [fmap option_fmap option_map default from_option id laneTitleH createReadableLayout Z.eqb Pos.eqb].
  split; [reflexivity|]. rewrite Ht. unfold lane_height, GROUP_FRAME_TOP_INSET, GROUP_FRAME_BOTTOM_INSET. q_ops.
  change (inject_Z 30) with 30; change (inject_Z 8) with 8; change (inject_Z 4) with 4. split; ring.
Qed.

(** The nodes a group spans lie in its frame. *)
Lemma group_frame_nodes g n b i l frameY : g ∈ asArray (wf_groups w) →
  ordered_range (gr_fromCol g) (gr_toCol g) 6 = true → laneIndex w (gr_lane g) = Some i → wf_lanes w !! i = Some l →
  ln_id l = gr_lane g → n ∈ wf_nodes w → spans g n 6 = true → measureNode w layout n = Some b →
  frameY == laneTop_at layout i + 38 →
  group_frame_height w layout g == baseContentH w + header_of w feedback l + footer_of w feedback l - 12 →
  let bounds := readableGroupBounds w g cols in
  let r := bx_rect b in
  bd_x bounds + 4 <= x_ r ∧ x_ r + width r + 4 <= bd_x bounds + bd_width bounds ∧
  frameY + 1 <= y_ r ∧ y_ r + height r + 1 <= frameY + group_frame_height w layout g ∧
  (under_label g n = true → frameY + 3 <= y_ r).
Proof using Hw.
  intros Hg Hr Hidx Hl Hid Hn Hs Hb Hy Hheight. destruct (measure_spec w feedback Hw n Hn) as (i'&l'&b'&M).
  pose proof (ma_measure _ _ _ _ _ _ M). simplify_eq.
  assert (Hlane : gr_lane g = wn_lane n) by (unfold spans in Hs; apply andb_true_iff in Hs as [E _];
    symmetry; by apply bool_decide_eq_true in E).
  destruct M as [Hl' _ _ Wn Gn Xn Yn Hidx']. rewrite Hlane in Hidx. simplify_eq.
  destruct (bounds_contain g n Hr Hn Hs) as [B1 B2].
  destruct (reserved_room g n l Hg (eq_sym Hid) Hn Hs) as [Rh Rf].
  assert (Htop : top_offset n == (baseContentH w - authoredNodeHeight n) / 2 + offset_of n) by reflexivity.
  cbv zeta. rewrite Xn, Yn, Wn, Gn, Hy, Hheight. cbn [colXs createReadableLayout].
  unfold Qdiv in *. change (/ 2) with (1 # 2) in *.
  split_and!; [lra|lra|destruct (under_label g n); lra|lra|intros Hu; rewrite Hu in Rh; lra].
Qed.

(** C35: The frame of a group lies in its lane, 4 pixels right of its left border,
    8 pixels left of its right border (up to the tolerance), 8 pixels under its
    title and 4 above its lower border; it contains every node the group spans,
    with 4 pixels on either side and one above and below, and the mask of its
    label ends a pixel above the nodes it is over. *)
Theorem group_frame_holds g index : schema_version w = 2%Z → g ∈ asArray (wf_groups w) →
  ordered_range (gr_fromCol g) (gr_toCol g) 6 = true → gr_lane g ∈ map ln_id (wf_lanes w) →
  let frame := group_frame w layout index g in
  ∃ i l y label labelY, wf_lanes w !! i = Some l ∧ ln_id l = gr_lane g ∧
    fm_y frame = Some y ∧ group_label w layout g = Some label ∧ sl_y label = Some labelY ∧
    laneX layout + 4 <= fm_x frame ∧ fm_x frame + fm_width frame <= laneX layout + laneW layout - 8 + epsilon ∧
    laneTop_at layout i + laneTitleH layout + 8 <= y ∧
    y + fm_height frame + 4 <= laneTop_at layout i + laneHeight_at layout i ∧
    ∀ n b, n ∈ wf_nodes w → spans g n 6 = true → measureNode w layout n = Some b →
      let r := bx_rect b in
      fm_x frame + 4 <= x_ r ∧ x_ r + width r + 4 <= fm_x frame + fm_width frame ∧
      y + 1 <= y_ r ∧ y_ r + height r + 1 <= y + fm_height frame ∧
      (sl_x label < x_ r + width r → x_ r < sl_x label + sl_width label → labelY + sl_height label + 1 <= y_ r).
Proof using Hw.
  intros Hv Hg Hr Hlane. destruct (lane_position w _ (cf_lanes _ Hw) Hlane) as (i&l&Hidx&Hl&Hid).
  destruct (group_frame_vertical g i l Hv Hidx Hl) as (y&Hframe&Hy&Hheight).
  destruct (group_frame_across g Hg Hr) as [Hx1 Hx2].
  assert (Hspan : groupSpan w layout g = readableGroupBounds w g cols) by (unfold groupSpan, readable; by rewrite Hv).
  eexists i, l, y, _, _. split; [done|]. split; [done|]. split; [exact Hframe|].
  split. { unfold group_label. rewrite Hidx. cbn [colXs createReadableLayout]. rewrite cols_six.
    change (Z.of_nat 6) with 6%Z. rewrite Hr, bool_decide_true by done. reflexivity. }
  split; [cbn [sl_y]; rewrite Hframe; reflexivity|]. cbn [fm_x fm_width fm_height group_frame]. rewrite Hspan.
  change (laneTitleH layout) with 30. destruct (lane_sizes w feedback i l Hl) as (Ht&_&_).
  split_and!; [done|done|lra|rewrite Ht, Hheight, Hy; unfold lane_height; q_ops; change (inject_Z 30) with 30; lra|].
  intros n b Hn Hs Hb. destruct (measure_spec w feedback Hw n Hn) as (i'&l'&b'&M).
  pose proof (ma_measure _ _ _ _ _ _ M). simplify_eq. destruct M as [_ _ _ Wn _ Xn _ _].
  destruct (group_frame_nodes g n _ i l y Hg Hr Hidx Hl Hid Hn Hs Hb Hy Hheight) as (N1&N2&N3&N4&N5).
  split_and!; [done..|]. cbn [sl_x sl_width sl_height]. rewrite Xn, Wn. intros H1 H2.
  lapply N5; [|apply under_label_true; [|exact H2]].
  - intros N5'. unfold GROUP_LABEL_BASELINE_OFFSET, GROUP_LABEL_MASK_ASCENT, GROUP_LABEL_MASK_H. q_ops.
    change (inject_Z 10) with 10; change (inject_Z 14) with 14. lra.
  - cbn [colXs createReadableLayout] in H1. q_ops. change (inject_Z 10) with 10 in H1. rewrite half in *. lra.
Qed.
End Groups.

(** ** Samples *)
Section Samples.
#[local] Open Scope Q_scope.

(** A fact about every node of a concrete document. *)
Ltac every_node n Hn := revert n Hn; refine (proj1 (Forall_forall _ _) _); repeat first [apply Forall_nil_2|apply Forall_cons_2].

Lemma sample_conforming : conforming sample_workflow.
Proof.
  split.
  - apply (bool_decide_unpack _). vm_compute. exact I.
  - intros n Hn. every_node n Hn; apply (bool_decide_unpack _); vm_compute; exact I.
  - intros n Hn. every_node n Hn; unfold in_columns; cbn; lia.
  - intros n x Hn. every_node n Hn; cbn; intros H; try discriminate H; injection H as <-; unfold Qle; cbn; lia.
  - intros n x Hn. every_node n Hn; cbn; intros H; try discriminate H; injection H as <-; unfold Qle; cbn; lia.
Qed.

(** The two nodes of the service lane. *)
Definition sample_validate : wnode Q := plain_node "validate" "service" 1 "Validate".
Definition sample_charge : wnode Q :=
  sized_node (plain_node "charge" "service" 2 "Charge") (Some 140) (Some 68) None.

Lemma nodes_apart_witness : ∃ a b,
  measureNode sample_workflow (createReadableLayout sample_workflow no_feedback) sample_validate = Some a ∧
  measureNode sample_workflow (createReadableLayout sample_workflow no_feedback) sample_charge = Some b ∧
  rectsOverlap (bx_rect a) (bx_rect b) (8 - epsilon) = false.
Proof.
  destruct (measureNode sample_workflow (createReadableLayout sample_workflow no_feedback) sample_validate) as [a|] eqn:Ha;
    [|vm_compute in Ha; discriminate].
  destruct (measureNode sample_workflow (createReadableLayout sample_workflow no_feedback) sample_charge) as [b|] eqn:Hb;
    [|vm_compute in Hb; discriminate].
  exists a, b. split; [reflexivity|]. split; [reflexivity|].
  apply (nodes_apart sample_workflow no_feedback sample_conforming sample_validate sample_charge); [..|exact Ha|exact Hb].
  - right; left.
  - right; right; left.
  - intros [_ [E _]]. discriminate E.
Defined.

Lemma nodes_inside_lanes_witness : ∃ b,
  measureNode sample_workflow (createReadableLayout sample_workflow no_feedback) sample_charge = Some b ∧
  x_ (bx_rect b) + width (bx_rect b) <= 40 + laneW (createReadableLayout sample_workflow no_feedback) - 8 + epsilon.
Proof.
  destruct (measureNode sample_workflow (createReadableLayout sample_workflow no_feedback) sample_charge) as [b|] eqn:Hb;
    [|vm_compute in Hb; discriminate].
  exists b. split; [reflexivity|].
  destruct (nodes_inside_lanes sample_workflow no_feedback sample_conforming sample_charge b) as (i&l&_&_&_&_&H&_);
    [right; right; left|exact Hb|exact H].
Defined.

Lemma group_frame_holds_witness : ∃ b y,
  measureNode sample_workflow (createReadableLayout sample_workflow no_feedback) sample_charge = Some b ∧
  fm_y (group_frame sample_workflow (createReadableLayout sample_workflow no_feedback) 0
    {| gr_id := "core"; gr_label := "Core"; gr_lane := "service"; gr_fromCol := 1; gr_toCol := 2 |}) = Some y ∧
  y + 1 <= y_ (bx_rect b).
Proof.
  destruct (measureNode sample_workflow (createReadableLayout sample_workflow no_feedback) sample_charge) as [b|] eqn:Hb;
    [|vm_compute in Hb; discriminate].
  destruct (group_frame_holds sample_workflow no_feedback sample_conforming
    {| gr_id := "core"; gr_label := "Core"; gr_lane := "service"; gr_fromCol := 1; gr_toCol := 2 |}
    0) as (i&l&y&label&labelY&_&_&Hy&_&_&_&_&_&_&Hnodes);
    [reflexivity|left|reflexivity|right; left|].
  destruct (Hnodes sample_charge b) as (_&_&H&_); [right; right; left|reflexivity|exact Hb|].
  exists b, y. split; [reflexivity|]. split; [exact Hy|exact H].
Defined.

(** The columns are placed with a tolerance that the validation of nodes does
    not have: two nodes of 112.00005 pixels in neighbouring columns end up
    7.99995 pixels apart, and the document is rejected. *)
Definition tight_workflow : workflow Q :=
  {| schema_version := 2; wf_lanes := [{| ln_id := "lane"; ln_label := "Lane"; ln_variant := None |}];
     wf_nodes := [sized_node (plain_node "a" "lane" 0 "A") (Some (11200005 # 100000)) None None;
                  sized_node (plain_node "b" "lane" 1 "B") (Some (11200005 # 100000)) None None];
     wf_edges := []; wf_phases := None; wf_groups := None; wf_mainPath := None; semanticChecks := None |}.

Definition measured_rects (w : workflow Q) : list (option (rect Q)) :=
  map (λ n, bx_rect <$> measureNode w (createReadableLayout w no_feedback) n) (wf_nodes w).

Lemma tolerance_breaks_clearance :
  match measured_rects tight_workflow with
  | [Some a; Some b] => rectsOverlap a b 8 = true ∧ x_ b - (x_ a + width a) == 799995 # 100000
  | _ => False
  end.
Proof. vm_compute. split; reflexivity. Qed.

(** Only nodes of the first column keep the columns away from the left border: a
    node of 400 pixels in the second column of a lane of its own starts left of
    the lanes. *)
Definition wide_workflow : workflow Q :=
  {| schema_version := 2; wf_lanes := [{| ln_id := "lane"; ln_label := "Lane"; ln_variant := None |}];
     wf_nodes := [sized_node (plain_node "wide" "lane" 1 "Wide") (Some 400) None None];
     wf_edges := []; wf_phases := None; wf_groups := None; wf_mainPath := None; semanticChecks := None |}.

Lemma wide_node_leaves_lane :
  match measured_rects wide_workflow with
  | [Some r] => x_ r == 14 ∧ laneX (createReadableLayout wide_workflow no_feedback) == 40
  | _ => False
  end.
Proof. vm_compute. split; reflexivity. Qed.
End Samples.
