(* ===== verification/RouteSpec.v ===== *)
(** * What the search for routes guarantees
      ([src/.agents/skills/archify/renderers/workflow/workflow-compiler.mjs])

    Every automatic route the search returns is feasible next to the routes
    placed before it, the ones it found by probing included, and no candidate of
    its family is cheaper.  Over the rationals. *)

From Stdlib Require Import QArith Qminmax Qabs Lqa.
From stdpp Require Import sorting pretty gmap.
From S2P Require Import Prelude Num JsValue Geometry Routes Analyses Ports Checks TextFit Legend Workflow SemanticContract ReadableLayout LaneGeometry WorkflowCanvas RouteCandidates RouteSearch.
#[local] Open Scope Z_scope.

(** ** Routes in normal form *)
Section Normal.
Context {N : Type} `{!JsNum N, !JsMath N}.
Implicit Types (ps : list (point N)) (p : point N).

(** No point is near the one before it, and none is straight on its way. *)
Definition apart p (q : point N) : bool := nlt epsilon (nabs (nsub q.1 p.1)) || nlt epsilon (nabs (nsub q.2 p.2)).
Fixpoint spaced previous ps : bool :=
  match ps with [] => true | p :: ps => apart previous p && spaced p ps end.
Definition turning ps : Prop := ∀ l1 a b c l2, ps = l1 ++ a :: b :: c :: l2 → collinearForward a b c = false.
Record normal_route ps : Prop := {
  nr_finite : forallb finite_point ps = true;
  nr_spaced : match ps with [] => True | p :: ps => spaced p ps = true end;
  nr_turning : turning ps
}.

Lemma dedup_after_spaced previous ps : spaced previous ps = true → dedup_after previous ps = ps.
Proof.
  revert previous. induction ps as [|p ps IH]; intros previous; cbn [spaced dedup_after]; [done|].
  intros [Hp Hs]%andb_true_iff. unfold apart in Hp. rewrite Hp. f_equal. by apply IH.
Qed.

Lemma normalize_from_turning kept ps : turning (reverse kept ++ ps) → normalize_from kept ps = reverse kept ++ ps.
Proof.
  revert kept. induction ps as [|p ps IH]; intros kept Ht; cbn [normalize_from].
  { by rewrite app_nil_r. }
  assert (pop_forward kept p = kept) as ->.
  { destruct kept as [|b [|a kept]]; [done..|]. cbn [pop_forward].
    rewrite (Ht (reverse kept) a b p ps); [done|]. rewrite !reverse_cons. by simplify_list_eq. }
  rewrite IH; [by rewrite reverse_cons, <-app_assoc|]. by rewrite reverse_cons, <-app_assoc.
Qed.

(** A route in normal form is its own normal form. *)
Lemma normalize_normal ps : normal_route ps → normalizeRoutePoints ps = ps.
Proof.
  intros [Hf Hs Ht]. unfold normalizeRoutePoints.
  assert (filter (λ p, finite_point p = true) ps = ps) as ->.
  { apply filter_all_id. rewrite forallb_forall in Hf. intros p Hp. apply Hf. by apply list_elem_of_In. }
  destruct ps as [|p ps]; [done|]. cbn [dedup]. rewrite dedup_after_spaced by done.
  apply (normalize_from_turning []). done.
Qed.

Lemma turning_normalize ps : turning (normalizeRoutePoints ps).
Proof.
  unfold turning. apply bends_only_reverse.
  by destruct (normalize_from_spec [] (dedup (filter (λ p, finite_point p = true) ps))) as (_&_&_&?); [intros [|? [|? ?]]|].
Qed.
End Normal.

Lemma apart_of_axis (s : segment Q) : orthogonal_segment s = true → apart s.1 s.2 = true.
Proof.
  unfold orthogonal_segment, apart. destruct (nle _ epsilon) eqn:H1, (nle (nabs (s.2.2 - s.1.2)%js) epsilon) eqn:H2; intros [=];
    apply orb_true_iff; [right|left]; q_tests; done.
Qed.

Lemma spaced_orthogonal (p : point Q) ps : forallb orthogonal_segment (segments_of (p :: ps)) = true → spaced p ps = true.
Proof.
  revert p. induction ps as [|q ps IH]; intros p; [done|].
  cbn [segments_of forallb spaced]. intros [Hp Hs]%andb_true_iff. apply andb_true_iff. split; [|by apply IH].
  by apply (apart_of_axis (p, q)).
Qed.

(** A feasible candidate is in normal form. *)
Lemma normal_orthogonal (ps ps' : list (point Q)) : ps = normalizeRoutePoints ps' → orthogonalRoute ps = true → normal_route ps.
Proof.
  intros -> [Hf Ho]%andb_true_iff. split; [done| |apply turning_normalize].
  destruct (normalizeRoutePoints ps') as [|p ps]; [done|]. by apply spaced_orthogonal.
Qed.

(** ** The ends of a route *)
Lemma finite_filter (ps : list (point Q)) : filter (λ p, finite_point p = true) ps = ps.
Proof. by apply filter_all_id. Qed.

Lemma route_through_head (start end_ : point Q) via : head (route_through start end_ via) = Some start.
Proof. unfold route_through. by rewrite (proj1 (normalizeRoutePoints_ends _)), finite_filter. Qed.

Lemma dedup_after_snoc (previous p : point Q) l : ∃ q, last (previous :: dedup_after previous l) = Some q ∧
  dedup_after previous (l ++ [p]) = dedup_after previous l ++ (if apart q p then [p] else []).
Proof.
  revert previous. induction l as [|r l IH]; intros previous; cbn [app dedup_after].
  - exists previous. split; [done|]. unfold apart. by destruct (_ || _).
  - destruct (_ || _); [|apply IH]. destruct (IH r) as (q&Hq&->). exists q. by rewrite last_cons_cons.
Qed.

(** The last point is kept when it is clear of the one before it. *)
Lemma route_last_kept (first a p : point Q) l :
  (2 * epsilon < nabs (p.1 - a.1) ∨ 2 * epsilon < nabs (p.2 - a.2))%Q →
  last (normalizeRoutePoints (first :: l ++ [a; p])) = Some p.
Proof.
  intros Hfar. unfold normalizeRoutePoints. rewrite finite_filter. cbn [dedup].
  destruct (normalize_from_spec [] (first :: dedup_after first (l ++ [a; p]))) as (_&_&->&_); [by intros [|? [|? ?]]|].
  change (l ++ [a; p]) with (l ++ [a] ++ [p]). rewrite (app_assoc l [a] [p]).
  destruct (dedup_after_snoc first p (l ++ [a])) as (q&Hq&->).
  destruct (dedup_after_last first (l ++ [a]) a) as (q'&Hq'&Hnear).
  { change (first :: l ++ [a]) with ((first :: l) ++ [a]). by rewrite last_snoc. }
  rewrite Hq in Hq'. injection Hq' as <-.
  assert (apart q p = true) as ->; [|by rewrite app_comm_cons, app_assoc, last_snoc].
  unfold apart. apply orb_true_iff.
  assert (nabs (a.1 - q.1) <= epsilon ∧ nabs (a.2 - q.2) <= epsilon)%Q as [H1 H2].
  { destruct Hnear as [->|[? ?]%orb_false_iff]; [|q_tests; q_ops; done].
    assert (0 < epsilon)%Q by (rewrite epsilon_Q; lra).
    split; [destruct (nabs_cases (a.1 - a.1)%Q) as [[? ->]|[? ->]]|destruct (nabs_cases (a.2 - a.2)%Q) as [[? ->]|[? ->]]]; lra. }
  destruct Hfar as [Hfar|Hfar]; [left|right]; q_tests; q_ops.
  - destruct (nabs_cases (p.1 - a.1)%Q) as [[? E1]|[? E1]], (nabs_cases (a.1 - q.1)%Q) as [[? E2]|[? E2]],
      (nabs_cases (p.1 - q.1)%Q) as [[? E3]|[? E3]]; rewrite E1 in Hfar; rewrite E2 in H1; rewrite E3; lra.
  - destruct (nabs_cases (p.2 - a.2)%Q) as [[? E1]|[? E1]], (nabs_cases (a.2 - q.2)%Q) as [[? E2]|[? E2]],
      (nabs_cases (p.2 - q.2)%Q) as [[? E3]|[? E3]]; rewrite E1 in Hfar; rewrite E2 in H2; rewrite E3; lra.
Qed.

Lemma outward_stub_far (p : point Q) side : is_Some (parse_side side) →
  (2 * epsilon < nabs (p.1 - (outwardStub p side).1) ∨ 2 * epsilon < nabs (p.2 - (outwardStub p side).2))%Q.
Proof.
  intros [s Hs]. unfold outwardStub, OUTWARD_SIDE_VECTOR, PORT_OUTWARD_VECTOR. rewrite Hs, epsilon_Q.
  destruct s; cbn [default from_option id stub fst snd]; [left|left|right|right]; q_ops;
    match goal with |- (_ < nabs ?x)%Q => destruct (nabs_cases x) as [[? ->]|[? ->]] end; try lra;
    change (inject_Z 16) with 16%Q in *; change (inject_Z (-1)) with (-1)%Q in *; lra.
Qed.

Lemma inner_rebuilds (start end_ : point Q) ps : (2 ≤ length ps)%nat → head ps = Some start → last ps = Some end_ →
  start :: inner ps ++ [end_] = ps.
Proof.
  destruct ps as [|a ps]; cbn [length head]; [lia|]. intros Hl [= ->].
  destruct ps as [|b ps _] using rev_ind; [cbn in Hl; lia|].
  change (start :: ps ++ [b]) with ((start :: ps) ++ [b]). rewrite last_snoc. intros [= ->]. unfold inner.
  cbn [app length drop]. rewrite length_app. cbn [length].
  replace (S (length ps + 1) - 2)%nat with (length ps) by lia. by rewrite drop_0, take_app_length.
Qed.

(** A feasible probe is the route through its own inner points. *)
Lemma probe_rebuilt (start end_ : point Q) sides (x : Q) : is_Some (parse_side (sp_toSide sides)) →
  let ps := outside_right_route start end_ sides x in
  (2 ≤ length ps)%nat → orthogonalRoute ps = true → route_through start end_ (inner ps) = ps.
Proof.
  intros Hside ps Hl Ho. unfold route_through.
  rewrite (inner_rebuilds start end_ ps Hl).
  - eapply normalize_normal, normal_orthogonal; [|exact Ho]. reflexivity.
  - apply route_through_head.
  - apply (route_last_kept start _ end_ [_; _; _]). by apply outward_stub_far.
Qed.

(** ** Candidates and probes *)
Section Probes.
Context {N : Type} `{!JsNum N, !JsMath N} (layout : wlayout N).
Context (accept : list (point N) → bool) (start end_ : point N) (sides : side_pair).
#[local] Abbreviation channel x := (outside_right_route start end_ sides x).

Lemma refine_accepted fuel feasibleX infeasibleX x : accept (channel x) = true →
  ∃ x', refine accept start end_ sides fuel feasibleX infeasibleX (channel x) = channel x' ∧ accept (channel x') = true.
Proof.
  revert feasibleX infeasibleX x. induction fuel as [|fuel IH]; intros feasibleX infeasibleX x Hx; cbn [refine]; [eauto|].
  destruct (negb _); [eauto|]. destruct (nle _ _); [eauto|].
  destruct (accept (channel (ceil_milli _))) eqn:Hm; eauto.
Qed.

Lemma probe_accepted fuel minX growth lastInfeasibleX ps :
  probe layout accept start end_ sides fuel minX growth lastInfeasibleX = Some ps →
  ∃ x, ps = channel x ∧ accept ps = true.
Proof.
  revert minX growth lastInfeasibleX. induction fuel as [|fuel IH]; intros minX growth lastInfeasibleX; cbn [probe]; [done|].
  destruct (nlt _ minX); [|apply IH]. destruct (accept (channel minX)) eqn:Hx; [|apply IH].
  generalize (refine_accepted 53 minX lastInfeasibleX minX Hx). generalize (refine accept start end_ sides 53 minX lastInfeasibleX (channel minX)).
  intros r (x&->&?) [= <-]. eauto.
Qed.
End Probes.

(** ** Sides *)
Definition known_pair (sides : side_pair) : Prop :=
  is_Some (parse_side (sp_fromSide sides)) ∧ is_Some (parse_side (sp_toSide sides)).
(** The sides an author states are those of the schema. *)
Definition authored_known {N} (e : wedge N) : Prop :=
  ∀ s, authored_from e = Some s ∨ authored_to e = Some s → is_Some (parse_side s).

Section Sides.
Context {N : Type} `{!JsNum N, !JsMath N}.
Implicit Types (e : wedge N) (from to : measured_node N).

Lemma side_names_known s : s ∈ side_names → is_Some (parse_side s).
Proof. unfold side_names. rewrite !elem_of_cons, elem_of_nil. intros [->|[->|[->|[->|[]]]]]; by eexists. Qed.
Lemma default_sides_known (a b : box N) :
  is_Some (parse_side (defaultFromSide a b)) ∧ is_Some (parse_side (defaultToSide a b)).
Proof. unfold defaultFromSide, defaultToSide. repeat case_match; split; by eexists. Qed.

Lemma natural_sides_known e from to : authored_known e → known_pair (natural_sides e from to).
Proof.
  intros He. destruct (default_sides_known (mn_box from) (mn_box to)) as [H1 H2]. unfold natural_sides. split; cbn.
  - destruct (authored_from e) as [s|] eqn:E; [apply He; by left|done].
  - destruct (authored_to e) as [s|] eqn:E; [apply He; by right|done].
Qed.

Lemma chosenSide_authored side fallback : chosenSide side fallback = default fallback (authored_side side).
Proof.
  unfold chosenSide, authored_side. destruct side as [s|]; [|done].
  assert (bool_decide (Some s = Some "auto") = bool_decide (s = "auto")) as ->; [|by destruct (nonempty _ && _)].
  apply bool_decide_ext. split; congruence.
Qed.

Lemma legacy_sides_known w layout e from to sides :
  legacyAutomaticOneBendSides w layout e from to = Some sides → known_pair sides.
Proof.
  unfold legacyAutomaticOneBendSides. destruct (_ || _); [done|]. intros H%head_Some_elem_of.
  apply list_elem_of_filter in H as [_ H]. rewrite !elem_of_cons, elem_of_nil in H.
  destruct H as [->|[->|[]]]; unfold known_pair; repeat case_match; split; by eexists.
Qed.

Lemma first_of_each_subset {A K} `{EqDecision K} (key : A → K) seen (l : list A) a :
  a ∈ first_of_each key seen l → a ∈ l.
Proof.
  revert seen. induction l as [|b l IH]; intros seen; [done|]. cbn [first_of_each].
  case_match; [|intros [->|?]%elem_of_cons]; set_solver.
Qed.

Lemma side_pairs_spec e preferred sides : authored_known e → Forall known_pair preferred →
  sides ∈ side_pairs e preferred → allowed_sides e sides = true ∧ known_pair sides.
Proof.
  intros He Hp [Ha Hin]%first_of_each_subset%list_elem_of_filter. split; [done|].
  apply elem_of_app in Hin as [Hin|Hin]; [by eapply Forall_forall in Hp|].
  apply list_elem_of_bind in Hin as (fromSide&Hin&Hf). apply list_elem_of_fmap in Hin as (toSide&->&Ht).
  split; cbn.
  - destruct (authored_from e) as [s|] eqn:E; [|by apply side_names_known].
    apply list_elem_of_singleton in Hf as ->. apply He. by left.
  - destruct (authored_to e) as [s|] eqn:E; [|by apply side_names_known].
    apply list_elem_of_singleton in Ht as ->. apply He. by right.
Qed.

Lemma side_pairs_natural e from to : natural_sides e from to ∈ side_pairs e [natural_sides e from to].
Proof.
  unfold side_pairs. cbn [app filter list_filter]. rewrite decide_True.
  - cbn [first_of_each]. rewrite decide_False by apply not_elem_of_nil. by left.
  - unfold allowed_sides, natural_sides. cbn.
    destruct (authored_from e), (authored_to e); cbn; by rewrite ?bool_decide_true.
Qed.
End Sides.

(** ** The routes of automatic edges *)
Lemma cheapest_subset {N} `{!JsNum N, !JsMath N} (plans : list (route_plan N * side_pair)) p : p ∈ cheapest plans ↔ p ∈ plans.
Proof. unfold cheapest. by rewrite merge_sort_Permutation. Qed.

Section Automatic.
Context (w : workflow Q) (meta : wmeta Q) (layout : wlayout Q).
Implicit Types (e : wedge Q) (from to : measured_node Q) (placed : list (placed_route Q)) (start : point Q)
  (sides : side_pair) (st : route_state Q).
#[local] Abbreviation feasible := (readableCandidateIsFeasible w meta layout).
#[local] Abbreviation candidate_set := (readableAutomaticCandidateSet w meta layout).

Lemma feasible_orthogonal placed e ps from to sides : feasible placed e ps from to sides = true →
  (2 ≤ length ps)%nat ∧ orthogonalRoute ps = true.
Proof. unfold readableCandidateIsFeasible. rewrite !andb_true_iff. intros H. destruct_and! H. split; [by apply Nat.leb_le|done]. Qed.

Lemma elem_of_candidate_set placed e from to start (end_ : point Q) sides offset natural p :
  p ∈ candidate_set placed e from to start end_ sides offset natural ↔
  ∃ i family via, rawCandidates w layout e from to start end_ sides !! i = Some (family, via) ∧
    feasible placed e (route_through start end_ via) from to sides = true ∧
    p = {| rp_points := route_through start end_ via;
           rp_cost := readableCandidateCost w meta layout placed e from to (route_through start end_ via)
                        (offset + Z.of_nat i) natural |}.
Proof.
  unfold readableAutomaticCandidateSet. rewrite merge_sort_Permutation, list_elem_of_fmap. split.
  - intros ([z r]&->&[Hf (i&[family via]&Hi&[= -> ->])%elem_of_imap]%list_elem_of_filter). eauto 10.
  - intros (i&family&via&Hi&Hf&->). exists (Z.of_nat i, route_through start end_ via). split; [done|].
    apply list_elem_of_filter. split; [done|]. apply elem_of_imap. by exists i, (family, via).
Qed.

Lemma candidate_set_nil placed e from to start (end_ : point Q) sides offset natural offset' natural' :
  candidate_set placed e from to start end_ sides offset natural = [] →
  candidate_set placed e from to start end_ sides offset' natural' = [].
Proof.
  intros H. destruct (candidate_set _ _ _ _ _ _ _ offset' natural') as [|p ps] eqn:E; [done|]. exfalso.
  assert (Hp : p ∈ p :: ps) by (by left). rewrite <-E in Hp.
  apply elem_of_candidate_set in Hp as (i&family&via&Hi&Hf&_).
  eapply not_elem_of_nil. rewrite <-H. apply elem_of_candidate_set. eauto 10.
Qed.

(** The search by probing finds a feasible route. *)
Lemma automatic_via_feasible placed index e from to start (end_ : point Q) sides via : is_Some (parse_side (sp_toSide sides)) →
  candidate_set placed e from to start end_ sides 0 sides = [] →
  readableAutomaticVia w meta layout placed index e from to start end_ sides = inr via →
  feasible placed e (route_through start end_ via) from to sides = true.
Proof.
  intros Hside Hnil. unfold readableAutomaticVia. rewrite Hnil.
  destruct (probe_outside_right _ _ _ _ _ _ _ _ _ _) as [ps|] eqn:Hp; [|done]. intros [= <-].
  apply probe_accepted in Hp as (x&->&Hf). destruct (feasible_orthogonal _ _ _ _ _ _ Hf) as [Hl Ho].
  by rewrite (probe_rebuilt start end_ sides x).
Qed.

Lemma try_sides_feasible placed index e from to ports ordinal sides plan sides' : known_pair sides →
  (plan, sides') ∈ plans_of (try_sides w meta layout placed index e from to ports ordinal sides) →
  sides' = sides ∧ feasible placed e (rp_points plan) from to sides = true ∧ turning (rp_points plan).
Proof.
  intros [_ Hto]. unfold try_sides. set (start := start_of from ports ordinal sides).
  set (end_ := end_of to ports ordinal sides).
  destruct (candidate_set _ _ _ _ start end_ _ _ _) as [|p plans] eqn:Hset; cbn [plans_of].
  - destruct (readableAutomaticVia _ _ _ _ _ _ _ _ start end_ _) as [failure|via] eqn:Hvia; cbn [plans_of];
      [by intros ?%not_elem_of_nil|].
    intros [= -> ->]%list_elem_of_singleton. split; [done|]. cbn [rp_points]. split; [|apply turning_normalize].
    eapply automatic_via_feasible; [done| |exact Hvia]. by eapply candidate_set_nil.
  - rewrite <-Hset. intros (q&[= -> ->]&Hq)%list_elem_of_fmap. split; [done|].
    apply elem_of_candidate_set in Hq as (i&family&via&_&?&->). split; [done|apply turning_normalize].
Qed.

(** The route of a plan is one of the candidates of its sides, or the outside
    one that probing found; its number breaks the ties of the cost. *)
Lemma try_sides_plan placed index e from to ports k sides plan sides' :
  (plan, sides') ∈ plans_of (try_sides w meta layout placed index e from to ports k sides) →
  let start := start_of from ports k sides in
  let stop := end_of to ports k sides in
  ∃ j via, rp_points plan = route_through start stop via ∧
    ((∃ family, rawCandidates w layout e from to start stop sides !! j = Some (family, via)) ∨
     Z.of_nat j = outside_right_ordinal) ∧
    rp_cost plan = readableCandidateCost w meta layout placed e from to (rp_points plan)
      (Z.of_nat k * 9 + Z.of_nat j) (natural_sides e from to).
Proof.
  intros Hin start stop. revert Hin. unfold try_sides. fold start stop.
  destruct (candidate_set _ _ _ _ start stop _ _ _) as [|p plans] eqn:Hset; cbn [plans_of].
  - destruct (readableAutomaticVia _ _ _ _ _ _ _ _ start stop _) as [failure|via]; cbn [plans_of];
      [by intros ?%not_elem_of_nil|].
    intros [= -> ->]%list_elem_of_singleton. exists 6%nat, via. split; [done|]. split; [by right|done].
  - rewrite <-Hset. intros (q&[= -> ->]&Hq)%list_elem_of_fmap.
    apply elem_of_candidate_set in Hq as (i&family&via&Hraw&_&->). exists i, via.
    split; [done|]. split; [left; by exists family|done].
Qed.

(** Every feasible candidate of a pair of sides is among its plans. *)
Lemma try_sides_candidate placed index e from to ports k sides i family via :
  let start := start_of from ports k sides in
  let stop := end_of to ports k sides in
  rawCandidates w layout e from to start stop sides !! i = Some (family, via) →
  feasible placed e (route_through start stop via) from to sides = true →
  ({| rp_points := route_through start stop via;
      rp_cost := readableCandidateCost w meta layout placed e from to (route_through start stop via)
        (Z.of_nat k * 9 + Z.of_nat i) (natural_sides e from to) |}, sides)
    ∈ plans_of (try_sides w meta layout placed index e from to ports k sides).
Proof.
  intros start stop Hraw Hf. unfold try_sides. fold start stop.
  assert (Hset : {| rp_points := route_through start stop via;
      rp_cost := readableCandidateCost w meta layout placed e from to (route_through start stop via)
        (Z.of_nat k * 9 + Z.of_nat i) (natural_sides e from to) |} ∈
    candidate_set placed e from to start stop sides (Z.of_nat k * 9) (natural_sides e from to)).
  { apply elem_of_candidate_set. by exists i, family, via. }
  destruct (candidate_set _ _ _ _ _ _ _ _ _) as [|p ps]; [by apply not_elem_of_nil in Hset|].
  cbn [plans_of]. apply list_elem_of_fmap. by eexists.
Qed.

Lemma automatic_route_feasible placed index e from to primary ports planned : authored_known e → known_pair primary →
  readableAutomaticRoute w meta layout placed index e from to primary ports = inr planned →
  allowed_sides e (pn_sides planned) = true ∧ known_pair (pn_sides planned) ∧
  feasible placed e (pn_points planned) from to (pn_sides planned) = true ∧ turning (pn_points planned).
Proof.
  intros He Hprimary. unfold readableAutomaticRoute.
  destruct (cheapest _) as [|[plan sides] rest] eqn:Hc.
  { destruct (merge_sort _ _) as [|[? ?] ?]; [|done]. by destruct (_ || _). }
  intros [= <-]. cbn [pn_points pn_sides].
  assert (Hin : (plan, sides) ∈ (plan, sides) :: rest) by (by left). rewrite <-Hc in Hin.
  apply cheapest_subset, list_elem_of_bind in Hin as (attempt&Hin&(ordinal&sides'&Hs&->)%elem_of_imap).
  apply list_elem_of_lookup_2 in Hs.
  destruct (side_pairs_spec e [primary] sides' He) as [Ha Hk]; [by apply Forall_singleton|done|].
  by apply try_sides_feasible in Hin as (->&?&?).
Qed.

(** ** The state of the routes *)

(** The cached sides are sides. *)
Definition sides_known st : Prop := ∀ i sides, rs_sides st !! i = Some (Some sides) → known_pair sides.

Lemma automatic_sides_known placed e from to sides : authored_known e →
  automatic_sides w meta layout placed e from to = Some sides → known_pair sides.
Proof.
  intros He. unfold automatic_sides. set (pairs := side_pairs e _).
  assert (Hpairs : ∀ s, s ∈ pairs → known_pair s).
  { intros s Hs. apply (side_pairs_spec e _ s He) in Hs as [_ ?]; [done|]. apply Forall_app_2.
    - destruct (legacyAutomaticOneBendSides _ _ _ _ _) eqn:E; [|done]. by apply Forall_singleton, (legacy_sides_known _ _ _ _ _ _ E).
    - by apply Forall_singleton, natural_sides_known. }
  set (plans := concat _).
  assert (Hplans : ∀ p s, (p, s) ∈ plans → s ∈ pairs).
  { intros p s (i&s'&Hs&Hp)%elem_of_concat_imap. apply list_elem_of_fmap in Hp as (q&[= -> ->]&_).
    by eapply list_elem_of_lookup_2. }
  assert (Hhead : snd <$> head (cheapest plans) = Some sides → known_pair sides).
  { destruct (cheapest plans) as [|[p s] rest] eqn:E; [done|]. intros [= <-]. apply Hpairs, (Hplans p).
    apply cheapest_subset. rewrite E. by left. }
  destruct pairs as [|primary pairs]; [done|].
  destruct (sides_plans _ _ _ _ _ _ _ _ _); [done|]. intros [= <-]. apply Hpairs. by left.
Qed.

(** Choosing the sides of an edge changes nothing but its entry of the cache. *)
Definition same_but (index : nat) st st' : Prop :=
  rs_placed st' = rs_placed st ∧ ∀ j, j ≠ index → rs_sides st' !! j = rs_sides st !! j.

Lemma readableAutomaticSides_spec index e from to st : authored_known e → sides_known st →
  let r := readableAutomaticSides w meta layout index e from to st in
  (∀ sides, r.1 = Some sides → known_pair sides) ∧ sides_known r.2 ∧ same_but index st r.2.
Proof.
  intros He Hst. unfold readableAutomaticSides. destruct (_ || _); [done|].
  destruct (rs_sides st !! index) as [sides|] eqn:Hi; cbn [fst snd].
  - split; [|done]. intros s ->. by apply (Hst index).
  - assert (Hnew : ∀ s, automatic_sides w meta layout (rs_placed st) e from to = Some s → known_pair s)
      by (intros s; by apply automatic_sides_known).
    split; [done|]. split.
    + intros j s. cbn [rs_sides]. destruct (decide (j = index)) as [->|Hj].
      * rewrite lookup_insert_eq. intros [= Hs]. by apply Hnew.
      * rewrite lookup_insert_ne by done. apply Hst.
    + split; [done|]. intros j Hj. cbn [rs_sides]. by rewrite lookup_insert_ne.
Qed.

Lemma edgeSides_spec index e from to st : readable w = true → authored_known e → sides_known st →
  let r := edgeSides w meta layout index e from to st in
  known_pair r.1 ∧ sides_known r.2 ∧ same_but index st r.2.
Proof.
  intros Hw He Hst. unfold edgeSides. rewrite Hw.
  assert (Hfallback : known_pair {| sp_fromSide := chosenSide (we_fromSide e) (defaultFromSide (mn_box from) (mn_box to));
      sp_toSide := chosenSide (we_toSide e) (defaultToSide (mn_box from) (mn_box to)) |}).
  { rewrite !chosenSide_authored. by apply natural_sides_known. }
  pose proof (readableAutomaticSides_spec index e from to st He Hst) as Hspec.
  destruct (readableAutomaticSides _ _ _ _ _ _ _ _) as [chosen st']; cbn [fst snd] in Hspec.
  destruct Hspec as (Hchosen&Hst'&Hsame).
  assert (Hrest : let r := match chosen with
    | Some sides => (sides, st')
    | None => if bool_decide (edge_key e ∈ channelLabelEdgeKeys layout) && negb (nonempty (we_fromSide e)) &&
                 negb (nonempty (we_toSide e))
              then ({| sp_fromSide := "top"; sp_toSide := "top" |}, st')
              else ({| sp_fromSide := chosenSide (we_fromSide e) (defaultFromSide (mn_box from) (mn_box to));
                       sp_toSide := chosenSide (we_toSide e) (defaultToSide (mn_box from) (mn_box to)) |}, st')
    end in known_pair r.1 ∧ sides_known r.2 ∧ same_but index st r.2).
  { destruct chosen as [s|]; [by auto|]. destruct (_ && _); [|done]. by split; [split; eexists|]. }
  destruct (rs_sides st !! index) as [[s|]|] eqn:Hi; [|exact Hrest..]. by split; [apply (Hst index)|].
Qed.

Lemma chosen_sides_kept index e from to st sides : readable w = true → rs_sides st !! index = Some (Some sides) →
  (edgeSides w meta layout index e from to st).1 = sides.
Proof. intros Hw Hs. unfold edgeSides. by rewrite Hw, Hs. Qed.

(** ** Controlled edges *)
Lemma collect_inr {A} (results : list (route_failure Q + A)) l a : collect results = inr l → a ∈ l → inr a ∈ results.
Proof.
  revert l. induction results as [|[failure|b] results IH]; intros l; cbn [collect]; [|done|].
  { intros [= <-] []%elem_of_nil. }
  destruct (collect results) as [|l']; [done|]. intros [= <-] [->|Ha]%elem_of_cons; [by left|right; by eapply IH].
Qed.

Lemma controlled_sides_known placed index e from to planned : authored_known e →
  readableControlledRoute w meta layout placed index e from to = inr (Some planned) → known_pair (pn_sides planned).
Proof.
  intros He. unfold readableControlledRoute. destruct (collect _) as [|materials] eqn:Hm; [done|].
  assert (Hk : ∀ m, m ∈ materials → known_pair (mz_sides m)).
  { intros m Hin. apply (collect_inr _ _ _ Hm) in Hin. apply elem_of_imap in Hin as (ordinal&sides&Hs&Hin).
    apply list_elem_of_lookup_2, (side_pairs_spec e) in Hs as [_ Hs];
      [|done|by apply Forall_singleton, natural_sides_known].
    unfold materialize in Hin. destruct (routeVia _ _ _ _ _ _ _ _ _ _ _ _); [done|]. by injection Hin as ->. }
  destruct (cheapest _) as [|[plan sides] rest] eqn:Hc.
  - destruct (hasAbsoluteRoutePins e).
    + intros H. apply (inj inr) in H. destruct (head (filter _ materials)) as [m|] eqn:Hh; cbn [fmap option_fmap option_map] in H.
      * injection H as <-. apply head_Some_elem_of, list_elem_of_filter in Hh as [_ Hh]. by apply Hk.
      * destruct materials as [|m ms]; [done|]. injection H as <-. apply Hk. by left.
    + destruct materials as [|m ms]; [done|]. destruct (readablePresetVia _ _ _ _ _ _ _ _ _ _ _); [done|].
      intros [= <-]. apply Hk. by left.
  - intros [= <-]. cbn [pn_sides].
    assert (Hin : (plan, sides) ∈ (plan, sides) :: rest) by (by left). rewrite <-Hc in Hin.
    apply cheapest_subset, list_elem_of_fmap in Hin as (m&[= _ ->]&[_ Hin]%list_elem_of_filter). by apply Hk.
Qed.

(** ** One edge *)
Lemma automatic_not_controlled e : automatic_route e = true → isReadableControlledRoute w e = false.
Proof.
  unfold automatic_route, isReadableControlledRoute. intros [Hp Hr]%andb_true_iff. rewrite Hr.
  apply negb_true_iff in Hp. rewrite Hp. by destruct (readable w).
Qed.

(** The edge at [index] is placed last, and its entry of the cache is all that changes. *)
Record placed_last (index : nat) e from to st st' (ps : list (point Q)) : Prop := {
  pz_placed : rs_placed st' = rs_placed st ++ [{| pr_index := index; pr_edge := e; pr_points := ps |}];
  pz_known : sides_known st';
  pz_same : ∀ j, j ≠ index → rs_sides st' !! j = rs_sides st !! j;
  pz_automatic : automatic_route e = true → ∃ sides, rs_sides st' !! index = Some (Some sides) ∧
    allowed_sides e sides = true ∧ known_pair sides ∧ feasible (rs_placed st) e ps from to sides = true ∧ turning ps
}.

Lemma place_planned_known index e planned st : sides_known st → known_pair (pn_sides planned) →
  sides_known (place_planned index e planned st).
Proof.
  intros Hst Hp j sides. unfold place_planned, place_route. cbn [rs_sides]. destruct (decide (j = index)) as [->|Hj].
  - rewrite lookup_insert_eq. by intros [= <-].
  - rewrite lookup_insert_ne by done. apply Hst.
Qed.

Lemma uncontrolled_placed index e from to st st' : readable w = true → authored_known e → sides_known st →
  uncontrolled_path w meta layout index e from to st = inr st' → ∃ ps, placed_last index e from to st st' ps.
Proof.
  intros Hw He Hst. unfold uncontrolled_path.
  pose proof (edgeSides_spec index e from to st Hw He Hst) as Hspec.
  destruct (edgeSides _ _ _ _ _ _ _ _) as [sides st1]; cbn [fst snd] in Hspec.
  destruct Hspec as (Hk&Hst1&Hplaced&Hsame). rewrite Hw. cbn [andb].
  destruct (automatic_route e) eqn:Ha.
  - destruct (readableAutomaticRoute _ _ _ _ _ _ _ _ _ _) as [|planned] eqn:Hr; [done|]. intros [= <-].
    rewrite Hplaced in Hr. apply automatic_route_feasible in Hr as (Hallowed&Hpk&Hf&Hturn); [|done..].
    exists (pn_points planned). split.
    + unfold place_planned, place_route. cbn [rs_placed]. by rewrite Hplaced.
    + by apply place_planned_known.
    + intros j Hj. unfold place_planned, place_route. cbn [rs_sides]. rewrite lookup_insert_ne by done. by apply Hsame.
    + intros _. exists (pn_sides planned). unfold place_planned, place_route. cbn [rs_sides]. by rewrite lookup_insert_eq.
  - destruct (routeVia _ _ _ _ _ _ _ _ _ _ _ _) as [|via]; [done|]. intros [= <-].
    eexists. split; [|done|done|by intros; congruence].
    unfold place_route. cbn [rs_placed]. rewrite Hplaced. reflexivity.
Qed.

Lemma path_placed index e from to st st' : readable w = true → authored_known e → sides_known st →
  (∀ r, r ∈ rs_placed st → pr_index r ≠ index) →
  path_for w meta layout index e from to st = inr st' → ∃ ps, placed_last index e from to st st' ps.
Proof.
  intros Hw He Hst Hnew. unfold path_for. destruct (existsb _ _) eqn:Hex.
  { apply existsb_exists in Hex as (r&Hr%list_elem_of_In&Hi%Nat.eqb_eq). by destruct (Hnew r Hr). }
  destruct (isReadableControlledRoute w e) eqn:Hc; [|by apply uncontrolled_placed].
  destruct (readableControlledRoute _ _ _ _ _ _ _ _) as [|[planned|]] eqn:Hr; [done| |by apply uncontrolled_placed].
  intros [= <-]. apply controlled_sides_known in Hr; [|done]. exists (pn_points planned). split.
  - done.
  - by apply place_planned_known.
  - intros j Hj. unfold place_planned, place_route. cbn [rs_sides]. by rewrite lookup_insert_ne.
  - intros Ha%automatic_not_controlled. congruence.
Qed.

(** ** All edges *)

(** An automatic edge is placed along a route that is feasible next to the routes
    placed before it, between the sides of its cache. *)
Record route_sound (before : list (placed_route Q)) (r : placed_route Q) st : Prop := {
  so_edge : wf_edges w !! pr_index r = Some (pr_edge r);
  so_order : Forall (λ q, (pr_index q < pr_index r)%nat) before;
  so_automatic : automatic_route (pr_edge r) = true → ∃ from to sides,
    ends_of w layout (pr_edge r) = Some (from, to) ∧ rs_sides st !! pr_index r = Some (Some sides) ∧
    allowed_sides (pr_edge r) sides = true ∧ known_pair sides ∧
    feasible before (pr_edge r) (pr_points r) from to sides = true ∧ turning (pr_points r)
}.

(** The first [count] edges are routed. *)
Record routed_edges (count : nat) st : Prop := {
  re_known : sides_known st;
  re_sound : ∀ before r after, rs_placed st = before ++ r :: after → route_sound before r st;
  re_only : ∀ r, r ∈ rs_placed st → (pr_index r < count)%nat;
  re_all : ∀ i e, (i < count)%nat → wf_edges w !! i = Some e → is_Some (ends_of w layout e) →
    ∃ r, r ∈ rs_placed st ∧ pr_index r = i
}.

Lemma route_sound_same index before r st st' : pr_index r ≠ index → (∀ j, j ≠ index → rs_sides st' !! j = rs_sides st !! j) →
  route_sound before r st → route_sound before r st'.
Proof.
  intros Hr Hsame [He Ho Ha]. split; [done..|]. intros (from&to&sides&?&?&?)%Ha. exists from, to, sides. by rewrite Hsame.
Qed.

Lemma routed_step count e from to st st' ps : wf_edges w !! count = Some e → ends_of w layout e = Some (from, to) →
  routed_edges count st → placed_last count e from to st st' ps → routed_edges (S count) st'.
Proof.
  intros He Hends [Hk Hs Ho Ha] [Hp Hk' Hsame Haut]. split; [done|..].
  - intros before r after Heq. rewrite Hp in Heq. destruct after as [|q after _] using rev_ind.
    + apply app_inj_tail in Heq as [<- <-]. split; cbn; [done|by apply Forall_forall|].
      intros (sides&?&?&?&?&?)%Haut. by exists from, to, sides.
    + rewrite app_comm_cons, app_assoc in Heq. apply app_inj_tail in Heq as [Heq _].
      apply (route_sound_same count _ _ st); [|done|by eapply Hs].
      assert (r ∈ rs_placed st) as Hr%Ho by (rewrite Heq; set_solver). lia.
  - intros r. rewrite Hp, elem_of_app, list_elem_of_singleton. intros [Hr%Ho| ->]; cbn; lia.
  - intros i e' Hi He' Hends'. rewrite Hp. destruct (decide (i = count)) as [->|Hne].
    + eexists. split; [apply elem_of_app; right; by left|done].
    + destruct (Ha i e') as (r&?&?); [lia|done..|]. exists r. split; [apply elem_of_app; by left|done].
Qed.

Lemma routed_skip count e st : wf_edges w !! count = Some e → ends_of w layout e = None →
  routed_edges count st → routed_edges (S count) st.
Proof.
  intros He Hends [Hk Hs Ho Ha]. split; [done..| |].
  - intros r Hr%Ho. lia.
  - intros i e' Hi He' Hends'. destruct (decide (i = count)) as [->|Hne].
    + simplify_eq. rewrite Hends in Hends'. by destruct Hends'.
    + apply (Ha i e'); [lia|done..].
Qed.

Lemma initial_sides_known : readable w = true → (∀ e, e ∈ wf_edges w → authored_known e) →
  routed_edges 0 (initial_state w meta layout).
Proof.
  intros Hw Hsides. unfold initial_state.
  assert (Hgen : ∀ l st, (∀ ie : nat * wedge Q, ie ∈ l → authored_known ie.2) → sides_known st → rs_placed st = [] →
    let st' := foldl (λ st ie, chosen_at_first w meta layout ie.1 ie.2 st) st l in sides_known st' ∧ rs_placed st' = []).
  { induction l as [|[i e] l IH]; intros st Hl Hst Hp; [done|]. cbn [foldl fst snd].
    assert (H : sides_known (chosen_at_first w meta layout i e st) ∧ rs_placed (chosen_at_first w meta layout i e st) = []).
    { unfold chosen_at_first. destruct (ends_of w layout e) as [[from to]|]; [|done]. destruct (is_auto _); [|done].
      destruct (edgeSides_spec i e from to st Hw) as (_&?&Hplaced&_); [by apply (Hl (i, e)); left|done|].
      split; [done|]. by rewrite Hplaced. }
    apply IH; [|apply H..]. intros ie Hie. apply Hl. by right. }
  destruct (Hgen (imap pair (wf_edges w)) {| rs_placed := []; rs_sides := ∅ |}) as [Hk Hp].
  - intros ie (i&e&Hi&->)%elem_of_imap. by eapply Hsides, list_elem_of_lookup_2.
  - by intros i sides.
  - done.
  - split; [done|..].
    + intros before r after H. rewrite Hp in H. by destruct before.
    + intros r. rewrite Hp. by intros ?%elem_of_nil.
    + intros. lia.
Qed.

Lemma route_edge_failed failure l : foldl (route_edge w meta layout) (inl failure) l = inl failure.
Proof. by induction l. Qed.

Lemma routed_fold l done_ st st' : readable w = true → (∀ e, e ∈ wf_edges w → authored_known e) →
  wf_edges w = done_ ++ l → routed_edges (length done_) st →
  foldl (route_edge w meta layout) (inr st) (imap (λ i e, ((length done_ + i)%nat, e)) l) = inr st' →
  routed_edges (length (wf_edges w)) st'.
Proof.
  intros Hw Hsides. revert done_ st. induction l as [|e l IH]; intros done_ st Heq Hst.
  { cbn. intros [= <-]. by rewrite Heq, app_nil_r. }
  assert (He : wf_edges w !! length done_ = Some e) by (rewrite Heq; by rewrite list_lookup_middle).
  cbn [imap foldl]. unfold route_edge at 2. cbn [fst snd]. rewrite Nat.add_0_r.
  assert (Hnext : ∀ st1, routed_edges (S (length done_)) st1 →
    foldl (route_edge w meta layout) (inr st1) (imap ((λ i e, ((length done_ + i)%nat, e)) ∘ S) l) = inr st' →
    routed_edges (length (wf_edges w)) st').
  { intros st1 Hst1 Hrest. apply (IH (done_ ++ [e]) st1).
    - by rewrite Heq, <-app_assoc.
    - by rewrite length_app, Nat.add_comm.
    - rewrite <-Hrest. f_equal. apply imap_ext. intros i x _. cbn. f_equal. rewrite length_app. cbn. lia. }
  destruct (ends_of w layout e) as [[from to]|] eqn:Hends; [|apply Hnext; by eapply routed_skip].
  destruct (path_for _ _ _ _ _ _ _ _) as [failure|st1] eqn:Hpath; [by rewrite route_edge_failed|].
  apply Hnext. destruct (path_placed _ _ _ _ _ _ Hw (Hsides e (list_elem_of_lookup_2 _ _ _ He)) (re_known _ _ Hst)
    (λ r Hr, Nat.lt_neq _ _ (re_only _ _ Hst r Hr)) Hpath) as (ps&Hps). by eapply routed_step.
Qed.

(** When every edge is routed, every automatic edge is routed well. *)
Lemma routed_workflow st : readable w = true → (∀ e, e ∈ wf_edges w → authored_known e) →
  route_workflow w meta layout = inr st → routed_edges (length (wf_edges w)) st.
Proof.
  intros Hw Hsides H. by apply (routed_fold (wf_edges w) [] (initial_state w meta layout)); [..|apply initial_sides_known|].
Qed.
End Automatic.

(** ** The order of costs *)
Section Costs.
#[local] Open Scope Q_scope.

Lemma same_number_Q (a b : Q) : same_number a b = true ↔ a == b.
Proof.
  unfold same_number. rewrite andb_true_iff, !Q_nle. split; [intros [? ?]; by apply Qle_antisym|]. intros ->. split; lra.
Qed.
Lemma or_zero_Q (a : Q) : or_zero a == a.
Proof.
  unfold or_zero, truthy_number. cbn [nan Q_num negb andb].
  destruct (nle a (nof 0) && nle (nof 0) a) eqn:E; cbn [negb]; [|reflexivity].
  apply andb_true_iff in E as [H1 H2]. q_tests. q_ops. lra.
Qed.

(** The comparison of the lists of dimensions is lexicographic. *)
Fixpoint lexicographic (ls rs : list Q) : Prop :=
  match ls, rs with l :: ls, r :: rs => l < r ∨ l == r ∧ lexicographic ls rs | _, _ => True end.

Lemma compare_lexicographic ls rs : compare_dimensions ls rs <= 0 ↔ lexicographic ls rs.
Proof.
  revert rs. induction ls as [|l ls IH]; intros [|r rs]; cbn [compare_dimensions lexicographic]; try (q_ops; split; [done|lra]).
  destruct (same_number (or_zero l) (or_zero r)) eqn:E.
  - apply same_number_Q in E. rewrite !or_zero_Q in E. rewrite IH. split; [by right|]. intros [?|[_ ?]]; [lra|done].
  - assert (Hne : ¬ l == r) by (rewrite <-(or_zero_Q l), <-(or_zero_Q r), <-same_number_Q; by rewrite E).
    q_ops. rewrite !or_zero_Q. split; [|intros [?|[? _]]; [lra|done]].
    intros H. left. apply Qle_lteq in H as [H|H]; [lra|]. exfalso. lra.
Qed.

Lemma lexicographic_total ls rs : lexicographic ls rs ∨ lexicographic rs ls.
Proof.
  revert rs. induction ls as [|l ls IH]; intros [|r rs]; cbn; auto.
  destruct (Q_dec l r) as [[?|?]|?]; [by auto..|]. destruct (IH rs); [left|right]; right; by split; [lra|].
Qed.
Lemma lexicographic_trans ls ms rs : length ls = length ms → length ms = length rs →
  lexicographic ls ms → lexicographic ms rs → lexicographic ls rs.
Proof.
  revert ms rs. induction ls as [|l ls IH]; intros [|m ms] [|r rs] Hl Hr; cbn in *; try done.
  intros [?|[? Hlm]] [?|[? Hmr]]; try (left; lra). right. split; [lra|]. eapply (IH ms); eauto with lia.
Qed.

Lemma cost_le_lexicographic (c d : route_cost Q) : cost_le c d = true ↔ lexicographic (cost_dimensions c) (cost_dimensions d).
Proof. unfold cost_le, compareCost. rewrite Q_nle. q_ops. apply compare_lexicographic. Qed.
End Costs.

#[export] Instance cheaper_total {A} (cost : A → route_cost Q) : Total (before (λ p q, cost_le (cost p) (cost q))).
Proof. intros p q. unfold before. rewrite !cost_le_lexicographic. apply lexicographic_total. Qed.
#[export] Instance cheaper_trans {A} (cost : A → route_cost Q) : Transitive (before (λ p q, cost_le (cost p) (cost q))).
Proof. intros p q r. unfold before. rewrite !cost_le_lexicographic. by apply lexicographic_trans. Qed.

Lemma cheapest_least (plans : list (route_plan Q * side_pair)) best rest : cheapest plans = best :: rest →
  ∀ p, p ∈ plans → cost_le (rp_cost best.1) (rp_cost p.1) = true.
Proof.
  unfold cheapest. set (R := before _). intros Heq p Hp.
  assert (Hs : StronglySorted R (merge_sort R plans)).
  { apply StronglySorted_merge_sort.
    - apply (cheaper_trans (λ p : route_plan Q * side_pair, rp_cost p.1)).
    - apply (cheaper_total (λ p : route_plan Q * side_pair, rp_cost p.1)). }
  rewrite <-(merge_sort_Permutation R plans) in Hp. rewrite Heq in Hp, Hs. apply StronglySorted_inv in Hs as [_ Hs].
  apply elem_of_cons in Hp as [->|Hp].
  - destruct (cheaper_total rp_cost best.1 best.1) as [H|H]; exact H.
  - rewrite Forall_forall in Hs. exact (Hs p Hp).
Qed.

(** * Properties *)

(** C23: an automatic edge takes the cheapest of its feasible candidates.  Whatever
    was placed before, the route that is returned joins a pair of sides the author
    allows, is feasible there, and is one of the candidates of these sides or the
    outside one that probing found; it costs at most as much, in the order of the
    dimensions of the cost, the number of the candidate being the last, as any
    feasible route of any of the nine families between any pair of sides the
    author allows. *)
Theorem cheapest_candidate_chosen (w : workflow Q) (meta : wmeta Q) (layout : wlayout Q) placed index e from to primary ports planned :
  authored_known e → known_pair primary →
  readableAutomaticRoute w meta layout placed index e from to primary ports = inr planned →
  let cost ps z := readableCandidateCost w meta layout placed e from to ps z (natural_sides e from to) in
  allowed_sides e (pn_sides planned) = true ∧
  readableCandidateIsFeasible w meta layout placed e (pn_points planned) from to (pn_sides planned) = true ∧
  ∃ k0 j via0, side_pairs e [primary] !! k0 = Some (pn_sides planned) ∧
    let start0 := start_of from ports k0 (pn_sides planned) in
    let stop0 := end_of to ports k0 (pn_sides planned) in
    pn_points planned = route_through start0 stop0 via0 ∧
    ((∃ family0, rawCandidates w layout e from to start0 stop0 (pn_sides planned) !! j = Some (family0, via0)) ∨
     Z.of_nat j = outside_right_ordinal) ∧
    ∀ k sides i family via, side_pairs e [primary] !! k = Some sides →
      let start := start_of from ports k sides in
      let stop := end_of to ports k sides in
      let route := route_through start stop via in
      rawCandidates w layout e from to start stop sides !! i = Some (family, via) →
      readableCandidateIsFeasible w meta layout placed e route from to sides = true →
      (compareCost (cost (pn_points planned) (Z.of_nat k0 * 9 + Z.of_nat j)%Z)
         (cost route (Z.of_nat k * 9 + Z.of_nat i)%Z) <= 0)%Q.
Proof.
  intros He Hp Hplan cost. destruct (automatic_route_feasible _ _ _ _ _ _ _ _ _ _ _ He Hp Hplan) as (Ha&_&Hfeas&_).
  split; [done|]. split; [done|]. clear Hfeas Ha. revert Hplan. unfold readableAutomaticRoute.
  destruct (cheapest _) as [|[plan sides] rest] eqn:Hc.
  { destruct (merge_sort _ _) as [|[? ?] ?]; [|done]. by destruct (_ || _). }
  intros [= <-]. cbn [pn_points pn_sides].
  assert (Hin : (plan, sides) ∈ (plan, sides) :: rest) by (by left). rewrite <-Hc in Hin.
  apply cheapest_subset, list_elem_of_bind in Hin as (attempt&Hin&(k0&sides'&Hs&->)%elem_of_imap).
  assert (sides' = sides) as ->.
  { revert Hin. unfold try_sides. destruct (readableAutomaticCandidateSet _ _ _ _ _ _ _ _ _ _ _ _) eqn:Hset; cbn [plans_of].
    - destruct (readableAutomaticVia _ _ _ _ _ _ _ _ _ _ _); cbn; [by intros ?%not_elem_of_nil|].
      by intros [= _ ->]%list_elem_of_singleton.
    - rewrite <-Hset. by intros (?&[= _ ->]&_)%list_elem_of_fmap. }
  destruct (try_sides_plan _ _ _ _ _ _ _ _ _ _ _ _ _ Hin) as (j&via0&Hps&Hj&Hcost).
  exists k0, j, via0. split; [done|]. cbv zeta. split; [done|]. split; [done|].
  intros k sides' i family via Hk Hraw Hf. unfold cost. rewrite <-Hcost.
  pose proof (try_sides_candidate w meta layout placed index e from to ports k sides' i family via Hraw Hf) as Hcand.
  assert (Hleast := cheapest_least _ _ _ Hc _ (proj2 (list_elem_of_bind _ _ _)
    (ex_intro _ _ (conj Hcand (proj2 (elem_of_imap _ _ _) (ex_intro _ k (ex_intro _ sides' (conj Hk eq_refl)))))))).
  cbn [fst rp_cost] in Hleast. unfold cost_le in Hleast. q_tests. exact Hleast.
Qed.

(** C22: every automatic edge of a document that is routed has a feasible route.
    When the routing of a readable document succeeds, each of its edges with
    known ends and without pins or preset is placed along a route that is
    orthogonal, honours its sides, keeps the minimal lengths, and stays clear of
    the nodes, the legend, the headers, the borders of frames, and of the routes
    and labels of all edges that were placed before it; its sides are the ones
    the cache holds, and those the author states. *)
Theorem automatic_routes_feasible (w : workflow Q) (meta : wmeta Q) (layout : wlayout Q) st i e :
  readable w = true → (∀ e', e' ∈ wf_edges w → authored_known e') → route_workflow w meta layout = inr st →
  wf_edges w !! i = Some e → is_Some (ends_of w layout e) → automatic_route e = true →
  ∃ before ps after from to sides, rs_placed st = before ++ {| pr_index := i; pr_edge := e; pr_points := ps |} :: after ∧
    Forall (λ q, (pr_index q < i)%nat) before ∧ ends_of w layout e = Some (from, to) ∧
    rs_sides st !! i = Some (Some sides) ∧ allowed_sides e sides = true ∧
    readableCandidateIsFeasible w meta layout before e ps from to sides = true.
Proof.
  intros Hw Hsides Hroute He Hends Ha. pose proof (routed_workflow _ _ _ _ Hw Hsides Hroute) as [_ Hs _ Hall].
  destruct (Hall i e) as (r&Hr&<-); [by eapply lookup_lt_Some|done..|].
  apply list_elem_of_split in Hr as (before&after&Heq). destruct (Hs _ _ _ Heq) as [He' Ho Haut].
  rewrite He in He'. injection He' as ->. destruct r as [i e ps]. cbn in *.
  destruct (Haut Ha) as (from&to&sides&?&?&?&_&?&_). by exists before, ps, after, from, to, sides.
Qed.

(** ** A document that is routed *)
Definition short_workflow : workflow Q :=
  {| schema_version := 2;
     wf_lanes := [{| ln_id := "a"; ln_label := "A"; ln_variant := None |}; {| ln_id := "b"; ln_label := "B"; ln_variant := None |}];
     wf_nodes := [plain_node "x" "a" 0 "X"; plain_node "y" "a" 2 "Y"; plain_node "z" "b" 3 "Z"];
     wf_edges := [plain_edge "x" "y" (Some "ok"); plain_edge "y" "z" None];
     wf_phases := None; wf_groups := None; wf_mainPath := None; semanticChecks := None |}.
Definition short_meta : wmeta Q :=
  {| mt_legend := Some {| lg_mode := Some "hidden"; lg_entries := [] |}; mt_viewBox := None;
     mt_qualityProfile := Some "showcase" |}.
Definition short_layout : wlayout Q := createReadableLayout short_workflow no_feedback.

(** A result that is no failure. *)
Definition succeeds {A B} (r : A + B) : bool := match r with inr _ => true | inl _ => false end.
Lemma succeeds_inr {A B} (r : A + B) : succeeds r = true → ∃ b, r = inr b.
Proof. destruct r; [done|eauto]. Qed.

Lemma short_routed : ∃ st, route_workflow short_workflow short_meta short_layout = inr st.
Proof. apply succeeds_inr. vm_compute. reflexivity. Qed.
Lemma short_edges e : e ∈ wf_edges short_workflow → automatic_route e = true ∧ authored_known e ∧ we_labelAt e = None.
Proof.
  unfold short_workflow. cbn [wf_edges]. rewrite !elem_of_cons, elem_of_nil. 
  intros [->|[->|[]]]; (split; [reflexivity|split; [by intros s [[=]|[=]]|reflexivity]]).
Qed.

Lemma automatic_routes_feasible_witness : ∃ st ps from to sides,
  route_workflow short_workflow short_meta short_layout = inr st ∧
  readableCandidateIsFeasible short_workflow short_meta short_layout [] (plain_edge "x" "y" (Some "ok")) ps from to sides = true.
Proof.
  destruct short_routed as [st Hst]. exists st.
  destruct (automatic_routes_feasible short_workflow short_meta short_layout st 0 (plain_edge "x" "y" (Some "ok")))
    as (before&ps&after&from&to&sides&_&Ho&_&_&_&Hf).
  - reflexivity.
  - intros e He. by apply short_edges.
  - exact Hst.
  - reflexivity.
  - assert (H : bool_decide (is_Some (ends_of short_workflow short_layout (plain_edge "x" "y" (Some "ok")))) = true)
      by (vm_compute; reflexivity). by apply bool_decide_eq_true in H.
  - reflexivity.
  - exists ps, from, to, sides. split; [exact Hst|]. destruct before as [|q before]; [exact Hf|].
    exfalso. inversion Ho as [|? ? Hq]. lia.
Defined.

(** The straight route is at least as cheap as the corridor between the lanes. *)
Definition short_sides : side_pair := {| sp_fromSide := "right"; sp_toSide := "left" |}.
Definition short_link : wedge Q := plain_edge "x" "y" (Some "ok").
Definition short_corridor (from to : measured_node Q) : list (point Q) :=
  let start := start_of from None 0 short_sides in
  let stop := end_of to None 0 short_sides in
  match rawCandidates short_workflow short_layout short_link from to start stop short_sides !! 3%nat with
  | Some (_, via) => route_through start stop via
  | None => []
  end.
Lemma short_plan : ∃ from to planned, ends_of short_workflow short_layout short_link = Some (from, to) ∧
  readableAutomaticRoute short_workflow short_meta short_layout [] 0 short_link from to short_sides None = inr planned ∧
  readableCandidateIsFeasible short_workflow short_meta short_layout [] short_link (short_corridor from to) from to short_sides = true.
Proof.
  assert (H : match ends_of short_workflow short_layout short_link with
    | Some (from, to) =>
        succeeds (readableAutomaticRoute short_workflow short_meta short_layout [] 0 short_link from to short_sides None) &&
        readableCandidateIsFeasible short_workflow short_meta short_layout [] short_link (short_corridor from to) from to short_sides
    | None => false end = true) by (vm_compute; reflexivity).
  destruct (ends_of _ _ _) as [[from to]|]; [|done]. apply andb_true_iff in H as [[planned Hp]%succeeds_inr Hf]. by exists from, to, planned.
Qed.
Lemma cheapest_candidate_chosen_witness : ∃ from to planned number,
  readableAutomaticRoute short_workflow short_meta short_layout [] 0 short_link from to short_sides None = inr planned ∧
  readableCandidateIsFeasible short_workflow short_meta short_layout [] short_link (pn_points planned) from to
    (pn_sides planned) = true ∧
  let cost ps z := readableCandidateCost short_workflow short_meta short_layout [] short_link from to ps z
                     (natural_sides short_link from to) in
  (compareCost (cost (pn_points planned) number) (cost (short_corridor from to) 3%Z) <= 0)%Q.
Proof.
  destruct short_plan as (from&to&planned&Hends&Hplan&Hf).
  assert (Hk : known_pair short_sides) by (split; by eexists).
  assert (Hl : authored_known short_link) by (by intros s [[=]|[=]]).
  destruct (cheapest_candidate_chosen _ _ _ _ _ _ _ _ _ _ _ Hl Hk Hplan) as (_&Hfeas&k0&j&via0&_&_&_&H).
  exists from, to, planned, (Z.of_nat k0 * 9 + Z.of_nat j)%Z.
  split; [exact Hplan|]. split; [exact Hfeas|]. cbv zeta in H |- *.
  assert (Hfirst : side_pairs short_link [short_sides] !! 0%nat = Some short_sides) by reflexivity.
  specialize (H 0%nat short_sides 3%nat). unfold short_corridor in Hf |- *.
  destruct (rawCandidates _ _ _ _ _ _ _ _ !! 3%nat) as [[family via]|] eqn:Hraw; 
    [|apply feasible_orthogonal in Hf as [Hlen _]; cbn in Hlen; lia].
  exact (H family via Hfirst eq_refl Hf).
Defined.

(** ** What a failed search throws *)

(** When no route is found for an edge with a label that is not pinned, and an
    edge placed before has a pin, the search throws a [TypeError]: the candidates
    its diagnosis is given have no points to measure a label with.  Neither the
    request for more room nor the diagnostic is produced. *)
Lemma unpinned_label_throws (w : workflow Q) (meta : wmeta Q) (layout : wlayout Q) placed index e from to (start stop : point Q) sides r :
  r ∈ placed → pr_index r ≠ index → has_labelAt (pr_edge r) || hasAbsoluteRoutePins (pr_edge r) = true →
  nonempty (we_label e) = true → we_labelAt e = None →
  automatic_failure w layout placed index e from to start stop sides = RouteTypeError.
Proof.
  intros Hr Hi Hpin Hl Hat. unfold automatic_failure.
  assert (existsb (λ r, has_labelAt (pr_edge r) || hasAbsoluteRoutePins (pr_edge r)) placed = true) as ->.
  { apply existsb_exists. exists r. split; [by apply list_elem_of_In|done]. }
  rewrite orb_true_r. unfold classifyFailedAutomaticCandidatePins.
  destruct (filter _ placed) as [|q prior] eqn:E.
  - exfalso. eapply not_elem_of_nil. rewrite <-E. by apply list_elem_of_filter.
  - by rewrite Hl, Hat.
Qed.
