(* ===== verification/WorkflowChecks.v ===== *)
(** * The validation of a workflow
      ([src/.agents/skills/archify/renderers/workflow/workflow-compiler.mjs], [validateWorkflow])

    What is wrong with a workflow whose edges are routed: with its identifiers,
    its nodes, phases and groups, its edges, its main path, its labels, and what
    the composition gates of the shared geometry report.  A document that
    conforms to the schema has the arrays and the integers the function asks for
    first.

    A brand mark is resolved from a generated table or captured from a web site:
    which nodes have one is a parameter.  A node in an unknown lane has no
    coordinates, and an edge at such a node no route. *)

From Stdlib Require Import QArith.
From stdpp Require Import sorting pretty gmap.
From S2P Require Import Prelude Num JsValue Geometry Routes Analyses Ports Checks TextFit Legend Workflow SemanticContract ReadableLayout LaneGeometry WorkflowCanvas RouteCandidates RouteSearch.
#[local] Open Scope Z_scope.

(** [nodeTextFit], the minima. *)
Definition labelMinimum : Z := 9.
Definition sublabelMinimum : Z := 6.
Definition tagMinimum : Z := 6.

(** An entry of [labelRects]. *)
Record placed_label_rect (N : Type) := { pl_box : label_box N; pl_text : string; pl_point : point N }.
Arguments pl_box {N} _.
Arguments pl_text {N} _.
Arguments pl_point {N} _.

Section Validation.
Context {N : Type} `{!JsNum N, !JsMath N}.
Context (w : workflow N) (meta : wmeta N) (layout : wlayout N) (brandMarkFor : wnode N → bool) (st : route_state N).
#[local] Open Scope js_scope.
#[local] Abbreviation point := (point N) (only parsing).
Implicit Types (n : wnode N) (b : box N) (e : wedge N).

Definition px (x : N) : string := cat [nshow x; "px"].
Definition round_px (x : N) : string := px (nround x).

(** ** Identifiers *)
Definition repeated (ids : list string) : bool := negb (length (id_set ids) =? length ids)%nat.
Definition identifier_problems : list string :=
  (if repeated (map ln_id (wf_lanes w)) then ["Lane ids must be unique."] else []) ++
  (if repeated (map wn_id (wf_nodes w)) then ["Node ids must be unique."] else []) ++
  (if repeated (map ph_id (asArray (wf_phases w))) then ["Phase ids must be unique."] else []) ++
  (if repeated (map gr_id (asArray (wf_groups w))) then ["Group ids must be unique."] else []).

(** ** Nodes *)
(** [nodes.values()], before they are measured. *)
Definition all_nodes : list (wnode N) := omap (λ id, nodesById w !! id) (id_set (map wn_id (wf_nodes w))).
Definition has_node (id : string) : bool := bool_decide (is_Some (nodesById w !! id)).
Definition lane_ids : list string := map ln_id (wf_lanes w).
Definition known_lane (id : string) : bool := bool_decide (id ∈ lane_ids).
Definition column_count : Z := Z.of_nat (length (colXs layout)).

Definition brandTopRailProblem n (width minimumFontSize : N) : option string :=
  if negb (brandMarkFor n) then None
  else
    let available := width - nof 48 in
    let required := nof (textUnits (wn_label n)) * minimumFontSize * nlit 6 10 in
    if available >=? required then None
    else Some (cat ["Node "; quoted (wn_id n); " brand top rail leaves "; px (nmax (nof 0) available);
                    " for its label, but "; quoted (wn_label n); " needs ~"; px (math_ceil required); " at the ";
                    px minimumFontSize; " legible minimum — widen the node or shorten the label."]).

Definition text_problem n b (field lower : string) (value : option string) (minimum : Z) : list string :=
  if negb (nonempty value) then []
  else
    let text := text_or_empty value in
    let minimumW := minimumNodeTextWidth text (nof minimum) in
    let availableTextW := availableNodeTextWidth (width (bx_rect b)) in
    if minimumW >? availableTextW then
      [cat [field; " "; quoted text; " needs ~"; px (math_ceil minimumW); " at the "; pretty minimum;
            "px legible minimum, but node "; quoted (wn_id n); " provides "; px availableTextW; " — shorten the ";
            lower; " or increase node.width."]]
    else [].

Definition measured_problems n b : list string :=
  let r := bx_rect b in
  let estLabelW := nof (textUnits (wn_label n)) * nlit 68 10 in
  let top := default (nof 0) (laneTop w layout (wn_lane n)) in
  let contentTop := top + laneTitleH layout + laneGroupHeaderH w layout (wn_lane n) in
  let laneRight := laneX layout + laneW layout in
  (if estLabelW >? width r + nof 6 then
     [cat ["Label "; quoted (wn_label n); " (~"; round_px estLabelW; ") is wider than node "; quoted (wn_id n); " (";
           px (width r); ") — shorten the label or increase node.width."]]
   else []) ++
  option_list (brandTopRailProblem n (width r) (nof labelMinimum)) ++
  text_problem n b "Sublabel" "sublabel" (wn_sublabel n) sublabelMinimum ++
  text_problem n b "Tag" "tag" (wn_tag n) tagMinimum ++
  (if (x_ r <? laneX layout) || (x_ r + width r >? laneRight) then
     [cat ["Node "; quoted (wn_id n); " exceeds the horizontal bounds of lane "; quoted (wn_lane n); "."]] else []) ++
  (if (y_ r <? contentTop) || (y_ r + height r >? top + laneHeight w layout (wn_lane n)) then
     [cat ["Node "; quoted (wn_id n); " collides with the title or boundary of lane "; quoted (wn_lane n); "."]] else []).

Definition node_problems n : list string :=
  if negb (known_lane (wn_lane n)) then
    [cat ["Node "; quoted (wn_id n); " uses unknown lane "; quoted (wn_lane n); "."]]
  else if negb ((0 <=? wn_col n) && (wn_col n <? column_count))%Z then
    [cat ["Node "; quoted (wn_id n); " uses column "; pretty (wn_col n); ", but valid columns are integers 0..";
          pretty (column_count - 1)%Z; "."]]
  else match measureNode w layout n with
  | None => []
  | Some b => if negb (isFinitePoint [x_ (bx_rect b); y_ (bx_rect b); cx b; cy b]) then
                [cat ["Node "; quoted (wn_id n);
                      " produced non-finite coordinates — check col, width, height, and yOffset are numbers."]]
              else measured_problems n b
  end.

(** ** Phases and groups *)
Definition range_text (fromCol toCol : Z) : string := cat [pretty fromCol; ".."; pretty toCol].
Definition phase_problem (p : phase) : list string :=
  let estLabelW := nof (textUnits (ph_label p)) * nlit 56 10 in
  let span := bd_width (phaseSpan w layout p) in
  (if ordered_range (ph_fromCol p) (ph_toCol p) column_count then []
   else [cat ["Phase "; quoted (ph_id p); " uses invalid columns "; range_text (ph_fromCol p) (ph_toCol p);
              "; use an ordered range within 0.."; pretty (column_count - 1)%Z; "."]]) ++
  (if estLabelW >? span + nof 8 then
     [cat ["Phase label "; quoted (ph_label p); " (~"; round_px estLabelW; ") is wider than its "; round_px span;
           " span — shorten the label or widen the phase range."]] else []).

Definition phase_le (a b : phase) : bool :=
  ((ph_fromCol a <? ph_fromCol b) || ((ph_fromCol a =? ph_fromCol b) && (ph_toCol a <=? ph_toCol b)))%Z.
Definition phaseRanges : list phase :=
  merge_sort (before phase_le)
    (filter (λ p, ordered_range (ph_fromCol p) (ph_toCol p) column_count = true) (asArray (wf_phases w))).

(** The phases that overlap an earlier one, up to the first that starts after it. *)
Fixpoint overlapping_phases (earlier : phase) (later : list phase) : list string :=
  match later with
  | [] => []
  | p :: later =>
      if (ph_toCol earlier <? ph_fromCol p)%Z then []
      else cat ["Phase "; quoted (ph_id p); " ("; range_text (ph_fromCol p) (ph_toCol p); ") overlaps phase ";
                quoted (ph_id earlier); " ("; range_text (ph_fromCol earlier) (ph_toCol earlier); ") — start at col ";
                pretty (ph_toCol earlier + 1)%Z; " or later, or end the earlier phase at col ";
                pretty (ph_fromCol p - 1)%Z; "."] :: overlapping_phases earlier later
  end.
Fixpoint phase_overlaps (phases : list phase) : list string :=
  match phases with [] => [] | p :: phases => overlapping_phases p phases ++ phase_overlaps phases end.

Definition group_problems (g : group) : list string :=
  if negb (known_lane (gr_lane g)) then
    [cat ["Group "; quoted (gr_id g); " uses unknown lane "; quoted (gr_lane g); "."]]
  else
    (if ordered_range (gr_fromCol g) (gr_toCol g) column_count then []
     else [cat ["Group "; quoted (gr_id g); " uses invalid columns "; range_text (gr_fromCol g) (gr_toCol g);
                "; use an ordered range within 0.."; pretty (column_count - 1)%Z; "."]]) ++
    (if existsb (λ n, bool_decide (wn_lane n = gr_lane g) && (gr_fromCol g <=? wn_col n)%Z &&
                      (wn_col n <=? gr_toCol g)%Z) all_nodes then []
     else [cat ["Group "; quoted (gr_id g);
                " does not contain any nodes — align its lane/columns with the parallel or branch work it frames."]]).

(** ** Nodes next to each other *)
(** The lanes of the nodes in the order of their first nodes, with their nodes. *)
Definition byLane : list (string * list (measured_node N)) :=
  let measured := measuredNodes w layout in
  map (λ id, (id, filter (λ x, wn_lane (mn_node x) = id) measured)) (id_set (map (λ x, wn_lane (mn_node x)) measured)).
Definition close_problem (laneId : string) (ab : measured_node N * measured_node N) : list string :=
  if rectsOverlap (node_rect ab.1) (node_rect ab.2) (nof 8) then
    [cat ["Nodes "; quoted (node_id ab.1); " and "; quoted (node_id ab.2); " are less than 8px apart in lane ";
          quoted laneId; " — move one to another col, adjust yOffset, or reduce width/height."]]
  else [].
Definition close_problems : list string :=
  byLane ≫= λ lane_nodes, pairs lane_nodes.2 ≫= close_problem lane_nodes.1.

(** ** Edges *)
Definition placed_at (index : nat) : option (placed_route N) :=
  head (filter (λ r, pr_index r = index) (rs_placed st)).
Definition points_at (index : nat) : option (list point) := pr_points <$> placed_at index.

Definition edge_problems (index : nat) e : list string :=
  let name (id : string) := if nonempty (we_label e) then label_text e else id in
  (if has_node (we_from e) then []
   else [cat ["Edge "; quoted (name (we_from e)); " references unknown source "; quoted (we_from e); "."]]) ++
  (if has_node (we_to e) then []
   else [cat ["Edge "; quoted (name (we_to e)); " references unknown target "; quoted (we_to e); "."]]) ++
  match points_at index with
  | Some [a; b] =>
      let segmentLength := hypot_of (a, b) in
      if segmentLength <? nof 28 then
        [cat ["Edge "; quoted (we_from e); " -> "; quoted (we_to e); " is too short ("; round_px segmentLength;
              "; minimum 28px) — move the nodes farther apart or use a verified orthogonal route with readable clearance."]]
      else []
  | _ => []
  end.

(** ** Gates *)
Definition edge_relations : list (relation N) := imap edge_relation (wf_edges w).
Definition workflow_gate (hint : string) : gate N :=
  {| endpointIds := Some has_node; pathFor := λ r, points_at (rel_ref r); diagramType := "workflow";
     relationCollection := "edges"; profile := mt_qualityProfile meta; profileIsAuthoritative := true;
     routeHint := hint |}.

(** [edgeSides(edge)], with the caches the routing leaves. *)
Definition sides_of (r : relation N) : option side_pair :=
  e ← wf_edges w !! rel_ref r;
  '(from, to) ← ends_of w layout e;
  Some (edgeSides w meta layout (rel_ref r) e from to st).1.
Definition side_gate : list (diagnostic N) :=
  cleanEndpointSideProblems
    (workflow_gate "keep automatic routing, or choose fromSide/toSide and via points whose first and final segments cross node borders perpendicularly")
    (Some (λ r, sp_fromSide <$> sides_of r)) (Some (λ r, sp_toSide <$> sides_of r)) (λ _ _, true) edge_relations.
Definition node_obstacles : list (obstacle N) :=
  map (λ x, {| ob_id := node_id x; ob_rect := node_rect x |}) (measuredNodes w layout).
Definition flow_gate : list (diagnostic N) :=
  cleanFlowProblems
    (workflow_gate "adjust fromSide/toSide, set route/via or channel coordinates, or move the node to a clearer lane/column")
    "node" (nof 2) node_obstacles edge_relations.
Definition crossing_gate : list (diagnostic N) :=
  cleanCrossingProblems None
    (workflow_gate "adjust route/via, bias, or channel coordinates so the edges use separate lane corridors")
    (readable w) edge_relations.
Definition corridor_gate : list (diagnostic N) :=
  cleanAmbiguousCorridorProblems None
    (workflow_gate "adjust route/via, bias, or channel coordinates so unrelated edges do not visually merge")
    (nof 8) edge_relations.
Definition border_gate : list (diagnostic N) :=
  cleanBorderRunProblems None
    (workflow_gate "adjust route/via, bias, or channel coordinates so the edge crosses the lane or group perpendicularly instead of following its border")
    (compositionFrames w layout) edge_relations.
Definition rhythm_gate : list (diagnostic N) :=
  cleanRouteRhythmProblems None
    (workflow_gate "adjust route/via, bias, or channel coordinates so each turn has a readable run-up")
    (nof 16) (nof 8) edge_relations.

(** ** The main path *)
Definition main_step (from to : string) : list string :=
  match nodesById w !! from, nodesById w !! to with
  | Some a, Some b =>
      (if existsb (λ e, bool_decide (we_from e = from) && bool_decide (we_to e = to)) (wf_edges w) then []
       else [cat ["mainPath step "; quoted from; " -> "; quoted to;
                  " has no matching edge — add the edge or remove the pair from mainPath."]]) ++
      (if (wn_col b <? wn_col a)%Z then
         [cat ["mainPath step "; quoted from; " -> "; quoted to; " moves backward from col "; pretty (wn_col a); " to ";
               pretty (wn_col b); " — use a return edge outside mainPath for loops."]] else [])
  | _, _ => []
  end.
Fixpoint main_steps (path : list string) : list string :=
  match path with
  | from :: (to :: _) as path => main_step from to ++ main_steps path
  | _ => []
  end.
Definition main_path_problems : list string :=
  let path := asArray (wf_mainPath w) in
  (path ≫= λ id, if has_node id then [] else [cat ["mainPath references unknown node "; quoted id; "."]]) ++ main_steps path.

(** ** Labels *)
Definition labelRectFor (index : nat) e : option (placed_label_rect N) :=
  if negb (nonempty (we_label e)) then None
  else
    points ← points_at index;
    p ← workflowEdgeLabelPoint w e points;
    Some {| pl_box := {| lb_rect := label_mask e p; lb_relation := Some (edge_relation index e);
                         lb_index := Some (Z.of_nat index); lb_label := we_label e |};
            pl_text := label_text e; pl_point := p |}.
Definition labelRects : list (placed_label_rect N) := omap id (imap labelRectFor (wf_edges w)).
Definition pl_rect (l : placed_label_rect N) : rect N := lb_rect (pl_box l).

Definition label_node_problem (l : placed_label_rect N) (n : measured_node N) : list string :=
  if rectsOverlap (pl_rect l) (node_rect n) (nof 0 - nof 2) then
    [cat ["Label "; quoted (pl_text l); " overlaps node "; quoted (node_id n);
          " — adjust labelDx/labelDy/labelSegment or set labelAt."; NL;
          suggestLabelObstacleFix (pl_rect l) (pl_point l).1 (pl_point l).2
            {| ob_id := node_id n; ob_rect := node_rect n |} "node"]]
  else [].
Definition label_pair_problem (ab : placed_label_rect N * placed_label_rect N) : list string :=
  if rectsOverlap (pl_rect ab.1) (pl_rect ab.2) (nof 0 - nof 2) then
    [cat ["Labels "; quoted (pl_text ab.1); " and "; quoted (pl_text ab.2);
          " overlap — adjust labelDx/labelDy/labelSegment or route one relationship through a separate corridor."; NL;
          suggestLabelPairFix (pl_text ab.1, pl_rect ab.1) (pl_text ab.2, pl_rect ab.2)]]
  else [].
Definition label_node_problems : list string := labelRects ≫= λ l, measuredNodes w layout ≫= label_node_problem l.
Definition label_pair_problems : list string := pairs labelRects ≫= label_pair_problem.
Definition label_route_gate : list (diagnostic N) :=
  cleanLabelRouteClearanceProblems None
    (workflow_gate "adjust labelAt, labelDx, labelDy, or labelSegment; otherwise adjust the other relationship route/via/channel")
    (nof 4) (map pl_box labelRects) edge_relations.

(** ** The canvas of the fixed layout *)
Definition canvas_problems : list string :=
  if negb (schema_version w =? 1)%Z then []
  else
    let viewBox := initial_viewBox w meta layout in
    let right := laneX layout + laneW layout + nof 16 in
    let bottom := legendY w meta layout + nof 18 in
    (if viewBox.1 <? right then
       [cat ["viewBox width "; nshow viewBox.1; " clips the "; nshow (laneW layout);
             "px lanes — set meta.viewBox[0] to at least "; nshow right; "."]] else []) ++
    (if bottom >? viewBox.2 then
       [cat ["Legend exceeds viewBox height "; nshow viewBox.2; " — set meta.viewBox[1] to at least "; nshow bottom; "."]]
     else []).

(** ** [validateWorkflow], after the column capacity *)
Definition validateWorkflow : list string :=
  identifier_problems ++ (all_nodes ≫= node_problems) ++ (asArray (wf_phases w) ≫= phase_problem) ++
  phase_overlaps phaseRanges ++ (asArray (wf_groups w) ≫= group_problems) ++ close_problems ++
  concat (imap edge_problems (wf_edges w)) ++
  map d_message side_gate ++ map d_message flow_gate ++ map d_message crossing_gate ++ map d_message corridor_gate ++
  map d_message border_gate ++ map d_message rhythm_gate ++ main_path_problems ++ label_node_problems ++
  label_pair_problems ++ map d_message label_route_gate ++ canvas_problems.

(** ** [enforceLegacyColumnCapacity] *)
Definition with_size (n : measured_node N) : wnode N :=
  let m := mn_node n in
  {| wn_id := wn_id m; wn_lane := wn_lane m; wn_col := wn_col m; wn_type := wn_type m; wn_label := wn_label m;
     wn_sublabel := wn_sublabel m; wn_tag := wn_tag m; wn_width := Some (width (node_rect n));
     wn_height := Some (height (node_rect n)); wn_yOffset := wn_yOffset m |}.
Definition signed_clearance (from to : measured_node N) : N :=
  nabs (cx (mn_box to) - cx (mn_box from)) - width (node_rect from) / nof 2 - width (node_rect to) / nof 2.
Definition direct_clearance e (from to : measured_node N) : N :=
  if negb (bool_decide (is_Some (we_via e))) &&
     (bool_decide (route_of e = "auto") || bool_decide (route_of e = "straight")) &&
     (nabs (cy (mn_box from) - cy (mn_box to)) <? epsilon)
  then nof 28 else nof 8.
Definition capacity_problem e : option string :=
  '(from, to) ← ends_of w layout e;
  let a := mn_node from in
  let b := mn_node to in
  if negb (bool_decide (wn_lane a = wn_lane b)) || (wn_col a =? wn_col b)%Z then None
  else if negb (verticalIntervalsOverlap (with_size from) (with_size to) (nof 8)) then None
  else
    let actual := signed_clearance from to in
    if actual >=? direct_clearance e from to then None
    else
      let capacity := if actual <? nof 0 then cat ["overlap by "; px (nabs (nround actual))]
                      else cat ["leave only "; round_px actual; " of direct clearance"] in
      Some (cat ["Workflow columns "; pretty (wn_col a); "→"; pretty (wn_col b); " place nodes "; quoted (wn_id a);
                 " and "; quoted (wn_id b); " so they "; capacity; " under the fixed-v1 layout."]).
Definition enforceLegacyColumnCapacity : option string :=
  if (schema_version w =? 1)%Z then head (omap capacity_problem (wf_edges w)) else None.
End Validation.

(** ** Lists of problems *)
Lemma concat_imap_empty {A B} (f : nat → A → list B) (l : list A) :
  (∀ i a, l !! i = Some a → f i a = []) → concat (imap f l) = [].
Proof.
  intros H. destruct (concat (imap f l)) as [|b bs] eqn:E; [done|]. exfalso.
  assert (Hb : b ∈ concat (imap f l)) by (rewrite E; by left).
  apply elem_of_concat_imap in Hb as (i&a&Hi&Hb). rewrite (H i a Hi) in Hb. by apply elem_of_nil in Hb.
Qed.
Lemma omap_empty {A B} (f : A → option B) (l : list A) : (∀ a, a ∈ l → f a = None) → omap f l = [].
Proof.
  intros H. destruct (omap f l) as [|b bs] eqn:E; [done|]. exfalso.
  assert (Hb : b ∈ omap f l) by (rewrite E; by left). apply list_elem_of_omap in Hb as (a&Ha&Hb). by rewrite (H a Ha) in Hb.
Qed.
Lemma map_empty {A B} (f : A → B) (l : list A) : l = [] → map f l = [].
Proof. by intros ->. Qed.
Lemma bind_empty {A B} (f : A → list B) (l : list A) : (∀ a, a ∈ l → f a = []) → l ≫= f = [].
Proof.
  intros H. destruct (l ≫= f) as [|b bs] eqn:E; [done|]. exfalso.
  assert (Hb : b ∈ l ≫= f) by (rewrite E; by left). apply list_elem_of_bind in Hb as (a&Hb&Ha). rewrite (H a Ha) in Hb.
  by apply elem_of_nil in Hb.
Qed.
Lemma bind_nil_inv {A B} (f : A → list B) (l : list A) : l ≫= f = [] → ∀ a, a ∈ l → f a = [].
Proof.
  intros H a Ha. destruct (f a) as [|b bs] eqn:E; [done|]. exfalso.
  assert (Hb : b ∈ l ≫= f) by (apply list_elem_of_bind; exists a; rewrite E; split; [by left|done]).
  rewrite H in Hb. by apply elem_of_nil in Hb.
Qed.

Lemma negb_existsb_forall {A} (f : A → bool) (l : list A) : negb (existsb f l) = true → ∀ a, a ∈ l → f a = false.
Proof.
  intros H a Ha. destruct (f a) eqn:E; [|done]. exfalso. apply negb_true_iff, not_true_iff_false in H. apply H.
  apply existsb_exists. exists a. split; [by apply list_elem_of_In|done].
Qed.
Lemma forallb_all {A} (f : A → bool) (l : list A) : forallb f l = true → ∀ a, a ∈ l → f a = true.
Proof. rewrite forallb_forall. intros H a Ha. by apply H, list_elem_of_In. Qed.
Lemma bind_none {A B} (f : A → list B) (l : list A) : l ≫= f = [] ↔ ∀ a, a ∈ l → f a = [].
Proof. split; [apply bind_nil_inv|apply bind_empty]. Qed.
Lemma omap_none {A B} (f : A → option B) (l : list A) : omap f l = [] ↔ ∀ a, a ∈ l → f a = None.
Proof. split; [apply omap_nil|apply omap_empty]. Qed.
