(* ===== verification/WorkflowSpec.v ===== *)
(** * The routes pass the gates
      ([src/.agents/skills/archify/renderers/workflow/workflow-compiler.mjs])

    A document of the readable contract whose edges are all automatic, once it is
    routed, passes the gates of its validation that look at single routes, at
    nodes, frames and labels: what the search for routes rejects covers what
    those gates report.  Over the rationals. *)

From Stdlib Require Import QArith Qminmax Qabs Qround Lqa.
From stdpp Require Import sorting pretty gmap.
From S2P Require Import Prelude Num JsValue Geometry Routes Analyses Ports Checks TextFit Legend Workflow SemanticContract ReadableLayout LaneGeometry WorkflowCanvas RouteCandidates RouteSearch RouteSpec WorkflowChecks.
#[local] Open Scope Z_scope.

(** ** Geometry *)
Lemma rectsOverlap_comm (a b : rect Q) (gap : Q) : rectsOverlap a b gap = rectsOverlap b a gap.
Proof.
  unfold rectsOverlap. cbn [isFinitePoint forallb nfin Q_num andb negb].
  match goal with |- negb (?A || ?B || ?C || ?D) = _ => by destruct A, B, C, D end.
Qed.

(** A route as long as the longest tolerated cramped segment is shorter than a
    direct route may be. *)
Lemma nhypot_small (a b : Q) : (a * a + b * b <= 64 → nhypot a b <= 8)%Q.
Proof.
  intros H. unfold nhypot, Q_math. set (z := Qfloor _).
  assert (Hz : z ≤ 64 * 10 ^ 18).
  { rewrite Zle_Qle. eapply Qle_trans; [apply Qfloor_le|].
    change (inject_Z (64 * 10 ^ 18)) with (64 * inject_Z (10 ^ 18))%Q. apply Qmult_le_compat_r; [done|by vm_compute]. }
  unfold Qle. cbn [Qnum Qden].
  assert (Z.sqrt z ≤ 8 * 10 ^ 9); [|lia].
  destruct (Z.le_gt_cases z 0) as [Hneg|Hpos].
  - destruct (Z.eq_dec z 0) as [->|]; [by vm_compute|]. rewrite Z.sqrt_neg by lia. lia.
  - pose proof (Z.sqrt_spec z ltac:(lia)) as [Hs _]. nia.
Qed.

Lemma short_hypot (s : segment Q) : (manhattan s < 8 → hypot_of s <= 8)%Q.
Proof.
  unfold manhattan, hypot_of. intros H. apply nhypot_small. q_ops.
  destruct (nabs_cases (s.2.1 - s.1.1)%Q) as [[? E1]|[? E1]], (nabs_cases (s.2.2 - s.1.2)%Q) as [[? E2]|[? E2]];
    rewrite E1, E2 in H; nra.
Qed.

(** ** The routes of an automatic document *)
Section Gates.
Context (w : workflow Q) (meta : wmeta Q) (layout : wlayout Q) (st : route_state Q).
Hypothesis Hw : readable w = true.
Hypothesis Hauto : ∀ e, e ∈ wf_edges w → automatic_route e = true ∧ authored_known e ∧ we_labelAt e = None.
Hypothesis Hroute : route_workflow w meta layout = inr st.
#[local] Abbreviation feasible := (readableCandidateIsFeasible w meta layout).

(** An entry is in the list it splits. *)
Lemma elem_of_middle {A} (l1 l2 : list A) a : a ∈ l1 ++ a :: l2.
Proof using. apply elem_of_app. right. by left. Qed.

Lemma all_routed : routed_edges w meta layout (length (wf_edges w)) st.
Proof using Hw Hauto Hroute. apply routed_workflow; [done| |done]. intros e He. by apply Hauto. Qed.

(** What is known of the entry of an edge. *)
Record routed_well (i : nat) (ps : list (point Q)) (e : wedge Q) (before : list (placed_route Q)) : Prop := {
  rw_edge : wf_edges w !! i = Some e;
  rw_placed : ∃ after, rs_placed st = before ++ {| pr_index := i; pr_edge := e; pr_points := ps |} :: after;
  rw_turning : turning ps;
  rw_feasible : ∃ from to sides, ends_of w layout e = Some (from, to) ∧ rs_sides st !! i = Some (Some sides) ∧
    allowed_sides e sides = true ∧ feasible before e ps from to sides = true
}.

Lemma routed_at i ps : points_at st i = Some ps → ∃ e before, routed_well i ps e before.
Proof using Hw Hauto Hroute.
  unfold points_at, placed_at. destruct (head _) as [r|] eqn:Hr; [|done]. intros [= <-].
  apply head_Some_elem_of, list_elem_of_filter in Hr as [<- Hr].
  apply list_elem_of_split in Hr as (before&after&Heq). destruct all_routed as [_ Hs _ _].
  destruct (Hs _ _ _ Heq) as [He _ Ha]. destruct r as [i e ps]. cbn in *. exists e, before.
  destruct Ha as (from&to&sides&?&?&?&_&?&?); [by eapply Hauto, list_elem_of_lookup_2|].
  split; [done|by exists after|done|by exists from, to, sides].
Qed.

(** Of two entries, the one of the earlier edge was placed before the other. *)
Lemma placed_earlier i j ps qs e f bi bj : (i < j)%nat → routed_well i ps e bi → routed_well j qs f bj →
  {| pr_index := i; pr_edge := e; pr_points := ps |} ∈ bj.
Proof using Hw Hauto Hroute.
  intros Hij [_ [ai Hi] _ _] [_ [aj Hj] _ _].
  assert (Hin : {| pr_index := i; pr_edge := e; pr_points := ps |} ∈ rs_placed st) by (rewrite Hi; apply elem_of_middle).
  rewrite Hj in Hin. apply elem_of_app in Hin as [Hin|[Hin|Hin]%elem_of_cons]; [done|simplify_eq; lia|]. exfalso.
  apply list_elem_of_split in Hin as (l1&l2&->). destruct all_routed as [_ Hs _ _].
  destruct (Hs (bj ++ {| pr_index := j; pr_edge := f; pr_points := qs |} :: l1) _ l2 ltac:(by rewrite Hj, <-app_assoc))
    as [_ Ho _]. rewrite Forall_forall in Ho. specialize (Ho {| pr_index := j; pr_edge := f; pr_points := qs |}).
  cbn in Ho. assert (j < i)%nat; [|lia]. apply Ho, elem_of_middle.
Qed.

(** The conditions of feasibility, one by one. *)
Record feasible_facts (before : list (placed_route Q)) (e : wedge Q) (ps : list (point Q)) (from to : measured_node Q)
    (sides : side_pair) : Prop := {
  ff_length : (2 ≤ length ps)%nat;
  ff_orthogonal : orthogonalRoute ps = true;
  ff_sides : routeHonorsEndpointSides ps (sp_fromSide sides) (sp_toSide sides) = true;
  ff_rhythm : routeMeetsHardRhythm ps = true;
  ff_endpoints : routeClearsEndpointNodes ps from to = true;
  ff_nodes : routeClearsUnrelatedNodes w layout e ps = true;
  ff_label : routeLabelClearsNodes w layout e ps = true;
  ff_placed : routeClearsPlacedLabels w before e ps = true;
  ff_frames : routeClearsFrameBorders w layout ps = true
}.
Lemma feasible_spec before e ps from to sides : feasible before e ps from to sides = true →
  feasible_facts before e ps from to sides.
Proof using.
  unfold readableCandidateIsFeasible. rewrite !andb_true_iff. intros H. destruct_and! H. split; [by apply Nat.leb_le|done..].
Qed.

Lemma normal_at i ps e before : routed_well i ps e before → normalizeRoutePoints ps = ps.
Proof using.
  intros [_ _ Ht (from&to&sides&_&_&_&[_ Ho _ _ _ _ _ _ _]%feasible_spec)].
  apply andb_true_iff in Ho as [Hf Ho]. apply normalize_normal. split; [done| |done].
  destruct ps as [|p ps]; [done|]. by apply spaced_orthogonal.
Qed.

(** ** Sides *)
Lemma honors_sides (ps : list (point Q)) a b : routeHonorsEndpointSides ps a b = true →
  endpointSideIssue ps Source a = None ∧ endpointSideIssue ps Target b = None.
Proof using. unfold routeHonorsEndpointSides. by destruct (endpointSideIssue ps Source a), (endpointSideIssue ps Target b). Qed.

Lemma side_check_none (ps : list (point Q)) ep authored inferred s : endpointSideIssue ps ep s = None →
  (match authored with Some t => t = s | None => inferred = Some s end) → side_check ps ep authored inferred = [].
Proof using.
  intros Hs Hside. unfold side_check. destruct authored as [t|]; [subst t|rewrite Hside]; rewrite Hs; by destruct (bool_decide _).
Qed.

Lemma automatic_no_geometry i (e : wedge Q) : automatic_route e = true → hasAuthoredRouteGeometry (edge_relation i e) = false.
Proof using.
  unfold automatic_route, hasAbsoluteRoutePins, hasAuthoredRouteGeometry. cbn [rel_route rel_via edge_relation edge_relation_with].
  intros [Hp Hr]%andb_true_iff. apply negb_true_iff, orb_false_iff in Hp as [[Hv _]%orb_false_iff _]. rewrite Hv, orb_false_r.
  apply bool_decide_eq_true in Hr. unfold route_of in Hr. destruct (we_route e) as [r|]; [|done].
  destruct (nonempty (Some r)); [|done]. cbn [text_or_empty default from_option id] in Hr. by subst r.
Qed.

Lemma side_gate_passes : side_gate w meta layout st = [].
Proof using Hw Hauto Hroute.
  apply concat_imap_empty. intros i r Hr. unfold edge_relations in Hr. rewrite list_lookup_imap in Hr.
  destruct (wf_edges w !! i) as [e|] eqn:He; [|done]. injection Hr as <-.
  unfold relation_side_problems. destruct (_ || _); [done|]. cbn [negb pathFor workflow_gate rel_ref edge_relation edge_relation_with].
  destruct (points_at st i) as [[|p [|q ps]]|] eqn:Hp; try done.
  destruct (routed_at _ _ Hp) as (e'&before&[He' _ _ (from&to&sides&Hends&Hcache&Hallowed&Hf)]).
  rewrite He in He'. injection He' as <-. apply feasible_spec, ff_sides, honors_sides in Hf as [Hsource Htarget].
  destruct (Hauto e) as (Ha&_&_); [by eapply list_elem_of_lookup_2|].
  rewrite (automatic_no_geometry i e Ha).
  assert (Hsides : sides_of w meta layout st (edge_relation i e) = Some sides).
  { unfold sides_of. cbn [rel_ref edge_relation edge_relation_with]. rewrite He. cbn [mbind option_bind]. rewrite Hends.
    cbn [mbind option_bind]. f_equal. by apply chosen_sides_kept. }
  cbn [mbind option_bind]. rewrite Hsides. cbn [fmap option_fmap option_map].
  apply andb_true_iff in Hallowed as [Hfrom Hto].
  rewrite (side_check_none _ _ _ _ _ Hsource), (side_check_none _ _ _ _ _ Htarget); [done| |].
  - change (authored_side (rel_toSide _)) with (authored_to e). destruct (authored_to e); [|done]. by apply bool_decide_eq_true in Hto.
  - change (authored_side (rel_fromSide _)) with (authored_from e). destruct (authored_from e); [|done]. by apply bool_decide_eq_true in Hfrom.
Qed.

(** The entry of a gate for an edge, with the route of that edge. *)
Lemma eligible_entry (hint : string) r : let g := workflow_gate w meta st hint in
  r ∈ collectEligibleRoutedRelations g (edge_relations w) → ∃ i e, wf_edges w !! i = Some e ∧
    r = {| ro_relation := Some (edge_relation i e); ro_index := Some (Z.of_nat i);
           ro_points := default [] (points_at st i); ro_segments := None |}.
Proof using.
  intros g Hr. apply elem_of_omap_imap in Hr as (i&x&Hx&Hr). unfold edge_relations in Hx. rewrite list_lookup_imap in Hx.
  destruct (wf_edges w !! i) as [e|] eqn:He; [|done]. injection Hx as <-.
  destruct (eligible _ _); [|done]. injection Hr as <-. by exists i, e.
Qed.

(** ** Nodes *)
Lemma flow_gate_passes : flow_gate w meta layout st = [].
Proof using Hw Hauto Hroute.
  apply concat_imap_empty. intros i r Hr. unfold edge_relations in Hr. rewrite list_lookup_imap in Hr.
  destruct (wf_edges w !! i) as [e|] eqn:He; [|done]. injection Hr as <-.
  unfold relation_flow_problems. destruct (_ || _); [done|]. cbn [pathFor workflow_gate rel_ref edge_relation edge_relation_with].
  destruct (points_at st i) as [[|p [|q ps]]|] eqn:Hp; try done. destruct (negb _); [done|].
  destruct (routed_at _ _ Hp) as (e'&before&[He' _ _ (from&to&sides&_&_&_&Hf)]).
  rewrite He in He'. injection He' as <-. apply feasible_spec, ff_nodes in Hf.
  apply omap_empty. intros o (x&->&Hx)%list_elem_of_fmap. unfold obstacle_problem.
  cbn [ob_id ob_rect rel_from rel_to edge_relation edge_relation_with].
  pose proof (forallb_all _ _ Hf x Hx) as Hclear. cbv beta in Hclear. unfold is_endpoint in Hclear.
  destruct (bool_decide (node_id x = we_from e) || bool_decide (node_id x = we_to e)) eqn:Hend; [done|].
  change (finite_rect (node_rect x)) with true. cbn [negb]. apply fmap_None, list_find_None, Forall_forall. intros s Hs Hhit.
  cbn [ob_rect] in Hhit. by rewrite (negb_existsb_forall _ _ Hclear s Hs) in Hhit.
Qed.

(** ** Frames *)
Lemma border_hit_routed (r r' : routed Q) ss f k b : border_hit r ss f k b = None → border_hit r' ss f k b = None.
Proof using.
  unfold border_hit. destruct (border_overlaps ss b) as [|[o i] rest]; [done|].
  by destruct (head (merge_sort (before run_le) _)).
Qed.

Lemma border_gate_passes : border_gate w meta layout st = [].
Proof using Hw Hauto Hroute.
  unfold border_gate, cleanBorderRunProblems. destruct (negb _); [done|]. apply map_empty, bind_empty.
  intros r (i&e&He&->)%eligible_entry.
  unfold route_border_runs, route_segments. cbn [ro_segments ro_points]. rewrite finite_segments. cbn [negb].
  destruct (points_at st i) as [ps|] eqn:Hp; cbn [default from_option].
  - destruct (routed_at _ _ Hp) as (e'&before&[_ _ _ (from&to&sides&_&_&_&Hf)]).
    apply feasible_spec, ff_frames in Hf. unfold routeClearsFrameBorders, collectBorderRuns in Hf.
    destruct ([bare_route ps] ≫= _) eqn:Hb; [|done]. pose proof (bind_nil_inv _ _ Hb (bare_route ps) (list_elem_of_here _ _)) as Hnil.
    unfold route_border_runs, route_segments in Hnil. cbn [bare_route ro_segments ro_points] in Hnil.
    rewrite finite_segments in Hnil. cbn [negb] in Hnil. apply concat_imap_empty. intros k f Hk.
    pose proof (concat_imap_nil _ _ Hnil k f Hk) as Hf'. apply omap_empty. intros b Hbo.
    eapply border_hit_routed, (omap_nil _ _ Hf' b Hbo).
  - apply concat_imap_empty. intros k f Hk. by apply omap_empty.
Qed.

(** ** Rhythm *)
Lemma length_segments (ps : list (point Q)) : length (segments_of ps) = (length ps - 1)%nat.
Proof using. induction ps as [|p [|q ps] IH]; [done..|]. cbn [segments_of length] in *. rewrite IH. lia. Qed.

Lemma rhythm_floor (ps : list (point Q)) index s : routeMeetsHardRhythm ps = true → segments_of ps !! index = Some s →
  rhythm_code_of (nof 16) (nof 8) (manhattan s) (segmentPosition index (length (segments_of ps))) = None.
Proof using.
  assert (0 < epsilon < 1)%Q by (rewrite epsilon_Q; lra). intros Hr Hs.
  assert (Hfloor : match segmentPosition index (length (segments_of ps)) with
    | Interior => 16 - epsilon <= manhattan s | _ => 8 - epsilon <= manhattan s end%Q).
  { rewrite length_segments. assert (Hgen : (2 < length ps)%nat → forallb (rhythm_ok (length ps)) (imap pair (segments_of ps)) = true →
      match segmentPosition index (length ps - 1) with Interior => 16 - epsilon <= manhattan s | _ => 8 - epsilon <= manhattan s end%Q).
    { intros Hlen Hall. assert (Hin : (index, s) ∈ imap pair (segments_of ps)) by (apply elem_of_imap; eauto).
      pose proof (forallb_all _ _ Hall _ Hin) as Hok. unfold rhythm_ok in Hok. q_tests. q_ops. unfold segmentPosition.
      replace (length ps - 1 - 1)%nat with (length ps - 2)%nat by lia.
      destruct (index =? 0)%nat; [|destruct (index =? length ps - 2)%nat]; cbn [orb] in Hok;
        change (inject_Z 8) with 8%Q in Hok; change (inject_Z 16) with 16%Q in Hok; lra. }
    destruct ps as [|a [|b [|c ps]]]; [done..| |apply Hgen; [cbn; lia|done]].
    destruct index as [|index]; [|done]. injection Hs as <-. change (segmentPosition 0 _) with SourceStub. cbv iota.
    unfold routeMeetsHardRhythm in Hr. q_tests. q_ops. change (inject_Z 28) with 28%Q in Hr.
    destruct (Qlt_le_dec (manhattan (a, b)) 8) as [Hm|Hm]; [|lra]. apply short_hypot in Hm. lra. }
  unfold rhythm_code_of. assert (nlt (manhattan s) (nof 8 - epsilon)%js = false) as ->.
  { q_tests. q_ops. change (inject_Z 8) with 8%Q. destruct (segmentPosition _ _); lra. }
  destruct (segmentPosition _ _); [done..|]. cbn [is_interior andb].
  assert (nlt (manhattan s) (nof 16 - epsilon)%js = false) as ->; [|done].
  q_tests. q_ops. by change (inject_Z 16) with 16%Q.
Qed.

Lemma rhythm_gate_passes : rhythm_gate w meta st = [].
Proof using Hw Hauto Hroute.
  unfold rhythm_gate, cleanRouteRhythmProblems. destruct (negb _); [done|]. apply map_empty, concat_imap_empty.
  intros k r (i&e&He&->)%list_elem_of_lookup_2%eligible_entry. unfold route_issues. cbn [ro_points].
  destruct (points_at st i) as [ps|] eqn:Hp; cbn [default from_option]; [|done].
  destruct (routed_at _ _ Hp) as (e'&before&Hwell). change (id ps) with ps.
  rewrite (normal_at _ _ _ _ Hwell). destruct Hwell as [_ _ _ (from&to&sides&_&_&_&Hf)].
  apply feasible_spec in Hf as [_ _ _ Hrhythm _ _ _ _ _]. apply omap_empty. intros o (index&s&Hs&->)%elem_of_imap.
  unfold segment_issue, id. destruct (nle _ epsilon); [done|]. by rewrite rhythm_floor.
Qed.

(** ** Labels *)
Record labelled (i : nat) (e : wedge Q) (l : placed_label_rect Q) (ps : list (point Q)) before : Prop := {
  la_routed : routed_well i ps e before;
  la_rect : candidateLabelRect w e ps = Some (pl_rect l);
  la_index : lb_index (pl_box l) = Some (Z.of_nat i)
}.
Lemma label_at i e l : wf_edges w !! i = Some e → labelRectFor w st i e = Some l → ∃ ps before, labelled i e l ps before.
Proof using Hw Hauto Hroute.
  intros He. unfold labelRectFor. destruct (negb _) eqn:Hl; [done|].
  destruct (points_at st i) as [ps|] eqn:Hp; cbn [mbind option_bind]; [|done].
  destruct (workflowEdgeLabelPoint w e ps) as [p|] eqn:Hpoint; cbn [mbind option_bind]; [|done]. intros [= <-].
  destruct (routed_at _ _ Hp) as (e'&before&Hwell). pose proof (rw_edge _ _ _ _ Hwell) as He'. simplify_eq.
  exists ps, before. split; [done| |done]. unfold candidateLabelRect. by rewrite Hl, Hpoint.
Qed.
Lemma elem_of_labels l : l ∈ labelRects w st → ∃ i e ps before, labelled i e l ps before.
Proof using Hw Hauto Hroute. intros (i&e&He&Hl)%elem_of_omap_imap. destruct (label_at i e l He Hl) as (ps&before&?). eauto 10. Qed.

Lemma labels_clear_nodes : label_node_problems w layout st = [].
Proof using Hw Hauto Hroute.
  apply bind_empty. intros l (i&e&ps&before&[[He _ _ (from&to&sides&_&_&_&Hf)] Hrect _])%elem_of_labels.
  apply bind_empty. intros x Hx. unfold label_node_problem. destruct (rectsOverlap _ _ _) eqn:Ho; [exfalso|done].
  apply feasible_spec, ff_label in Hf. unfold routeLabelClearsNodes in Hf.
  destruct (Hauto e) as (_&_&Hat); [by eapply list_elem_of_lookup_2|]. rewrite Hat, Hrect in Hf.
  rewrite bool_decide_false in Hf by (by intros [? [=]]). unfold candidateLabelRect in Hrect.
  destruct (negb (nonempty (we_label e))); [done|]. cbn [orb] in Hf.
  pose proof (forallb_all _ _ Hf x Hx) as Hclear. cbv beta in Hclear. by rewrite Ho in Hclear.
Qed.

(** A route and its label stay clear of a route that was placed before, and of its label. *)
Lemma clear_of_earlier i j e f ps qs bi bj : (i < j)%nat → routed_well i ps e bi → routed_well j qs f bj →
  clears_placed w f qs {| pr_index := i; pr_edge := e; pr_points := ps |} = true.
Proof using Hw Hauto Hroute.
  intros Hij Hi Hj. pose proof (placed_earlier _ _ _ _ _ _ _ _ Hij Hi Hj) as Hin.
  destruct Hj as [_ _ _ (from&to&sides&_&_&_&Hf)]. apply feasible_spec, ff_placed in Hf. by apply (forallb_all _ _ Hf).
Qed.

Lemma labels_clear_labels : label_pair_problems w st = [].
Proof using Hw Hauto Hroute.
  apply bind_empty. intros [a b] Hab. apply elem_of_pairs_imap in Hab as (i&j&e&f&Hij&He&Hf&Ha&Hb).
  apply label_at in Ha as (ps&bi&[Hi Hri _]); [|done]. apply label_at in Hb as (qs&bj&[Hj Hrj _]); [|done].
  unfold label_pair_problem. cbn [fst snd]. destruct (rectsOverlap _ _ _) eqn:Ho; [exfalso|done].
  pose proof (clear_of_earlier _ _ _ _ _ _ _ _ Hij Hi Hj) as Hclear. unfold clears_placed, placed_label in Hclear.
  cbn [pr_edge pr_points] in Hclear. rewrite Hri, Hrj, rectsOverlap_comm, Ho in Hclear. done.
Qed.

Lemma nearest_measured r nearest k ss (n : near) : @nearest_from Q _ _ r nearest k ss = Some n →
  nearest = Some n ∨ ∃ s, s ∈ ss ∧ segmentRectClearance s r = Some (clearance n).
Proof using.
  revert nearest k. induction ss as [|s ss IH]; intros nearest k; cbn [nearest_from]; [by left|].
  intros [Hn|(s'&?&?)]%IH; [|right; exists s'; split; [by right|done]]. unfold nearer in Hn.
  destruct (segmentRectClearance s r) as [c|] eqn:Hc; [|by left].
  assert (Hfresh : Some {| clearance := c; intersectionLength := segmentRectIntersectionLength s r; n_segment := k;
    n_start := s.1; n_end := s.2 |} = Some n → ∃ s', s' ∈ s :: ss ∧ segmentRectClearance s' r = Some (clearance n)).
  { intros E. apply (inj Some) in E. subst n. exists s. split; [by left|done]. }
  destruct nearest as [n'|]; [destruct (nlt c (clearance n'))|]; [right; by apply Hfresh|by left|right; by apply Hfresh].
Qed.

Lemma not_too_close (ps : list (point Q)) r k (n : near) : too_close ps r = false →
  nearest_from r None k (segments_of ps) = Some n → nle (nof 4) (clearance n + epsilon)%js = true.
Proof using.
  intros Hclose [[=]|(s&Hs&Hc)]%nearest_measured. unfold too_close in Hclose.
  pose proof (negb_existsb_forall _ _ (f_equal negb Hclose) s Hs) as H. cbv beta in H. rewrite Hc in H. q_tests. done.
Qed.

Lemma label_route_gate_passes : label_route_gate w meta st = [].
Proof using Hw Hauto Hroute.
  unfold label_route_gate, cleanLabelRouteClearanceProblems. destruct (negb _); [done|]. apply map_empty.
  unfold collectLabelRouteClearance. destruct (_ || _); [done|]. apply bind_empty. intros [l li] Hl.
  apply omap_empty. intros c Hc. apply first_of_each_subset, elem_of_omap_imap in Hl as (k&x&Hx&Hl).
  unfold to_label in Hl. destruct (_ || _) in Hl; [done|]. injection Hl as <- <-.
  apply list_elem_of_lookup_2, list_elem_of_fmap in Hx as (a&->&Ha).
  apply elem_of_labels in Ha as (i&e&ps&bi&[Hi Hrect Hindex]).
  apply first_of_each_subset, elem_of_omap_imap in Hc as (k'&r&Hr&Hc).
  apply list_elem_of_lookup_2, eligible_entry in Hr as (j&f&Hf&->). unfold to_candidate in Hc. cbn [ro_points] in Hc.
  destruct (points_at st j) as [qs|] eqn:Hq; cbn [default from_option] in Hc; [|done].
  destruct (routed_at _ _ Hq) as (f'&bj&Hj). change (id qs) with qs in Hc. rewrite (normal_at _ _ _ _ Hj) in Hc.
  destruct (_ <? _)%nat; [done|]. injection Hc as <-. unfold label_route_hit. cbn [fst snd c_index c_points index_or].
  rewrite Hindex. cbn [index_or default from_option ro_index]. destruct (_ || _) eqn:Hsame; [done|].
  apply orb_false_iff in Hsame as [Hne%Z.eqb_neq _]. unfold id in Hne.
  destruct (nearest_from _ _ _ _) as [n|] eqn:Hn; cbn [mbind option_bind]; [|done].
  assert (Hclose : too_close qs (pl_rect a) = false).
  { destruct (Nat.lt_trichotomy i j) as [Hij|[->|Hij]]; [|lia|].
    - pose proof (clear_of_earlier _ _ _ _ _ _ _ _ Hij Hi Hj) as Hclear. unfold clears_placed, placed_label in Hclear.
      cbn [pr_edge pr_points] in Hclear. rewrite Hrect, !andb_true_iff in Hclear. by apply negb_true_iff, Hclear.
    - pose proof (clear_of_earlier _ _ _ _ _ _ _ _ Hij Hj Hi) as Hclear. unfold clears_placed in Hclear.
      cbn [pr_points] in Hclear. rewrite Hrect, !andb_true_iff in Hclear. by apply negb_true_iff, Hclear. }
  by rewrite (not_too_close _ _ _ _ Hclose Hn).
Qed.
End Gates.

(** * Properties *)

(** C24: the search for routes establishes what the validation checks.  In a
    readable document whose edges are all automatic and have no pinned labels,
    if every edge is routed then no gate of the validation that looks at a route
    or a label next to sides, nodes, frames and other labels and routes reports
    anything: every segment leaves and enters by its side, no edge crosses an
    unrelated node, none runs along a border or has a cramped turn, no label
    covers a node or another label or comes close to another route. *)
Theorem routes_pass_gates (w : workflow Q) (meta : wmeta Q) (layout : wlayout Q) st :
  readable w = true → (∀ e, e ∈ wf_edges w → automatic_route e = true ∧ authored_known e ∧ we_labelAt e = None) →
  route_workflow w meta layout = inr st →
  side_gate w meta layout st = [] ∧ flow_gate w meta layout st = [] ∧ border_gate w meta layout st = [] ∧
  rhythm_gate w meta st = [] ∧ label_node_problems w layout st = [] ∧ label_pair_problems w st = [] ∧
  label_route_gate w meta st = [].
Proof.
  intros Hw Hauto Hroute. split_and!.
  - by apply side_gate_passes.
  - by apply flow_gate_passes.
  - by apply border_gate_passes.
  - by eapply rhythm_gate_passes.
  - by eapply labels_clear_nodes.
  - by eapply labels_clear_labels.
  - by eapply label_route_gate_passes.
Qed.

Lemma routes_pass_gates_witness : ∃ st, route_workflow short_workflow short_meta short_layout = inr st ∧
  side_gate short_workflow short_meta short_layout st = [] ∧ label_route_gate short_workflow short_meta st = [].
Proof.
  destruct short_routed as [st Hst]. exists st.
  destruct (routes_pass_gates short_workflow short_meta short_layout st eq_refl short_edges Hst) as (H1&_&_&_&_&_&H2).
  split; [exact Hst|split; [exact H1|exact H2]].
Defined.

(** The tolerance of the search is not that of the validation: a direct route a
    fraction of a tolerance shorter than 28 pixels is long enough for the search
    and too short for the validation. *)
Definition close_points : list (point Q) := [(0, 0); (2799995 # 100000, 0)]%Q.
Definition close_state : route_state Q :=
  {| rs_placed := [{| pr_index := 0; pr_edge := plain_edge "x" "y" None; pr_points := close_points |}]; rs_sides := ∅ |}.
Lemma direct_route_tolerance : routeMeetsHardRhythm close_points = true ∧
  edge_problems short_workflow close_state 0 (plain_edge "x" "y" None) ≠ [].
Proof. split; vm_compute; done. Qed.
