(* ===== verification/WorkflowPins.v ===== *)
(** * Inputs and pins of a readable workflow
      ([src/.agents/skills/archify/renderers/workflow/workflow-compiler.mjs])

    What the compiler checks before and while it routes the edges of a document
    of the readable contract: the references between lanes, nodes and edges
    ([validateReadableInputsBeforeRouting]), and the geometry an author has
    pinned, edge by edge and pair by pair ([validateReadablePinnedGeometry]).

    A failure is the code and the message of its diagnostic, or the invariant a
    pin violates; its evidence and the repairs it verifies are not modelled. *)

From Stdlib Require Import QArith.
From stdpp Require Import sorting pretty gmap.
From S2P Require Import Prelude Num JsValue Geometry Routes Analyses Ports Checks TextFit Legend Workflow SemanticContract ReadableLayout LaneGeometry WorkflowCanvas RouteCandidates RouteSearch RouteSpec WorkflowChecks.
#[local] Open Scope Z_scope.

Record input_failure := { if_code : string; if_message : string }.

Section Inputs.
Context {N : Type} `{!JsNum N, !JsMath N}.
(** The document as it was authored, in the canonical order, and laid out. *)
Context (source w : workflow N) (layout : wlayout N).
#[local] Open Scope js_scope.
Implicit Types (n : wnode N) (e : wedge N).

(** The first identifier that an earlier item has. *)
Fixpoint first_duplicate (seen ids : list string) : option string :=
  match ids with
  | [] => None
  | id :: ids => if bool_decide (id ∈ seen) then Some id else first_duplicate (id :: seen) ids
  end.

Definition duplicate_failure (what : string) (ids : list string) : option input_failure :=
  (λ id, {| if_code := cat ["workflow/duplicate-"; what; "-id"];
            if_message := cat ["Workflow "; what; " id "; quoted id; " is duplicated."] |}) <$> first_duplicate [] ids.

Definition endpoint_failure e (endpoint id : string) : option input_failure :=
  if has_node w id then None
  else Some {| if_code := "workflow/unknown-edge-endpoint";
               if_message := cat ["Workflow edge "; quoted (workflowEdgeName e); " references unknown "; endpoint; " ";
                                  quoted id; "."] |}.
Definition edge_failures e : list input_failure :=
  option_list (endpoint_failure e "source" (we_from e)) ++ option_list (endpoint_failure e "target" (we_to e)).

(** The node of an identifier, of which there is one. *)
Definition node_failure n : option input_failure :=
  if negb (known_lane w (wn_lane n)) then
    Some {| if_code := "workflow/unknown-node-lane";
            if_message := cat ["Workflow node "; quoted (wn_id n); " uses unknown lane "; quoted (wn_lane n); "."] |}
  else if negb ((0 <=? wn_col n) && (wn_col n <? column_count layout))%Z then
    Some {| if_code := "workflow/invalid-node-column";
            if_message := cat ["Workflow node "; quoted (wn_id n); " uses column "; pretty (wn_col n);
                               ", but valid columns are integers 0.."; pretty (column_count layout - 1)%Z; "."] |}
  else match measureNode w layout n with
  | Some b => if isFinitePoint [x_ (bx_rect b); y_ (bx_rect b); cx b; cy b] then None
              else Some {| if_code := "workflow/non-finite-node-geometry";
                           if_message := cat ["Workflow node "; quoted (wn_id n); " produced non-finite coordinates."] |}
  | None => None
  end.

(** The nodes of a lane in the authored order, the lanes in the order of their first nodes. *)
Definition authored_nodes : list (measured_node N) := omap (λ n, node_at w layout (wn_id n)) (wf_nodes source).
Definition authored_in (laneId : string) : list (measured_node N) :=
  filter (λ x : measured_node N, wn_lane (mn_node x) = laneId) authored_nodes.
Definition overlap_failure (laneId : string) (ab : measured_node N * measured_node N) : option input_failure :=
  if rectsOverlap (node_rect ab.1) (node_rect ab.2) (nof 8) then
    Some {| if_code := "workflow/node-overlap";
            if_message := cat ["Workflow nodes "; quoted (node_id ab.1); " and "; quoted (node_id ab.2);
                               " are less than 8px apart in lane "; quoted laneId; "."] |}
  else None.
Definition overlap_failures : list input_failure :=
  id_set (map (λ x, wn_lane (mn_node x)) authored_nodes) ≫= λ laneId,
    omap (overlap_failure laneId) (pairs (authored_in laneId)).

(** The first failure is thrown. *)
Definition validateReadableInputsBeforeRouting : option input_failure :=
  if negb (readable w) then None
  else head (option_list (duplicate_failure "lane" (map ln_id (wf_lanes source))) ++
             option_list (duplicate_failure "node" (map wn_id (wf_nodes source))) ++
             (wf_edges source ≫= edge_failures) ++ omap node_failure (wf_nodes source) ++ overlap_failures).
End Inputs.

Section Pins.
Context {N : Type} `{!JsNum N, !JsMath N}.
Context (w : workflow N) (meta : wmeta N) (layout : wlayout N).
#[local] Open Scope js_scope.
#[local] Abbreviation point := (point N) (only parsing).
#[local] Abbreviation result A := (route_failure N + A)%type.
Implicit Types (e : wedge N) (ps : list point) (st : route_state N).

(** ** Route controls *)
(** [READABLE_PRESET_PIN_FIELDS]: whether a preset allows [channelX] and [channelY]. *)
Definition READABLE_PRESET_PIN_FIELDS (preset : string) : bool * bool :=
  if bool_decide (preset = "drop") then (false, true)
  else if bool_decide (preset = "outside-right") then (true, false)
  else if bool_decide (preset = "return-left") then (true, false)
  else if bool_decide (preset = "bottom-channel") then (false, true)
  else if bool_decide (preset = "up-channel") then (false, true)
  else (false, false).
Definition validateReadableRouteControls e : option string :=
  let '(allowsX, allowsY) := READABLE_PRESET_PIN_FIELDS (route_of e) in
  if bool_decide (route_of e = "auto") then None
  else if (bool_decide (is_Some (we_channelX e)) && negb allowsX) || (bool_decide (is_Some (we_channelY e)) && negb allowsY)
  then Some "route preset compatibility" else None.

(** ** A pinned route *)
Definition negative_point (p : point) : bool := (p.1 <? nof 0) || (p.2 <? nof 0).
Definition negative_pin (x : option N) : bool := match x with Some x => x <? nof 0 | None => false end.
Definition has_negative_pin e : bool :=
  existsb negative_point (asArray (we_via e)) || negative_pin (we_channelX e) || negative_pin (we_channelY e).

(** The first segment that is none, runs askew, or is cramped. *)
Definition segment_conflict (count : nat) (entry : nat * segment N) : option string :=
  let '(index, s) := entry in
  let dx := nabs (s.2.1 - s.1.1) in
  let dy := nabs (s.2.2 - s.1.2) in
  let endpoint := (index =? 0)%nat || (index =? count - 2)%nat in
  let minimumPx := if (count =? 2)%nat then nof 28 else if endpoint then nof 8 else nof 16 in
  if (dx <=? epsilon) && (dy <=? epsilon) then Some "non-zero route segments"
  else if (dx >? epsilon) && (dy >? epsilon) then Some "orthogonal route segments"
  else if dx + dy + epsilon <? minimumPx then
    Some (if endpoint then "8px endpoint stub clearance" else "16px interior turn clearance")
  else None.

(** Whether a segment may touch the node, and with which clearance it may not. *)
Definition node_collision e ps (n : measured_node N) : bool :=
  let lastSegment := (length ps - 2)%nat in
  existsb (λ entry : nat * segment N,
    let '(index, s) := entry in
    if bool_decide (node_id n = we_from e) then negb (index =? 0)%nat && segmentIntersectsRect s (node_rect n) (nof 0)
    else if bool_decide (node_id n = we_to e) then
      negb (index =? lastSegment)%nat && segmentIntersectsRect s (node_rect n) (nof 0)
    else segmentIntersectsRect s (node_rect n) (nof 2)) (imap pair (segments_of ps)).
Definition firstRouteNodeCollision e ps : option (measured_node N) :=
  head (filter (λ n, node_collision e ps n = true) (measuredNodes w layout)).

Definition scene_rects : list (rect N) := omap label_rect_of (workflowSceneLabelObstacles w layout).
Definition missing_channel_pin e ps : bool :=
  bool_decide (is_Some (we_via e)) && negb (keeps_channel_pins e ps).

(** The invariant a pinned route violates, the checks being in order. *)
Definition pinned_route_conflict e ps (from to : measured_node N) (sides : side_pair) : option string :=
  if negb (forallb finite_point ps) then Some "finite route coordinates"
  else match head (omap (segment_conflict (length ps)) (imap pair (segments_of ps))) with
  | Some invariant => Some invariant
  | None =>
      if missing_channel_pin e ps then Some "channel pin preservation"
      else if negb (bool_decide (route_of e = "auto")) && negb (routeMatchesPresetFamily (route_of e) ps from to)
      then Some "route preset compatibility"
      else if negb (routeHonorsEndpointSides ps (sp_fromSide sides) (sp_toSide sides))
      then Some "perpendicular endpoint-side direction"
      else match firstRouteNodeCollision e ps with
      | Some _ => Some "node clearance"
      | None =>
          if existsb (meets_route (segments_of ps) (nof 0)) (legendRects w meta layout) then Some "legend clearance"
          else if existsb (meets_route (segments_of ps) (nof 0)) scene_rects
          then Some "lane/phase/group label clearance"
          else match collectBorderRuns [bare_route ps] (compositionFrames w layout) with
               | _ :: _ => Some "structural-frame border clearance"
               | [] => None
               end
      end
  end.

(** ** A pinned label *)
Definition pinned_label_rect st (index : nat) e : option (rect N) := pl_rect <$> labelRectFor w st index e.
Definition label_outside_origin st (index : nat) e : bool :=
  match pinned_label_rect st index e with Some r => (x_ r <? nof 0) || (y_ r <? nof 0) | None => false end.
Definition pinned_label_conflict st (index : nat) e : option string :=
  match we_labelAt e, pinned_label_rect st index e with
  | Some _, Some r =>
      if existsb (λ n, rectsOverlap r (node_rect n) (nof 0 - nof 2)) (measuredNodes w layout)
      then Some "edge-label node clearance"
      else if existsb (λ l, rectsOverlap r l (nof 0)) (legendRects w meta layout) then Some "edge-label legend clearance"
      else if existsb (λ l, rectsOverlap r l (nof 0)) scene_rects then Some "edge-label lane/phase/group clearance"
      else None
  | _, _ => None
  end.

(** ** One edge, and all of them *)
Definition conflict_of {A} (invariant : option string) (a : A) : result A :=
  match invariant with Some invariant => inl (ExplicitPinConflict invariant) | None => inr a end.
Definition outside_origin (b : bool) : option string := if b then Some "viewBox-origin containment" else None.

(** The next check, if the last one passed. *)
Definition and_then {A B} (r : result A) (f : A → result B) : result B :=
  match r with inl failure => inl failure | inr a => f a end.

Definition validate_pinned_route (index : nat) e (from to : measured_node N) st : result (route_state N) :=
  if hasAbsoluteRoutePins e then
    let '(sides, st) := edgeSides w meta layout index e from to st in
    conflict_of (pinned_route_conflict e (default [] (points_at st index)) from to sides) st
  else inr st.

(** The body of the loop for an edge between nodes: a label that is pinned asks
    for the route of its edge before the pins of the route are looked at. *)
Definition validate_pins (index : nat) e (from to : measured_node N) st : result (route_state N) :=
  and_then (conflict_of (validateReadableRouteControls e) st) (λ st,
  and_then (if bool_decide (is_Some (we_labelAt e)) && nonempty (we_label e)
            then and_then (path_for w meta layout index e from to st) (λ st,
                   conflict_of (outside_origin (label_outside_origin st index e)) st)
            else inr st) (λ st,
  and_then (conflict_of (outside_origin (has_negative_pin e)) st) (λ st,
  and_then (path_for w meta layout index e from to st) (λ st,
  and_then (validate_pinned_route index e from to st) (λ st,
  conflict_of (pinned_label_conflict st index e) st))))).

Definition validate_edge (r : result (route_state N)) (ie : nat * wedge N) : result (route_state N) :=
  match r with
  | inl failure => inl failure
  | inr st => match ends_of w layout ie.2 with
              | Some (from, to) => validate_pins ie.1 ie.2 from to st
              | None => inr st
              end
  end.

(** ** Pairs of edges *)
(** [hasAuthoredRouteAssertions] *)
Definition hasAuthoredRouteAssertions (r : relation N) : bool :=
  rel_via r || rel_channelX r || rel_channelY r ||
  nonempty (rel_route r) && negb (bool_decide (rel_route r = Some "auto")) ||
  bool_decide (is_Some (authored_side (rel_fromSide r))) || bool_decide (is_Some (authored_side (rel_toSide r))).
Definition asserted (r : option (relation N)) : bool :=
  match r with Some r => hasAuthoredRouteAssertions r | None => false end.
Definition label_pinned (r : option (relation N)) : bool :=
  match r with Some r => bool_decide (is_Some (labelAt r)) | None => false end.

Definition routed_relations st : list (routed N) :=
  omap id (imap (λ index e, (λ points, {| ro_relation := Some (edge_relation index e);
    ro_index := Some (Z.of_nat index); ro_points := points; ro_segments := None |}) <$> points_at st index) (wf_edges w)).

Definition properOrthogonalIntersection (s t : segment N) : option point :=
  match segmentOrientation s, segmentOrientation t with
  | Horizontal, Vertical | Vertical, Horizontal =>
      let '(h, v) := match segmentOrientation s with Horizontal => (s, t) | _ => (t, s) end in
      let p := (v.1.1, h.1.2) in
      if (p.1 >? nmin h.1.1 h.2.1 + epsilon) && (p.1 <? nmax h.1.1 h.2.1 - epsilon) &&
         (p.2 >? nmin v.1.2 v.2.2 + epsilon) && (p.2 <? nmax v.1.2 v.2.2 - epsilon)
      then Some p else None
  | _, _ => None
  end.
Definition routes_cross (ab : routed N * routed N) : bool :=
  match ro_relation ab.1, ro_relation ab.2 with
  | Some a, Some b =>
      (hasAuthoredRouteAssertions a || hasAuthoredRouteAssertions b) && negb (shareEndpoint a b) &&
      existsb (λ s, existsb (λ t,
          bool_decide (is_Some (properOrthogonalIntersection (an_start s, an_end s) (an_start t, an_end t))))
        (forwardCollinearAnalysisSegments (ro_points ab.2))) (forwardCollinearAnalysisSegments (ro_points ab.1))
  | _, _ => false
  end.

Definition validateReadablePairwisePinConflicts st : option string :=
  let labels := map pl_box (labelRects w st) in
  let routes := routed_relations st in
  if existsb (λ hit, label_pinned (lb_relation (lh_label hit)) || asserted (lh_other hit))
       (collectLabelRouteClearance labels routes (nof 4))
  then Some "explicit label-route clearance"
  else if existsb (λ ab : label_box N * label_box N,
            rectsOverlap (lb_rect ab.1) (lb_rect ab.2) (nof 0 - nof 2) &&
            (label_pinned (lb_relation ab.1) || label_pinned (lb_relation ab.2))) (pairs labels)
  then Some "explicit label-label clearance"
  else if negb (bool_decide (mt_qualityProfile meta = Some "showcase")) then None
  else if existsb routes_cross (pairs routes) then Some "explicit route-route crossing"
  else if existsb (λ hit, asserted (c_relation (co_left hit)) || asserted (c_relation (co_right hit)))
            (collectAmbiguousCorridors routes (nof 8))
  then Some "explicit route-route corridor clearance" else None.

Definition validateReadablePinnedGeometry : result (route_state N) :=
  match foldl validate_edge (inr (initial_state w meta layout)) (imap pair (wf_edges w)) with
  | inl failure => inl failure
  | inr st => conflict_of (validateReadablePairwisePinConflicts st) st
  end.
End Pins.

(** * Properties *)

(** ** What the inputs are *)
Section InputProperties.
Context (source w : workflow Q) (layout : wlayout Q).

Lemma first_duplicate_none seen ids : first_duplicate seen ids = None ↔ NoDup ids ∧ ∀ id, id ∈ ids → id ∉ seen.
Proof.
  revert seen. induction ids as [|id ids IH]; intros seen; cbn [first_duplicate].
  { split; [|done]. intros _. split; [constructor|set_solver]. }
  case_bool_decide as Hid.
  - split; [done|]. intros [_ H]. exfalso. apply (H id); [by left|done].
  - rewrite IH, NoDup_cons. setoid_rewrite elem_of_cons. split.
    + intros [Hnd Hseen]. split_and!; [|done|].
      * intros Hin. apply (Hseen id Hin). by left.
      * intros x [->|Hx] Hs; [done|]. apply (Hseen x Hx). by right.
    + intros [[Hnot Hnd] Hseen]. split; [done|]. intros x Hx [->|Hs]; [done|]. by apply (Hseen x); [right|].
Qed.

Lemma head_nil {A} (l : list A) : head l = None ↔ l = [].
Proof. by destruct l. Qed.
Lemma duplicate_failure_none what ids : duplicate_failure what ids = None ↔ NoDup ids.
Proof.
  unfold duplicate_failure. rewrite fmap_None, first_duplicate_none. split; [by intros [? _]|].
  intros H. split; [done|]. intros id _. apply not_elem_of_nil.
Qed.
Lemma edge_failures_none e : edge_failures w e = [] ↔ has_node w (we_from e) = true ∧ has_node w (we_to e) = true.
Proof.
  unfold edge_failures, endpoint_failure. destruct (has_node w (we_from e)), (has_node w (we_to e)); cbn; split; by try intros [? ?].
Qed.
Lemma node_failure_none n : node_failure w layout n = None ↔
  known_lane w (wn_lane n) = true ∧ (0 ≤ wn_col n < column_count layout).
Proof.
  unfold node_failure. destruct (known_lane w (wn_lane n)); cbn [negb]; [|by split; [|intros [? _]]].
  destruct (Z.leb_spec 0 (wn_col n)), (Z.ltb_spec (wn_col n) (column_count layout)); cbn [andb negb];
    try (split; [done|lia]). split; [done|]. intros _. by destruct (measureNode w layout n).
Qed.

(** C32: the inputs of a readable document are accepted exactly when its lanes and
    nodes have distinct identifiers, its edges run between known nodes, every
    node is in a known lane and an existing column, and no two nodes of a lane
    are closer than 8 pixels. *)
Theorem inputs_accepted : readable w = true → validateReadableInputsBeforeRouting source w layout = None ↔
  NoDup (map ln_id (wf_lanes source)) ∧ NoDup (map wn_id (wf_nodes source)) ∧
  (∀ e, e ∈ wf_edges source → has_node w (we_from e) = true ∧ has_node w (we_to e) = true) ∧
  (∀ n, n ∈ wf_nodes source → known_lane w (wn_lane n) = true ∧ (0 ≤ wn_col n < column_count layout)) ∧
  (∀ laneId i j a b, (i < j)%nat → authored_in source w layout laneId !! i = Some a →
     authored_in source w layout laneId !! j = Some b → rectsOverlap (node_rect a) (node_rect b) 8%Q = false).
Proof.
  intros Hw. unfold validateReadableInputsBeforeRouting. rewrite Hw. cbn [negb].
  rewrite head_nil, !app_nil, bind_none, omap_none.
  assert (Hopt : ∀ o : option input_failure, option_list o = [] ↔ o = None) by (by intros [?|]).
  rewrite !Hopt, !duplicate_failure_none. setoid_rewrite edge_failures_none. setoid_rewrite node_failure_none.
  do 4 (apply and_iff_compat_l). unfold overlap_failures. rewrite bind_none. setoid_rewrite omap_none.
  assert (Hover : ∀ laneId (ab : measured_node Q * measured_node Q),
    overlap_failure laneId ab = None ↔ rectsOverlap (node_rect ab.1) (node_rect ab.2) 8%Q = false).
  { intros laneId ab. unfold overlap_failure. change (nof 8 : Q) with 8%Q. by destruct (rectsOverlap _ _ _). }
  setoid_rewrite Hover. split.
  - intros H laneId i j a b Hij Ha Hb. refine (H laneId _ (a, b) _); [|apply elem_of_pairs; eauto].
    apply elem_of_id_set. pose proof (list_elem_of_lookup_2 _ _ _ Ha) as [<- Hin]%list_elem_of_filter.
    apply list_elem_of_fmap. eauto.
  - intros H laneId _ [a b] (i&j&Hij&Ha&Hb)%elem_of_pairs. exact (H laneId i j a b Hij Ha Hb).
Qed.
End InputProperties.

(** ** Pins leave the routes alone *)
Section PinProperties.
Context {N : Type} `{!JsNum N, !JsMath N} (w : workflow N) (meta : wmeta N) (layout : wlayout N).
Implicit Types (e : wedge N) (st : route_state N).

Definition routed_already (index : nat) st : bool := existsb (λ r, (pr_index r =? index)%nat) (rs_placed st).

Lemma place_routed index e ps st : routed_already index (place_route index e ps st) = true.
Proof. unfold routed_already, place_route. cbn [rs_placed]. rewrite existsb_app. cbn. by rewrite Nat.eqb_refl, orb_true_r. Qed.

Lemma uncontrolled_routed index e from to st st' : uncontrolled_path w meta layout index e from to st = inr st' →
  routed_already index st' = true.
Proof.
  unfold uncontrolled_path. destruct (edgeSides _ _ _ _ _ _ _ _) as [sides st1]. destruct (_ && _).
  - destruct (readableAutomaticRoute _ _ _ _ _ _ _ _ _ _) as [|planned]; [done|]. intros [= <-]. apply place_routed.
  - destruct (routeVia _ _ _ _ _ _ _ _ _ _ _ _); [done|]. intros [= <-]. apply place_routed.
Qed.
Lemma path_routed index e from to st st' : path_for w meta layout index e from to st = inr st' → routed_already index st' = true.
Proof.
  unfold path_for. destruct (existsb _ _) eqn:Hex; [by intros [= <-]|].
  destruct (isReadableControlledRoute w e); [|apply uncontrolled_routed].
  destruct (readableControlledRoute _ _ _ _ _ _ _ _) as [|[planned|]]; [done| |apply uncontrolled_routed].
  intros [= <-]. apply place_routed.
Qed.
Lemma path_again index e from to st : routed_already index st = true → path_for w meta layout index e from to st = inr st.
Proof. unfold path_for, routed_already. by intros ->. Qed.

Lemma pinned_sides_kept index e from to st : readable w = true → hasAbsoluteRoutePins e = true →
  (edgeSides w meta layout index e from to st).2 = st.
Proof.
  intros Hw Hp. unfold edgeSides, readableAutomaticSides, automatic_route. rewrite Hw, Hp. cbn [negb andb orb].
  destruct (rs_sides st !! index) as [[sides|]|]; [done|..]; by destruct (_ && _).
Qed.

Lemma conflict_of_inr {A} invariant (a b : A) : conflict_of (N := N) invariant a = inr b → b = a.
Proof. by destruct invariant; [|intros [= ->]]. Qed.

Lemma and_then_inr {A B} (r : route_failure N + A) (f : A → route_failure N + B) b :
  and_then r f = inr b → ∃ a, r = inr a ∧ f a = inr b.
Proof. destruct r as [|a]; [done|]. by exists a. Qed.

Lemma pinned_route_kept index e from to st st' : readable w = true →
  validate_pinned_route w meta layout index e from to st = inr st' → st' = st.
Proof.
  intros Hw. unfold validate_pinned_route. destruct (hasAbsoluteRoutePins e) eqn:Hp; [|by intros [= ->]].
  pose proof (pinned_sides_kept index e from to st Hw Hp) as Hkept.
  destruct (edgeSides _ _ _ _ _ _ _ _) as [sides st1]. cbn [snd] in Hkept. subst st1. apply conflict_of_inr.
Qed.

Lemma pins_route index e from to st st' : readable w = true →
  validate_pins w meta layout index e from to st = inr st' → path_for w meta layout index e from to st = inr st'.
Proof.
  intros Hw (st0&->%conflict_of_inr&(st1&Hlabel&(st2&->%conflict_of_inr&(st3&Hpath&(st4&Hpins&Hlast)%and_then_inr)
    %and_then_inr)%and_then_inr)%and_then_inr)%and_then_inr.
  apply conflict_of_inr in Hlast as ->. apply pinned_route_kept in Hpins as ->; [|done].
  destruct (_ && _); [|by injection Hlabel as <-].
  apply and_then_inr in Hlabel as (st2&Hpath'&->%conflict_of_inr).
  rewrite path_again in Hpath by (by eapply path_routed). by rewrite Hpath', Hpath.
Qed.

Lemma validate_edges_route l r st : readable w = true → foldl (validate_edge w meta layout) r l = inr st →
  foldl (route_edge w meta layout) r l = inr st.
Proof.
  intros Hw. revert r. induction l as [|[i e] l IH]; intros r; [done|]. cbn [foldl]. intros H.
  assert (Hstuck : ∀ f l, foldl (validate_edge w meta layout) (inl f) l = inl f) by (intros f l'; by induction l').
  destruct r as [f|st0]; cbn [validate_edge route_edge fst snd] in *; [by rewrite Hstuck in H|].
  destruct (ends_of w layout e) as [[from to]|]; [|by apply IH].
  destruct (validate_pins w meta layout i e from to st0) as [f|st1] eqn:Hp; [by rewrite Hstuck in H|].
  apply pins_route in Hp as ->; [|done]. by apply IH.
Qed.

(** Checking the pins and routing are one pass.  When the geometry an author
    has pinned is accepted, the routes the check leaves in its caches are those
    that routing the edges one by one gives: no edge is routed differently, or
    in another order, because it or another edge is checked. *)
Theorem pins_checked_while_routing st : readable w = true →
  validateReadablePinnedGeometry w meta layout = inr st → route_workflow w meta layout = inr st.
Proof.
  intros Hw. unfold validateReadablePinnedGeometry. destruct (foldl _ _ _) as [|st'] eqn:H; [done|].
  intros ->%conflict_of_inr. by apply validate_edges_route.
Qed.
End PinProperties.

(** ** Examples *)
Lemma inputs_accepted_witness : validateReadableInputsBeforeRouting short_workflow short_workflow short_layout = None ∧
  NoDup (map wn_id (wf_nodes short_workflow)).
Proof.
  assert (H : validateReadableInputsBeforeRouting short_workflow short_workflow short_layout = None) by (vm_compute; reflexivity).
  split; [exact H|]. exact (proj1 (proj2 (proj1 (inputs_accepted short_workflow short_workflow short_layout eq_refl) H))).
Defined.

Lemma pins_checked_while_routing_witness : ∃ st, validateReadablePinnedGeometry short_workflow short_meta short_layout = inr st ∧
  route_workflow short_workflow short_meta short_layout = inr st.
Proof.
  assert (H : ∃ st, validateReadablePinnedGeometry short_workflow short_meta short_layout = inr st)
    by (apply succeeds_inr; vm_compute; reflexivity).
  destruct H as [st Hst]. exists st. split; [exact Hst|].
  exact (pins_checked_while_routing short_workflow short_meta short_layout st eq_refl Hst).
Defined.
