(* ===== verification/WorkflowCompile.v ===== *)
(** * The compilation of a workflow
      ([src/.agents/skills/archify/renderers/workflow/workflow-compiler.mjs], [compileWorkflowInternal], [compileWorkflow])

    The canvas a workflow needs and gets, one attempt at compiling a document with
    its receipt, and the rounds in which routing asks the layout for more room.

    The document conforms to the schema.  The result is the layout, the routes,
    the canvas and the legend, from which the receipt is read; their SVG text is not
    modelled, nor are the repairs that come with a refusal, each of which is tried
    out by compiling a repaired document. *)

From Stdlib Require Import QArith Qminmax Qround Lqa.
From stdpp Require Import sorting pretty gmap.
From S2P Require Import Prelude Num JsValue Geometry Routes Analyses Ports Checks TextFit Legend Workflow SemanticContract ReadableLayout LaneGeometry WorkflowCanvas RouteCandidates RouteSearch RouteSpec WorkflowChecks WorkflowPins.
#[local] Open Scope Z_scope.

(** The bounds of the content, and what reaches each of them. *)
Record content_bounds (N : Type) := {
  cb_left : N; cb_top : N; cb_right : N; cb_bottom : N;
  own_left : string; own_top : string; own_right : string; own_bottom : string
}.
Arguments cb_left {N} _.
Arguments cb_top {N} _.
Arguments cb_right {N} _.
Arguments cb_bottom {N} _.
Arguments own_left {N} _.
Arguments own_top {N} _.
Arguments own_right {N} _.
Arguments own_bottom {N} _.

Inductive canvas_result (N : Type) :=
  | CanvasFits (viewBox required : N * N)
  | CanvasRefused (code : string) (required : N * N).
Arguments CanvasFits {N} _ _.
Arguments CanvasRefused {N} _ _.

Section Canvas.
Context {N : Type} `{!JsNum N, !JsMath N}.
Context (w : workflow N) (meta : wmeta N) (layout : wlayout N) (st : route_state N).
#[local] Open Scope js_scope.
#[local] Abbreviation point := (point N) (only parsing).
Implicit Types (b : content_bounds N) (e : wedge N).

(** ** [measuredContentBounds] *)
Definition includePoint (contributor : string) b (p : point) : content_bounds N :=
  let '(x0, oleft) := if p.1 <? cb_left b then (p.1, contributor) else (cb_left b, own_left b) in
  let '(y0, otop) := if p.2 <? cb_top b then (p.2, contributor) else (cb_top b, own_top b) in
  let '(x1, oright) := if p.1 >? cb_right b then (p.1, contributor) else (cb_right b, own_right b) in
  let '(y1, obottom) := if p.2 >? cb_bottom b then (p.2, contributor) else (cb_bottom b, own_bottom b) in
  {| cb_left := x0; cb_top := y0; cb_right := x1; cb_bottom := y1;
     own_left := oleft; own_top := otop; own_right := oright; own_bottom := obottom |}.
Definition rect_corners (r : rect N) : list point := [(x_ r, y_ r); (x_ r + width r, y_ r + height r)].

(** What is included: a contributor with points. *)
Definition edge_text (index : nat) e : string :=
  cat ["edge "; if nonempty (we_id e) then text_or_empty (we_id e) else pretty (Z.of_nat index)].
Definition edge_content (index : nat) e : list (string * list point) :=
  match points_at st index with
  | None => []
  | Some points =>
      (edge_text index e, points) ::
      match labelRectFor w st index e with
      | Some l => [(cat [edge_text index e; " label mask"], rect_corners (pl_rect l))]
      | None => []
      end
  end.
Definition phase_content (p : phase) : list (string * list point) :=
  if negb (ordered_range (ph_fromCol p) (ph_toCol p) (column_count layout)) then []
  else
    let span := phaseSpan w layout p in
    [(cat ["phase "; ph_id p],
      rect_corners {| x_ := bd_x span; y_ := nof 27; width := bd_width span; height := nof 16 |})].
Definition group_content (g : group) : list (string * list point) :=
  match group_frame_y w layout g with
  | None => []
  | Some y =>
      if negb (ordered_range (gr_fromCol g) (gr_toCol g) (column_count layout)) then []
      else
        let span := groupSpan w layout g in
        (cat ["group "; gr_id g],
         rect_corners {| x_ := bd_x span; y_ := y; width := bd_width span; height := group_frame_height w layout g |}) ::
        (if readable w then
           [(cat ["group "; gr_id g; " label"],
             rect_corners {| x_ := bd_x span + nof 10; y_ := y + GROUP_LABEL_BASELINE_OFFSET - GROUP_LABEL_MASK_ASCENT;
                             width := nof (textUnits (gr_label g)) * nlit 56 10; height := GROUP_LABEL_MASK_H |})]
         else [])
  end.
Definition content : list (string * list point) :=
  map (λ x : measured_node N, (cat ["node "; node_id x], rect_corners (node_rect x))) (measuredNodes w layout) ++
  concat (imap edge_content (wf_edges w)) ++ (asArray (wf_phases w) ≫= phase_content) ++
  (asArray (wf_groups w) ≫= group_content) ++
  map (λ kr : string * rect N, (cat ["legend "; kr.1], rect_corners kr.2))
    (workflowLegendRects w meta layout (initial_viewBox w meta layout).1).

Definition initial_bounds : content_bounds N :=
  {| cb_left := laneX layout; cb_top := nof 27; cb_right := laneX layout + laneW layout;
     cb_bottom := legendY w meta layout + nof 18;
     own_left := "workflow lanes";
     own_top := match asArray (wf_phases w) with [] => "workflow top padding" | _ => "phase header band" end;
     own_right := "workflow lanes";
     own_bottom := match workflowLegendEntries w meta with
                   | [] => "workflow lanes and bottom padding" | _ => "legend" end |}.
Definition include_all b (item : string * list point) : content_bounds N := foldl (includePoint item.1) b item.2.
Definition measuredContentBounds : content_bounds N := foldl include_all initial_bounds content.
Definition bounds_contributors b : list string :=
  id_set ([own_left b; own_top b; own_right b; own_bottom b] ++ widthContributors layout ++ heightContributors layout).

(** ** [finalizeReadableViewBox] *)
Definition has_absolute_pins : bool :=
  existsb (λ e, hasAbsoluteRoutePins e || has_labelAt e) (wf_edges w).
Definition requiredViewBox : N * N :=
  let b := measuredContentBounds in
  (nmax (minimumCanvasWidth w meta layout) (math_ceil (cb_right b + nof 16)),
   nmax (autoHeight w meta layout) (math_ceil (cb_bottom b + nof 18))).
Definition finalizeReadableViewBox : canvas_result N :=
  let viewBox := initial_viewBox w meta layout in
  if negb (readable w) then CanvasFits viewBox viewBox
  else
    let b := measuredContentBounds in
    if (cb_left b <? nof 0) || (cb_top b <? nof 0) then
      CanvasRefused (if has_absolute_pins then "workflow/explicit-pin-conflict" else "workflow/solver-budget-exhausted")
        requiredViewBox
    else match mt_viewBox meta with
    | None => CanvasFits requiredViewBox requiredViewBox
    | Some viewBox =>
        if (viewBox.1 <? requiredViewBox.1) || (viewBox.2 <? requiredViewBox.2)
        then CanvasRefused "workflow/viewbox-capacity" requiredViewBox
        else CanvasFits viewBox requiredViewBox
    end.

(** ** [renderLegend], up to its text *)
Definition legend_obstacles : list (legend_obstacle N) :=
  if readable w then
    relationshipLegendObstacles (wf_edges w) (λ _ index, default [] (points_at st index))
      (λ e index, pl_rect <$> labelRectFor w st index e)
  else [].
Definition measured_legend (viewBoxWidth : N) : legend_result N :=
  measureLegend (workflowLegendEntries w meta) (workflowLegendLayout w meta layout viewBoxWidth legend_obstacles).
End Canvas.

(** ** One attempt *)
Record compiled (N : Type) := {
  cp_layout : wlayout N; cp_routes : route_state N; cp_viewBox : N * N; cp_required : N * N; cp_legend : legend_result N
}.
Arguments cp_layout {N} _.
Arguments cp_routes {N} _.
Arguments cp_viewBox {N} _.
Arguments cp_required {N} _.
Arguments cp_legend {N} _.

Inductive refusal (N : Type) :=
  | SemanticRefusal (ds : list contract_diagnostic)
  | InputRefusal (f : input_failure)
  | RouteRefusal (f : route_failure N)
  | CapacityRefusal (message : string)
  | LayoutRefusal (problems : list string)
  | CanvasRefusal (code : string) (required : N * N)
  | LegendRefusal (p : legend_problem N)
  | FeedbackExhausted (message : string).
Arguments SemanticRefusal {N} _.
Arguments InputRefusal {N} _.
Arguments RouteRefusal {N} _.
Arguments CapacityRefusal {N} _.
Arguments LayoutRefusal {N} _.
Arguments CanvasRefusal {N} _ _.
Arguments LegendRefusal {N} _.
Arguments FeedbackExhausted {N} _.

(** The receipt: the measured nodes, the routed edges, the placed labels. *)
Record receipt_edge (N : Type) := { rg_id : option string; rg_from : string; rg_to : string; rg_points : list (point N) }.
Arguments rg_id {N} _.
Arguments rg_from {N} _.
Arguments rg_to {N} _.
Arguments rg_points {N} _.
Record receipt_label (N : Type) := {
  rl_edge : option string; rl_label : string; rl_at : point N; rl_width : N; rl_height : N
}.
Arguments rl_edge {N} _.
Arguments rl_label {N} _.
Arguments rl_at {N} _.
Arguments rl_width {N} _.
Arguments rl_height {N} _.
Record receipt (N : Type) := {
  re_contract : string; re_viewBox : N * N; re_requiredViewBox : N * N; re_columns : list N;
  re_nodes : list (measured_node N); re_edges : list (receipt_edge N); re_labels : list (receipt_label N)
}.
Arguments re_contract {N} _.
Arguments re_viewBox {N} _.
Arguments re_requiredViewBox {N} _.
Arguments re_columns {N} _.
Arguments re_nodes {N} _.
Arguments re_edges {N} _.
Arguments re_labels {N} _.

(** What a call returns ([ok] or not), asks for, or throws. *)
Inductive compile_result (N : Type) :=
  | Compiled (c : compiled N)
  | NotCompiled (r : refusal N)
  | AsksForRoom (request : layout_request N)
  | Throws (f : route_failure N).
Arguments Compiled {N} _.
Arguments NotCompiled {N} _.
Arguments AsksForRoom {N} _.
Arguments Throws {N} _.

Section Compile.
Context {N : Type} `{!JsNum N, !JsMath N}.
Context (brandMarkFor : wnode N → bool).
#[local] Open Scope js_scope.
Implicit Types (feedback : layout_feedback N) (request : layout_request N) (source w : workflow N) (meta : wmeta N).

Definition with_profile (qualityProfile : option string) meta : wmeta N :=
  {| mt_legend := mt_legend meta; mt_viewBox := mt_viewBox meta;
     mt_qualityProfile := if nonempty qualityProfile then qualityProfile else mt_qualityProfile meta |}.

(** A failure of the routing: its diagnostic is returned, or it is thrown on. *)
Definition route_outcome (f : route_failure N) : compile_result N :=
  match f with
  | WorkflowLayoutFeedback request => AsksForRoom request
  | ExplicitPinConflict _ | RoutePresetConflict _ | SolverBudgetExhausted _ => NotCompiled (RouteRefusal f)
  | NoEnumeration | RouteTypeError => Throws f
  end.

(** From [validateWorkflow] on, with the routes of the edges. *)
Definition compile_routed w meta (layout : wlayout N) (st : route_state N) : compile_result N :=
  match validateWorkflow w meta layout brandMarkFor st with
  | (_ :: _) as problems => NotCompiled (LayoutRefusal problems)
  | [] =>
      match finalizeReadableViewBox w meta layout st with
      | CanvasRefused code required => NotCompiled (CanvasRefusal code required)
      | CanvasFits viewBox required =>
          match measured_legend w meta layout st viewBox.1 with
          | Refused p => NotCompiled (LegendRefusal p)
          | legend => Compiled {| cp_layout := layout; cp_routes := st; cp_viewBox := viewBox; cp_required := required;
                                  cp_legend := legend |}
          end
      end
  end.

Definition layout_of w feedback : wlayout N := if readable w then createReadableLayout w feedback else createLegacyLayout.

Definition compileWorkflowInternal source meta (qualityProfile : option string) feedback : compile_result N :=
  let meta := with_profile qualityProfile meta in
  let w := canonicalReadableWorkflow source in
  match semanticContractDiagnostics w with
  | (_ :: _) as ds => NotCompiled (SemanticRefusal ds)
  | [] =>
      let layout := layout_of w feedback in
      match validateReadableInputsBeforeRouting source w layout with
      | Some f => NotCompiled (InputRefusal f)
      | None =>
          match enforceLegacyColumnCapacity w layout with
          | Some message => NotCompiled (CapacityRefusal message)
          | None =>
              match (if readable w then validateReadablePinnedGeometry w meta layout else route_workflow w meta layout) with
              | inl f => route_outcome f
              | inr st => compile_routed w meta layout st
              end
          end
      end
  end.

(** ** The receipt *)
Definition receipt_label_of w (st : route_state N) (index : nat) (e : wedge N) : option (receipt_label N) :=
  if negb (nonempty (we_label e)) then None
  else
    points ← points_at st index;
    p ← workflowEdgeLabelPoint w e points;
    Some {| rl_edge := we_id e; rl_label := label_text e; rl_at := p; rl_width := workflowLabelWidth (label_text e);
            rl_height := nof 14 |}.
Definition receipt_of w (c : compiled N) : receipt N :=
  {| re_contract := contract (cp_layout c); re_viewBox := cp_viewBox c; re_requiredViewBox := cp_required c;
     re_columns := colXs (cp_layout c); re_nodes := measuredNodes w (cp_layout c);
     re_edges := imap (λ index e, {| rg_id := we_id e; rg_from := we_from e; rg_to := we_to e;
                                     rg_points := default [] (points_at (cp_routes c) index) |}) (wf_edges w);
     re_labels := omap id (imap (receipt_label_of w (cp_routes c)) (wf_edges w)) |}.

(** ** The rounds *)
Definition MAX_READABLE_LAYOUT_FEEDBACK_ROUNDS : nat := 3.

Definition edge_or_ends request : string :=
  if nonempty (lq_edge request) then text_or_empty (lq_edge request) else cat [lq_from request; "->"; lq_to request].
Definition feedbackFailure request : compile_result N :=
  NotCompiled (FeedbackExhausted (cat ["Workflow edge "; quoted (edge_or_ends request);
    " exhausted bounded readable-v2 layout feedback without a feasible automatic route."])).

(** [{ ...entries, [key]: value }] *)
Fixpoint set_entry {A} (key : Z * Z) (value : A) (entries : list ((Z * Z) * A)) : list ((Z * Z) * A) :=
  match entries with
  | [] => [(key, value)]
  | (k, v) :: entries => if bool_decide (k = key) then (key, value) :: entries else (k, v) :: set_entry key value entries
  end.
Definition entry_at {A} (key : Z * Z) (entries : list ((Z * Z) * A)) : option A :=
  snd ∘ snd <$> list_find (λ kv, kv.1 = key) entries.

(** [minimum > (current ?? -Infinity) + 0.0001] *)
Definition exceeds (minimum : N) (current : option N) : bool :=
  match current with Some current => minimum >? current + epsilon | None => true end.

(** The feedback of the next round, if the request asks for more than it has. *)
Definition next_feedback feedback request : option (layout_feedback N) :=
  match lq_demand request with
  | RankGapMinimum fromCol toCol minimum =>
      let key := (fromCol, toCol) in
      if nfin minimum && exceeds minimum (entry_at key (rankGapMinimums feedback)) then
        Some {| rankGapMinimums := set_entry key minimum (rankGapMinimums feedback);
                rankGapContributors := set_entry key
                  [rank_text fromCol toCol "route clearance"; cat ["edge "; edge_or_ends request; " route"]]
                  (rankGapContributors feedback);
                laneGapMin := laneGapMin feedback; laneGapContributors := laneGapContributors feedback |}
      else None
  | LaneGapMinimum minimum =>
      if nfin minimum && exceeds minimum (laneGapMin feedback) then
        Some {| rankGapMinimums := rankGapMinimums feedback; rankGapContributors := rankGapContributors feedback;
                laneGapMin := Some minimum;
                laneGapContributors := [cat ["edge "; edge_or_ends request; " lane-gap route clearance"]] |}
      else None
  end.

(** [rounds] is the number of rounds that are left after this one. *)
Fixpoint compile_rounds source meta (qualityProfile : option string) (rounds : nat) feedback : compile_result N :=
  match compileWorkflowInternal source meta qualityProfile feedback with
  | AsksForRoom request =>
      match rounds, next_feedback feedback request with
      | S rounds, Some feedback => compile_rounds source meta qualityProfile rounds feedback
      | _, _ => feedbackFailure request
      end
  | result => result
  end.
Definition compileWorkflow source meta (qualityProfile : option string) : compile_result N :=
  compile_rounds source meta qualityProfile MAX_READABLE_LAYOUT_FEEDBACK_ROUNDS no_feedback.
End Compile.
