(* ===== verification/CompileSpec.v ===== *)
(** * What the compilation of a workflow guarantees

    The canvas holds the whole drawing and is the smallest that does; the rounds
    of feedback end, each asking for more room than the one before; a document
    of the fixed layout needs one attempt; and what is known of a compiled
    document: of its inputs, its routes, its checks and its canvas. *)

From Stdlib Require Import QArith Qminmax Qround Lqa.
From stdpp Require Import sorting gmap.
From S2P Require Import Prelude Num JsValue Geometry Routes Analyses Ports Checks TextFit Legend Workflow SemanticContract ReadableLayout LaneGeometry WorkflowCanvas RouteCandidates RouteSearch RouteSpec WorkflowChecks WorkflowPins WorkflowCompile.
#[local] Open Scope Q_scope.

(** ** The canvas *)
Definition within_bounds (b : content_bounds Q) (p : point Q) : Prop :=
  cb_left b <= p.1 <= cb_right b ∧ cb_top b <= p.2 <= cb_bottom b.
Definition wider (b b' : content_bounds Q) : Prop :=
  cb_left b' <= cb_left b ∧ cb_top b' <= cb_top b ∧ cb_right b <= cb_right b' ∧ cb_bottom b <= cb_bottom b'.

#[export] Instance wider_preorder : PreOrder wider.
Proof. split; [intros b|intros a b c (?&?&?&?) (?&?&?&?)]; unfold wider in *; split_and!; lra. Qed.

Lemma within_wider b b' p : within_bounds b p → wider b b' → within_bounds b' p.
Proof. intros [[] []] (?&?&?&?). unfold within_bounds. lra. Qed.

Lemma includePoint_spec contributor b p :
  wider b (includePoint contributor b p) ∧ within_bounds (includePoint contributor b p) p.
Proof.
  unfold includePoint, wider, within_bounds.
  destruct (p.1 <? cb_left b)%js eqn:E1, (p.2 <? cb_top b)%js eqn:E2, (p.1 >? cb_right b)%js eqn:E3,
    (p.2 >? cb_bottom b)%js eqn:E4; q_tests; cbn; lra.
Qed.
Lemma includePoint_least contributor b p b' : wider b b' → within_bounds b' p → wider (includePoint contributor b p) b'.
Proof.
  unfold includePoint, wider, within_bounds. intros (?&?&?&?) [[] []].
  destruct (p.1 <? cb_left b)%js, (p.2 <? cb_top b)%js, (p.1 >? cb_right b)%js, (p.2 >? cb_bottom b)%js; cbn; lra.
Qed.

Lemma include_all_spec b item : wider b (include_all b item) ∧ ∀ p, p ∈ item.2 → within_bounds (include_all b item) p.
Proof.
  unfold include_all. destruct item as [c ps]. cbn [fst snd]. revert b.
  induction ps as [|q ps IH]; intros b; cbn [foldl].
  { split; [reflexivity|]. intros p []%not_elem_of_nil. }
  destruct (IH (includePoint c b q)) as [Hw Hin], (includePoint_spec c b q) as [Hw1 Hin1].
  split; [by etrans|]. intros p [->|Hp]%elem_of_cons; [by eapply within_wider|by apply Hin].
Qed.
Lemma include_all_least b item b' : wider b b' → (∀ p, p ∈ item.2 → within_bounds b' p) → wider (include_all b item) b'.
Proof.
  unfold include_all. destruct item as [c ps]. cbn [fst snd]. revert b.
  induction ps as [|q ps IH]; intros b Hb Hps; cbn [foldl]; [done|]. apply IH.
  - apply includePoint_least; [done|]. apply Hps. by left.
  - intros p Hp. apply Hps. by right.
Qed.

Lemma include_items_spec items : ∀ b, wider b (foldl include_all b items) ∧
  ∀ item p, item ∈ items → p ∈ item.2 → within_bounds (foldl include_all b items) p.
Proof.
  induction items as [|i items IH]; intros b; cbn [foldl].
  { split; [reflexivity|]. intros i p []%not_elem_of_nil. }
  destruct (IH (include_all b i)) as [Hw Hin], (include_all_spec b i) as [Hw1 Hin1].
  split; [by etrans|]. intros item p [->|Hi]%elem_of_cons Hp; [|by eapply Hin].
  eapply within_wider; [by apply Hin1|done].
Qed.
Lemma include_items_least items b' : ∀ b, wider b b' → (∀ item p, item ∈ items → p ∈ item.2 → within_bounds b' p) →
  wider (foldl include_all b items) b'.
Proof.
  induction items as [|i items IH]; intros b Hb Hps; cbn [foldl]; [done|]. apply IH.
  - apply include_all_least; [done|]. intros p Hp. apply (Hps i); [by left|done].
  - intros item p Hi Hp. apply (Hps item); [by right|done].
Qed.

Lemma ceil_least (x : Q) (n : Z) : x <= inject_Z n → math_ceil x <= inject_Z n.
Proof.
  intros H. unfold math_ceil. q_ops. change (inject_Z (Qceiling x) <= inject_Z n). rewrite <-Zle_Qle.
  rewrite <-(Qceiling_Z n). by apply Qceiling_resp_le.
Qed.
Lemma Q_nmax_lub (a b c : Q) : a <= c → b <= c → nmax a b <= c.
Proof. intros. by destruct (Q_nmax_cases a b) as [[_ ->]|[_ ->]]. Qed.

Section Canvas.
Context (w : workflow Q) (meta : wmeta Q) (layout : wlayout Q) (st : route_state Q).
#[local] Abbreviation drawing := (content w meta layout st).
#[local] Abbreviation bounds := (measuredContentBounds w meta layout st).
#[local] Abbreviation required := (requiredViewBox w meta layout st).

Lemma content_within item p : item ∈ drawing → p ∈ item.2 → within_bounds bounds p.
Proof. apply include_items_spec. Qed.

Lemma required_holds : cb_right bounds + 16 <= required.1 ∧ cb_bottom bounds + 18 <= required.2 ∧
  minimumCanvasWidth w meta layout <= required.1 ∧ autoHeight w meta layout <= required.2.
Proof.
  unfold requiredViewBox. cbn [fst snd].
  set (R := (cb_right bounds + nof 16)%js). set (B := (cb_bottom bounds + nof 18)%js).
  destruct (Q_nmax_ge (minimumCanvasWidth w meta layout) (math_ceil R)), (Q_nmax_ge (autoHeight w meta layout) (math_ceil B)).
  pose proof (math_ceil_ge R). pose proof (math_ceil_ge B). subst R B. q_ops.
  change (inject_Z 16) with 16 in *. change (inject_Z 18) with 18 in *. lra.
Qed.

Lemma required_least (W H : Z) : minimumCanvasWidth w meta layout <= inject_Z W → autoHeight w meta layout <= inject_Z H →
  laneX layout + laneW layout + 16 <= inject_Z W → legendY w meta layout + 36 <= inject_Z H →
  (∀ item p, item ∈ drawing → p ∈ item.2 → p.1 + 16 <= inject_Z W ∧ p.2 + 18 <= inject_Z H) →
  required.1 <= inject_Z W ∧ required.2 <= inject_Z H.
Proof.
  intros Hmin Hauto Hlane Hlegend Hall.
  set (L := {| cb_left := cb_left bounds; cb_top := cb_top bounds; cb_right := inject_Z W - 16; cb_bottom := inject_Z H - 18;
               own_left := ""; own_top := ""; own_right := ""; own_bottom := "" |}).
  assert (Hb : wider bounds L).
  { apply include_items_least.
    - destruct (include_items_spec drawing (initial_bounds w meta layout)) as [(H1&H2&_&_) _].
      split_and!; [exact H1|exact H2|..]; subst L; cbn [cb_right cb_bottom initial_bounds]; q_ops;
        change (inject_Z 18) with 18; lra.
    - intros item p Hi Hp. pose proof (content_within item p Hi Hp) as [[] []]. destruct (Hall item p Hi Hp).
      split; subst L; cbn in *; lra. }
  destruct Hb as (_&_&HR&HB). subst L. cbn in HR, HB. unfold requiredViewBox. cbn [fst snd].
  split; apply Q_nmax_lub; try done; apply ceil_least; q_ops;
    [change (inject_Z 16) with 16; lra|change (inject_Z 18) with 18; lra].
Qed.

Lemma canvas_settled viewBox least : readable w = true → finalizeReadableViewBox w meta layout st = CanvasFits viewBox least →
  0 <= cb_left bounds ∧ 0 <= cb_top bounds ∧ least = required ∧ least.1 <= viewBox.1 ∧ least.2 <= viewBox.2 ∧
  (mt_viewBox meta = None → viewBox = least).
Proof.
  intros Hw. unfold finalizeReadableViewBox. rewrite Hw. cbn [negb].
  destruct (_ || _) eqn:Horigin; [done|]. apply orb_false_iff in Horigin as [Hl Ht]. q_tests.
  change (nof 0 : Q) with 0 in *. destruct (mt_viewBox meta) as [vb|].
  - destruct (_ || _) eqn:Hsmall; [done|]. intros [= <- <-]. apply orb_false_iff in Hsmall as [H1 H2].
    rewrite Q_nlt_false in H1, H2. done.
  - intros [= <- <-]. split_and!; (done || apply Qle_refl).
Qed.

Lemma canvas_holds viewBox least : readable w = true → finalizeReadableViewBox w meta layout st = CanvasFits viewBox least →
  ∀ item p, item ∈ drawing → p ∈ item.2 → 0 <= p.1 <= viewBox.1 - 16 ∧ 0 <= p.2 <= viewBox.2 - 18.
Proof.
  intros Hw (?&?&->&?&?&_)%canvas_settled item p Hi Hp; [|done]. destruct required_holds as (?&?&_).
  destruct (content_within item p Hi Hp) as [[] []]. lra.
Qed.

(** C26: the canvas of a readable document holds its drawing.  When the canvas is
    settled, every point of the content (nodes, routes, label masks, phases,
    groups, the legend) lies in it, 16 pixels from the right and 18 from the
    lower border; a document that states no size gets the size required; and the
    size required is the least: no canvas of integral size that is wide enough
    for the layout and the legend and holds the content is smaller. *)
Theorem canvas_holds_content viewBox least : readable w = true →
  finalizeReadableViewBox w meta layout st = CanvasFits viewBox least →
  (∀ item p, item ∈ content w meta layout st → p ∈ item.2 →
     0 <= p.1 <= viewBox.1 - 16 ∧ 0 <= p.2 <= viewBox.2 - 18) ∧
  (mt_viewBox meta = None → viewBox = least) ∧ least.1 <= viewBox.1 ∧ least.2 <= viewBox.2 ∧
  ∀ W H : Z, minimumCanvasWidth w meta layout <= inject_Z W → autoHeight w meta layout <= inject_Z H →
    laneX layout + laneW layout + 16 <= inject_Z W → legendY w meta layout + 36 <= inject_Z H →
    (∀ item p, item ∈ content w meta layout st → p ∈ item.2 → p.1 + 16 <= inject_Z W ∧ p.2 + 18 <= inject_Z H) →
    least.1 <= inject_Z W ∧ least.2 <= inject_Z H.
Proof.
  intros Hw Hfits. pose proof (canvas_settled viewBox least Hw Hfits) as (_&_&E&?&?&?).
  split_and!; [by apply (canvas_holds viewBox least)|done..|rewrite E; apply required_least].
Qed.
End Canvas.

(** ** The rounds of feedback *)
Section Entries.
Context {A : Type}.
Implicit Types (entries : list ((Z * Z) * A)).

Lemma entry_at_cons key k (v : A) entries : entry_at key ((k, v) :: entries) = if bool_decide (k = key) then Some v else entry_at key entries.
Proof.
  unfold entry_at. cbn [list_find fst]. case_decide as Hk; [by rewrite bool_decide_true|].
  rewrite bool_decide_false by done. by destruct (list_find _ entries) as [[i x]|].
Qed.
Lemma entry_at_set key (v : A) entries : entry_at key (set_entry key v entries) = Some v.
Proof.
  induction entries as [|[k x] entries IH]; cbn [set_entry]; [by rewrite entry_at_cons, bool_decide_true|].
  case_bool_decide as Hk; rewrite entry_at_cons; [by rewrite bool_decide_true|]. by rewrite bool_decide_false.
Qed.
Lemma entry_at_other key key' (v : A) entries : key ≠ key' → entry_at key (set_entry key' v entries) = entry_at key entries.
Proof.
  intros Hne. induction entries as [|[k x] entries IH]; cbn [set_entry].
  { rewrite entry_at_cons. by rewrite bool_decide_false. }
  case_bool_decide as Hk; rewrite !entry_at_cons; [|by rewrite IH].
  subst k. by rewrite !bool_decide_false.
Qed.
End Entries.

(** At least as much as before, and more than before. *)
Definition kept (before after : option Q) : Prop := ∀ x, before = Some x → ∃ y, after = Some y ∧ x <= y.
Definition grown (before after : option Q) : Prop := ∃ y, after = Some y ∧ ∀ x, before = Some x → x + epsilon < y.
Lemma kept_refl o : kept o o.
Proof. intros x ->. exists x. split; [done|apply Qle_refl]. Qed.
Lemma grown_kept before after : grown before after → kept before after.
Proof. intros (y&->&Hy) x Hx. exists y. split; [done|]. specialize (Hy x Hx). pose proof epsilon_Q. lra. Qed.
Lemma exceeds_grown (minimum : Q) current : exceeds minimum current = true → grown current (Some minimum).
Proof. intros H. exists minimum. split; [done|]. intros x ->. cbn [exceeds] in H. by q_tests. Qed.

Definition gap_at (f : layout_feedback Q) (key : Z * Z) : option Q := entry_at key (rankGapMinimums f).
(** No minimum is lowered, and one is raised. *)
Definition more_room (f f' : layout_feedback Q) : Prop :=
  (∀ key, kept (gap_at f key) (gap_at f' key)) ∧ kept (laneGapMin f) (laneGapMin f') ∧
  ((∃ key, grown (gap_at f key) (gap_at f' key)) ∨ grown (laneGapMin f) (laneGapMin f')).

Lemma next_feedback_more f request f' : next_feedback f request = Some f' → more_room f f'.
Proof.
  unfold next_feedback, more_room, gap_at. destruct (lq_demand request) as [a b minimum|minimum].
  - destruct (_ && _) eqn:H; [|done]. intros [= <-]. apply andb_true_iff in H as [_ H%exceeds_grown].
    cbn [rankGapMinimums laneGapMin].
    split_and!; [|apply kept_refl|left; exists (a, b); by rewrite entry_at_set].
    intros key. destruct (decide (key = (a, b))) as [->|Hne].
    + rewrite entry_at_set. by apply grown_kept.
    + rewrite entry_at_other by done. apply kept_refl.
  - destruct (_ && _) eqn:H; [|done]. intros [= <-]. apply andb_true_iff in H as [_ H%exceeds_grown].
    cbn [rankGapMinimums laneGapMin].
    split_and!; [intros key; apply kept_refl|by apply grown_kept|by right].
Qed.

Section Rounds.
Context (brandMarkFor : wnode Q → bool) (source : workflow Q) (meta : wmeta Q) (qualityProfile : option string).
#[local] Abbreviation attempt := (compileWorkflowInternal brandMarkFor source meta qualityProfile).

(** An attempt asks for more room, and gets it in the next. *)
Definition next_round (f f' : layout_feedback Q) : Prop :=
  ∃ request, attempt f = AsksForRoom request ∧ next_feedback f request = Some f'.
(** The last attempt, [count] rounds after the first. *)
Definition last_round (rounds count : nat) (f : layout_feedback Q) (result : compile_result Q) : Prop :=
  (result = attempt f ∧ ∀ request, result ≠ AsksForRoom request) ∨
  ∃ request, attempt f = AsksForRoom request ∧ (count = rounds ∨ next_feedback f request = None) ∧
    result = feedbackFailure request.

Lemma rounds_end rounds f : ∃ count f', (count ≤ rounds)%nat ∧ nsteps next_round count f f' ∧
  last_round rounds count f' (compile_rounds brandMarkFor source meta qualityProfile rounds f).
Proof.
  revert f. induction rounds as [|rounds IH]; intros f; cbn [compile_rounds].
  - exists 0%nat, f. split_and!; [lia|constructor|]. unfold last_round.
    destruct (attempt f) as [c|r|request|t]; try (left; split; [done|]; by intros ?). right. exists request. split_and!; eauto.
  - destruct (attempt f) as [c|r|request|t] eqn:Ha;
      try (exists 0%nat, f; split_and!; [lia|constructor|]; left; rewrite Ha; split; [done|]; by intros ?).
    destruct (next_feedback f request) as [f1|] eqn:Hn.
    + destruct (IH f1) as (count&f'&Hle&Hsteps&Hlast). exists (S count), f'. split_and!; [lia| |].
      * econstructor; [|done]. by exists request.
      * destruct Hlast as [Hl|(r&?&[->|?]&?)]; [by left|right; exists r..]; auto.
    + exists 0%nat, f. split_and!; [lia|constructor|]. right. exists request. auto.
Qed.

(** C27: the compilation ends after at most four attempts.  Each attempt but the
    last asks for more room, and the next one is made with a feedback that
    lowers no minimum and raises one by more than the tolerance; the result is
    that of the last attempt, or, if that still asks for room and there are no
    rounds left or the request is for no more than it has, the failure of the
    feedback.  No request for room escapes. *)
Theorem compilation_ends : ∃ count last_feedback, (count ≤ 3)%nat ∧
  nsteps (λ f f', next_round f f' ∧ more_room f f') count no_feedback last_feedback ∧
  last_round 3 count last_feedback (compileWorkflow brandMarkFor source meta qualityProfile) ∧
  ∀ request, compileWorkflow brandMarkFor source meta qualityProfile ≠ AsksForRoom request.
Proof.
  destruct (rounds_end MAX_READABLE_LAYOUT_FEEDBACK_ROUNDS no_feedback) as (count&f&Hle&Hsteps&Hlast).
  exists count, f. split_and!; [exact Hle| |exact Hlast|].
  - clear -Hsteps. induction Hsteps as [f|n f1 f2 f3 Hstep _ IH]; [constructor|]. econstructor; [|exact IH].
    split; [done|]. destruct Hstep as (r&_&Hn). by apply next_feedback_more in Hn.
  - intros request. unfold compileWorkflow. by destruct Hlast as [[_ H]|(r&_&_&->)].
Qed.

(** ** The fixed layout *)
Lemma legacy_via w layout placed index e from to start (end_ : point Q) sides preset : readable w = false →
  succeeds (routeVia w meta layout placed index e from to start end_ sides preset) = true.
Proof.
  intros Hw. unfold routeVia. rewrite Hw. cbn [andb]. destruct (we_via e); [done|].
  destruct (preset_via _ _ _ _ _ _ _); [done|]. case_bool_decide; [done|]. by destruct (oneBendCrossLaneVia _ _ _ _).
Qed.
Lemma legacy_path w layout index e from to st : readable w = false → succeeds (path_for w meta layout index e from to st) = true.
Proof.
  intros Hw. unfold path_for, isReadableControlledRoute. rewrite Hw. cbn [andb]. destruct (existsb _ _); [done|].
  unfold uncontrolled_path. destruct (edgeSides _ _ _ _ _ _ _ _) as [sides st']. rewrite Hw. cbn [andb].
  match goal with |- context [routeVia ?a ?b ?c ?d ?f ?g ?h ?i ?j ?k ?l ?m] =>
    pose proof (succeeds_inr _ (legacy_via a c d f g h i j k l m Hw)) as [via ->] end. done.
Qed.
Lemma legacy_routes w layout : readable w = false → ∃ st, route_workflow w meta layout = inr st.
Proof.
  intros Hw. apply succeeds_inr. unfold route_workflow. generalize (initial_state w meta layout).
  induction (imap pair (wf_edges w)) as [|[i e] l IH]; intros st; cbn [foldl]; [done|]. unfold route_edge at 2. cbn [fst snd].
  destruct (ends_of w layout e) as [[from to]|]; [|apply IH].
  destruct (succeeds_inr _ (legacy_path w layout i e from to st Hw)) as [st' ->]. apply IH.
Qed.
End Rounds.

Lemma canonical_version (w : workflow Q) : schema_version (canonicalReadableWorkflow w) = schema_version w.
Proof. unfold canonicalReadableWorkflow. by destruct (negb _). Qed.
Lemma canonical_readable (w : workflow Q) : readable (canonicalReadableWorkflow w) = readable w.
Proof. unfold readable. by rewrite canonical_version. Qed.

(** C28: a document of the fixed layout is compiled in one attempt: it is compiled
    in the fixed layout, on the canvas it requires, or refused by its semantic
    checks, by the capacity of its columns, by the validation (that includes the
    size of its canvas and the problems of its routes) or by its legend.  No
    search for a route fails, no canvas is refused after the validation, no more
    room is asked for and nothing is thrown. *)
Theorem fixed_layout_compiles_once brandMarkFor (source : workflow Q) meta qualityProfile : readable source = false →
  compileWorkflow brandMarkFor source meta qualityProfile =
    compileWorkflowInternal brandMarkFor source meta qualityProfile no_feedback ∧
  match compileWorkflow brandMarkFor source meta qualityProfile with
  | Compiled c => cp_layout c = createLegacyLayout ∧ cp_viewBox c = cp_required c
  | NotCompiled (SemanticRefusal _ | CapacityRefusal _ | LayoutRefusal _ | LegendRefusal _) => True
  | _ => False
  end.
Proof.
  intros Hv. set (w := canonicalReadableWorkflow source). assert (Hw : readable w = false) by (by rewrite <-Hv; apply canonical_readable).
  assert (Hone : match compileWorkflowInternal brandMarkFor source meta qualityProfile no_feedback with
    | Compiled c => cp_layout c = createLegacyLayout ∧ cp_viewBox c = cp_required c
    | NotCompiled (SemanticRefusal _ | CapacityRefusal _ | LayoutRefusal _ | LegendRefusal _) => True
    | _ => False
    end).
  { unfold compileWorkflowInternal. fold w. destruct (semanticContractDiagnostics w); [|done].
    unfold validateReadableInputsBeforeRouting, layout_of. rewrite Hw. cbn [negb].
    destruct (enforceLegacyColumnCapacity _ _); [done|].
    destruct (legacy_routes (with_profile qualityProfile meta) w createLegacyLayout Hw) as [st ->].
    unfold compile_routed. destruct (validateWorkflow _ _ _ _ _); [|done].
    unfold finalizeReadableViewBox. rewrite Hw. cbn [negb]. by destruct (measured_legend _ _ _ _ _). }
  unfold compileWorkflow. cbn [compile_rounds MAX_READABLE_LAYOUT_FEEDBACK_ROUNDS].
  by destruct (compileWorkflowInternal _ _ _ _ _) as [c|r|request|t].
Qed.

(** ** A compiled document *)
Lemma validated_geometry w meta layout st : readable w = true → validateReadablePinnedGeometry w meta layout = inr st →
  route_workflow w meta layout = inr st.
Proof.
  intros Hw. unfold validateReadablePinnedGeometry. destruct (foldl _ _ _) as [|st'] eqn:H; [done|].
  intros ->%conflict_of_inr. by apply validate_edges_route.
Qed.

Lemma internal_compiled brandMarkFor (source : workflow Q) meta qualityProfile feedback c : readable source = true →
  compileWorkflowInternal brandMarkFor source meta qualityProfile feedback = Compiled c →
  let w := canonicalReadableWorkflow source in
  let meta := with_profile qualityProfile meta in
  cp_layout c = createReadableLayout w feedback ∧
  semanticContractDiagnostics w = [] ∧ validateReadableInputsBeforeRouting source w (cp_layout c) = None ∧
  validateReadablePinnedGeometry w meta (cp_layout c) = inr (cp_routes c) ∧
  validateWorkflow w meta (cp_layout c) brandMarkFor (cp_routes c) = [] ∧
  finalizeReadableViewBox w meta (cp_layout c) (cp_routes c) = CanvasFits (cp_viewBox c) (cp_required c) ∧
  measured_legend w meta (cp_layout c) (cp_routes c) (cp_viewBox c).1 = cp_legend c ∧ ∀ p, cp_legend c ≠ Refused p.
Proof.
  intros Hv. cbv zeta. unfold compileWorkflowInternal. set (w := canonicalReadableWorkflow source).
  assert (Hw : readable w = true) by (by rewrite <-Hv; apply canonical_readable). unfold layout_of. rewrite Hw.
  set (layout := createReadableLayout w feedback). destruct (semanticContractDiagnostics w); [|done].
  destruct (validateReadableInputsBeforeRouting _ _ _) eqn:Hin; [done|]. destruct (enforceLegacyColumnCapacity _ _); [done|].
  destruct (validateReadablePinnedGeometry _ _ _) as [f|st] eqn:Hst; [by destruct f|].
  unfold compile_routed. destruct (validateWorkflow _ _ _ _ _) eqn:Hval; [|done].
  destruct (finalizeReadableViewBox _ _ _ _) as [vb req|] eqn:Hvb; [|done].
  destruct (measured_legend _ _ _ _ _) as [l| |p] eqn:Hleg; (intros [= <-]; cbn; by split_and!) || done.
Qed.

Lemma rounds_compiled brandMarkFor (source : workflow Q) meta qualityProfile rounds c : ∀ f,
  compile_rounds brandMarkFor source meta qualityProfile rounds f = Compiled c →
  ∃ feedback, compileWorkflowInternal brandMarkFor source meta qualityProfile feedback = Compiled c.
Proof.
  intros f Hc. destruct (rounds_end brandMarkFor source meta qualityProfile rounds f) as (count&f'&_&_&Hlast).
  exists f'. destruct Hlast as [[<- _]|(r&_&_&Hr)]; [done|]. by rewrite Hc in Hr.
Qed.

(** ** The edges of a validated document have ends *)
Lemma last_wins_in {A} (entries : list (string * A)) k v : last_wins entries !! k = Some v → (k, v) ∈ entries.
Proof. unfold last_wins. intros H%elem_of_list_to_map_2. by apply elem_of_reverse. Qed.
Lemma last_wins_some {A} (entries : list (string * A)) k : k ∈ entries.*1 → is_Some (last_wins entries !! k).
Proof.
  intros Hk. apply not_eq_None_Some. unfold last_wins. rewrite <-not_elem_of_list_to_map. intros Hnot. apply Hnot.
  apply list_elem_of_fmap in Hk as (kv&->&Hkv). apply list_elem_of_fmap. exists kv. split; [done|]. by apply elem_of_reverse.
Qed.

Lemma known_lane_top w (layout : wlayout Q) id : known_lane w id = true → is_Some (laneTop w layout id).
Proof.
  unfold known_lane, lane_ids. rewrite bool_decide_eq_true. intros (l&->&Hl)%list_elem_of_fmap.
  unfold laneTop, laneIndex, laneOrder. apply list_elem_of_lookup in Hl as [i Hi].
  destruct (last_wins_some (imap (λ i l, (ln_id l, Z.of_nat i)) (wf_lanes w)) (ln_id l)) as [z ->]; [|by eexists].
  apply list_elem_of_fmap. exists (ln_id l, Z.of_nat i). split; [done|]. apply elem_of_imap. eauto.
Qed.

Section Validated.
Context (brandMarkFor : wnode Q → bool) (w : workflow Q) (meta : wmeta Q) (layout : wlayout Q) (st : route_state Q).
Context (Hval : validateWorkflow w meta layout brandMarkFor st = []).

Lemma validated_nodes n : n ∈ all_nodes w → known_lane w (wn_lane n) = true.
Proof using Hval.
  intros Hn. unfold validateWorkflow in Hval. rewrite !app_nil in Hval. destruct Hval as (_&Hnodes&_).
  pose proof (bind_nil_inv _ _ Hnodes n Hn) as Hp. unfold node_problems in Hp. by destruct (known_lane w (wn_lane n)).
Qed.
Lemma validated_node_at id : has_node w id = true → is_Some (node_at w layout id).
Proof using Hval.
  unfold has_node. rewrite bool_decide_eq_true. intros [n Hn]. unfold node_at. rewrite Hn. cbn [mbind option_bind].
  assert (Hin : n ∈ all_nodes w).
  { apply list_elem_of_omap. exists id. split; [|done]. apply elem_of_id_set. apply last_wins_in in Hn.
    apply list_elem_of_fmap in Hn as (m&[= -> ->]&Hm). apply list_elem_of_fmap. eauto. }
  destruct (known_lane_top w layout _ (validated_nodes n Hin)) as [top Htop]. unfold measureNode. rewrite Htop. by eexists.
Qed.
Lemma validated_ends i e : wf_edges w !! i = Some e → is_Some (ends_of w layout e).
Proof using Hval.
  intros He. pose proof Hval as Hall. unfold validateWorkflow in Hall. rewrite !app_nil in Hall.
  destruct Hall as (_&_&_&_&_&_&Hedges&_). pose proof (concat_imap_nil _ _ Hedges i e He) as Hp.
  unfold edge_problems in Hp. rewrite !app_nil in Hp. destruct Hp as (Hf&Ht&_).
  destruct (has_node w (we_from e)) eqn:Hfrom; [|done]. destruct (has_node w (we_to e)) eqn:Hto; [|done].
  destruct (validated_node_at _ Hfrom) as [from Ef], (validated_node_at _ Hto) as [to Et].
  unfold ends_of. rewrite Ef, Et. by eexists.
Qed.
End Validated.

(** C21: what a compiled readable document is.  Its layout is the readable one
    for some feedback; the contract its author claims holds; its routes are those
    of the routing of its edges one by one, and no check of the validation
    reports a problem with them; each edge has ends and a route, and the route of
    an automatic edge is feasible next to the edges routed before it; everything
    that is drawn lies within the canvas, by its margins; and the legend is drawn
    as measured, or hidden. *)
Theorem compiled_document brandMarkFor (source : workflow Q) meta qualityProfile c : readable source = true →
  (∀ e, e ∈ wf_edges (canonicalReadableWorkflow source) → authored_known e) →
  compileWorkflow brandMarkFor source meta qualityProfile = Compiled c →
  let w := canonicalReadableWorkflow source in
  let meta := with_profile qualityProfile meta in
  (∃ feedback, cp_layout c = createReadableLayout w feedback) ∧
  semanticContractDiagnostics w = [] ∧ route_workflow w meta (cp_layout c) = inr (cp_routes c) ∧
  validateWorkflow w meta (cp_layout c) brandMarkFor (cp_routes c) = [] ∧
  (∀ i e, wf_edges w !! i = Some e → ∃ before ps after from to,
     rs_placed (cp_routes c) = before ++ {| pr_index := i; pr_edge := e; pr_points := ps |} :: after ∧
     ends_of w (cp_layout c) e = Some (from, to) ∧
     (automatic_route e = true → ∃ sides, readableCandidateIsFeasible w meta (cp_layout c) before e ps from to sides = true)) ∧
  (∀ item p, item ∈ content w meta (cp_layout c) (cp_routes c) → p ∈ item.2 →
     0 <= p.1 <= (cp_viewBox c).1 - 16 ∧ 0 <= p.2 <= (cp_viewBox c).2 - 18) ∧
  measured_legend w meta (cp_layout c) (cp_routes c) (cp_viewBox c).1 = cp_legend c ∧ ∀ p, cp_legend c ≠ Refused p.
Proof.
  intros Hv Hsides Hc. destruct (rounds_compiled _ _ _ _ _ _ _ Hc) as [feedback Hf].
  pose proof (internal_compiled _ _ _ _ _ _ Hv Hf) as (Hl&Hsem&_&Hgeo&Hval&Hcanvas&Hlegend&Hdrawn). cbv zeta in *.
  set (w := canonicalReadableWorkflow source) in *. set (meta' := with_profile qualityProfile meta) in *.
  assert (Hw : readable w = true) by (by rewrite <-Hv; apply canonical_readable).
  pose proof (validated_geometry _ _ _ _ Hw Hgeo) as Hroute.
  split_and!; [by exists feedback|done..| |by apply (canvas_holds _ _ _ _ _ _ Hw Hcanvas)|done|done].
  intros i e He. pose proof (validated_ends _ _ _ _ _ Hval i e He) as Hends.
  destruct (routed_workflow _ _ _ _ Hw Hsides Hroute) as [_ Hsound _ Hall].
  destruct (Hall i e) as (r&Hr&<-); [by eapply lookup_lt_Some|done..|].
  apply list_elem_of_split in Hr as (before&after&Heq). destruct (Hsound _ _ _ Heq) as [He' _ Haut].
  rewrite He in He'. injection He' as ->. destruct Hends as [[from to] Hends]. destruct r as [i e ps]. cbn in *.
  exists before, ps, after, from, to. split_and!; [done..|]. intros Ha.
  destruct (Haut Ha) as (f&t&sides&Hends'&_&_&_&Hfeas&_). rewrite Hends in Hends'. injection Hends' as <- <-. by exists sides.
Qed.

(** ** The receipt *)
Section Receipt.
Context (w : workflow Q) (meta : wmeta Q) (layout : wlayout Q) (st : route_state Q).
#[local] Abbreviation drawing := (content w meta layout st).

Lemma node_drawn n : n ∈ measuredNodes w layout → (cat ["node "; node_id n], rect_corners (node_rect n)) ∈ drawing.
Proof. intros Hn. unfold content. rewrite !elem_of_app. left. apply list_elem_of_fmap. eauto. Qed.
Lemma edge_drawn i e item : wf_edges w !! i = Some e → item ∈ edge_content w st i e → item ∈ drawing.
Proof. intros He Hi. unfold content. rewrite !elem_of_app. right. left. apply elem_of_concat_imap. eauto. Qed.
Lemma route_drawn i e ps : wf_edges w !! i = Some e → points_at st i = Some ps → (edge_text i e, ps) ∈ drawing.
Proof. intros He Hp. apply (edge_drawn i e); [done|]. unfold edge_content. rewrite Hp. by left. Qed.
Lemma label_drawn i e l : wf_edges w !! i = Some e → receipt_label_of w st i e = Some l →
  ∃ item p q, item ∈ drawing ∧ p ∈ item.2 ∧ q ∈ item.2 ∧ p.1 == (rl_at l).1 - rl_width l / 2 ∧ p.2 == (rl_at l).2 - 10 ∧
    q.1 == (rl_at l).1 + rl_width l / 2 ∧ q.2 == (rl_at l).2 + 4.
Proof.
  intros He. unfold receipt_label_of. destruct (negb (nonempty (we_label e))) eqn:Hlab; [done|].
  destruct (points_at st i) as [ps|] eqn:Hps; [|done]. cbn [mbind option_bind].
  destruct (workflowEdgeLabelPoint w e ps) as [p|] eqn:Hp; [|done]. intros [= <-]. cbn [rl_at rl_width].
  exists (cat [edge_text i e; " label mask"], rect_corners (label_mask e p)).
  exists (x_ (label_mask e p), y_ (label_mask e p)).
  exists (x_ (label_mask e p) + width (label_mask e p), y_ (label_mask e p) + height (label_mask e p))%js.
  split_and!.
  - apply (edge_drawn i e); [done|]. unfold edge_content, labelRectFor. rewrite Hps, Hlab. cbn [mbind option_bind].
    rewrite Hp. right. by left.
  - by left.
  - right. by left.
  - reflexivity.
  - reflexivity.
  - cbn. q_ops. field.
  - cbn. q_ops. change (inject_Z 10) with 10. change (inject_Z 14) with 14. lra.
Qed.
End Receipt.

(** C25: the receipt of a compiled readable document describes a drawing that fits
    its view box: it lists every edge of the document in its order, and every
    node, every point of a route and every label lies in the view box, 16 pixels
    from its right and 18 from its lower border. *)
Theorem receipt_inside_canvas brandMarkFor (source : workflow Q) meta qualityProfile c : readable source = true →
  compileWorkflow brandMarkFor source meta qualityProfile = Compiled c →
  let w := canonicalReadableWorkflow source in
  let r := receipt_of w c in
  let inside (x y : Q) := 0 <= x <= (re_viewBox r).1 - 16 ∧ 0 <= y <= (re_viewBox r).2 - 18 in
  map (λ g, (rg_id g, rg_from g, rg_to g)) (re_edges r) = map (λ e, (we_id e, we_from e, we_to e)) (wf_edges w) ∧
  (∀ n, n ∈ re_nodes r → inside (x_ (node_rect n)) (y_ (node_rect n)) ∧
     inside (x_ (node_rect n) + width (node_rect n)) (y_ (node_rect n) + height (node_rect n))) ∧
  (∀ g p, g ∈ re_edges r → p ∈ rg_points g → inside p.1 p.2) ∧
  (∀ l, l ∈ re_labels r → inside ((rl_at l).1 - rl_width l / 2) ((rl_at l).2 - 10) ∧
     inside ((rl_at l).1 + rl_width l / 2) ((rl_at l).2 + 4)).
Proof.
  intros Hv Hc. destruct (rounds_compiled _ _ _ _ _ _ _ Hc) as [feedback Hf].
  pose proof (internal_compiled _ _ _ _ _ _ Hv Hf) as (_&_&_&_&_&Hcanvas&_). cbv zeta in *.
  set (w := canonicalReadableWorkflow source) in *. set (meta' := with_profile qualityProfile meta) in *.
  assert (Hw : readable w = true) by (by rewrite <-Hv; apply canonical_readable).
  pose proof (canvas_holds _ _ _ _ _ _ Hw Hcanvas) as Hin. unfold receipt_of. cbn [re_edges re_nodes re_labels re_viewBox].
  split_and!.
  - apply list_eq. intros i. change (map ?f ?l) with (f <$> l). rewrite !list_lookup_fmap, list_lookup_imap. by destruct (wf_edges w !! i).
  - intros n Hn. pose proof (node_drawn w meta' _ (cp_routes c) n Hn) as Hd.
    split; apply (Hin _ (_, _) Hd); [by left|right; by left].
  - intros g p (i&e&He&->)%elem_of_imap. cbn [rg_points]. destruct (points_at (cp_routes c) i) as [ps|] eqn:Hps; cbn [default id].
    + intros Hp. by apply (Hin _ p (route_drawn w meta' _ _ i e ps He Hps)).
    + intros []%not_elem_of_nil.
  - intros l (o&Ho&E)%list_elem_of_omap. cbn [id] in E. subst o. apply elem_of_imap in Ho as (i&e&He&Hl).
    destruct (label_drawn w meta' (cp_layout c) _ i e l He (eq_sym Hl)) as (item&p&q&Hi&Hp&Hq&E1&E2&E3&E4).
    pose proof (Hin item p Hi Hp). pose proof (Hin item q Hi Hq). rewrite <-E1, <-E2, <-E3, <-E4. done.
Qed.

(** ** Examples *)
Definition short_compiled : bool :=
  match compileWorkflow (λ _, false) short_workflow short_meta None with Compiled _ => true | _ => false end.
Lemma short_compiles : ∃ c, compileWorkflow (λ _, false) short_workflow short_meta None = Compiled c.
Proof.
  assert (H : short_compiled = true) by (vm_compute; reflexivity). unfold short_compiled in H.
  destruct (compileWorkflow _ _ _ _) as [c|r|request|t]; [by exists c|done..].
Qed.
Lemma short_canonical_edges e : e ∈ wf_edges (canonicalReadableWorkflow short_workflow) → authored_known e.
Proof.
  unfold canonicalReadableWorkflow. cbn [schema_version short_workflow Z.eqb Pos.eqb negb wf_edges]. unfold sorted_by.
  rewrite merge_sort_Permutation. intros He. by apply short_edges.
Qed.

Lemma compiled_document_witness : ∃ c, compileWorkflow (λ _, false) short_workflow short_meta None = Compiled c ∧
  route_workflow (canonicalReadableWorkflow short_workflow) (with_profile None short_meta) (cp_layout c) = inr (cp_routes c).
Proof.
  destruct short_compiles as [c Hc]. exists c. split; [exact Hc|].
  exact (proj1 (proj2 (proj2 (compiled_document _ short_workflow short_meta None c eq_refl short_canonical_edges Hc)))).
Defined.

Lemma canvas_holds_content_witness : ∃ c, compileWorkflow (λ _, false) short_workflow short_meta None = Compiled c ∧
  cp_viewBox c = cp_required c.
Proof.
  destruct short_compiles as [c Hc]. destruct (rounds_compiled _ _ _ _ _ _ _ Hc) as [feedback Hf].
  pose proof (internal_compiled _ short_workflow short_meta None feedback c eq_refl Hf) as (_&_&_&_&_&Hcanvas&_). exists c. split; [exact Hc|].
  assert (Hw : readable (canonicalReadableWorkflow short_workflow) = true) by reflexivity.
  exact (proj1 (proj2 (canvas_holds_content _ _ _ _ (cp_viewBox c) (cp_required c) Hw Hcanvas)) eq_refl).
Defined.

(** The same document in the fixed layout. *)
Definition short_legacy : workflow Q :=
  {| schema_version := 1; wf_lanes := wf_lanes short_workflow; wf_nodes := wf_nodes short_workflow;
     wf_edges := wf_edges short_workflow; wf_phases := None; wf_groups := None; wf_mainPath := None; semanticChecks := None |}.
Lemma fixed_layout_compiles_once_witness : readable short_legacy = false ∧
  compileWorkflow (λ _, false) short_legacy short_meta None =
    compileWorkflowInternal (λ _, false) short_legacy short_meta None no_feedback.
Proof.
  assert (Hw : readable short_legacy = false) by reflexivity. split; [exact Hw|].
  pose proof (fixed_layout_compiles_once (λ _, false) short_legacy short_meta None Hw) as [H _]. exact H.
Defined.

Lemma receipt_inside_canvas_witness : ∃ c, compileWorkflow (λ _, false) short_workflow short_meta None = Compiled c ∧
  map (λ g, (rg_id g, rg_from g, rg_to g)) (re_edges (receipt_of (canonicalReadableWorkflow short_workflow) c)) =
  map (λ e, (we_id e, we_from e, we_to e)) (wf_edges (canonicalReadableWorkflow short_workflow)).
Proof.
  destruct short_compiles as [c Hc]. exists c. split; [exact Hc|].
  exact (proj1 (receipt_inside_canvas _ short_workflow short_meta None c eq_refl Hc)).
Defined.
