(* ===== verification/Migration.v ===== *)
(** * The migration of a workflow to the readable layout
      ([src/.agents/skills/archify/migrations/workflow-v2.mjs],
       [src/.agents/skills/archify/renderers/workflow/workflow-migration-geometry.mjs])

    A document of the fixed layout becomes one of the readable layout: the columns
    of both are found by compiling projections of the document, the horizontal
    coordinates its author pinned are mapped from the old columns to the new ones,
    and the result is compiled, with a larger canvas where it needs one.

    The documents conform to the schema, before and after. *)

From Stdlib Require Import QArith Qround Lqa.
From stdpp Require Import sorting pretty gmap.
From S2P Require Import Prelude Num JsValue Geometry Routes Analyses Ports Checks TextFit Legend Workflow SemanticContract ReadableLayout LaneGeometry WorkflowCanvas RouteCandidates RouteSearch RouteSpec WorkflowChecks WorkflowPins WorkflowCompile CompileSpec.
#[local] Open Scope Z_scope.

(** [x.toFixed(6)] in millionths: the integer nearest to [1000000 * x], the one
    further from zero of two. *)
Class JsMicro (N : Type) := { nmicro : N → Z }.
#[global] Hint Mode JsMicro ! : typeclass_instances.
#[export] Instance Q_micro : JsMicro Q := {|
  nmicro x := if Qle_bool 0 x then Qfloor (x * inject_Z 1000000 + (1 # 2)) else - Qfloor (- x * inject_Z 1000000 + (1 # 2))
|}.

(** A changed coordinate. *)
Record coordinate_change (N : Type) := { cc_path : string; cc_from : N; cc_to : N }.
Arguments cc_path {N} _.
Arguments cc_from {N} _.
Arguments cc_to {N} _.

Section Geometry.
Context {N : Type} `{!JsNum N, !JsMath N, !JsMicro N}.
#[local] Open Scope js_scope.
#[local] Abbreviation point := (point N) (only parsing).
Implicit Types (w : workflow N) (meta : wmeta N) (e : wedge N).

(** ** Projections of a document *)
Definition with_version (version : Z) w : workflow N :=
  {| schema_version := version; wf_lanes := wf_lanes w; wf_nodes := wf_nodes w; wf_edges := wf_edges w;
     wf_phases := wf_phases w; wf_groups := wf_groups w; wf_mainPath := wf_mainPath w; semanticChecks := semanticChecks w |}.
Definition with_edges (edges : list (wedge N)) w : workflow N :=
  {| schema_version := schema_version w; wf_lanes := wf_lanes w; wf_nodes := wf_nodes w; wf_edges := edges;
     wf_phases := wf_phases w; wf_groups := wf_groups w; wf_mainPath := wf_mainPath w; semanticChecks := semanticChecks w |}.
Definition with_mainPath (path : option (list string)) w : workflow N :=
  {| schema_version := schema_version w; wf_lanes := wf_lanes w; wf_nodes := wf_nodes w; wf_edges := wf_edges w;
     wf_phases := wf_phases w; wf_groups := wf_groups w; wf_mainPath := path; semanticChecks := semanticChecks w |}.
Definition with_viewBox (viewBox : option (N * N)) meta : wmeta N :=
  {| mt_legend := mt_legend meta; mt_viewBox := viewBox; mt_qualityProfile := mt_qualityProfile meta |}.

Definition intrinsicWorkflow w meta : workflow N * wmeta N := (with_version 2 w, with_viewBox None meta).

Definition has_routed_geometry e : bool :=
  bool_decide (is_Some (we_via e)) ||
  nonempty (we_route e) && negb (bool_decide (we_route e = Some "auto") || bool_decide (we_route e = Some "straight")) ||
  bool_decide (is_Some (we_channelX e)) || bool_decide (is_Some (we_channelY e)).
Definition planned_edge e : option (wedge N) :=
  if has_routed_geometry e then None
  else Some {| we_id := we_id e; we_from := we_from e; we_to := we_to e;
               we_label := if bool_decide (is_Some (we_labelAt e)) then None else we_label e;
               we_variant := we_variant e; we_role := we_role e; we_fromSide := None; we_toSide := None;
               we_route := if bool_decide (we_route e = Some "straight") then Some "straight" else None;
               we_via := None; we_labelAt := None; we_labelDx := None; we_labelDy := None; we_labelSegment := None;
               we_channelX := None; we_channelY := None; we_bias := None; we_width := we_width e |}.
Definition planned_pair (edges : list (wedge N)) (from to : string) : bool :=
  existsb (λ e, bool_decide (we_from e = from) && bool_decide (we_to e = to)) edges.
Fixpoint path_is_planned (edges : list (wedge N)) (path : list string) : bool :=
  match path with
  | from :: (to :: _) as path => planned_pair edges from to && path_is_planned edges path
  | _ => true
  end.
Definition planningWorkflow w meta : workflow N * wmeta N :=
  let '(planned, meta) := intrinsicWorkflow w meta in
  let edges := omap planned_edge (wf_edges planned) in
  let planned := with_edges edges planned in
  (match wf_mainPath planned with
   | Some path => if path_is_planned edges path then planned else with_mainPath None planned
   | None => planned
   end, meta).

(** ** The mapping of columns *)
(** [Number(value.toFixed(6))], for numbers of fewer than [2 ^ 53] millionths *)
Definition mappedNumber (value : N) : N := nlit (nmicro value) 1000000.

Definition strictly_increasing (columns : list N) : bool :=
  forallb (λ ab : N * N, ab.1 <? ab.2) (zip columns (drop 1 columns)).
Definition rank_segment (oldColumns : list N) (x : N) : nat :=
  if x <=? column_at oldColumns 0 then 0%nat
  else match list_find (λ c, (x <=? c) = true) (drop 1 oldColumns) with
       | Some (index, _) => index
       | None => (length oldColumns - 2)%nat
       end.
Definition rank_position (oldColumns newColumns : list N) (segment : nat) (x : N) : N :=
  let column columns (index : nat) := column_at columns (Z.of_nat index) in
  let oldSpan := column oldColumns (S segment) - column oldColumns segment in
  let newSpan := column newColumns (S segment) - column newColumns segment in
  let ratio := (x - column oldColumns segment) / oldSpan in
  column newColumns segment + ratio * newSpan.
(** (The mapper is called on finite numbers.) *)
Definition createHorizontalRankMapper (oldColumns newColumns : list N) : string + (N → N) :=
  if negb (length oldColumns =? length newColumns)%nat || (length oldColumns <? 2)%nat ||
     negb (forallb nfin oldColumns) || negb (forallb nfin newColumns)
  then inl "Horizontal rank mapping requires matching finite column arrays."
  else if negb (strictly_increasing oldColumns) || negb (strictly_increasing newColumns)
  then inl "Horizontal rank mapping requires strictly increasing columns."
  else inr (λ x, mappedNumber (rank_position oldColumns newColumns (rank_segment oldColumns x) x)).

(** ** The mapping of pinned coordinates *)
Section Mapping.
Context (mapX : N → N).

(** [record(path, owner, property)]: the new value and the change, if there is one. *)
Definition record_change (path : string) (from : N) : N * list (coordinate_change N) :=
  let to := mapX from in
  (to, if same_number to from then [] else [{| cc_path := path; cc_from := from; cc_to := to |}]).
Definition map_point (path : string) (p : point) : point * list (coordinate_change N) :=
  if nfin p.1 then let '(x, changes) := record_change path p.1 in ((x, p.2), changes) else (p, []).
Definition map_optional {A} (f : A → A * list (coordinate_change N)) (a : option A) : option A * list (coordinate_change N) :=
  match a with Some a => let '(a, changes) := f a in (Some a, changes) | None => (None, []) end.
Definition map_via (path : string) (via : list point) : list point * list (coordinate_change N) :=
  let mapped := imap (λ i p, map_point (cat [path; "/via/"; pretty (Z.of_nat i); "/0"]) p) via in
  (map fst mapped, mapped ≫= snd).
Definition map_channel (path : string) (x : N) : N * list (coordinate_change N) :=
  if nfin x then record_change (cat [path; "/channelX"]) x else (x, []).

Definition with_pins e (via : option (list point)) (labelAt : option point) (channelX : option N) : wedge N :=
  {| we_id := we_id e; we_from := we_from e; we_to := we_to e; we_label := we_label e; we_variant := we_variant e;
     we_role := we_role e; we_fromSide := we_fromSide e; we_toSide := we_toSide e; we_route := we_route e;
     we_via := via; we_labelAt := labelAt; we_labelDx := we_labelDx e; we_labelDy := we_labelDy e;
     we_labelSegment := we_labelSegment e; we_channelX := channelX; we_channelY := we_channelY e; we_bias := we_bias e;
     we_width := we_width e |}.
Definition map_edge (index : nat) e : wedge N * list (coordinate_change N) :=
  let path := cat ["/edges/"; pretty (Z.of_nat index)] in
  let '(via, c1) := map_optional (map_via path) (we_via e) in
  let '(labelAt, c2) := map_optional (map_point (cat [path; "/labelAt/0"])) (we_labelAt e) in
  let '(channelX, c3) := map_optional (map_channel path) (we_channelX e) in
  (with_pins e via labelAt channelX, c1 ++ c2 ++ c3).
Definition mapExplicitCoordinates w : workflow N * list (coordinate_change N) :=
  let mapped := imap map_edge (wf_edges w) in
  (with_edges (map fst mapped) w, mapped ≫= snd).
End Mapping.

Definition createMappedWorkflowCandidate w (oldColumns newColumns : list N) :
    string + (workflow N * list (coordinate_change N)) :=
  match createHorizontalRankMapper oldColumns newColumns with
  | inl reason => inl reason
  | inr mapX => inr (mapExplicitCoordinates mapX (with_version 2 w))
  end.
End Geometry.

(** ** The migration *)
Inductive migration_problem (N : Type) :=
  | ProbeRefused (r : refusal N)
  | RankMapping (reason : string)
  | SourceVersion (actual : Z).
Arguments ProbeRefused {N} _.
Arguments RankMapping {N} _.
Arguments SourceVersion {N} _.

Record migration (N : Type) := {
  mg_ok : bool; mg_document : option (workflow N * wmeta N); mg_fromSchemaVersion : Z;
  mg_preExistingDiagnostics : option (refusal N); mg_migrationDiagnostics : option (migration_problem N);
  mg_newSchemaDiagnostics : option (refusal N); mg_changedCoordinates : list (coordinate_change N);
  mg_oldRequiredViewBox : option (N * N); mg_newRequiredViewBox : option (N * N)
}.
Arguments mg_ok {N} _.
Arguments mg_document {N} _.
Arguments mg_fromSchemaVersion {N} _.
Arguments mg_preExistingDiagnostics {N} _.
Arguments mg_migrationDiagnostics {N} _.
Arguments mg_newSchemaDiagnostics {N} _.
Arguments mg_changedCoordinates {N} _.
Arguments mg_oldRequiredViewBox {N} _.
Arguments mg_newRequiredViewBox {N} _.

(** The migration returns, or the compiler throws. *)
Inductive migration_result (N : Type) :=
  | Migrated (m : migration N)
  | MigrationThrows (f : route_failure N).
Arguments Migrated {N} _.
Arguments MigrationThrows {N} _.

Section Migration.
Context {N : Type} `{!JsNum N, !JsMath N, !JsMicro N}.
Context (brandMarkFor : wnode N → bool).
#[local] Open Scope js_scope.
Implicit Types (w : workflow N) (meta : wmeta N).
(** What the compiler returns: a compiled document, or a refusal. *)
#[local] Abbreviation answer := (compiled N + refusal N)%type.

Definition compile_then w meta (qualityProfile : string) (continue_ : answer → migration_result N) : migration_result N :=
  match compileWorkflow brandMarkFor w meta (Some qualityProfile) with
  | Compiled c => continue_ (inl c)
  | NotCompiled r => continue_ (inr r)
  | AsksForRoom request => MigrationThrows (WorkflowLayoutFeedback request)
  | Throws f => MigrationThrows f
  end.
Definition refused (a : answer) : option (refusal N) := match a with inl _ => None | inr r => Some r end.

Definition requiredViewBoxFrom (a : answer) : option (N * N) :=
  match a with
  | inl c => Some (cp_required c)
  | inr (CanvasRefusal _ required) => Some required
  | inr _ => None
  end.
Definition expandableViewBox (a : answer) : option (N * N) :=
  match a with
  | inr (CanvasRefusal code required) => if bool_decide (code = "workflow/viewbox-capacity") then Some required else None
  | _ => None
  end.
(** [a || b] of values that are objects or [null] *)
Definition first_of {A} (a b : option A) : option A := match a with Some _ => a | None => b end.

Definition probe_node w : wnode N :=
  {| wn_id := "migration_probe"; wn_lane := match wf_lanes w with l :: _ => ln_id l | [] => "" end; wn_col := 0;
     wn_type := "backend"; wn_label := "Probe"; wn_sublabel := None; wn_tag := None; wn_width := None; wn_height := None;
     wn_yOffset := None |}.
Definition legacyLayoutProbe w : workflow N * wmeta N :=
  ({| schema_version := 1; wf_lanes := wf_lanes w; wf_nodes := [probe_node w]; wf_edges := []; wf_phases := None;
      wf_groups := None; wf_mainPath := None; semanticChecks := None |},
   {| mt_legend := Some {| lg_mode := Some "hidden"; lg_entries := [] |}; mt_viewBox := None; mt_qualityProfile := None |}).
Definition legacyRequirementProbe w meta : workflow N * wmeta N := (w, with_viewBox None meta).

(** The larger canvas, if the document states one that is too small. *)
Definition expanded_viewBox meta (a : answer) : option (N * N) :=
  current ← mt_viewBox meta;
  required ← expandableViewBox a;
  let expanded := (nmax current.1 required.1, nmax current.2 required.2) in
  if (expanded.1 >? current.1) || (expanded.2 >? current.2) then Some expanded else None.

Definition failed_migration (version : Z) (preExisting : option (refusal N)) (problem : option (migration_problem N))
    (newSchema : option (refusal N)) (changes : list (coordinate_change N)) (old new : option (N * N)) : migration N :=
  {| mg_ok := false; mg_document := None; mg_fromSchemaVersion := version; mg_preExistingDiagnostics := preExisting;
     mg_migrationDiagnostics := problem; mg_newSchemaDiagnostics := newSchema; mg_changedCoordinates := changes;
     mg_oldRequiredViewBox := old; mg_newRequiredViewBox := new |}.
Definition migrated_to (version : Z) w meta (preExisting : option (refusal N)) (changes : list (coordinate_change N))
    (old new : option (N * N)) : migration N :=
  {| mg_ok := true; mg_document := Some (w, meta); mg_fromSchemaVersion := version; mg_preExistingDiagnostics := preExisting;
     mg_migrationDiagnostics := None; mg_newSchemaDiagnostics := None; mg_changedCoordinates := changes;
     mg_oldRequiredViewBox := old; mg_newRequiredViewBox := new |}.

(** The end: the last answer of the compiler on the mapped document. *)
Definition finish_migration w meta (preExisting : option (refusal N)) (changes : list (coordinate_change N))
    (old planned : option (N * N)) (a : answer) : migration_result N :=
  let new := first_of (requiredViewBoxFrom a) planned in
  match a with
  | inr r => Migrated (failed_migration 1 preExisting None (Some r) changes old new)
  | inl _ => Migrated (migrated_to 1 w meta preExisting changes old new)
  end.

(** From the columns of both layouts on. *)
Definition map_and_compile w meta (qualityProfile : string) (preExisting : option (refusal N)) (old : option (N * N))
    (oldColumns : list N) (planned : compiled N) : migration_result N :=
  let plannedBox := Some (cp_required planned) in
  match createMappedWorkflowCandidate w oldColumns (colXs (cp_layout planned)) with
  | inl reason => Migrated (failed_migration 1 preExisting (Some (RankMapping reason)) None [] old plannedBox)
  | inr (migrated, changes) =>
      compile_then migrated meta qualityProfile (λ a,
        match expanded_viewBox meta a with
        | None => finish_migration migrated meta preExisting changes old plannedBox a
        | Some expanded =>
            let meta := with_viewBox (Some expanded) meta in
            compile_then migrated meta qualityProfile (finish_migration migrated meta preExisting changes old plannedBox)
        end)
  end.

(** The columns of the readable layout: of the document, or of its projection. *)
Definition plan_columns w meta (qualityProfile : string) (continue_ : answer → migration_result N) : migration_result N :=
  let '(intrinsic, intrinsicMeta) := intrinsicWorkflow w meta in
  compile_then intrinsic intrinsicMeta qualityProfile (λ a,
    match a with
    | inl _ => continue_ a
    | inr _ => let '(planning, planningMeta) := planningWorkflow w meta in
               compile_then planning planningMeta qualityProfile continue_
    end).

Definition migrate_legacy w meta (qualityProfile : string) : migration_result N :=
  compile_then w meta qualityProfile (λ legacy,
    let '(probeDocument, probeMeta) := legacyLayoutProbe w in
    compile_then probeDocument probeMeta qualityProfile (λ legacyProbe,
      match legacyProbe with
      | inr r => Migrated (failed_migration 1 (refused legacy) (Some (ProbeRefused r)) None [] None None)
      | inl probe =>
          let '(requirementDocument, requirementMeta) := legacyRequirementProbe w meta in
          compile_then requirementDocument requirementMeta qualityProfile (λ legacyRequirement,
            let old := first_of (requiredViewBoxFrom legacyRequirement)
                         (first_of (requiredViewBoxFrom legacyProbe) (requiredViewBoxFrom legacy)) in
            plan_columns w meta qualityProfile (λ planned,
              match planned with
              | inr r => Migrated (failed_migration 1 (refused legacy) None (Some r) [] old (requiredViewBoxFrom planned))
              | inl p => map_and_compile w meta qualityProfile (refused legacy) old (colXs (cp_layout probe)) p
              end))
      end)).

Definition quality_profile meta : string :=
  if nonempty (mt_qualityProfile meta) then text_or_empty (mt_qualityProfile meta) else "standard".

Definition migrateWorkflowDocument w meta : migration_result N :=
  let qualityProfile := quality_profile meta in
  if (schema_version w =? 2)%Z then
    compile_then w meta qualityProfile (λ a,
      let required := requiredViewBoxFrom a in
      match a with
      | inr r => Migrated (failed_migration 2 (Some r) None None [] required required)
      | inl _ => Migrated (migrated_to 2 w meta None [] required required)
      end)
  else if negb (schema_version w =? 1)%Z then
    Migrated (failed_migration (schema_version w) None (Some (SourceVersion (schema_version w))) None [] None None)
  else migrate_legacy w meta qualityProfile.
End Migration.
