(* ===== verification/MigrationSpec.v ===== *)
(** * What the migration of a workflow guarantees

    The mapping of columns takes the old columns to the new ones and keeps the
    order of coordinates; a document that is migrated compiles, differs from its
    source only in what the migration may change, and is left alone when it is
    migrated again. *)

From Stdlib Require Import QArith Qround Lqa.
From stdpp Require Import sorting gmap.
From S2P Require Import Prelude Num JsValue Geometry Routes Analyses Ports Checks TextFit Legend Workflow SemanticContract ReadableLayout LaneGeometry WorkflowCanvas RouteCandidates RouteSearch RouteSpec WorkflowChecks WorkflowPins WorkflowCompile CompileSpec Migration.
#[local] Open Scope Q_scope.

(** ** Rounding to millionths *)
Lemma nmicro_mono (x y : Q) : x <= y → (nmicro x ≤ nmicro y)%Z.
Proof.
  intros Hxy. cbn [nmicro Q_micro]. change (inject_Z 1000000) with 1000000.
  destruct (Qle_bool 0 x) eqn:Hx, (Qle_bool 0 y) eqn:Hy;
    repeat match goal with
    | H : Qle_bool _ _ = true |- _ => apply Qle_bool_iff in H
    | H : Qle_bool 0 ?z = false |- _ => assert (z < 0) by (apply Qnot_le_lt; intros Hc; apply Qle_bool_iff in Hc; congruence); clear H
    end.
  - apply Qfloor_resp_le. lra.
  - exfalso. lra.
  - assert (0 <= Qfloor (- x * 1000000 + (1 # 2)))%Z by (change 0%Z with (Qfloor 0); apply Qfloor_resp_le; lra).
    assert (0 <= Qfloor (y * 1000000 + (1 # 2)))%Z by (change 0%Z with (Qfloor 0); apply Qfloor_resp_le; lra). lia.
  - assert (Qfloor (- y * 1000000 + (1 # 2)) <= Qfloor (- x * 1000000 + (1 # 2)))%Z by (apply Qfloor_resp_le; lra). lia.
Qed.

Lemma mappedNumber_mono (x y : Q) : x <= y → mappedNumber x <= mappedNumber y.
Proof.
  intros H%nmicro_mono. unfold mappedNumber, nlit. q_ops. change (inject_Z 1000000) with 1000000.
  rewrite Zle_Qle in H. unfold Qdiv. change (/ 1000000) with (1 # 1000000). lra.
Qed.
#[export] Instance mappedNumber_proper : Proper (Qeq ==> Qeq) (mappedNumber : Q → Q).
Proof. intros x y E. apply Qle_antisym; apply mappedNumber_mono; rewrite E; apply Qle_refl. Qed.

(** ** Positions between columns *)
Lemma increasing_step (l : list Q) i a b : strictly_increasing l = true → l !! i = Some a → l !! S i = Some b → a < b.
Proof.
  unfold strictly_increasing. intros H Ha Hb. apply Q_nlt.
  apply (forallb_all _ _ H (a, b)). apply list_elem_of_lookup. exists i. rewrite lookup_zip_with, Ha, lookup_drop. cbn. by rewrite Hb.
Qed.
Lemma increasing_le (l : list Q) i j a b : strictly_increasing l = true → (i ≤ j)%nat → l !! i = Some a → l !! j = Some b → a <= b.
Proof.
  intros H Hij Ha. revert b. induction Hij as [|j Hij IH]; intros b Hb; [simplify_eq; apply Qle_refl|].
  destruct (lookup_lt_is_Some_2 l j) as [c Hc]; [apply lookup_lt_Some in Hb; lia|].
  pose proof (increasing_step l j c b H Hc Hb). specialize (IH c Hc). lra.
Qed.

Lemma column_at_lookup (l : list Q) i a : l !! i = Some a → column_at l (Z.of_nat i) = a.
Proof. intros H. unfold column_at. by rewrite Nat2Z.id, H. Qed.

Section Columns.
#[local] Abbreviation column l i := (column_at l (Z.of_nat i)).

Lemma column_some (l : list Q) i : (i < length l)%nat → l !! i = Some (column l i).
Proof. intros [a Ha]%lookup_lt_is_Some_2. by rewrite Ha, (column_at_lookup _ _ _ Ha). Qed.
Lemma columns_lt (l : list Q) i : strictly_increasing l = true → (S i < length l)%nat → column l i < column l (S i).
Proof. intros H Hi. eapply (increasing_step l i); [done|apply column_some; lia|apply column_some; lia]. Qed.
Lemma columns_le (l : list Q) i j : strictly_increasing l = true → (i ≤ j)%nat → (j < length l)%nat → column l i <= column l j.
Proof. intros H Hij Hj. eapply (increasing_le l i j); [done|done|apply column_some; lia|apply column_some; lia]. Qed.
End Columns.

Section Mapper.
Context (old new : list Q).
Context (Hlength : length old = length new) (Htwo : (2 ≤ length old)%nat).
Context (Hold : strictly_increasing old = true) (Hnew : strictly_increasing new = true).
#[local] Abbreviation position := (rank_position old new).
#[local] Abbreviation column l i := (column_at l (Z.of_nat i)).

Lemma position_mono s x y : (S s < length old)%nat → x <= y → position s x <= position s y.
Proof using Hlength Htwo Hold Hnew.
  intros Hs Hxy. unfold rank_position. cbv zeta. q_ops.
  pose proof (columns_lt old s Hold Hs) as Ho. pose proof (columns_lt new s Hnew ltac:(lia)) as Hn.
  set (o := column old s) in *. set (o' := column old (S s)) in *. set (n := column new s) in *. set (n' := column new (S s)) in *.
  assert (Hinv : 0 <= / (o' - o)) by (apply Qinv_le_0_compat; lra).
  unfold Qdiv. assert (Hd : (x - o) * / (o' - o) <= (y - o) * / (o' - o)) by (apply Qmult_le_compat_r; lra).
  apply Qplus_le_r. apply Qmult_le_compat_r; [exact Hd|lra].
Qed.
Lemma position_left s : position s (column old s) == column new s.
Proof using Hlength Htwo Hold Hnew.
  unfold rank_position. cbv zeta. q_ops. unfold Qdiv. ring.
Qed.
Lemma position_right s : (S s < length old)%nat → position s (column old (S s)) == column new (S s).
Proof using Hlength Htwo Hold Hnew.
  intros Hs. pose proof (columns_lt old s Hold Hs). unfold rank_position. cbv zeta. q_ops. field. lra.
Qed.

(** The segment of a coordinate: between its columns, or the outermost. *)
Lemma segment_spec x : let s := rank_segment old x in (S s < length old)%nat ∧
  ((s = 0)%nat ∨ column old s < x) ∧ (x <= column old (S s) ∨ (s = length old - 2)%nat).
Proof using Hlength Htwo Hold Hnew.
  cbv zeta. unfold rank_segment. change 0%Z with (Z.of_nat 0). destruct (nle x (column old 0)) eqn:H0.
  { rewrite Q_nle in H0. split_and!; [lia|by left|]. left. pose proof (columns_lt old 0 Hold ltac:(lia)). lra. }
  rewrite Q_nle_false in H0. destruct (list_find _ (drop 1 old)) as [[s c]|] eqn:Hfind.
  - apply list_find_Some in Hfind as (Hs&Hc&Hbefore). rewrite lookup_drop in Hs. rewrite Q_nle in Hc.
    pose proof (lookup_lt_Some _ _ _ Hs). cbn in Hs, H. split_and!; [lia| |left; by rewrite (column_at_lookup _ _ _ Hs)].
    destruct s as [|s]; [by left|right]. apply Qnot_le_lt. intros Hle.
    apply (Hbefore s (column old (S s))); [|lia|by rewrite Q_nle].
    rewrite lookup_drop. cbn. apply column_some. lia.
  - split_and!; [lia| |by right]. right. apply Qnot_le_lt. intros Hle. apply list_find_None in Hfind.
    rewrite Forall_forall in Hfind. destruct (decide (length old = 2)%nat) as [E|].
    + rewrite E in Hle. cbn [Nat.sub] in Hle. lra.
    + apply (Hfind (column old (length old - 2))); [|by rewrite Q_nle].
      apply list_elem_of_lookup. exists (length old - 3)%nat. rewrite lookup_drop.
      replace (1 + (length old - 3))%nat with (length old - 2)%nat by lia. apply column_some. lia.
Qed.

Lemma segment_order x y : x <= y → (rank_segment old x ≤ rank_segment old y)%nat.
Proof using Hlength Htwo Hold Hnew.
  intros Hxy. destruct (segment_spec x) as (Hsx&Hx&_), (segment_spec y) as (Hsy&_&Hy).
  destruct (decide (rank_segment old x ≤ rank_segment old y)%nat) as [|Hgt]; [done|exfalso].
  destruct Hx as [E|Hx]; [lia|]. destruct Hy as [Hy|E]; [|lia].
  pose proof (columns_le old (S (rank_segment old y)) (rank_segment old x) Hold ltac:(lia) ltac:(lia)). lra.
Qed.

Lemma mapped_order x y : x <= y → position (rank_segment old x) x <= position (rank_segment old y) y.
Proof using Hlength Htwo Hold Hnew.
  intros Hxy. pose proof (segment_order x y Hxy) as Hle. destruct (segment_spec x) as (Hsx&_&Hx), (segment_spec y) as (Hsy&Hy&_).
  set (s := rank_segment old x) in *. set (t := rank_segment old y) in *.
  destruct (decide (s = t)) as [->|Hne]; [by apply position_mono|].
  destruct Hx as [Hx|E]; [|lia]. destruct Hy as [E|Hy]; [lia|].
  apply Qle_trans with (column new (S s)).
  - rewrite <-position_right by done. by apply position_mono.
  - apply Qle_trans with (column new t); [apply columns_le; [done|lia|lia]|].
    rewrite <-position_left. apply position_mono; [done|]. by apply Qlt_le_weak.
Qed.

Lemma mapped_column i : (i < length old)%nat → position (rank_segment old (column old i)) (column old i) == column new i.
Proof using Hlength Htwo Hold Hnew.
  intros Hi. destruct (segment_spec (column old i)) as (Hs&Hlow&Hhigh). set (s := rank_segment old (column old i)) in *. clearbody s.
  assert (Hle : (s ≤ i)%nat).
  { destruct Hlow as [->|Hlow]; [lia|]. destruct (decide (s ≤ i)%nat); [done|].
    pose proof (columns_le old i s Hold ltac:(lia) ltac:(lia)). lra. }
  assert (Hge : (i ≤ S s)%nat).
  { destruct Hhigh as [Hhigh|E]; [|lia]. destruct (decide (i ≤ S s)%nat); [done|].
    pose proof (columns_lt old (S s) Hold ltac:(lia)). pose proof (columns_le old (S (S s)) i Hold ltac:(lia) ltac:(lia)). lra. }
  destruct (decide (i = s)) as [->|]; [apply position_left|]. replace i with (S s) by lia. by apply position_right.
Qed.
End Mapper.

(** C31: the mapper of columns.  It exists exactly when the columns of both layouts
    are at least two, as many of one as of the other, and strictly increasing; it
    takes every old column to the new column in its place, up to the rounding to
    millionths, and keeps the order of coordinates, also left and right of all
    columns. *)
Theorem rank_mapper_exact (old new : list Q) :
  match createHorizontalRankMapper old new with
  | inl _ => length old ≠ length new ∨ (length old < 2)%nat ∨ strictly_increasing old = false ∨ strictly_increasing new = false
  | inr mapX =>
      length old = length new ∧ (2 ≤ length old)%nat ∧ strictly_increasing old = true ∧ strictly_increasing new = true ∧
      (∀ i o n, old !! i = Some o → new !! i = Some n → mapX o == mappedNumber n) ∧
      ∀ x y, x <= y → mapX x <= mapX y
  end.
Proof.
  unfold createHorizontalRankMapper.
  assert (Hfin : ∀ l : list Q, forallb nfin l = true) by (intros l; by apply forallb_forall). rewrite !Hfin.
  destruct (Nat.eqb_spec (length old) (length new)) as [Hlen|]; [|by left].
  destruct (Nat.ltb_spec (length old) 2); [by right; left|]. cbn [negb orb].
  destruct (strictly_increasing old) eqn:Hold; [|by right; right; left].
  destruct (strictly_increasing new) eqn:Hnew; [|by right; right; right]. cbn [negb orb]. split_and!; [done..| |].
  - intros i o n Ho Hn. pose proof (lookup_lt_Some _ _ _ Ho).
    rewrite <-(column_at_lookup _ _ _ Ho), <-(column_at_lookup _ _ _ Hn). by rewrite mapped_column.
  - intros x y Hxy. apply mappedNumber_mono. by apply mapped_order.
Qed.

(** ** A migrated document *)
Lemma compile_then_inv {N} `{!JsNum N, !JsMath N, !JsMicro N} brandMarkFor (w : workflow N) meta q k m :
  compile_then brandMarkFor w meta q k = Migrated m →
  ∃ a, k a = Migrated m ∧ compileWorkflow brandMarkFor w meta (Some q) = match a with inl c => Compiled c | inr r => NotCompiled r end.
Proof. unfold compile_then. destruct (compileWorkflow _ _ _ _) as [c|r|request|f]; [by exists (inl c)|by exists (inr r)|done..]. Qed.

Section Migrated.
Context (brandMarkFor : wnode Q → bool).
Implicit Types (w : workflow Q) (meta : wmeta Q) (e : wedge Q).

(** An edge without the horizontal coordinates of its pins. *)
Definition erase_x e : wedge Q :=
  with_pins e (map (λ p : point Q, (0, p.2)) <$> we_via e) ((λ p, (0, p.2)) <$> we_labelAt e) ((λ _, 0) <$> we_channelX e).
Definition same_but_x w w' : Prop :=
  wf_lanes w' = wf_lanes w ∧ wf_nodes w' = wf_nodes w ∧ wf_phases w' = wf_phases w ∧ wf_groups w' = wf_groups w ∧
  wf_mainPath w' = wf_mainPath w ∧ semanticChecks w' = semanticChecks w ∧
  map erase_x (wf_edges w') = map erase_x (wf_edges w).
(** The same, with a canvas that is no smaller. *)
Definition same_but_larger meta meta' : Prop :=
  mt_legend meta' = mt_legend meta ∧ mt_qualityProfile meta' = mt_qualityProfile meta ∧
  match mt_viewBox meta with
  | None => mt_viewBox meta' = None
  | Some v => ∃ v', mt_viewBox meta' = Some v' ∧ v.1 <= v'.1 ∧ v.2 <= v'.2
  end.

Lemma same_but_larger_refl meta : same_but_larger meta meta.
Proof. unfold same_but_larger. destruct (mt_viewBox meta) as [v|]; split_and!; try done. exists v. split_and!; [done|apply Qle_refl..]. Qed.
Lemma expanded_larger meta a expanded : expanded_viewBox meta a = Some expanded → same_but_larger meta (with_viewBox (Some expanded) meta).
Proof.
  unfold expanded_viewBox, same_but_larger. destruct (mt_viewBox meta) as [v|]; [|done]. cbn [mbind option_bind].
  destruct (expandableViewBox a) as [r|]; [|done]. cbn [mbind option_bind]. destruct (_ || _); [|done]. intros [= <-]. cbn.
  split_and!; [done..|]. eexists. split_and!; [done|apply Q_nmax_ge..].
Qed.

Section Pins.
Context (mapX : Q → Q).
Lemma map_via_same path (via : list (point Q)) : map (λ p : point Q, (0, p.2)) (map_via mapX path via).1 = map (λ p : point Q, (0, p.2)) via.
Proof.
  unfold map_via. cbn [fst]. apply list_eq. intros k. change (map ?f ?l) with (f <$> l).
  rewrite !list_lookup_fmap, list_lookup_imap. by destruct (via !! k).
Qed.
Lemma map_edge_same i e : erase_x (map_edge mapX i e).1 = erase_x e.
Proof.
  unfold map_edge, erase_x. destruct e as [id from to label variant role fs ts route via labelAt dx dy seg cx cy bias wd].
  destruct via as [via|], labelAt as [labelAt|], cx as [cx|]; cbn; try done; unfold with_pins; cbn;
    do 2 f_equal; apply (map_via_same _ via).
Qed.
Lemma mapped_same w : same_but_x w (mapExplicitCoordinates mapX (with_version 2 w)).1.
Proof.
  unfold same_but_x, mapExplicitCoordinates. cbn. split_and!; try done. apply list_eq. intros k.
  change (map ?f ?l) with (f <$> l). rewrite !list_lookup_fmap, list_lookup_imap.
  destruct (wf_edges w !! k) as [e|]; [|done]. cbn. f_equal. apply map_edge_same.
Qed.
End Pins.
Lemma candidate_same w old new w' changes : createMappedWorkflowCandidate w old new = inr (w', changes) →
  schema_version w' = 2%Z ∧ same_but_x w w'.
Proof.
  unfold createMappedWorkflowCandidate. destruct (createHorizontalRankMapper old new) as [|mapX]; [done|].
  destruct (mapExplicitCoordinates mapX (with_version 2 w)) as [w1 c1] eqn:E. intros [= <- <-].
  pose proof (mapped_same mapX w) as H. rewrite E in H. split; [|exact H]. by injection E as <- <-.
Qed.

(** The migration of [w] has the result [m], which names a document. *)
Record migrated_well w meta (m : migration Q) w' meta' (c : compiled Q) : Prop := {
  mw_document : mg_document m = Some (w', meta');
  mw_compiles : compileWorkflow brandMarkFor w' meta' (Some (quality_profile meta)) = Compiled c;
  mw_required : mg_newRequiredViewBox m = Some (cp_required c);
  mw_version : schema_version w' = 2%Z;
  mw_same : same_but_x w w';
  mw_meta : same_but_larger meta meta'
}.

Lemma finished w meta w' meta' pre changes old plannedBox a m : finish_migration w' meta' pre changes old plannedBox a = Migrated m →
  mg_ok m = true → schema_version w' = 2%Z → same_but_x w w' → same_but_larger meta meta' →
  compileWorkflow brandMarkFor w' meta' (Some (quality_profile meta)) = match a with inl c => Compiled c | inr r => NotCompiled r end →
  ∃ c, migrated_well w meta m w' meta' c.
Proof. unfold finish_migration. destruct a as [c|r]; intros [= <-]; [|done]. intros _ Hv Hs Hl Hc. exists c. by split. Qed.

Lemma mapped_and_compiled w meta pre old columns p m :
  map_and_compile brandMarkFor w meta (quality_profile meta) pre old columns p = Migrated m → mg_ok m = true →
  ∃ w' meta' c, migrated_well w meta m w' meta' c.
Proof.
  unfold map_and_compile. destruct (createMappedWorkflowCandidate _ _ _) as [reason|[w' changes]] eqn:Hcand; [by intros [= <-]|].
  apply candidate_same in Hcand as [Hv Hs]. intros (a&Hk&Ha)%compile_then_inv Hok.
  destruct (expanded_viewBox meta a) as [expanded|] eqn:Hexp.
  - apply compile_then_inv in Hk as (b&Hk&Hb). exists w', (with_viewBox (Some expanded) meta).
    eapply finished; [exact Hk|done|done|done|by eapply expanded_larger|exact Hb].
  - exists w', meta. eapply finished; [exact Hk|done|done|done|apply same_but_larger_refl|exact Ha].
Qed.

Lemma migration_well w meta m : migrateWorkflowDocument brandMarkFor w meta = Migrated m → mg_ok m = true →
  ∃ w' meta' c, migrated_well w meta m w' meta' c.
Proof.
  unfold migrateWorkflowDocument. destruct (Z.eqb_spec (schema_version w) 2) as [Hv|].
  { intros (a&Hk&Ha)%compile_then_inv Hok. destruct a as [c|r]; injection Hk as <-; [|done].
    exists w, meta, c. split; try done. apply same_but_larger_refl. }
  destruct (negb _); [by intros [= <-]|]. unfold migrate_legacy. cbn [legacyLayoutProbe legacyRequirementProbe].
  intros (legacy&H1&_)%compile_then_inv Hok. apply compile_then_inv in H1 as (probe&H2&_).
  destruct probe as [probe|r]; [|by injection H2 as <-]. apply compile_then_inv in H2 as (req&H3&_).
  unfold plan_columns in H3. cbn [intrinsicWorkflow] in H3. apply compile_then_inv in H3 as (a&H4&_).
  destruct a as [p|r]; [by eapply mapped_and_compiled|].
  destruct (planningWorkflow w meta) as [pw pm]. apply compile_then_inv in H4 as (b&H5&_).
  destruct b as [p|r']; [by eapply mapped_and_compiled|by injection H5 as <-].
Qed.

(** C29: a migrated document compiles, and is the source but for what a migration
    may change.  When the migration succeeds, its document is of the readable
    layout and compiles under the quality profile its author states; lanes,
    nodes, phases, groups, main path, contract and legend are those of the
    source, and so are the edges but for the horizontal coordinates of their
    pins; and a canvas the author states is kept or enlarged, never reduced. *)
Theorem migrated_document w meta m : migrateWorkflowDocument brandMarkFor w meta = Migrated m → mg_ok m = true →
  ∃ w' meta' c, mg_document m = Some (w', meta') ∧ schema_version w' = 2%Z ∧
    compileWorkflow brandMarkFor w' meta' (Some (quality_profile meta)) = Compiled c ∧
    mg_newRequiredViewBox m = Some (cp_required c) ∧ same_but_x w w' ∧ same_but_larger meta meta'.
Proof. intros Hm Hok. destruct (migration_well w meta m Hm Hok) as (w'&meta'&c&[]). by exists w', meta', c. Qed.

(** C30: migrating a migrated document changes nothing.  The document of a
    successful migration is migrated to itself, without diagnostics and without
    changed coordinates, and requires the canvas it required before. *)
Theorem migration_idempotent w meta m w' meta' : migrateWorkflowDocument brandMarkFor w meta = Migrated m → mg_ok m = true →
  mg_document m = Some (w', meta') →
  migrateWorkflowDocument brandMarkFor w' meta' =
    Migrated (migrated_to 2 w' meta' None [] (mg_newRequiredViewBox m) (mg_newRequiredViewBox m)).
Proof.
  intros Hm Hok Hdoc. destruct (migration_well w meta m Hm Hok) as (w1&meta1&c&[Hd Hc Hreq Hv _ (_&Hq&_)]).
  rewrite Hd in Hdoc. injection Hdoc as -> ->. unfold migrateWorkflowDocument. rewrite Hv. cbn [Z.eqb Pos.eqb].
  assert (quality_profile meta' = quality_profile meta) as -> by (unfold quality_profile; by rewrite Hq).
  unfold compile_then. by rewrite Hc, Hreq.
Qed.
End Migrated.

(** ** Examples *)
(** A case of the repository's own tests. *)
Example mapper_sample : match createHorizontalRankMapper [88; 220; 300] [94; 214; 334] with
  | inr mapX => map mapX [220; 260; 300] = [214000000 # 1000000; 274000000 # 1000000; 334000000 # 1000000]
  | inl _ => False
  end.
Proof. vm_compute. reflexivity. Qed.

(** Two linked nodes in the fixed layout, the label of the link pinned, on a canvas
    that is too small for the readable layout. *)
Definition pinned_legacy : workflow Q :=
  {| schema_version := 1; wf_lanes := [{| ln_id := "a"; ln_label := "A"; ln_variant := None |}];
     wf_nodes := [plain_node "x" "a" 0 "X"; plain_node "y" "a" 2 "Y"];
     wf_edges := [with_pins (plain_edge "x" "y" (Some "ok")) None (Some (200, 80)) None];
     wf_phases := None; wf_groups := None; wf_mainPath := None; semanticChecks := None |}.
Definition low_meta : wmeta Q := {| mt_legend := mt_legend short_meta; mt_viewBox := Some (720, 240); mt_qualityProfile := None |}.
Definition migrates (r : migration_result Q) : bool :=
  match r with Migrated m => mg_ok m && (length (mg_changedCoordinates m) =? 1)%nat | MigrationThrows _ => false end.
Lemma pinned_migrates : ∃ m, migrateWorkflowDocument (λ _, false) pinned_legacy low_meta = Migrated m ∧ mg_ok m = true.
Proof.
  assert (H : migrates (migrateWorkflowDocument (λ _, false) pinned_legacy low_meta) = true) by (vm_compute; reflexivity).
  unfold migrates in H. destruct (migrateWorkflowDocument _ _ _) as [m|f]; [|done].
  exists m. split; [done|]. by apply andb_true_iff in H as [H _].
Qed.

Lemma migrated_document_witness : ∃ m w' meta', migrateWorkflowDocument (λ _, false) pinned_legacy low_meta = Migrated m ∧
  mg_document m = Some (w', meta') ∧ schema_version w' = 2%Z.
Proof.
  destruct pinned_migrates as (m&Hm&Hok).
  destruct (migrated_document (λ _, false) pinned_legacy low_meta m Hm Hok) as (w'&meta'&c&Hd&Hv&_).
  exists m, w', meta'. split; [exact Hm|split; [exact Hd|exact Hv]].
Defined.

Lemma migration_idempotent_witness : ∃ m w' meta', mg_document m = Some (w', meta') ∧
  migrateWorkflowDocument (λ _, false) w' meta' =
    Migrated (migrated_to 2 w' meta' None [] (mg_newRequiredViewBox m) (mg_newRequiredViewBox m)).
Proof.
  destruct pinned_migrates as (m&Hm&Hok). destruct (migration_well _ _ _ _ Hm Hok) as (w'&meta'&c&Hwell).
  exists m, w', meta'. split; [exact (mw_document _ _ _ _ _ _ _ Hwell)|].
  exact (migration_idempotent (λ _, false) pinned_legacy low_meta m w' meta' Hm Hok (mw_document _ _ _ _ _ _ _ Hwell)).
Defined.
